(* ===== verification/_CoqProject ===== *)
-Q . S2P
Prelude.v
Buffers.v
StdAlgorithms.v
CppStrings.v
CppInput.v
CppDouble.v
StdMap.v
CppFormat.v
Crc32c.v
Frame.v
FrameCodec.v
WalRecord.v
Segment.v
ReplayIndex.v
WalWriter.v
WalReader.v
WalDamage.v
WalLog.v
SpscRing.v
RingConcurrency.v
WeakMemory.v
RingWeak.v
RingLink.v
Backpressure.v
Seqlock.v
SeqlockWeak.v
TcpReassembler.v
FuzzTargets.v
Stress.v
QueueStream.v
TcpInterface.v
UdpInterface.v
IoUring.v
NetworkInterfaces.v
Faults.v
FaultRuns.v
SubscriptionManager.v
TfManager.v
NetworkBridge.v
BridgeNode.v
LossyLink.v
BridgeLog.v
Scenario.v
Evaluation.v
Registry.v
CivilTime.v
Report.v
Sensors.v
CanBus.v
Publishers.v
ScenarioRunner.v
CanSession.v
Drivers.v
Bench.v
UnitTests.v
