(* ===== verification/Prelude.v ===== *)
(** * SensorForge: a verification development

    SensorForge carries sensor data between ROS 2 machines and tests the link
    under scripted faults.  A _bridge node_ subscribes to topics, puts every
    message into a checksummed frame, compresses it, optionally records it in
    a write-ahead log and sends it over a network interface; another bridge
    undoes this and publishes.  A _scenario_ says which streams run, which
    faults are injected and what the measured metrics must satisfy.  This
    library models the C++ code of these parts and proves what makes them
    correct.

    ** Parts and files

    Foundations (no code of the repository):
    - [Prelude.v]: machine integers ([wrap], [is_uint]), notations for the bit
      operations, tactics, hint databases, lemmas on lists and options;
    - [Buffers.v]: the result type of buffer accesses ([OutOfBounds] is a
      memory error of the C++ program), little-endian integers;
    - [StdAlgorithms.v], [CppStrings.v], [CppInput.v], [CppDouble.v],
      [StdMap.v], [CppFormat.v]: what the code uses of the C++ standard
      library (algorithms, strings, ordered maps, numbers from and to text)
      and of [double].

    Wire and log formats:
    - [Crc32c.v] ([include/sensorforge/protocol/crc32c.hpp]): table, software
      and instruction paths of [crc32c]; they agree, and detect bursts.  The
      class [Checksum] is the promise to the codecs, which are proved against
      it and not against the polynomial;
    - [Frame.v], [FrameCodec.v] ([protocol/frame.hpp], [frame_codec.hpp],
      [src/protocol/frame_codec.cpp]): [encode_frame], [decode_header],
      [FrameDecoder]; round trips in both directions, exact acceptance, the
      order of errors, burst detection, refinement of the history of a stream;
    - [WalRecord.v], [Segment.v], [ReplayIndex.v] ([replay/record.hpp],
      [segment.hpp], [replay_index.hpp]): the log's record codec, its file
      names, its time index.

    The log:
    - [WalWriter.v], [WalReader.v] ([src/replay/wal_writer.cpp],
      [wal_reader.cpp]): appending with roll-over under I/O errors; recovery
      scan, ordering, replay;
    - [WalDamage.v]: recovery from damage; [WalLog.v]: writer and reader
      together, what was appended is what is loaded.

    Queues between threads:
    - [WeakMemory.v]: release/acquire memory, the semantics of the atomics,
      fences and non-atomic accesses below;
    - [SpscRing.v] ([core/spsc_ring.hpp]) sequentially, a bounded FIFO;
      [RingWeak.v] the operations of two threads with their memory orders: no
      data race, nothing lost, repeated or reordered; [RingConcurrency.v] as
      interleaved steps, with [force_push_overwrite]; [RingLink.v]: every
      interleaving is an execution of [RingWeak.v];
    - [Backpressure.v] ([core/backpressure_policy.hpp]);
    - [SeqlockWeak.v] ([core/seqlock.hpp]) with its memory orders and fences,
      one writer and any number of readers; [Seqlock.v] as interleaved steps;
    - [QueueStream.v] ([network_bridge/thrift_stream_queue.hpp]): how a blocking
      read ends for every sequence of wake-ups.

    Transport:
    - [TcpReassembler.v] ([transport/tcp_reassembler.hpp]);
    - [TcpInterface.v], [UdpInterface.v], [IoUring.v]
      ([src/network_interfaces/*.cpp]): the three interfaces, each with its
      threads, pending operations and flags;
    - [NetworkInterfaces.v] ([network_interfaces/network_interface_base.hpp]):
      the virtual operations as a class, what the bridge relies on as the
      classes [Restartable] and [Transport], and the instances;
    - [Faults.v], [FaultRuns.v] ([faults/fault_engine.cpp]), called by the
      bridge before the network and by the scenario runner at ingest: the
      engine, and what a whole run through it does to the frames.

    The bridge:
    - [SubscriptionManager.v] ([src/subscription_manager.cpp]), on the ring
      and the policies;
    - [TfManager.v] ([src/subscription_manager_tf.cpp]);
    - [NetworkBridge.v] ([src/network_bridge.cpp]): both data paths from end
      to end, using the codecs, the log and the fault engine;
    - [BridgeNode.v] (the same file): initialize, shutdown, timers and health
      check over any interface of the class; from node to node over any
      transport;
    - [LossyLink.v]: the path over a link that loses, repeats, reorders and
      damages frames; [BridgeLog.v]: what a bridge recorded is what a replay
      publishes.

    Scenarios:
    - [Scenario.v] ([scenario/scenario.cpp]): data and parser;
    - [Evaluation.v] ([scenario/metrics.hpp], [assertion.cpp],
      [namespace_manager.hpp]): statistics, verdicts, summaries;
    - [Registry.v] ([metrics/registry.hpp], [prometheus_exporter.cpp]): metric
      families, the text format and the HTTP exporter;
    - [Report.v] ([report/*.cpp]): the JSON and HTML reports;
    - [CivilTime.v] ([iso8601_now] of [report_builder.cpp]): the time stamp of a
      report from the seconds of the clock: the calendar fields are in range and
      invert, and different seconds have different stamps;
    - [Sensors.v], [CanBus.v] ([sensors/*.cpp]): what the synthetic publishers
      make at a tick, the CAN messages and their reader; [Publishers.v]: the
      nodes around the ticks, the CAN bus from publisher to metrics;
    - [ScenarioRunner.v] ([scenario/scenario_runner.cpp]): publishers as child
      processes, recording through the fault engines, verdict, reports;
    - [CanSession.v]: the descriptor of the CAN thread over such a run;
    - [Drivers.v] ([scenario/parallel_runner.cpp] and the main programs):
      one scenario, or several side by side that share the CAN bus and the
      deadline.

    Test programs whose questions have an answer for all inputs:
    - [FuzzTargets.v] ([fuzz/], the YAML target in [Scenario.v]) and
      [Stress.v] ([stress/]);
    - [Bench.v] ([bench/], [transport/bench_udp_transport.cpp]): what a
      benchmark runs, counts and reports; its clock is a parameter;
    - [UnitTests.v] ([test/unit/]): the checks of the unit tests, evaluated on
      the definitions.

    Each file holds a module of its name ([Crc] in [Crc32c.v]) with the data,
    the operations under their C++ names, and the theorems.

    ** How the code is represented

    - Integers are [Z] with the width written at every conversion and at
      every operation that can wrap; signed and pointer-sized quantities that
      cannot leave their range are lengths ([nat]).
    - A buffer is a [list byte], every access is checked; "never leaves its
      buffer" is "never [OutOfBounds]".  A null pointer is [None].
    - [double] is IEEE binary64, executable and without axioms, NaN included.
    - An object is a record of its members; a method takes and returns it.
      Callbacks ([write_], [recv_cb_], publishers) become the log of the calls
      in the state, or the list of arguments.
    - An exception is a value of the result type; a call that never returns is
      a value too ([Blocked]), or has no terminating run.
    - Threads are step relations at the granularity of single accesses to
      shared memory; theorems hold of every reachable state.  The lock-free
      structures are on release/acquire memory, where a load may return an
      older value; in the other components the steps interleave and every load
      returns the newest value.

    Loops are structural recursions wherever the code walks over data.  The
    others have a fuel that is computed from the input and proved sufficient:
    the recovery scan needs one step per byte of the segment; the receive
    thread at most [2 * (bytes to come) + 1] steps; flushing the delayed
    frames one step per frame; [std::lower_bound] one step per element at
    most.  Loops that wait for another thread take a schedule of what the
    other thread does, and the theorems say for which schedules they end.

    ** Parameters

    What the repository does not contain is an argument of the definitions
    that use it, with documented behaviour as named hypotheses: the CRC
    instructions of the processor ([CrcInstructions]), Zstandard ([ZstdOk]:
    decompression inverts compression), the answers of the file system
    ([io]), the random generator and its distributions, the clocks, the
    choice of a priority queue among equal keys, sine, cosine and the normal
    distribution, the answers of [posix_spawn], [kill] and [waitpid], the
    error codes of sockets and the completions of io_uring, the JSON printer,
    the ROS graph and publishers, YAML nodes, regular expressions,
    serialisation of ROS messages.  Theorems that need such a hypothesis have
    a witness with a concrete function.

    ** Not modelled

    Boost.Asio, liburing, sockets, processes, plugin loading and the ROS
    executor appear through their results and events only, [SIGPIPE] and
    undefined behaviour beyond a failed run not at all; stream buffering
    between [ofstream] and the disk and log output are not modelled.  The
    memory model has no store that becomes visible before an earlier load of
    its thread (C++ lets a compiler do that with relaxed accesses).  An iteration
    of the worker of a fault engine is one step.  The
    programs in Python and the launch files are outside of the
    development. *)

From stdpp Require Export prelude gmap strings list numbers sorting.
From coqutil Require Export Byte.

#[global] Open Scope Z_scope.

(** ** Notations for the bit operations of the C++ code *)

Declare Scope sf_scope.
Delimit Scope sf_scope with sf.

Infix "&&&" := Z.land (at level 40, left associativity) : sf_scope.
Infix "|||" := Z.lor (at level 50, left associativity) : sf_scope.
Infix "^^^" := Z.lxor (at level 48, left associativity) : sf_scope.
Infix "<<<" := Z.shiftl (at level 38, left associativity) : sf_scope.
Infix ">>>" := Z.shiftr (at level 38, left associativity) : sf_scope.
#[global] Open Scope sf_scope.

(** ** Machine integers

    A [w]-bit unsigned integer is a [Z]; [wrap w] is the conversion to that
    width ([static_cast], or the wrap-around of unsigned arithmetic) and
    [is_uint w] says that a number is already in range. *)

Definition wrap (w : Z) (z : Z) : Z := z mod 2 ^ w.

Definition is_uint (w : Z) (z : Z) : Prop := 0 <= z < 2 ^ w.

#[export] Instance is_uint_dec w z : Decision (is_uint w z).
Proof. unfold is_uint. apply _. Defined.

Abbreviation u8 := (wrap 8).
Abbreviation u16 := (wrap 16).
Abbreviation u32 := (wrap 32).
Abbreviation u64 := (wrap 64).

(** A byte as a number, and [static_cast<uint8_t>]. *)
Definition b2z (b : byte) : Z := byte.unsigned b.
Definition z2b (z : Z) : byte := byte.of_Z z.

#[export] Instance byte_eq_dec : EqDecision byte := Byte.byte_eq_dec.
#[export] Instance byte_inhabited : Inhabited byte := populate Byte.x00.

(** ** Outcomes of C++ functions

    [Ok] is a normal return, [Throws] an exception (with the name of its
    type) and [OutOfBounds] an access outside of a buffer, which is undefined
    behaviour: the safety theorems say that it is never reached. *)

Inductive outcome (A : Type) : Type :=
| Ok (a : A)
| Throws (exn : string)
| OutOfBounds.
Arguments Ok {A} a.
Arguments Throws {A} exn.
Arguments OutOfBounds {A}.

#[export] Instance outcome_ret : MRet outcome := fun A a => Ok a.
#[export] Instance outcome_bind : MBind outcome := fun A B f m =>
  match m with
  | Ok a => f a
  | Throws e => Throws e
  | OutOfBounds => OutOfBounds
  end.
#[export] Instance outcome_fmap : FMap outcome := fun A B f m =>
  match m with
  | Ok a => Ok (f a)
  | Throws e => Throws e
  | OutOfBounds => OutOfBounds
  end.

(** The reference for a validator that returns at the first failed check. *)
Definition first_failed {E} (ok : E) (checks : list (bool * E)) : E :=
  match List.find fst checks with
  | Some (_, e) => e
  | None => ok
  end.

(** ** Tactics *)

(** Case analysis on the boolean test of the first conditional of the goal,
    with the test as a proposition. *)
Ltac case_test :=
  match goal with
  | |- context [if ?b then _ else _] =>
      let E := fresh "E" in destruct b eqn:E
  end.

Ltac case_test_in H :=
  match type of H with
  | context [if ?b then _ else _] =>
      let E := fresh "E" in destruct b eqn:E
  end.

Ltac bool_to_prop :=
  repeat match goal with
  | H : (_ && _)%bool = true |- _ => apply andb_true_iff in H; destruct H
  | H : (_ || _)%bool = false |- _ => apply orb_false_iff in H; destruct H
  | H : negb _ = true |- _ => apply negb_true_iff in H
  | H : negb _ = false |- _ => apply negb_false_iff in H
  | H : (_ =? _) = true |- _ => apply Z.eqb_eq in H
  | H : (_ =? _) = false |- _ => apply Z.eqb_neq in H
  | H : (_ <? _) = true |- _ => apply Z.ltb_lt in H
  | H : (_ <? _) = false |- _ => apply Z.ltb_ge in H
  | H : (_ <=? _) = true |- _ => apply Z.leb_le in H
  | H : (_ <=? _) = false |- _ => apply Z.leb_gt in H
  | H : (_ >? _) = _ |- _ => rewrite Z.gtb_ltb in H
  | H : (_ =? _)%nat = true |- _ => apply Nat.eqb_eq in H
  | H : (_ =? _)%nat = false |- _ => apply Nat.eqb_neq in H
  | H : (_ <? _)%nat = true |- _ => apply Nat.ltb_lt in H
  | H : (_ <? _)%nat = false |- _ => apply Nat.ltb_ge in H
  | H : (_ <=? _)%nat = true |- _ => apply Nat.leb_le in H
  | H : (_ <=? _)%nat = false |- _ => apply Nat.leb_gt in H
  end.

(** Decides the test of the first conditional of the goal by [lia]. *)
Ltac test_lia :=
  match goal with
  | |- context [if ?b then _ else _] =>
      first [ replace b with true by (symmetry; lia)
            | replace b with false by (symmetry; lia) ]
  end.

(** ** Validators *)

Lemma first_failed_ok {E} (ok : E) checks :
  Forall (fun c => c.2 <> ok) checks ->
  first_failed ok checks = ok <-> Forall (fun c => c.1 = false) checks.
Proof.
  unfold first_failed. induction 1 as [|[b e] cs He _ IH]; cbn [List.find fst]; [done|].
  cbn in He. rewrite Forall_cons; cbn. destruct b; [|by rewrite IH; split; [|intros [_ ?]]].
  by split; [intros ->|intros [? _]].
Qed.

(** ** Integers *)

Create HintDb sf discriminated.
Create Rewrite HintDb sf.

Lemma wrap_range w z : 0 <= w -> is_uint w (wrap w z).
Proof. intros Hw. apply Z.mod_pos_bound. lia. Qed.

Lemma wrap_small w z : is_uint w z -> wrap w z = z.
Proof. apply Z.mod_small. Qed.

Lemma wrap_wrap w z : 0 <= w -> wrap w (wrap w z) = wrap w z.
Proof. intros Hw. by apply wrap_small, wrap_range. Qed.

Lemma wrap_add_l w a b : 0 <= w -> wrap w (wrap w a + b) = wrap w (a + b).
Proof. intros Hw. unfold wrap. apply Zplus_mod_idemp_l. Qed.

Lemma wrap_pred w z : is_uint w z -> 0 <= w -> wrap w (wrap w (z + 1) - 1) = z.
Proof.
  intros Hz Hw. rewrite <- Z.add_opp_r, wrap_add_l by done.
  replace (z + 1 + - (1)) with z by lia. by apply wrap_small.
Qed.

Lemma is_uint_le w w' z : w <= w' -> is_uint w z -> is_uint w' z.
Proof.
  intros Hw [H0 H]. split; [done|].
  apply Z.lt_le_trans with (2 ^ w); [done|]. apply Z.pow_le_mono_r; lia.
Qed.

Lemma b2z_range b : is_uint 8 (b2z b).
Proof. apply byte.unsigned_range. Qed.

Lemma b2z_z2b z : b2z (z2b z) = wrap 8 z.
Proof. apply byte.unsigned_of_Z. Qed.

Lemma z2b_b2z b : z2b (b2z b) = b.
Proof. apply byte.of_Z_unsigned. Qed.

Lemma b2z_inj b1 b2 : b2z b1 = b2z b2 -> b1 = b2.
Proof. apply byte.unsigned_inj. Qed.

Lemma z2b_wrap z : z2b (wrap 8 z) = z2b z.
Proof. apply b2z_inj. rewrite !b2z_z2b. by apply wrap_wrap. Qed.

#[export] Hint Resolve wrap_range b2z_range : sf.
#[export] Hint Rewrite b2z_z2b z2b_b2z z2b_wrap : sf.

(** Bits of a number of known width. *)
Lemma is_uint_testbit w z i : is_uint w z -> w <= i -> Z.testbit z i = false.
Proof.
  intros Hz Hi. rewrite <- (wrap_small w z Hz). unfold wrap.
  destruct (decide (0 <= w)) as [Hw|Hw].
  - by apply Z.mod_pow2_bits_high.
  - destruct Hz as [H1 H2]. rewrite Z.pow_neg_r in H2; lia.
Qed.

Lemma is_uint_bits w z :
  0 <= w -> 0 <= z -> (forall i, w <= i -> Z.testbit z i = false) -> is_uint w z.
Proof.
  intros Hw Hz Hbits.
  assert (z = wrap w z) as ->; [|by apply wrap_range].
  apply Z.bits_inj'. intros i Hi. unfold wrap.
  destruct (decide (i < w)).
  - by rewrite Z.mod_pow2_bits_low.
  - rewrite Z.mod_pow2_bits_high by lia. apply Hbits. lia.
Qed.

Lemma is_uint_lxor w x y : 0 <= w -> is_uint w x -> is_uint w y -> is_uint w (x ^^^ y).
Proof.
  intros Hw Hx Hy. apply is_uint_bits; [done| |].
  - apply Z.lxor_nonneg. destruct Hx, Hy. tauto.
  - intros i Hi. rewrite Z.lxor_spec. by rewrite !(is_uint_testbit w).
Qed.

Lemma is_uint_lor w x y : 0 <= w -> is_uint w x -> is_uint w y -> is_uint w (x ||| y).
Proof.
  intros Hw Hx Hy. apply is_uint_bits; [done| |].
  - apply Z.lor_nonneg. destruct Hx, Hy. tauto.
  - intros i Hi. rewrite Z.lor_spec. by rewrite !(is_uint_testbit w).
Qed.

Lemma is_uint_shiftr w x n : 0 <= w -> 0 <= n -> is_uint w x -> is_uint w (x >>> n).
Proof.
  intros Hw Hn Hx. apply is_uint_bits; [done| |].
  - apply Z.shiftr_nonneg. by destruct Hx.
  - intros i Hi. rewrite Z.shiftr_spec by lia. apply (is_uint_testbit w); [done|lia].
Qed.

Lemma wrap_testbit w z i :
  0 <= w -> 0 <= i -> Z.testbit (wrap w z) i = (i <? w) && Z.testbit z i.
Proof.
  intros Hw Hi. unfold wrap. destruct (Z.ltb_spec i w).
  - by rewrite Z.mod_pow2_bits_low by lia.
  - by rewrite Z.mod_pow2_bits_high by lia.
Qed.

Lemma wrap_lxor w x y : 0 <= w -> wrap w (x ^^^ y) = wrap w x ^^^ wrap w y.
Proof.
  intros Hw. apply Z.bits_inj'. intros i Hi.
  rewrite !Z.lxor_spec, !wrap_testbit, Z.lxor_spec by lia.
  by destruct (i <? w).
Qed.

Lemma land_mask w z : 0 <= w -> z &&& (2 ^ w - 1) = wrap w z.
Proof.
  intros Hw. unfold wrap. rewrite <- Z.land_ones by done. f_equal.
  rewrite Z.ones_equiv. lia.
Qed.
