(* ===== verification/Buffers.v ===== *)
(** * Buffers: bounds-checked reads and writes, little-endian integers

    A C++ buffer ([const uint8_t *] with its length, [std::vector<uint8_t>])
    is a [list byte].  Every read and write of the models goes through [rd],
    [rd_range] and [store], which return [OutOfBounds] outside of the buffer.
    The [le_bytes]/[le_value] pair is the reference little-endian encoding the
    hand-written helpers of the codecs are compared with. *)

From S2P Require Export Prelude.

(** [slice off n l]: the range [off, off + n) of [l]. *)
Definition slice {A} (off n : nat) (l : list A) : list A := take n (drop off l).

(** [p[i]] for a read. *)
Definition rd (p : list byte) (i : nat) : outcome Z :=
  match p !! i with
  | Some b => Ok (b2z b)
  | None => OutOfBounds
  end.

(** The bytes [data, data + n) handed to a callee, which reads all of them. *)
Definition rd_range (p : list byte) (off n : nat) : outcome (list byte) :=
  if (off + n <=? length p)%nat then Ok (slice off n p) else OutOfBounds.

(** Consecutive assignments [p[off] = bs[0]; p[off + 1] = bs[1]; ...]. *)
Definition store (off : nat) (bs : list byte) (p : list byte) : outcome (list byte) :=
  if (off + length bs <=? length p)%nat
  then Ok (take off p ++ bs ++ drop (off + length bs) p)
  else OutOfBounds.

(** [n]-byte little-endian serialisation and its inverse: the reference
    definitions the codecs' helpers are compared with. *)
Fixpoint le_bytes (n : nat) (v : Z) : list byte :=
  match n with
  | O => []
  | S n => z2b v :: le_bytes n (v >>> 8)
  end.

Fixpoint le_value (bs : list byte) : Z :=
  match bs with
  | [] => 0
  | b :: bs => b2z b ||| (le_value bs <<< 8)
  end.

(** Reads [n] bytes at [off] as one number. *)
Definition rd_le (n : nat) (p : list byte) (off : nat) : outcome Z :=
  if (off + n <=? length p)%nat then Ok (le_value (slice off n p)) else OutOfBounds.

(** ** Little-endian integers *)

Lemma length_le_bytes n v : length (le_bytes n v) = n.
Proof. revert v. induction n as [|n IH]; intros v; [done|]. cbn. by rewrite IH. Qed.

Lemma le_value_nonneg bs : 0 <= le_value bs.
Proof.
  induction bs as [|b bs IH]; cbn [le_value]; [done|].
  apply Z.lor_nonneg. split; [apply b2z_range|]. by apply Z.shiftl_nonneg.
Qed.

(** The low byte and the other bytes of a number do not overlap. *)
Lemma lor_shiftl_8 b v : is_uint 8 b -> b ||| (v <<< 8) = b + 256 * v.
Proof.
  intros Hb. rewrite <- Z.add_nocarry_lor.
  - rewrite Z.shiftl_mul_pow2 by lia. lia.
  - apply Z.bits_inj'. intros i Hi. rewrite Z.land_spec, Z.bits_0, Z.shiftl_spec by lia.
    destruct (decide (8 <= i)).
    + by rewrite (is_uint_testbit 8).
    + by rewrite (Z.testbit_neg_r v), andb_false_r by lia.
Qed.

Lemma le_value_cons b bs : le_value (b :: bs) = b2z b + 256 * le_value bs.
Proof. apply lor_shiftl_8, b2z_range. Qed.

Lemma le_value_le_bytes n v : le_value (le_bytes n v) = wrap (8 * Z.of_nat n) v.
Proof.
  revert v. induction n as [|n IH]; intros v.
  - cbn. unfold wrap. by rewrite Z.mod_1_r.
  - cbn [le_bytes]. rewrite le_value_cons, b2z_z2b, IH, Z.shiftr_div_pow2 by lia.
    unfold wrap. replace (8 * Z.of_nat (S n)) with (8 + 8 * Z.of_nat n) by lia.
    rewrite Z.pow_add_r, Z.rem_mul_r by lia. done.
Qed.

Lemma le_value_field n k v : k = 8 * Z.of_nat n -> is_uint k v -> le_value (le_bytes n v) = v.
Proof. intros ->. rewrite le_value_le_bytes. apply wrap_small. Qed.

Lemma le_value_app a b :
  le_value (a ++ b) = le_value a + 2 ^ (8 * Z.of_nat (length a)) * le_value b.
Proof.
  induction a as [|x a IH].
  - cbn [app length]. change (le_value []) with 0. lia.
  - cbn [app length]. rewrite !le_value_cons, IH.
    replace (8 * Z.of_nat (S (length a))) with (8 + 8 * Z.of_nat (length a)) by lia.
    rewrite Z.pow_add_r by lia. lia.
Qed.

Lemma le_value_range bs : is_uint (8 * Z.of_nat (length bs)) (le_value bs).
Proof.
  induction bs as [|b bs IH]; [done|].
  rewrite le_value_cons. pose proof (b2z_range b) as Hb. unfold is_uint in *.
  cbn [length]. replace (8 * Z.of_nat (S (length bs))) with (8 + 8 * Z.of_nat (length bs)) by lia.
  rewrite Z.pow_add_r by lia. lia.
Qed.

Lemma add_shiftl_lxor w v u : 0 <= w -> is_uint w v -> v + 2 ^ w * u = v ^^^ (u <<< w).
Proof.
  intros Hw Hv. rewrite (Z.mul_comm (2 ^ w)), <- Z.shiftl_mul_pow2 by lia.
  apply Z.add_nocarry_lxor.
  apply Z.bits_inj'. intros j Hj. rewrite Z.land_spec, Z.bits_0, Z.shiftl_spec by lia.
  destruct (decide (w <= j)).
  - by rewrite (is_uint_testbit w v).
  - by rewrite (Z.testbit_neg_r u), andb_false_r by lia.
Qed.

Lemma le_value_app_lxor a b :
  le_value (a ++ b) = le_value a ^^^ (le_value b <<< (8 * Z.of_nat (length a))).
Proof. rewrite le_value_app. apply add_shiftl_lxor; [lia|apply le_value_range]. Qed.

Lemma le_bytes_le_value bs : le_bytes (length bs) (le_value bs) = bs.
Proof.
  induction bs as [|b bs IH]; [done|].
  cbn [length le_bytes]. rewrite le_value_cons. pose proof (b2z_range b) as Hb.
  f_equal.
  - apply b2z_inj. rewrite b2z_z2b. unfold wrap, is_uint in *.
    change (2 ^ 8) with 256 in *.
    rewrite (Z.mul_comm 256), Z.mod_add by lia. apply Z.mod_small. exact Hb.
  - rewrite Z.shiftr_div_pow2 by lia. change (2 ^ 8) with 256.
    rewrite (Z.mul_comm 256), Z.div_add, (Z.div_small (b2z b) 256 Hb) by lia. exact IH.
Qed.

Lemma le_value_inj a b : length a = length b -> le_value a = le_value b -> a = b.
Proof.
  intros Hl Hv. rewrite <- (le_bytes_le_value a), <- (le_bytes_le_value b).
  by rewrite Hl, Hv.
Qed.

Lemma le_bytes_wrap n v : le_bytes n (wrap (8 * Z.of_nat n) v) = le_bytes n v.
Proof.
  apply le_value_inj; [by rewrite !length_le_bytes|].
  rewrite !le_value_le_bytes. apply wrap_wrap. lia.
Qed.

(** ** Reads *)

Lemma rd_app_l p q i : (i < length p)%nat -> rd (p ++ q) i = rd p i.
Proof. intros Hi. unfold rd. by rewrite lookup_app_l. Qed.

Lemma rd_app_r p q n i : length p = n -> rd (p ++ q) (n + i) = rd q i.
Proof. intros <-. unfold rd. rewrite lookup_app_r by lia.
  by replace (length p + i - length p)%nat with i by lia. Qed.

Lemma rd_in p i : (i < length p)%nat -> exists b, p !! i = Some b /\ rd p i = Ok (b2z b).
Proof.
  intros Hi. destruct (lookup_lt_is_Some_2 p i Hi) as [b Hb].
  exists b. split; [done|]. unfold rd. by rewrite Hb.
Qed.

Lemma length_slice {A} off n (l : list A) :
  (off + n <= length l)%nat -> length (slice off n l) = n.
Proof. intros H. unfold slice. rewrite length_take, length_drop. lia. Qed.

Lemma slice_app_mid {A} (a b c : list A) off n :
  length a = off -> length b = n -> slice off n (a ++ b ++ c) = b.
Proof. intros <- <-. unfold slice. by rewrite drop_app_length, take_app_length. Qed.

Lemma slice_0_app {A} (a b : list A) n : length a = n -> slice 0 n (a ++ b) = a.
Proof. intros <-. unfold slice. by rewrite drop_0, take_app_length. Qed.

Lemma slice_split {A} off n m (l : list A) :
  slice off (n + m) l = slice off n l ++ slice (off + n) m l.
Proof.
  unfold slice. rewrite <- (drop_drop l).
  rewrite <- (take_drop n (take (n + m) (drop off l))).
  rewrite take_take, Nat.min_l by lia. f_equal.
  rewrite skipn_firstn_comm. f_equal. lia.
Qed.

Lemma slice_full {A} (l : list A) : slice 0 (length l) l = l.
Proof. unfold slice. by rewrite drop_0, firstn_all. Qed.

Lemma rd_range_ok p off n :
  (off + n <= length p)%nat -> rd_range p off n = Ok (slice off n p).
Proof. intros H. unfold rd_range. by rewrite (proj2 (Nat.leb_le _ _) H). Qed.

Lemma rd_range_mid a b c off n :
  length a = off -> length b = n -> rd_range (a ++ b ++ c) off n = Ok b.
Proof.
  intros Ha Hb. rewrite rd_range_ok by (rewrite !length_app; lia).
  by rewrite slice_app_mid.
Qed.

Lemma slice_cons {A} off n (l : list A) x :
  l !! off = Some x -> slice off (S n) l = x :: slice (S off) n l.
Proof.
  intros H. unfold slice. by rewrite (drop_S l x off H).
Qed.

Lemma rd_le_S n p off :
  rd_le (S n) p off = b ← rd p off; v ← rd_le n p (off + 1); Ok (b ||| (v <<< 8)).
Proof.
  unfold rd_le, rd. destruct (p !! off) as [b|] eqn:E.
  - rewrite Nat.add_succ_r. cbn [mbind outcome_bind].
    replace (off + 1 + n)%nat with (S (off + n)) by lia. case_test; [|done].
    replace (off + 1)%nat with (S off) by lia. cbn. by rewrite (slice_cons _ _ _ _ E).
  - apply lookup_ge_None_1 in E. by rewrite (proj2 (Nat.leb_gt _ _)) by lia.
Qed.

Lemma rd_le_0 p off : (off <= length p)%nat -> rd_le 0 p off = Ok 0.
Proof. intros H. unfold rd_le. by rewrite (proj2 (Nat.leb_le _ _)) by lia. Qed.

Lemma rd_le_1 p off : rd_le 1 p off = rd p off.
Proof.
  rewrite rd_le_S. destruct (rd p off) as [b| |] eqn:E; [|done|done]. cbn.
  unfold rd in E. destruct (p !! off) eqn:El; [|done].
  apply lookup_lt_Some in El. rewrite rd_le_0 by lia. cbn. by rewrite Z.lor_0_r.
Qed.

Lemma rd_byte p off b : rd p off = Ok b -> is_uint 8 b.
Proof. unfold rd. destruct (p !! off); [|done]. intros [= <-]. apply b2z_range. Qed.

Lemma wrap_shl_byte w k b :
  is_uint 8 b -> 0 <= k -> k + 8 <= w -> wrap w (b <<< k) = b <<< k.
Proof.
  intros [Hb0 Hb] Hk Hw. apply wrap_small. rewrite Z.shiftl_mul_pow2 by lia.
  assert (0 < 2 ^ k) by (apply Z.pow_pos_nonneg; lia).
  assert (2 ^ k * 2 ^ 8 <= 2 ^ w) by (rewrite <- Z.pow_add_r by lia; apply Z.pow_le_mono_r; lia).
  split; nia.
Qed.

(** Case analysis on the reads of a goal, in their order. *)
Ltac case_reads :=
  repeat match goal with
  | |- context [rd ?p ?o] =>
      let E := fresh "E" in
      destruct (rd p o) eqn:E; cbn [mbind outcome_bind];
      [apply rd_byte in E|reflexivity..]
  end.

Ltac lor_bytes :=
  rewrite ?wrap_shl_byte by first [assumption|lia];
  rewrite ?Z.shiftl_0_r, ?Z.lor_0_l;
  rewrite ?Z.shiftl_lor, ?Z.shiftl_shiftl, ?Z.lor_assoc by lia; try reflexivity.

(** The hand-written two-, four- and eight-byte readers of the codecs. *)
Lemma rd_le_2_spec p off :
  (p0 ← rd p off; p1 ← rd p (off + 1); Ok (u16 (p0 ||| (p1 <<< 8)))) = rd_le 2 p off.
Proof.
  rewrite rd_le_S, rd_le_1. case_reads.
  f_equal. apply wrap_small, is_uint_lor; [lia|by eapply is_uint_le; [|done]; lia|].
  rewrite <- (wrap_shl_byte 16 8) by first [assumption|lia]. by apply wrap_range.
Qed.

Lemma rd_le_4_spec p off :
  (p0 ← rd p off; p1 ← rd p (off + 1); p2 ← rd p (off + 2); p3 ← rd p (off + 3);
   Ok (p0 ||| u32 (p1 <<< 8) ||| u32 (p2 <<< 16) ||| u32 (p3 <<< 24))) = rd_le 4 p off.
Proof.
  do 3 rewrite rd_le_S. rewrite rd_le_1, <- !Nat.add_assoc.
  cbn [Nat.add]. case_reads. f_equal. lor_bytes.
Qed.

Lemma rd_le_8_spec p off :
  foldl (fun acc i => v ← acc; pi ← rd p (off + i); Ok (v ||| u64 (pi <<< (8 * Z.of_nat i))))
    (Ok 0) (seq 0 8) = rd_le 8 p off.
Proof.
  do 7 rewrite rd_le_S. rewrite rd_le_1, <- !Nat.add_assoc.
  cbn [seq foldl mbind outcome_bind Nat.add]. rewrite Nat.add_0_r.
  case_reads. f_equal. lor_bytes.
Qed.

Lemma rd_le_mid pre bs post off n :
  length pre = off -> length bs = n -> rd_le n (pre ++ bs ++ post) off = Ok (le_value bs).
Proof.
  intros Hp Hb. unfold rd_le. rewrite (proj2 (Nat.leb_le _ _)) by (rewrite !length_app; lia).
  by rewrite slice_app_mid.
Qed.

Lemma rd_le_in n p off :
  (off + n <= length p)%nat -> rd_le n p off = Ok (le_value (slice off n p)).
Proof. intros H. unfold rd_le. by rewrite (proj2 (Nat.leb_le _ _)). Qed.

Lemma le_value_slice_range n off p k : k = 8 * Z.of_nat n -> is_uint k (le_value (slice off n p)).
Proof.
  intros ->. eapply is_uint_le; [|apply le_value_range].
  unfold slice. rewrite length_take. lia.
Qed.

Lemma le_bytes_slice n off p :
  (off + n <= length p)%nat -> le_bytes n (le_value (slice off n p)) = slice off n p.
Proof. intros H. rewrite <- (length_slice off n p H) at 1. apply le_bytes_le_value. Qed.

(** The hand-written writers. *)
Lemma z2b_low v : z2b (v &&& 0xFF) = z2b v.
Proof. change 0xFF with (2 ^ 8 - 1). rewrite land_mask by lia. apply z2b_wrap. Qed.

Lemma le_bytes_2 v : [z2b (v &&& 0xFF); z2b ((v >>> 8) &&& 0xFF)] = le_bytes 2 v.
Proof. cbn [le_bytes]. by rewrite !z2b_low. Qed.

Lemma le_bytes_shifts n v :
  map (fun i => z2b ((v >>> (8 * Z.of_nat i)) &&& 0xFF)) (seq 0 n) = le_bytes n v.
Proof.
  revert v. induction n as [|n IH]; intros v; [done|].
  cbn [le_bytes seq map]. rewrite z2b_low. f_equal.
  rewrite <- IH, <- seq_shift, map_map. apply map_ext. intros i.
  rewrite Z.shiftr_shiftr by lia. do 3 f_equal. lia.
Qed.

Lemma le_bytes_4 v :
  [z2b (v &&& 0xFF); z2b ((v >>> 8) &&& 0xFF); z2b ((v >>> 16) &&& 0xFF); z2b ((v >>> 24) &&& 0xFF)]
  = le_bytes 4 v.
Proof. exact (le_bytes_shifts 4 v). Qed.

Lemma rd_range_prefix a b n : length a = n -> rd_range (a ++ b) 0 n = Ok a.
Proof. intros Ha. by apply (rd_range_mid [] a b). Qed.

(** ** Writes *)

Lemma store_mid pre old post bs off :
  length pre = off -> length old = length bs ->
  store off bs (pre ++ old ++ post) = Ok (pre ++ bs ++ post).
Proof.
  intros <- Hl. unfold store. rewrite (proj2 (Nat.leb_le _ _)) by (rewrite !length_app; lia).
  by rewrite take_app_length, <- Hl, drop_app_add, drop_app_length.
Qed.

Lemma store_length off bs p p' : store off bs p = Ok p' -> length p' = length p.
Proof.
  unfold store. case_test; [|done]. intros [= <-]. bool_to_prop.
  rewrite !length_app, length_take, length_drop. lia.
Qed.

(** Writing at the end of what is written. *)
Lemma store_next w off bs k z :
  length w = off -> (length bs <= k)%nat ->
  store off bs (w ++ repeat z k) = Ok ((w ++ bs) ++ repeat z (k - length bs)).
Proof.
  intros Ho Hk. replace k with (length bs + (k - length bs))%nat at 1 by lia.
  rewrite repeat_app, store_mid by (rewrite ?repeat_length; done).
  by rewrite app_assoc.
Qed.
