(* ===== verification/StdAlgorithms.v ===== *)
(** * The algorithms of the C++ standard library the program calls

    [std::stable_sort] with a comparator, as the (unique) stable sorted
    permutation, and [std::lower_bound] as the halving loop of the library.
    The theorems give what the clients rely on: the sort is a permutation, is
    ordered, keeps the order of equivalent elements and leaves an ordered
    range alone; the search returns the partition point of a partitioned
    range, after a number of steps bounded by its length. *)

From S2P Require Export Prelude.

Lemma filter_none {A} (f : A -> bool) l :
  Forall (fun x => f x = false) l -> List.filter f l = [].
Proof. induction 1 as [|x l Hx _ IH]; cbn; [done|]. by rewrite Hx. Qed.

Lemma filter_all {A} (f : A -> bool) l :
  Forall (fun x => f x = true) l -> List.filter f l = l.
Proof. induction 1 as [|x l Hx _ IH]; cbn; [done|]. by rewrite Hx, IH. Qed.

Section StableSort.
Context {A : Type} (lt : A -> A -> bool).

(** Puts [x] in front of the first element that is not less than it. *)
Fixpoint insert_stable (x : A) (l : list A) : list A :=
  match l with
  | [] => [x]
  | y :: r => if lt y x then y :: insert_stable x r else x :: l
  end.

Fixpoint stable_sort (l : list A) : list A :=
  match l with
  | [] => []
  | x :: r => insert_stable x (stable_sort r)
  end.

(** [a] may stand before [b]. *)
Definition not_after (a b : A) : Prop := lt b a = false.

(** [a] and [b] are equivalent for the comparator. *)
Definition equivalent (a b : A) : bool := negb (lt a b) && negb (lt b a).

Lemma insert_stable_perm x l : insert_stable x l ≡ₚ x :: l.
Proof.
  induction l as [|y r IH]; cbn; [done|]. case_test; [|done].
  rewrite IH. apply Permutation_swap.
Qed.

Lemma stable_sort_perm l : stable_sort l ≡ₚ l.
Proof. induction l as [|x r IH]; cbn; [done|]. by rewrite insert_stable_perm, IH. Qed.

Lemma length_stable_sort l : length (stable_sort l) = length l.
Proof. apply Permutation_length, stable_sort_perm. Qed.

(** An ordered list is left alone, whatever the comparator. *)
Lemma stable_sort_sorted_id l : StronglySorted not_after l -> stable_sort l = l.
Proof.
  induction 1 as [|x r Hr IH Hx]; cbn; [done|]. rewrite IH.
  destruct r as [|y r']; [done|]. cbn.
  inversion_clear Hx as [|? ? Hy _]. unfold not_after in Hy. by rewrite Hy.
Qed.

(** A strict weak order, as [std::stable_sort] requires. *)
Class StrictWeakOrder : Prop := {
  swo_asym : forall a b, lt a b = true -> lt b a = false;
  swo_trans : forall a b c, not_after a b -> not_after b c -> not_after a c
}.

Context `{!StrictWeakOrder}.

Lemma insert_stable_sorted x l :
  StronglySorted not_after l -> StronglySorted not_after (insert_stable x l).
Proof.
  induction 1 as [|y r Hr IH Hy]; cbn; [repeat constructor|].
  destruct (lt y x) eqn:E.
  - constructor; [done|].
    rewrite insert_stable_perm. constructor; [by apply swo_asym|done].
  - constructor; [by constructor|]. constructor; [done|].
    eapply Forall_impl; [exact Hy|]. intros z Hz. by eapply swo_trans.
Qed.

Lemma stable_sort_sorted l : StronglySorted not_after (stable_sort l).
Proof. induction l as [|x r IH]; cbn; [constructor|]. by apply insert_stable_sorted. Qed.

Lemma equivalent_lt_l a b c :
  equivalent a b = true -> lt a c = true -> lt b c = true.
Proof.
  unfold equivalent. intros He Hac. bool_to_prop.
  destruct (lt b c) eqn:E; [done|exfalso].
  assert (lt a c = false); [|congruence].
  by apply (swo_trans c b a).
Qed.

Lemma equivalent_sym a b : equivalent a b = equivalent b a.
Proof. unfold equivalent. apply andb_comm. Qed.

(** Equivalent elements keep their order. *)
Lemma insert_stable_filter k x l :
  List.filter (equivalent k) (insert_stable x l) = List.filter (equivalent k) (x :: l).
Proof.
  induction l as [|y r IH]; [done|].
  cbn [insert_stable]. destruct (lt y x) eqn:E; [|done].
  cbn [List.filter] in *. rewrite IH.
  destruct (equivalent k y) eqn:Ey, (equivalent k x) eqn:Ex; [exfalso|done..].
  assert (lt k x = true) as Hkx.
  { eapply equivalent_lt_l; [|exact E]. by rewrite equivalent_sym. }
  unfold equivalent in Ex. bool_to_prop. congruence.
Qed.

Lemma stable_sort_filter k l :
  List.filter (equivalent k) (stable_sort l) = List.filter (equivalent k) l.
Proof.
  induction l as [|x r IH]; [done|].
  cbn [stable_sort]. rewrite insert_stable_filter. cbn [List.filter]. by rewrite IH.
Qed.

End StableSort.

(** Only the values of the comparator matter. *)
Lemma stable_sort_ext {A} (lt lt' : A -> A -> bool) l :
  (forall a b, lt a b = lt' a b) -> stable_sort lt l = stable_sort lt' l.
Proof.
  intros H. assert (forall x l, insert_stable lt x l = insert_stable lt' x l) as Hi.
  { intros x r. induction r as [|y r IH]; cbn; [done|]. by rewrite H, IH. }
  induction l as [|x r IH]; cbn; [done|]. by rewrite IH, Hi.
Qed.

(** ** Binary search *)

Section LowerBound.
Context {A : Type} (below : A -> bool).

(** [std::lower_bound(first, last, v, comp)] with [below e] for
    [comp( *e, v)]: [len] elements from [first] are still to be searched. *)
Fixpoint lower_bound_loop (fuel : nat) (l : list A) (first len : nat) : nat :=
  match fuel with
  | O => first
  | S fuel =>
    match len with
    | O => first
    | _ =>
      let half := Nat.div2 len in
      let middle := (first + half)%nat in
      match l !! middle with
      | Some e =>
        if below e
        then lower_bound_loop fuel l (middle + 1) (len - half - 1)
        else lower_bound_loop fuel l first half
      | None => first
      end
    end
  end.

Definition lower_bound (l : list A) : nat :=
  lower_bound_loop (length l) l 0 (length l).

(** [k] is the partition point of [l]. *)
Definition partition_point (l : list A) (k : nat) : Prop :=
  (k <= length l)%nat /\
  (forall i e, l !! i = Some e -> (i < k)%nat -> below e = true) /\
  (forall i e, l !! i = Some e -> (k <= i)%nat -> below e = false).

Lemma lower_bound_loop_spec fuel l first len k :
  partition_point l k ->
  (len <= fuel)%nat -> (first <= k <= first + len)%nat -> (first + len <= length l)%nat ->
  lower_bound_loop fuel l first len = k.
Proof.
  intros (Hk & Hlo & Hhi). revert first len.
  induction fuel as [|fuel IH]; intros first len Hf Hr Hl; cbn; [lia|].
  destruct len as [|len']; [lia|]. set (len := S len') in *.
  assert (Nat.div2 len < len)%nat as Hd by (apply Nat.lt_div2; lia).
  clearbody len. generalize dependent (Nat.div2 len). intros half Hd.
  destruct (lookup_lt_is_Some_2 l (first + half)) as [e He]; [lia|].
  rewrite He. destruct (below e) eqn:E.
  - assert (first + half < k)%nat.
    { destruct (decide (first + half < k)%nat); [done|].
      rewrite (Hhi _ _ He) in E by lia. done. }
    apply IH; lia.
  - assert (k <= first + half)%nat.
    { destruct (decide (k <= first + half)%nat); [done|].
      rewrite (Hlo _ _ He) in E by lia. done. }
    apply IH; lia.
Qed.

Lemma lower_bound_spec l k : partition_point l k -> lower_bound l = k.
Proof. intros H. apply lower_bound_loop_spec; [done|lia| |lia]. destruct H as [H _]. lia. Qed.

Lemma not_below_above (R : A -> A -> Prop) x r :
  (forall a b, R a b -> below b = true -> below a = true) ->
  below x = false -> Forall (R x) r -> List.filter below r = [].
Proof.
  intros HR Hx Hr. apply filter_none. eapply Forall_impl; [exact Hr|].
  intros y Hy. destruct (below y) eqn:Ey; [|done]. by rewrite (HR x y) in Hx.
Qed.

(** A range that is ordered for some order in which [below] is downward
    closed is partitioned at the number of elements below. *)
Lemma sorted_partition_point (R : A -> A -> Prop) l :
  (forall a b, R a b -> below b = true -> below a = true) ->
  StronglySorted R l ->
  partition_point l (length (List.filter below l)).
Proof.
  intros HR. induction 1 as [|x r Hr IH Hx].
  - repeat split; [done|..]; intros i e Hi; by rewrite lookup_nil in Hi.
  - destruct IH as (Hk & Hlo & Hhi). cbn [List.filter].
    destruct (below x) eqn:E; cbn [length].
    + split; [cbn; lia|]. split; intros [|i] e Hi Hik; cbn in Hi.
      * by injection Hi as <-.
      * by apply (Hlo i); [|lia].
      * lia.
      * by apply (Hhi i); [|lia].
    + rewrite (not_below_above R x r) by done.
      split; [cbn; lia|]. split; intros i e Hi Hik; cbn in Hik; [lia|].
      destruct i as [|i]; cbn in Hi; [by injection Hi as <-|].
      destruct (below e) eqn:Ee; [|done]. rewrite Forall_forall in Hx.
      rewrite (HR x e) in E; [done| |done]. apply Hx. apply list_elem_of_lookup. eauto.
Qed.

Lemma lower_bound_sorted (R : A -> A -> Prop) l :
  (forall a b, R a b -> below b = true -> below a = true) ->
  StronglySorted R l ->
  lower_bound l = length (List.filter below l).
Proof. intros HR Hl. eapply lower_bound_spec, sorted_partition_point; eauto. Qed.

(** The elements from the partition point on are those not below. *)
Lemma drop_lower_bound (R : A -> A -> Prop) l :
  (forall a b, R a b -> below b = true -> below a = true) ->
  StronglySorted R l ->
  drop (lower_bound l) l = List.filter (fun e => negb (below e)) l.
Proof.
  intros HR Hl. rewrite (lower_bound_sorted R) by done.
  induction Hl as [|x r Hr IH Hx]; [done|]. cbn [List.filter].
  destruct (below x) eqn:E; cbn [negb length drop]; [done|].
  assert (List.filter below r = []) as Hn.
  { eapply not_below_above; eauto. }
  rewrite Hn in *. cbn in *. by rewrite <- IH.
Qed.

End LowerBound.
