(* ===== verification/CppStrings.v ===== *)
(** * [std::string] operations

    The few operations of [std::string] and of stream formatting that the
    program uses, on [String.string]: [substr], comparison, decimal output of
    unsigned integers, [setw]/[setfill]. *)

From S2P Require Export Prelude StdAlgorithms.
From Stdlib Require Import Ascii.

(** [s.substr(pos, n)] for [pos <= s.size()]. *)
Definition substr (s : string) (pos n : nat) : string := String.substring pos n s.

(** The code of a character ([static_cast<unsigned char>]). *)
Definition code (c : ascii) : Z := Z.of_N (N_of_ascii c).

(** [operator<] of [std::string]. *)
Fixpoint string_lt (a b : string) : bool :=
  match a, b with
  | _, EmptyString => false
  | EmptyString, _ => true
  | String x a, String y b => (code x <? code y) || ((code x =? code y) && string_lt a b)
  end.

(** The digit [d], [0 <= d < 10]. *)
Definition digit (d : Z) : ascii := ascii_of_N (Z.to_N (48 + d)).

(** Decimal output of an unsigned integer of at most 64 bits, in front of
    [acc]: twenty digits are enough. *)
Fixpoint to_dec (fuel : nat) (n : Z) (acc : string) : string :=
  match fuel with
  | O => acc
  | S fuel =>
    let acc := String (digit (n mod 10)) acc in
    if n <? 10 then acc else to_dec fuel (n / 10) acc
  end.

Definition dec_string (n : Z) : string := to_dec 20 n "".

(** [setw(w) << setfill(c) << s]. *)
Fixpoint fill (n : nat) (c : ascii) (s : string) : string :=
  match n with O => s | S n => String c (fill n c s) end.

Definition pad_left (w : nat) (c : ascii) (s : string) : string :=
  fill (w - String.length s) c s.

(** The bytes of a string, and back. *)
Definition bytes_of_string (s : string) : list byte :=
  map (fun c => z2b (code c)) (String.list_ascii_of_string s).
Definition string_of_bytes (bs : list byte) : string :=
  String.string_of_list_ascii (map (fun b => ascii_of_N (Z.to_N (b2z b))) bs).

(** ** Lemmas *)

Lemma string_of_bytes_of_string s : string_of_bytes (bytes_of_string s) = s.
Proof.
  unfold string_of_bytes, bytes_of_string.
  rewrite map_map. rewrite <- (String.string_of_list_ascii_of_string s) at 2. f_equal.
  rewrite <- (map_id (String.list_ascii_of_string s)) at 2. apply map_ext. intros c.
  rewrite b2z_z2b. unfold code. rewrite wrap_small.
  - by rewrite N2Z.id, ascii_N_embedding.
  - unfold is_uint. pose proof (N_ascii_bounded c). lia.
Qed.

Lemma length_bytes_of_string s : length (bytes_of_string s) = String.length s.
Proof.
  unfold bytes_of_string. rewrite length_map.
  induction s as [|c s IH]; cbn; [done|]. by rewrite IH.
Qed.

Lemma code_inj x y : code x = code y -> x = y.
Proof.
  unfold code. intros H. apply (f_equal Z.to_N) in H. rewrite !N2Z.id in H.
  by rewrite <- (ascii_N_embedding x), <- (ascii_N_embedding y), H.
Qed.

Lemma code_digit d : 0 <= d < 10 -> code (digit d) = 48 + d.
Proof.
  intros Hd. unfold code, digit. rewrite N_ascii_embedding by lia. lia.
Qed.

Lemma string_lt_irrefl a : string_lt a a = false.
Proof. induction a as [|x a IH]; cbn; [done|]. by rewrite Z.ltb_irrefl, Z.eqb_refl, IH. Qed.

Lemma string_lt_asym a b : string_lt a b = true -> string_lt b a = false.
Proof.
  revert b. induction a as [|x a IH]; intros [|y b]; cbn; try done.
  rewrite orb_true_iff, andb_true_iff, orb_false_iff, andb_false_iff, Z.ltb_lt, Z.ltb_ge, !Z.eqb_neq, Z.eqb_eq.
  intros [H|[H1 H2]]; [lia|]. split; [lia|]. right. by apply IH.
Qed.

(** Neither is less: equal. *)
Lemma string_lt_total a b : string_lt a b = false -> string_lt b a = false -> a = b.
Proof.
  revert b. induction a as [|x a IH]; intros [|y b]; cbn; try done.
  rewrite !orb_false_iff, !andb_false_iff, !Z.ltb_ge, !Z.eqb_neq.
  intros [H1 H2] [H3 H4]. assert (code x = code y) as E by lia.
  f_equal; [by apply code_inj|].
  destruct H2 as [|H2]; [lia|]. destruct H4 as [|H4]; [lia|]. by apply IH.
Qed.

Lemma string_not_lt_trans a b c :
  string_lt b a = false -> string_lt c b = false -> string_lt c a = false.
Proof.
  revert b c. induction a as [|x a IH]; intros [|y b] [|z c]; cbn; try done.
  rewrite !orb_false_iff, !andb_false_iff, !Z.ltb_ge, !Z.eqb_neq.
  intros [H1 H2] [H3 H4]. split; [lia|].
  destruct (decide (code z = code x)) as [E|]; [right|by left].
  destruct H2 as [|H2]; [lia|]. destruct H4 as [|H4]; [lia|]. by apply (IH b).
Qed.

Lemma string_length_app a b : String.length (a +:+ b) = (String.length a + String.length b)%nat.
Proof. induction a as [|x a IH]; [done|]. change (S (String.length (a +:+ b)) = S (String.length a + String.length b))%nat. by rewrite IH. Qed.

Lemma string_app_assoc a b c : a +:+ (b +:+ c) = (a +:+ b) +:+ c.
Proof. induction a as [|x a IH]; [done|]. exact (f_equal (String x) IH). Qed.

Lemma substr_prefix a b : substr (a +:+ b) 0 (String.length a) = a.
Proof. induction a as [|x a IH]; [by destruct b|]. exact (f_equal (String x) IH). Qed.

Lemma substr_skip a b n : substr (a +:+ b) (String.length a) n = substr b 0 n.
Proof. induction a as [|x a IH]; [done|]. exact IH. Qed.

Lemma substr_all a : substr a 0 (String.length a) = a.
Proof. induction a as [|x a IH]; [done|]. exact (f_equal (String x) IH). Qed.

Lemma to_dec_nonempty fuel n acc : acc <> "" \/ (0 < fuel)%nat -> to_dec fuel n acc <> "".
Proof.
  revert n acc. induction fuel as [|fuel IH]; intros n acc H; cbn [to_dec]; [destruct H; [done|lia]|].
  case_test; [done|]. apply IH. by left.
Qed.

Lemma fill_nonempty n c s : s <> "" -> fill n c s <> "".
Proof. by destruct n. Qed.

Lemma string_app_inv_tail a b c : (a +:+ c = b +:+ c)%string -> a = b.
Proof.
  revert b. induction a as [|x a IH]; intros [|y b] H; [done| | |].
  - apply (f_equal String.length) in H. rewrite !string_length_app in H. cbn in H. lia.
  - apply (f_equal String.length) in H. rewrite !string_length_app in H. cbn in H. lia.
  - injection H as -> H. by rewrite (IH b).
Qed.

(** The last [n] characters. *)
Definition str_last (n : nat) (s : string) : string := substr s (String.length s - n) n.

Lemma str_last_app n a b : (n <= String.length b)%nat -> str_last n (a +:+ b) = str_last n b.
Proof.
  intros H. unfold str_last. rewrite string_length_app.
  replace (String.length a + String.length b - n)%nat with (String.length a + (String.length b - n))%nat by lia.
  generalize (String.length b - n)%nat as i. clear H. intros i. induction a as [|x a IH]; [done|]. exact IH.
Qed.
