(* ===== verification/CppInput.v ===== *)
(** * Numbers from text

    [std::atoi], which the programs apply to their arguments and to an
    environment variable. *)

From S2P Require Export CppStrings Buffers.
From Stdlib Require Import Ascii.

(** [isspace] in the C locale. *)
Definition is_space (c : ascii) : bool := (code c =? 32) || ((9 <=? code c) && (code c <=? 13)).

Fixpoint skip_spaces (s : string) : string :=
  match s with
  | String c s' => if is_space c then skip_spaces s' else s
  | EmptyString => EmptyString
  end.

Fixpoint digits_value (s : string) (acc : Z) : Z :=
  match s with
  | String c s => if (48 <=? code c) && (code c <=? 57) then digits_value s (acc * 10 + (code c - 48)) else acc
  | EmptyString => acc
  end.

(** [std::atoi], undefined when the value is not an [int]. *)
Definition atoi (s : string) : outcome Z :=
  let v :=
    match skip_spaces s with
    | String c s' =>
      if bool_decide (c = "-"%char) then - digits_value s' 0
      else if bool_decide (c = "+"%char) then digits_value s' 0
      else digits_value (String c s') 0
    | EmptyString => 0
    end in
  if (- 2 ^ 31 <=? v) && (v <? 2 ^ 31) then Ok v else OutOfBounds.

Example atoi_samples :
  map atoi ["42"; " -7x"; "+3 4"; "x"; ""; "2147483648"]%string = [Ok 42; Ok (-7); Ok 3; Ok 0; Ok 0; OutOfBounds].
Proof. reflexivity. Qed.

Lemma atoi_range s v : atoi s = Ok v -> - 2 ^ 31 <= v < 2 ^ 31.
Proof.
  unfold atoi. cbv zeta. case_test; [|done]. intros [= <-]. apply andb_true_iff in E as [E1 E2].
  apply Z.leb_le in E1. apply Z.ltb_lt in E2. by split.
Qed.
