(* ===== verification/CppDouble.v ===== *)
(** * [double]

    IEEE binary64 numbers through the executable specification of the Rocq
    core library ([spec_float], precision 53, maximal exponent 1024): no
    axioms, exact rounding, NaN and infinities included.  Comparisons with a
    NaN are false, as in C++. *)

From S2P Require Export Prelude.
From Corelib Require Export SpecFloat.

Abbreviation double := spec_float.

(** The conversion of an integer, rounded to nearest even. *)
Definition d_of_Z (z : Z) : double := binary_normalize 53 1024 z 0 false.

Definition d_zero : double := S754_zero false.
Definition d_one : double := d_of_Z 1.

(** The literal [n / d] for integers below 2^53, such as [1e-9]. *)
Definition d_lit (n d : Z) : double := SFdiv 53 1024 (d_of_Z n) (d_of_Z d).

Definition d_add : double -> double -> double := SFadd 53 1024.
Definition d_sub : double -> double -> double := SFsub 53 1024.
Definition d_mul : double -> double -> double := SFmul 53 1024.
Definition d_div : double -> double -> double := SFdiv 53 1024.
Definition d_abs : double -> double := SFabs.
Definition d_lt : double -> double -> bool := SFltb.
Definition d_le : double -> double -> bool := SFleb.
Definition d_eq : double -> double -> bool := SFeqb.

(** Truncation towards zero; [None] for infinities and NaN. *)
Definition d_trunc (x : double) : option Z :=
  match x with
  | S754_zero _ => Some 0
  | S754_finite s m e =>
    let a := if e <? 0 then Z.pos m / 2 ^ (- e) else Z.pos m * 2 ^ e in
    Some (if s then - a else a)
  | _ => None
  end.

(** [static_cast<int64_t>]: undefined when the value does not fit. *)
Definition cast_int64 (x : double) : outcome Z :=
  match d_trunc x with
  | Some z => if (- 2 ^ 63 <=? z) && (z <? 2 ^ 63) then Ok z else OutOfBounds
  | None => OutOfBounds
  end.

(** [static_cast<uint64_t>]. *)
Definition cast_uint64 (x : double) : outcome Z :=
  match d_trunc x with
  | Some z => if (0 <=? z) && (z <? 2 ^ 64) then Ok z else OutOfBounds
  | None => OutOfBounds
  end.

(** ** The order of doubles *)

(** Numbers are ordered as these triples are, lexicographically. *)
Definition d_key (x : double) : option (Z * Z * Z) :=
  match x with
  | S754_zero _ => Some (0, 0, 0)
  | S754_infinity s => Some (if s then -2 else 2, 0, 0)
  | S754_nan => None
  | S754_finite s m e => Some (if s then (-1, - e, - Z.pos m) else (1, e, Z.pos m))
  end.

Definition key_lt (a b : Z * Z * Z) : Prop :=
  a.1.1 < b.1.1 \/ (a.1.1 = b.1.1 /\ (a.1.2 < b.1.2 \/ (a.1.2 = b.1.2 /\ a.2 < b.2))).

Lemma d_lt_key x y :
  d_lt x y = true <->
  match d_key x, d_key y with Some a, Some b => key_lt a b | _, _ => False end.
Proof.
  unfold d_lt, SFltb, key_lt.
  destruct x as [sx|sx| |sx mx e1], y as [sy|sy| |sy my e2];
    try destruct sx; try destruct sy; cbn [SFcompare d_key fst snd];
    try (split; [discriminate|lia]); try (split; [lia|reflexivity]).
  - change (Pos.compare_cont Eq mx my) with (Pos.compare mx my).
    destruct (Z.compare_spec e1 e2) as [->|Hl|Hl]; [|split; [discriminate|lia]|split; [lia|reflexivity]].
    destruct (Pos.compare_spec mx my) as [->|Hm|Hm]; cbn [CompOpp];
      (split; [discriminate|lia]) || (split; [lia|reflexivity]).
  - change (Pos.compare_cont Eq mx my) with (Pos.compare mx my).
    destruct (Z.compare_spec e1 e2) as [->|Hl|Hl]; [|split; [lia|reflexivity]|split; [discriminate|lia]].
    destruct (Pos.compare_spec mx my) as [->|Hm|Hm];
      (split; [discriminate|lia]) || (split; [lia|reflexivity]).
Qed.

Lemma d_lt_irrefl x : d_lt x x = false.
Proof. apply not_true_is_false. rewrite d_lt_key. destruct (d_key x); [unfold key_lt; lia|tauto]. Qed.

Lemma d_lt_trans x y z : d_lt x y = true -> d_lt y z = true -> d_lt x z = true.
Proof.
  rewrite !d_lt_key. destruct (d_key x), (d_key y), (d_key z); try done. unfold key_lt. lia.
Qed.

(** ** Integers as doubles *)

Lemma digits2_size p : digits2_pos p = Pos.size p.
Proof. by induction p as [p IH|p IH|]; cbn [digits2_pos Pos.size]; rewrite ?IH. Qed.

Lemma size_iter_xO p n : Pos.size (Pos.iter xO p n) = (Pos.size p + n)%positive.
Proof.
  induction n as [|n IH] using Pos.peano_ind; [symmetry; apply Pos.add_1_r|].
  rewrite Pos.iter_succ. cbn [Pos.size]. rewrite IH. lia.
Qed.

Lemma iter_xO_pow p n : Z.pos (Pos.iter xO p n) = Z.pos p * 2 ^ Z.pos n.
Proof.
  induction n as [|n IH] using Pos.peano_ind; [change (Z.pos (xO p) = Z.pos p * 2); lia|]. rewrite Pos.iter_succ.
  rewrite Pos2Z.inj_xO. rewrite IH, Pos2Z.inj_succ, Z.pow_succ_r by lia. ring.
Qed.

(** No rounding for a mantissa of 53 bits. *)
Lemma binary_round_aux_exact m e :
  Pos.size m = 53%positive -> -1074 <= e <= 971 ->
  binary_round_aux 53 1024 false (Z.pos m) e loc_Exact = S754_finite false m e.
Proof.
  intros Hm He. assert (forall l, shr_fexp 53 1024 (Z.pos m) e l = (shr_record_of_loc (Z.pos m) l, e)) as H.
  { intros l. unfold shr_fexp. cbn [Zdigits2]. rewrite digits2_size, Hm.
    replace (fexp 53 1024 (53 + e) - e) with 0; [done|]. unfold fexp, emin. lia. }
  unfold binary_round_aux. rewrite H. cbn [shr_record_of_loc shr_m loc_of_shr_record round_nearest_even].
  rewrite H. cbn [shr_record_of_loc shr_m]. by rewrite (proj2 (Z.leb_le _ _)) by lia.
Qed.

Lemma d_of_Z_pos p :
  Z.pos p < 2 ^ 53 ->
  exists m e, d_of_Z (Z.pos p) = S754_finite false m e /\ -52 <= e <= 0 /\ Z.pos m = Z.pos p * 2 ^ (- e) /\
              Pos.size m = 53%positive.
Proof.
  intros Hp. unfold d_of_Z. cbn [binary_normalize]. unfold binary_round. rewrite digits2_size.
  assert (Z.pos (Pos.size p) <= 53) as Hs.
  { pose proof (Pos.size_le p) as H. apply Pos2Z.pos_le_pos in H. rewrite Pos2Z.inj_pow in H.
    change (Z.pos (xO p)) with (2 * Z.pos p) in H.
    apply Z.lt_succ_r, (Z.pow_lt_mono_r_iff 2); lia. }
  replace (fexp 53 1024 (Z.pos (Pos.size p) + 0)) with (Z.pos (Pos.size p) - 53) by (unfold fexp, emin; lia).
  unfold shl_align. rewrite Z.sub_0_r.
  destruct (Z.pos (Pos.size p) - 53) as [|d|d] eqn:Ed; [|lia|].
  - exists p, 0. rewrite binary_round_aux_exact by lia. repeat split; lia.
  - exists (Pos.iter xO p d), (Z.neg d). rewrite binary_round_aux_exact; [|rewrite size_iter_xO; lia|lia].
    split; [done|]. split; [lia|]. split; [by rewrite iter_xO_pow|]. rewrite size_iter_xO. lia.
Qed.

Lemma d_trunc_of_Z n : 0 <= n < 2 ^ 53 -> d_trunc (d_of_Z n) = Some n.
Proof.
  intros Hn. destruct n as [|p|p]; [done| |lia].
  destruct (d_of_Z_pos p) as (m & e & -> & He & Hm & _); [lia|]. cbn [d_trunc]. f_equal. rewrite Hm.
  case_test.
  - by rewrite Z.div_mul by (apply Z.pow_nonzero; lia).
  - apply Z.ltb_ge in E. replace e with 0 by lia. cbn. lia.
Qed.

Lemma cast_uint64_of_Z n : 0 <= n < 2 ^ 53 -> cast_uint64 (d_of_Z n) = Ok n.
Proof.
  intros Hn. unfold cast_uint64. rewrite d_trunc_of_Z by done.
  rewrite (proj2 (Z.leb_le _ _)), (proj2 (Z.ltb_lt _ _)) by lia. done.
Qed.

(** ** A fraction of an integer *)

Lemma shr_m_shr_1 mrs : 0 <= shr_m mrs -> shr_m (shr_1 mrs) = shr_m mrs / 2.
Proof.
  destruct mrs as [m r s]. cbn [shr_m]. intros H. rewrite <- Z.div2_div. destruct m as [|[p|p|]|p]; (done || lia).
Qed.

Lemma shr_m_iter p mrs : 0 <= shr_m mrs -> shr_m (iter_pos shr_1 p mrs) = shr_m mrs / 2 ^ Z.pos p.
Proof.
  revert mrs. induction p as [p IH|p IH|]; intros mrs H; cbn [iter_pos].
  - assert (0 <= shr_m (shr_1 mrs)) as H1 by (rewrite shr_m_shr_1 by done; apply Z.div_pos; lia).
    assert (0 <= shr_m (iter_pos shr_1 p (shr_1 mrs))) as H2
      by (rewrite IH by done; apply Z.div_pos; [done|apply Z.pow_pos_nonneg; lia]).
    rewrite IH, IH, shr_m_shr_1 by done. rewrite !Z.div_div by (try apply Z.pow_nonzero; try apply Z.pow_pos_nonneg; lia).
    f_equal. rewrite <- Z.pow_add_r by lia. change 2 with (2 ^ 1) at 1. rewrite <- Z.pow_add_r by lia. f_equal. lia.
  - assert (0 <= shr_m (iter_pos shr_1 p mrs)) as H2
      by (rewrite IH by done; apply Z.div_pos; [done|apply Z.pow_pos_nonneg; lia]).
    rewrite IH, IH by done. rewrite Z.div_div by (try apply Z.pow_nonzero; try apply Z.pow_pos_nonneg; lia).
    f_equal. rewrite <- Z.pow_add_r by lia. f_equal. lia.
  - by rewrite shr_m_shr_1.
Qed.

Lemma round_nearest_even_range m l : m <= round_nearest_even m l <= m + 1.
Proof. destruct l as [|[]]; cbn; try case_test; lia. Qed.

Lemma size_bounds p n : Pos.size p = n <-> 2 ^ (Z.pos n - 1) <= Z.pos p < 2 ^ Z.pos n.
Proof.
  assert (2 ^ (Z.pos (Pos.size p) - 1) <= Z.pos p < 2 ^ Z.pos (Pos.size p)) as [H1 H2].
  { split.
    - pose proof (Pos.size_le p) as H. apply Pos2Z.pos_le_pos in H. rewrite Pos2Z.inj_pow, (Pos2Z.inj_xO p) in H.
      replace (Z.pos (Pos.size p)) with (Z.succ (Z.pos (Pos.size p) - 1)) in H by lia.
      rewrite Z.pow_succ_r in H by lia. lia.
    - pose proof (Pos.size_gt p) as H. apply Pos2Z.pos_lt_pos in H. by rewrite Pos2Z.inj_pow in H. }
  split; [by intros <-|]. intros [H3 H4].
  assert (Z.pos (Pos.size p) - 1 < Z.pos n) as H5 by (apply (Z.pow_lt_mono_r_iff 2); lia).
  assert (Z.pos n - 1 < Z.pos (Pos.size p)) as H6 by (apply (Z.pow_lt_mono_r_iff 2); lia).
  lia.
Qed.

(** Truncation of a mantissa of at most 53 bits and its carry. *)
Lemma second_shift q e :
  2 ^ 52 <= q <= 2 ^ 53 -> -1000 <= e <= 900 ->
  exists m' e', (let '(mrs, e2) := shr_fexp 53 1024 q e loc_Exact in
     match shr_m mrs with
     | Z0 => S754_zero false
     | Zpos m => if e2 <=? 1024 - 53 then S754_finite false m e2 else S754_infinity false
     | _ => S754_nan
     end) = S754_finite false m' e' /\
    ((e' = e /\ Z.pos m' = q) \/ (e' = e + 1 /\ 2 * Z.pos m' = q)).
Proof.
  intros Hq He. destruct q as [|p|p]; [lia| |lia]. unfold shr_fexp. cbn [Zdigits2]. rewrite digits2_size.
  destruct (decide (Z.pos p = 2 ^ 53)) as [E|E].
  - assert (Pos.size p = 54%positive) as ->.
    { apply size_bounds. rewrite E. change (Z.pos 54 - 1) with 53. change (Z.pos 54) with 54. lia. }
    replace (fexp 53 1024 (54 + e) - e) with 1 by (unfold fexp, emin; lia). unfold shr.
    change (iter_pos shr_1 1 ?x) with (shr_1 x). injection E as ->. cbn [shr_record_of_loc shr_1 shr_m].
    rewrite (proj2 (Z.leb_le _ _)) by lia. do 2 eexists. split; [done|]. right. split; [lia|done].
  - assert (Pos.size p = 53%positive) as ->.
    { apply size_bounds. change (Z.pos 53 - 1) with 52. change (Z.pos 53) with 53. lia. }
    replace (fexp 53 1024 (53 + e) - e) with 0 by (unfold fexp, emin; lia). cbn [shr shr_record_of_loc shr_m].
    rewrite (proj2 (Z.leb_le _ _)) by lia. do 2 eexists. split; [done|]. by left.
Qed.

Lemma trunc_le m e k :
  -120 <= e -> Z.pos m * 2 ^ (e + 120) <= k * 2 ^ 120 ->
  exists z, d_trunc (S754_finite false m e) = Some z /\ 0 <= z <= k.
Proof.
  intros He H. cbn [d_trunc]. eexists. split; [done|]. case_test.
  - apply Z.ltb_lt in E. replace 120 with (- e + (e + 120)) in H at 2 by lia.
    rewrite (Z.pow_add_r 2 (- e)), Z.mul_assoc in H by lia.
    assert (0 < 2 ^ (e + 120)) as Hp by (apply Z.pow_pos_nonneg; lia).
    assert (0 < 2 ^ (- e)) as Hp' by (apply Z.pow_pos_nonneg; lia).
    apply Z.mul_le_mono_pos_r in H; [|done].
    split; [apply Z.div_pos; lia|apply Z.div_le_upper_bound; lia].
  - apply Z.ltb_ge in E. rewrite Z.pow_add_r, Z.mul_assoc in H by lia.
    apply Z.mul_le_mono_pos_r in H; [|lia]. split; [|done].
    apply Z.mul_nonneg_nonneg; [lia|apply Z.pow_nonneg; lia].
Qed.

(** [p * k] for [1/2 <= p < 1] is rounded to at most [k]. *)
Lemma d_mul_fraction mp k :
  Pos.size mp = 53%positive -> 0 <= k < 2 ^ 53 ->
  exists z, d_trunc (d_mul (S754_finite false mp (-53)) (d_of_Z k)) = Some z /\ 0 <= z <= k.
Proof.
  intros Hmp Hk. destruct k as [|p|p]; [by exists 0| |lia].
  destruct (d_of_Z_pos p) as (m & e & -> & He & Hm & Hs); [lia|]. cbn [d_mul SFmul xorb].
  apply size_bounds in Hmp, Hs. change (Z.pos 53 - 1) with 52 in *. change (Z.pos 53) with 53 in *.
  set (M := (mp * m)%positive). assert (Z.pos M = Z.pos mp * Z.pos m) as HM by done.
  assert (2 ^ 104 <= Z.pos M < 2 ^ 106) as HMb by (rewrite HM; clear -Hmp Hs; nia).
  set (d := if Z.pos M <? 2 ^ 105 then 52%positive else 53%positive).
  assert (Z.pos d = 52 \/ Z.pos d = 53) as Hd by (subst d; case_test; [by left|by right]).
  assert (Pos.size M = (d + 53)%positive) as HsM.
  { apply size_bounds. subst d. case_test; [apply Z.ltb_lt in E|apply Z.ltb_ge in E]; cbn -[Z.pow]; lia. }
  unfold binary_round_aux, d_mul, SFmul. unfold shr_fexp at 1. cbn [Zdigits2 xorb]. fold M. rewrite digits2_size, HsM.
  replace (fexp 53 1024 (Z.pos (d + 53) + (-53 + e)) - (-53 + e)) with (Z.pos d)
    by (unfold fexp, emin; clearbody d; lia).
  cbn [shr shr_record_of_loc]. rewrite shr_m_iter by done. cbn [shr_m].
  pose proof (round_nearest_even_range (Z.pos M / 2 ^ Z.pos d)
    (loc_of_shr_record (iter_pos shr_1 d {| shr_m := Z.pos M; shr_r := false; shr_s := false |}))) as Hr.
  set (q := round_nearest_even _ _) in *. clearbody q.
  assert (2 ^ 52 <= q <= 2 ^ 53 /\ q * 2 ^ Z.pos d <= Z.pos m * 2 ^ 53) as [Hq Hv].
  { subst d. case_test; [apply Z.ltb_lt in E|apply Z.ltb_ge in E].
    - assert (2 ^ 52 <= Z.pos M / 2 ^ 52) by (apply Z.div_le_lower_bound; lia).
      assert (Z.pos M / 2 ^ 52 < 2 ^ 53) by (apply Z.div_lt_upper_bound; lia).
      change (Z.pos 52) with 52 in *. lia.
    - assert (2 ^ 52 <= Z.pos M / 2 ^ 53) by (apply Z.div_le_lower_bound; lia).
      assert (Z.pos M / 2 ^ 53 < Z.pos m) by (apply Z.div_lt_upper_bound; [lia|]; rewrite HM; nia).
      change (Z.pos 53) with 53 in *. lia. }
  destruct (second_shift q (-53 + e + Z.pos d)) as (m' & e' & -> & Hm'); [done|clearbody d; lia|].
  clearbody d. apply trunc_le; [lia|].
  assert (Z.pos m' * 2 ^ (e' + 120) = q * 2 ^ (-53 + e + Z.pos d + 120)) as ->.
  { destruct Hm' as [[-> ->]|[-> <-]]; [done|].
    replace (-53 + e + Z.pos d + 1 + 120) with (Z.succ (-53 + e + Z.pos d + 120)) by lia.
    rewrite Z.pow_succ_r by lia. ring. }
  replace (-53 + e + Z.pos d + 120) with (Z.pos d + (e + 67)) by lia. rewrite Z.pow_add_r by lia.
  assert (Z.pos p * 2 ^ 120 = Z.pos m * 2 ^ 53 * 2 ^ (e + 67)) as ->.
  { rewrite Hm, <- !Z.mul_assoc. f_equal. rewrite <- !Z.pow_add_r by lia. f_equal. lia. }
  rewrite Z.mul_assoc. apply Z.mul_le_mono_nonneg_r; [apply Z.pow_nonneg; lia|done].
Qed.

(** ** The object representation ([memcpy] of a [double]) *)

Definition double_bits (x : double) : Z :=
  match x with
  | S754_zero s => if s then 2 ^ 63 else 0
  | S754_infinity s => (if s then 2 ^ 63 else 0) + 2047 * 2 ^ 52
  | S754_nan => 2047 * 2 ^ 52 + 2 ^ 51
  | S754_finite s m e =>
    (if s then 2 ^ 63 else 0) +
    (if Z.pos m <? 2 ^ 52 then Z.pos m else (e + 1075) * 2 ^ 52 + (Z.pos m - 2 ^ 52))
  end.

Definition double_of_bits (z : Z) : double :=
  let s := 2 ^ 63 <=? z in
  let r := z mod 2 ^ 63 in
  let e := r / 2 ^ 52 in
  let f := r mod 2 ^ 52 in
  if e =? 2047 then (if f =? 0 then S754_infinity s else S754_nan)
  else if e =? 0 then match f with Zpos p => S754_finite s p (-1074) | _ => S754_zero s end
  else match f + 2 ^ 52 with Zpos p => S754_finite s p (e - 1075) | _ => S754_nan end.

(** The values a [double] can have: mantissa and exponent in their ranges. *)
Definition valid_double (x : double) : Prop := valid_binary 53 1024 x = true.

Lemma valid_finite s m e :
  valid_double (S754_finite s m e) ->
  (2 ^ 52 <= Z.pos m < 2 ^ 53 /\ -1074 <= e <= 971) \/ (Z.pos m < 2 ^ 52 /\ e = -1074).
Proof.
  unfold valid_double, valid_binary, bounded, canonical_mantissa. rewrite andb_true_iff, Z.eqb_eq, Z.leb_le, digits2_size.
  intros [H1 H2]. unfold fexp, emin in H1.
  destruct (proj1 (size_bounds m (Pos.size m)) eq_refl) as [H3 H4].
  destruct (decide (Z.pos (Pos.size m) = 53)) as [E|E].
  - left. rewrite E in H3, H4. change (53 - 1) with 52 in H3. lia.
  - right. split; [|lia]. apply Z.lt_le_trans with (2 ^ Z.pos (Pos.size m)); [done|]. apply Z.pow_le_mono_r; lia.
Qed.

Lemma sign_split (s : bool) r :
  0 <= r < 2 ^ 63 ->
  (2 ^ 63 <=? (if s then 2 ^ 63 else 0) + r) = s /\ ((if s then 2 ^ 63 else 0) + r) mod 2 ^ 63 = r.
Proof.
  intros Hr. destruct s.
  - split; [apply Z.leb_le; lia|]. rewrite Z.add_comm, <- (Z.mul_1_l (2 ^ 63)) at 1. rewrite Z.mod_add by lia.
    by apply Z.mod_small.
  - split; [apply Z.leb_gt; lia|]. by apply Z.mod_small.
Qed.

Lemma double_bits_roundtrip x : valid_double x -> double_of_bits (double_bits x) = x.
Proof.
  destruct x as [s|s| |s m e]; [by destruct s..|done|]. intros Hv. unfold double_bits, double_of_bits.
  destruct (valid_finite s m e Hv) as [[Hm He]|[Hm ->]].
  - rewrite (proj2 (Z.ltb_ge (Z.pos m) _)) by lia.
    set (r := (e + 1075) * 2 ^ 52 + (Z.pos m - 2 ^ 52)).
    destruct (sign_split s r) as [-> ->]; [subst r; lia|]. subst r.
    rewrite (Z.add_comm (_ * _)), Z.div_add, Z.mod_add, Z.div_small, Z.mod_small by lia. cbn [Z.add].
    rewrite (proj2 (Z.eqb_neq _ _)), (proj2 (Z.eqb_neq _ _)) by lia.
    replace (Z.pos m - 2 ^ 52 + 2 ^ 52) with (Z.pos m) by lia. f_equal. lia.
  - rewrite (proj2 (Z.ltb_lt (Z.pos m) _)) by lia.
    destruct (sign_split s (Z.pos m)) as [-> ->]; [lia|].
    rewrite Z.div_small, Z.mod_small by lia. done.
Qed.

Lemma double_bits_range x : valid_double x -> is_uint 64 (double_bits x).
Proof.
  unfold is_uint. destruct x as [s|s| |s m e]; [destruct s; cbn; lia..|cbn; lia|]. intros Hv. unfold double_bits.
  destruct (valid_finite s m e Hv) as [[Hm He]|[Hm ->]]; destruct s; case_test; bool_to_prop; lia.
Qed.

Example double_bits_samples :
  map double_bits [d_one; d_of_Z (-2); d_lit 1 10] = [0x3FF0000000000000; 0xC000000000000000; 0x3FB999999999999A].
Proof. vm_compute. reflexivity. Qed.

(** ** [float] *)

(** [static_cast<float>], and back. *)
Definition to_float (x : double) : spec_float :=
  match x with
  | S754_finite s m e => binary_normalize 24 128 (if s then Z.neg m else Z.pos m) e s
  | x => x
  end.

Definition of_float (x : spec_float) : double :=
  match x with
  | S754_finite s m e => binary_normalize 53 1024 (if s then Z.neg m else Z.pos m) e s
  | x => x
  end.

(** A [double] stored in a [float]. *)
Definition d_float (x : double) : double := of_float (to_float x).

Example d_float_samples :
  map (fun x => double_bits (d_float x)) [d_of_Z 5; d_lit 1 10; d_of_Z (-3)] =
  [0x4014000000000000; 0x3FB99999A0000000; 0xC008000000000000].
Proof. vm_compute. reflexivity. Qed.
