(* ===== verification/StdMap.v ===== *)
(** * [std::map<std::string, T>]

    The map as its elements in the order of iteration, which is the order of
    [operator<] on strings: a list without the order would not say what the
    serialisers print.  The theorems give the laws of look-up and insertion,
    that operations keep the order, and that two ordered maps with the same
    look-ups are equal. *)

From S2P Require Export CppStrings.

Definition smap (A : Type) := list (string * A).

(** [m.find(k)]. *)
Fixpoint map_find {A} (k : string) (m : smap A) : option A :=
  match m with
  | [] => None
  | (k', v) :: m => if bool_decide (k = k') then Some v else map_find k m
  end.

(** [m[k] = v]. *)
Fixpoint map_set {A} (k : string) (v : A) (m : smap A) : smap A :=
  match m with
  | [] => [(k, v)]
  | (k', v') :: m' =>
    if string_lt k k' then (k, v) :: m
    else if string_lt k' k then (k', v') :: map_set k v m'
    else (k, v) :: m'
  end.

(** [f(m[k])]: [operator[]] makes a missing element first. *)
Definition map_at {A} (dflt : A) (k : string) (f : A -> A) (m : smap A) : smap A :=
  map_set k (f (default dflt (map_find k m))) m.

(** The order of the keys. *)
Definition key_before {A} (a b : string * A) : Prop := string_lt a.1 b.1 = true.

Definition map_ok {A} (m : smap A) : Prop := StronglySorted key_before m.

Lemma string_lt_trans a b c : string_lt a b = true -> string_lt b c = true -> string_lt a c = true.
Proof.
  intros H1%string_lt_asym H2. apply not_false_is_true. intros H.
  pose proof (string_not_lt_trans c a b H H1). congruence.
Qed.

(** Three-way comparison of keys. *)
Lemma string_lt_cases a b :
  (string_lt a b = true /\ string_lt b a = false /\ a <> b) \/
  (string_lt a b = false /\ string_lt b a = true /\ a <> b) \/
  (string_lt a b = false /\ string_lt b a = false /\ a = b).
Proof.
  destruct (string_lt a b) eqn:E1.
  - left. split; [done|]. split; [by apply string_lt_asym|]. intros ->. by rewrite string_lt_irrefl in E1.
  - right. destruct (string_lt b a) eqn:E2.
    + left. split; [done|]. split; [done|]. intros ->. by rewrite string_lt_irrefl in E2.
    + right. split; [done|]. split; [done|]. by apply string_lt_total.
Qed.

Section Laws.
Context {A : Type}.
Implicit Types (m : smap A) (k : string) (v : A).

Lemma map_find_set k k' v m : map_find k' (map_set k v m) = if bool_decide (k' = k) then Some v else map_find k' m.
Proof.
  induction m as [|[k0 v0] m IH]; [done|]. cbn [map_set].
  destruct (string_lt_cases k k0) as [(E1 & E2 & Hne)|[(E1 & E2 & Hne)|(E1 & E2 & ->)]]; rewrite E1;
    [done|rewrite E2|]; cbn [map_find].
  - rewrite IH. repeat case_bool_decide; congruence.
  - by case_bool_decide.
Qed.

Lemma map_find_at dflt k k' f m :
  map_find k' (map_at dflt k f m) = if bool_decide (k' = k) then Some (f (default dflt (map_find k m))) else map_find k' m.
Proof. apply map_find_set. Qed.

Lemma map_set_forall (P : string * A -> Prop) k v m : P (k, v) -> Forall P m -> Forall P (map_set k v m).
Proof.
  intros Hk. induction 1 as [|[k0 v0] m H0 Hm IH]; cbn [map_set]; [by repeat constructor|].
  repeat case_test; by repeat constructor.
Qed.

Lemma map_find_forall (P : string * A -> Prop) k v m : Forall P m -> map_find k m = Some v -> P (k, v).
Proof.
  induction 1 as [|[k0 v0] m H0 Hm IH]; cbn [map_find]; [done|]. case_bool_decide; [|done]. by intros [= <-]; subst.
Qed.

Lemma map_set_ok k v m : map_ok m -> map_ok (map_set k v m).
Proof.
  unfold map_ok. induction 1 as [|[k0 v0] m Hm IH H0]; cbn [map_set]; [by repeat constructor|].
  destruct (string_lt_cases k k0) as [(E1 & E2 & Hne)|[(E1 & E2 & Hne)|(E1 & E2 & ->)]]; rewrite E1;
    [|rewrite E2|].
  - constructor; [by constructor|]. constructor; [done|].
    eapply Forall_impl; [exact H0|]. intros e He. exact (string_lt_trans _ _ _ E1 He).
  - constructor; [done|]. by apply map_set_forall.
  - rewrite ?E2. by constructor.
Qed.

Lemma map_at_ok dflt k f m : map_ok m -> map_ok (map_at dflt k f m).
Proof. apply map_set_ok. Qed.

Lemma map_find_before k v m : Forall (key_before (k, v)) m -> map_find k m = None.
Proof.
  induction 1 as [|[k0 v0] m H0 _ IH]; cbn [map_find]; [done|]. case_bool_decide as E; [|done].
  subst. unfold key_before in H0. cbn in H0. by rewrite string_lt_irrefl in H0.
Qed.

Lemma map_find_elem k v m : map_ok m -> map_find k m = Some v <-> (k, v) ∈ m.
Proof.
  induction 1 as [|[k0 v0] m Hm IH H0]; cbn [map_find]; [by rewrite elem_of_nil|].
  rewrite elem_of_cons. case_bool_decide as E.
  - subst. split; [by intros [= ->]; left|]. intros [[= ->]|H]; [done|].
    apply IH in H. by rewrite (map_find_before k0 v0 m H0) in H.
  - rewrite IH. split; [by right|]. by intros [[= -> ->]|H].
Qed.

(** Look-ups determine an ordered map. *)
Lemma map_ext m1 m2 : map_ok m1 -> map_ok m2 -> (forall k, map_find k m1 = map_find k m2) -> m1 = m2.
Proof.
  intros H1. revert m2. induction H1 as [|[k v] m1 Hm1 IH H1]; intros m2 H2 Heq.
  - destruct m2 as [|[k v] m2]; [done|]. specialize (Heq k). cbn in Heq. by rewrite bool_decide_true in Heq.
  - destruct m2 as [|[k' v'] m2].
    { specialize (Heq k). cbn in Heq. by rewrite bool_decide_true in Heq. }
    apply StronglySorted_inv in H2 as [Hm2 H2].
    assert (k = k') as <-.
    { pose proof (Heq k) as E1. pose proof (Heq k') as E2. cbn [map_find] in E1, E2.
      rewrite (bool_decide_true (k = k)) in E1 by done. rewrite (bool_decide_true (k' = k')) in E2 by done.
      destruct (decide (k = k')) as [E|E]; [done|]. rewrite bool_decide_false in E1 by done.
      rewrite bool_decide_false in E2 by congruence.
      symmetry in E1. rewrite map_find_elem in E1 by done. rewrite map_find_elem in E2 by done.
      rewrite Forall_forall in H1, H2. specialize (H1 _ E2). specialize (H2 _ E1).
      unfold key_before in *. cbn in *. apply string_lt_asym in H1. congruence. }
    pose proof (Heq k) as E1. cbn [map_find] in E1. rewrite bool_decide_true in E1 by done. injection E1 as ->.
    f_equal. apply IH; [done|]. intros k0. specialize (Heq k0). cbn [map_find] in Heq.
    case_bool_decide as E; [|done]. subst.
    by rewrite (map_find_before _ _ _ H1), (map_find_before _ _ _ H2).
Qed.

End Laws.

(** Insertion of a list of elements, the first one first. *)
Definition map_of_list {A} (l : list (string * A)) : smap A := foldl (fun m e => map_set e.1 e.2 m) [] l.

Lemma map_of_list_sorted {A} (l : smap A) : map_ok l -> map_of_list l = l.
Proof.
  unfold map_of_list. intros Hl.
  assert (forall m, map_ok m -> map_ok (foldl (fun m (e : string * A) => map_set e.1 e.2 m) m l) /\
    forall k, map_find k (foldl (fun m e => map_set e.1 e.2 m) m l) =
              match map_find k l with Some v => Some v | None => map_find k m end) as H.
  { induction Hl as [|[k v] l Hl IH H0]; intros m Hm; cbn [foldl fst snd]; [done|].
    destruct (IH (map_set k v m)) as [H1 H2]; [by apply map_set_ok|]. split; [done|]. intros k'.
    rewrite H2, map_find_set. cbn [map_find]. case_bool_decide; [|done]. subst.
    by rewrite (map_find_before k v l H0). }
  destruct (H [] ltac:(constructor)) as [H1 H2]. apply map_ext; [done|done|].
  intros k. rewrite H2. by destruct (map_find k l).
Qed.
