(* ===== verification/CppFormat.v ===== *)
(** * Formatted output of numbers

    [std::ostream] and [std::to_string] on [double]: fixed notation with a
    number of decimals ([std::fixed], [%f]) and the default notation ([%g]
    with six significant digits), rounded to nearest, ties to even, from the
    exact binary value.  The sign of a NaN is not represented.

    Result: what is printed consists of digits, signs, points and the letters
    of [inf], [nan] and the exponent. *)

From S2P Require Export CppStrings CppDouble.
From Stdlib Require Import Ascii.

(** A natural number in decimal, of any size. *)
Definition dec_big (n : Z) : string := to_dec (S (Z.to_nat (Z.log2 n))) n "".

(** [a / b] rounded to the nearest integer, ties to even. *)
Definition div_round (a b : Z) : Z :=
  let q := a / b in
  let r := a mod b in
  if 2 * r <? b then q
  else if b <? 2 * r then q + 1
  else if Z.even q then q else q + 1.

(** The absolute value of a finite double as a fraction. *)
Definition fraction (m : positive) (e : Z) : Z * Z :=
  if e <? 0 then (Z.pos m, 2 ^ (- e)) else (Z.pos m * 2 ^ e, 1).

Definition sign_str (negative : bool) : string := if negative then "-" else "".

(** [p] decimals; [q] is the number in units of the last one. *)
Definition fixed_digits (p : nat) (q : Z) : string :=
  let unit := 10 ^ Z.of_nat p in
  (dec_big (q / unit) +:+ (if decide (p = O) then "" else "." +:+ pad_left p "0" (dec_big (q mod unit))))%string.

(** [std::fixed] with precision [p]; [std::to_string] is [p = 6]. *)
Definition format_fixed (p : nat) (x : double) : string :=
  match x with
  | S754_nan => "nan"
  | S754_infinity s => (sign_str s +:+ "inf")%string
  | S754_zero s => (sign_str s +:+ fixed_digits p 0)%string
  | S754_finite s m e =>
    let '(a, b) := fraction m e in
    (sign_str s +:+ fixed_digits p (div_round (a * 10 ^ Z.of_nat p) b))%string
  end.

Definition to_string_double (x : double) : string := format_fixed 6 x.

(** The decimal exponent of [a / b]: the search from [k] downwards for
    [10 ^ k <= a / b]. *)
Fixpoint dec_exponent (fuel : nat) (k a b : Z) : Z :=
  match fuel with
  | O => k
  | S fuel =>
    let fits := if k <? 0 then b <=? a * 10 ^ (- k) else b * 10 ^ k <=? a in
    if fits then k else dec_exponent fuel (k - 1) a b
  end.

(** Drops the zeros at the end. *)
Fixpoint strip_zeros (s : string) : string :=
  match s with
  | EmptyString => EmptyString
  | String c s =>
    match strip_zeros s with
    | EmptyString => if bool_decide (c = "0"%char) then EmptyString else String c EmptyString
    | s' => String c s'
    end
  end.

Definition point (frac : string) : string :=
  match frac with EmptyString => "" | _ => "." +:+ frac end%string.

(** The default notation: six significant digits [q] with exponent [k]. *)
Definition general_digits (k q : Z) : string :=
  if (k <? -4) || (6 <=? k) then
    let frac := strip_zeros (pad_left 5 "0" (dec_big (q mod 10 ^ 5))) in
    (dec_big (q / 10 ^ 5) +:+ point frac +:+ "e" +:+ (if (k <? 0)%Z then "-" else "+") +:+
     pad_left 2 "0" (dec_big (Z.abs k)))%string
  else
    let p := 5 - k in
    (dec_big (q / 10 ^ p) +:+ point (strip_zeros (pad_left (Z.to_nat p) "0" (dec_big (q mod 10 ^ p)))))%string.

Definition format_general (x : double) : string :=
  match x with
  | S754_nan => "nan"
  | S754_infinity s => (sign_str s +:+ "inf")%string
  | S754_zero s => (sign_str s +:+ "0")%string
  | S754_finite s m e =>
    let '(a, b) := fraction m e in
    let k := dec_exponent 700 (Z.max 0 (31 * (Z.log2 a - Z.log2 b + 1) / 100 + 1)) a b in
    let q := if 5 <? k then div_round a (b * 10 ^ (k - 5)) else div_round (a * 10 ^ (5 - k)) b in
    (sign_str s +:+ if (q =? 10 ^ 6)%Z then general_digits (k + 1) (10 ^ 5) else general_digits k q)%string
  end.

Example format_samples :
  map format_general [d_of_Z 100; d_lit 1 3; d_of_Z 1234567; d_lit 1 10; d_lit 1 100000; d_of_Z 0;
                      d_lit 9999996 10; d_lit (-5) 2; d_of_Z (10 ^ 300)] =
  ["100"; "0.333333"; "1.23457e+06"; "0.1"; "1e-05"; "0"; "1e+06"; "-2.5"; "1e+300"]%string /\
  map (format_fixed 3) [d_of_Z 100; d_lit 1 3; d_lit 19995 10000; d_lit 5 10000; S754_nan; d_lit (-1) 3] =
  ["100.000"; "0.333"; "2.000"; "0.001"; "nan"; "-0.333"]%string.
Proof. vm_compute. split; reflexivity. Qed.

(** ** The characters printed *)

(** Every character satisfies [P]. *)
Fixpoint all_chars (P : ascii -> bool) (s : string) : bool :=
  match s with EmptyString => true | String c s => P c && all_chars P s end.

Definition is_digit (c : ascii) : bool := (48 <=? code c) && (code c <=? 57).

Definition num_char (c : ascii) : bool :=
  is_digit c || existsb (fun d => bool_decide (c = d)) ["+"; "-"; "."; "e"; "i"; "n"; "f"; "a"]%char.

Lemma all_chars_app P s t : all_chars P (s +:+ t) = all_chars P s && all_chars P t.
Proof.
  induction s as [|c s IH]; [done|].
  change (P c && all_chars P (s +:+ t) = P c && all_chars P s && all_chars P t). by rewrite IH, andb_assoc.
Qed.

Lemma all_chars_impl (P Q : ascii -> bool) s :
  (forall c, P c = true -> Q c = true) -> all_chars P s = true -> all_chars Q s = true.
Proof.
  intros H. induction s as [|c s IH]; cbn; [done|]. rewrite !andb_true_iff. intros [H1 H2]. auto.
Qed.

Lemma is_digit_digit n : is_digit (digit (n mod 10)) = true.
Proof.
  unfold is_digit. pose proof (Z.mod_pos_bound n 10). rewrite code_digit by lia.
  rewrite andb_true_iff, !Z.leb_le. lia.
Qed.

Lemma to_dec_chars fuel n acc : all_chars is_digit acc = true -> all_chars is_digit (to_dec fuel n acc) = true.
Proof.
  revert n acc. induction fuel as [|fuel IH]; intros n acc H; cbn [to_dec]; [done|].
  assert (all_chars is_digit (String (digit (n mod 10)) acc) = true) as H'
    by (cbn [all_chars]; by rewrite is_digit_digit).
  case_test; [done|by apply IH].
Qed.

Lemma dec_big_chars n : all_chars is_digit (dec_big n) = true.
Proof. by apply to_dec_chars. Qed.

Lemma pad_left_chars w s : all_chars is_digit s = true -> all_chars is_digit (pad_left w "0" s) = true.
Proof. intros H. unfold pad_left. by induction (w - String.length s)%nat. Qed.

Lemma strip_zeros_chars P s : all_chars P s = true -> all_chars P (strip_zeros s) = true.
Proof.
  induction s as [|c s IH]; cbn [strip_zeros all_chars]; [done|]. rewrite andb_true_iff. intros [Hc Hs].
  specialize (IH Hs). destruct (strip_zeros s); cbn [all_chars] in *; [case_test; cbn; by rewrite ?Hc|].
  by rewrite Hc.
Qed.

Lemma digit_num s : all_chars is_digit s = true -> all_chars num_char s = true.
Proof. apply all_chars_impl. unfold num_char. by intros c ->. Qed.

Create HintDb chars discriminated.
#[export] Hint Resolve dec_big_chars pad_left_chars digit_num strip_zeros_chars : chars.

Lemma point_chars s : all_chars num_char s = true -> all_chars num_char (point s) = true.
Proof. destruct s; [done|]. intros H. unfold point. by rewrite all_chars_app. Qed.
#[export] Hint Resolve point_chars : chars.

Ltac chars := rewrite ?all_chars_app, ?andb_true_iff; repeat split; auto 8 with chars.

Lemma sign_str_chars b : all_chars num_char (sign_str b) = true.
Proof. by destruct b. Qed.

Lemma fixed_digits_chars p q : all_chars num_char (fixed_digits p q) = true.
Proof. unfold fixed_digits. case_decide; chars. Qed.

Lemma general_digits_chars k q : all_chars num_char (general_digits k q) = true.
Proof. unfold general_digits. case_test; chars. by case_test. Qed.
#[export] Hint Resolve sign_str_chars fixed_digits_chars general_digits_chars : chars.

Lemma format_fixed_chars p x : all_chars num_char (format_fixed p x) = true.
Proof. destruct x; unfold format_fixed; try destruct (fraction _ _); chars. Qed.

Lemma format_general_chars x : all_chars num_char (format_general x) = true.
Proof. destruct x; unfold format_general; try destruct (fraction _ _); chars. case_test; chars. Qed.
