(* ===== verification/Crc32c.v ===== *)
(** * CRC32C ([include/sensorforge/protocol/crc32c.hpp])

    The table-driven software path, the path that uses the processor's CRC
    instructions, and [crc32c] itself.  The two instructions are not code of
    the repository: they are the arguments [mm_crc32_u8] and [mm_crc32_u64]
    of the definitions, and what the vendor manuals say of them (they divide
    by the same polynomial, least significant bit first) is the class
    [CrcInstructions].

    Results: both paths compute the same value on every buffer; the result
    fits 32 bits; two buffers that differ only inside four consecutive bytes
    never have the same CRC.  The last two are what the codecs rely on, and
    are exported as the class [Checksum]. *)

From S2P Require Export Prelude Buffers.

Module Crc.

Definition kPoly : Z := 0x82F63B78.

(** One iteration of the inner loop of [make_table]. *)
Definition crc_bit (crc : Z) : Z :=
  if crc &&& 1 =? 1 then (crc >>> 1) ^^^ kPoly else crc >>> 1.

Definition crc_bits (n : nat) (crc : Z) : Z := Nat.iter n crc_bit crc.

Definition make_table : list Z :=
  map (fun i => crc_bits 8 (Z.of_nat i)) (seq 0 256).

Definition kTable : list Z := Eval vm_compute in make_table.

Definition crc32c_software_step (crc : Z) (b : byte) : Z :=
  nth (Z.to_nat ((crc ^^^ b2z b) &&& 0xFF)) kTable 0 ^^^ (crc >>> 8).

Definition crc32c_software (crc : Z) (data : list byte) : Z :=
  foldl crc32c_software_step crc data.

Section Hardware.
Context (mm_crc32_u8 : Z -> byte -> Z) (mm_crc32_u64 : Z -> Z -> Z).

(** [crc32c_hw]: eight bytes at a time (the [memcpy] into [chunk] is a
    little-endian load), then the remaining bytes one by one.  The fuel
    bounds the number of iterations of the first loop. *)
Fixpoint crc32c_hw_loop (fuel : nat) (crc : Z) (data : list byte) : Z :=
  match fuel with
  | O => foldl mm_crc32_u8 crc data
  | S fuel =>
    if (8 <=? length data)%nat
    then crc32c_hw_loop fuel (u32 (mm_crc32_u64 crc (le_value (take 8 data)))) (drop 8 data)
    else foldl mm_crc32_u8 crc data
  end.

Definition crc32c_hw (crc : Z) (data : list byte) : Z :=
  crc32c_hw_loop (length data) crc data.

(** The build targets the header distinguishes; [has_sse42] is the result of
    the run-time test on x86. *)
Inductive target := X86 (has_sse42 : bool) | ArmCrc | Portable.

Definition crc32c (t : target) (data : list byte) : Z :=
  let crc := 0xFFFFFFFF in
  let crc :=
    match t with
    | X86 has_sse42 =>
      if has_sse42 then crc32c_hw crc data else crc32c_software crc data
    | ArmCrc => crc32c_hw crc data
    | Portable => crc32c_software crc data
    end in
  crc ^^^ 0xFFFFFFFF.

(** What the instruction set manuals say of the two instructions: they add a
    byte, or the eight bytes of a word from the lowest, to the remainder. *)
Class CrcInstructions : Prop := {
  mm_crc32_u8_spec : forall crc b,
    is_uint 32 crc -> mm_crc32_u8 crc b = crc_bits 8 (crc ^^^ b2z b);
  mm_crc32_u64_spec : forall crc v,
    is_uint 32 crc -> mm_crc32_u64 crc v = foldl mm_crc32_u8 crc (le_bytes 8 v)
}.

End Hardware.

(** Software implementations of the two instructions. *)
Definition soft_crc32_u8 (crc : Z) (b : byte) : Z := crc_bits 8 (crc ^^^ b2z b).
Definition soft_crc32_u64 (crc v : Z) : Z := foldl soft_crc32_u8 crc (le_bytes 8 v).

#[global] Instance soft_instructions : CrcInstructions soft_crc32_u8 soft_crc32_u64.
Proof. by split. Qed.

(** The reference: the whole buffer as one division, bit by bit. *)
Definition crc_ref (crc : Z) (data : list byte) : Z := foldl soft_crc32_u8 crc data.

(** ** The bit step *)

Lemma kPoly_range : is_uint 32 kPoly.
Proof. done. Qed.

Lemma crc_bit_odd crc :
  crc_bit crc = (crc >>> 1) ^^^ (if Z.odd crc then kPoly else 0).
Proof.
  unfold crc_bit. rewrite <- Z.bit0_odd.
  assert (crc &&& 1 = Z.b2z (Z.testbit crc 0)) as ->.
  { change 1 with (Z.ones 1) at 1. rewrite Z.land_ones by lia. change (2 ^ 1) with 2.
    rewrite Z.bit0_mod. done. }
  destruct (Z.testbit crc 0); cbn [Z.b2z]; simpl Z.eqb; cbn iota; [done|].
  by rewrite Z.lxor_0_r.
Qed.

Lemma crc_bit_range crc : is_uint 32 crc -> is_uint 32 (crc_bit crc).
Proof.
  intros H. rewrite crc_bit_odd. apply is_uint_lxor; [lia|by apply is_uint_shiftr|].
  by destruct (Z.odd crc).
Qed.

Lemma crc_bit_lxor x y : crc_bit (x ^^^ y) = crc_bit x ^^^ crc_bit y.
Proof.
  rewrite !crc_bit_odd, Z.shiftr_lxor, <- !Z.bit0_odd, Z.lxor_spec.
  destruct (Z.testbit x 0), (Z.testbit y 0); cbn [xorb];
    rewrite ?Z.lxor_0_r, ?Z.lxor_assoc; try done.
  - rewrite (Z.lxor_comm kPoly), Z.lxor_assoc, Z.lxor_nilpotent, Z.lxor_0_r. done.
  - by rewrite (Z.lxor_comm kPoly).
Qed.

(** The polynomial has its top bit set, so the step can be undone. *)
Lemma crc_bit_inj x y : is_uint 32 x -> is_uint 32 y -> crc_bit x = crc_bit y -> x = y.
Proof.
  intros Hx Hy. rewrite !crc_bit_odd. intros E.
  assert (Z.odd x = Z.odd y) as Ho.
  { apply (f_equal (fun z => Z.testbit z 31)) in E.
    rewrite !Z.lxor_spec, !Z.shiftr_spec in E by lia.
    rewrite (is_uint_testbit 32 x), (is_uint_testbit 32 y) in E by (done || lia).
    by destruct (Z.odd x), (Z.odd y). }
  rewrite Ho in E.
  assert (x >>> 1 = y >>> 1) as Es.
  { rewrite <- (Z.lxor_0_r (x >>> 1)), <- (Z.lxor_0_r (y >>> 1)).
    rewrite <- (Z.lxor_nilpotent (if Z.odd y then kPoly else 0)), <- !Z.lxor_assoc.
    by rewrite E. }
  apply Z.bits_inj'. intros i Hi. destruct (decide (i = 0)) as [->|].
  - by rewrite !Z.bit0_odd.
  - apply (f_equal (fun z => Z.testbit z (i - 1))) in Es.
    rewrite !Z.shiftr_spec in Es by lia. by replace (i - 1 + 1) with i in Es by lia.
Qed.

Lemma crc_bits_S n crc : crc_bits (S n) crc = crc_bits n (crc_bit crc).
Proof. apply Nat.iter_succ_r. Qed.

Lemma crc_bits_add n m crc : crc_bits (n + m) crc = crc_bits m (crc_bits n crc).
Proof. unfold crc_bits. rewrite Nat.add_comm. apply Nat.iter_add. Qed.

Lemma crc_bits_range n crc : is_uint 32 crc -> is_uint 32 (crc_bits n crc).
Proof.
  revert crc. induction n as [|n IH]; intros crc H; [done|].
  rewrite crc_bits_S. by apply IH, crc_bit_range.
Qed.

Lemma crc_bits_lxor n x y : crc_bits n (x ^^^ y) = crc_bits n x ^^^ crc_bits n y.
Proof.
  revert x y. induction n as [|n IH]; intros x y; [done|].
  by rewrite !crc_bits_S, crc_bit_lxor, IH.
Qed.

Lemma crc_bits_inj n x y :
  is_uint 32 x -> is_uint 32 y -> crc_bits n x = crc_bits n y -> x = y.
Proof.
  revert x y. induction n as [|n IH]; intros x y Hx Hy; [done|].
  rewrite !crc_bits_S. intros E. apply crc_bit_inj; [done..|].
  apply IH; [by apply crc_bit_range..|done].
Qed.

(** Bits above the [n] lowest are only moved by [n] steps. *)
Lemma crc_bits_shiftl n v : crc_bits n (v <<< Z.of_nat n) = v.
Proof.
  induction n as [|n IH]; [by rewrite Z.shiftl_0_r|].
  rewrite crc_bits_S, crc_bit_odd, <- Z.bit0_odd, Z.shiftl_spec_low, Z.lxor_0_r by lia.
  rewrite Z.shiftr_shiftl_l by lia. by replace (Z.of_nat (S n) - 1) with (Z.of_nat n) by lia.
Qed.

(** ** The table *)

Lemma kTable_make_table : kTable = make_table.
Proof. vm_compute. reflexivity. Qed.

Lemma kTable_nth i : 0 <= i < 256 -> nth (Z.to_nat i) kTable 0 = crc_bits 8 i.
Proof.
  intros Hi. rewrite kTable_make_table. unfold make_table.
  rewrite (nth_indep _ 0 (crc_bits 8 (Z.of_nat 0))) by (rewrite length_map, length_seq; lia).
  rewrite (map_nth (fun i => crc_bits 8 (Z.of_nat i))), seq_nth by lia.
  by rewrite Nat.add_0_l, Z2Nat.id by lia.
Qed.

(** A number is its low byte and the rest. *)
Lemma split_low_byte x : 0 <= x -> x = (x &&& 0xFF) ^^^ ((x >>> 8) <<< 8).
Proof.
  intros Hx. apply Z.bits_inj'. intros i Hi.
  rewrite Z.lxor_spec, Z.land_spec, Z.shiftl_spec by lia.
  change 0xFF with (Z.ones 8). rewrite Z.testbit_ones_nonneg by lia.
  destruct (Z.ltb_spec i 8).
  - rewrite (Z.testbit_neg_r _ (i - 8)) by lia. by rewrite andb_true_r, xorb_false_r.
  - rewrite Z.shiftr_spec by lia. replace (i - 8 + 8) with i by lia.
    by rewrite andb_false_r, xorb_false_l.
Qed.

Lemma software_step_ref crc b :
  is_uint 32 crc -> crc32c_software_step crc b = soft_crc32_u8 crc b.
Proof.
  intros Hc. unfold crc32c_software_step, soft_crc32_u8.
  assert (0 <= crc ^^^ b2z b) as Hnn.
  { apply Z.lxor_nonneg. pose proof (b2z_range b). unfold is_uint in *. lia. }
  rewrite (split_low_byte (crc ^^^ b2z b)) at 2 by done.
  rewrite crc_bits_lxor, (crc_bits_shiftl 8), kTable_nth.
  - rewrite (Z.shiftr_lxor crc). f_equal.
    assert (b2z b >>> 8 = 0) as ->; [|by rewrite Z.lxor_0_r].
    rewrite Z.shiftr_div_pow2 by lia. apply Z.div_small, b2z_range.
  - change 0xFF with (2 ^ 8 - 1). rewrite land_mask by lia. by apply wrap_range.
Qed.

Lemma soft_crc32_u8_range crc b : is_uint 32 crc -> is_uint 32 (soft_crc32_u8 crc b).
Proof.
  intros H. apply crc_bits_range, is_uint_lxor; [lia|done|].
  apply (is_uint_le 8); [lia|apply b2z_range].
Qed.

Lemma crc_ref_range crc data : is_uint 32 crc -> is_uint 32 (crc_ref crc data).
Proof.
  revert crc. induction data as [|b data IH]; intros crc H; [done|].
  cbn. by apply IH, soft_crc32_u8_range.
Qed.

Lemma crc_ref_app crc a b : crc_ref crc (a ++ b) = crc_ref (crc_ref crc a) b.
Proof. apply foldl_app. Qed.

Lemma crc32c_software_ref crc data :
  is_uint 32 crc -> crc32c_software crc data = crc_ref crc data.
Proof.
  revert crc. induction data as [|b data IH]; intros crc H; [done|].
  cbn. rewrite software_step_ref by done. by apply IH, soft_crc32_u8_range.
Qed.

(** ** The processor's instructions *)

Section HardwareLemmas.
Context (mm_crc32_u8 : Z -> byte -> Z) (mm_crc32_u64 : Z -> Z -> Z).
Context {Hcrc : CrcInstructions mm_crc32_u8 mm_crc32_u64}.

Lemma mm_crc32_u8_fold crc data :
  is_uint 32 crc -> foldl mm_crc32_u8 crc data = crc_ref crc data.
Proof.
  revert crc. induction data as [|b data IH]; intros crc H; [done|].
  cbn. rewrite (mm_crc32_u8_spec _ _ (CrcInstructions:=Hcrc)) by done. by apply IH, soft_crc32_u8_range.
Qed.

Lemma crc32c_hw_loop_ref fuel crc data :
  is_uint 32 crc -> crc32c_hw_loop mm_crc32_u8 mm_crc32_u64 fuel crc data = crc_ref crc data.
Proof.
  revert crc data. induction fuel as [|fuel IH]; intros crc data H; cbn [crc32c_hw_loop].
  - auto using mm_crc32_u8_fold.
  - case_test; [|auto using mm_crc32_u8_fold]. bool_to_prop.
    assert (mm_crc32_u64 crc (le_value (take 8 data)) = crc_ref crc (take 8 data)) as ->.
    { rewrite (mm_crc32_u64_spec _ _ (CrcInstructions:=Hcrc)), mm_crc32_u8_fold by done. f_equal.
      rewrite <- (le_bytes_le_value (take 8 data)) at 2. f_equal. rewrite length_take. lia. }
    rewrite wrap_small by by apply crc_ref_range.
    rewrite IH by by apply crc_ref_range.
    rewrite <- (take_drop 8 data) at 3. by rewrite crc_ref_app.
Qed.

(** Every path of [crc32c] is the bit-by-bit division. *)
Lemma crc32c_ref t data :
  crc32c mm_crc32_u8 mm_crc32_u64 t data = crc_ref 0xFFFFFFFF data ^^^ 0xFFFFFFFF.
Proof.
  assert (is_uint 32 0xFFFFFFFF) by done.
  unfold crc32c, crc32c_hw. f_equal. destruct t as [[]| |];
    auto using crc32c_hw_loop_ref, crc32c_software_ref.
Qed.

Lemma crc32c_range t data : is_uint 32 (crc32c mm_crc32_u8 mm_crc32_u64 t data).
Proof. rewrite crc32c_ref. apply is_uint_lxor; [lia| |done]. by apply crc_ref_range. Qed.

End HardwareLemmas.

(** ** Error detection *)

(** A buffer is one number, divided as a whole. *)
Lemma crc_ref_number crc data :
  is_uint 32 crc -> crc_ref crc data = crc_bits (8 * length data) (crc ^^^ le_value data).
Proof.
  revert crc. induction data as [|b data IH]; intros crc H.
  - cbn. by rewrite Z.lxor_0_r.
  - change (crc_ref crc (b :: data)) with (crc_ref (soft_crc32_u8 crc b) data).
    rewrite IH by by apply soft_crc32_u8_range. unfold soft_crc32_u8.
    rewrite <- (crc_bits_shiftl 8 (le_value data)) at 1. rewrite <- crc_bits_lxor.
    cbn [length]. replace (8 * S (length data))%nat with (8 + 8 * length data)%nat by lia.
    rewrite crc_bits_add. do 2 f_equal.
    rewrite Z.lxor_assoc. f_equal. change (b :: data) with ([b] ++ data).
    rewrite le_value_app_lxor. cbn [length]. f_equal.
    cbn. by rewrite Z.lor_0_r.
Qed.

(** A difference of at most [32] consecutive bits. *)
Definition burst_number (z : Z) : Prop :=
  exists (k : nat) (d : Z), 0 < d < 2 ^ 32 /\ z = d <<< Z.of_nat k.

(** The buffers differ, and only inside [32] consecutive bits. *)
Definition burst_error (x y : list byte) : Prop :=
  length x = length y /\ burst_number (le_value x ^^^ le_value y).

Lemma burst_error_offset x y k d :
  length x = length y -> 0 < d < 2 ^ 32 ->
  le_value x ^^^ le_value y = d <<< Z.of_nat k -> (k <= 8 * length x)%nat.
Proof.
  intros Hl Hd E. destruct (decide (k <= 8 * length x)%nat) as [|Hk]; [done|exfalso].
  assert (is_uint (8 * Z.of_nat (length x)) (d <<< Z.of_nat k)) as Hr.
  { rewrite <- E. apply is_uint_lxor; [lia|apply le_value_range|rewrite Hl; apply le_value_range]. }
  rewrite Z.shiftl_mul_pow2 in Hr by lia. destruct Hr as [_ Hr].
  assert (2 ^ (8 * Z.of_nat (length x)) <= 2 ^ Z.of_nat k) by (apply Z.pow_le_mono_r; lia).
  assert (0 < 2 ^ Z.of_nat k) by (apply Z.pow_pos_nonneg; lia). nia.
Qed.

Lemma crc_ref_burst crc x y :
  is_uint 32 crc -> burst_error x y -> crc_ref crc x <> crc_ref crc y.
Proof.
  intros Hc (Hl & k & d & Hd & E) Heq.
  pose proof (burst_error_offset x y k d Hl Hd E) as Hk.
  rewrite !crc_ref_number, <- Hl, !crc_bits_lxor in Heq by done.
  apply (f_equal (fun z => z ^^^ crc_bits (8 * length x) crc)) in Heq.
  rewrite !(Z.lxor_comm (crc_bits _ crc)), !Z.lxor_assoc, !Z.lxor_nilpotent, !Z.lxor_0_r in Heq.
  assert (crc_bits (8 * length x) (le_value x ^^^ le_value y) = 0) as H0.
  { by rewrite crc_bits_lxor, Heq, Z.lxor_nilpotent. }
  rewrite E in H0. replace (8 * length x)%nat with (k + (8 * length x - k))%nat in H0 by lia.
  rewrite crc_bits_add, crc_bits_shiftl in H0.
  assert (d = 0); [|lia]. apply (crc_bits_inj (8 * length x - k)); [unfold is_uint; lia|done|].
  rewrite H0. clear. induction (8 * length x - k)%nat as [|n IH]; [done|]. by rewrite crc_bits_S.
Qed.

(** Changing at most four consecutive bytes is such an error. *)
Lemma burst_error_bytes p x y s :
  length x = length y -> (length x <= 4)%nat -> x <> y ->
  burst_error (p ++ x ++ s) (p ++ y ++ s).
Proof.
  intros Hl H4 Hne. split; [rewrite !length_app; lia|].
  exists (8 * length p)%nat, (le_value x ^^^ le_value y).
  assert (is_uint 32 (le_value x) /\ is_uint 32 (le_value y)) as [Hx Hy].
  { split; (eapply is_uint_le; [|apply le_value_range]); lia. }
  split.
  - assert (is_uint 32 (le_value x ^^^ le_value y)) as [H1 H2] by (by apply is_uint_lxor).
    assert (le_value x ^^^ le_value y <> 0); [|lia].
    rewrite Z.lxor_eq_0_iff. intros E. apply Hne. by apply le_value_inj.
  - rewrite !le_value_app_lxor, <- Hl, !Z.shiftl_lxor.
    apply Z.bits_inj'. intros i _. rewrite !Z.lxor_spec.
    replace (Z.of_nat (8 * length p)) with (8 * Z.of_nat (length p)) by lia.
    by repeat match goal with |- context [Z.testbit ?a i] => destruct (Z.testbit a i) end.
Qed.

(** A buffer followed by its checksum leaves a constant remainder. *)
Lemma crc_ref_trailer crc data c :
  is_uint 32 crc -> is_uint 32 c ->
  crc_ref crc (data ++ le_bytes 4 c) = crc_bits 32 (crc_ref crc data ^^^ c).
Proof.
  intros Hcrc Hc. rewrite crc_ref_app, crc_ref_number by by apply crc_ref_range.
  by rewrite (le_value_field 4 32), length_le_bytes.
Qed.

Lemma crc32c_trailer mm_crc32_u8 mm_crc32_u64 t x y :
  CrcInstructions mm_crc32_u8 mm_crc32_u64 ->
  ~ burst_error (x ++ le_bytes 4 (crc32c mm_crc32_u8 mm_crc32_u64 t x))
                (y ++ le_bytes 4 (crc32c mm_crc32_u8 mm_crc32_u64 t y)).
Proof.
  intros Hcrc Hb. apply (crc_ref_burst 0xFFFFFFFF) in Hb; [|done]. apply Hb.
  rewrite !crc_ref_trailer by (done || by apply crc32c_range).
  by rewrite !crc32c_ref, <- !Z.lxor_assoc, !Z.lxor_nilpotent by done.
Qed.

(** The part of a burst below bit [n], and the part above it. *)
Lemma burst_number_low n z :
  0 <= n -> burst_number z -> wrap n z <> 0 -> burst_number (wrap n z).
Proof.
  intros Hn (k & d & Hd & ->) Hnz.
  assert (wrap n (d <<< Z.of_nat k) = wrap (Z.max 0 (n - Z.of_nat k)) d <<< Z.of_nat k) as E.
  { apply Z.bits_inj'. intros i Hi. rewrite wrap_testbit by lia.
    destruct (decide (i < Z.of_nat k)).
    - by rewrite !Z.shiftl_spec_low, andb_false_r by lia.
    - rewrite !Z.shiftl_spec, wrap_testbit by lia. f_equal.
      apply Bool.eq_iff_eq_true. rewrite !Z.ltb_lt. lia. }
  rewrite E in *. exists k, (wrap (Z.max 0 (n - Z.of_nat k)) d). split; [|done].
  destruct (wrap_range (Z.max 0 (n - Z.of_nat k)) d) as [H0 H1]; [lia|]. split.
  - assert (wrap (Z.max 0 (n - Z.of_nat k)) d <> 0); [|lia]. intros Hz.
    by rewrite Hz, Z.shiftl_0_l in Hnz.
  - apply Z.le_lt_trans with d; [|lia]. apply Z.mod_le; [lia|]. apply Z.pow_pos_nonneg; lia.
Qed.

Lemma burst_number_high n z :
  0 <= n -> burst_number z -> z >>> n <> 0 -> burst_number (z >>> n).
Proof.
  intros Hn (k & d & Hd & ->) Hnz. destruct (decide (n <= Z.of_nat k)) as [Hk|Hk].
  - exists (k - Z.to_nat n)%nat, d. split; [done|].
    rewrite Z.shiftr_shiftl_l by lia. f_equal. lia.
  - rewrite Z.shiftr_shiftl_r in * by lia.
    exists 0%nat, (d >>> (n - Z.of_nat k)). rewrite Z.shiftl_0_r. split; [|done].
    destruct (is_uint_shiftr 32 d (n - Z.of_nat k)); [lia|lia|unfold is_uint; lia|]. lia.
Qed.

(** The difference of two buffers of two parts. *)
Lemma xor_app x1 y1 x2 y2 :
  length x1 = length y1 ->
  let z := le_value (x1 ++ x2) ^^^ le_value (y1 ++ y2) in
  let n := 8 * Z.of_nat (length x1) in
  le_value x1 ^^^ le_value y1 = wrap n z /\ le_value x2 ^^^ le_value y2 = z >>> n.
Proof.
  intros Hl z n.
  assert (forall a b, length a = length x1 -> wrap n (le_value (a ++ b)) = le_value a /\
                      le_value (a ++ b) >>> n = le_value b) as Hsplit.
  { intros a b Ha. pose proof (le_value_range a) as Hr.
    rewrite le_value_app. rewrite Ha in *. fold n in Hr |- *. unfold wrap, is_uint in *.
    rewrite Z.shiftr_div_pow2, !(Z.mul_comm (2 ^ n)), Z.mod_add, Z.div_add by lia.
    rewrite Z.mod_small, Z.div_small by lia. lia. }
  subst z. rewrite Z.shiftr_lxor, wrap_lxor by lia.
  destruct (Hsplit x1 x2 eq_refl) as [-> ->], (Hsplit y1 y2 (eq_sym Hl)) as [-> ->]. done.
Qed.

(** A burst in a buffer of two parts is in the second part, or visible in the
    first. *)
Lemma burst_error_app x1 y1 x2 y2 :
  length x1 = length y1 -> burst_error (x1 ++ x2) (y1 ++ y2) ->
  (x1 = y1 /\ burst_error x2 y2) \/ burst_error x1 y1.
Proof.
  intros Hl [Hl' Hb]. rewrite !length_app in Hl'.
  destruct (xor_app x1 y1 x2 y2 Hl) as [Elow Ehigh].
  set (n := 8 * Z.of_nat (length x1)) in *. set (z := _ ^^^ le_value (y1 ++ y2)) in *.
  destruct (decide (wrap n z = 0)) as [H0|H0].
  - left. rewrite H0 in Elow. split; [by apply le_value_inj, Z.lxor_eq|]. split; [lia|].
    rewrite Ehigh. apply burst_number_high; [lia|done|]. intros Hz.
    destruct Hb as (k & d & Hd & E). assert (z = 0) as E0.
    { apply Z.bits_inj'. intros i Hi. rewrite Z.bits_0. destruct (decide (i < n)).
      - rewrite <- (Z.bits_0 i), <- H0, wrap_testbit by lia. by rewrite (proj2 (Z.ltb_lt _ _)).
      - rewrite <- (Z.bits_0 (i - n)), <- Hz, Z.shiftr_spec by lia. f_equal. lia. }
    rewrite E0 in E. symmetry in E. apply Z.shiftl_eq_0_iff in E; lia.
  - right. split; [done|]. rewrite Elow. apply burst_number_low; [lia|done|done].
Qed.

Lemma burst_number_bits z i j :
  burst_number z -> Z.testbit z i = true -> Z.testbit z j = true -> j < i + 32.
Proof.
  intros (k & d & Hd & ->) Hi Hj.
  assert (forall i, Z.testbit (d <<< Z.of_nat k) i = true -> Z.of_nat k <= i < Z.of_nat k + 32) as H.
  { clear i j Hi Hj. intros i Hi. assert (0 <= i).
    { destruct (decide (0 <= i)); [done|]. by rewrite Z.testbit_neg_r in Hi by lia. }
    rewrite Z.shiftl_spec in Hi by lia. split.
    - destruct (decide (Z.of_nat k <= i)); [done|]. by rewrite Z.testbit_neg_r in Hi by lia.
    - destruct (decide (i < Z.of_nat k + 32)); [done|].
      rewrite (is_uint_testbit 32) in Hi; [done|unfold is_uint; lia|lia]. }
  apply H in Hi, Hj. lia.
Qed.

Lemma nonzero_bit z : 0 <= z -> z <> 0 -> exists i, 0 <= i /\ Z.testbit z i = true.
Proof.
  intros Hz Hnz. exists (Z.log2 z). split; [apply Z.log2_nonneg|]. apply Z.bit_log2. lia.
Qed.

(** A burst does not reach across four intact bytes. *)
Lemma burst_error_gap x1 y1 x2 y2 x3 y3 :
  length x1 = length y1 -> length x2 = length y2 -> (4 <= length x2)%nat ->
  burst_error (x1 ++ x2 ++ x3) (y1 ++ y2 ++ y3) -> x1 = y1 \/ x3 = y3.
Proof.
  intros H1 H2 H4 [Hl Hb]. rewrite !length_app in Hl.
  destruct (xor_app x1 y1 (x2 ++ x3) (y2 ++ y3) H1) as [Elow _].
  destruct (xor_app (x1 ++ x2) (y1 ++ y2) x3 y3) as [_ Ehigh]; [rewrite !length_app; lia|].
  rewrite <- !app_assoc, length_app in Ehigh.
  destruct (decide (x1 = y1)) as [|N1]; [by left|]. destruct (decide (x3 = y3)) as [|N3]; [by right|].
  exfalso. set (z := _ ^^^ le_value (y1 ++ y2 ++ y3)) in *.
  assert (forall a b, 0 <= le_value a ^^^ le_value b) as Hnn.
  { intros a b. apply Z.lxor_nonneg. pose proof (le_value_nonneg a). pose proof (le_value_nonneg b). tauto. }
  destruct (nonzero_bit (le_value x1 ^^^ le_value y1)) as (i & Hi0 & Hi); [done| |].
  { rewrite Z.lxor_eq_0_iff. by intros ?%le_value_inj. }
  destruct (nonzero_bit (le_value x3 ^^^ le_value y3)) as (j & Hj0 & Hj); [done| |].
  { rewrite Z.lxor_eq_0_iff. intros ?%le_value_inj; [done|lia]. }
  rewrite Elow, wrap_testbit in Hi by lia. apply andb_true_iff in Hi as [Hin Hi]. bool_to_prop.
  rewrite Ehigh, Z.shiftr_spec in Hj by lia.
  pose proof (burst_number_bits z _ _ Hb Hi Hj). lia.
Qed.

Lemma crc32c_burst mm_crc32_u8 mm_crc32_u64 t x y :
  CrcInstructions mm_crc32_u8 mm_crc32_u64 -> burst_error x y ->
  crc32c mm_crc32_u8 mm_crc32_u64 t x <> crc32c mm_crc32_u8 mm_crc32_u64 t y.
Proof.
  intros Hcrc Hxy. rewrite !crc32c_ref by done. intros E.
  apply (crc_ref_burst 0xFFFFFFFF x y); [done|done|].
  apply (f_equal (fun z => z ^^^ 0xFFFFFFFF)) in E.
  by rewrite !Z.lxor_assoc, !Z.lxor_nilpotent, !Z.lxor_0_r in E.
Qed.

(** ** The interface of the codecs

    What the frame and log codecs need of a checksum.  Their definitions take
    the function as an argument; every build of [crc32c] is an instance. *)

Class Checksum (crc32c : list byte -> Z) : Prop := {
  checksum_range : forall data, is_uint 32 (crc32c data);
  checksum_burst : forall x y, burst_error x y -> crc32c x <> crc32c y;
  checksum_trailer : forall x y,
    ~ burst_error (x ++ le_bytes 4 (crc32c x)) (y ++ le_bytes 4 (crc32c y))
}.

#[global] Instance crc32c_checksum mm_crc32_u8 mm_crc32_u64 t :
  CrcInstructions mm_crc32_u8 mm_crc32_u64 -> Checksum (crc32c mm_crc32_u8 mm_crc32_u64 t).
Proof. intros Hcrc. split; intros; [by apply crc32c_range|by apply crc32c_burst|by apply crc32c_trailer]. Qed.

(** The build for a processor without CRC instructions. *)
Definition crc32c_portable : list byte -> Z := crc32c soft_crc32_u8 soft_crc32_u64 Portable.

#[global] Instance crc32c_portable_checksum : Checksum crc32c_portable.
Proof. apply crc32c_checksum, _. Qed.

(** ** Properties *)

Definition ascii_123456789 : list byte := map z2b [49; 50; 51; 52; 53; 54; 55; 56; 57].

(** C16: every build computes the published CRC32C check values of the
    header's comment, and on every buffer the path through the processor's
    instructions (eight bytes at a time, then one by one) gives the result of
    the table-driven path, whatever the run-time dispatch decides. *)
Theorem crc32c_paths_agree mm_crc32_u8 mm_crc32_u64 t data :
  CrcInstructions mm_crc32_u8 mm_crc32_u64 ->
  crc32c mm_crc32_u8 mm_crc32_u64 t data = crc32c mm_crc32_u8 mm_crc32_u64 Portable data /\
  crc32c mm_crc32_u8 mm_crc32_u64 t [] = 0 /\
  crc32c mm_crc32_u8 mm_crc32_u64 t ascii_123456789 = 0xE3069283.
Proof. intros Hcrc. by rewrite !crc32c_ref by done. Qed.

Lemma crc32c_paths_agree_witness :
  crc32c soft_crc32_u8 soft_crc32_u64 (X86 true) (ascii_123456789 ++ ascii_123456789) =
  crc32c soft_crc32_u8 soft_crc32_u64 Portable (ascii_123456789 ++ ascii_123456789).
Proof. apply (crc32c_paths_agree _ _ (X86 true) _ soft_instructions). Defined.

(** Error detection.  The checksum of a buffer changes when one run of at
    most 32 consecutive bits of it changes, wherever the run starts, on every
    build. *)
Theorem crc32c_detects_bursts mm_crc32_u8 mm_crc32_u64 t x y :
  CrcInstructions mm_crc32_u8 mm_crc32_u64 -> burst_error x y ->
  is_uint 32 (crc32c mm_crc32_u8 mm_crc32_u64 t x) /\
  crc32c mm_crc32_u8 mm_crc32_u64 t x <> crc32c mm_crc32_u8 mm_crc32_u64 t y.
Proof. intros Hcrc Hxy. split; [by apply crc32c_range|by apply crc32c_burst]. Qed.

Lemma crc32c_detects_bursts_witness :
  crc32c soft_crc32_u8 soft_crc32_u64 Portable (map z2b [1; 2; 3; 4; 5; 6]) <>
  crc32c soft_crc32_u8 soft_crc32_u64 Portable (map z2b [1; 0x82; 0xff; 0; 5; 6]).
Proof.
  apply (crc32c_detects_bursts _ _ _ _ _ soft_instructions).
  split; [reflexivity|]. exists 15%nat, 0x9f9. split; [split; reflexivity|vm_compute; reflexivity].
Defined.

End Crc.
