(* ===== verification/Frame.v ===== *)
(** * The frame format ([include/sensorforge/protocol/frame.hpp])

    Constants, enumerations and the header record of the binary frame
    protocol.  [SensorType] and [FrameFlags] have a fixed underlying type, so
    the decoder may produce any 16-bit value: they are numbers here, with the
    enumerators as constants; [FrameError] is closed and is an inductive. *)

From S2P Require Export Prelude.

Module Frame.

Definition kMagic : Z := 0x53464844.
Definition kVersion : Z := 0x0001.
Definition kHeaderSize : Z := 36.
Definition kFrameOverhead : Z := kHeaderSize + 4.
Definition kMaxPayload : Z := 4 * 1024 * 1024.

(** [enum FrameFlags : uint16_t] *)
Definition kFlagNone : Z := 0.
Definition kFlagFragmented : Z := 1 <<< 0.
Definition kFlagCompressed : Z := 1 <<< 1.

(** [enum class SensorType : uint16_t] *)
Definition SensorType : Set := Z.
Definition kUnknown : SensorType := 0.
Definition kLidar : SensorType := 1.
Definition kCamera : SensorType := 2.
Definition kImu : SensorType := 3.
Definition kGps : SensorType := 4.
Definition kCan : SensorType := 5.
Definition kControl : SensorType := 6.

Record FrameHeader := mkFrameHeader {
  magic : Z;
  version : Z;
  sensor_type : SensorType;
  flags : Z;
  header_size : Z;
  sequence : Z;
  timestamp_ns : Z;
  payload_size : Z;
  payload_crc32c : Z
}.

(** The default member initialisers. *)
Definition FrameHeader_default : FrameHeader :=
  {| magic := kMagic; version := kVersion; sensor_type := kUnknown; flags := kFlagNone;
     header_size := kHeaderSize; sequence := 0; timestamp_ns := 0;
     payload_size := 0; payload_crc32c := 0 |}.

(** Assignments to one member. *)
Definition set_magic v h := mkFrameHeader v h.(version) h.(sensor_type) h.(flags)
  h.(header_size) h.(sequence) h.(timestamp_ns) h.(payload_size) h.(payload_crc32c).
Definition set_version v h := mkFrameHeader h.(magic) v h.(sensor_type) h.(flags)
  h.(header_size) h.(sequence) h.(timestamp_ns) h.(payload_size) h.(payload_crc32c).
Definition set_sensor_type v h := mkFrameHeader h.(magic) h.(version) v h.(flags)
  h.(header_size) h.(sequence) h.(timestamp_ns) h.(payload_size) h.(payload_crc32c).
Definition set_flags v h := mkFrameHeader h.(magic) h.(version) h.(sensor_type) v
  h.(header_size) h.(sequence) h.(timestamp_ns) h.(payload_size) h.(payload_crc32c).
Definition set_header_size v h := mkFrameHeader h.(magic) h.(version) h.(sensor_type)
  h.(flags) v h.(sequence) h.(timestamp_ns) h.(payload_size) h.(payload_crc32c).
Definition set_sequence v h := mkFrameHeader h.(magic) h.(version) h.(sensor_type)
  h.(flags) h.(header_size) v h.(timestamp_ns) h.(payload_size) h.(payload_crc32c).
Definition set_timestamp_ns v h := mkFrameHeader h.(magic) h.(version) h.(sensor_type)
  h.(flags) h.(header_size) h.(sequence) v h.(payload_size) h.(payload_crc32c).
Definition set_payload_size v h := mkFrameHeader h.(magic) h.(version) h.(sensor_type)
  h.(flags) h.(header_size) h.(sequence) h.(timestamp_ns) v h.(payload_crc32c).
Definition set_payload_crc32c v h := mkFrameHeader h.(magic) h.(version) h.(sensor_type)
  h.(flags) h.(header_size) h.(sequence) h.(timestamp_ns) h.(payload_size) v.

Inductive FrameError :=
| kOk
| kTruncatedHeader
| kBadMagic
| kUnsupportedVersion
| kBadHeaderSize
| kPayloadTooLarge
| kLengthOverflow
| kTruncatedPayload
| kHeaderCrcMismatch
| kPayloadCrcMismatch
| kSequenceRegression
| kTimestampRegression.

#[global] Instance FrameError_eq_dec : EqDecision FrameError.
Proof. solve_decision. Defined.

(** [to_string(FrameError)] *)
Definition FrameError_to_string (e : FrameError) : string :=
  match e with
  | kOk => "ok"
  | kTruncatedHeader => "truncated_header"
  | kBadMagic => "bad_magic"
  | kUnsupportedVersion => "unsupported_version"
  | kBadHeaderSize => "bad_header_size"
  | kPayloadTooLarge => "payload_too_large"
  | kLengthOverflow => "length_overflow"
  | kTruncatedPayload => "truncated_payload"
  | kHeaderCrcMismatch => "header_crc_mismatch"
  | kPayloadCrcMismatch => "payload_crc_mismatch"
  | kSequenceRegression => "sequence_regression"
  | kTimestampRegression => "timestamp_regression"
  end.

(** [to_string(SensorType)]: values without an enumerator fall through. *)
Definition SensorType_to_string (t : SensorType) : string :=
  if t =? kUnknown then "unknown"
  else if t =? kLidar then "lidar"
  else if t =? kCamera then "camera"
  else if t =? kImu then "imu"
  else if t =? kGps then "gps"
  else if t =? kCan then "can"
  else if t =? kControl then "ctrl"
  else "unknown".

#[global] Instance FrameError_to_string_inj : Inj (=) (=) FrameError_to_string.
Proof. intros [] []; done. Qed.

(** The members of a header at their widths. *)
Record header_wf (h : FrameHeader) : Prop := {
  wf_magic : is_uint 32 h.(magic);
  wf_version : is_uint 16 h.(version);
  wf_sensor_type : is_uint 16 h.(sensor_type);
  wf_flags : is_uint 16 h.(flags);
  wf_header_size : is_uint 16 h.(header_size);
  wf_sequence : is_uint 64 h.(sequence);
  wf_timestamp_ns : is_uint 64 h.(timestamp_ns);
  wf_payload_size : is_uint 32 h.(payload_size);
  wf_payload_crc32c : is_uint 32 h.(payload_crc32c)
}.

End Frame.
