(* ===== verification/FrameCodec.v ===== *)
(** * The frame codec ([src/protocol/frame_codec.cpp], [frame_codec.hpp])

    [encode_frame], [decode_header] and the stateful [FrameDecoder].  A pointer
    with its size is an optional buffer ([None] is [nullptr]); the parameter
    [out] of the decoder is a header passed in and returned; every read and
    write is bounds-checked by the model ([OutOfBounds]).

    Results: the decoder never leaves its buffer and reports the first failed
    check; it accepts exactly the buffers that start with a well-formed frame;
    what was encoded is decoded, whatever follows it; no burst of up to 32
    bits survives; the stateful decoder implements "not before the last
    accepted frame of the stream". *)

From S2P Require Export Frame Crc32c.
Import Frame.

Module FrameCodec.

(** ** Little-endian helpers *)

Definition put_u16 (off : nat) (v : Z) (p : list byte) : outcome (list byte) :=
  store off [z2b (v &&& 0xFF); z2b ((v >>> 8) &&& 0xFF)] p.

Definition put_u32 (off : nat) (v : Z) (p : list byte) : outcome (list byte) :=
  store off [z2b (v &&& 0xFF); z2b ((v >>> 8) &&& 0xFF);
             z2b ((v >>> 16) &&& 0xFF); z2b ((v >>> 24) &&& 0xFF)] p.

Definition put_u64 (off : nat) (v : Z) (p : list byte) : outcome (list byte) :=
  store off (map (fun i => z2b ((v >>> (8 * Z.of_nat i)) &&& 0xFF)) (seq 0 8)) p.

Definition get_u16 (p : list byte) (off : nat) : outcome Z :=
  p0 ← rd p off; p1 ← rd p (off + 1);
  Ok (u16 (p0 ||| (p1 <<< 8))).

Definition get_u32 (p : list byte) (off : nat) : outcome Z :=
  p0 ← rd p off; p1 ← rd p (off + 1); p2 ← rd p (off + 2); p3 ← rd p (off + 3);
  Ok (p0 ||| u32 (p1 <<< 8) ||| u32 (p2 <<< 16) ||| u32 (p3 <<< 24)).

Definition get_u64 (p : list byte) (off : nat) : outcome Z :=
  foldl (fun acc i =>
           v ← acc; pi ← rd p (off + i);
           Ok (v ||| u64 (pi <<< (8 * Z.of_nat i))))
        (Ok 0) (seq 0 8).

Definition kOffMagic : nat := 0.
Definition kOffVersion : nat := 4.
Definition kOffSensorType : nat := 6.
Definition kOffFlags : nat := 8.
Definition kOffHeaderSize : nat := 10.
Definition kOffSequence : nat := 12.
Definition kOffTimestamp : nat := 20.
Definition kOffPayloadSize : nat := 28.
Definition kOffPayloadCrc : nat := 32.
Definition kOffHeaderCrc : nat := Z.to_nat kHeaderSize.

(** ** State of the stateful decoder *)

Record StreamState := mkStreamState {
  last_sequence : Z;
  last_timestamp_ns : Z;
  seen : bool
}.

Definition StreamState_default : StreamState :=
  {| last_sequence := 0; last_timestamp_ns := 0; seen := false |}.

(** The decoder's only member, [last_]. *)
Abbreviation FrameDecoder := (gmap Z StreamState).

Definition reset (last_ : FrameDecoder) : FrameDecoder := ∅.

(** ** Encoding and decoding *)

Section Codec.
Context (crc32c : list byte -> Z).

Definition encode_frame (sensor_type : SensorType) (sequence timestamp_ns flags : Z)
    (payload : list byte) : outcome (list byte) :=
  let payload_len := Z.of_nat (length payload) in
  if kMaxPayload <? payload_len then Throws "std::length_error"
  else
    let p := repeat Byte.x00 (Z.to_nat (kFrameOverhead + payload_len)) in
    p ← put_u32 kOffMagic kMagic p;
    p ← put_u16 kOffVersion kVersion p;
    p ← put_u16 kOffSensorType sensor_type p;
    p ← put_u16 kOffFlags flags p;
    p ← put_u16 kOffHeaderSize kHeaderSize p;
    p ← put_u64 kOffSequence sequence p;
    p ← put_u64 kOffTimestamp timestamp_ns p;
    p ← put_u32 kOffPayloadSize (u32 payload_len) p;
    let payload_crc := if payload_len =? 0 then crc32c [] else crc32c payload in
    p ← put_u32 kOffPayloadCrc payload_crc p;
    hdr ← rd_range p 0 (Z.to_nat kHeaderSize);
    let header_crc := crc32c hdr in
    p ← put_u32 kOffHeaderCrc header_crc p;
    if payload_len =? 0 then Ok p
    else store (Z.to_nat kFrameOverhead) payload p.

Definition decode_header (data : option (list byte)) (out : FrameHeader) :
    outcome (FrameError * FrameHeader) :=
  match data with
  | None => Ok (kTruncatedHeader, out)
  | Some data =>
    let size := Z.of_nat (length data) in
    if size <? kFrameOverhead then Ok (kTruncatedHeader, out) else
    m ← get_u32 data kOffMagic;
    let out := set_magic m out in
    if negb (out.(magic) =? kMagic) then Ok (kBadMagic, out) else
    v ← get_u16 data kOffVersion;
    let out := set_version v out in
    if kVersion <? out.(version) then Ok (kUnsupportedVersion, out) else
    t ← get_u16 data kOffSensorType;
    let out := set_sensor_type t out in
    f ← get_u16 data kOffFlags;
    let out := set_flags f out in
    hs ← get_u16 data kOffHeaderSize;
    let out := set_header_size hs out in
    if negb (out.(header_size) =? kHeaderSize) then Ok (kBadHeaderSize, out) else
    sq ← get_u64 data kOffSequence;
    let out := set_sequence sq out in
    ts ← get_u64 data kOffTimestamp;
    let out := set_timestamp_ns ts out in
    ps ← get_u32 data kOffPayloadSize;
    let out := set_payload_size ps out in
    pc ← get_u32 data kOffPayloadCrc;
    let out := set_payload_crc32c pc out in
    if kMaxPayload <? out.(payload_size) then Ok (kPayloadTooLarge, out) else
    let need := u64 (kFrameOverhead + out.(payload_size)) in
    if need <? kFrameOverhead then Ok (kLengthOverflow, out) else
    if size <? need then Ok (kTruncatedPayload, out) else
    stored_header_crc ← get_u32 data kOffHeaderCrc;
    hdr ← rd_range data 0 (Z.to_nat kHeaderSize);
    if negb (crc32c hdr =? stored_header_crc) then Ok (kHeaderCrcMismatch, out) else
    pl ← rd_range data (Z.to_nat kFrameOverhead)
           (if out.(payload_size) =? 0 then 0%nat else Z.to_nat out.(payload_size));
    let payload_crc := crc32c pl in
    if negb (payload_crc =? out.(payload_crc32c)) then Ok (kPayloadCrcMismatch, out) else
    Ok (kOk, out)
  end.

(** [payload_ptr]: the payload region starts here. *)
Definition payload_ptr (data : list byte) : list byte := drop (Z.to_nat kFrameOverhead) data.

Definition decode (last_ : FrameDecoder) (data : option (list byte)) (stream_key : Z)
    (out : FrameHeader) : outcome (FrameError * FrameHeader * FrameDecoder) :=
  r ← decode_header data out;
  let '(err, out) := r in
  if negb (bool_decide (err = kOk)) then Ok (err, out, last_) else
  (* operator[] creates a missing entry *)
  let st := default StreamState_default (last_ !! stream_key) in
  let last_ := <[stream_key := st]> last_ in
  if st.(seen) && (out.(sequence) <? st.(last_sequence))
  then Ok (kSequenceRegression, out, last_) else
  if st.(seen) && (out.(timestamp_ns) <? st.(last_timestamp_ns))
  then Ok (kTimestampRegression, out, last_) else
  let st := {| seen := true; last_sequence := out.(sequence);
               last_timestamp_ns := out.(timestamp_ns) |} in
  Ok (kOk, out, <[stream_key := st]> last_).

End Codec.

(** ** Specifications of the helpers *)

Lemma put_u16_spec off v p : put_u16 off v p = store off (le_bytes 2 v) p.
Proof. unfold put_u16. by rewrite le_bytes_2. Qed.

Lemma put_u32_spec off v p : put_u32 off v p = store off (le_bytes 4 v) p.
Proof. unfold put_u32. by rewrite le_bytes_4. Qed.

Lemma put_u64_spec off v p : put_u64 off v p = store off (le_bytes 8 v) p.
Proof. unfold put_u64. by rewrite le_bytes_shifts. Qed.

Lemma get_u16_spec p off : get_u16 p off = rd_le 2 p off.
Proof. apply rd_le_2_spec. Qed.

Lemma get_u32_spec p off : get_u32 p off = rd_le 4 p off.
Proof. apply rd_le_4_spec. Qed.

Lemma get_u64_spec p off : get_u64 p off = rd_le 8 p off.
Proof. apply rd_le_8_spec. Qed.

#[export] Hint Rewrite put_u16_spec put_u32_spec put_u64_spec
  get_u16_spec get_u32_spec get_u64_spec : sf.

(** ** The format as one expression *)

(** The first [kHeaderSize] bytes of the frame with header [h]. *)
Definition header_bytes (h : FrameHeader) : list byte :=
  le_bytes 4 h.(magic) ++ le_bytes 2 h.(version) ++ le_bytes 2 h.(sensor_type) ++
  le_bytes 2 h.(flags) ++ le_bytes 2 h.(header_size) ++ le_bytes 8 h.(sequence) ++
  le_bytes 8 h.(timestamp_ns) ++ le_bytes 4 h.(payload_size) ++ le_bytes 4 h.(payload_crc32c).

(** The header that stands in the first bytes of a buffer. *)
Definition parse_header (p : list byte) : FrameHeader :=
  {| magic := le_value (slice 0 4 p);
     version := le_value (slice 4 2 p);
     sensor_type := le_value (slice 6 2 p);
     flags := le_value (slice 8 2 p);
     header_size := le_value (slice 10 2 p);
     sequence := le_value (slice 12 8 p);
     timestamp_ns := le_value (slice 20 8 p);
     payload_size := le_value (slice 28 4 p);
     payload_crc32c := le_value (slice 32 4 p) |}.

Lemma length_header_bytes h : length (header_bytes h) = 36%nat.
Proof. unfold header_bytes. by rewrite !length_app, !length_le_bytes. Qed.

Lemma parse_header_wf p : header_wf (parse_header p).
Proof. constructor; by apply le_value_slice_range. Qed.

Lemma parse_header_bytes h rest : header_wf h -> parse_header (header_bytes h ++ rest) = h.
Proof.
  intros []. destruct h; cbn in *. unfold parse_header.
  f_equal; first [by apply (le_value_field 2 16)|by apply (le_value_field 4 32)|by apply (le_value_field 8 64)].
Qed.

Lemma header_bytes_parse p :
  (36 <= length p)%nat -> header_bytes (parse_header p) = slice 0 36 p.
Proof.
  intros H. unfold header_bytes, parse_header. cbn [magic version
    sensor_type flags header_size sequence timestamp_ns payload_size payload_crc32c].
  rewrite !le_bytes_slice by lia.
  change 36%nat with (4 + (2 + (2 + (2 + (2 + (8 + (8 + (4 + 4))))))))%nat.
  by rewrite !slice_split.
Qed.

(** ** Encoding *)

(** One assignment of the encoder at the end of what it has written. *)
Ltac put_step :=
  first [rewrite put_u16_spec|rewrite put_u32_spec|rewrite put_u64_spec];
  rewrite store_next by (rewrite ?length_app, ?length_le_bytes; (reflexivity || cbn; lia));
  rewrite length_le_bytes; cbn [mbind outcome_bind].

Section CodecLemmas.
Context (crc32c : list byte -> Z) {Hck : Crc.Checksum crc32c}.

(** The header the encoder writes. *)
Definition encoded_header (t : SensorType) (s ts f : Z) (payload : list byte) : FrameHeader :=
  {| magic := kMagic; version := kVersion; sensor_type := t; flags := f;
     header_size := kHeaderSize; sequence := s; timestamp_ns := ts;
     payload_size := Z.of_nat (length payload); payload_crc32c := crc32c payload |}.

(** Header, header checksum, payload. *)
Definition frame_bytes (h : FrameHeader) (payload : list byte) : list byte :=
  header_bytes h ++ le_bytes 4 (crc32c (header_bytes h)) ++ payload.

Lemma encode_frame_eq t s ts f payload :
  Z.of_nat (length payload) <= kMaxPayload ->
  encode_frame crc32c t s ts f payload =
  Ok (frame_bytes (encoded_header t s ts f payload) payload).
Proof using.
  intros Hlen. unfold encode_frame, frame_bytes. set (h := encoded_header _ _ _ _ _).
  rewrite (proj2 (Z.ltb_ge _ _) Hlen).
  replace (if _ =? 0 then crc32c [] else crc32c payload)
    with (crc32c payload) by (by destruct payload).
  rewrite (wrap_small 32) by (unfold is_uint, kMaxPayload in *; lia).
  replace (Z.to_nat (kFrameOverhead + _)) with (40 + length payload)%nat
    by (unfold kFrameOverhead, kHeaderSize; lia).
  change (repeat Byte.x00 (40 + length payload))
    with ([] ++ repeat Byte.x00 (40 + length payload)).
  cbn zeta. do 9 put_step.
  match goal with |- context [?w ++ repeat _ _] =>
    assert (w = header_bytes h) as -> by (unfold header_bytes; cbn [app]; by rewrite <- !app_assoc)
  end.
  rewrite rd_range_prefix by apply length_header_bytes.
  cbn [mbind outcome_bind]. put_step.
  destruct payload as [|b payload]; cbn [length].
  - change (Z.of_nat 0 =? 0) with true. cbn iota.
    change (repeat _ _) with ([] : list byte). by rewrite !app_nil_r.
  - change (Z.of_nat (S (length payload)) =? 0) with false. cbn iota.
    rewrite store_next; [|by rewrite length_app, length_header_bytes, length_le_bytes|cbn; lia].
    replace (_ - length (b :: payload))%nat with 0%nat by (cbn; lia).
    by rewrite app_nil_r, <- app_assoc.
Qed.

(** ** Decoding *)

(** The checks of the decoder, in their documented order. *)
Definition frame_checks (p : list byte) : list (bool * FrameError) :=
  let h := parse_header p in
  let size := Z.of_nat (length p) in
  [ (size <? kFrameOverhead, kTruncatedHeader);
    (negb (h.(magic) =? kMagic), kBadMagic);
    (kVersion <? h.(version), kUnsupportedVersion);
    (negb (h.(header_size) =? kHeaderSize), kBadHeaderSize);
    (kMaxPayload <? h.(payload_size), kPayloadTooLarge);
    (size <? kFrameOverhead + h.(payload_size), kTruncatedPayload);
    (negb (crc32c (slice 0 36 p) =? le_value (slice 36 4 p)), kHeaderCrcMismatch);
    (negb (crc32c (slice 40 (Z.to_nat h.(payload_size)) p) =? h.(payload_crc32c)),
     kPayloadCrcMismatch) ].

Lemma decode_header_checks p out :
  exists h, decode_header crc32c (Some p) out = Ok (first_failed kOk (frame_checks p), h) /\
            (first_failed kOk (frame_checks p) = kOk -> h = parse_header p).
Proof using.
  unfold decode_header, first_failed, frame_checks. cbn [List.find fst].
  assert (Hps : is_uint 32 (parse_header p).(payload_size)) by apply parse_header_wf.
  change (parse_header p).(payload_size) with (le_value (slice 28 4 p)) in *.
  case_test; [by eexists|]. bool_to_prop. unfold kFrameOverhead, kHeaderSize, is_uint in *.
  change kOffHeaderCrc with 36%nat.
  unfold kOffMagic, kOffVersion, kOffSensorType, kOffFlags, kOffHeaderSize, kOffSequence,
    kOffTimestamp, kOffPayloadSize, kOffPayloadCrc. rewrite !get_u16_spec, !get_u32_spec, !get_u64_spec.
  rewrite !rd_le_in by (cbn; lia). cbn [mbind outcome_bind].
  cbn [magic version header_size payload_size payload_crc32c set_magic set_version
       set_sensor_type set_flags set_header_size set_sequence set_timestamp_ns
       set_payload_size set_payload_crc32c parse_header].
  do 4 (case_test; [by eexists|]). bool_to_prop. unfold kMaxPayload in *.
  rewrite wrap_small by (unfold is_uint; lia). rewrite (proj2 (Z.ltb_ge _ (36 + 4))) by lia.
  case_test; [by eexists|]. bool_to_prop.
  change (Z.to_nat 36) with 36%nat. change (Z.to_nat (36 + 4)) with 40%nat.
  rewrite !rd_range_ok by (try case_test; bool_to_prop; lia). cbn [mbind outcome_bind].
  case_test; [by eexists|].
  replace (if _ =? 0 then 0%nat else _) with (Z.to_nat (le_value (slice 28 4 p)))
    by (case_test; bool_to_prop; lia).
  case_test; [by eexists|]. eexists. by split; [reflexivity|].
Qed.

(** ** What is accepted *)

(** [h] and [payload] make a frame of this protocol. *)
Record valid_frame (h : FrameHeader) (payload : list byte) : Prop := {
  vf_wf : header_wf h;
  vf_magic : h.(magic) = kMagic;
  vf_version : h.(version) <= kVersion;
  vf_header_size : h.(header_size) = kHeaderSize;
  vf_payload_size : h.(payload_size) = Z.of_nat (length payload);
  vf_max_payload : h.(payload_size) <= kMaxPayload;
  vf_payload_crc : h.(payload_crc32c) = crc32c payload
}.

Lemma frame_checks_ok p :
  first_failed kOk (frame_checks p) = kOk <-> Forall (fun c => c.1 = false) (frame_checks p).
Proof using. apply first_failed_ok. unfold frame_checks. by repeat constructor. Qed.

Lemma decode_header_ok_checks p out h :
  decode_header crc32c (Some p) out = Ok (kOk, h) <->
  Forall (fun c => c.1 = false) (frame_checks p) /\ h = parse_header p.
Proof using.
  destruct (decode_header_checks p out) as (h' & -> & Hh). rewrite <- frame_checks_ok.
  split.
  - intros [= He <-]. by split; [|apply Hh].
  - intros [He ->]. by rewrite He, Hh.
Qed.

Lemma length_frame_bytes h payload :
  length (frame_bytes h payload) = (40 + length payload)%nat.
Proof using. unfold frame_bytes. by rewrite !length_app, length_header_bytes, length_le_bytes. Qed.

Lemma decode_header_sound p out h :
  decode_header crc32c (Some p) out = Ok (kOk, h) ->
  exists payload rest, valid_frame h payload /\ p = frame_bytes h payload ++ rest.
Proof using.
  rewrite decode_header_ok_checks. intros [Hc ->]. unfold frame_checks in Hc.
  rewrite !Forall_cons in Hc. cbn [fst] in Hc. destruct Hc as (H0&H1&H2&H3&H4&H5&H6&H7&_).
  bool_to_prop. pose proof (parse_header_wf p) as Hwf. pose proof (wf_payload_size _ Hwf) as Hps.
  unfold kFrameOverhead, kHeaderSize, is_uint in *.
  set (n := Z.to_nat (parse_header p).(payload_size)) in *.
  assert (length (slice 40 n p) = n) as Hn by (apply length_slice; lia).
  exists (slice 40 n p), (drop (40 + n) p). split.
  - constructor; try done. rewrite Hn. lia.
  - unfold frame_bytes. rewrite header_bytes_parse, H6, le_bytes_slice, <- !app_assoc by lia.
    rewrite <- (take_drop (36 + (4 + n)) p) at 1.
    change (take (36 + (4 + n)) p) with (slice 0 (36 + (4 + n)) p).
    by rewrite !slice_split, <- !app_assoc.
Qed.

Lemma decode_header_complete p out h payload rest :
  valid_frame h payload -> p = frame_bytes h payload ++ rest ->
  decode_header crc32c (Some p) out = Ok (kOk, h).
Proof using Hck.
  intros [] ->. apply decode_header_ok_checks.
  assert (parse_header (frame_bytes h payload ++ rest) = h) as Hp.
  { unfold frame_bytes. rewrite <- app_assoc. by apply parse_header_bytes. }
  split; [|done]. unfold frame_checks. rewrite Hp, length_app, length_frame_bytes.
  rewrite vf_payload_size0 in *. unfold frame_bytes. rewrite <- !app_assoc, Nat2Z.id.
  rewrite (slice_0_app (header_bytes h)) by apply length_header_bytes.
  rewrite (slice_app_mid (header_bytes h)) by (rewrite ?length_header_bytes, ?length_le_bytes; done).
  rewrite (app_assoc (header_bytes h)).
  rewrite slice_app_mid by (rewrite ?length_app, ?length_header_bytes, ?length_le_bytes; done).
  rewrite (le_value_field 4 32) by (done || apply Crc.checksum_range).
  rewrite vf_magic0, vf_header_size0, vf_payload_crc0, !Z.eqb_refl.
  unfold kFrameOverhead, kHeaderSize. repeat (apply Forall_cons; split); try done; cbn [fst]; apply Z.ltb_ge; lia.
Qed.

Lemma encoded_header_valid t s ts f payload :
  is_uint 16 t -> is_uint 64 s -> is_uint 64 ts -> is_uint 16 f ->
  Z.of_nat (length payload) <= kMaxPayload ->
  valid_frame (encoded_header t s ts f payload) payload.
Proof using Hck.
  intros Ht Hs Hts Hf Hlen. constructor; try done. constructor; try done; cbn.
  - unfold is_uint, kMaxPayload in *. lia.
  - apply Crc.checksum_range.
Qed.

(** A burst inside the bytes of a frame leaves no valid frame. *)
Lemma burst_not_valid h payload h' payload' g rest rest' :
  valid_frame h payload -> valid_frame h' payload' ->
  Crc.burst_error (frame_bytes h payload) g ->
  g ++ rest = frame_bytes h' payload' ++ rest' -> False.
Proof using Hck.
  intros Hv Hv' Hb Hg. pose proof (proj1 Hb) as Hlen. rewrite length_frame_bytes in Hlen.
  set (trailer := fun h => header_bytes h ++ le_bytes 4 (crc32c (header_bytes h))).
  assert (forall h p, frame_bytes h p = trailer h ++ p) as Hf
    by (intros; unfold frame_bytes, trailer; by rewrite app_assoc).
  assert (forall h, length (trailer h) = 40%nat) as Ht
    by (intros; unfold trailer; by rewrite length_app, length_header_bytes, length_le_bytes).
  rewrite <- (take_drop 40 g) in Hb, Hg. rewrite Hf in Hb. rewrite Hf, <- !app_assoc in Hg.
  assert (length (take 40 g) = 40%nat) as Ht40 by (rewrite length_take; lia).
  apply app_inj_1 in Hg as [Hg1 Hg2]; [|by rewrite Ht].
  apply Crc.burst_error_app in Hb as [[Heq Hb]|Hb]; [| |by rewrite Ht].
  - assert (h = h') as <-.
    { rewrite Hg1 in Heq. unfold trailer in Heq.
      apply app_inj_1 in Heq as [Heq _]; [|by rewrite !length_header_bytes].
      rewrite <- (parse_header_bytes h []), Heq by apply Hv.
      apply parse_header_bytes, Hv'. }
    assert (length (drop 40 g) = length payload') as Hl.
    { rewrite length_drop. destruct Hv, Hv'. lia. }
    apply app_inj_1 in Hg2 as [Hg2 _]; [|done]. rewrite Hg2 in Hb.
    apply (Crc.checksum_burst _ _ Hb). destruct Hv, Hv'. congruence.
  - rewrite Hg1 in Hb. by apply Crc.checksum_trailer in Hb.
Qed.

Lemma decode_header_total data out :
  exists e h, decode_header crc32c data out = Ok (e, h) /\ e <> kLengthOverflow /\
              e <> kSequenceRegression /\ e <> kTimestampRegression.
Proof using.
  destruct data as [p|]; [|by eexists _, _].
  destruct (decode_header_checks p out) as (h & -> & _). eexists _, h. split; [done|].
  unfold first_failed, frame_checks. cbn [List.find fst].
  by repeat case_test.
Qed.

Lemma decode_total dec data key out :
  exists e h dec', decode crc32c dec data key out = Ok (e, h, dec') /\
    (e = kOk -> decode_header crc32c data out = Ok (kOk, h)).
Proof using.
  unfold decode. destruct (decode_header_total data out) as (e & h & -> & _).
  cbn [mbind outcome_bind]. case_bool_decide as He; cbn [negb].
  - rewrite He. case_test; [by eexists _, _, _|]. case_test; by eexists _, _, _.
  - eexists _, _, _. split; [done|]. by intros ->.
Qed.

(** ** The stateful decoder and its history *)

(** The frames accepted so far, newest first, with their streams. *)
Definition history : Type := list (Z * FrameHeader).

(** The accepted headers of one stream, newest first. *)
Definition of_stream (k : Z) (hist : history) : list FrameHeader :=
  map snd (List.filter (fun kh => kh.1 =? k) hist).

(** What the decoder promises, on the history alone. *)
Definition history_verdict (hist : history) (k : Z) (h : FrameHeader) : FrameError :=
  match of_stream k hist with
  | [] => kOk
  | last :: _ =>
    if h.(sequence) <? last.(sequence) then kSequenceRegression
    else if h.(timestamp_ns) <? last.(timestamp_ns) then kTimestampRegression
    else kOk
  end.

Definition stream_state (h : FrameHeader) : StreamState :=
  {| last_sequence := h.(sequence); last_timestamp_ns := h.(timestamp_ns); seen := true |}.

(** The map of the decoder represents the history. *)
Definition represents (last_ : FrameDecoder) (hist : history) : Prop :=
  forall k, last_ !! k = stream_state <$> head (of_stream k hist).

Lemma represents_reset last_ : represents (reset last_) [].
Proof using. intros k. apply lookup_empty. Qed.

Lemma of_stream_cons k k' h hist :
  of_stream k ((k', h) :: hist) = if k' =? k then h :: of_stream k hist else of_stream k hist.
Proof using. unfold of_stream. cbn. by destruct (k' =? k). Qed.

Lemma represents_accept last_ hist k h :
  represents last_ hist -> represents (<[k := stream_state h]> last_) ((k, h) :: hist).
Proof using.
  intros H k'. rewrite of_stream_cons. case_test; bool_to_prop.
  - subst. by rewrite lookup_insert_eq.
  - by rewrite lookup_insert_ne.
Qed.

Lemma decode_history last_ hist data k out :
  represents last_ hist ->
  exists e h last',
    decode crc32c last_ data k out = Ok (e, h, last') /\
    (e = kOk <-> decode_header crc32c data out = Ok (kOk, h) /\ history_verdict hist k h = kOk) /\
    (forall h0, decode_header crc32c data out = Ok (kOk, h0) -> e = history_verdict hist k h0) /\
    (forall e0 h0, decode_header crc32c data out = Ok (e0, h0) -> h = h0 /\ (e0 <> kOk -> e = e0)) /\
    represents last' (if decide (e = kOk) then (k, h) :: hist else hist).
Proof using.
  intros Hr. unfold decode. destruct (decode_header_total data out) as (e & h & Hd & _).
  rewrite Hd. cbn [mbind outcome_bind]. case_bool_decide as He; cbn [negb]; [subst e|].
  - assert (forall v last', represents last' (if decide (v = kOk) then (k, h) :: hist else hist) ->
      v = history_verdict hist k h ->
      exists e h' last'',
        Ok (v, h, last') = Ok (e, h', last'') /\
        (e = kOk <-> Ok (kOk, h) = Ok (kOk, h') /\ history_verdict hist k h' = kOk) /\
        (forall h0, Ok (kOk, h) = Ok (kOk, h0) -> e = history_verdict hist k h0) /\
        (forall e0 h0, Ok (kOk, h) = Ok (e0, h0) -> h' = h0 /\ (e0 <> kOk -> e = e0)) /\
        represents last'' (if decide (e = kOk) then (k, h') :: hist else hist)) as Hfin.
    { intros v last' Hl ->. eexists _, h, last'. split; [done|].
      split; [by split; [|intros []]|]. split; [by intros h0 [= <-]|].
      split; [by intros e0 h0 [= <- <-]|done]. }
    pose proof (represents_accept last_ hist k h Hr) as Hacc. unfold stream_state in Hacc.
    pose proof (Hr k) as Hk. unfold history_verdict in *.
    destruct (of_stream k hist) as [|last rest] eqn:Eo; cbn [head fmap option_fmap option_map] in Hk;
      rewrite Hk; cbn [default seen last_sequence last_timestamp_ns StreamState_default
                       stream_state andb from_option id].
    + rewrite insert_insert_eq. by apply Hfin.
    + assert (<[k := stream_state last]> last_ = last_) as -> by by apply insert_id.
      case_test; [by apply Hfin|]. case_test; by apply Hfin.
  - exists e, h, last_. split; [done|]. rewrite decide_False by done.
    split; [by split; [|intros [[=] _]]|]. split; [by intros h0 [= ??]|].
    split; [by intros e0 h0 [= <- <-]|done].
Qed.

(** A sequence of calls; the accepted frames are recorded, newest first. *)
Fixpoint decode_calls (last_ : FrameDecoder) (hist : history)
    (calls : list (option (list byte) * Z)) : outcome (FrameDecoder * history) :=
  match calls with
  | [] => Ok (last_, hist)
  | (data, k) :: calls =>
    r ← decode crc32c last_ data k FrameHeader_default;
    let '(e, h, last_) := r in
    decode_calls last_ (if decide (e = kOk) then (k, h) :: hist else hist) calls
  end.

(** [b] may follow [a] in a stream. *)
Definition not_before (b a : FrameHeader) : Prop :=
  a.(sequence) <= b.(sequence) /\ a.(timestamp_ns) <= b.(timestamp_ns).

Lemma accept_sorted hist k h k' :
  history_verdict hist k h = kOk ->
  StronglySorted not_before (of_stream k' hist) ->
  StronglySorted not_before (of_stream k' ((k, h) :: hist)).
Proof using.
  intros Hv Hs. rewrite of_stream_cons. case_test; [|done]. bool_to_prop. subst k'.
  unfold history_verdict in Hv. destruct (of_stream k hist) as [|last rest]; [by repeat constructor|].
  do 2 (case_test_in Hv; [done|]). bool_to_prop. inversion_clear Hs as [|? ? Hr Hl].
  constructor; [by constructor|]. constructor; [done|].
  eapply Forall_impl; [exact Hl|]. intros x []. split; lia.
Qed.

Lemma decode_calls_sorted calls last_ hist :
  represents last_ hist -> (forall k, StronglySorted not_before (of_stream k hist)) ->
  exists last' hist', decode_calls last_ hist calls = Ok (last', hist') /\
    represents last' hist' /\ forall k, StronglySorted not_before (of_stream k hist').
Proof using.
  revert last_ hist. induction calls as [|[data k] calls IH]; intros last_ hist Hr Hs; [by eauto|].
  cbn [decode_calls].
  destruct (decode_history last_ hist data k FrameHeader_default Hr) as (e & h & l' & -> & He & _ & _ & Hl').
  cbn [mbind outcome_bind]. apply IH; [done|]. destruct (decide (e = kOk)) as [E|]; [|done].
  intros k'. apply He in E as [_ Hv]. by apply accept_sorted.
Qed.

(** ** Properties *)

(** C15: round trip.  A frame whose payload respects the limit is encoded to
    36 + 4 + n bytes, and a buffer that starts with these bytes, whatever
    follows, is decoded to the header the caller gave (with the sizes and the
    checksum the encoder computed); the payload pointer then leads to the
    payload. *)
Theorem encode_decode_roundtrip t s ts f payload :
  is_uint 16 t -> is_uint 64 s -> is_uint 64 ts -> is_uint 16 f ->
  Z.of_nat (length payload) <= kMaxPayload ->
  exists p, encode_frame crc32c t s ts f payload = Ok p /\
    length p = (40 + length payload)%nat /\
    forall rest out,
      take (length payload) (payload_ptr (p ++ rest)) = payload /\
      decode_header crc32c (Some (p ++ rest)) out =
      Ok (kOk, {| magic := kMagic; version := kVersion; sensor_type := t; flags := f;
                  header_size := kHeaderSize; sequence := s; timestamp_ns := ts;
                  payload_size := Z.of_nat (length payload);
                  payload_crc32c := crc32c payload |}).
Proof using Hck.
  intros Ht Hs Hts Hf Hlen. rewrite encode_frame_eq by done. eexists. split; [done|].
  split; [apply length_frame_bytes|]. intros rest out. split.
  - unfold payload_ptr, frame_bytes. rewrite app_assoc, <- app_assoc.
    rewrite drop_app_length' by (by rewrite length_app, length_header_bytes, length_le_bytes).
    apply take_app_length.
  - eapply decode_header_complete; [|done]. by apply encoded_header_valid.
Qed.

(** C26: the decoder accepts exactly the buffers that start with a well-formed
    frame of a known version: the fields at their offsets, both checksums
    right, the payload complete and within the limit. *)
Theorem decode_header_accepts_frames p out h :
  decode_header crc32c (Some p) out = Ok (kOk, h) <->
  exists payload rest, valid_frame h payload /\ p = frame_bytes h payload ++ rest.
Proof using Hck.
  split; [apply decode_header_sound|].
  intros (payload & rest & Hv & Hp). by eapply decode_header_complete.
Qed.

(** Safety of the decoder on arbitrary input.  It never reads outside of
    its buffer and never throws, a null pointer is a truncated header, and the
    error is that of the first check, in the documented order, that fails;
    [kLengthOverflow] is never reported. *)
Theorem decode_header_first_error data out :
  exists h, decode_header crc32c data out =
    Ok (match data with
        | None => kTruncatedHeader
        | Some p => first_failed kOk (frame_checks p)
        end, h).
Proof using.
  destruct data as [p|]; [|by eexists].
  destruct (decode_header_checks p out) as (h & -> & _). by eexists.
Qed.

(** What an accepted frame of the current version says is all there is:
    encoding the decoded fields again gives the bytes of the buffer. *)
Theorem decode_encode_canonical p out h :
  decode_header crc32c (Some p) out = Ok (kOk, h) -> h.(version) = kVersion ->
  encode_frame crc32c h.(sensor_type) h.(sequence) h.(timestamp_ns) h.(flags)
    (take (Z.to_nat h.(payload_size)) (payload_ptr p)) =
  Ok (take (40 + Z.to_nat h.(payload_size)) p).
Proof using.
  intros Hd Hver. apply decode_header_sound in Hd as (payload & rest & [] & ->).
  unfold payload_ptr. rewrite vf_payload_size0, Nat2Z.id in *.
  assert (take (length payload) (drop (Z.to_nat kFrameOverhead) (frame_bytes h payload ++ rest))
          = payload) as ->.
  { unfold frame_bytes. rewrite app_assoc, <- app_assoc.
    rewrite drop_app_length' by (by rewrite length_app, length_header_bytes, length_le_bytes).
    apply take_app_length. }
  rewrite encode_frame_eq, take_app_length' by (done || apply length_frame_bytes).
  do 2 f_equal. destruct h; cbn in *. unfold encoded_header. congruence.
Qed.

(** The encoder fails, with [std::length_error] and before it writes
    anything, exactly for payloads over the limit. *)
Theorem encode_frame_limit t s ts f payload :
  (encode_frame crc32c t s ts f payload = Throws "std::length_error" <->
   kMaxPayload < Z.of_nat (length payload)) /\
  encode_frame crc32c t s ts f payload <> OutOfBounds.
Proof using.
  destruct (decide (Z.of_nat (length payload) <= kMaxPayload)) as [H|H].
  - rewrite encode_frame_eq by done. split; [split; [done|lia]|done].
  - unfold encode_frame. rewrite (proj2 (Z.ltb_lt _ _)) by lia. split; [split; [lia|done]|done].
Qed.

(** C27: no burst of up to 32 flipped bits, at any place of an encoded frame
    (header, either checksum, payload, or across their borders), is accepted:
    the decoder returns an error, whatever follows the frame in the buffer. *)
Theorem decode_rejects_bursts t s ts f payload p g rest out e h :
  is_uint 16 t -> is_uint 64 s -> is_uint 64 ts -> is_uint 16 f ->
  encode_frame crc32c t s ts f payload = Ok p ->
  Crc.burst_error p g ->
  decode_header crc32c (Some (g ++ rest)) out = Ok (e, h) -> e <> kOk.
Proof using Hck.
  intros Ht Hs Hts Hf He Hb Hd ->.
  destruct (decide (Z.of_nat (length payload) <= kMaxPayload)) as [H|H].
  - rewrite encode_frame_eq in He by done. injection He as <-.
    apply decode_header_sound in Hd as (payload' & rest' & Hv' & Hg).
    eapply burst_not_valid; [|exact Hv'|exact Hb|exact Hg]. by apply encoded_header_valid.
  - unfold encode_frame in He. by rewrite (proj2 (Z.ltb_lt _ _)) in He by lia.
Qed.

(** C4: [FrameDecoder::decode] refines the history of accepted frames.  If the
    map of the decoder represents the history, a call ends normally, returns
    the error of [decode_header] when there is one and otherwise the verdict
    on the history ("not before the last accepted frame of this stream, in
    sequence and in time; the first frame of a stream is accepted"), and the
    map represents the new history: other streams and rejected frames leave
    no trace. *)
Theorem decode_refines_history last_ hist data k out :
  represents last_ hist ->
  exists e h last',
    decode crc32c last_ data k out = Ok (e, h, last') /\
    (exists e0, decode_header crc32c data out = Ok (e0, h) /\
                e = if decide (e0 = kOk) then history_verdict hist k h else e0) /\
    represents last' (if decide (e = kOk) then (k, h) :: hist else hist).
Proof using.
  intros Hr. destruct (decode_history last_ hist data k out Hr) as (e & h & l' & Hd & _ & Hok & Herr & Hl).
  exists e, h, l'. split; [done|]. split; [|done].
  destruct (decode_header_total data out) as (e0 & h0 & H0 & _). exists e0.
  destruct (Herr _ _ H0) as [-> He0]. split; [done|].
  destruct (decide (e0 = kOk)) as [->|]; [by apply Hok|by apply He0].
Qed.

(** Whatever is fed to a decoder that starts empty, for whatever streams
    in whatever order, no call fails, and the frames it accepted are, stream
    by stream, ordered in sequence and in time. *)
Theorem decoder_streams_monotonic calls :
  exists last' hist, decode_calls (reset ∅) [] calls = Ok (last', hist) /\
    forall k, StronglySorted not_before (of_stream k hist).
Proof using.
  destruct (decode_calls_sorted calls (reset ∅) []) as (l & hist & H & _ & Hs);
    [apply represents_reset|constructor|eauto].
Qed.

End CodecLemmas.

(** ** The properties at concrete inputs *)

Definition sample_payload : list byte := map z2b [1; 2; 250].

Definition sample_frame : list byte :=
  match encode_frame Crc.crc32c_portable kLidar 7 1000 kFlagNone sample_payload with
  | Ok p => p
  | _ => []
  end.

Lemma encode_decode_roundtrip_witness :
  exists p, encode_frame Crc.crc32c_portable kLidar 7 1000 kFlagNone sample_payload = Ok p /\
            length p = 43%nat.
Proof.
  destruct (encode_decode_roundtrip Crc.crc32c_portable kLidar 7 1000 kFlagNone sample_payload)
    as (p & H1 & H2 & _); [done..|]. exists p. by split.
Defined.

Lemma decode_header_accepts_frames_witness :
  exists payload rest,
    valid_frame Crc.crc32c_portable (parse_header sample_frame) payload /\
    sample_frame ++ sample_frame = frame_bytes Crc.crc32c_portable (parse_header sample_frame) payload ++ rest.
Proof.
  apply (decode_header_accepts_frames Crc.crc32c_portable (sample_frame ++ sample_frame)
           FrameHeader_default). vm_compute. reflexivity.
Defined.

Lemma decode_encode_canonical_witness :
  encode_frame Crc.crc32c_portable kLidar 7 1000 kFlagNone sample_payload = Ok sample_frame.
Proof.
  apply (decode_encode_canonical Crc.crc32c_portable sample_frame FrameHeader_default
           (encoded_header Crc.crc32c_portable kLidar 7 1000 kFlagNone sample_payload));
    vm_compute; reflexivity.
Defined.

Definition corrupted_frame : list byte :=
  take 35 sample_frame ++ map z2b [0; 0; 0] ++ drop 38 sample_frame.

Lemma decode_rejects_bursts_witness :
  (decode_header Crc.crc32c_portable (Some (corrupted_frame ++ sample_frame)) FrameHeader_default
   ≫= (fun r => Ok r.1)) = Ok kHeaderCrcMismatch /\ kHeaderCrcMismatch <> kOk.
Proof.
  split; [vm_compute; reflexivity|].
  eapply (decode_rejects_bursts Crc.crc32c_portable kLidar 7 1000 kFlagNone sample_payload
           sample_frame corrupted_frame sample_frame FrameHeader_default);
    [done..|vm_compute; reflexivity| |vm_compute; reflexivity].
  apply (Crc.burst_error_bytes (take 35 sample_frame) (slice 35 3 sample_frame)
           (map z2b [0; 0; 0]) (drop 38 sample_frame)); vm_compute; [reflexivity|lia|discriminate].
Defined.

Lemma decode_refines_history_witness :
  exists e h last',
    decode Crc.crc32c_portable ∅ (Some sample_frame) 1 FrameHeader_default = Ok (e, h, last') /\
    represents last' (if decide (e = kOk) then [(1, h)] else []).
Proof.
  destruct (decode_refines_history Crc.crc32c_portable (reset ∅) [] (Some sample_frame) 1
              FrameHeader_default (represents_reset ∅)) as (e & h & l & H1 & _ & H2).
  exists e, h, l. by split.
Defined.

End FrameCodec.
