(* ===== verification/WalRecord.v ===== *)
(** * Records of the write-ahead log ([include/sensorforge/replay/record.hpp])

    [encode_record] and [decode_record].  The encoder appends to a vector, the
    decoder reads a pointer with its size ([None] is [nullptr]).  The results
    are those of the frame codec: bounds-safe decoding with the first failed
    check, acceptance of exactly the well-formed records, round trip with
    trailing bytes, detection of bursts. *)

From S2P Require Export Frame Crc32c.

Module WalRecord.

Definition SensorType : Set := Frame.SensorType.

Definition kRecordHeaderSize : Z := 30.
Definition kRecordTrailerSize : Z := 4.
Definition kRecordOverhead : Z := kRecordHeaderSize + kRecordTrailerSize.
Definition kMaxRecordPayload : Z := 4 * 1024 * 1024.
Definition kMaxRecordLength : Z := kRecordOverhead + kMaxRecordPayload.

Record RecordHeader := mkRecordHeader {
  record_length : Z;
  timestamp_ns : Z;
  sensor_type : SensorType;
  sequence : Z;
  payload_size : Z;
  payload_crc32c : Z
}.

Definition RecordHeader_default : RecordHeader :=
  {| record_length := 0; timestamp_ns := 0; sensor_type := Frame.kUnknown; sequence := 0;
     payload_size := 0; payload_crc32c := 0 |}.

Inductive RecordError :=
| kOk
| kTruncatedHeader
| kBadLength
| kLengthMismatch
| kPayloadTooLarge
| kTruncatedRecord
| kPayloadCrcMismatch
| kRecordCrcMismatch.

#[global] Instance RecordError_eq_dec : EqDecision RecordError.
Proof. solve_decision. Defined.

Definition RecordError_to_string (e : RecordError) : string :=
  match e with
  | kOk => "ok"
  | kTruncatedHeader => "truncated_header"
  | kBadLength => "bad_length"
  | kLengthMismatch => "length_mismatch"
  | kPayloadTooLarge => "payload_too_large"
  | kTruncatedRecord => "truncated_record"
  | kPayloadCrcMismatch => "payload_crc_mismatch"
  | kRecordCrcMismatch => "record_crc_mismatch"
  end.

(** ** Little-endian helpers *)

(** [push_back]s at the end of the vector [v]. *)
Definition put_u16 (v : list byte) (x : Z) : list byte :=
  v ++ [z2b (x &&& 0xFF); z2b ((x >>> 8) &&& 0xFF)].

Definition put_u32 (v : list byte) (x : Z) : list byte :=
  foldl (fun v i => v ++ [z2b ((x >>> (8 * Z.of_nat i)) &&& 0xFF)]) v (seq 0 4).

Definition put_u64 (v : list byte) (x : Z) : list byte :=
  foldl (fun v i => v ++ [z2b ((x >>> (8 * Z.of_nat i)) &&& 0xFF)]) v (seq 0 8).

Definition get_u16 (p : list byte) (off : nat) : outcome Z :=
  p0 ← rd p off; p1 ← rd p (off + 1);
  Ok (u16 (p0 ||| (p1 <<< 8))).

Definition get_u32 (p : list byte) (off : nat) : outcome Z :=
  p0 ← rd p off; p1 ← rd p (off + 1); p2 ← rd p (off + 2); p3 ← rd p (off + 3);
  Ok (p0 ||| u32 (p1 <<< 8) ||| u32 (p2 <<< 16) ||| u32 (p3 <<< 24)).

Definition get_u64 (p : list byte) (off : nat) : outcome Z :=
  foldl (fun acc i =>
           v ← acc; pi ← rd p (off + i);
           Ok (v ||| u64 (pi <<< (8 * Z.of_nat i))))
        (Ok 0) (seq 0 8).

Section Codec.
Context (crc32c : list byte -> Z).

Definition encode_record (timestamp_ns : Z) (sensor_type : SensorType) (sequence : Z)
    (payload : list byte) : list byte :=
  let payload_len := Z.of_nat (length payload) in
  let n := u32 payload_len in
  let record_length := u32 (kRecordOverhead + payload_len) in
  let out := [] in
  let out := put_u32 out record_length in
  let out := put_u64 out timestamp_ns in
  let out := put_u16 out sensor_type in
  let out := put_u64 out sequence in
  let out := put_u32 out n in
  let out := put_u32 out (if payload_len =? 0 then crc32c [] else crc32c payload) in
  let out := if payload_len =? 0 then out else out ++ payload in
  let record_crc := crc32c out in
  put_u32 out record_crc.

Definition decode_record (data : option (list byte)) (out : RecordHeader) :
    outcome (RecordError * RecordHeader) :=
  match data with
  | None => Ok (kTruncatedHeader, out)
  | Some data =>
    let size := Z.of_nat (length data) in
    if size <? kRecordHeaderSize then Ok (kTruncatedHeader, out) else
    rl ← get_u32 data 0;
    ts ← get_u64 data 4;
    st ← get_u16 data 12;
    sq ← get_u64 data 14;
    ps ← get_u32 data 22;
    pc32 ← get_u32 data 26;
    let out := {| record_length := rl; timestamp_ns := ts; sensor_type := st; sequence := sq;
                  payload_size := ps; payload_crc32c := pc32 |} in
    if (out.(record_length) <? kRecordOverhead) || (kMaxRecordLength <? out.(record_length))
    then Ok (kBadLength, out) else
    if kMaxRecordPayload <? out.(payload_size) then Ok (kPayloadTooLarge, out) else
    if negb (out.(record_length) =? u64 (kRecordOverhead + out.(payload_size)))
    then Ok (kLengthMismatch, out) else
    if size <? out.(record_length) then Ok (kTruncatedRecord, out) else
    payload ← rd_range data (Z.to_nat kRecordHeaderSize)
                (if out.(payload_size) =? 0 then 0%nat else Z.to_nat out.(payload_size));
    let pc := crc32c payload in
    if negb (pc =? out.(payload_crc32c)) then Ok (kPayloadCrcMismatch, out) else
    let crc_off := Z.to_nat (u64 (kRecordHeaderSize + out.(payload_size))) in
    stored_record_crc ← get_u32 data crc_off;
    covered ← rd_range data 0 crc_off;
    if negb (crc32c covered =? stored_record_crc) then Ok (kRecordCrcMismatch, out) else
    Ok (kOk, out)
  end.

(** [record_payload]: the payload starts here. *)
Definition record_payload (data : list byte) : list byte :=
  drop (Z.to_nat kRecordHeaderSize) data.

End Codec.

(** ** Specifications of the helpers *)

Lemma foldl_push n v x k :
  foldl (fun v i => v ++ [z2b ((x >>> (8 * Z.of_nat i)) &&& 0xFF)]) v (seq k n) =
  v ++ map (fun i => z2b ((x >>> (8 * Z.of_nat i)) &&& 0xFF)) (seq k n).
Proof.
  revert v k. induction n as [|n IH]; intros v k; cbn [seq foldl map]; [by rewrite app_nil_r|].
  by rewrite IH, <- app_assoc.
Qed.

Lemma record_put_u16_spec v x : put_u16 v x = v ++ le_bytes 2 x.
Proof. unfold put_u16. by rewrite le_bytes_2. Qed.

Lemma record_put_u32_spec v x : put_u32 v x = v ++ le_bytes 4 x.
Proof. unfold put_u32. by rewrite foldl_push, le_bytes_shifts. Qed.

Lemma record_put_u64_spec v x : put_u64 v x = v ++ le_bytes 8 x.
Proof. unfold put_u64. by rewrite foldl_push, le_bytes_shifts. Qed.

Lemma record_get_u16_spec p off : get_u16 p off = rd_le 2 p off.
Proof. apply rd_le_2_spec. Qed.

Lemma record_get_u32_spec p off : get_u32 p off = rd_le 4 p off.
Proof. apply rd_le_4_spec. Qed.

Lemma record_get_u64_spec p off : get_u64 p off = rd_le 8 p off.
Proof. apply rd_le_8_spec. Qed.

(** ** The format as one expression *)

Definition header_bytes (h : RecordHeader) : list byte :=
  le_bytes 4 h.(record_length) ++ le_bytes 8 h.(timestamp_ns) ++ le_bytes 2 h.(sensor_type) ++
  le_bytes 8 h.(sequence) ++ le_bytes 4 h.(payload_size) ++ le_bytes 4 h.(payload_crc32c).

Definition parse_header (p : list byte) : RecordHeader :=
  {| record_length := le_value (slice 0 4 p);
     timestamp_ns := le_value (slice 4 8 p);
     sensor_type := le_value (slice 12 2 p);
     sequence := le_value (slice 14 8 p);
     payload_size := le_value (slice 22 4 p);
     payload_crc32c := le_value (slice 26 4 p) |}.

(** The members at their widths. *)
Record header_wf (h : RecordHeader) : Prop := {
  wf_record_length : is_uint 32 h.(record_length);
  wf_timestamp_ns : is_uint 64 h.(timestamp_ns);
  wf_sensor_type : is_uint 16 h.(sensor_type);
  wf_sequence : is_uint 64 h.(sequence);
  wf_payload_size : is_uint 32 h.(payload_size);
  wf_payload_crc32c : is_uint 32 h.(payload_crc32c)
}.

Lemma record_length_header_bytes h : length (header_bytes h) = 30%nat.
Proof. unfold header_bytes. by rewrite !length_app, !length_le_bytes. Qed.

Lemma record_parse_header_wf p : header_wf (parse_header p).
Proof. constructor; by apply le_value_slice_range. Qed.

Lemma record_parse_header_bytes h rest : header_wf h -> parse_header (header_bytes h ++ rest) = h.
Proof.
  intros []. destruct h; cbn in *. unfold parse_header.
  f_equal; first [by apply (le_value_field 2 16)|by apply (le_value_field 4 32)
                 |by apply (le_value_field 8 64)].
Qed.

Lemma record_header_bytes_parse p :
  (30 <= length p)%nat -> header_bytes (parse_header p) = slice 0 30 p.
Proof.
  intros H. unfold header_bytes, parse_header. cbn [record_length timestamp_ns sensor_type
    sequence payload_size payload_crc32c].
  rewrite !le_bytes_slice by lia.
  change 30%nat with (4 + (8 + (2 + (8 + (4 + 4)))))%nat. by rewrite !slice_split.
Qed.

Section CodecLemmas.
Context (crc32c : list byte -> Z) {Hck : Crc.Checksum crc32c}.

(** The header the encoder writes. *)
Definition encoded_header (ts : Z) (t : SensorType) (s : Z) (payload : list byte) : RecordHeader :=
  {| record_length := kRecordOverhead + Z.of_nat (length payload); timestamp_ns := ts;
     sensor_type := t; sequence := s; payload_size := Z.of_nat (length payload);
     payload_crc32c := crc32c payload |}.

(** Header, payload, checksum of both. *)
Definition record_bytes (h : RecordHeader) (payload : list byte) : list byte :=
  (header_bytes h ++ payload) ++ le_bytes 4 (crc32c (header_bytes h ++ payload)).

Lemma length_record_bytes h payload :
  length (record_bytes h payload) = (34 + length payload)%nat.
Proof using.
  unfold record_bytes. rewrite !length_app, record_length_header_bytes, length_le_bytes. lia.
Qed.

(** The length of the payload is not checked by the encoder. *)
Lemma encode_record_eq ts t s payload :
  kRecordOverhead + Z.of_nat (length payload) < 2 ^ 32 ->
  encode_record crc32c ts t s payload = record_bytes (encoded_header ts t s payload) payload.
Proof using.
  intros Hlen. unfold encode_record, record_bytes. set (h := encoded_header _ _ _ _).
  unfold kRecordOverhead, kRecordHeaderSize, kRecordTrailerSize in *.
  rewrite !(wrap_small 32) by (unfold is_uint; lia).
  replace (if _ =? 0 then crc32c [] else crc32c payload)
    with (crc32c payload) by (by destruct payload).
  rewrite !record_put_u32_spec, !record_put_u64_spec, !record_put_u16_spec.
  cbn [app].
  match goal with |- context [crc32c (if _ then ?v else _)] =>
    assert (v = header_bytes h) as -> by (unfold header_bytes; by rewrite <- !app_assoc)
  end.
  replace (if _ =? 0 then header_bytes h else _) with (header_bytes h ++ payload); [done|].
  destruct payload; [by rewrite app_nil_r|done].
Qed.

(** ** Decoding *)

(** The checks of the decoder, in their order. *)
Definition record_checks (p : list byte) : list (bool * RecordError) :=
  let h := parse_header p in
  let size := Z.of_nat (length p) in
  let n := Z.to_nat h.(payload_size) in
  [ (size <? kRecordHeaderSize, kTruncatedHeader);
    ((h.(record_length) <? kRecordOverhead) || (kMaxRecordLength <? h.(record_length)), kBadLength);
    (kMaxRecordPayload <? h.(payload_size), kPayloadTooLarge);
    (negb (h.(record_length) =? kRecordOverhead + h.(payload_size)), kLengthMismatch);
    (size <? h.(record_length), kTruncatedRecord);
    (negb (crc32c (slice 30 n p) =? h.(payload_crc32c)), kPayloadCrcMismatch);
    (negb (crc32c (slice 0 (30 + n) p) =? le_value (slice (30 + n) 4 p)), kRecordCrcMismatch) ].

Lemma decode_record_checks p out :
  exists h, decode_record crc32c (Some p) out = Ok (first_failed kOk (record_checks p), h) /\
            (first_failed kOk (record_checks p) = kOk -> h = parse_header p).
Proof using.
  unfold decode_record, first_failed, record_checks. cbn [List.find fst].
  assert (Hps : is_uint 32 (parse_header p).(payload_size)) by apply record_parse_header_wf.
  change (parse_header p).(payload_size) with (le_value (slice 22 4 p)) in *.
  case_test; [by eexists|]. bool_to_prop.
  unfold kRecordOverhead, kMaxRecordLength, kMaxRecordPayload, kRecordHeaderSize,
    kRecordTrailerSize, is_uint in *.
  rewrite !record_get_u16_spec, !record_get_u32_spec, !record_get_u64_spec.
  rewrite !rd_le_in by lia. cbn [mbind outcome_bind record_length payload_size payload_crc32c parse_header].
  case_test; [by eexists|]. case_test; [by eexists|]. bool_to_prop.
  rewrite !wrap_small by (unfold is_uint; lia).
  case_test; [by eexists|]. case_test; [by eexists|]. bool_to_prop.
  replace (if _ =? 0 then 0%nat else _) with (Z.to_nat (le_value (slice 22 4 p)))
    by (case_test; bool_to_prop; lia).
  replace (Z.to_nat (30 + _)) with (30 + Z.to_nat (le_value (slice 22 4 p)))%nat by lia.
  change (Z.to_nat 30) with 30%nat.
  rewrite !rd_range_ok by lia. cbn [mbind outcome_bind].
  case_test; [by eexists|]. rewrite record_get_u32_spec, rd_le_in by lia. cbn [mbind outcome_bind].
  case_test; [by eexists|]. by eexists.
Qed.

(** [h] and [payload] make a record. *)
Record valid_record (h : RecordHeader) (payload : list byte) : Prop := {
  vr_wf : header_wf h;
  vr_length : h.(record_length) = kRecordOverhead + h.(payload_size);
  vr_payload_size : h.(payload_size) = Z.of_nat (length payload);
  vr_max_payload : h.(payload_size) <= kMaxRecordPayload;
  vr_payload_crc : h.(payload_crc32c) = crc32c payload
}.

Lemma record_checks_ok p :
  first_failed kOk (record_checks p) = kOk <-> Forall (fun c => c.1 = false) (record_checks p).
Proof using. apply first_failed_ok. unfold record_checks. by repeat constructor. Qed.

Lemma decode_record_ok_checks p out h :
  decode_record crc32c (Some p) out = Ok (kOk, h) <->
  Forall (fun c => c.1 = false) (record_checks p) /\ h = parse_header p.
Proof using.
  destruct (decode_record_checks p out) as (h' & -> & Hh). rewrite <- record_checks_ok.
  split.
  - intros [= He <-]. by split; [|apply Hh].
  - intros [He ->]. by rewrite He, Hh.
Qed.

Lemma decode_record_sound p out h :
  decode_record crc32c (Some p) out = Ok (kOk, h) ->
  exists payload rest, valid_record h payload /\ p = record_bytes h payload ++ rest.
Proof using.
  rewrite decode_record_ok_checks. intros [Hc ->]. unfold record_checks in Hc.
  rewrite !Forall_cons in Hc. cbn [fst] in Hc. destruct Hc as (H0&H1&H2&H3&H4&H5&H6&_).
  bool_to_prop. pose proof (wf_payload_size _ (record_parse_header_wf p)) as Hps.
  unfold kRecordOverhead, kRecordHeaderSize, kRecordTrailerSize, is_uint in *.
  set (n := Z.to_nat (parse_header p).(payload_size)) in *.
  assert (length (slice 30 n p) = n) as Hn by (apply length_slice; lia).
  exists (slice 30 n p), (drop (34 + n) p). split.
  - constructor; try done; [apply record_parse_header_wf|rewrite Hn; lia].
  - unfold record_bytes. rewrite record_header_bytes_parse by lia.
    assert (slice 0 30 p ++ slice 30 n p = slice 0 (30 + n) p) as ->
      by (symmetry; apply (slice_split 0 30 n)).
    rewrite H6, le_bytes_slice by lia.
    rewrite <- (take_drop (30 + n + 4) p) at 1.
    change (take (30 + n + 4) p) with (slice 0 (30 + n + 4) p).
    rewrite slice_split. f_equal. f_equal. lia.
Qed.

Lemma decode_record_complete p out h payload rest :
  valid_record h payload -> p = record_bytes h payload ++ rest ->
  decode_record crc32c (Some p) out = Ok (kOk, h).
Proof using Hck.
  intros [] ->. apply decode_record_ok_checks.
  assert (parse_header (record_bytes h payload ++ rest) = h) as Hp.
  { unfold record_bytes. rewrite <- !app_assoc. by apply record_parse_header_bytes. }
  split; [|done]. unfold record_checks. rewrite Hp, length_app, length_record_bytes.
  rewrite vr_payload_size0, Nat2Z.id in *. unfold record_bytes.
  assert (length (header_bytes h ++ payload) = (30 + length payload)%nat) as Hb
    by by rewrite length_app, record_length_header_bytes.
  rewrite <- (app_assoc (header_bytes h ++ payload)).
  rewrite (slice_app_mid (header_bytes h ++ payload) _ _ (30 + length payload))
    by (rewrite ?length_le_bytes; done).
  rewrite (slice_0_app (header_bytes h ++ payload)) by done.
  rewrite <- (app_assoc (header_bytes h)).
  rewrite (slice_app_mid (header_bytes h)) by (rewrite ?record_length_header_bytes; done).
  rewrite (le_value_field 4 32) by (done || apply Crc.checksum_range).
  rewrite vr_length0, vr_payload_crc0, !Z.eqb_refl.
  unfold kMaxRecordLength, kRecordOverhead, kRecordHeaderSize, kRecordTrailerSize,
    kMaxRecordPayload in *.
  repeat (apply Forall_cons; split); try done; cbn [fst];
    rewrite ?orb_false_iff, ?Z.ltb_ge; lia.
Qed.

Lemma record_encoded_header_valid ts t s payload :
  is_uint 64 ts -> is_uint 16 t -> is_uint 64 s ->
  Z.of_nat (length payload) <= kMaxRecordPayload ->
  valid_record (encoded_header ts t s payload) payload.
Proof using Hck.
  intros Hts Ht Hs Hlen. constructor; try done.
  unfold kMaxRecordPayload in *. constructor; try done; cbn.
  - unfold is_uint, kRecordOverhead, kRecordHeaderSize, kRecordTrailerSize. lia.
  - unfold is_uint. lia.
  - apply Crc.checksum_range.
Qed.

Lemma decode_record_total data out :
  exists e h, decode_record crc32c data out = Ok (e, h).
Proof using.
  destruct data as [p|]; [|by eexists _, _].
  destruct (decode_record_checks p out) as (h & -> & _). by eexists _, h.
Qed.

Lemma parse_record_bytes h payload rest :
  header_wf h -> parse_header (record_bytes h payload ++ rest) = h.
Proof using.
  intros Hh. unfold record_bytes. rewrite <- !app_assoc. by apply record_parse_header_bytes.
Qed.

(** A burst cannot change both length fields: they are fourteen bytes apart. *)
Lemma burst_keeps_a_length p g rest :
  (30 <= length p)%nat -> Crc.burst_error p g ->
  (parse_header (g ++ rest)).(record_length) = (parse_header p).(record_length) \/
  (parse_header (g ++ rest)).(payload_size) = (parse_header p).(payload_size).
Proof using.
  intros Hp Hb. pose proof (proj1 Hb) as Hl.
  rewrite <- (take_drop 4 p), <- (take_drop 4 g) in Hb.
  rewrite <- (take_drop 18 (drop 4 p)), <- (take_drop 18 (drop 4 g)) in Hb.
  apply Crc.burst_error_gap in Hb as [E|E];
    [| |rewrite !length_take; lia|rewrite !length_take, !length_drop; lia
     |rewrite length_take, length_drop; lia].
  - left. cbn [record_length parse_header]. f_equal. unfold slice.
    rewrite !drop_0, take_app_le by lia. done.
  - right. cbn [payload_size parse_header]. f_equal. unfold slice.
    rewrite drop_app_le, take_app_le by (rewrite ?length_drop; lia).
    rewrite !drop_drop in E. cbn [Nat.add] in E. by rewrite E.
Qed.

(** ** Properties *)

(** Round trip.  A record with a payload within the limit is 34 + n bytes
    long, and a buffer that starts with it is decoded to the fields the caller
    gave; the payload pointer leads to the payload. *)
Theorem encode_decode_record_roundtrip ts t s payload rest out :
  is_uint 64 ts -> is_uint 16 t -> is_uint 64 s ->
  Z.of_nat (length payload) <= kMaxRecordPayload ->
  let p := encode_record crc32c ts t s payload in
  length p = (34 + length payload)%nat /\
  take (length payload) (record_payload (p ++ rest)) = payload /\
  decode_record crc32c (Some (p ++ rest)) out =
  Ok (kOk, {| record_length := 34 + Z.of_nat (length payload); timestamp_ns := ts;
              sensor_type := t; sequence := s; payload_size := Z.of_nat (length payload);
              payload_crc32c := crc32c payload |}).
Proof using Hck.
  intros Hts Ht Hs Hlen p. subst p. rewrite encode_record_eq
    by (unfold kMaxRecordPayload, kRecordOverhead, kRecordHeaderSize, kRecordTrailerSize in *; lia).
  split; [apply length_record_bytes|]. split.
  - unfold record_payload, record_bytes. rewrite <- !app_assoc.
    rewrite drop_app_length' by by rewrite record_length_header_bytes. apply take_app_length.
  - by apply (decode_record_complete _ _ _ payload rest); [apply record_encoded_header_valid|].
Qed.

(** C28: the record decoder on arbitrary input.  It never reads outside of its
    buffer and never throws; the error is that of the first failed check; it
    accepts exactly the buffers that start with a well-formed record. *)
Theorem decode_record_exact p out :
  (exists h, decode_record crc32c (Some p) out = Ok (first_failed kOk (record_checks p), h)) /\
  forall h, decode_record crc32c (Some p) out = Ok (kOk, h) <->
    exists payload rest, valid_record h payload /\ p = record_bytes h payload ++ rest.
Proof using Hck.
  split.
  - destruct (decode_record_checks p out) as (h & -> & _). by eexists.
  - intros h. split; [apply decode_record_sound|].
    intros (payload & rest & Hv & Hp). by apply (decode_record_complete _ _ _ payload rest).
Qed.

Lemma burst_not_record h0 payload g rest out e h :
  valid_record h0 payload -> Crc.burst_error (record_bytes h0 payload) g ->
  decode_record crc32c (Some (g ++ rest)) out = Ok (e, h) -> e <> kOk.
Proof using Hck.
  intros Hv Hb Hd ->. apply decode_record_sound in Hd as (payload' & rest' & Hv' & Hg).
  assert (length payload' = length payload) as Hl.
  { assert (parse_header (record_bytes h0 payload) = h0) as E0.
    { rewrite <- (app_nil_r (record_bytes h0 payload)). apply parse_record_bytes, Hv. }
    destruct (burst_keeps_a_length (record_bytes h0 payload) g rest) as [E|E];
      [rewrite length_record_bytes; lia|done| |];
      rewrite Hg, (parse_record_bytes h), E0 in E by apply Hv'; destruct Hv, Hv'; lia. }
  apply app_inj_1 in Hg as [-> _];
    [|rewrite <- (proj1 Hb), !length_record_bytes; lia].
  by apply Crc.checksum_trailer in Hb.
Qed.

(** No burst of up to 32 flipped bits in a record is accepted, whatever
    follows the record: not even one in a length field, since the two length
    fields must agree and one burst cannot reach both. *)
Theorem decode_record_rejects_bursts ts t s payload g rest out e h :
  is_uint 64 ts -> is_uint 16 t -> is_uint 64 s ->
  Z.of_nat (length payload) <= kMaxRecordPayload ->
  Crc.burst_error (encode_record crc32c ts t s payload) g ->
  decode_record crc32c (Some (g ++ rest)) out = Ok (e, h) -> e <> kOk.
Proof using Hck.
  intros Hts Ht Hs Hlen Hb Hd.
  rewrite encode_record_eq in Hb
    by (unfold kMaxRecordPayload, kRecordOverhead, kRecordHeaderSize, kRecordTrailerSize in *; lia).
  assert (valid_record (encoded_header ts t s payload) payload) as Hv
    by by apply record_encoded_header_valid.
  by apply (burst_not_record _ _ _ _ _ _ _ Hv Hb Hd).
Qed.

End CodecLemmas.

Definition sample_payload : list byte := map z2b [222; 173].

Definition sample_record : list byte :=
  encode_record Crc.crc32c_portable 5000 Frame.kImu 9 sample_payload.

Lemma encode_decode_record_roundtrip_witness :
  decode_record Crc.crc32c_portable (Some (sample_record ++ sample_record)) RecordHeader_default =
  Ok (kOk, encoded_header Crc.crc32c_portable 5000 Frame.kImu 9 sample_payload).
Proof.
  apply (encode_decode_record_roundtrip Crc.crc32c_portable 5000 Frame.kImu 9 sample_payload
           sample_record); done.
Defined.

Lemma decode_record_exact_witness :
  exists payload rest,
    valid_record Crc.crc32c_portable (parse_header sample_record) payload /\
    sample_record = record_bytes Crc.crc32c_portable (parse_header sample_record) payload ++ rest.
Proof.
  apply (decode_record_exact Crc.crc32c_portable sample_record RecordHeader_default).
  vm_compute. reflexivity.
Defined.

Definition corrupted_record : list byte :=
  map z2b [37; 0] ++ drop 2 sample_record.

Lemma decode_record_rejects_bursts_witness :
  (decode_record Crc.crc32c_portable (Some (corrupted_record ++ sample_record)) RecordHeader_default
   ≫= (fun r => Ok r.1)) = Ok kLengthMismatch /\ kLengthMismatch <> kOk.
Proof.
  split; [vm_compute; reflexivity|].
  eapply (decode_record_rejects_bursts Crc.crc32c_portable 5000 Frame.kImu 9 sample_payload
            corrupted_record sample_record RecordHeader_default);
    [done..| |vm_compute; reflexivity].
  apply (Crc.burst_error_bytes [] (take 2 sample_record) (map z2b [37; 0]) (drop 2 sample_record));
    vm_compute; [reflexivity|lia|discriminate].
Defined.

End WalRecord.
