(* ===== verification/Segment.v ===== *)
(** * Names of segment files ([include/sensorforge/replay/segment.hpp])

    [segment_filename] and its parser.  Results: the parser inverts the
    formatter for every 32-bit id, so distinct segments have distinct names;
    an id that does not fit 32 bits is read modulo 2^32. *)

From S2P Require Export CppStrings.
From Stdlib Require Import Ascii.

Module Segment.

Definition kSegmentPrefix : string := "segment-".
Definition kSegmentSuffix : string := ".sflog".
Definition kDefaultSegmentBytes : Z := 64 * 1024 * 1024.

Definition segment_filename (segment_id : Z) : string :=
  kSegmentPrefix +:+ pad_left 6 "0" (dec_string segment_id) +:+ kSegmentSuffix.

(** The loop over [digits]; [return 0] at a character that is not one. *)
Fixpoint parse_digits (digits : list ascii) (id : Z) : Z :=
  match digits with
  | [] => id
  | c :: digits =>
    if (code c <? 48) || (57 <? code c) then 0
    else parse_digits digits (u32 (u32 (id * 10) + u32 (code c - 48)))
  end.

Definition segment_id_from_filename (name : string) : Z :=
  let prefix := kSegmentPrefix in
  let suffix := kSegmentSuffix in
  let size := String.length in
  if (size name <=? size prefix + size suffix)%nat then 0
  else if negb (String.eqb (substr name 0 (size prefix)) prefix) then 0
  else if negb (String.eqb (substr name (size name - size suffix) (size suffix)) suffix) then 0
  else
    let digits := substr name (size prefix) (size name - size prefix - size suffix) in
    if String.eqb digits "" then 0
    else parse_digits (String.list_ascii_of_string digits) 0.

(** ** Lemmas *)

Lemma parse_digit d digits id :
  0 <= d < 10 -> is_uint 32 (id * 10 + d) -> 0 <= id ->
  parse_digits (digit d :: digits) id = parse_digits digits (id * 10 + d).
Proof.
  intros Hd [H0 H1] Hid. cbn [parse_digits]. rewrite code_digit by done.
  rewrite (proj2 (Z.ltb_ge _ _)), (proj2 (Z.ltb_ge _ _)) by lia. cbn [orb].
  f_equal. replace (48 + d - 48) with d by lia.
  rewrite (wrap_small 32 (id * 10)), (wrap_small 32 d) by (unfold is_uint; lia).
  by apply wrap_small.
Qed.

Lemma parse_to_dec fuel n acc :
  is_uint 32 n -> n < 10 ^ Z.of_nat fuel -> (0 < fuel)%nat ->
  parse_digits (String.list_ascii_of_string (to_dec fuel n acc)) 0 =
  parse_digits (String.list_ascii_of_string acc) n.
Proof.
  revert n acc. induction fuel as [|fuel IH]; intros n acc [H0 H1] Hf Hpos; [lia|].
  cbn [to_dec]. pose proof (Z.mod_pos_bound n 10 ltac:(lia)) as Hm.
  pose proof (Z.div_mod n 10 ltac:(lia)) as Hdm.
  destruct (Z.ltb_spec n 10) as [Hn|Hn].
  - cbn [String.list_ascii_of_string]. rewrite parse_digit by (unfold is_uint; lia).
    f_equal. rewrite Z.mod_small by lia. lia.
  - rewrite Nat2Z.inj_succ, Z.pow_succ_r in Hf by lia.
    assert (0 < fuel)%nat. { destruct fuel; [cbn in Hf; lia|lia]. }
    rewrite IH; [|unfold is_uint; split; [apply Z.div_pos; lia|]|apply Z.div_lt_upper_bound; lia|done].
    + cbn [String.list_ascii_of_string]. rewrite parse_digit by (unfold is_uint; lia).
      f_equal. lia.
    + apply Z.div_lt_upper_bound; lia.
Qed.

Lemma parse_fill n s :
  parse_digits (String.list_ascii_of_string (fill n "0" s)) 0 = parse_digits (String.list_ascii_of_string s) 0.
Proof. induction n as [|n IH]; [done|]. exact IH. Qed.

Lemma segment_id_from_parts digits :
  digits <> "" ->
  segment_id_from_filename (kSegmentPrefix +:+ digits +:+ kSegmentSuffix) =
  parse_digits (String.list_ascii_of_string digits) 0.
Proof.
  intros Hd. unfold segment_id_from_filename.
  assert (String.length digits <> 0%nat) by (by destruct digits).
  assert (String.length (kSegmentPrefix +:+ digits +:+ kSegmentSuffix) =
          (String.length kSegmentPrefix + (String.length digits + String.length kSegmentSuffix))%nat) as Hl
    by by rewrite !string_length_app.
  rewrite (proj2 (Nat.leb_gt _ _)) by lia. rewrite substr_prefix, String.eqb_refl. cbn [negb].
  assert (substr (kSegmentPrefix +:+ digits +:+ kSegmentSuffix)
            (String.length (kSegmentPrefix +:+ digits +:+ kSegmentSuffix) - String.length kSegmentSuffix)
            (String.length kSegmentSuffix) = kSegmentSuffix) as ->.
  { rewrite string_app_assoc. rewrite (string_length_app (_ +:+ _)).
    rewrite Nat.add_sub, substr_skip. apply substr_all. }
  rewrite String.eqb_refl. cbn [negb].
  assert (substr (kSegmentPrefix +:+ digits +:+ kSegmentSuffix) (String.length kSegmentPrefix)
            (String.length (kSegmentPrefix +:+ digits +:+ kSegmentSuffix) -
             String.length kSegmentPrefix - String.length kSegmentSuffix) = digits) as ->.
  { rewrite substr_skip, Hl.
    replace (_ + (_ + _) - _ - _)%nat with (String.length digits) by lia. apply substr_prefix. }
  by destruct (String.eqb_spec digits "").
Qed.

Lemma segment_digits_nonempty id : pad_left 6 "0" (dec_string id) <> "".
Proof. apply fill_nonempty, to_dec_nonempty. right. lia. Qed.

Lemma segment_id_filename id : is_uint 32 id -> segment_id_from_filename (segment_filename id) = id.
Proof.
  intros Hid. unfold segment_filename. rewrite segment_id_from_parts by apply segment_digits_nonempty.
  unfold pad_left. rewrite parse_fill. unfold dec_string. rewrite parse_to_dec; [done|done| |lia].
  unfold is_uint in Hid. cbn. lia.
Qed.

(** Names of segments round trip.  For every 32-bit segment id the parser
    reads back from the name the id it was made from, so two different ids
    never share a file. *)
Theorem segment_filename_roundtrip id id' :
  is_uint 32 id -> is_uint 32 id' ->
  segment_id_from_filename (segment_filename id) = id /\
  (segment_filename id = segment_filename id' -> id = id').
Proof.
  intros H H'. split; [by apply segment_id_filename|]. intros E.
  by rewrite <- (segment_id_filename id), E, segment_id_filename.
Qed.

Lemma segment_filename_roundtrip_witness :
  segment_filename 7 = "segment-000007.sflog" /\
  segment_id_from_filename (segment_filename 4294967295) = 4294967295.
Proof.
  split; [vm_compute; reflexivity|].
  apply (segment_filename_roundtrip 4294967295 0); split; reflexivity || discriminate.
Defined.

(** The id of an overlong name is taken modulo 2^32. *)
Example segment_id_wraps : segment_id_from_filename "segment-4294967297.sflog" = 1.
Proof. vm_compute. reflexivity. Qed.

End Segment.
