(* ===== verification/ReplayIndex.v ===== *)
(** * The replay index ([include/sensorforge/replay/replay_index.hpp])

    An append-only vector of entries with a flag that remembers whether the
    appends were in time order.  Results: the flag is an invariant (set only
    while the vector is ordered) maintained by every operation; [finalize]
    makes any index the stable time order of its appends; [lower_bound] on a
    finalized index splits it at the requested time. *)

From S2P Require Export StdAlgorithms.

Module ReplayIndex.

Record IndexEntry := mkIndexEntry {
  timestamp_ns : Z;
  segment_id : Z;
  offset : Z;
  record_length : Z
}.

Record ReplayIndex := mkReplayIndex {
  entries_ : list IndexEntry;
  sorted_ : bool
}.

Definition empty_index : ReplayIndex := {| entries_ := []; sorted_ := true |}.

Definition add (timestamp : Z) (segment : Z) (off : Z) (length_ : Z) (ix : ReplayIndex) :
    ReplayIndex :=
  let entries := ix.(entries_) ++ [mkIndexEntry timestamp segment off length_] in
  let regress :=
    (1 <? length entries)%nat &&
    match entries !! (length entries - 2)%nat with
    | Some e => timestamp <? e.(timestamp_ns)
    | None => false
    end in
  {| entries_ := entries; sorted_ := if regress then false else ix.(sorted_) |}.

(** The comparator of [finalize]. *)
Definition earlier (a b : IndexEntry) : bool := a.(timestamp_ns) <? b.(timestamp_ns).

Definition finalize (ix : ReplayIndex) : ReplayIndex :=
  if negb ix.(sorted_)
  then {| entries_ := stable_sort earlier ix.(entries_); sorted_ := true |}
  else ix.

Definition lower_bound (start_ns : Z) (ix : ReplayIndex) : nat :=
  StdAlgorithms.lower_bound (fun e => e.(timestamp_ns) <? start_ns) ix.(entries_).

Definition size (ix : ReplayIndex) : nat := length ix.(entries_).
Definition empty (ix : ReplayIndex) : bool := (length ix.(entries_) =? 0)%nat.
Definition clear (ix : ReplayIndex) : ReplayIndex := {| entries_ := []; sorted_ := true |}.

(** ** The invariant *)

#[global] Instance earlier_swo : StrictWeakOrder earlier.
Proof.
  constructor; intros *; unfold not_after, earlier; rewrite ?Z.ltb_lt, ?Z.ltb_ge; lia.
Qed.

(** [a] does not come later than [b]. *)
Abbreviation in_order := (not_after earlier).

Definition index_wf (ix : ReplayIndex) : Prop :=
  ix.(sorted_) = true -> StronglySorted in_order ix.(entries_).

Lemma empty_wf : index_wf empty_index.
Proof. intros _. constructor. Qed.

(** Appending an element that is not earlier than the last one. *)
Lemma sorted_snoc l (x : IndexEntry) :
  StronglySorted in_order l ->
  (forall y, last l = Some y -> in_order y x) -> StronglySorted in_order (l ++ [x]).
Proof.
  induction 1 as [|a l Hl IH Ha]; cbn [app]; intros Hx; [by repeat constructor|].
  constructor.
  - apply IH. intros y Hy. apply Hx. destruct l; [done|exact Hy].
  - apply Forall_app. split; [done|]. constructor; [|constructor].
    destruct (last l) as [y|] eqn:Ey.
    + assert (in_order a y) as Hay.
      { rewrite Forall_forall in Ha. apply Ha.
        rewrite last_lookup in Ey. apply list_elem_of_lookup. eauto. }
      eapply (swo_trans earlier); [exact Hay|]. apply Hx. destruct l; [done|exact Ey].
    + destruct l as [|z l]; [by apply Hx|]. by apply last_None in Ey.
Qed.

Lemma add_wf ts sg off len ix : index_wf ix -> index_wf (add ts sg off len ix).
Proof.
  unfold index_wf, add. cbn [sorted_ entries_]. intros H Hs.
  case_test_in Hs; [done|]. apply sorted_snoc; [by apply H|].
  intros y Hy. apply andb_false_iff in E. rewrite length_app in E. cbn [length] in E.
  rewrite last_lookup in Hy. destruct (entries_ ix) as [|e l] eqn:El; [done|].
  replace (length (e :: l) + 1 - 2)%nat with (pred (length (e :: l))) in E by (cbn; lia).
  rewrite lookup_app_l, Hy in E by (cbn; lia).
  destruct E as [E|E]; [|exact E]. apply Nat.ltb_ge in E. cbn in E. lia.
Qed.

Lemma finalize_wf ix : index_wf ix -> index_wf (finalize ix) /\ sorted_ (finalize ix) = true.
Proof.
  unfold finalize. intros H. destruct (sorted_ ix) eqn:E; cbn [negb]; [done|].
  split; [|done]. intros _. apply stable_sort_sorted, _.
Qed.

(** On a well-formed index, [finalize] is the stable sort in any case. *)
Lemma finalize_stable_sort ix :
  index_wf ix -> entries_ (finalize ix) = stable_sort earlier ix.(entries_).
Proof.
  unfold finalize. intros H. destruct (sorted_ ix) eqn:E; cbn [negb]; [|done].
  symmetry. by apply stable_sort_sorted_id, H.
Qed.

(** The operations a client performs before it searches. *)
Inductive op :=
| Add (timestamp segment off length_ : Z)
| Finalize
| Clear.

Definition run_op (o : op) (ix : ReplayIndex) : ReplayIndex :=
  match o with
  | Add ts sg off len => add ts sg off len ix
  | Finalize => finalize ix
  | Clear => clear ix
  end.

Definition run_ops (ops : list op) (ix : ReplayIndex) : ReplayIndex := foldl (fun ix o => run_op o ix) ix ops.

Lemma run_ops_wf ops ix : index_wf ix -> index_wf (run_ops ops ix).
Proof.
  revert ix. induction ops as [|o ops IH]; intros ix H; [done|]. cbn. apply IH.
  destruct o; cbn; [by apply add_wf|by apply finalize_wf|]. intros _. constructor.
Qed.

Lemma earlier_closed start : forall a b : IndexEntry, in_order a b ->
  (b.(timestamp_ns) <? start) = true -> (a.(timestamp_ns) <? start) = true.
Proof. unfold not_after, earlier. intros a b. rewrite Z.ltb_ge, !Z.ltb_lt. lia. Qed.

(** Whatever sequence of [add], [finalize] and [clear] came before,
    [finalize] leaves the same entries in stable time order (entries with one
    timestamp keep the order they had), although it skips the sort when the
    flag says so. *)
Theorem finalize_sorts ops :
  let ix := run_ops ops empty_index in
  entries_ (finalize ix) ≡ₚ entries_ ix /\
  StronglySorted in_order (entries_ (finalize ix)) /\
  (forall k, List.filter (equivalent earlier k) (entries_ (finalize ix)) =
             List.filter (equivalent earlier k) (entries_ ix)).
Proof.
  intros ix. rewrite finalize_stable_sort by apply run_ops_wf, empty_wf.
  split; [apply stable_sort_perm|]. split; [apply stable_sort_sorted, _|].
  intros k. apply stable_sort_filter, _.
Qed.

(** On a finalized index the binary search of [lower_bound] ends, and the
    entries from the position it returns are exactly those not before the
    requested time, the ones in front of it exactly those before. *)
Theorem lower_bound_splits ops start_ns :
  let ix := finalize (run_ops ops empty_index) in
  drop (lower_bound start_ns ix) (entries_ ix) =
    List.filter (fun e => negb (e.(timestamp_ns) <? start_ns)) (entries_ ix) /\
  lower_bound start_ns ix =
    length (List.filter (fun e => e.(timestamp_ns) <? start_ns) (entries_ ix)).
Proof.
  intros ix. unfold lower_bound.
  assert (StronglySorted in_order (entries_ ix)) as Hs.
  { destruct (finalize_wf (run_ops ops empty_index)) as [H Hf]; [apply run_ops_wf, empty_wf|by apply H]. }
  split.
  - eapply drop_lower_bound; [apply earlier_closed|done].
  - eapply lower_bound_sorted; [apply earlier_closed|done].
Qed.

End ReplayIndex.
