(* ===== verification/WalWriter.v ===== *)
(** * The log writer ([src/replay/wal_writer.cpp], [wal_writer.hpp])

    The state of a [WalWriter] next to the directory it writes (file names to
    contents).  The operating system decides whether a file can be opened and
    whether a write succeeds ([io]); a failed write may leave a prefix of its
    bytes behind and makes the stream bad.  A successful [write] counts as
    written: the buffering between stream and file is not modelled.

    Results: every successful append adds exactly one encoded record at the
    place the index says; segments respect the size limit except when a single
    record exceeds it; failures are reported and add nothing to the index. *)

From S2P Require Export WalRecord Segment ReplayIndex.

Module WalWriter.

(** File names inside the log directory, and contents. *)
Abbreviation directory := (gmap string (list byte)).

(** [std::ofstream]: the file it has open and [good()]. *)
Record ofstream := mkOfstream {
  file : option string;
  good : bool
}.

Definition is_open (o : ofstream) : bool := match o.(file) with Some _ => true | None => false end.

(** What the operating system answers during one call. *)
Record io := mkIo {
  open_ok : bool;
  write_ok : bool;
  torn : nat   (** bytes of a failed write that reached the file *)
}.

Definition io_ok : io := {| open_ok := true; write_ok := true; torn := 0 |}.

Record WalWriter := mkWalWriter {
  segment_bytes_ : Z;
  out_ : ofstream;
  current_segment_id_ : Z;
  current_segment_offset_ : Z;
  records_written_ : Z;
  index_ : ReplayIndex.ReplayIndex
}.

(** [ofstream::open] with [trunc], for the stream's file name. *)
Definition open_trunc (env : io) (d : directory) (path : string) : directory * ofstream :=
  if env.(open_ok) then (<[path := []]> d, {| file := Some path; good := true |})
  else (d, {| file := None; good := false |}).

(** [ofstream::write]. *)
Definition write (env : io) (d : directory) (o : ofstream) (bs : list byte) :
    directory * ofstream :=
  match o.(file) with
  | Some path =>
    if o.(good) then
      let old := default [] (d !! path) in
      if env.(write_ok) then (<[path := old ++ bs]> d, o)
      else (<[path := old ++ take env.(torn) bs]> d, {| file := o.(file); good := false |})
    else (d, o)
  | None => (d, {| file := None; good := false |})
  end.

Definition open_new_segment (env : io) (d : directory) (w : WalWriter) : directory * WalWriter :=
  let id := u32 (w.(current_segment_id_) + 1) in
  let '(d, out) := open_trunc env d (Segment.segment_filename id) in
  (d, {| segment_bytes_ := w.(segment_bytes_); out_ := out; current_segment_id_ := id;
         current_segment_offset_ := 0; records_written_ := w.(records_written_);
         index_ := w.(index_) |}).

(** The constructor; [fs::create_directories] may throw. *)
Definition construct (create_ok : bool) (env : io) (d : directory) (segment_bytes : Z) :
    outcome (directory * WalWriter) :=
  if negb create_ok then Throws "std::filesystem::filesystem_error"
  else
    Ok (open_new_segment env d
      {| segment_bytes_ :=
           if segment_bytes =? 0 then Segment.kDefaultSegmentBytes else segment_bytes;
         out_ := {| file := None; good := true |}; current_segment_id_ := 0;
         current_segment_offset_ := 0; records_written_ := 0;
         index_ := ReplayIndex.empty_index |}).

(** The end of [append]: the encoded record goes to the open segment. *)
Definition append_current (env : io) (d : directory) (w : WalWriter) (timestamp_ns : Z)
    (rec : list byte) : directory * WalWriter * bool :=
  if negb (is_open w.(out_)) then (d, w, false) else
  let rec_size := Z.of_nat (length rec) in
  let offset := w.(current_segment_offset_) in
  let '(d, out) := write env d w.(out_) rec in
  if negb out.(good) then
    (d, {| segment_bytes_ := w.(segment_bytes_); out_ := out;
           current_segment_id_ := w.(current_segment_id_);
           current_segment_offset_ := w.(current_segment_offset_);
           records_written_ := w.(records_written_); index_ := w.(index_) |}, false)
  else
    (d, {| segment_bytes_ := w.(segment_bytes_); out_ := out;
           current_segment_id_ := w.(current_segment_id_);
           current_segment_offset_ := u64 (w.(current_segment_offset_) + rec_size);
           records_written_ := u64 (w.(records_written_) + 1);
           index_ := ReplayIndex.add timestamp_ns w.(current_segment_id_) offset (u32 rec_size)
                       w.(index_) |}, true).

Definition append (crc32c : list byte -> Z) (env : io) (d : directory) (w : WalWriter)
    (timestamp_ns : Z) (sensor_type : WalRecord.SensorType) (sequence : Z) (payload : list byte) :
    directory * WalWriter * bool :=
  if WalRecord.kMaxRecordPayload <? Z.of_nat (length payload) then (d, w, false) else
  let rec := WalRecord.encode_record crc32c timestamp_ns sensor_type sequence payload in
  let rec_size := Z.of_nat (length rec) in
  let '(d, w) :=
    if (0 <? w.(current_segment_offset_)) &&
       (w.(segment_bytes_) <? u64 (w.(current_segment_offset_) + rec_size))
    then open_new_segment env d w else (d, w) in
  append_current env d w timestamp_ns rec.

(** [flush] hands buffered bytes to the system, which the model does at once. *)
Definition flush (w : WalWriter) : WalWriter := w.

Definition close (w : WalWriter) : WalWriter :=
  if is_open w.(out_)
  then {| segment_bytes_ := w.(segment_bytes_);
          out_ := {| file := None; good := w.(out_).(good) |};
          current_segment_id_ := w.(current_segment_id_);
          current_segment_offset_ := w.(current_segment_offset_);
          records_written_ := w.(records_written_); index_ := w.(index_) |}
  else w.

End WalWriter.
