(* ===== verification/WalReader.v ===== *)
(** * The log reader ([src/replay/wal_reader.cpp], [wal_reader.hpp])

    Loading a directory of segments with recovery from damage, and replay.
    The environment gives the directory (or says that it does not exist) and
    which of its entries are regular and can be opened.

    Results: the recovery scan ends on every buffer and accounts for each of
    its bytes once, as part of a valid record or as skipped; damage behind a
    run of records does not touch them; replay delivers exactly the records
    from the requested time on, in order. *)

From S2P Require Export WalWriter CppDouble.

Module WalReader.

Inductive ReplayMode := kDeterministic | kRealTime | kFast.

Record ReplayStats := mkReplayStats {
  records_ok : Z;
  records_corrupt_skipped : Z;
  bytes_skipped : Z;
  segments_read : Z
}.

Definition ReplayStats_default : ReplayStats :=
  {| records_ok := 0; records_corrupt_skipped := 0; bytes_skipped := 0; segments_read := 0 |}.

Record ReplayRecord := mkReplayRecord {
  header : WalRecord.RecordHeader;
  payload : list byte
}.

Record WalReader := mkWalReader {
  records_ : list ReplayRecord;
  index_ : ReplayIndex.ReplayIndex;
  stats_ : ReplayStats
}.

(** Increments of the counters.  They are numbers here: none exceeds the number
    of bytes, or of segments, that were read, which stays below their widths. *)
Definition count_ok (s : ReplayStats) : ReplayStats :=
  {| records_ok := s.(records_ok) + 1; records_corrupt_skipped := s.(records_corrupt_skipped);
     bytes_skipped := s.(bytes_skipped); segments_read := s.(segments_read) |}.
Definition count_corrupt (s : ReplayStats) : ReplayStats :=
  {| records_ok := s.(records_ok); records_corrupt_skipped := s.(records_corrupt_skipped) + 1;
     bytes_skipped := s.(bytes_skipped); segments_read := s.(segments_read) |}.
Definition count_skipped (n : Z) (s : ReplayStats) : ReplayStats :=
  {| records_ok := s.(records_ok); records_corrupt_skipped := s.(records_corrupt_skipped);
     bytes_skipped := s.(bytes_skipped) + n; segments_read := s.(segments_read) |}.
Definition count_segment (s : ReplayStats) : ReplayStats :=
  {| records_ok := s.(records_ok); records_corrupt_skipped := s.(records_corrupt_skipped);
     bytes_skipped := s.(bytes_skipped); segments_read := s.(segments_read) + 1 |}.

(** The ordering of segments: [std::pair]'s lexicographic [operator<]. *)
Definition segment_lt (a b : Z * string) : bool :=
  (a.1 <? b.1) || ((a.1 =? b.1) && string_lt a.2 b.2).

(** The comparator of the final sort. *)
Definition record_lt (a b : ReplayRecord) : bool :=
  if negb (a.(header).(WalRecord.timestamp_ns) =? b.(header).(WalRecord.timestamp_ns))
  then a.(header).(WalRecord.timestamp_ns) <? b.(header).(WalRecord.timestamp_ns)
  else a.(header).(WalRecord.sequence) <? b.(header).(WalRecord.sequence).

Section Load.
Context (crc32c : list byte -> Z).

(** The scan of one segment: the fuel bounds the iterations of the [while]
    loop, each of which advances [pos]. *)
Fixpoint scan_loop (fuel : nat) (buf : list byte) (seg_id : Z) (pos : nat) (in_skip_run : bool)
    (r : WalReader) : outcome (nat * bool * WalReader) :=
  match fuel with
  | O => Ok (pos, in_skip_run, r)
  | S fuel =>
    if (Z.of_nat pos + WalRecord.kRecordHeaderSize <=? Z.of_nat (length buf)) then
      res ← WalRecord.decode_record crc32c (Some (drop pos buf)) WalRecord.RecordHeader_default;
      let '(err, hdr) := res in
      if bool_decide (err = WalRecord.kOk) then
        bytes ← rd_range buf (pos + Z.to_nat WalRecord.kRecordHeaderSize)
                  (Z.to_nat hdr.(WalRecord.payload_size));
        let rr := {| header := hdr; payload := bytes |} in
        scan_loop fuel buf seg_id (pos + Z.to_nat hdr.(WalRecord.record_length)) false
          {| records_ := r.(records_) ++ [rr];
             index_ := ReplayIndex.add hdr.(WalRecord.timestamp_ns) seg_id (Z.of_nat pos)
                         hdr.(WalRecord.record_length) r.(index_);
             stats_ := count_ok r.(stats_) |}
      else
        let stats := if in_skip_run then r.(stats_) else count_corrupt r.(stats_) in
        scan_loop fuel buf seg_id (pos + 1) true
          {| records_ := r.(records_); index_ := r.(index_); stats_ := count_skipped 1 stats |}
    else Ok (pos, in_skip_run, r)
  end.

(** A whole segment, trailing bytes included. *)
Definition scan_segment (buf : list byte) (seg_id : Z) (r : WalReader) : outcome WalReader :=
  res ← scan_loop (S (length buf)) buf seg_id 0 false r;
  let '(pos, in_skip_run, r) := (res : nat * bool * WalReader) in
  if (pos <? length buf)%nat then
    let stats := if in_skip_run then r.(stats_) else count_corrupt r.(stats_) in
    Ok {| records_ := r.(records_); index_ := r.(index_);
          stats_ := count_skipped (Z.of_nat (length buf - pos)) stats |}
  else Ok r.

Definition add_segment (r : WalReader) : WalReader :=
  {| records_ := r.(records_); index_ := r.(index_); stats_ := count_segment r.(stats_) |}.

(** The loop over the sorted segments.  [can_open] is the environment's. *)
Fixpoint load_segments (can_open : string -> bool) (d : gmap string (list byte))
    (segments : list (Z * string)) (r : WalReader) : outcome WalReader :=
  match segments with
  | [] => Ok r
  | (seg_id, path) :: segments =>
    match d !! path with
    | Some buf =>
      if negb (can_open path) then load_segments can_open d segments r
      else if (length buf =? 0)%nat
      then load_segments can_open d segments (add_segment r)
      else
        r ← scan_segment buf seg_id (add_segment r);
        load_segments can_open d segments r
    | None => load_segments can_open d segments r
    end
  end.

(** The segments of a directory listing, in ascending order. *)
Definition list_segments (is_regular : string -> bool) (listing : list string) :
    list (Z * string) :=
  stable_sort segment_lt
    (omap (fun name =>
             if negb (is_regular name) then None
             else
               let id := Segment.segment_id_from_filename name in
               if negb (id =? 0) then Some (id, name) else None)
          listing).

(** [load]; [listing] is the order in which the system lists the directory. *)
Definition load (is_regular can_open : string -> bool)
    (dir : option (gmap string (list byte) * list string)) : outcome WalReader :=
  let r := {| records_ := []; index_ := ReplayIndex.clear ReplayIndex.empty_index;
              stats_ := ReplayStats_default |} in
  match dir with
  | None => Ok r
  | Some (d, listing) =>
    r ← load_segments can_open d (list_segments is_regular listing) r;
    Ok {| records_ := stable_sort record_lt r.(records_);
          index_ := ReplayIndex.finalize r.(index_); stats_ := r.(stats_) |}
  end.

End Load.

(** ** Replay *)

(** What a replay does: waits for a time after its start, delivers a record. *)
Inductive event :=
| SleepUntil (offset_ns : Z)
| Deliver (r : ReplayRecord).

Fixpoint replay_loop (mode : ReplayMode) (speed : double) (base_ts : Z) (rs : list ReplayRecord)
    (delivered : Z) : outcome (list event * Z) :=
  match rs with
  | [] => Ok ([], delivered)
  | r :: rs =>
    sleep ← match mode with
            | kDeterministic => Ok []
            | _ =>
              let elapsed_log_ns :=
                d_div (d_of_Z (u64 (r.(header).(WalRecord.timestamp_ns) - base_ts))) speed in
              off ← cast_int64 elapsed_log_ns;
              Ok [SleepUntil off]
            end;
    res ← replay_loop mode speed base_ts rs (delivered + 1);
    let '(evs, delivered) := res in
    Ok (sleep ++ Deliver r :: evs, delivered)
  end.

Definition replay (w : WalReader) (mode : ReplayMode) (speed : double) (start_ns : Z) :
    outcome (list event * Z) :=
  match w.(records_) with
  | [] => Ok ([], 0)
  | _ =>
    let speed := if d_le speed d_zero then d_one else speed in
    let first := lower_bound (fun r => r.(header).(WalRecord.timestamp_ns) <? start_ns) w.(records_) in
    let rest := drop first w.(records_) in
    let base_ts :=
      match rest with r :: _ => r.(header).(WalRecord.timestamp_ns) | [] => 0 end in
    replay_loop mode speed base_ts rest 0
  end.

(** ** The recovery scan *)

Section ScanLemmas.
Context (crc32c : list byte -> Z) {Hck : Crc.Checksum crc32c}.

(** The bytes of a recovered record. *)
Definition bytes_of (rr : ReplayRecord) : list byte :=
  WalRecord.record_bytes crc32c rr.(header) rr.(payload).

Definition valid (rr : ReplayRecord) : Prop :=
  WalRecord.valid_record crc32c rr.(header) rr.(payload).

Lemma length_bytes_of rr : length (bytes_of rr) = (34 + length rr.(payload))%nat.
Proof using. apply WalRecord.length_record_bytes. Qed.

Lemma valid_length rr :
  valid rr -> WalRecord.record_length rr.(header) = Z.of_nat (length (bytes_of rr)).
Proof using.
  intros []. rewrite length_bytes_of, vr_length, vr_payload_size.
  unfold WalRecord.kRecordOverhead, WalRecord.kRecordHeaderSize, WalRecord.kRecordTrailerSize. lia.
Qed.

(** Records with the bytes skipped in front of each, and a tail. *)
Fixpoint weave (parts : list (list byte * ReplayRecord)) (tail : list byte) : list byte :=
  match parts with
  | [] => tail
  | (gap, rr) :: parts => gap ++ bytes_of rr ++ weave parts tail
  end.

Definition skipped (parts : list (list byte * ReplayRecord)) : nat :=
  list_sum (map (fun p => length p.1) parts).

(** The effect of recovered records on the reader. *)
Fixpoint add_records (seg_id : Z) (off : Z) (rs : list ReplayRecord) (r : WalReader) : WalReader :=
  match rs with
  | [] => r
  | rr :: rs =>
    add_records seg_id (off + Z.of_nat (length (bytes_of rr))) rs
      {| records_ := r.(records_) ++ [rr];
         index_ := ReplayIndex.add rr.(header).(WalRecord.timestamp_ns) seg_id off
                     rr.(header).(WalRecord.record_length) r.(index_);
         stats_ := count_ok r.(stats_) |}
  end.

(** One iteration at a valid record, and at anything else. *)
Lemma scan_loop_record fuel pre rr post seg_id skip r :
  valid rr ->
  scan_loop crc32c (S fuel) (pre ++ bytes_of rr ++ post) seg_id (length pre) skip r =
  scan_loop crc32c fuel (pre ++ bytes_of rr ++ post) seg_id (length pre + length (bytes_of rr)) false
    {| records_ := r.(records_) ++ [rr];
       index_ := ReplayIndex.add rr.(header).(WalRecord.timestamp_ns) seg_id (Z.of_nat (length pre))
                   rr.(header).(WalRecord.record_length) r.(index_);
       stats_ := count_ok r.(stats_) |}.
Proof using Hck.
  intros Hv. cbn [scan_loop]. rewrite (proj2 (Z.leb_le _ _))
    by (rewrite !length_app, length_bytes_of; unfold WalRecord.kRecordHeaderSize; lia).
  rewrite drop_app_length.
  rewrite (WalRecord.decode_record_complete crc32c _ _ _ (payload rr) post Hv eq_refl).
  cbn [mbind outcome_bind]. rewrite bool_decide_true by done.
  rewrite (WalRecord.vr_payload_size _ _ _ Hv), Nat2Z.id.
  assert (rd_range (pre ++ bytes_of rr ++ post) (length pre + Z.to_nat WalRecord.kRecordHeaderSize)
            (length (payload rr)) = Ok (payload rr)) as ->.
  { unfold bytes_of, WalRecord.record_bytes. rewrite <- !app_assoc, (app_assoc pre).
    apply rd_range_mid; [|done]. by rewrite length_app, WalRecord.record_length_header_bytes. }
  cbn [mbind outcome_bind]. rewrite valid_length, Nat2Z.id by done. by destruct rr.
Qed.

Lemma scan_loop_records rs fuel pre post seg_id skip r :
  Forall valid rs -> (length rs <= fuel)%nat ->
  let buf := pre ++ concat (map bytes_of rs) ++ post in
  scan_loop crc32c fuel buf seg_id (length pre) skip r =
  scan_loop crc32c (fuel - length rs) buf seg_id
    (length pre + length (concat (map bytes_of rs))) (match rs with [] => skip | _ => false end)
    (add_records seg_id (Z.of_nat (length pre)) rs r).
Proof using Hck.
  intros Hv. revert fuel pre skip r. induction Hv as [|rr rs Hrr _ IH]; intros fuel pre skip r Hf buf.
  - cbn. by rewrite Nat.add_0_r, Nat.sub_0_r.
  - subst buf. destruct fuel as [|fuel]; [cbn in Hf; lia|]. cbn [map concat length] in *.
    rewrite <- (app_assoc (bytes_of rr)), scan_loop_record by done.
    specialize (IH fuel (pre ++ bytes_of rr) false). rewrite <- app_assoc in IH.
    rewrite <- length_app, IH by lia. rewrite !length_app, Nat2Z.inj_add, <- Nat.add_assoc.
    cbn [add_records Nat.sub]. by destruct rs.
Qed.

Lemma scan_loop_skip fuel buf seg_id pos skip r e h :
  (pos + 30 <= length buf)%nat ->
  WalRecord.decode_record crc32c (Some (drop pos buf)) WalRecord.RecordHeader_default = Ok (e, h) ->
  e <> WalRecord.kOk ->
  scan_loop crc32c (S fuel) buf seg_id pos skip r =
  scan_loop crc32c fuel buf seg_id (pos + 1) true
    {| records_ := r.(records_); index_ := r.(index_);
       stats_ := count_skipped 1 (if skip then r.(stats_) else count_corrupt r.(stats_)) |}.
Proof using.
  intros Hpos Hd He. cbn [scan_loop].
  rewrite (proj2 (Z.leb_le _ _)) by (unfold WalRecord.kRecordHeaderSize; lia).
  rewrite Hd. cbn [mbind outcome_bind]. by rewrite bool_decide_false.
Qed.

(** What a scan from [pos] to [pos'] owes: every byte belongs to a valid
    record or was skipped and counted, in order. *)
Definition accounted (buf : list byte) (pos : nat) (r : WalReader) (pos' : nat) (r' : WalReader) :
    Prop :=
  exists parts gap,
    drop pos buf = weave parts (gap ++ drop pos' buf) /\
    Forall valid (map snd parts) /\
    r'.(records_) = r.(records_) ++ map snd parts /\
    r'.(stats_).(records_ok) = r.(stats_).(records_ok) + Z.of_nat (length parts) /\
    r'.(stats_).(segments_read) = r.(stats_).(segments_read) /\
    r'.(stats_).(bytes_skipped) =
      r.(stats_).(bytes_skipped) + Z.of_nat (skipped parts + length gap).

Lemma accounted_end buf pos r : accounted buf pos r pos r.
Proof using. exists [], []. cbn. rewrite app_nil_r. repeat split; try constructor; lia. Qed.

Lemma accounted_record buf pos rr ix r pos' r' :
  valid rr -> drop pos buf = bytes_of rr ++ drop (pos + length (bytes_of rr)) buf ->
  accounted buf (pos + length (bytes_of rr))
    {| records_ := r.(records_) ++ [rr]; index_ := ix; stats_ := count_ok r.(stats_) |} pos' r' ->
  accounted buf pos r pos' r'.
Proof using.
  intros Hv Hd (parts & gap & H1 & H2 & H3 & H4 & H5 & H6).
  exists (([], rr) :: parts), gap.
  cbn [records_ stats_ count_ok records_ok segments_read bytes_skipped] in *.
  split; [cbn [weave app]; by rewrite Hd, H1|]. split; [by constructor|].
  split; [by rewrite H3, <- app_assoc|]. cbn [length]. split; [lia|]. split; [done|].
  rewrite H6. done.
Qed.

Lemma accounted_skip buf pos (skip : bool) r pos' r' :
  (pos < length buf)%nat ->
  accounted buf (pos + 1)
    {| records_ := r.(records_); index_ := r.(index_);
       stats_ := count_skipped 1 (if skip then r.(stats_) else count_corrupt r.(stats_)) |} pos' r' ->
  accounted buf pos r pos' r'.
Proof using.
  intros Hpos (parts & gap & H1 & H2 & H3 & H4 & H5 & H6).
  destruct (lookup_lt_is_Some_2 buf pos Hpos) as [b Hb].
  rewrite Nat.add_1_r in H1.
  assert (forall s, bytes_skipped (count_skipped 1 (if skip then s else count_corrupt s)) = bytes_skipped s + 1 /\
    records_ok (count_skipped 1 (if skip then s else count_corrupt s)) = records_ok s /\
    segments_read (count_skipped 1 (if skip then s else count_corrupt s)) = segments_read s) as Hst
    by by destruct skip.
  destruct (Hst (stats_ r)) as (Hs1 & Hs2 & Hs3).
  cbn [stats_ records_] in *. rewrite Hs1 in H6. rewrite Hs2 in H4. rewrite Hs3 in H5.
  destruct parts as [|[g rr] parts].
  - exists [], (b :: gap). cbn [weave app map length] in *. rewrite (drop_S buf b pos Hb), H1.
    do 5 (split; [done|]). rewrite H6. unfold skipped. cbn. lia.
  - exists ((b :: g, rr) :: parts), gap. cbn [weave app map length snd] in *.
    rewrite (drop_S buf b pos Hb), H1.
    do 5 (split; [done|]). rewrite H6. unfold skipped. cbn. lia.
Qed.

(** The scan from [pos] to the end, whatever the bytes are. *)
Lemma scan_loop_accounts fuel buf seg_id pos skip r :
  (pos <= length buf)%nat -> (length buf - pos < fuel)%nat ->
  exists pos' skip' r',
    scan_loop crc32c fuel buf seg_id pos skip r = Ok (pos', skip', r') /\
    (pos' <= length buf < pos' + 30)%nat /\ accounted buf pos r pos' r'.
Proof using Hck.
  revert pos skip r. induction fuel as [|fuel IH]; intros pos skip r Hpos Hf; [lia|].
  destruct (decide (pos + 30 <= length buf)%nat) as [Hh|Hh].
  - destruct (WalRecord.decode_record_total crc32c (Some (drop pos buf))
      WalRecord.RecordHeader_default) as (e & h & Hd).
    destruct (decide (e = WalRecord.kOk)) as [->|He].
    + apply WalRecord.decode_record_sound in Hd as (pl & rest & Hv & Hdrop).
      set (rr := {| header := h; payload := pl |}).
      change (WalRecord.record_bytes crc32c h pl) with (bytes_of rr) in Hdrop.
      assert (buf = take pos buf ++ bytes_of rr ++ rest) as Hbuf by by rewrite <- Hdrop, take_drop.
      assert (length (take pos buf) = pos) as Htp by (rewrite length_take; lia).
      assert (drop (pos + length (bytes_of rr)) buf = rest) as Hrest
        by by rewrite <- drop_drop, Hdrop, drop_app_length.
      pose proof (length_bytes_of rr) as Hlb.
      pose proof (f_equal length Hdrop) as Hlen. rewrite length_drop, length_app in Hlen.
      pose proof (scan_loop_record fuel (take pos buf) rr rest seg_id skip r Hv) as Hs.
      rewrite <- Hbuf, Htp in Hs. rewrite Hs.
      edestruct (IH (pos + length (bytes_of rr))%nat) as (pos' & skip' & r' & H1 & H2 & H3);
        [lia|lia|].
      exists pos', skip', r'. split; [exact H1|]. split; [done|].
      eapply (accounted_record _ _ rr); [exact Hv|by rewrite Hrest|exact H3].
    + erewrite scan_loop_skip by done.
      edestruct (IH (pos + 1)%nat true) as (pos' & skip' & r' & H1 & H2 & H3); [lia|lia|].
      exists pos', skip', r'. split; [exact H1|]. split; [done|].
      eapply accounted_skip; [lia|exact H3].
  - exists pos, skip, r. cbn [scan_loop].
    rewrite (proj2 (Z.leb_gt _ _)) by (unfold WalRecord.kRecordHeaderSize; lia).
    split; [done|]. split; [lia|]. apply accounted_end.
Qed.

(** ** Properties *)

(** C14: recovery of a segment.  On every buffer, however damaged, the scan
    ends without reading outside of it, and the buffer is an alternation of
    skipped bytes and valid records: the records are what the reader gained,
    in order, and [bytes_skipped] grew by exactly the rest. *)
Theorem scan_segment_accounts buf seg_id r :
  exists r' parts tail,
    scan_segment crc32c buf seg_id r = Ok r' /\
    buf = weave parts tail /\ Forall valid (map snd parts) /\
    r'.(records_) = r.(records_) ++ map snd parts /\
    r'.(stats_).(records_ok) = r.(stats_).(records_ok) + Z.of_nat (length parts) /\
    r'.(stats_).(bytes_skipped) =
      r.(stats_).(bytes_skipped) + Z.of_nat (skipped parts + length tail).
Proof using Hck.
  destruct (scan_loop_accounts (S (length buf)) buf seg_id 0 false r)
    as (pos & skip & r' & H1 & H2 & parts & gap & H3 & H4 & H5 & H6 & H7 & H8); [lia|lia|].
  unfold scan_segment. rewrite H1. cbn [mbind outcome_bind].
  rewrite drop_0 in H3. case_test; bool_to_prop; eexists _, parts, (gap ++ drop pos buf).
  - split; [done|]. cbn [records_ stats_ count_skipped bytes_skipped records_ok].
    do 3 (split; [done|]). rewrite length_app, length_drop.
    destruct skip; cbn [count_corrupt bytes_skipped records_ok]; split; [done|lia|done|lia].
  - do 4 (split; [done|]). split; [done|].
    rewrite length_app, length_drop, H8. lia.
Qed.


End ScanLemmas.

(** ** Effects of clean records *)

Section LoadLemmas.
Context (crc32c : list byte -> Z) {Hck : Crc.Checksum crc32c}.

Lemma add_records_records seg_id off rs r :
  records_ (add_records crc32c seg_id off rs r) = records_ r ++ rs.
Proof using.
  revert off r. induction rs as [|rr rs IH]; intros off r; cbn [add_records]; [by rewrite app_nil_r|].
  rewrite IH. cbn [records_]. by rewrite <- app_assoc.
Qed.

Lemma add_records_stats seg_id off rs r :
  stats_ (add_records crc32c seg_id off rs r) =
  {| records_ok := records_ok (stats_ r) + Z.of_nat (length rs);
     records_corrupt_skipped := records_corrupt_skipped (stats_ r);
     bytes_skipped := bytes_skipped (stats_ r); segments_read := segments_read (stats_ r) |}.
Proof using.
  revert off r. induction rs as [|rr rs IH]; intros off r; cbn [add_records length].
  - rewrite Z.add_0_r. by destruct (stats_ r).
  - rewrite IH. cbn [stats_ count_ok records_ok records_corrupt_skipped bytes_skipped segments_read].
    f_equal. lia.
Qed.

Lemma length_concat_bytes rs : (length rs <= length (concat (map (bytes_of crc32c) rs)))%nat.
Proof using.
  induction rs as [|rr rs IH]; [done|]. cbn [map concat length].
  rewrite length_app, length_bytes_of. lia.
Qed.

(** The scan reaches the end of the clean records. *)
Lemma scan_loop_clean rs junk seg_id r :
  Forall (valid crc32c) rs ->
  exists fuel, (length junk < fuel)%nat /\
    scan_loop crc32c (S (length (concat (map (bytes_of crc32c) rs) ++ junk)))
      (concat (map (bytes_of crc32c) rs) ++ junk) seg_id 0 false r =
    scan_loop crc32c fuel (concat (map (bytes_of crc32c) rs) ++ junk) seg_id
      (length (concat (map (bytes_of crc32c) rs))) false (add_records crc32c seg_id 0 rs r).
Proof using Hck.
  intros Hv. pose proof (length_concat_bytes rs) as Hl.
  eexists. split; [|etransitivity; [apply (scan_loop_records crc32c rs _ [] junk seg_id false r Hv)|]].
  - apply (Nat.lt_le_trans _ (S (length (concat (map (bytes_of crc32c) rs) ++ junk)) - length rs)%nat).
    + rewrite length_app. lia.
    + reflexivity.
  - rewrite length_app. lia.
  - by destruct rs.
Qed.

Lemma scan_segment_clean rs seg_id r :
  Forall (valid crc32c) rs ->
  scan_segment crc32c (concat (map (bytes_of crc32c) rs)) seg_id r =
  Ok (add_records crc32c seg_id 0 rs r).
Proof using Hck.
  intros Hv. unfold scan_segment. pose proof (scan_loop_clean rs [] seg_id r Hv) as (fuel & Hf & Hs).
  rewrite !app_nil_r in Hs. rewrite Hs. destruct fuel as [|fuel]; [cbn in Hf; lia|].
  cbn [scan_loop]. rewrite (proj2 (Z.leb_gt _ _)) by (unfold WalRecord.kRecordHeaderSize; lia).
  cbn [mbind outcome_bind]. by rewrite Nat.ltb_irrefl.
Qed.

(** Damage does not reach back.  If a segment starts with valid records,
    they are all recovered, whatever bytes follow (a torn write, garbage); if
    fewer bytes follow than a record header has, nothing else is recovered and
    these bytes are counted as one corrupt record. *)
Theorem scan_segment_keeps_prefix rs junk seg_id r :
  Forall (valid crc32c) rs ->
  exists r' more,
    scan_segment crc32c (concat (map (bytes_of crc32c) rs) ++ junk) seg_id r = Ok r' /\
    r'.(records_) = r.(records_) ++ rs ++ more /\
    ((length junk < 30)%nat ->
     more = [] /\
     r'.(stats_).(records_corrupt_skipped) =
       r.(stats_).(records_corrupt_skipped) + (if (length junk =? 0)%nat then 0 else 1) /\
     r'.(stats_).(bytes_skipped) = r.(stats_).(bytes_skipped) + Z.of_nat (length junk)).
Proof using Hck.
  intros Hv. set (buf := concat _ ++ junk). set (n := length (concat (map (bytes_of crc32c) rs))).
  assert (length buf = n + length junk)%nat as Hlen by apply length_app.
  destruct (scan_loop_clean rs junk seg_id r Hv) as (fuel & Hf & Hs). fold buf n in Hs.
  unfold scan_segment. rewrite Hs. destruct (decide (length junk < 30)%nat) as [H30|H30].
  - destruct fuel as [|fuel]; [lia|]. cbn [scan_loop].
    rewrite (proj2 (Z.leb_gt _ _)) by (unfold WalRecord.kRecordHeaderSize; lia).
    cbn [mbind outcome_bind]. destruct (Nat.ltb_spec n (length buf)) as [Hn|Hn]; eexists _, [].
    + split; [done|]. cbn [records_ stats_]. rewrite app_nil_r. split; [apply add_records_records|].
      intros _. split; [done|]. rewrite add_records_stats.
      cbn [count_skipped count_corrupt records_corrupt_skipped bytes_skipped].
      split; [case_test; bool_to_prop; lia|lia].
    + split; [done|]. rewrite app_nil_r. split; [apply add_records_records|].
      intros _. split; [done|]. rewrite add_records_stats.
      cbn [records_corrupt_skipped bytes_skipped]. split; [case_test; bool_to_prop; lia|lia].
  - destruct (scan_loop_accounts crc32c fuel buf seg_id n false (add_records crc32c seg_id 0 rs r))
      as (pos & skip & r' & H1 & H2 & parts & gap & H3 & H4 & H5 & _); [lia|lia|].
    rewrite H1. cbn [mbind outcome_bind]. rewrite add_records_records, <- app_assoc in H5.
    case_test; eexists _, (map snd parts); (split; [done|]); (split; [exact H5|lia]).
Qed.

(** ** Loading and replay *)

#[global] Instance record_lt_swo : StrictWeakOrder record_lt.
Proof using.
  unfold record_lt. constructor; unfold not_after; intros *;
    repeat case_test; bool_to_prop; rewrite ?Z.ltb_lt, ?Z.ltb_ge; lia.
Qed.

Lemma scan_segment_total buf seg_id r : exists r', scan_segment crc32c buf seg_id r = Ok r'.
Proof using Hck.
  destruct (scan_loop_accounts crc32c (S (length buf)) buf seg_id 0 false r)
    as (pos & skip & r' & H1 & _); [lia|lia|].
  unfold scan_segment. rewrite H1. cbn [mbind outcome_bind]. case_test; eauto.
Qed.

Lemma load_segments_total can_open d segs r :
  exists r', load_segments crc32c can_open d segs r = Ok r'.
Proof using Hck.
  revert r. induction segs as [|[id path] segs IH]; intros r; cbn [load_segments]; [eauto|].
  destruct (d !! path) as [buf|]; [|done]. repeat (case_test; [done|]).
  destruct (scan_segment_total buf id (add_segment r)) as [r' ->]. apply IH.
Qed.

Lemma record_lt_closed start : forall a b, not_after record_lt a b ->
  (WalRecord.timestamp_ns (header b) <? start) = true ->
  (WalRecord.timestamp_ns (header a) <? start) = true.
Proof using.
  unfold not_after, record_lt. intros a b H. rewrite !Z.ltb_lt.
  case_test_in H; bool_to_prop; lia.
Qed.

Lemma replay_loop_deterministic speed base rs n :
  replay_loop kDeterministic speed base rs n = Ok (map Deliver rs, n + Z.of_nat (length rs)).
Proof using.
  revert n. induction rs as [|rr rs IH]; intros n; cbn [replay_loop map length].
  - cbn. by rewrite Z.add_0_r.
  - cbn [mbind outcome_bind]. rewrite IH. cbn [mbind outcome_bind app]. do 2 f_equal. lia.
Qed.

Definition delivered_of (evs : list event) : list ReplayRecord :=
  omap (fun e => match e with Deliver r => Some r | _ => None end) evs.

Lemma replay_loop_delivers mode speed base rs n evs m :
  replay_loop mode speed base rs n = Ok (evs, m) ->
  delivered_of evs = rs /\ m = n + Z.of_nat (length rs).
Proof using.
  revert n evs m. induction rs as [|rr rs IH]; intros n evs m; cbn [replay_loop].
  - intros [= <- <-]. cbn. split; [done|lia].
  - destruct (match mode with kDeterministic => _ | _ => _ end) as [sl| |] eqn:Es; [|done|done].
    cbn [mbind outcome_bind]. destruct (replay_loop _ _ _ _ _) as [[evs' m']| |] eqn:E; [|done|done].
    cbn [mbind outcome_bind]. intros [= <- <-]. apply IH in E as [<- ->].
    split; [|cbn [length]; lia].
    assert (delivered_of sl = []) as Hsl.
    { destruct mode; [by injection Es as <-|..]; destruct (cast_int64 _); cbn in Es; try done;
        by injection Es as <-. }
    unfold delivered_of in *. by rewrite omap_app, Hsl.
Qed.

(** C29: loading and replaying.  Whatever the directory holds, in whatever
    order it is listed, loading ends normally with the records in order of
    time and sequence; a deterministic replay from [start_ns] then delivers
    exactly the records not before [start_ns], in that order and without
    waiting, and returns their number; a timed replay that comes to its end
    delivers the same. *)
Theorem load_then_replay is_regular can_open dir :
  exists w, load crc32c is_regular can_open dir = Ok w /\
    StronglySorted (not_after record_lt) w.(records_) /\
    forall start_ns,
      let rs := List.filter (fun r => negb (WalRecord.timestamp_ns r.(header) <? start_ns)) w.(records_) in
      (forall speed, replay w kDeterministic speed start_ns = Ok (map Deliver rs, Z.of_nat (length rs))) /\
      (forall mode speed evs n, replay w mode speed start_ns = Ok (evs, n) ->
         delivered_of evs = rs /\ n = Z.of_nat (length rs)).
Proof using Hck.
  assert (exists w, load crc32c is_regular can_open dir = Ok w /\
                    StronglySorted (not_after record_lt) w.(records_)) as (w & Hw & Hs).
  { unfold load. destruct dir as [[d listing]|]; [|eexists; split; [done|constructor]].
    match goal with |- context [load_segments _ _ _ ?l ?r0] =>
      destruct (load_segments_total can_open d l r0) as [r' ->] end.
    cbn [mbind outcome_bind]. eexists. split; [done|]. apply stable_sort_sorted, _. }
  exists w. split; [done|]. split; [done|]. intros start_ns rs.
  assert (drop (lower_bound (fun r => WalRecord.timestamp_ns r.(header) <? start_ns) w.(records_))
            w.(records_) = rs) as Hd.
  { eapply drop_lower_bound; [apply record_lt_closed|done]. }
  unfold replay. destruct (records_ w) as [|r0 l] eqn:El.
  - subst rs. cbn. split; [done|]. by intros mode speed evs n [= <- <-].
  - rewrite Hd. split; [intros speed; apply replay_loop_deterministic|].
    intros mode speed evs n Hr. by apply replay_loop_delivers in Hr.
Qed.

End LoadLemmas.

(** ** The properties at concrete inputs *)

Definition sample : ReplayRecord :=
  {| header := WalRecord.encoded_header Crc.crc32c_portable 5000 Frame.kImu 9 WalRecord.sample_payload;
     payload := WalRecord.sample_payload |}.

Lemma sample_valid : valid Crc.crc32c_portable sample.
Proof. apply (WalRecord.record_encoded_header_valid Crc.crc32c_portable 5000 Frame.kImu 9 WalRecord.sample_payload); done. Qed.

Lemma scan_segment_accounts_witness :
  exists r' parts tail,
    scan_segment Crc.crc32c_portable (map z2b [1; 2; 3]) 1
      {| records_ := []; index_ := ReplayIndex.empty_index; stats_ := ReplayStats_default |} = Ok r' /\
    map z2b [1; 2; 3] = weave Crc.crc32c_portable parts tail.
Proof.
  destruct (scan_segment_accounts Crc.crc32c_portable (map z2b [1; 2; 3]) 1
    {| records_ := []; index_ := ReplayIndex.empty_index; stats_ := ReplayStats_default |})
    as (r' & parts & tail & H1 & H2 & _).
  exists r', parts, tail. by split.
Defined.

Lemma scan_segment_keeps_prefix_witness :
  exists r' more,
    scan_segment Crc.crc32c_portable
      (concat (map (bytes_of Crc.crc32c_portable) [sample]) ++ map z2b [1; 2; 3]) 1
      {| records_ := []; index_ := ReplayIndex.empty_index; stats_ := ReplayStats_default |} = Ok r' /\
    r'.(records_) = [] ++ [sample] ++ more.
Proof.
  destruct (scan_segment_keeps_prefix Crc.crc32c_portable [sample] (map z2b [1; 2; 3]) 1
    {| records_ := []; index_ := ReplayIndex.empty_index; stats_ := ReplayStats_default |})
    as (r' & more & H1 & H2 & _); [repeat constructor; apply sample_valid|].
  exists r', more. by split.
Defined.

Lemma load_then_replay_witness :
  exists w, load Crc.crc32c_portable (fun _ => true) (fun _ => true)
              (Some (<["segment-000001.sflog" := bytes_of Crc.crc32c_portable sample]> ∅,
                     ["segment-000001.sflog"])) = Ok w /\
            StronglySorted (not_after record_lt) w.(records_).
Proof.
  destruct (load_then_replay Crc.crc32c_portable (fun _ => true) (fun _ => true)
    (Some (<["segment-000001.sflog" := bytes_of Crc.crc32c_portable sample]> ∅,
                     ["segment-000001.sflog"]))) as (w & H1 & H2 & _).
  exists w. by split.
Defined.

End WalReader.
