(* ===== verification/WalDamage.v ===== *)
(** * Damaged segments

    What [WalReader::scan_segment] ([src/src/replay/wal_reader.cpp]) makes of
    a segment of which parts were damaged.  A segment is a list of pieces:
    records as they were written, and damaged regions in which no record
    starts ([barren]).

    Results: the scan recovers exactly the records and counts each region
    once; a record hit by a burst of errors costs only itself, provided that
    no record is embedded in its payload; with one, the embedded record is
    replayed although nobody logged it. *)

From S2P Require Export WalReader.

Module WalDamage.
Import WalReader.

Inductive piece :=
| Intact (rr : ReplayRecord)
| Lost (junk : list byte).

Section Damage.
Context (crc32c : list byte -> Z) {Hck : Crc.Checksum crc32c}.

Definition piece_bytes (p : piece) : list byte :=
  match p with Intact rr => bytes_of crc32c rr | Lost junk => junk end.

Definition segment_of (ps : list piece) : list byte := concat (map piece_bytes ps).

(** No record starts in [junk] when [rest] follows; computable. *)
Definition starts_record (buf : list byte) : bool :=
  match WalRecord.decode_record crc32c (Some buf) WalRecord.RecordHeader_default with
  | Ok (e, _) => bool_decide (e = WalRecord.kOk)
  | _ => true
  end.

Definition barren_from (k : nat) (junk rest : list byte) : bool :=
  forallb (fun i => negb (starts_record (drop i (junk ++ rest)))) (seq k (length junk - k)).

Definition barren (junk rest : list byte) : bool := barren_from 0 junk rest.

(** Regions are not empty, barren, and apart. *)
Fixpoint pieces_ok (ps : list piece) : Prop :=
  match ps with
  | [] => True
  | Intact rr :: ps => valid crc32c rr /\ pieces_ok ps
  | Lost junk :: ps =>
    junk <> [] /\ barren junk (segment_of ps) = true /\
    match ps with Lost _ :: _ => False | _ => pieces_ok ps end
  end.

(** The reader after the scan. *)
Definition lose (junk : list byte) (counted : bool) (r : WalReader) : WalReader :=
  match junk with
  | [] => r
  | _ => {| records_ := r.(records_); index_ := r.(index_);
            stats_ := count_skipped (Z.of_nat (length junk)) (if counted then r.(stats_) else count_corrupt r.(stats_)) |}
  end.

Fixpoint recover (seg_id off : Z) (ps : list piece) (r : WalReader) : WalReader :=
  match ps with
  | [] => r
  | p :: ps =>
    recover seg_id (off + Z.of_nat (length (piece_bytes p))) ps
      match p with
      | Intact rr => add_records crc32c seg_id off [rr] r
      | Lost junk => lose junk false r
      end
  end.

Fixpoint records_of (ps : list piece) : list ReplayRecord :=
  match ps with [] => [] | Intact rr :: ps => rr :: records_of ps | Lost _ :: ps => records_of ps end.

Fixpoint lost_of (ps : list piece) : list (list byte) :=
  match ps with [] => [] | Intact _ :: ps => lost_of ps | Lost junk :: ps => junk :: lost_of ps end.

(** ** Lemmas *)

Lemma starts_record_false buf :
  starts_record buf = false -> exists e h,
    WalRecord.decode_record crc32c (Some buf) WalRecord.RecordHeader_default = Ok (e, h) /\ e <> WalRecord.kOk.
Proof using.
  unfold starts_record. destruct (WalRecord.decode_record _ _ _) as [[e h]| |]; try done.
  intros H%bool_decide_eq_false. by exists e, h.
Qed.

Lemma barren_cons b junk rest : barren (b :: junk) rest = true ->
  starts_record (b :: junk ++ rest) = false /\ barren junk rest = true.
Proof using.
  unfold barren, barren_from. rewrite Nat.sub_0_r. cbn [length seq forallb]. intros H. apply andb_true_iff in H as [H1 H2].
  split; [by apply negb_true_iff in H1|]. rewrite Nat.sub_0_r, <- seq_shift in *.
  rewrite forallb_forall in H2. apply forallb_forall. intros i Hi. apply (H2 (S i)). by apply in_map.
Qed.

Lemma lose_skip b counted r junk :
  lose junk true
    {| records_ := r.(records_); index_ := r.(index_);
       stats_ := count_skipped 1 (if counted : bool then r.(stats_) else count_corrupt r.(stats_)) |} =
  lose (b :: junk) counted r.
Proof using.
  destruct junk as [|b1 junk]; cbn [lose records_ index_ stats_ length]; [done|].
  unfold count_skipped. cbn [records_ok records_corrupt_skipped bytes_skipped segments_read].
  do 2 f_equal. lia.
Qed.

(** The loop inside a barren region. *)
Lemma scan_junk junk pre rest fuel seg_id skip r :
  barren junk rest = true -> (30 <= length rest)%nat ->
  scan_loop crc32c (length junk + fuel) (pre ++ junk ++ rest) seg_id (length pre) skip r =
  scan_loop crc32c fuel (pre ++ junk ++ rest) seg_id (length pre + length junk)
    (match junk with [] => skip | _ => true end) (lose junk skip r).
Proof using.
  revert pre skip r. induction junk as [|b junk IH]; intros pre skip r Hb Hr; [by rewrite Nat.add_0_r|].
  apply barren_cons in Hb as [Hs Hb]. destruct (starts_record_false _ Hs) as (e & h & Hd & He).
  cbn [length Nat.add]. rewrite (scan_loop_skip crc32c _ _ _ _ _ _ e h);
    [|rewrite !length_app; cbn [length]; lia|by rewrite drop_app_length|done].
  specialize (IH (pre ++ [b]) true). rewrite <- app_assoc, length_app in IH. cbn [app length] in IH.
  cbn [app]. rewrite IH by done. rewrite (lose_skip b).
  replace (length pre + 1 + length junk)%nat with (length pre + S (length junk))%nat by lia. by destruct junk.
Qed.

(** The end of a segment. *)
Definition scan_end (buf : list byte) (res : nat * bool * WalReader) : outcome WalReader :=
  let '(pos, in_skip_run, r) := res in
  if (pos <? length buf)%nat then
    let stats := if in_skip_run then r.(stats_) else count_corrupt r.(stats_) in
    Ok {| records_ := r.(records_); index_ := r.(index_);
          stats_ := count_skipped (Z.of_nat (length buf - pos)) stats |}
  else Ok r.

Lemma scan_tail junk pre fuel seg_id skip r :
  barren junk [] = true -> (length junk < fuel)%nat ->
  (res ← scan_loop crc32c fuel (pre ++ junk) seg_id (length pre) skip r; scan_end (pre ++ junk) res) = Ok (lose junk skip r).
Proof using.
  revert pre fuel skip r. induction junk as [|b junk IH]; intros pre fuel skip r Hb Hf; (destruct fuel as [|fuel]; [lia|]).
  { cbn [scan_loop]. rewrite app_nil_r, (proj2 (Z.leb_gt _ _)) by (unfold WalRecord.kRecordHeaderSize; lia).
    cbn [mbind outcome_bind scan_end]. by rewrite Nat.ltb_irrefl. }
  destruct (decide (30 <= length (b :: junk))%nat) as [H30|H30].
  - apply barren_cons in Hb as [Hs Hb]. destruct (starts_record_false _ Hs) as (e & h & Hd & He). rewrite app_nil_r in Hd.
    rewrite (scan_loop_skip crc32c _ _ _ _ _ _ e h); [|rewrite length_app; lia|by rewrite drop_app_length|done].
    specialize (IH (pre ++ [b]) fuel true). rewrite <- app_assoc, length_app in IH. cbn [app length] in IH.
    rewrite IH by (done || (cbn in Hf; lia)). by rewrite (lose_skip b).
  - cbn [scan_loop]. rewrite (proj2 (Z.leb_gt _ _)) by (unfold WalRecord.kRecordHeaderSize; rewrite length_app; lia).
    cbn [mbind outcome_bind scan_end lose]. rewrite (proj2 (Nat.ltb_lt _ _)) by (rewrite length_app; cbn [length]; lia).
    by replace (length (pre ++ b :: junk) - length pre)%nat with (length (b :: junk)) by (rewrite length_app; lia).
Qed.

(** The whole segment, piece by piece. *)
Lemma scan_pieces ps pre fuel seg_id skip r :
  pieces_ok ps -> (skip = true -> match ps with Lost _ :: _ => False | _ => True end) ->
  (length (segment_of ps) < fuel)%nat ->
  (res ← scan_loop crc32c fuel (pre ++ segment_of ps) seg_id (length pre) skip r; scan_end (pre ++ segment_of ps) res) =
  Ok (recover seg_id (Z.of_nat (length pre)) ps r).
Proof using Hck.
  revert pre fuel skip r. induction ps as [|[rr|junk] ps IH]; intros pre fuel skip r Hok Hskip Hf.
  - by apply (scan_tail []).
  - destruct Hok as [Hv Hok]. unfold segment_of in *. cbn [map concat piece_bytes recover] in *. rewrite length_app in Hf.
    destruct fuel as [|fuel]; [lia|]. rewrite (scan_loop_record crc32c _ _ _ _ _ _ _ Hv).
    specialize (IH (pre ++ bytes_of crc32c rr) fuel false). rewrite <- app_assoc, length_app, Nat2Z.inj_add in IH.
    rewrite IH; [done|done|done|]. pose proof (length_bytes_of crc32c rr). lia.
  - destruct Hok as (Hne & Hb & Hok). destruct skip; [by destruct (Hskip eq_refl)|].
    destruct ps as [|[rr|] ps]; [| |done].
    + unfold segment_of in *. cbn [map concat piece_bytes recover] in *. rewrite app_nil_r in *. by apply scan_tail.
    + change (segment_of (Lost junk :: Intact rr :: ps)) with (junk ++ segment_of (Intact rr :: ps)) in *.
      rewrite length_app in Hf. set (rest := segment_of (Intact rr :: ps)) in *.
      replace fuel with (length junk + (fuel - length junk))%nat by lia.
      rewrite (scan_junk junk pre rest) by (done || (subst rest; change (segment_of (Intact rr :: ps)) with
        (bytes_of crc32c rr ++ segment_of ps); rewrite length_app, (length_bytes_of crc32c rr); lia)).
      specialize (IH (pre ++ junk) (fuel - length junk)%nat (match junk with [] => false | _ => true end) (lose junk false r)).
      rewrite <- app_assoc, length_app, Nat2Z.inj_add in IH. rewrite IH; [done|done|done|lia].
Qed.

Lemma recover_records seg_id off ps r : records_ (recover seg_id off ps r) = records_ r ++ records_of ps.
Proof using.
  revert off r. induction ps as [|[rr|junk] ps IH]; intros off r; cbn [recover records_of]; [by rewrite app_nil_r| |];
    rewrite IH; cbn [add_records records_ lose]; [by rewrite <- app_assoc|by destruct junk].
Qed.

Lemma recover_stats seg_id off ps r : pieces_ok ps ->
  stats_ (recover seg_id off ps r) =
  {| records_ok := records_ok (stats_ r) + Z.of_nat (length (records_of ps));
     records_corrupt_skipped := records_corrupt_skipped (stats_ r) + Z.of_nat (length (lost_of ps));
     bytes_skipped := bytes_skipped (stats_ r) + Z.of_nat (length (concat (lost_of ps)));
     segments_read := segments_read (stats_ r) |}.
Proof using.
  revert off r. induction ps as [|[rr|junk] ps IH]; intros off r Hok; cbn [recover records_of lost_of].
  - cbn. rewrite !Z.add_0_r. by destruct (stats_ r).
  - destruct Hok as [_ Hok]. rewrite IH by done. cbn [add_records stats_ count_ok records_ok records_corrupt_skipped bytes_skipped segments_read length].
    f_equal; lia.
  - destruct Hok as (Hne & _ & Hok). rewrite IH by (destruct ps as [|[]]; done). destruct junk as [|b junk]; [done|].
    cbn [lose stats_ count_skipped count_corrupt records_ok records_corrupt_skipped bytes_skipped segments_read length concat].
    rewrite length_app. cbn [length]. f_equal; lia.
Qed.

Lemma scan_damaged ps seg_id r :
  pieces_ok ps -> scan_segment crc32c (segment_of ps) seg_id r = Ok (recover seg_id 0 ps r).
Proof using Hck.
  intros Hok. apply (scan_pieces ps [] (S (length (segment_of ps))) seg_id false r Hok); [done|lia].
Qed.

(** C13: recovery of a damaged segment.  Of a segment of which some regions
    were damaged, so that no record starts in them, the scan recovers exactly
    the other records, in order and unchanged, indexes each at its place,
    counts every region as one corrupt record and its bytes as skipped. *)
Theorem scan_recovers ps seg_id r :
  pieces_ok ps ->
  scan_segment crc32c (segment_of ps) seg_id r = Ok (recover seg_id 0 ps r) /\
  records_ (recover seg_id 0 ps r) = records_ r ++ records_of ps /\
  stats_ (recover seg_id 0 ps r) =
    {| records_ok := records_ok (stats_ r) + Z.of_nat (length (records_of ps));
       records_corrupt_skipped := records_corrupt_skipped (stats_ r) + Z.of_nat (length (lost_of ps));
       bytes_skipped := bytes_skipped (stats_ r) + Z.of_nat (length (concat (lost_of ps)));
       segments_read := segments_read (stats_ r) |}.
Proof using Hck.
  intros Hok. split; [by apply scan_damaged|]. split; [apply recover_records|by apply recover_stats].
Qed.

Lemma pieces_ok_intact rs ps : Forall (valid crc32c) rs -> pieces_ok ps -> pieces_ok (map Intact rs ++ ps).
Proof using. induction 1 as [|rr rs Hv _ IH]; [done|]. intros Hp. split; [done|by apply IH]. Qed.

Lemma segment_of_app ps1 ps2 : segment_of (ps1 ++ ps2) = segment_of ps1 ++ segment_of ps2.
Proof using. unfold segment_of. by rewrite map_app, concat_app. Qed.

Lemma segment_of_intact rs : segment_of (map Intact rs) = concat (map (bytes_of crc32c) rs).
Proof using. unfold segment_of. by rewrite map_map. Qed.

Lemma records_of_app ps1 ps2 : records_of (ps1 ++ ps2) = records_of ps1 ++ records_of ps2.
Proof using. induction ps1 as [|[] ps1 IH]; cbn; by rewrite ?IH. Qed.

Lemma records_of_intact rs : records_of (map Intact rs) = rs.
Proof using. induction rs as [|rr rs IH]; cbn; by rewrite ?IH. Qed.

Lemma lost_of_app ps1 ps2 : lost_of (ps1 ++ ps2) = lost_of ps1 ++ lost_of ps2.
Proof using. induction ps1 as [|[] ps1 IH]; cbn; by rewrite ?IH. Qed.

Lemma lost_of_intact rs : lost_of (map Intact rs) = [].
Proof using. induction rs as [|rr rs IH]; [done|exact IH]. Qed.

(** A burst of up to 32 flipped bits in one record costs that record only,
    provided that no record starts inside of it. *)
Theorem burst_costs_one_record rs1 rr rs2 g seg_id r :
  Forall (valid crc32c) rs1 -> valid crc32c rr -> Forall (valid crc32c) rs2 ->
  Crc.burst_error (bytes_of crc32c rr) g ->
  barren_from 1 g (concat (map (bytes_of crc32c) rs2)) = true ->
  exists r', scan_segment crc32c (concat (map (bytes_of crc32c) rs1) ++ g ++ concat (map (bytes_of crc32c) rs2)) seg_id r = Ok r' /\
    records_ r' = records_ r ++ rs1 ++ rs2 /\
    records_corrupt_skipped (stats_ r') = records_corrupt_skipped (stats_ r) + 1 /\
    bytes_skipped (stats_ r') = bytes_skipped (stats_ r) + Z.of_nat (length g).
Proof using Hck.
  intros H1 Hv H2 Hb Hbar. set (ps := map Intact rs1 ++ Lost g :: map Intact rs2).
  pose proof (proj1 Hb) as Hlen. pose proof (length_bytes_of crc32c rr) as Hl.
  assert (pieces_ok ps) as Hok.
  { apply pieces_ok_intact; [done|]. split; [intros ->; cbn in Hlen; lia|]. rewrite segment_of_intact. split.
    - unfold barren, barren_from in *. destruct g as [|b g]; [cbn in Hlen; lia|]. rewrite Nat.sub_0_r. cbn [length seq forallb].
      cbn [length Nat.sub] in Hbar. rewrite Nat.sub_0_r in Hbar. rewrite Hbar, andb_true_r, drop_0.
      unfold starts_record. destruct (WalRecord.decode_record_total crc32c (Some ((b :: g) ++ concat (map (bytes_of crc32c) rs2))) WalRecord.RecordHeader_default)
        as (e & h & Hd). rewrite Hd. rewrite bool_decide_false; [done|].
      by apply (WalRecord.burst_not_record crc32c (header rr) (payload rr) (b :: g) (concat (map (bytes_of crc32c) rs2)) WalRecord.RecordHeader_default e h).
    - pose proof (pieces_ok_intact rs2 [] H2 Logic.I) as H. rewrite app_nil_r in H. by destruct rs2. }
  pose proof (scan_damaged ps seg_id r Hok) as E. exists (recover seg_id 0 ps r).
  assert (segment_of ps = concat (map (bytes_of crc32c) rs1) ++ g ++ concat (map (bytes_of crc32c) rs2)) as Eb.
  { unfold ps. rewrite segment_of_app, segment_of_intact. change (segment_of (Lost g :: ?l)) with (g ++ segment_of l).
    by rewrite segment_of_intact. }
  rewrite Eb in E. split; [exact E|]. rewrite recover_records, recover_stats by done. unfold ps. rewrite records_of_app, lost_of_app.
  cbn [records_of lost_of]. rewrite !records_of_intact, !lost_of_intact. cbn. rewrite app_nil_r. done.
Qed.

End Damage.
(** ** The properties at concrete inputs *)

Definition sample_junk : list byte := repeat (z2b 0xFF) 40.

Lemma scan_recovers_witness :
  exists r', scan_segment Crc.crc32c_portable
      (segment_of Crc.crc32c_portable [Intact sample; Lost sample_junk; Intact sample]) 1
      {| records_ := []; index_ := ReplayIndex.empty_index; stats_ := ReplayStats_default |} = Ok r' /\
    records_ r' = [sample; sample] /\ bytes_skipped (stats_ r') = 40.
Proof.
  destruct (scan_recovers Crc.crc32c_portable [Intact sample; Lost sample_junk; Intact sample] 1
    {| records_ := []; index_ := ReplayIndex.empty_index; stats_ := ReplayStats_default |}) as (H1 & H2 & H3).
  - split; [exact sample_valid|]. split; [discriminate|]. split; [vm_compute; reflexivity|]. split; [exact sample_valid|exact Logic.I].
  - eexists. split; [exact H1|]. split; [exact H2|]. rewrite H3. reflexivity.
Defined.

(** A record whose payload is the bytes of another one, and what is left of it
    when one bit of its first byte is flipped. *)
Definition outer : ReplayRecord :=
  {| header := WalRecord.encoded_header Crc.crc32c_portable 9 Frame.kGps 3 (bytes_of Crc.crc32c_portable sample);
     payload := bytes_of Crc.crc32c_portable sample |}.

Definition outer_damaged : list byte :=
  match bytes_of Crc.crc32c_portable outer with
  | b :: bs => z2b (b2z b ^^^ 1) :: bs
  | [] => []
  end.

(** The provision is necessary: one flipped bit in a record, and the scan
    replays a record that was never logged. *)
Lemma embedded_record_replayed :
  valid Crc.crc32c_portable outer /\ Crc.burst_error (bytes_of Crc.crc32c_portable outer) outer_damaged /\
  exists r', scan_segment Crc.crc32c_portable outer_damaged 1
      {| records_ := []; index_ := ReplayIndex.empty_index; stats_ := ReplayStats_default |} = Ok r' /\
    records_ r' = [sample] /\ sample <> outer.
Proof.
  split; [apply (WalRecord.record_encoded_header_valid Crc.crc32c_portable 9 Frame.kGps 3 (bytes_of Crc.crc32c_portable sample)); (done || (vm_compute; discriminate))|]. split.
  - assert (bytes_of Crc.crc32c_portable outer = [] ++ [z2b 70] ++ drop 1 (bytes_of Crc.crc32c_portable outer)) as ->
      by (vm_compute; reflexivity).
    assert (outer_damaged = [] ++ [z2b 71] ++ drop 1 (bytes_of Crc.crc32c_portable outer)) as -> by (vm_compute; reflexivity).
    apply Crc.burst_error_bytes; [reflexivity|cbn; lia|discriminate].
  - eexists. split; [vm_compute; reflexivity|]. split; [reflexivity|discriminate].
Qed.

End WalDamage.
