(* ===== verification/WalLog.v ===== *)
(** * Writer and reader together

    What was appended to a [WalWriter] is what a [WalReader] loads.  The log
    is described abstractly as the list of its segments, each the list of the
    items appended to it; [segments_dir] is the directory that holds it and
    [index_segments] its index. *)

From S2P Require Export WalWriter WalReader.

Module WalLog.
Import WalWriter.

(** The arguments of one [append]. *)
Record item := mkItem {
  it_timestamp : Z;
  it_type : WalRecord.SensorType;
  it_sequence : Z;
  it_payload : list byte
}.

Record item_ok (it : item) : Prop := {
  io_timestamp : is_uint 64 it.(it_timestamp);
  io_type : is_uint 16 it.(it_type);
  io_sequence : is_uint 64 it.(it_sequence);
  io_payload : Z.of_nat (length it.(it_payload)) <= WalRecord.kMaxRecordPayload
}.

Section Log.
Context (crc32c : list byte -> Z).

(** The record an item becomes. *)
Definition record_of (it : item) : WalReader.ReplayRecord :=
  {| WalReader.header :=
       WalRecord.encoded_header crc32c it.(it_timestamp) it.(it_type) it.(it_sequence) it.(it_payload);
     WalReader.payload := it.(it_payload) |}.

Definition item_bytes (it : item) : list byte := WalReader.bytes_of crc32c (record_of it).

Definition segment_bytes (its : list item) : list byte := concat (map item_bytes its).

(** The directory with segments [id], [id + 1], ... *)
Fixpoint segments_dir (id : Z) (segs : list (list item)) : directory :=
  match segs with
  | [] => ∅
  | its :: segs => <[Segment.segment_filename id := segment_bytes its]> (segments_dir (id + 1) segs)
  end.

Fixpoint index_items (id off : Z) (its : list item) (ix : ReplayIndex.ReplayIndex) :
    ReplayIndex.ReplayIndex :=
  match its with
  | [] => ix
  | it :: its =>
    index_items id (off + Z.of_nat (length (item_bytes it))) its
      (ReplayIndex.add it.(it_timestamp) id off (Z.of_nat (length (item_bytes it))) ix)
  end.

Fixpoint index_segments (id : Z) (segs : list (list item)) (ix : ReplayIndex.ReplayIndex) :
    ReplayIndex.ReplayIndex :=
  match segs with
  | [] => ix
  | its :: segs => index_segments (id + 1) segs (index_items id 0 its ix)
  end.

(** The size limit, which a single record may exceed. *)
Definition fits (limit : Z) (its : list item) : Prop :=
  (length its <= 1)%nat \/ Z.of_nat (length (segment_bytes its)) <= limit.

(** The calls of a client: construct, append everything, close. *)
Fixpoint append_all (d : directory) (w : WalWriter) (items : list item) :
    directory * WalWriter * list bool :=
  match items with
  | [] => (d, w, [])
  | it :: items =>
    let '(d, w, ok) :=
      append crc32c io_ok d w it.(it_timestamp) it.(it_type) it.(it_sequence) it.(it_payload) in
    let '(d, w, oks) := append_all d w items in
    (d, w, ok :: oks)
  end.

Definition write_log (segment_bytes : Z) (items : list item) :
    outcome (directory * WalWriter * list bool) :=
  dw ← construct true io_ok ∅ segment_bytes;
  let '(d, w) := (dw : directory * WalWriter) in
  let '(d, w, oks) := append_all d w items in
  Ok (d, close w, oks).

(** ** Lemmas on the abstract log *)

Lemma item_bytes_encode it :
  item_ok it ->
  item_bytes it = WalRecord.encode_record crc32c it.(it_timestamp) it.(it_type) it.(it_sequence) it.(it_payload).
Proof using.
  intros []. symmetry. apply WalRecord.encode_record_eq.
  unfold WalRecord.kMaxRecordPayload, WalRecord.kRecordOverhead, WalRecord.kRecordHeaderSize,
    WalRecord.kRecordTrailerSize in *. lia.
Qed.

Lemma length_item_bytes it : length (item_bytes it) = (34 + length it.(it_payload))%nat.
Proof using. apply WalReader.length_bytes_of. Qed.

Lemma segment_bytes_snoc its it :
  segment_bytes (its ++ [it]) = segment_bytes its ++ item_bytes it.
Proof using. unfold segment_bytes. rewrite map_app, concat_app. cbn. by rewrite app_nil_r. Qed.

Lemma segment_bytes_nonempty its : its <> [] -> (0 < length (segment_bytes its))%nat.
Proof using.
  destruct its as [|it its]; [done|]. intros _. unfold segment_bytes. cbn [map concat].
  rewrite length_app, length_item_bytes. lia.
Qed.

Lemma index_items_snoc id off its it ix :
  index_items id off (its ++ [it]) ix =
  ReplayIndex.add it.(it_timestamp) id (off + Z.of_nat (length (segment_bytes its)))
    (Z.of_nat (length (item_bytes it))) (index_items id off its ix).
Proof using.
  revert off ix. induction its as [|it' its IH]; intros off ix; cbn [app index_items].
  - by rewrite Z.add_0_r.
  - rewrite IH. f_equal. unfold segment_bytes. cbn [map concat]. rewrite length_app. lia.
Qed.

Lemma index_segments_snoc id segs its ix :
  index_segments id (segs ++ [its]) ix =
  index_items (id + Z.of_nat (length segs)) 0 its (index_segments id segs ix).
Proof using.
  revert id ix. induction segs as [|s segs IH]; intros id ix; cbn [app index_segments length].
  - by rewrite Z.add_0_r.
  - rewrite IH. f_equal. lia.
Qed.

Lemma filename_ne id id' :
  is_uint 32 id -> is_uint 32 id' -> id <> id' ->
  Segment.segment_filename id <> Segment.segment_filename id'.
Proof using.
  intros H H' Hne E. apply Hne.
  by rewrite <- (Segment.segment_id_filename id), E, Segment.segment_id_filename.
Qed.

Lemma segments_dir_snoc id segs its :
  0 <= id -> id + Z.of_nat (length segs) < 2 ^ 32 ->
  segments_dir id (segs ++ [its]) =
  <[Segment.segment_filename (id + Z.of_nat (length segs)) := segment_bytes its]> (segments_dir id segs).
Proof using.
  revert id. induction segs as [|s segs IH]; intros id Hid Hl; cbn [app segments_dir length] in *.
  - by rewrite Z.add_0_r.
  - rewrite IH by lia. replace (id + 1 + Z.of_nat (length segs)) with (id + Z.of_nat (S (length segs))) by lia.
    apply insert_insert_ne. apply filename_ne; unfold is_uint; lia.
Qed.

(** Segments before [id] are not in the directory. *)
Lemma segments_dir_None id segs id' :
  0 <= id' < id -> id + Z.of_nat (length segs) <= 2 ^ 32 ->
  segments_dir id segs !! Segment.segment_filename id' = None.
Proof using.
  revert id. induction segs as [|s segs IH]; intros id Hid Hl; cbn [segments_dir length] in *.
  - apply lookup_empty.
  - rewrite lookup_insert_ne; [apply IH; lia|]. apply filename_ne; unfold is_uint; lia.
Qed.

(** ** The writer builds the abstract log *)

(** The state of a writer that has closed the segments [init] and is writing
    [cur]. *)
Record log_inv (limit : Z) (init : list (list item)) (cur : list item) (d : directory)
    (w : WalWriter) : Prop := {
  li_dir : d = segments_dir 1 (init ++ [cur]);
  li_writer : w =
    {| segment_bytes_ := limit;
       out_ := {| file := Some (Segment.segment_filename (1 + Z.of_nat (length init))); good := true |};
       current_segment_id_ := 1 + Z.of_nat (length init);
       current_segment_offset_ := Z.of_nat (length (segment_bytes cur));
       records_written_ := Z.of_nat (length (concat (init ++ [cur])));
       index_ := index_segments 1 (init ++ [cur]) ReplayIndex.empty_index |};
  li_items : Forall item_ok cur;
  li_fits : Forall (fits limit) (init ++ [cur])
}.

Lemma length_item_ok it : item_ok it -> Z.of_nat (length (item_bytes it)) <= WalRecord.kMaxRecordLength.
Proof using.
  intros []. rewrite length_item_bytes. unfold WalRecord.kMaxRecordLength,
    WalRecord.kMaxRecordPayload, WalRecord.kRecordOverhead, WalRecord.kRecordHeaderSize,
    WalRecord.kRecordTrailerSize in *. lia.
Qed.

Lemma fits_bound limit its :
  Forall item_ok its -> fits limit its ->
  Z.of_nat (length (segment_bytes its)) <= Z.max limit WalRecord.kMaxRecordLength.
Proof using.
  intros Hits [H|H]; [|lia]. destruct its as [|it [|]]; cbn in H; [|clear H|lia].
  - assert (0 <= WalRecord.kMaxRecordLength) by done. change (segment_bytes []) with ([] : list byte).
    cbn [length]. lia.
  - unfold segment_bytes. cbn [map concat]. rewrite app_nil_r.
    inversion_clear Hits. pose proof (length_item_ok it ltac:(done)). lia.
Qed.

(** The content of the segment being written. *)
Lemma segments_dir_current init cur :
  1 + Z.of_nat (length init) < 2 ^ 32 ->
  segments_dir 1 (init ++ [cur]) !! Segment.segment_filename (1 + Z.of_nat (length init)) =
  Some (segment_bytes cur).
Proof using. intros H. rewrite segments_dir_snoc by lia. apply lookup_insert_eq. Qed.

Lemma open_new_segment_inv limit init cur d w :
  log_inv limit init cur d w -> 2 + Z.of_nat (length init) < 2 ^ 32 ->
  exists d' w', open_new_segment io_ok d w = (d', w') /\ log_inv limit (init ++ [cur]) [] d' w'.
Proof using.
  intros [-> -> Hits Hfits] Hid. unfold open_new_segment, open_trunc.
  cbn [current_segment_id_ open_ok io_ok].
  assert (u32 (1 + Z.of_nat (length init) + 1) = 1 + Z.of_nat (length (init ++ [cur]))) as ->.
  { rewrite length_app, wrap_small by (unfold is_uint; lia). cbn. lia. }
  eexists _, _. split; [done|]. constructor.
  - rewrite (segments_dir_snoc 1 (init ++ [cur]) []) by (rewrite ?length_app; cbn; lia). done.
  - cbn [segment_bytes_ records_written_ index_]. rewrite (index_segments_snoc 1 (init ++ [cur])).
    cbn [index_items]. f_equal. rewrite (concat_app (init ++ [cur])). cbn. by rewrite app_nil_r.
  - constructor.
  - apply Forall_app. split; [done|]. constructor; [|constructor]. left. cbn. lia.
Qed.

(** The end of [append]: the record goes to the current segment. *)
Lemma append_current_inv limit init cur d w it :
  log_inv limit init cur d w -> item_ok it ->
  limit <= 2 ^ 63 -> 2 + Z.of_nat (length (concat (init ++ [cur]))) < 2 ^ 32 ->
  1 + Z.of_nat (length init) < 2 ^ 32 -> fits limit (cur ++ [it]) ->
  exists d' w',
    append_current io_ok d w it.(it_timestamp) (item_bytes it) = (d', w', true) /\
    log_inv limit init (cur ++ [it]) d' w'.
Proof using.
  intros [-> -> Hits Hfits] Hit Hlim Hn Hid Hfit. unfold append_current, write.
  cbn [is_open out_ file good write_ok io_ok segment_bytes_ current_segment_id_
       current_segment_offset_ records_written_ index_ negb].
  rewrite segments_dir_current by done. cbn [default].
  pose proof (length_item_ok it Hit) as Hlen.
  apply Forall_app in Hfits as [Hf Hc]. inversion_clear Hc as [|? ? Hcur _].
  apply fits_bound in Hcur; [|done]. change WalRecord.kMaxRecordLength with 4194338 in *.
  rewrite !wrap_small by (unfold is_uint; lia).
  eexists _, _. split; [reflexivity|]. constructor.
  - rewrite !segments_dir_snoc, insert_insert_eq, segment_bytes_snoc by lia. done.
  - rewrite !index_segments_snoc, index_items_snoc, segment_bytes_snoc, length_app, !concat_app.
    cbn [concat]. rewrite !app_nil_r, !length_app. cbn [length]. f_equal; lia.
  - apply Forall_app. split; [done|]. by apply Forall_singleton.
  - apply Forall_app. split; [done|]. by apply Forall_singleton.
Qed.

Lemma length_init init (cur : list item) :
  Forall (fun its => its <> []) init -> (length init <= length (concat (init ++ [cur])))%nat.
Proof using.
  intros Hne. rewrite concat_app, length_app.
  induction Hne as [|s l Hs _ IH]; [cbn; lia|].
  cbn [concat length] in *. rewrite !length_app in *. destruct s; [done|]. cbn [length] in *. lia.
Qed.

Lemma concat_snoc_item init (cur : list item) it :
  concat (init ++ [cur ++ [it]]) = concat (init ++ [cur]) ++ [it].
Proof using. rewrite !concat_app. cbn. by rewrite !app_nil_r, app_assoc. Qed.

Lemma append_inv limit init cur d w it :
  log_inv limit init cur d w -> item_ok it ->
  0 <= limit <= 2 ^ 63 -> 2 + Z.of_nat (length (concat (init ++ [cur]))) < 2 ^ 32 ->
  Forall (fun its => its <> []) init ->
  exists d' w' init' cur',
    append crc32c io_ok d w it.(it_timestamp) it.(it_type) it.(it_sequence) it.(it_payload) =
      (d', w', true) /\
    log_inv limit init' cur' d' w' /\
    concat (init' ++ [cur']) = concat (init ++ [cur]) ++ [it] /\
    Forall (fun its => its <> []) init'.
Proof using.
  intros Hinv Hit Hlim Hn Hne. pose proof Hit as [_ _ _ Hpay]. pose proof Hinv as [_ Hw Hits Hfits].
  pose proof (length_init init cur Hne) as Hinit.
  unfold append. rewrite (proj2 (Z.ltb_ge _ _) Hpay), <- item_bytes_encode by done.
  apply Forall_app in Hfits as [_ Hc]. inversion_clear Hc as [|? ? Hcur _].
  apply fits_bound in Hcur; [|done].
  pose proof (length_item_ok it Hit) as Hlen. change WalRecord.kMaxRecordLength with 4194338 in *.
  replace (current_segment_offset_ w) with (Z.of_nat (length (segment_bytes cur))) by by rewrite Hw.
  replace (segment_bytes_ w) with limit by by rewrite Hw.
  rewrite wrap_small by (unfold is_uint; lia).
  destruct ((0 <? _) && (limit <? _)) eqn:Eroll.
  - bool_to_prop. destruct (open_new_segment_inv limit init cur d w Hinv) as (d1 & w1 & -> & Hinv1); [lia|].
    assert (concat ((init ++ [cur]) ++ [[]]) = concat (init ++ [cur])) as Hc.
    { rewrite (concat_app (init ++ [cur])). cbn. by rewrite app_nil_r. }
    destruct (append_current_inv limit (init ++ [cur]) [] d1 w1 it Hinv1 Hit) as (d' & w' & Ha & Hinv');
      [lia|rewrite Hc; lia|rewrite length_app; cbn; lia|left; cbn; lia|].
    exists d', w', (init ++ [cur]), ([] ++ [it]). split; [done|]. split; [done|].
    split; [by rewrite (concat_snoc_item (init ++ [cur]) []), Hc|].
    apply Forall_app. split; [done|]. apply Forall_singleton. by intros ->.
  - destruct (append_current_inv limit init cur d w it Hinv Hit) as (d' & w' & Ha & Hinv');
      [lia|lia|lia| |].
    { unfold fits. apply andb_false_iff in Eroll as [Eroll|Eroll]; bool_to_prop.
      - left. destruct cur as [|it0 cur]; [cbn; lia|].
        pose proof (segment_bytes_nonempty (it0 :: cur) ltac:(done)). lia.
      - right. rewrite segment_bytes_snoc, length_app. lia. }
    exists d', w', init, (cur ++ [it]). split; [done|]. split; [done|].
    split; [apply concat_snoc_item|done].
Qed.

Lemma append_all_inv limit items init cur d w :
  log_inv limit init cur d w -> Forall item_ok items -> 0 <= limit <= 2 ^ 63 ->
  2 + Z.of_nat (length (concat (init ++ [cur])) + length items) < 2 ^ 32 ->
  Forall (fun its => its <> []) init ->
  exists d' w' init' cur',
    append_all d w items = (d', w', repeat true (length items)) /\
    log_inv limit init' cur' d' w' /\
    concat (init' ++ [cur']) = concat (init ++ [cur]) ++ items /\
    Forall (fun its => its <> []) init'.
Proof using.
  revert init cur d w. induction items as [|it items IH]; intros init cur d w Hinv Hits Hlim Hn Hne.
  - exists d, w, init, cur. rewrite app_nil_r. done.
  - inversion_clear Hits as [|? ? Hit Hrest]. cbn [length] in Hn.
    destruct (append_inv limit init cur d w it Hinv Hit) as (d1 & w1 & i1 & c1 & E1 & H1 & Hc1 & Hne1);
      [done|lia|done|].
    destruct (IH i1 c1 d1 w1 H1 Hrest) as (d2 & w2 & i2 & c2 & E2 & H2 & Hc2 & Hne2);
      [done|rewrite Hc1, length_app; cbn [length]; lia|done|].
    exists d2, w2, i2, c2. cbn [append_all]. rewrite E1, E2. split; [done|]. split; [done|].
    split; [|done]. by rewrite Hc2, Hc1, <- app_assoc.
Qed.

(** The limit the constructor uses. *)
Definition limit_of (segment_bytes : Z) : Z :=
  if segment_bytes =? 0 then Segment.kDefaultSegmentBytes else segment_bytes.

Lemma write_log_inv bytes items :
  Forall item_ok items -> 0 <= bytes <= 2 ^ 63 -> 2 + Z.of_nat (length items) < 2 ^ 32 ->
  exists d w init cur,
    write_log bytes items = Ok (d, close w, repeat true (length items)) /\
    log_inv (limit_of bytes) init cur d w /\ concat (init ++ [cur]) = items /\
    Forall (fun its => its <> []) init.
Proof using.
  intros Hits Hb Hn. unfold write_log, construct. cbn [negb mbind outcome_bind].
  set (p := open_new_segment _ _ _).
  assert (log_inv (limit_of bytes) [] [] p.1 p.2) as H0.
  { constructor; [done|done|constructor|]. apply Forall_singleton. left. cbn. lia. }
  destruct p as [d0 w0]. cbn [fst snd] in H0.
  destruct (append_all_inv (limit_of bytes) items [] [] d0 w0 H0 Hits) as (d & w & i & c & E & H & Hc & Hne);
    [unfold limit_of, Segment.kDefaultSegmentBytes; case_test; lia|cbn; lia|constructor|].
  exists d, w, i, c. by rewrite E.
Qed.

(** ** The reader finds the abstract log *)

(** The sorted listing of segments [id], [id + 1], ... *)
Fixpoint numbered (id : Z) (segs : list (list item)) : list (Z * string) :=
  match segs with
  | [] => []
  | _ :: segs => (id, Segment.segment_filename id) :: numbered (id + 1) segs
  end.

Lemma segments_dir_keys id segs :
  0 <= id -> id + Z.of_nat (length segs) <= 2 ^ 32 ->
  (map_to_list (segments_dir id segs)).*1 ≡ₚ (numbered id segs).*2.
Proof using.
  revert id. induction segs as [|s segs IH]; intros id Hid Hl; cbn [segments_dir numbered length] in *.
  - by rewrite map_to_list_empty.
  - rewrite map_to_list_insert by (apply segments_dir_None; lia). cbn [fmap list_fmap fst snd].
    rewrite IH by lia. done.
Qed.

Lemma numbered_ge id segs : Forall (fun p => id <= p.1) (numbered id segs).
Proof using.
  revert id. induction segs as [|s segs IH]; intros id; cbn [numbered]; constructor; [cbn; lia|].
  eapply Forall_impl; [apply IH|]. cbn. lia.
Qed.

Lemma numbered_sorted id segs : StronglySorted (not_after WalReader.segment_lt) (numbered id segs).
Proof using.
  revert id. induction segs as [|s segs IH]; intros id; cbn [numbered]; constructor; [apply IH|].
  eapply Forall_impl; [apply (numbered_ge (id + 1))|]. intros [i n]. cbn [fst]. intros Hi.
  unfold not_after, WalReader.segment_lt. cbn [fst snd].
  rewrite (proj2 (Z.ltb_ge _ _)), (proj2 (Z.eqb_neq _ _)) by lia. done.
Qed.

#[global] Instance segment_lt_swo : StrictWeakOrder WalReader.segment_lt.
Proof using.
  unfold WalReader.segment_lt. constructor; unfold not_after.
  - intros [i a] [j b]; cbn [fst snd].
    rewrite orb_true_iff, orb_false_iff, andb_true_iff, andb_false_iff, Z.ltb_lt, Z.ltb_ge, Z.eqb_eq, Z.eqb_neq.
    intros [H|[H1 H2]]; [split; [lia|left; lia]|]. split; [lia|]. right. by apply string_lt_asym.
  - intros [i a] [j b] [k c]; cbn [fst snd].
    rewrite !orb_false_iff, !andb_false_iff, !Z.ltb_ge, !Z.eqb_neq.
    intros [H1 H2] [H3 H4]. split; [lia|].
    destruct (decide (k = i)) as [->|]; [right|by left].
    destruct H2 as [|H2]; [lia|]. destruct H4 as [|H4]; [lia|]. by apply (string_not_lt_trans a b c).
Qed.

(** Sorting any arrangement of a sorted list gives that list. *)
Lemma segments_sort_unique l s :
  l ≡ₚ s -> StronglySorted (not_after WalReader.segment_lt) s ->
  stable_sort WalReader.segment_lt l = s.
Proof using.
  intros Hp Hs. apply (StronglySorted_unique_strong (not_after WalReader.segment_lt)).
  - unfold not_after, WalReader.segment_lt. intros [i a] [j b] _ _; cbn [fst snd].
    rewrite !orb_false_iff, !andb_false_iff, !Z.ltb_ge, !Z.eqb_neq. intros [H1 H2] [H3 H4].
    assert (i = j) as <- by lia. f_equal.
    destruct H2 as [|H2]; [lia|]. destruct H4 as [|H4]; [lia|]. by apply string_lt_total.
  - apply stable_sort_sorted, _.
  - done.
  - by rewrite stable_sort_perm.
Qed.

Lemma omap_numbered id segs :
  1 <= id -> id + Z.of_nat (length segs) <= 2 ^ 32 ->
  omap (fun name =>
          if negb true then None
          else
            let id := Segment.segment_id_from_filename name in
            if negb (id =? 0) then Some (id, name) else None)
    (numbered id segs).*2 = numbered id segs.
Proof using.
  revert id. induction segs as [|s segs IH]; intros id Hid Hl; [done|].
  cbn [numbered fmap list_fmap fst snd omap list_omap length] in *.
  rewrite Segment.segment_id_filename by (unfold is_uint; lia).
  rewrite (proj2 (Z.eqb_neq _ _)) by lia. cbn [negb]. f_equal. apply IH; lia.
Qed.

Lemma list_segments_dir segs listing :
  Z.of_nat (length segs) < 2 ^ 32 ->
  listing ≡ₚ (map_to_list (segments_dir 1 segs)).*1 ->
  WalReader.list_segments (fun _ => true) listing = numbered 1 segs.
Proof using.
  intros Hl Hp. unfold WalReader.list_segments.
  apply segments_sort_unique; [|apply numbered_sorted].
  rewrite Hp, segments_dir_keys, omap_numbered by lia. done.
Qed.

(** What the reader holds after the log. *)
Definition read_segments (id : Z) (segs : list (list item)) (r : WalReader.WalReader) :
    WalReader.WalReader :=
  {| WalReader.records_ := WalReader.records_ r ++ map record_of (concat segs);
     WalReader.index_ := index_segments id segs (WalReader.index_ r);
     WalReader.stats_ :=
       let s := WalReader.stats_ r in
       {| WalReader.records_ok := WalReader.records_ok s + Z.of_nat (length (concat segs));
          WalReader.records_corrupt_skipped := WalReader.records_corrupt_skipped s;
          WalReader.bytes_skipped := WalReader.bytes_skipped s;
          WalReader.segments_read := WalReader.segments_read s + Z.of_nat (length segs) |} |}.

Lemma add_records_items id off its r :
  Forall item_ok its ->
  WalReader.add_records crc32c id off (map record_of its) r =
  {| WalReader.records_ := WalReader.records_ r ++ map record_of its;
     WalReader.index_ := index_items id off its (WalReader.index_ r);
     WalReader.stats_ :=
       WalReader.stats_ (WalReader.add_records crc32c id off (map record_of its) r) |}.
Proof using.
  intros Hits. revert off r. induction Hits as [|it its Hit _ IH]; intros off r;
    cbn [map WalReader.add_records index_items].
  - rewrite app_nil_r. by destruct r.
  - rewrite IH. cbn [WalReader.records_ WalReader.index_ WalReader.stats_]. rewrite <- app_assoc. f_equal.
    f_equal. f_equal. unfold record_of at 1. cbn [WalReader.header WalRecord.encoded_header WalRecord.record_length].
    rewrite length_item_bytes. unfold WalRecord.kRecordOverhead, WalRecord.kRecordHeaderSize, WalRecord.kRecordTrailerSize.
    lia.
Qed.

Context {Hck : Crc.Checksum crc32c}.

Lemma record_of_valid its : Forall item_ok its -> Forall (WalReader.valid crc32c) (map record_of its).
Proof using Hck.
  intros H. apply Forall_map. eapply Forall_impl; [exact H|]. intros it [].
  by apply WalRecord.record_encoded_header_valid.
Qed.

Lemma scan_segment_items id its r :
  Forall item_ok its ->
  WalReader.scan_segment crc32c (segment_bytes its) id r =
  Ok (WalReader.add_records crc32c id 0 (map record_of its) r).
Proof using Hck.
  intros H. rewrite <- (WalReader.scan_segment_clean crc32c (map record_of its)) by by apply record_of_valid.
  unfold segment_bytes. by rewrite map_map.
Qed.

Lemma load_segments_log d id segs r :
  Forall (Forall item_ok) segs ->
  (forall i its, segs !! i = Some its ->
     d !! Segment.segment_filename (id + Z.of_nat i) = Some (segment_bytes its)) ->
  WalReader.load_segments crc32c (fun _ => true) d (numbered id segs) r = Ok (read_segments id segs r).
Proof using Hck.
  intros Hits. revert id r. induction Hits as [|its segs Hi _ IH]; intros id r Hd;
    cbn [numbered WalReader.load_segments].
  - unfold read_segments. cbn. rewrite app_nil_r, !Z.add_0_r. by destruct r as [? ? []].
  - pose proof (Hd 0%nat its eq_refl) as H0. rewrite Z.add_0_r in H0. rewrite H0. cbn [negb].
    assert ((if (length (segment_bytes its) =? 0)%nat
             then WalReader.load_segments crc32c (fun _ => true) d (numbered (id + 1) segs) (WalReader.add_segment r)
             else
               r ← WalReader.scan_segment crc32c (segment_bytes its) id (WalReader.add_segment r);
               WalReader.load_segments crc32c (fun _ => true) d (numbered (id + 1) segs) r) =
            WalReader.load_segments crc32c (fun _ => true) d (numbered (id + 1) segs)
              (WalReader.add_records crc32c id 0 (map record_of its) (WalReader.add_segment r))) as ->.
    { rewrite scan_segment_items by done. case_test; [|done]. bool_to_prop.
      destruct its as [|it its]; [done|]. pose proof (segment_bytes_nonempty (it :: its) ltac:(done)). lia. }
    rewrite IH.
    + unfold read_segments. rewrite add_records_items, WalReader.add_records_stats by done.
      cbn [WalReader.records_ WalReader.index_ WalReader.stats_ WalReader.add_segment
           WalReader.count_segment WalReader.records_ok WalReader.records_corrupt_skipped
           WalReader.bytes_skipped WalReader.segments_read index_segments concat length].
      rewrite map_app, length_app, length_map, <- app_assoc. do 3 f_equal; lia.
    + intros i its' Hi'. rewrite <- (Hd (S i) its' Hi'). f_equal. f_equal. lia.
Qed.

Lemma segments_dir_lookup id segs i its :
  0 <= id -> id + Z.of_nat (length segs) <= 2 ^ 32 -> segs !! i = Some its ->
  segments_dir id segs !! Segment.segment_filename (id + Z.of_nat i) = Some (segment_bytes its).
Proof using.
  revert id i. induction segs as [|s segs IH]; intros id i Hid Hl Hi; [done|].
  pose proof (lookup_lt_Some _ _ _ Hi) as Hlt.
  cbn [segments_dir length] in *. destruct i as [|i].
  - injection Hi as ->. rewrite Z.add_0_r. apply lookup_insert_eq.
  - rewrite lookup_insert_ne by (apply filename_ne; unfold is_uint; lia).
    replace (id + Z.of_nat (S i)) with (id + 1 + Z.of_nat i) by lia. apply IH; [lia|lia|done].
Qed.

(** The order of a log: by time, then by sequence number. *)
Definition in_log_order (a b : WalReader.ReplayRecord) : bool :=
  let ha := WalReader.header a in
  let hb := WalReader.header b in
  (WalRecord.timestamp_ns ha <? WalRecord.timestamp_ns hb) ||
  ((WalRecord.timestamp_ns ha =? WalRecord.timestamp_ns hb) &&
   (WalRecord.sequence ha <? WalRecord.sequence hb)).

Lemma in_log_order_eq a b : in_log_order a b = WalReader.record_lt a b.
Proof.
  unfold in_log_order, WalReader.record_lt.
  destruct (Z.eqb_spec (WalRecord.timestamp_ns (WalReader.header a))
                       (WalRecord.timestamp_ns (WalReader.header b))) as [E|]; cbn [negb andb].
  - by rewrite E, Z.ltb_irrefl.
  - by rewrite orb_false_r.
Qed.

(** A directory that holds a log is loaded, in whatever order it is listed. *)
Lemma load_log limit init cur d w items :
  log_inv limit init cur d w -> concat (init ++ [cur]) = items -> Forall (fun its => its <> []) init ->
  Forall item_ok items -> 2 + Z.of_nat (length items) < 2 ^ 32 ->
  forall listing, listing ≡ₚ (map_to_list d).*1 ->
    WalReader.load crc32c (fun _ => true) (fun _ => true) (Some (d, listing)) =
    Ok {| WalReader.records_ := stable_sort in_log_order (map record_of items);
          WalReader.index_ := ReplayIndex.finalize (index_ w);
          WalReader.stats_ :=
            {| WalReader.records_ok := Z.of_nat (length items);
               WalReader.records_corrupt_skipped := 0; WalReader.bytes_skipped := 0;
               WalReader.segments_read := Z.of_nat (length (init ++ [cur])) |} |}.
Proof using Hck.
  intros [Hd Hw Hcur Hfits] Hc Hne Hits Hn listing Hp.
  pose proof (length_init init cur Hne) as Hinit. rewrite Hc in Hinit.
  assert (Z.of_nat (length (init ++ [cur])) + 1 < 2 ^ 32) as Hl by (rewrite length_app; cbn [length]; lia).
  unfold WalReader.load. rewrite Hd in Hp. rewrite (stable_sort_ext _ _ _ in_log_order_eq).
  rewrite (list_segments_dir (init ++ [cur])) by (done || lia).
  rewrite load_segments_log.
  - cbn [mbind outcome_bind read_segments WalReader.records_ WalReader.index_ WalReader.stats_].
    rewrite Hc. subst w. done.
  - rewrite <- Hc in Hits. clear -Hits. induction (init ++ [cur]) as [|s l IH]; [done|].
    cbn [concat] in Hits. apply Forall_app in Hits as [H1 H2]. constructor; [done|by apply IH].
  - intros i its Hi. rewrite Hd. apply segments_dir_lookup; [lia|lia|done].
Qed.

(** C5: the log as a whole.  On an empty directory and without I/O errors,
    every append of a legal record succeeds, the files are the segments of the
    log, each within the size limit unless it holds a single record, and a
    reader then finds, in whatever order the directory is listed, exactly the
    records that were appended, ordered by time and sequence (in the order of
    their appends where both agree), counts no damage, and has rebuilt the
    writer's index. *)
Theorem write_log_then_load bytes items :
  Forall item_ok items -> 0 <= bytes <= 2 ^ 63 -> 2 + Z.of_nat (length items) < 2 ^ 32 ->
  exists d w segs,
    write_log bytes items = Ok (d, w, repeat true (length items)) /\
    concat segs = items /\ d = segments_dir 1 segs /\ Forall (fits (limit_of bytes)) segs /\
    forall listing, listing ≡ₚ (map_to_list d).*1 ->
      WalReader.load crc32c (fun _ => true) (fun _ => true) (Some (d, listing)) =
      Ok {| WalReader.records_ := stable_sort in_log_order (map record_of items);
            WalReader.index_ := ReplayIndex.finalize (index_ w);
            WalReader.stats_ :=
              {| WalReader.records_ok := Z.of_nat (length items);
                 WalReader.records_corrupt_skipped := 0; WalReader.bytes_skipped := 0;
                 WalReader.segments_read := Z.of_nat (length segs) |} |}.
Proof using Hck.
  intros Hits Hb Hn.
  destruct (write_log_inv bytes items Hits Hb Hn) as (d & w & init & cur & E & Hinv & Hc & Hne).
  exists d, (close w), (init ++ [cur]). split; [done|]. split; [done|]. split; [apply Hinv|]. split; [apply Hinv|].
  intros listing Hp. rewrite (load_log _ init cur d w items Hinv Hc Hne Hits Hn listing Hp). unfold close. by case_test.
Qed.

End Log.

(** ** The index under I/O errors *)

Section Faulty.
Context (crc32c : list byte -> Z).

(** The bytes of [e] on disk are the record the entry stands for. *)
Definition entry_ok (d : directory) (current : Z) (e : ReplayIndex.IndexEntry) : Prop :=
  1 <= ReplayIndex.segment_id e <= current /\
  exists content t s p,
    d !! Segment.segment_filename (ReplayIndex.segment_id e) = Some content /\
    Z.of_nat (length p) <= WalRecord.kMaxRecordPayload /\
    let rec := WalRecord.encode_record crc32c (ReplayIndex.timestamp_ns e) t s p in
    ReplayIndex.record_length e = Z.of_nat (length rec) /\
    0 <= ReplayIndex.offset e <= Z.of_nat (length content) - Z.of_nat (length rec) /\
    slice (Z.to_nat (ReplayIndex.offset e)) (length rec) content = rec.

Record disk_inv (limit : Z) (d : directory) (w : WalWriter) : Prop := {
  di_id : 0 <= w.(current_segment_id_) < 2 ^ 32;
  di_limit : w.(segment_bytes_) = limit;
  di_offset : 0 <= w.(current_segment_offset_) <= Z.max limit WalRecord.kMaxRecordLength;
  di_entries : Forall (entry_ok d w.(current_segment_id_)) (ReplayIndex.entries_ (index_ w));
  di_file : forall f, w.(out_).(file) = Some f ->
    f = Segment.segment_filename w.(current_segment_id_) /\ 1 <= w.(current_segment_id_) /\
    (w.(out_).(good) = true ->
     exists content, d !! f = Some content /\
                     w.(current_segment_offset_) = Z.of_nat (length content))
}.

(** Other files, and the beginning of the current one, may not change. *)
Lemma entry_ok_extend d d' current current' e :
  entry_ok d current e -> current <= current' -> 
  (forall id content, 1 <= id <= current -> d !! Segment.segment_filename id = Some content ->
     exists more, d' !! Segment.segment_filename id = Some (content ++ more)) ->
  entry_ok d' current' e.
Proof using.
  intros (Hid & content & t & s & p & Hd & Hp & Hlen & Hoff & Hs) Hc Hd'.
  destruct (Hd' _ _ Hid Hd) as [more Hm]. split; [lia|]. exists (content ++ more), t, s, p.
  split; [done|]. split; [done|]. cbn zeta. split; [done|]. rewrite length_app. split; [lia|].
  rewrite <- Hs at 2. unfold slice. rewrite drop_app_le, take_app_le by (rewrite ?length_drop; lia).
  done.
Qed.

Lemma open_new_segment_disk limit env d w :
  disk_inv limit d w -> current_segment_id_ w + 1 < 2 ^ 32 ->
  exists d' w', open_new_segment env d w = (d', w') /\ disk_inv limit d' w' /\
    index_ w' = index_ w /\ current_segment_id_ w' = current_segment_id_ w + 1 /\
    current_segment_offset_ w' = 0.
Proof using.
  intros [Hid Hlim Hoff He Hf] Hn. unfold open_new_segment, open_trunc.
  rewrite wrap_small by (unfold is_uint; lia).
  assert (forall d', (forall id, 1 <= id <= current_segment_id_ w ->
    d' !! Segment.segment_filename id = d !! Segment.segment_filename id) ->
    Forall (entry_ok d' (current_segment_id_ w + 1)) (ReplayIndex.entries_ (index_ w))) as Hent.
  { intros d' Hd'. eapply Forall_impl; [exact He|]. intros e Hok.
    eapply entry_ok_extend; [exact Hok|lia|]. intros id content Hi Hc. exists [].
    by rewrite app_nil_r, Hd'. }
  destruct (open_ok env); eexists _, _; (split; [done|]); (split; [|done]).
  - constructor; cbn; try lia; try done.
    + apply Hent. intros id Hi. apply lookup_insert_ne. apply filename_ne; unfold is_uint; lia.
    + intros f [= <-]. split; [done|]. split; [lia|]. intros _. exists []. by rewrite lookup_insert_eq.
  - constructor; cbn; try lia; try done. by apply Hent.
Qed.

(** Bytes added to the current file leave the entries in place. *)
Lemma entries_ok_more d d' id content more es :
  0 <= id < 2 ^ 32 -> Forall (entry_ok d id) es ->
  d !! Segment.segment_filename id = Some content ->
  d' = <[Segment.segment_filename id := content ++ more]> d -> Forall (entry_ok d' id) es.
Proof using.
  intros Hid He Hc ->. eapply Forall_impl; [exact He|]. intros e Hok.
  eapply entry_ok_extend; [exact Hok|lia|]. intros id' c Hi Hd.
  destruct (decide (id' = id)) as [->|Hne].
  - exists more. rewrite lookup_insert_eq. congruence.
  - exists []. rewrite app_nil_r, lookup_insert_ne; [done|]. apply filename_ne; unfold is_uint; lia.
Qed.

(** The entry of a record at the end of the current file. *)
Lemma entry_ok_last d id content ts t s p offset :
  let rec := WalRecord.encode_record crc32c ts t s p in
  1 <= id -> Z.of_nat (length p) <= WalRecord.kMaxRecordPayload -> offset = Z.of_nat (length content) ->
  entry_ok (<[Segment.segment_filename id := content ++ rec]> d) id
    {| ReplayIndex.timestamp_ns := ts; ReplayIndex.segment_id := id; ReplayIndex.offset := offset;
       ReplayIndex.record_length := Z.of_nat (length rec) |}.
Proof using.
  intros rec Hid Hp ->. split; [cbn; lia|]. exists (content ++ rec), t, s, p. cbn zeta.
  cbn [ReplayIndex.segment_id ReplayIndex.timestamp_ns ReplayIndex.record_length ReplayIndex.offset].
  split; [by rewrite lookup_insert_eq|]. fold rec. split; [done|]. split; [done|].
  rewrite length_app. split; [lia|]. rewrite Nat2Z.id. unfold slice.
  rewrite drop_app_length. apply firstn_all.
Qed.

Lemma append_current_disk limit env d w ts t s p :
  disk_inv limit d w -> Z.of_nat (length p) <= WalRecord.kMaxRecordPayload ->
  let rec := WalRecord.encode_record crc32c ts t s p in
  (current_segment_offset_ w = 0 \/ current_segment_offset_ w + Z.of_nat (length rec) <= limit) ->
  limit <= 2 ^ 63 ->
  exists d' w' ok, append_current env d w ts rec = (d', w', ok) /\ disk_inv limit d' w' /\
    current_segment_id_ w' = current_segment_id_ w /\
    length (ReplayIndex.entries_ (index_ w')) =
      (length (ReplayIndex.entries_ (index_ w)) + (if ok then 1 else 0))%nat.
Proof using.
  intros Hinv Hp rec Hroom Hlim. pose proof Hinv as [Hid Hl Hoff He Hf].
  assert (Z.of_nat (length rec) <= WalRecord.kMaxRecordLength) as Hrec.
  { subst rec. rewrite WalRecord.encode_record_eq, WalRecord.length_record_bytes;
      unfold WalRecord.kMaxRecordLength, WalRecord.kMaxRecordPayload, WalRecord.kRecordOverhead,
        WalRecord.kRecordHeaderSize, WalRecord.kRecordTrailerSize in *; lia. }
  pose proof (eq_refl : rec = WalRecord.encode_record crc32c ts t s p) as Erec. clearbody rec.
  change WalRecord.kMaxRecordLength with 4194338 in *.
  unfold append_current, is_open. destruct (file (out_ w)) as [f|] eqn:Ef; cbn [negb];
    [|exists d, w, false; rewrite Nat.add_0_r; done].
  destruct (Hf f eq_refl) as (-> & Hid1 & Hgood). unfold write. rewrite Ef.
  assert (forall d' content more, d !! Segment.segment_filename (current_segment_id_ w) = Some content -> _ -> Forall _ _)
    as Hent by exact (fun d' content more => entries_ok_more d d' _ content more _ Hid He).
  destruct (good (out_ w)) eqn:Eg.
  - destruct (Hgood eq_refl) as (content & Hc & Ho). rewrite Hc. cbn [default].
    destruct (write_ok env); cbn [good negb].
    + rewrite Eg. cbn [negb].
      rewrite (wrap_small 64 (_ + Z.of_nat (length rec))), (wrap_small 32) by (unfold is_uint; lia).
      eexists _, _, true. split; [done|]. split; [|split; [done|]].
      * constructor; cbn; change WalRecord.kMaxRecordLength with 4194338; try lia; try done.
        -- apply Forall_app. split; [by apply (Hent _ content rec)|]. apply Forall_singleton.
           subst rec. by apply entry_ok_last.
        -- intros f' Hf'. rewrite Ef in Hf'. injection Hf' as <-. split; [done|]. split; [done|].
           intros _. exists (content ++ rec). rewrite lookup_insert_eq, length_app. split; [done|lia].
      * cbn. rewrite length_app. cbn. lia.
    + eexists _, _, false. split; [done|]. split; [|split; [done|cbn; lia]].
      constructor; cbn; change WalRecord.kMaxRecordLength with 4194338; try lia; try done; [by apply (Hent _ content (take (torn env) rec))|].
      intros f' [= <-]. done.
  - rewrite Eg. cbn [negb]. eexists d, _, false. split; [done|]. split; [|split; [done|cbn; lia]].
    constructor; cbn; change WalRecord.kMaxRecordLength with 4194338; try lia; try done. intros f' Hf'. rewrite Ef in Hf'. injection Hf' as <-.
    split; [done|]. split; [done|]. by rewrite Eg.
Qed.

Lemma append_disk limit env d w it :
  disk_inv limit d w -> limit <= 2 ^ 63 -> current_segment_id_ w + 1 < 2 ^ 32 ->
  exists d' w' ok,
    append crc32c env d w it.(it_timestamp) it.(it_type) it.(it_sequence) it.(it_payload) = (d', w', ok) /\
    disk_inv limit d' w' /\ current_segment_id_ w' <= current_segment_id_ w + 1 /\
    length (ReplayIndex.entries_ (index_ w')) =
      (length (ReplayIndex.entries_ (index_ w)) + (if ok then 1 else 0))%nat.
Proof using.
  intros Hinv Hlim Hn. pose proof Hinv as [Hid Hl Hoff _ _]. unfold append.
  case_test; bool_to_prop; [exists d, w, false; rewrite Nat.add_0_r; auto with lia|].
  assert (Z.of_nat (length (WalRecord.encode_record crc32c it.(it_timestamp) it.(it_type) it.(it_sequence)
            it.(it_payload))) <= WalRecord.kMaxRecordLength) as Hrec.
  { rewrite WalRecord.encode_record_eq, WalRecord.length_record_bytes;
      unfold WalRecord.kMaxRecordLength, WalRecord.kMaxRecordPayload, WalRecord.kRecordOverhead,
        WalRecord.kRecordHeaderSize, WalRecord.kRecordTrailerSize in *; lia. }
  change WalRecord.kMaxRecordLength with 4194338 in *.
  rewrite Hl, wrap_small by (unfold is_uint; lia).
  destruct ((0 <? _) && (limit <? _)) eqn:Eroll.
  - destruct (open_new_segment_disk limit env d w Hinv Hn) as (d1 & w1 & -> & H1 & Hix & Hid1 & Ho).
    destruct (append_current_disk limit env d1 w1 it.(it_timestamp) it.(it_type) it.(it_sequence)
      it.(it_payload) H1) as (d' & w' & ok & H2 & H3 & H4 & H5); [done|by left|done|].
    exists d', w', ok. rewrite H2, H5, Hix. split; [done|]. split; [done|]. split; [lia|done].
  - destruct (append_current_disk limit env d w it.(it_timestamp) it.(it_type) it.(it_sequence)
      it.(it_payload) Hinv) as (d' & w' & ok & H2 & H3 & H4 & H5); [done| |done|].
    { apply andb_false_iff in Eroll as [Eroll|Eroll]; bool_to_prop; [left|right]; lia. }
    exists d', w', ok. rewrite H2, H5. split; [done|]. split; [done|]. split; [lia|done].
Qed.

(** Appends under the answers of the system. *)
Fixpoint append_calls (d : directory) (w : WalWriter) (calls : list (io * item)) :
    directory * WalWriter * list bool :=
  match calls with
  | [] => (d, w, [])
  | (env, it) :: calls =>
    let '(d, w, ok) :=
      append crc32c env d w it.(it_timestamp) it.(it_type) it.(it_sequence) it.(it_payload) in
    let '(d, w, oks) := append_calls d w calls in
    (d, w, ok :: oks)
  end.

Lemma append_calls_disk limit calls d w :
  disk_inv limit d w -> limit <= 2 ^ 63 ->
  current_segment_id_ w + Z.of_nat (length calls) < 2 ^ 32 ->
  exists d' w' oks, append_calls d w calls = (d', w', oks) /\ disk_inv limit d' w' /\
    length (ReplayIndex.entries_ (index_ w')) =
      (length (ReplayIndex.entries_ (index_ w)) + length (List.filter id oks))%nat.
Proof using.
  revert d w. induction calls as [|[env it] calls IH]; intros d w Hinv Hlim Hn.
  - exists d, w, []. cbn. by rewrite Nat.add_0_r.
  - cbn [append_calls length] in *.
    destruct (append_disk limit env d w it Hinv Hlim) as (d1 & w1 & ok & -> & H1 & Hid & Hlen); [lia|].
    destruct (IH d1 w1 H1 Hlim) as (d2 & w2 & oks & -> & H2 & Hlen2); [lia|].
    exists d2, w2, (ok :: oks). split; [done|]. split; [done|].
    rewrite Hlen2, Hlen. destruct ok; cbn; lia.
Qed.

(** The writer's index under I/O errors.  Whatever the directory held and
    whatever the system answers (files that cannot be opened, writes that fail
    and leave torn bytes), the index has one entry for each append that
    returned true, and every entry still points at the complete bytes of its
    record. *)
Theorem index_entries_on_disk env d0 bytes calls :
  0 <= bytes <= 2 ^ 63 -> 1 + Z.of_nat (length calls) < 2 ^ 32 ->
  exists d1 w1 d w oks,
    construct true env d0 bytes = Ok (d1, w1) /\
    append_calls d1 w1 calls = (d, w, oks) /\
    length (ReplayIndex.entries_ (index_ w)) = length (List.filter id oks) /\
    Forall (entry_ok d (current_segment_id_ w)) (ReplayIndex.entries_ (index_ w)).
Proof using.
  intros Hb Hn. unfold construct. cbn [negb].
  set (w0 := {| segment_bytes_ := _ |}).
  assert (disk_inv (limit_of bytes) d0 w0) as H0.
  { constructor; try done. cbn [current_segment_offset_ w0].
    unfold limit_of, Segment.kDefaultSegmentBytes, WalRecord.kMaxRecordLength,
      WalRecord.kRecordOverhead, WalRecord.kRecordHeaderSize, WalRecord.kRecordTrailerSize,
      WalRecord.kMaxRecordPayload. case_test; lia. }
  destruct (open_new_segment_disk (limit_of bytes) env d0 w0 H0) as (d1 & w1 & E & H1 & Hix & Hid & _);
    [done|].
  destruct (append_calls_disk (limit_of bytes) calls d1 w1 H1) as (d & w & oks & H2 & H3 & H4);
    [unfold limit_of, Segment.kDefaultSegmentBytes; case_test; lia|rewrite Hid; cbn; lia|].
  exists d1, w1, d, w, oks. rewrite E. split; [done|]. split; [done|]. rewrite H4, Hix.
  split; [done|]. apply H3.
Qed.

End Faulty.

(** ** The properties at concrete inputs *)

Definition sample_items : list item :=
  [ {| it_timestamp := 20; it_type := Frame.kImu; it_sequence := 1; it_payload := map z2b [1; 2] |};
    {| it_timestamp := 10; it_type := Frame.kGps; it_sequence := 2; it_payload := [] |} ].

Lemma write_log_then_load_witness :
  exists d w, write_log Crc.crc32c_portable 40 sample_items = Ok (d, w, [true; true]) /\
              Forall item_ok sample_items.
Proof.
  assert (Forall item_ok sample_items) as H by (repeat constructor; discriminate).
  destruct (write_log_then_load Crc.crc32c_portable 40 sample_items H) as (d & w & segs & H1 & _);
    [split; discriminate|reflexivity|].
  exists d, w. split; [exact H1|exact H].
Defined.

Lemma index_entries_on_disk_witness :
  exists d w oks d1 w1,
    construct true io_ok ∅ 40 = Ok (d1, w1) /\
    append_calls Crc.crc32c_portable d1 w1
      (map (pair {| open_ok := true; write_ok := false; torn := 5 |}) sample_items) = (d, w, oks).
Proof.
  destruct (index_entries_on_disk Crc.crc32c_portable io_ok ∅ 40
    (map (pair {| open_ok := true; write_ok := false; torn := 5 |}) sample_items))
    as (d1 & w1 & d & w & oks & H1 & H2 & _); [split; discriminate|reflexivity|].
  exists d, w, oks, d1, w1. by split.
Defined.

End WalLog.
