(* ===== verification/SpscRing.v ===== *)
(** * The ring buffer ([include/sensorforge/core/spsc_ring.hpp])

    The operations of [SPSCRing] called from one thread at a time, on the
    fields of the class: two indices and the array of slots.  [moved_from] is
    what a moved-from slot holds.

    Results: the static assertions make the capacity a power of two; the
    indices stay in range (no operation leaves the array) and every operation
    is, on the queue of the stored items, the operation of a bounded FIFO.
    The concurrent use is in [RingConcurrency.v]. *)

From S2P Require Export Prelude.

Module SpscRing.

(** The static assertions on [Capacity] (and its type, [size_t]). *)
Class CapacityOk (Capacity : Z) : Prop := {
  capacity_ge_2 : 2 <= Capacity;
  capacity_power : Capacity &&& (Capacity - 1) = 0;
  capacity_size_t : is_uint 64 Capacity
}.

Record SPSCRing (T : Type) := mkSPSCRing {
  head_ : Z;
  tail_ : Z;
  buffer_ : list T
}.
Arguments mkSPSCRing {T}.
Arguments head_ {T}.
Arguments tail_ {T}.
Arguments buffer_ {T}.

Section Ring.
Context {T : Type} (Capacity : Z) (moved_from : T -> T).

Definition capacity : Z := Capacity - 1.
Definition kMask : Z := Capacity - 1.

(** The default constructor, with [T{}] in every slot. *)
Definition construct (value : T) : SPSCRing T :=
  {| head_ := 0; tail_ := 0; buffer_ := repeat value (Z.to_nat Capacity) |}.

(** [buffer_[i] = item]. *)
Definition set_slot (i : Z) (item : T) (r : SPSCRing T) : outcome (SPSCRing T) :=
  if (0 <=? i) && (i <? Z.of_nat (length r.(buffer_)))
  then Ok {| head_ := r.(head_); tail_ := r.(tail_);
             buffer_ := <[Z.to_nat i := item]> r.(buffer_) |}
  else OutOfBounds.

(** [buffer_[i]]. *)
Definition get_slot (i : Z) (r : SPSCRing T) : outcome T :=
  match r.(buffer_) !! Z.to_nat i with
  | Some item => if 0 <=? i then Ok item else OutOfBounds
  | None => OutOfBounds
  end.

Definition set_head (h : Z) (r : SPSCRing T) : SPSCRing T :=
  {| head_ := h; tail_ := r.(tail_); buffer_ := r.(buffer_) |}.
Definition set_tail (t : Z) (r : SPSCRing T) : SPSCRing T :=
  {| head_ := r.(head_); tail_ := t; buffer_ := r.(buffer_) |}.

(** Both overloads of [try_push]. *)
Definition try_push (item : T) (r : SPSCRing T) : outcome (SPSCRing T * bool) :=
  let head := r.(head_) in
  let next := u64 (head + 1) &&& kMask in
  if next =? r.(tail_) then Ok (r, false)
  else
    r ← set_slot head item r;
    Ok (set_head next r, true).

Definition try_pop (r : SPSCRing T) : outcome (SPSCRing T * option T) :=
  let tail := r.(tail_) in
  if tail =? r.(head_) then Ok (r, None)
  else
    out ← get_slot tail r;
    r ← set_slot tail (moved_from out) r;
    Ok (set_tail (u64 (tail + 1) &&& kMask) r, Some out).

Definition force_push_overwrite (item : T) (r : SPSCRing T) : outcome (SPSCRing T * bool) :=
  res ← try_push item r;
  let '(r, ok) := (res : SPSCRing T * bool) in
  if ok then Ok (r, true)
  else
    let tail := r.(tail_) in
    let r := set_tail (u64 (tail + 1) &&& kMask) r in
    try_push item r.

Definition size_approx (r : SPSCRing T) : Z := u64 (r.(head_) - r.(tail_)) &&& kMask.

Definition empty_approx (r : SPSCRing T) : bool := size_approx r =? 0.

(** ** The capacity *)

Context `{!CapacityOk Capacity}.

Lemma capacity_exponent : exists k, 1 <= k < 64 /\ Capacity = 2 ^ k.
Proof using CapacityOk0.
  destruct CapacityOk0 as [H2 Hp [_ H64]]. exists (Z.log2 Capacity).
  destruct (Z.log2_spec Capacity) as [Hl Hu]; [lia|].
  assert (1 <= Z.log2 Capacity) by (apply Z.log2_le_pow2; lia).
  split.
  - split; [done|]. apply Z.log2_lt_pow2; lia.
  - destruct (decide (Capacity = 2 ^ Z.log2 Capacity)) as [|Hne]; [done|exfalso].
    assert (Z.log2 (Capacity - 1) = Z.log2 Capacity) as Hlog by (apply Z.log2_unique; lia).
    apply (f_equal (fun z => Z.testbit z (Z.log2 Capacity))) in Hp.
    rewrite Z.land_spec, Z.bits_0, Z.bit_log2 in Hp by lia.
    rewrite <- Hlog, Z.bit_log2 in Hp by lia. done.
Qed.

Lemma mask_mod z : u64 z &&& kMask = z mod Capacity.
Proof using CapacityOk0.
  destruct capacity_exponent as (k & Hk & Hc). unfold kMask. rewrite Hc, land_mask by lia.
  unfold wrap. apply Z.mod_mod_divide.
  exists (2 ^ (64 - k)). rewrite <- Z.pow_add_r by lia. f_equal. lia.
Qed.

(** ** The queue *)

(** The slot [i] places after the tail. *)
Definition slot (r : SPSCRing T) (i : nat) : nat := Z.to_nat ((r.(tail_) + Z.of_nat i) mod Capacity).

(** The number of stored items. *)
Definition count (r : SPSCRing T) : nat := Z.to_nat ((r.(head_) - r.(tail_)) mod Capacity).

(** The stored items, oldest first. *)
Definition contents (r : SPSCRing T) : list T :=
  omap (fun i => r.(buffer_) !! slot r i) (seq 0 (count r)).

Record ring_ok (r : SPSCRing T) : Prop := {
  ro_head : 0 <= r.(head_) < Capacity;
  ro_tail : 0 <= r.(tail_) < Capacity;
  ro_buffer : Z.of_nat (length r.(buffer_)) = Capacity
}.

Lemma capacity_pos : 0 < Capacity.
Proof using CapacityOk0. destruct CapacityOk0. lia. Qed.

Lemma omap_total {A B} (f : A -> option B) (g : A -> B) l :
  (forall x, x ∈ l -> f x = Some (g x)) -> omap f l = map g l.
Proof using.
  induction l as [|x l IH]; intros H; [done|].
  cbn. rewrite (H x) by apply list_elem_of_here. f_equal. apply IH.
  intros y Hy. apply H. by apply list_elem_of_further.
Qed.

Lemma slot_lt r i : ring_ok r -> (slot r i < length r.(buffer_))%nat.
Proof using CapacityOk0.
  intros []. unfold slot. pose proof (Z.mod_pos_bound (tail_ r + Z.of_nat i) Capacity capacity_pos). lia.
Qed.

Lemma count_lt r : Z.of_nat (count r) <= Capacity - 1.
Proof using CapacityOk0.
  unfold count. pose proof (Z.mod_pos_bound (head_ r - tail_ r) Capacity capacity_pos). lia.
Qed.

(** Slots of different items are different. *)
Lemma slot_inj r i j :
  ring_ok r -> Z.of_nat i < Capacity -> Z.of_nat j < Capacity -> slot r i = slot r j -> i = j.
Proof using CapacityOk0.
  intros [] Hi Hj E. unfold slot in E. pose proof capacity_pos as Hp.
  pose proof (Z.mod_pos_bound (tail_ r + Z.of_nat i) Capacity Hp).
  pose proof (Z.mod_pos_bound (tail_ r + Z.of_nat j) Capacity Hp).
  assert ((tail_ r + Z.of_nat i) mod Capacity = (tail_ r + Z.of_nat j) mod Capacity) as Em by lia.
  assert ((Z.of_nat i - Z.of_nat j) mod Capacity = 0) as E0.
  { replace (Z.of_nat i - Z.of_nat j) with ((tail_ r + Z.of_nat i) - (tail_ r + Z.of_nat j)) by lia.
    rewrite Zminus_mod, Em, Z.sub_diag. apply Z.mod_0_l. lia. }
  apply Z.mod_divide in E0 as [q Hq]; [|lia]. assert (q = 0) by nia. lia.
Qed.

(** The head is [count] places after the tail. *)
Lemma slot_count r : ring_ok r -> slot r (count r) = Z.to_nat r.(head_).
Proof using CapacityOk0.
  intros []. unfold slot, count. pose proof capacity_pos as Hp.
  pose proof (Z.mod_pos_bound (head_ r - tail_ r) Capacity Hp).
  rewrite Z2Nat.id by lia. f_equal.
  rewrite Zplus_mod_idemp_r. replace (tail_ r + (head_ r - tail_ r)) with (head_ r) by lia.
  by apply Z.mod_small.
Qed.

Lemma length_contents r : ring_ok r -> length (contents r) = count r.
Proof using CapacityOk0.
  intros H. unfold contents. generalize (count r) 0%nat.
  induction n as [|n IH]; intros i; [done|]. cbn [seq omap list_omap].
  destruct (lookup_lt_is_Some_2 (buffer_ r) (slot r i)) as [x ->]; [by apply slot_lt|].
  cbn [length]. by rewrite IH.
Qed.

Lemma contents_lookup r i :
  ring_ok r -> (i < count r)%nat -> contents r !! i = r.(buffer_) !! slot r i.
Proof using CapacityOk0.
  intros H Hi. unfold contents.
  assert (forall n k i, (i < n)%nat ->
    omap (fun i => buffer_ r !! slot r i) (seq k n) !! i = buffer_ r !! slot r (k + i)) as Hg.
  { clear i Hi. induction n as [|n IH]; intros k i Hi; [lia|]. cbn [seq omap list_omap].
    destruct (lookup_lt_is_Some_2 (buffer_ r) (slot r k)) as [x Hx]; [by apply slot_lt|].
    rewrite Hx. destruct i as [|i]; [by rewrite Nat.add_0_r|].
    change ((x :: omap (fun i => buffer_ r !! slot r i) (seq (S k) n)) !! S i)
      with (omap (fun i => buffer_ r !! slot r i) (seq (S k) n) !! i).
    rewrite IH by lia. do 2 f_equal. lia. }
  by rewrite Hg.
Qed.

(** Two rings with the same items at the same distance from the tail. *)
Lemma contents_ext r l :
  ring_ok r -> length l = count r ->
  (forall i, (i < count r)%nat -> r.(buffer_) !! slot r i = l !! i) -> contents r = l.
Proof using CapacityOk0.
  intros H Hl Hi. apply list_eq. intros i. destruct (decide (i < count r)%nat) as [Hlt|Hge].
  - rewrite contents_lookup by done. by apply Hi.
  - rewrite !lookup_ge_None_2; [done|lia|rewrite length_contents by done; lia].
Qed.

(** ** The effects of single assignments on the queue *)

Lemma lookup_same_slots r r' :
  r'.(tail_) = r.(tail_) -> r'.(head_) = r.(head_) -> slot r' = slot r /\ count r' = count r.
Proof using. intros Ht Hh. unfold slot, count. by rewrite Ht, Hh. Qed.

(** The slot at the head is not part of the queue. *)
Lemma contents_set_head_slot r x :
  ring_ok r ->
  let r' := {| head_ := r.(head_); tail_ := r.(tail_); buffer_ := <[Z.to_nat r.(head_) := x]> r.(buffer_) |} in
  ring_ok r' /\ contents r' = contents r.
Proof using CapacityOk0.
  intros Hr r'. assert (ring_ok r') as Hr'.
  { destruct Hr. constructor; cbn; [done|done|by rewrite length_insert]. }
  split; [done|]. apply contents_ext; [done|by rewrite length_contents|].
  intros i Hi. change (count r') with (count r) in Hi. change (slot r' i) with (slot r i).
  rewrite contents_lookup by done. cbn [buffer_ r'].
  apply list_lookup_insert_ne. rewrite <- slot_count by done. intros E.
  pose proof (count_lt r) as Hc. apply slot_inj in E; [lia|done|lia|lia].
Qed.

(** Advancing the head makes that slot the newest item. *)
Lemma contents_advance_head r x :
  ring_ok r -> Z.of_nat (count r) < Capacity - 1 -> r.(buffer_) !! Z.to_nat r.(head_) = Some x ->
  let r' := set_head ((r.(head_) + 1) mod Capacity) r in
  ring_ok r' /\ count r' = S (count r) /\ contents r' = contents r ++ [x].
Proof using CapacityOk0.
  intros Hr Hc Hx r'. pose proof capacity_pos as Hp.
  assert (ring_ok r') as Hr'.
  { destruct Hr. constructor; cbn; [apply Z.mod_pos_bound; done|done|done]. }
  assert (count r' = S (count r)) as Hcount.
  { unfold count in *. cbn [head_ tail_ r' set_head].
    pose proof (Z.mod_pos_bound (head_ r - tail_ r) Capacity Hp).
    rewrite Zminus_mod_idemp_l.
    replace (head_ r + 1 - tail_ r) with ((head_ r - tail_ r) + 1) by lia.
    rewrite <- Zplus_mod_idemp_l, (Z.mod_small (_ mod _ + 1)) by lia. lia. }
  split; [done|]. split; [done|]. apply contents_ext; [done| |].
  - rewrite length_app, length_contents, Hcount by done. cbn. lia.
  - intros i Hi. change (slot r' i) with (slot r i). cbn [buffer_ r' set_head].
    destruct (decide (i = count r)) as [->|Hne].
    + rewrite slot_count, Hx by done. rewrite lookup_app_r by by rewrite length_contents.
      by rewrite length_contents, Nat.sub_diag.
    + rewrite lookup_app_l by (rewrite length_contents by done; lia).
      by rewrite contents_lookup by (done || lia).
Qed.

(** The slot at the tail is the oldest item; writing it leaves the others. *)
Lemma contents_head_lookup r :
  ring_ok r -> (0 < count r)%nat ->
  exists x, r.(buffer_) !! Z.to_nat r.(tail_) = Some x /\ contents r = x :: drop 1 (contents r).
Proof using CapacityOk0.
  intros Hr Hc. pose proof (contents_lookup r 0 Hr Hc) as H0.
  assert (slot r 0 = Z.to_nat (tail_ r)) as Hs.
  { destruct Hr. unfold slot. rewrite Z.add_0_r. by rewrite Z.mod_small. }
  rewrite Hs in H0. destruct (contents r) as [|x l] eqn:E.
  - apply (f_equal length) in E. rewrite length_contents in E by done. cbn in E. lia.
  - exists x. by rewrite <- H0.
Qed.

Lemma contents_set_tail_slot r x :
  ring_ok r ->
  let r' := {| head_ := r.(head_); tail_ := r.(tail_); buffer_ := <[Z.to_nat r.(tail_) := x]> r.(buffer_) |} in
  ring_ok r' /\ drop 1 (contents r') = drop 1 (contents r).
Proof using CapacityOk0.
  intros Hr r'. assert (ring_ok r') as Hr'.
  { destruct Hr. constructor; cbn; [done|done|by rewrite length_insert]. }
  split; [done|]. apply list_eq. intros i. rewrite !lookup_drop.
  destruct (decide (1 + i < count r)%nat) as [Hi|Hi].
  - rewrite !contents_lookup by done. change (slot r' (1 + i)) with (slot r (1 + i)).
    cbn [buffer_ r']. apply list_lookup_insert_ne.
    assert (slot r 0 = Z.to_nat (tail_ r)) as <-.
    { destruct Hr. unfold slot. rewrite Z.add_0_r. by rewrite Z.mod_small. }
    intros E. pose proof (count_lt r) as Hc. apply slot_inj in E; [lia|done|lia|lia].
  - rewrite !lookup_ge_None_2; [done|rewrite length_contents by done; lia|].
    rewrite length_contents by done. change (count r') with (count r). lia.
Qed.

(** Advancing the tail drops the oldest item. *)
Lemma contents_advance_tail r :
  ring_ok r -> (0 < count r)%nat ->
  let r' := set_tail ((r.(tail_) + 1) mod Capacity) r in
  ring_ok r' /\ S (count r') = count r /\ contents r' = drop 1 (contents r).
Proof using CapacityOk0.
  intros Hr Hc r'. pose proof capacity_pos as Hp.
  assert (ring_ok r') as Hr'.
  { destruct Hr. constructor; cbn; [done|apply Z.mod_pos_bound; done|done]. }
  assert (S (count r') = count r) as Hcount.
  { unfold count in *. cbn [head_ tail_ r' set_tail].
    pose proof (Z.mod_pos_bound (head_ r - tail_ r) Capacity Hp).
    rewrite Zminus_mod_idemp_r.
    replace (head_ r - (tail_ r + 1)) with ((head_ r - tail_ r) - 1) by lia.
    rewrite <- Zminus_mod_idemp_l, (Z.mod_small (_ mod _ - 1)) by lia. lia. }
  split; [done|]. split; [done|]. apply contents_ext; [done| |].
  - rewrite length_drop, length_contents by done. lia.
  - intros i Hi. rewrite lookup_drop, contents_lookup by (done || lia).
    cbn [buffer_ r' set_tail]. f_equal. unfold slot. cbn [tail_ r' set_tail].
    rewrite Zplus_mod_idemp_l. f_equal. f_equal. lia.
Qed.

(** The tests of the operations, as counts. *)
Lemma count_cases r :
  ring_ok r ->
  Z.of_nat (count r) =
    if r.(tail_) <=? r.(head_) then r.(head_) - r.(tail_) else r.(head_) - r.(tail_) + Capacity.
Proof using CapacityOk0.
  intros []. pose proof capacity_pos as Hp. unfold count.
  pose proof (Z.mod_pos_bound (head_ r - tail_ r) Capacity Hp). rewrite Z2Nat.id by lia.
  symmetry. case_test; bool_to_prop.
  - apply (Z.mod_unique _ _ 0); lia.
  - apply (Z.mod_unique _ _ (-1)); lia.
Qed.

Lemma full_test r :
  ring_ok r ->
  (u64 (r.(head_) + 1) &&& kMask =? r.(tail_)) = (Z.of_nat (count r) =? Capacity - 1).
Proof using CapacityOk0.
  intros Hr. rewrite mask_mod, count_cases by done. destruct Hr.
  assert ((head_ r + 1) mod Capacity = if head_ r + 1 =? Capacity then 0 else head_ r + 1) as ->.
  { case_test; bool_to_prop; [rewrite E; apply Z.mod_same; lia|apply Z.mod_small; lia]. }
  apply Bool.eq_iff_eq_true. rewrite !Z.eqb_eq. repeat case_test; bool_to_prop; lia.
Qed.

Lemma empty_test r : ring_ok r -> (r.(tail_) =? r.(head_)) = (count r =? 0)%nat.
Proof using CapacityOk0.
  intros Hr. pose proof (count_cases r Hr) as Hc. destruct Hr.
  apply Bool.eq_iff_eq_true. rewrite Z.eqb_eq, Nat.eqb_eq.
  case_test_in Hc; bool_to_prop; lia.
Qed.

Lemma set_slot_ok i x r :
  ring_ok r -> 0 <= i < Capacity ->
  set_slot i x r = Ok {| head_ := r.(head_); tail_ := r.(tail_); buffer_ := <[Z.to_nat i := x]> r.(buffer_) |}.
Proof using.
  intros [] Hi. unfold set_slot. rewrite (proj2 (Z.leb_le _ _)), (proj2 (Z.ltb_lt _ _)) by lia. done.
Qed.

Lemma get_slot_ok i r x : 0 <= i -> r.(buffer_) !! Z.to_nat i = Some x -> get_slot i r = Ok x.
Proof using. intros Hi Hx. unfold get_slot. by rewrite Hx, (proj2 (Z.leb_le _ _)). Qed.

(** ** The operations *)

Lemma construct_ok value : ring_ok (construct value) /\ contents (construct value) = [].
Proof using CapacityOk0.
  pose proof capacity_pos as Hp. assert (ring_ok (construct value)) as H.
  { constructor; cbn; [lia|lia|rewrite repeat_length; lia]. }
  split; [done|]. apply length_zero_iff_nil. by rewrite length_contents.
Qed.

Lemma try_push_spec item r :
  ring_ok r ->
  exists r', try_push item r = Ok (r', negb (Z.of_nat (length (contents r)) =? Capacity - 1)) /\
    ring_ok r' /\
    contents r' =
      if Z.of_nat (length (contents r)) =? Capacity - 1 then contents r else contents r ++ [item].
Proof using CapacityOk0.
  intros Hr. unfold try_push. rewrite full_test, length_contents by done.
  pose proof (count_lt r) as Hlt.
  destruct (Z.of_nat (count r) =? Capacity - 1) eqn:E; [by exists r|]. bool_to_prop.
  rewrite set_slot_ok by (done || apply Hr). cbn [mbind outcome_bind].
  destruct (contents_set_head_slot r item Hr) as [H1 H2].
  set (r1 := {| head_ := _ |}) in *.
  destruct (contents_advance_head r1 item H1) as (H3 & _ & H4).
  - change (count r1) with (count r). lia.
  - cbn [buffer_ r1 head_]. apply list_lookup_insert_eq. destruct Hr. lia.
  - rewrite mask_mod. eexists. split; [reflexivity|]. split; [exact H3|].
    cbn [head_ r1] in H4. by rewrite H4, H2.
Qed.

Lemma try_pop_spec r :
  ring_ok r ->
  exists r', try_pop r = Ok (r', head (contents r)) /\ ring_ok r' /\ contents r' = drop 1 (contents r).
Proof using CapacityOk0.
  intros Hr. unfold try_pop. rewrite empty_test by done.
  pose proof (length_contents r Hr) as Hl. destruct (count r =? 0)%nat eqn:E; bool_to_prop.
  - rewrite E in Hl. apply length_zero_iff_nil in Hl. rewrite Hl. by exists r.
  - destruct (contents_head_lookup r Hr) as (x & Hx & Hc); [lia|].
    rewrite (get_slot_ok _ _ x) by (done || apply Hr). cbn [mbind outcome_bind].
    rewrite set_slot_ok by (done || apply Hr). cbn [mbind outcome_bind].
    destruct (contents_set_tail_slot r (moved_from x) Hr) as [H1 H2]. set (r1 := {| head_ := _ |}) in *.
    destruct (contents_advance_tail r1 H1) as (H3 & _ & H4); [change (count r1) with (count r); lia|].
    rewrite mask_mod. eexists. split; [rewrite Hc; reflexivity|]. split; [exact H3|].
    cbn [tail_ r1] in H4. by rewrite H4, H2.
Qed.

Lemma force_push_spec item r :
  ring_ok r ->
  exists r', force_push_overwrite item r = Ok (r', true) /\ ring_ok r' /\
    contents r' =
      (if Z.of_nat (length (contents r)) =? Capacity - 1 then drop 1 (contents r) else contents r)
      ++ [item].
Proof using CapacityOk0.
  intros Hr. unfold force_push_overwrite.
  destruct (try_push_spec item r Hr) as (r1 & -> & H1 & H2). cbn [mbind outcome_bind].
  destruct (Z.of_nat (length (contents r)) =? Capacity - 1) eqn:E; cbn [negb]; [|by exists r1].
  bool_to_prop. pose proof (length_contents r Hr) as Hl.
  pose proof (length_contents r1 H1) as Hl1. rewrite H2 in Hl1.
  assert (2 <= Capacity) by apply capacity_ge_2.
  destruct (contents_advance_tail r1 H1) as (H3 & H4 & H5); [lia|].
  rewrite mask_mod. destruct (try_push_spec item _ H3) as (r2 & -> & H6 & H7).
  rewrite length_contents in H7 |- * by done.
  rewrite (proj2 (Z.eqb_neq _ _)) in H7 |- * by lia.
  exists r2. split; [done|]. split; [done|]. by rewrite H7, H5, H2.
Qed.

Lemma size_approx_spec r : ring_ok r -> size_approx r = Z.of_nat (length (contents r)).
Proof using CapacityOk0.
  intros Hr. unfold size_approx. rewrite mask_mod, length_contents by done. unfold count.
  pose proof (Z.mod_pos_bound (head_ r - tail_ r) Capacity capacity_pos). lia.
Qed.

(** ** The abstract queue *)

Inductive op :=
| Push (item : T)
| Pop
| Overwrite (item : T)
| Size.

Inductive result :=
| Stored (ok : bool)
| Popped (item : option T)
| Counted (n : Z) (is_empty : bool).

Definition ring_op (o : op) (r : SPSCRing T) : outcome (SPSCRing T * result) :=
  match o with
  | Push x => res ← try_push x r; Ok (res.1, Stored res.2)
  | Pop => res ← try_pop r; Ok (res.1, Popped res.2)
  | Overwrite x => res ← force_push_overwrite x r; Ok (res.1, Stored res.2)
  | Size => Ok (r, Counted (size_approx r) (empty_approx r))
  end.

(** The bounded first-in first-out queue with [n] places. *)
Definition fifo_op (n : Z) (o : op) (q : list T) : list T * result :=
  let full := Z.of_nat (length q) =? n in
  match o with
  | Push x => (if full then q else q ++ [x], Stored (negb full))
  | Pop => (drop 1 q, Popped (head q))
  | Overwrite x => ((if full then drop 1 q else q) ++ [x], Stored true)
  | Size => (q, Counted (Z.of_nat (length q)) (length q =? 0)%nat)
  end.

Fixpoint ring_ops (ops : list op) (r : SPSCRing T) : outcome (SPSCRing T * list result) :=
  match ops with
  | [] => Ok (r, [])
  | o :: ops =>
    res ← ring_op o r;
    rest ← ring_ops ops res.1;
    Ok (rest.1, res.2 :: rest.2)
  end.

Fixpoint fifo_ops (n : Z) (ops : list op) (q : list T) : list T * list result :=
  match ops with
  | [] => (q, [])
  | o :: ops =>
    let '(q, res) := fifo_op n o q in
    let '(q, rest) := fifo_ops n ops q in
    (q, res :: rest)
  end.

Lemma ring_op_spec o r :
  ring_ok r ->
  exists r', ring_op o r = Ok (r', (fifo_op capacity o (contents r)).2) /\ ring_ok r' /\
    contents r' = (fifo_op capacity o (contents r)).1.
Proof using CapacityOk0.
  intros Hr. destruct o as [x| |x|]; cbn [ring_op fifo_op fst snd].
  - destruct (try_push_spec x r Hr) as (r' & -> & H1 & H2). by exists r'.
  - destruct (try_pop_spec r Hr) as (r' & -> & H1 & H2). by exists r'.
  - destruct (force_push_spec x r Hr) as (r' & -> & H1 & H2). by exists r'.
  - exists r. split; [|done]. unfold empty_approx. rewrite size_approx_spec by done.
    do 3 f_equal. apply Bool.eq_iff_eq_true. rewrite Z.eqb_eq, Nat.eqb_eq. lia.
Qed.

Lemma ring_ops_spec ops r :
  ring_ok r ->
  exists r', ring_ops ops r = Ok (r', (fifo_ops capacity ops (contents r)).2) /\ ring_ok r' /\
    contents r' = (fifo_ops capacity ops (contents r)).1.
Proof using CapacityOk0.
  revert r. induction ops as [|o ops IH]; intros r Hr; cbn [ring_ops fifo_ops]; [by exists r|].
  destruct (ring_op_spec o r Hr) as (r1 & -> & H1 & H2). cbn [mbind outcome_bind fst snd].
  destruct (IH r1 H1) as (r2 & -> & H3 & H4). rewrite H2 in H4 |- *. exists r2.
  destruct (fifo_op capacity o (contents r)) as [q res]. cbn [fst snd] in *.
  destruct (fifo_ops capacity ops q) as [q' rest]. done.
Qed.

(** C17: functional correctness of the ring.  For every capacity the static
    assertions admit, any sequence of operations on a new ring gives exactly
    the results of a bounded first-in first-out queue with [Capacity - 1]
    places ([force_push_overwrite] drops the oldest item when it is full and
    always succeeds; [size_approx] is exact without concurrency), and never
    accesses a slot outside of the array. *)
Theorem ring_refines_fifo value ops :
  exists r', ring_ops ops (construct value) = Ok (r', (fifo_ops capacity ops []).2) /\
             contents r' = (fifo_ops capacity ops []).1.
Proof using CapacityOk0.
  destruct (construct_ok value) as [Hr Hc].
  destruct (ring_ops_spec ops (construct value) Hr) as (r' & H1 & H2 & H3).
  rewrite Hc in *. by exists r'.
Qed.

End Ring.
#[global] Instance capacity_4_ok : CapacityOk 4.
Proof. by split. Qed.

Lemma ring_refines_fifo_witness :
  exists r', ring_ops 4 (fun x : Z => -1) [Push 1; Push 2; Push 3; Push 4; Overwrite 5; Pop; Size] (construct 4 0) =
    Ok (r', [Stored true; Stored true; Stored true; Stored false; Stored true; Popped (Some 2);
             Counted 2 false]).
Proof.
  destruct (ring_refines_fifo 4 (fun x : Z => -1) 0
    [Push 1; Push 2; Push 3; Push 4; Overwrite 5; Pop; Size]) as (r' & H & _).
  exists r'. exact H.
Defined.

End SpscRing.
