(* ===== verification/RingConcurrency.v ===== *)
(** * The ring buffer with a producer and a consumer thread

    [try_push] and [try_pop] of [spsc_ring.hpp] split at their accesses to
    shared memory: each load or store of an index and each access to a slot is
    one step, the steps of the two threads interleave freely, and every load
    returns the newest value ([RingWeak.v] has the memory orders).  A thread between two steps remembers what it has
    loaded.  With [force] the producer may also go on to the tail update and the
    second [try_push] of [force_push_overwrite] when it finds the ring full.

    Results, without [force]: in every reachable state the consumer has
    received a prefix of what was pushed and the rest is in the ring; the two
    threads never access the same slot; a thread inside an operation can
    always take its next step.  With [force], a consumer that runs during the
    tail update receives items that were already taken. *)

From S2P Require Export SpscRing.
From stdpp Require Export relations.
#[local] Open Scope Z_scope.

Module RingConcurrency.
Import SpscRing.

Inductive producer (T : Type) :=
| PIdle
| PCalled (item : T) (head : Z)        (** head loaded *)
| PWrite (item : T) (head : Z)         (** room seen, slot to be written *)
| PPublish (item : T) (head : Z)       (** slot written, head to be stored *)
| PForce (item : T)                    (** full: tail to be loaded *)
| PDrop (item : T) (tail : Z)          (** tail loaded, tail + 1 to be stored *)
| PRetry (item : T) (head : Z).        (** the last [try_push], head loaded *)

Inductive consumer (T : Type) :=
| CIdle
| CCalled (tail : Z)                   (** tail loaded *)
| CRead (tail : Z)                     (** an item seen, slot to be read *)
| CAdvance (tail : Z) (out : T).       (** slot read, tail to be stored *)

Arguments PIdle {T}.
Arguments PCalled {T}.
Arguments PWrite {T}.
Arguments PPublish {T}.
Arguments PForce {T}.
Arguments PDrop {T}.
Arguments PRetry {T}.
Arguments CIdle {T}.
Arguments CCalled {T}.
Arguments CRead {T}.
Arguments CAdvance {T}.

(** The shared ring, the threads, and what they have transferred so far. *)
Record config (T : Type) := mkConfig {
  ring : SPSCRing T;
  prod : producer T;
  cons : consumer T;
  pushed : list T;
  popped : list T
}.
Arguments mkConfig {T}.
Arguments ring {T}.
Arguments prod {T}.
Arguments cons {T}.
Arguments pushed {T}.
Arguments popped {T}.

Section Threads.
Context {T : Type} (Capacity : Z) (moved_from : T -> T) (force : bool).

Definition advance (i : Z) : Z := u64 (i + 1) &&& kMask Capacity.

Inductive step : config T -> config T -> Prop :=
| p_call r c us ps item :
    step (mkConfig r PIdle c us ps) (mkConfig r (PCalled item r.(head_)) c us ps)
| p_full r c us ps item head :
    advance head = r.(tail_) ->
    step (mkConfig r (PCalled item head) c us ps) (mkConfig r PIdle c us ps)
| p_room r c us ps item head :
    advance head <> r.(tail_) ->
    step (mkConfig r (PCalled item head) c us ps) (mkConfig r (PWrite item head) c us ps)
| p_write r r' c us ps item head :
    set_slot head item r = Ok r' ->
    step (mkConfig r (PWrite item head) c us ps) (mkConfig r' (PPublish item head) c us ps)
| p_publish r c us ps item head :
    step (mkConfig r (PPublish item head) c us ps)
         (mkConfig (set_head (advance head) r) PIdle c (us ++ [item]) ps)
| p_full_force r c us ps item head :
    force = true -> advance head = r.(tail_) ->
    step (mkConfig r (PCalled item head) c us ps) (mkConfig r (PForce item) c us ps)
| p_force_load r c us ps item :
    step (mkConfig r (PForce item) c us ps) (mkConfig r (PDrop item r.(tail_)) c us ps)
| p_force_drop r c us ps item tail :
    step (mkConfig r (PDrop item tail) c us ps)
         (mkConfig (set_tail (advance tail) r) (PRetry item r.(head_)) c us ps)
| p_retry_full r c us ps item head :
    advance head = r.(tail_) ->
    step (mkConfig r (PRetry item head) c us ps) (mkConfig r PIdle c us ps)
| p_retry_room r c us ps item head :
    advance head <> r.(tail_) ->
    step (mkConfig r (PRetry item head) c us ps) (mkConfig r (PWrite item head) c us ps)
| c_call r p us ps :
    step (mkConfig r p CIdle us ps) (mkConfig r p (CCalled r.(tail_)) us ps)
| c_empty r p us ps tail :
    tail = r.(head_) ->
    step (mkConfig r p (CCalled tail) us ps) (mkConfig r p CIdle us ps)
| c_some r p us ps tail :
    tail <> r.(head_) ->
    step (mkConfig r p (CCalled tail) us ps) (mkConfig r p (CRead tail) us ps)
| c_read r r' p us ps tail out :
    get_slot tail r = Ok out -> set_slot tail (moved_from out) r = Ok r' ->
    step (mkConfig r p (CRead tail) us ps) (mkConfig r' p (CAdvance tail out) us ps)
| c_advance r p us ps tail out :
    step (mkConfig r p (CAdvance tail out) us ps)
         (mkConfig (set_tail (advance tail) r) p CIdle us (ps ++ [out])).

Definition initial (value : T) : config T :=
  mkConfig (construct Capacity value) PIdle CIdle [] [].

Definition reachable (value : T) (c : config T) : Prop := rtc step (initial value) c.

End Threads.

(** ** The invariant of the two operations *)

Section Safe.
Context {T : Type} (Capacity : Z) (moved_from : T -> T) `{!CapacityOk Capacity}.

Abbreviation contents := (contents Capacity).
Abbreviation count := (count Capacity).
Abbreviation ring_ok := (ring_ok Capacity).

(** What the producer knows at each point. *)
Definition producer_inv (r : SPSCRing T) (p : producer T) : Prop :=
  match p with
  | PIdle => True
  | PCalled _ head => head = r.(head_)
  | PWrite _ head => head = r.(head_) /\ Z.of_nat (count r) < Capacity - 1
  | PPublish item head =>
    head = r.(head_) /\ Z.of_nat (count r) < Capacity - 1 /\ r.(buffer_) !! Z.to_nat head = Some item
  | PForce _ | PDrop _ _ | PRetry _ _ => False
  end.

(** What the consumer knows, and how the transferred items add up. *)
Definition consumer_inv (r : SPSCRing T) (c : consumer T) (us ps : list T) : Prop :=
  match c with
  | CIdle => us = ps ++ contents r
  | CCalled tail => tail = r.(tail_) /\ us = ps ++ contents r
  | CRead tail => tail = r.(tail_) /\ (0 < count r)%nat /\ us = ps ++ contents r
  | CAdvance tail out =>
    tail = r.(tail_) /\ (0 < count r)%nat /\ us = ps ++ out :: drop 1 (contents r)
  end.

Definition inv (c : config T) : Prop :=
  ring_ok c.(ring) /\ producer_inv c.(ring) c.(prod) /\
  consumer_inv c.(ring) c.(cons) c.(pushed) c.(popped).

Lemma inv_initial value : inv (initial Capacity value).
Proof using CapacityOk0.
  destruct (construct_ok Capacity value) as [Hr Hc]. split; [done|]. split; [done|]. cbn. by rewrite Hc.
Qed.

Lemma advance_mod i : advance Capacity i = (i + 1) mod Capacity.
Proof using CapacityOk0. by apply mask_mod. Qed.

Lemma full_iff (r : SPSCRing T) : ring_ok r -> advance Capacity r.(head_) = r.(tail_) <-> Z.of_nat (count r) = Capacity - 1.
Proof using CapacityOk0.
  intros Hr. pose proof (full_test Capacity r Hr) as Ht. unfold advance.
  rewrite <- Z.eqb_eq, Ht. apply Z.eqb_eq.
Qed.

Lemma empty_iff (r : SPSCRing T) : ring_ok r -> r.(tail_) = r.(head_) <-> count r = 0%nat.
Proof using CapacityOk0.
  intros Hr. pose proof (empty_test Capacity r Hr) as Ht. rewrite <- Z.eqb_eq, Ht. apply Nat.eqb_eq.
Qed.

(** A nonempty ring that is not full has its head and its tail apart. *)
Lemma head_tail_apart (r : SPSCRing T) :
  ring_ok r -> (0 < count r)%nat -> Z.to_nat r.(head_) <> Z.to_nat r.(tail_).
Proof using CapacityOk0.
  intros Hr Hc E. assert (r.(tail_) = r.(head_)) as Et by (destruct Hr; lia).
  apply empty_iff in Et; [lia|done].
Qed.

(** The producer's steps. *)
Lemma write_inv (r : SPSCRing T) item c us ps :
  ring_ok r -> Z.of_nat (count r) < Capacity - 1 -> consumer_inv r c us ps ->
  exists r', set_slot r.(head_) item r = Ok r' /\
    ring_ok r' /\ producer_inv r' (PPublish item r.(head_)) /\ consumer_inv r' c us ps.
Proof using CapacityOk0.
  intros Hr Hc Hcons. destruct (contents_set_head_slot Capacity r item Hr) as [H1 H2].
  rewrite (set_slot_ok Capacity) by (done || apply Hr). eexists. split; [reflexivity|].
  set (r' := {| head_ := _ |}) in *. split; [done|]. split.
  - split; [done|]. split; [done|]. cbn [buffer_ r']. apply list_lookup_insert_eq. destruct Hr. lia.
  - destruct c; cbn in *; rewrite H2; exact Hcons.
Qed.

Lemma publish_inv (r : SPSCRing T) item c us ps :
  ring_ok r -> producer_inv r (PPublish item r.(head_)) -> consumer_inv r c us ps ->
  let r' := set_head (advance Capacity r.(head_)) r in
  ring_ok r' /\ consumer_inv r' c (us ++ [item]) ps.
Proof using CapacityOk0.
  intros Hr (_ & Hc & Hx) Hcons. rewrite advance_mod.
  destruct (contents_advance_head Capacity r item Hr Hc Hx) as (H1 & H2 & H3). split; [done|].
  destruct c as [|t|t|t out]; cbn [consumer_inv] in *; rewrite ?H3.
  - rewrite app_assoc. by rewrite <- Hcons.
  - destruct Hcons as [-> ->]. by rewrite app_assoc.
  - destruct Hcons as (-> & Hn & ->). rewrite app_assoc. split; [done|]. split; [lia|done].
  - destruct Hcons as (-> & Hn & ->). split; [done|]. split; [lia|].
    rewrite drop_app_le by (rewrite length_contents by done; lia). by rewrite <- app_assoc.
Qed.

(** The consumer's steps. *)
Lemma read_inv (r : SPSCRing T) p us ps :
  ring_ok r -> producer_inv r p -> consumer_inv r (CRead r.(tail_)) us ps ->
  exists out r', get_slot r.(tail_) r = Ok out /\ set_slot r.(tail_) (moved_from out) r = Ok r' /\
    ring_ok r' /\ producer_inv r' p /\ consumer_inv r' (CAdvance r.(tail_) out) us ps.
Proof using CapacityOk0.
  intros Hr Hp (_ & Hc & ->). destruct (contents_head_lookup Capacity r Hr Hc) as (x & Hx & Hcont).
  destruct (contents_set_tail_slot Capacity r (moved_from x) Hr) as [H1 H2].
  exists x. rewrite (set_slot_ok Capacity) by (done || apply Hr). eexists.
  split; [apply get_slot_ok; [apply Hr|done]|]. split; [reflexivity|].
  set (r' := {| head_ := _ |}) in *. split; [done|]. split.
  - destruct p; cbn in *; try done. destruct Hp as (-> & Hn & Hi). split; [done|]. split; [done|].
    rewrite list_lookup_insert_ne; [done|]. intros E. by apply (head_tail_apart r Hr Hc).
  - split; [done|]. split; [done|]. by rewrite H2, <- Hcont.
Qed.

Lemma advance_inv (r : SPSCRing T) p us ps out :
  ring_ok r -> producer_inv r p -> consumer_inv r (CAdvance r.(tail_) out) us ps ->
  let r' := set_tail (advance Capacity r.(tail_)) r in
  ring_ok r' /\ producer_inv r' p /\ consumer_inv r' CIdle us (ps ++ [out]).
Proof using CapacityOk0.
  intros Hr Hp (_ & Hc & ->). rewrite advance_mod.
  destruct (contents_advance_tail Capacity r Hr Hc) as (H1 & H2 & H3). split; [done|]. split.
  - destruct p; cbn [producer_inv head_ set_tail buffer_] in *; try done.
    + destruct Hp as [-> Hn]. split; [done|lia].
    + destruct Hp as (-> & Hn & Hi). split; [done|]. split; [lia|done].
  - cbn [consumer_inv]. by rewrite H3, <- app_assoc.
Qed.

Lemma step_inv c c' : step Capacity moved_from false c c' -> inv c -> inv c'.
Proof using CapacityOk0.
  intros Hs (Hr & Hp & Hc).
  destruct Hs; cbn [ring prod cons pushed popped] in *; unfold inv; cbn [ring prod cons pushed popped].
  - done.
  - done.
  - cbn in Hp. subst. rewrite full_iff in H by done. pose proof (count_lt Capacity r).
    split; [done|]. split; [|done]. cbn. split; [done|lia].
  - destruct Hp as [-> Hn]. destruct (write_inv r item c us ps Hr Hn Hc) as (r1 & E & H1 & H2 & H3).
    rewrite H in E. by injection E as ->.
  - pose proof Hp as (-> & _). by destruct (publish_inv r item c us ps Hr Hp Hc).
  - done.
  - done.
  - done.
  - done.
  - done.
  - done.
  - split; [done|]. split; [done|]. apply Hc.
  - destruct Hc as [-> Hc]. split; [done|]. split; [done|]. cbn. split; [done|]. split; [|done].
    destruct (count r) eqn:E; [|lia]. by apply empty_iff in E.
  - pose proof Hc as (-> & _). destruct (read_inv r p us ps Hr Hp Hc) as (o & r1 & E1 & E2 & H1 & H2 & H3).
    rewrite H in E1. injection E1 as ->. rewrite H0 in E2. by injection E2 as ->.
  - pose proof Hc as (-> & _). by apply advance_inv.
Qed.

Lemma reachable_inv value c : reachable Capacity moved_from false value c -> inv c.
Proof using CapacityOk0.
  intros H. pose proof (inv_initial value) as Hi. unfold reachable in H.
  induction H as [|x y z Hxy _ IH]; [done|]. apply IH. by eapply step_inv.
Qed.

(** What was received is a prefix of what was published. *)
Lemma popped_prefix value c : reachable Capacity moved_from false value c -> exists queued, c.(pushed) = c.(popped) ++ queued.
Proof using CapacityOk0.
  intros H. apply reachable_inv in H as (_ & _ & Hc). destruct (cons c) as [|t|t|t out]; cbn in Hc.
  - by eexists.
  - destruct Hc as [_ Hc]. by eexists.
  - destruct Hc as (_ & _ & Hc). by eexists.
  - destruct Hc as (_ & _ & Hc). by eexists.
Qed.

(** The ring with a producer and a consumer running at the same time.  In
    every reachable state, what the consumer has received is a prefix of what
    the producer has published, in order, nothing lost or repeated; the items
    in between are at most [Capacity - 1]. *)
Theorem concurrent_fifo value c :
  reachable Capacity moved_from false value c ->
  exists queued, c.(pushed) = c.(popped) ++ queued /\ Z.of_nat (length queued) <= Capacity - 1.
Proof using CapacityOk0.
  intros H. apply reachable_inv in H as (Hr & _ & Hc). pose proof (count_lt Capacity (ring c)) as Hlt.
  destruct (cons c) as [|t|t|t out]; cbn in Hc.
  - exists (contents (ring c)). by rewrite length_contents.
  - destruct Hc as [_ Hc]. exists (contents (ring c)). by rewrite length_contents.
  - destruct Hc as (_ & _ & Hc). exists (contents (ring c)). by rewrite length_contents.
  - destruct Hc as (_ & Hn & Hc). eexists. split; [exact Hc|].
    cbn [length]. rewrite length_drop, length_contents by done. lia.
Qed.

(** The next access of each thread to a slot. *)
Definition producer_slot (p : producer T) : option Z :=
  match p with PWrite _ head => Some head | _ => None end.
Definition consumer_slot (c : consumer T) : option Z :=
  match c with CRead tail => Some tail | _ => None end.

(** Freedom from data races and progress.  In every reachable state the
    two threads are not about to access the same slot, and a thread that is
    inside an operation can take its next step whatever the other does (its
    slot is in the array): the operations are wait-free. *)
Theorem concurrent_race_free value c :
  reachable Capacity moved_from false value c ->
  (forall i, producer_slot c.(prod) = Some i -> consumer_slot c.(cons) <> Some i) /\
  (c.(prod) <> PIdle -> exists c', step Capacity moved_from false c c' /\ c'.(cons) = c.(cons)) /\
  (c.(cons) <> CIdle -> exists c', step Capacity moved_from false c c' /\ c'.(prod) = c.(prod)).
Proof using CapacityOk0.
  intros H. apply reachable_inv in H as (Hr & Hp & Hc). destruct c as [r p c us ps].
  cbn [ring prod cons pushed popped] in *. split; [|split].
  - intros i Hi Hj. destruct p, c; try done. injection Hi as ->. injection Hj as ->.
    destruct Hp as [-> _], Hc as (E & Hn & _). apply (head_tail_apart r Hr Hn). by rewrite E.
  - intros Hne. destruct p as [|item h|item h|item h|item|item t|item h]; try done.
    + destruct (decide (advance Capacity h = tail_ r)); eexists; split; [by apply p_full|done|by apply p_room|done].
    + destruct Hp as [-> Hn]. destruct (write_inv r item c us ps Hr Hn Hc) as (r' & E & _).
      eexists. split; [by apply p_write|done].
    + eexists. split; [apply p_publish|done].
  - intros Hne. destruct c as [|t|t|t out]; try done.
    + destruct (decide (t = head_ r)); eexists; split; [by apply c_empty|done|by apply c_some|done].
    + pose proof Hc as (-> & _). destruct (read_inv r p us ps Hr Hp Hc) as (o & r1 & E1 & E2 & _).
      eexists. split; [by eapply c_read|done].
    + eexists. split; [apply c_advance|done].
Qed.

End Safe.
(** ** Concrete executions *)

Lemma concurrent_fifo_witness :
  exists c, reachable 4 (fun _ : Z => -1) false 0 c /\ c.(pushed) = [7] /\
    exists queued, c.(pushed) = c.(popped) ++ queued /\ Z.of_nat (length queued) <= 4 - 1.
Proof.
  assert (exists c, reachable 4 (fun _ : Z => -1) false 0 c /\ c.(pushed) = [7]) as (c & Hc & Hp).
  { eexists. split.
    - unfold reachable, initial. cbn. eapply rtc_l; [apply (p_call _ _ _ _ _ _ _ 7)|].
      eapply rtc_l; [eapply p_room; discriminate|]. eapply rtc_l; [eapply p_write; reflexivity|].
      eapply rtc_l; [apply p_publish|]. apply rtc_refl.
    - reflexivity. }
  exists c. split; [exact Hc|]. split; [exact Hp|].
  exact (concurrent_fifo 4 (fun _ : Z => -1) 0 c Hc).
Defined.

Lemma concurrent_race_free_witness :
  exists c, reachable 4 (fun _ : Z => -1) false 0 c /\
    producer_slot c.(prod) = Some 1 /\ consumer_slot c.(cons) = Some 0 /\
    exists c', step 4 (fun _ : Z => -1) false c c' /\ c'.(cons) = c.(cons).
Proof.
  assert (exists c, reachable 4 (fun _ : Z => -1) false 0 c /\
    producer_slot c.(prod) = Some 1 /\ consumer_slot c.(cons) = Some 0) as (c & Hc & Hp & Hs).
  { eexists. split.
    - unfold reachable, initial. cbn. eapply rtc_l; [apply (p_call _ _ _ _ _ _ _ 7)|].
      eapply rtc_l; [eapply p_room; discriminate|]. eapply rtc_l; [eapply p_write; reflexivity|].
      eapply rtc_l; [apply p_publish|].
      eapply rtc_l; [apply (p_call _ _ _ _ _ _ _ 8)|].
      eapply rtc_l; [eapply p_room; discriminate|].
      eapply rtc_l; [apply c_call|]. eapply rtc_l; [apply c_some; discriminate|]. apply rtc_refl.
    - split; reflexivity. }
  exists c. split; [exact Hc|]. split; [exact Hp|]. split; [exact Hs|].
  apply (concurrent_race_free 4 (fun _ : Z => -1) 0 c Hc). intros E. rewrite E in Hp. discriminate.
Defined.

(** The steps of one uncontended [try_push] and [try_pop]. *)
Ltac run_push x :=
  eapply rtc_l; [apply (p_call _ _ _ _ _ _ _ x)|];
  eapply rtc_l; [eapply p_room; vm_compute; discriminate|];
  eapply rtc_l; [eapply p_write; vm_compute; reflexivity|];
  eapply rtc_l; [apply p_publish|].
Ltac run_pop :=
  eapply rtc_l; [apply c_call|];
  eapply rtc_l; [apply c_some; vm_compute; discriminate|];
  eapply rtc_l; [eapply c_read; vm_compute; reflexivity|];
  eapply rtc_l; [apply c_advance|].

(** [force_push_overwrite] is not safe while the consumer runs.  With four
    slots, the producer has published 1, 2, 3 and starts to overwrite: it has
    loaded the tail when the consumer takes 1 and 2; the producer then stores
    its stale tail + 1, which moves the tail back, and the consumer receives
    a slot it has already emptied: something that was never pushed. *)
Theorem force_push_overwrite_hazard :
  exists c, reachable 4 (fun _ : Z => -1) true 0 c /\
    c.(pushed) = [1; 2; 3] /\ c.(popped) = [1; 2; -1].
Proof.
  eexists. split; [|split].
  - unfold reachable, initial. run_push 1. run_push 2. run_push 3.
    eapply rtc_l; [apply (p_call _ _ _ _ _ _ _ 4)|].
    eapply rtc_l; [apply p_full_force; [reflexivity|vm_compute; reflexivity]|].
    eapply rtc_l; [apply p_force_load|].
    run_pop. run_pop.
    eapply rtc_l; [apply p_force_drop|].
    run_pop. apply rtc_refl.
  - reflexivity.
  - reflexivity.
Qed.

End RingConcurrency.
