(* ===== verification/WeakMemory.v ===== *)
(** * Release/acquire memory

    The part of the C++ memory model that [seqlock.hpp] and [spsc_ring.hpp]
    use, as an operational semantics in which a load need not return the
    newest value.  Every location has the list of the stores to it, in
    modification order; every thread has views, which say for each location
    how many of its stores happen before the thread's next step.

    - A load may read any store that is not older than the thread's view.
      Reading it with [acquire] takes over what its writer had released with
      it; reading it [relaxed] keeps that aside until an acquire fence.
    - A store releases the thread's view ([release]), or the view at its last
      release fence ([relaxed]).
    - A non-atomic access that does not know every earlier access to its
      location is a data race, which is undefined behaviour.

    The rules are those of C++20 for these orders, without read-modify-write
    operations (the code has none) and without [seq_cst]; a store does not
    become visible before the loads that precede it in its thread.  A store
    goes to the end of its location's list, and is defined only when the
    thread knows the whole list: then there is no other place for it.  That is
    the case for a location with one writer, as all of the code's are, and the
    theorems of the clients show that it always is.

    Results: reading and writing preserve the well-formedness of views; the
    litmus tests at the end show which reorderings the semantics has. *)

From S2P Require Export Prelude.
From stdpp Require Export relations.
#[local] Open Scope Z_scope.

Module WeakMemory.

Section Memory.
Context {Loc V : Type} `{!EqDecision Loc}.

(** ** Views *)

Definition view : Type := Loc -> nat.

Definition bottom : view := fun _ => 0%nat.
Definition join (a b : view) : view := fun l => Nat.max (a l) (b l).
Definition bump (l : Loc) (n : nat) (a : view) : view :=
  fun l' => if decide (l' = l) then Nat.max n (a l') else a l'.

Definition view_le (a b : view) : Prop := forall l, (a l <= b l)%nat.

#[export] Instance view_le_preorder : PreOrder view_le.
Proof using. split; [intros a l; lia|intros a b c Hab Hbc l; specialize (Hab l); specialize (Hbc l); lia]. Qed.

#[export] Instance join_mono : Proper (view_le ==> view_le ==> view_le) join.
Proof using. intros a a' Ha b b' Hb l. specialize (Ha l). specialize (Hb l). unfold join. lia. Qed.

#[export] Instance bump_mono l n : Proper (view_le ==> view_le) (bump l n).
Proof using. intros a a' Ha l'. specialize (Ha l'). unfold bump. destruct (decide _); lia. Qed.

Lemma join_l a b : view_le a (join a b).
Proof using. intros l. unfold join. lia. Qed.

Lemma join_r a b : view_le b (join a b).
Proof using. intros l. unfold join. lia. Qed.

Lemma join_least a b c : view_le a c -> view_le b c -> view_le (join a b) c.
Proof using. intros Ha Hb l. specialize (Ha l). specialize (Hb l). unfold join. lia. Qed.

Lemma bump_le l n a : view_le a (bump l n a).
Proof using. intros l'. unfold bump. destruct (decide _); lia. Qed.

Lemma bump_eq l n a : bump l n a l = Nat.max n (a l).
Proof using. unfold bump. by rewrite decide_True. Qed.

Lemma bump_ne l l' n a : l' <> l -> bump l n a l' = a l'.
Proof using. intros H. unfold bump. by rewrite decide_False. Qed.

(** ** Memory and threads *)

(** One store: its value, and the view it releases. *)
Record message := mkMessage { value : V; released : view }.

Definition memory : Type := Loc -> list message.

(** [cur]: what happens before the next step; [acq]: what will after the next
    acquire fence; [rel]: what did at the last release fence. *)
Record thread := mkThread { cur : view; acq : view; rel : view }.

Inductive memory_order := relaxed | acquire | release.

(** A thread that knows of no store but the initial ones. *)
Definition fresh : thread := {| cur := bottom; acq := bottom; rel := bottom |}.

(** A load of the [k]-th store to [l]. *)
Definition read (o : memory_order) (l : Loc) (k : nat) (t : thread) (m : memory) : option (V * thread) :=
  if (t.(cur) l <=? k)%nat then
    match m l !! k with
    | Some msg =>
      Some (msg.(value),
            {| cur := match o with
                      | acquire => join (bump l k t.(cur)) msg.(released)
                      | _ => bump l k t.(cur)
                      end;
               acq := join (bump l k t.(acq)) msg.(released);
               rel := t.(rel) |})
    | None => None
    end
  else None.

Definition store (l : Loc) (msg : message) (m : memory) : memory :=
  fun l' => if decide (l' = l) then m l' ++ [msg] else m l'.

Definition knows_last (l : Loc) (t : thread) (m : memory) : bool :=
  (length (m l) =? S (t.(cur) l))%nat.

Definition write (o : memory_order) (l : Loc) (v : V) (t : thread) (m : memory) : option (thread * memory) :=
  if knows_last l t m then
    let n := length (m l) in
    let seen := bump l n t.(cur) in
    let out := match o with release => seen | _ => bump l n t.(rel) end in
    Some ({| cur := seen; acq := bump l n t.(acq); rel := t.(rel) |},
          store l {| value := v; released := out |} m)
  else None.

Definition fence (o : memory_order) (t : thread) : thread :=
  match o with
  | acquire => {| cur := t.(acq); acq := t.(acq); rel := t.(rel) |}
  | release => {| cur := t.(cur); acq := t.(acq); rel := t.(cur) |}
  | relaxed => t
  end.

(** A non-atomic access that replaces the value [x] of [l] by [f x], and
    returns [x].  [None] is a data race. *)
Definition access (l : Loc) (f : V -> V) (t : thread) (m : memory) : option (V * thread * memory) :=
  if knows_last l t m then
    match last (m l) with
    | Some msg =>
      let n := length (m l) in
      Some (msg.(value),
            {| cur := bump l n t.(cur); acq := bump l n t.(acq); rel := t.(rel) |},
            store l {| value := f msg.(value); released := bottom |} m)
    | None => None
    end
  else None.

(** Synchronisation of [t] with what happens before [a], by other means. *)
Definition synchronize (a : view) (t : thread) : thread :=
  {| cur := join t.(cur) a; acq := join t.(acq) a; rel := t.(rel) |}.

(** ** Well-formedness: views know only stores that exist *)

Definition bounded (m : memory) (a : view) : Prop := forall l, (a l <= pred (length (m l)))%nat.

Record thread_wf (m : memory) (t : thread) : Prop := {
  wf_cur : bounded m t.(cur);
  wf_acq : bounded m t.(acq);
  wf_rel : bounded m t.(rel);
  wf_cur_acq : view_le t.(cur) t.(acq)
}.

Definition memory_wf (m : memory) : Prop :=
  forall l k msg, m l !! k = Some msg -> bounded m msg.(released).

Definition extends (m m' : memory) : Prop := forall l, m l `prefix_of` m' l.

#[export] Instance extends_preorder : PreOrder extends.
Proof using. split; [by intros m l|intros a b c Hab Hbc l; by etrans; [apply Hab|apply Hbc]]. Qed.

Lemma extends_lookup m m' l k msg : extends m m' -> m l !! k = Some msg -> m' l !! k = Some msg.
Proof using. intros H Hk. by eapply prefix_lookup_Some. Qed.

Lemma extends_length m m' l : extends m m' -> (length (m l) <= length (m' l))%nat.
Proof using. intros H. by apply prefix_length. Qed.

Lemma bounded_extends m m' a : extends m m' -> bounded m a -> bounded m' a.
Proof using. intros H Ha l. specialize (Ha l). pose proof (extends_length m m' l H). lia. Qed.

Lemma thread_wf_extends m m' t : extends m m' -> thread_wf m t -> thread_wf m' t.
Proof using. intros H []. constructor; [by eapply bounded_extends..|done]. Qed.

Lemma bounded_join m a b : bounded m a -> bounded m b -> bounded m (join a b).
Proof using. intros Ha Hb l. specialize (Ha l). specialize (Hb l). unfold join. lia. Qed.

Lemma bounded_bump m l n a : (n <= pred (length (m l)))%nat -> bounded m a -> bounded m (bump l n a).
Proof using.
  intros Hn Ha l'. specialize (Ha l'). unfold bump. destruct (decide (l' = l)) as [->|]; lia.
Qed.

Lemma bounded_bottom m : bounded m bottom.
Proof using. intros l. unfold bottom. lia. Qed.

Lemma fresh_wf m : thread_wf m fresh.
Proof using. constructor; cbn; [apply bounded_bottom..|done]. Qed.

Lemma store_eq l msg m : store l msg m l = m l ++ [msg].
Proof using. unfold store. by rewrite decide_True. Qed.

Lemma store_ne l l' msg m : l' <> l -> store l msg m l' = m l'.
Proof using. intros H. unfold store. by rewrite decide_False. Qed.

Lemma store_extends l msg m : extends m (store l msg m).
Proof using. intros l'. unfold store. destruct (decide _); [by eexists|done]. Qed.

(** A store in the new memory is an old one, or the new one. *)
Lemma store_lookup l msg m l' k msg' :
  store l msg m l' !! k = Some msg' ->
  m l' !! k = Some msg' \/ (l' = l /\ k = length (m l) /\ msg' = msg).
Proof using.
  unfold store. destruct (decide (l' = l)) as [->|]; [|by left].
  intros H. apply lookup_snoc_Some in H as [[_ H]|[-> <-]]; [by left|by right].
Qed.

Lemma store_wf l msg m : memory_wf m -> bounded (store l msg m) msg.(released) -> memory_wf (store l msg m).
Proof using.
  intros Hm Hb l' k msg' H. apply store_lookup in H as [H|(-> & -> & ->)]; [|done].
  eapply bounded_extends; [apply store_extends|by eapply Hm].
Qed.

Lemma knows_last_spec l t m : knows_last l t m = true <-> length (m l) = S (t.(cur) l).
Proof using. apply Nat.eqb_eq. Qed.

(** ** Inversion and preservation *)

Lemma read_Some o l k t m v t' :
  read o l k t m = Some (v, t') ->
  exists msg, m l !! k = Some msg /\ (t.(cur) l <= k)%nat /\ v = msg.(value) /\ t'.(rel) = t.(rel) /\
    t'.(acq) = join (bump l k t.(acq)) msg.(released) /\
    t'.(cur) = match o with acquire => join (bump l k t.(cur)) msg.(released) | _ => bump l k t.(cur) end.
Proof using.
  unfold read. case_test; [|done]. destruct (m l !! k) as [msg|] eqn:Hk; [|done].
  intros [= <- <-]. bool_to_prop. exists msg. done.
Qed.

Lemma write_Some o l v t m t' m' :
  write o l v t m = Some (t', m') ->
  length (m l) = S (t.(cur) l) /\
  m' = store l {| value := v;
                  released := match o with release => bump l (length (m l)) t.(cur)
                                         | _ => bump l (length (m l)) t.(rel) end |} m /\
  t' = {| cur := bump l (length (m l)) t.(cur); acq := bump l (length (m l)) t.(acq); rel := t.(rel) |}.
Proof using.
  unfold write. case_test; [|done]. intros [= <- <-]. apply knows_last_spec in E. done.
Qed.

Lemma access_Some l f t m x t' m' :
  access l f t m = Some (x, t', m') ->
  length (m l) = S (t.(cur) l) /\
  (exists msg, last (m l) = Some msg /\ x = msg.(value)) /\
  m' = store l {| value := f x; released := bottom |} m /\
  t' = {| cur := bump l (length (m l)) t.(cur); acq := bump l (length (m l)) t.(acq); rel := t.(rel) |}.
Proof using.
  unfold access. case_test; [|done]. destruct (last (m l)) as [msg|] eqn:Hl; [|done].
  intros [= <- <- <-]. apply knows_last_spec in E. split; [done|]. split; [by exists msg|]. done.
Qed.

Lemma read_wf o l k t m v t' :
  memory_wf m -> thread_wf m t -> read o l k t m = Some (v, t') -> thread_wf m t'.
Proof using.
  intros Hm [Hc Ha Hr Hca] H. apply read_Some in H as (msg & Hk & Hle & _ & Er & Ea & Ec).
  assert (k <= pred (length (m l)))%nat as Hlt by (apply lookup_lt_Some in Hk; lia).
  pose proof (Hm _ _ _ Hk) as Hrel.
  assert (view_le (bump l k (cur t)) (bump l k (acq t))) as Hb by by rewrite Hca.
  constructor; rewrite ?Er, ?Ea, ?Ec; [|by apply bounded_join; [apply bounded_bump|]|done|].
  - destruct o; [by apply bounded_bump|by apply bounded_join; [apply bounded_bump|]|by apply bounded_bump].
  - destruct o; rewrite Hb; [apply join_l|reflexivity|apply join_l].
Qed.

Lemma read_cur_le o l k t m v t' : read o l k t m = Some (v, t') -> view_le t.(cur) t'.(cur).
Proof using.
  intros H. apply read_Some in H as (msg & _ & _ & _ & _ & _ & ->).
  destruct o; try apply bump_le. etrans; [apply bump_le|apply join_l].
Qed.

Lemma read_cur_loc o l k t m v t' : read o l k t m = Some (v, t') -> (k <= t'.(cur) l)%nat.
Proof using.
  intros H. apply read_Some in H as (msg & _ & _ & _ & _ & _ & ->).
  destruct o; [rewrite bump_eq; lia| |rewrite bump_eq; lia].
  unfold join. rewrite bump_eq. lia.
Qed.

Lemma read_acquire_le l k t m v t' msg :
  read acquire l k t m = Some (v, t') -> m l !! k = Some msg -> view_le msg.(released) t'.(cur).
Proof using.
  intros H Hk. apply read_Some in H as (msg' & Hk' & _ & _ & _ & _ & ->).
  rewrite Hk in Hk'. injection Hk' as <-. apply join_r.
Qed.

Lemma read_acq_le o l k t m v t' msg :
  read o l k t m = Some (v, t') -> m l !! k = Some msg ->
  view_le t.(acq) t'.(acq) /\ view_le msg.(released) t'.(acq).
Proof using.
  intros H Hk. apply read_Some in H as (msg' & Hk' & _ & _ & _ & -> & _).
  rewrite Hk in Hk'. injection Hk' as <-. split; [|apply join_r].
  etrans; [apply bump_le|apply join_l].
Qed.

(** A thread that knows the last store to a location reads that one. *)
Lemma read_last o l k t m v t' :
  read o l k t m = Some (v, t') -> length (m l) = S (t.(cur) l) -> k = t.(cur) l.
Proof using. intros H Hl. apply read_Some in H as (msg & Hk & Hle & _). apply lookup_lt_Some in Hk. lia. Qed.

(** The thread after a store (or a non-atomic access) of its own. *)
Lemma stored_thread_wf l msg m t :
  thread_wf m t ->
  thread_wf (store l msg m) {| cur := bump l (length (m l)) t.(cur); acq := bump l (length (m l)) t.(acq); rel := t.(rel) |}.
Proof using.
  intros [Hc Ha Hr Hca].
  assert (length (m l) <= pred (length (store l msg m l)))%nat
    by (rewrite store_eq, length_app; cbn; lia).
  pose proof (store_extends l msg m) as Hext.
  constructor; cbn; [by apply bounded_bump; [|eapply bounded_extends]..|by eapply bounded_extends|by rewrite Hca].
Qed.

Lemma write_wf o l v t m t' m' :
  memory_wf m -> thread_wf m t -> write o l v t m = Some (t', m') ->
  memory_wf m' /\ thread_wf m' t' /\ extends m m'.
Proof using.
  intros Hm Ht H. apply write_Some in H as (_ & -> & ->).
  split; [|split; [by apply stored_thread_wf|apply store_extends]].
  apply store_wf; [done|]. cbn [released].
  match goal with |- bounded (store l ?msg m) _ => pose proof (stored_thread_wf l msg m t Ht) as [Hc' _ _ _] end.
  cbn in Hc'. destruct o; try exact Hc';
    (apply bounded_bump; [rewrite store_eq, length_app; cbn; lia|];
     eapply bounded_extends; [apply store_extends|by apply wf_rel]).
Qed.

Lemma access_wf l f t m x t' m' :
  memory_wf m -> thread_wf m t -> access l f t m = Some (x, t', m') ->
  memory_wf m' /\ thread_wf m' t' /\ extends m m'.
Proof using.
  intros Hm Ht H. apply access_Some in H as (_ & _ & -> & ->).
  split; [|split; [by apply stored_thread_wf|apply store_extends]].
  apply store_wf; [done|apply bounded_bottom].
Qed.

Lemma fence_wf o m t : thread_wf m t -> thread_wf m (fence o t).
Proof using. intros []. destruct o; by constructor. Qed.

Lemma synchronize_wf a m t : bounded m a -> thread_wf m t -> thread_wf m (synchronize a t).
Proof using.
  intros Ha []. constructor; cbn; [by apply bounded_join..|done|]. by rewrite wf_cur_acq0.
Qed.

(** The newest store of a well-formed thread's view. *)
Lemma knows_last_read o l t m :
  length (m l) = S (t.(cur) l) -> exists v t', read o l (t.(cur) l) t m = Some (v, t').
Proof using.
  intros H. unfold read. rewrite Nat.leb_refl.
  destruct (lookup_lt_is_Some_2 (m l) (cur t l)) as [msg ->]; [lia|]. by eexists _, _.
Qed.

Lemma write_total o l v t m : length (m l) = S (t.(cur) l) -> exists t' m', write o l v t m = Some (t', m').
Proof using. intros H. unfold write. apply knows_last_spec in H as ->. by eexists _, _. Qed.

(** A load never has to wait. *)
Lemma read_total o l t m :
  bounded m t.(cur) -> m l <> [] -> exists v t', read o l (pred (length (m l))) t m = Some (v, t').
Proof using.
  intros Hb Hne. unfold read. rewrite (proj2 (Nat.leb_le _ _)) by apply Hb.
  destruct (lookup_lt_is_Some_2 (m l) (pred (length (m l)))) as [msg ->]; [|by eexists _, _].
  destruct (m l); [done|cbn; lia].
Qed.

End Memory.

Arguments view : clear implicits.
Arguments message : clear implicits.
Arguments memory : clear implicits.
Arguments thread : clear implicits.

(** ** Litmus tests

    Two locations, initially 0.  A store is known by its place: 0 is the
    initial value, 1 the first store. *)

Section Litmus.

Definition start : memory bool Z := fun _ => [mkMessage 0 bottom].
(** [data = 1 (relaxed); flag = 1 (o)], then in the other thread [flag] read
    as 1 with [o'], and [data] read as its [k]-th store. *)
Definition message_passing (o o' : memory_order) (fw fr : thread bool -> thread bool) (k : nat) : option Z :=
  '(t, m) ← write relaxed false 1 fresh start;
  '(t, m) ← write o true 1 (fw t) m;
  '(_, t') ← read o' true 1 fresh m;
  '(v, _) ← read relaxed false k (fr t') m;
  Some v.

(** Release and acquire exclude the stale value; either of them alone does
    not; a pair of fences around relaxed accesses does. *)
Example mp_release_acquire :
  message_passing release acquire id id 0 = None /\ message_passing release acquire id id 1 = Some 1.
Proof using. split; reflexivity. Qed.
Example mp_relaxed : message_passing relaxed acquire id id 0 = Some 0.
Proof using. reflexivity. Qed.
Example mp_no_acquire : message_passing release relaxed id id 0 = Some 0.
Proof using. reflexivity. Qed.
Example mp_fences : message_passing relaxed relaxed (fence release) (fence acquire) 0 = None.
Proof using. reflexivity. Qed.

(** Store buffering: each thread stores to one location and then loads the
    other; both may read 0, whatever the orders. *)
Definition store_buffering (k1 k2 : nat) : option (Z * Z) :=
  '(t1, m) ← write release true 1 fresh start;
  '(t2, m) ← write release false 1 fresh m;
  '(v1, _) ← read acquire false k1 t1 m;
  '(v2, _) ← read acquire true k2 t2 m;
  Some (v1, v2).

Example sb_both_stale : store_buffering 0 0 = Some (0, 0).
Proof using. reflexivity. Qed.

(** Coherence: a thread does not read an older store after a newer one. *)
Example coherence :
  ('(_, m) ← write relaxed true 1 fresh start;
   '(_, t) ← read relaxed true 1 fresh m;
   read relaxed true 0 t m) = None.
Proof using. reflexivity. Qed.

(** A plain flag ([bool] members that one thread sets and another one tests,
    as [ready_] and [failed_] of [tcp_interface.hpp]): the test does not know
    of the store, and is a data race. *)
Definition set_then_test : option (option Z) :=
  '(_, _, m) ← access true (fun _ => 1) fresh start;
  Some (option_map (fun r => r.1.1) (access true (fun x => x) fresh m)).

Example plain_flag_race : set_then_test = Some None.
Proof using. reflexivity. Qed.

End Litmus.

End WeakMemory.
