(* ===== verification/RingWeak.v ===== *)
(** * The ring buffer under release/acquire memory

    [try_push] and [try_pop] of [spsc_ring.hpp] with the memory orders they
    have, on the semantics of [WeakMemory.v]: the indices are atomics that a
    thread may read late, the slots are not atomic, and an access to a slot
    that does not happen after every earlier access to it is a data race.

    Results: no execution has a data race; what the consumer has received is
    a prefix of what the producer has published; no thread gets stuck. *)

From S2P Require Export WeakMemory SpscRing.
From stdpp Require Export relations.
#[local] Open Scope Z_scope.

Module RingWeak.
Import WeakMemory SpscRing.

Inductive loc :=
| Head                     (** [head_.value] *)
| Tail                     (** [tail_.value] *)
| Slot (i : nat).          (** [buffer_[i]] *)

#[global] Instance loc_eq_dec : EqDecision loc.
Proof. solve_decision. Defined.

(** A location holds an index or an item. *)
Inductive cell (T : Type) :=
| Index (i : Z)
| Item (x : T).
Arguments Index {T}.
Arguments Item {T}.

Inductive producer (T : Type) :=
| PIdle
| PCalled (item : T) (head : Z)        (** head loaded *)
| PWrite (item : T) (head : Z)         (** room seen, slot to be written *)
| PPublish (item : T) (head : Z).      (** slot written, head to be stored *)

Inductive consumer (T : Type) :=
| CIdle
| CCalled (tail : Z)                   (** tail loaded *)
| CRead (tail : Z)                     (** an item seen, slot to be read *)
| CAdvance (tail : Z) (out : T).       (** slot read, tail to be stored *)

Arguments PIdle {T}.
Arguments PCalled {T}.
Arguments PWrite {T}.
Arguments PPublish {T}.
Arguments CIdle {T}.
Arguments CCalled {T}.
Arguments CRead {T}.
Arguments CAdvance {T}.

Section Threads.
Context {T : Type} (Capacity : Z) (moved_from : T -> T).

Abbreviation ring_memory := (memory loc (cell T)).

(** The constructor, before the threads start. *)
Definition construct (x : T) : ring_memory := fun l =>
  match l with
  | Head | Tail => [mkMessage (Index 0) bottom]
  | Slot i => if decide (i < Z.to_nat Capacity)%nat then [mkMessage (Item x) bottom] else []
  end.

Definition advance (i : Z) : Z := u64 (i + 1) &&& kMask Capacity.

(** [buffer_[i] = item], and what [out = std::move(buffer_[i])] leaves. *)
Definition assign (item : T) (_ : cell T) : cell T := Item item.
Definition move_from (v : cell T) : cell T :=
  match v with Item x => Item (moved_from x) | Index i => Index i end.

(** [try_push], both overloads; [us] is what has been published. *)
Inductive producer_step :
  ring_memory -> thread loc -> producer T -> list T -> ring_memory -> thread loc -> producer T -> list T -> Prop :=
| p_call m t us item k head t' :
    read relaxed Head k t m = Some (Index head, t') ->
    producer_step m t PIdle us m t' (PCalled item head) us
| p_full m t us item head k tail t' :
    read acquire Tail k t m = Some (Index tail, t') -> advance head = tail ->
    producer_step m t (PCalled item head) us m t' PIdle us
| p_room m t us item head k tail t' :
    read acquire Tail k t m = Some (Index tail, t') -> advance head <> tail ->
    producer_step m t (PCalled item head) us m t' (PWrite item head) us
| p_write m t us item head x t' m' :
    access (Slot (Z.to_nat head)) (assign item) t m = Some (x, t', m') ->
    producer_step m t (PWrite item head) us m' t' (PPublish item head) us
| p_publish m t us item head t' m' :
    write release Head (Index (advance head)) t m = Some (t', m') ->
    producer_step m t (PPublish item head) us m' t' PIdle (us ++ [item]).

(** [try_pop]; [ps] is what has been received. *)
Inductive consumer_step :
  ring_memory -> thread loc -> consumer T -> list T -> ring_memory -> thread loc -> consumer T -> list T -> Prop :=
| c_call m t ps k tail t' :
    read relaxed Tail k t m = Some (Index tail, t') ->
    consumer_step m t CIdle ps m t' (CCalled tail) ps
| c_empty m t ps tail k head t' :
    read acquire Head k t m = Some (Index head, t') -> tail = head ->
    consumer_step m t (CCalled tail) ps m t' CIdle ps
| c_some m t ps tail k head t' :
    read acquire Head k t m = Some (Index head, t') -> tail <> head ->
    consumer_step m t (CCalled tail) ps m t' (CRead tail) ps
| c_read m t ps tail out t' m' :
    access (Slot (Z.to_nat tail)) move_from t m = Some (Item out, t', m') ->
    consumer_step m t (CRead tail) ps m' t' (CAdvance tail out) ps
| c_advance m t ps tail out t' m' :
    write release Tail (Index (advance tail)) t m = Some (t', m') ->
    consumer_step m t (CAdvance tail out) ps m' t' CIdle (ps ++ [out]).

Record config := mkConfig {
  mem : ring_memory;
  pview : thread loc;
  prod : producer T;
  cview : thread loc;
  cons : consumer T;
  pushed : list T;
  popped : list T
}.

Inductive step : config -> config -> Prop :=
| step_producer m t p tc c us ps m' t' p' us' :
    producer_step m t p us m' t' p' us' ->
    step (mkConfig m t p tc c us ps) (mkConfig m' t' p' tc c us' ps)
| step_consumer m t p tc c us ps m' tc' c' ps' :
    consumer_step m tc c ps m' tc' c' ps' ->
    step (mkConfig m t p tc c us ps) (mkConfig m' t p tc' c' us ps').

Definition initial (x : T) : config := mkConfig (construct x) fresh PIdle fresh CIdle [] [].

Definition reachable (x : T) (c : config) : Prop := rtc step (initial x) c.

(** ** The invariant

    The [n]-th item of all goes to slot [place n] in turn [turn n]; a slot is
    accessed once by the producer and once by the consumer in every turn. *)

Context `{!CapacityOk Capacity}.

Definition slots : nat := Z.to_nat Capacity.
Definition place (n : nat) : nat := n mod slots.
Definition turn (n : nat) : nat := n / slots.

(** The value of the [j]-th store to an index. *)
Definition index (j : nat) : Z := Z.of_nat (place j).

(** What has been written into slots, and taken out of them. *)
Definition written (p : producer T) (us : list T) : list T :=
  match p with PPublish item _ => us ++ [item] | _ => us end.
Definition taken (c : consumer T) (ps : list T) : list T :=
  match c with CAdvance _ out => ps ++ [out] | _ => ps end.

(** [a] knows of the first (the second) accesses for the items below [k]. *)
Definition knows_writes (a : view loc) (k : nat) : Prop :=
  forall n, (n < k)%nat -> (2 * turn n + 1 <= a (Slot (place n)))%nat.
Definition knows_takes (a : view loc) (k : nat) : Prop :=
  forall n, (n < k)%nat -> (2 * turn n + 2 <= a (Slot (place n)))%nat.

Record mem_inv (m : ring_memory) (us ps wr tk : list T) : Prop := {
  mi_wf : memory_wf m;
  mi_heads : length (m Head) = S (length us);
  mi_tails : length (m Tail) = S (length ps);
  mi_head j msg : m Head !! j = Some msg ->
    msg.(value) = Index (index j) /\ msg.(released) Head = j /\ knows_writes msg.(released) j;
  mi_tail j msg : m Tail !! j = Some msg ->
    msg.(value) = Index (index j) /\ msg.(released) Tail = j /\ knows_takes msg.(released) j;
  mi_prefix : tk `prefix_of` wr;
  mi_room : (length wr <= length tk + slots)%nat;
  mi_slot n : (length tk <= n < length tk + slots)%nat ->
    length (m (Slot (place n))) = (if (n <? length wr)%nat then 2 * turn n + 2 else 2 * turn n + 1)%nat;
  mi_item n x : (length tk <= n)%nat -> wr !! n = Some x ->
    exists msg, last (m (Slot (place n))) = Some msg /\ msg.(value) = Item x
}.

Record producer_at (m : ring_memory) (t : thread loc) (us wr : list T) : Prop := {
  pa_wf : thread_wf m t;
  pa_head : t.(cur) Head = length us;
  pa_writes : knows_writes t.(cur) (length wr);
  pa_takes : knows_takes t.(cur) (t.(cur) Tail);
  pa_room : (length us < t.(cur) Tail + slots)%nat
}.

Definition producer_inv (m : ring_memory) (t : thread loc) (p : producer T) (us : list T) : Prop :=
  producer_at m t us (written p us) /\
  match p with
  | PIdle => True
  | PCalled _ head => head = index (length us)
  | PWrite _ head | PPublish _ head =>
    head = index (length us) /\ (S (length us) < t.(cur) Tail + slots)%nat
  end.

Record consumer_at (m : ring_memory) (t : thread loc) (ps tk : list T) : Prop := {
  ca_wf : thread_wf m t;
  ca_tail : t.(cur) Tail = length ps;
  ca_takes : knows_takes t.(cur) (length tk);
  ca_writes : knows_writes t.(cur) (t.(cur) Head);
  ca_some : (length ps <= t.(cur) Head)%nat
}.

Definition consumer_inv (m : ring_memory) (t : thread loc) (c : consumer T) (ps : list T) : Prop :=
  consumer_at m t ps (taken c ps) /\
  match c with
  | CIdle => True
  | CCalled tail => tail = index (length ps)
  | CRead tail | CAdvance tail _ => tail = index (length ps) /\ (length ps < t.(cur) Head)%nat
  end.

Record inv (c : config) : Prop := {
  inv_mem : mem_inv c.(mem) c.(pushed) c.(popped) (written c.(prod) c.(pushed)) (taken c.(cons) c.(popped));
  inv_producer : producer_inv c.(mem) c.(pview) c.(prod) c.(pushed);
  inv_consumer : consumer_inv c.(mem) c.(cview) c.(cons) c.(popped)
}.

(** ** Places and turns *)

Lemma slots_ge_2 : (2 <= slots)%nat.
Proof using CapacityOk0. destruct CapacityOk0. unfold slots. lia. Qed.

Lemma slots_capacity : Z.of_nat slots = Capacity.
Proof using CapacityOk0. destruct CapacityOk0. unfold slots. lia. Qed.

Lemma turn_place n : n = (slots * turn n + place n)%nat.
Proof using CapacityOk0. apply Nat.div_mod_eq. Qed.

Lemma place_lt n : (place n < slots)%nat.
Proof using CapacityOk0. pose proof slots_ge_2. apply Nat.mod_upper_bound. lia. Qed.

Lemma place_next n : place (n + slots) = place n.
Proof using CapacityOk0. unfold place. by rewrite <- (Nat.mul_1_l slots) at 1; rewrite Nat.Div0.mod_add. Qed.

Lemma turn_next n : turn (n + slots) = S (turn n).
Proof using CapacityOk0.
  pose proof slots_ge_2. unfold turn. rewrite <- (Nat.mul_1_l slots) at 1. rewrite Nat.div_add by lia. lia.
Qed.

(** Items that are in the ring together have different slots. *)
Lemma place_inj k n n' :
  (k <= n < k + slots)%nat -> (k <= n' < k + slots)%nat -> place n = place n' -> n = n'.
Proof using CapacityOk0.
  intros Hn Hn' E. pose proof (turn_place n). pose proof (turn_place n').
  assert (turn n = turn n') by nia. congruence.
Qed.

Lemma advance_index n : advance (index n) = index (S n).
Proof using CapacityOk0.
  unfold advance. rewrite mask_mod by done. unfold index, place.
  rewrite <- slots_capacity, !Nat2Z.inj_mod, Z.add_mod_idemp_l by (pose proof slots_ge_2; lia).
  f_equal. lia.
Qed.

Lemma index_next n : index (n + slots) = index n.
Proof using CapacityOk0. unfold index. by rewrite place_next. Qed.

Lemma index_slot n : Z.to_nat (index n) = place n.
Proof using. apply Nat2Z.id. Qed.

(** Two indices at most one turn apart are equal when the places are. *)
Lemma index_inj n n' : (n <= n' < n + slots)%nat -> index n = index n' -> n = n'.
Proof using CapacityOk0. intros H E. apply (place_inj n); [pose proof slots_ge_2; lia|done|]. unfold index in E. lia. Qed.

(** ** What a thread knows *)

Lemma knows_writes_mono a a' k : view_le a a' -> knows_writes a k -> knows_writes a' k.
Proof using. intros Ha H n Hn. specialize (H n Hn). specialize (Ha (Slot (place n))). lia. Qed.

Lemma knows_takes_mono a a' k : view_le a a' -> knows_takes a k -> knows_takes a' k.
Proof using. intros Ha H n Hn. specialize (H n Hn). specialize (Ha (Slot (place n))). lia. Qed.

Lemma knows_writes_le a k k' : (k' <= k)%nat -> knows_writes a k -> knows_writes a k'.
Proof using. intros Hk H n Hn. apply H. lia. Qed.

Lemma knows_takes_le a k k' : (k' <= k)%nat -> knows_takes a k -> knows_takes a k'.
Proof using. intros Hk H n Hn. apply H. lia. Qed.

Lemma knows_writes_S a k : knows_writes a k -> (2 * turn k + 1 <= a (Slot (place k)))%nat -> knows_writes a (S k).
Proof using. intros H Hk n Hn. destruct (decide (n = k)) as [->|]; [done|]. apply H. lia. Qed.

Lemma knows_takes_S a k : knows_takes a k -> (2 * turn k + 2 <= a (Slot (place k)))%nat -> knows_takes a (S k).
Proof using. intros H Hk n Hn. destruct (decide (n = k)) as [->|]; [done|]. apply H. lia. Qed.

(** The accesses to a slot before the producer's turn. *)
Lemma knows_takes_slot a k n :
  knows_takes a k -> (n < k + slots)%nat -> (2 * turn n <= a (Slot (place n)))%nat.
Proof using CapacityOk0.
  intros H Hn. destruct (decide (n < slots)%nat) as [Hlt|Hge].
  - unfold turn. rewrite Nat.div_small by done. lia.
  - specialize (H (n - slots)%nat ltac:(lia)).
    replace n with (n - slots + slots)%nat by lia. rewrite turn_next, place_next. lia.
Qed.

(** Acquiring an index: the load of store [k]. *)
Lemma read_index l k t (m : ring_memory) i t' :
  memory_wf m -> thread_wf m t -> read acquire l k t m = Some (Index i, t') ->
  thread_wf m t' /\ (t.(cur) l <= k < length (m l))%nat /\ view_le t.(cur) t'.(cur) /\
  exists msg, m l !! k = Some msg /\ msg.(value) = Index i /\ view_le msg.(released) t'.(cur) /\
    (forall l', l' <> l -> t'.(cur) l' = Nat.max (t.(cur) l') (msg.(released) l')) /\
    t'.(cur) l = Nat.max (Nat.max k (t.(cur) l)) (msg.(released) l).
Proof using.
  intros Hm Ht H. split; [by eapply read_wf|]. pose proof (read_cur_le _ _ _ _ _ _ _ H) as Hle.
  apply read_Some in H as (msg & Hk & Hc & Hv & _ & _ & E). pose proof (lookup_lt_Some _ _ _ Hk).
  split; [done|]. split; [done|]. exists msg. split; [done|]. split; [done|].
  split; [rewrite E; apply join_r|]. split.
  - intros l' Hl. rewrite E. unfold join. by rewrite bump_ne.
  - rewrite E. unfold join. by rewrite bump_eq.
Qed.

(** Loading an index that only this thread stores. *)
Lemma read_own l k t (m : ring_memory) v t' :
  memory_wf m -> thread_wf m t -> length (m l) = S (t.(cur) l) -> read relaxed l k t m = Some (v, t') ->
  thread_wf m t' /\ k = t.(cur) l /\ (forall l', t'.(cur) l' = t.(cur) l') /\
  exists msg, m l !! t.(cur) l = Some msg /\ v = msg.(value).
Proof using.
  intros Hm Ht Hl H. split; [by eapply read_wf|]. pose proof (read_last _ _ _ _ _ _ _ H Hl) as ->.
  split; [done|]. apply read_Some in H as (msg & Hk & _ & -> & _ & _ & E). split; [|by exists msg].
  intros l'. rewrite E. unfold bump. case_decide; subst; lia.
Qed.

(** A thread whose view does not change keeps what it knows. *)
Lemma producer_at_same m t t' us wr :
  (forall l, t'.(cur) l = t.(cur) l) -> thread_wf m t' -> producer_at m t us wr -> producer_at m t' us wr.
Proof using.
  intros E Hw []. constructor; rewrite ?E; try done.
  - intros n Hn. rewrite E. by apply pa_writes0.
  - intros n Hn. rewrite E. by apply pa_takes0.
Qed.

Lemma consumer_at_same m t t' ps tk :
  (forall l, t'.(cur) l = t.(cur) l) -> thread_wf m t' -> consumer_at m t ps tk -> consumer_at m t' ps tk.
Proof using.
  intros E Hw []. constructor; rewrite ?E; try done.
  - intros n Hn. rewrite E. by apply ca_takes0.
  - intros n Hn. rewrite E. by apply ca_writes0.
Qed.

Lemma producer_inv_extends m m' t p us : extends m m' -> producer_inv m t p us -> producer_inv m' t p us.
Proof using. intros He [[] H]. split; [|done]. constructor; try done. by eapply thread_wf_extends. Qed.

Lemma consumer_inv_extends m m' t c ps : extends m m' -> consumer_inv m t c ps -> consumer_inv m' t c ps.
Proof using. intros He [[] H]. split; [|done]. constructor; try done. by eapply thread_wf_extends. Qed.

(** Reading the other thread's index. *)
Lemma producer_acquire m t us wr ps tk k tail t' :
  mem_inv m us ps wr tk -> producer_at m t us wr -> read acquire Tail k t m = Some (Index tail, t') ->
  producer_at m t' us wr /\ tail = index k /\ (t.(cur) Tail <= k <= t'.(cur) Tail)%nat.
Proof using CapacityOk0.
  intros Hm [Hw Hh Hwr Htk Hr] H.
  destruct (read_index _ _ _ _ _ _ (mi_wf _ _ _ _ _ Hm) Hw H) as (Hw' & Hk & Hle & msg & Hmsg & Hv & Hrel & Hoth & Htail).
  destruct (mi_tail _ _ _ _ _ Hm _ _ Hmsg) as (E & Ek & Ht). rewrite E in Hv. injection Hv as <-.
  pose proof (wf_cur _ _ Hw' Head) as Hb. rewrite (mi_heads _ _ _ _ _ Hm) in Hb. cbn [pred] in Hb.
  assert (t'.(cur) Tail = k) as Ek' by lia.
  split; [|split; [done|lia]]. constructor; [done| | | |].
  - specialize (Hle Head). lia.
  - by apply (knows_writes_mono t.(cur)).
  - rewrite Ek'. by apply (knows_takes_mono msg.(released)).
  - lia.
Qed.

Lemma consumer_acquire m t us wr ps tk k head t' :
  mem_inv m us ps wr tk -> consumer_at m t ps tk -> read acquire Head k t m = Some (Index head, t') ->
  consumer_at m t' ps tk /\ head = index k /\ (t.(cur) Head <= k)%nat /\ t'.(cur) Head = k /\ (k <= length us)%nat.
Proof using CapacityOk0.
  intros Hm [Hw Hh Htk Hwr Hs] H.
  destruct (read_index _ _ _ _ _ _ (mi_wf _ _ _ _ _ Hm) Hw H) as (Hw' & Hk & Hle & msg & Hmsg & Hv & Hrel & Hoth & Hhead).
  destruct (mi_head _ _ _ _ _ Hm _ _ Hmsg) as (E & Ek & Ht). rewrite E in Hv. injection Hv as <-.
  pose proof (wf_cur _ _ Hw' Tail) as Hb. rewrite (mi_tails _ _ _ _ _ Hm) in Hb. cbn [pred] in Hb.
  rewrite (mi_heads _ _ _ _ _ Hm) in Hk. assert (t'.(cur) Head = k) as Ek' by lia.
  split; [|split; [done|lia]]. constructor; [done| | | |].
  - specialize (Hle Tail). lia.
  - by apply (knows_takes_mono t.(cur)).
  - rewrite Ek'. by apply (knows_writes_mono msg.(released)).
  - lia.
Qed.

(** ** The producer's steps *)

Definition producer_ok (m : ring_memory) (t : thread loc) (p : producer T) (us ps tk : list T) : Prop :=
  mem_inv m us ps (written p us) tk /\ producer_inv m t p us.

(** The slot the producer writes is its own. *)
Lemma write_slot_known m t us ps tk :
  mem_inv m us ps us tk -> producer_at m t us us -> (S (length us) < t.(cur) Tail + slots)%nat ->
  (length ps <= length tk)%nat ->
  (length tk <= length us < length tk + slots)%nat /\
  length (m (Slot (place (length us)))) = S (t.(cur) (Slot (place (length us)))) /\
  t.(cur) (Slot (place (length us))) = (2 * turn (length us))%nat.
Proof using CapacityOk0.
  intros Hm [Hw Hh Hwr Htk Hr] Hroom Hps.
  pose proof (prefix_length _ _ (mi_prefix _ _ _ _ _ Hm)) as Hle.
  pose proof (wf_cur _ _ Hw Tail) as Ht. rewrite (mi_tails _ _ _ _ _ Hm) in Ht. cbn [pred] in Ht.
  assert (length tk <= length us < length tk + slots)%nat as Hwin by lia. split; [done|].
  pose proof (mi_slot _ _ _ _ _ Hm _ Hwin) as Hl. rewrite Nat.ltb_irrefl in Hl.
  pose proof (wf_cur _ _ Hw (Slot (place (length us)))) as Hb.
  pose proof (knows_takes_slot _ _ (length us) Htk ltac:(lia)). lia.
Qed.

Lemma write_step m t us ps tk item head x t' m' :
  producer_ok m t (PWrite item head) us ps tk -> (length ps <= length tk)%nat ->
  access (Slot (Z.to_nat head)) (assign item) t m = Some (x, t', m') ->
  producer_ok m' t' (PPublish item head) us ps tk.
Proof using CapacityOk0.
  intros [Hm [Ha [-> Hroom]]] Hps H. cbn [written] in *. rewrite index_slot in H.
  destruct (write_slot_known _ _ _ _ _ Hm Ha Hroom Hps) as (Hwin & Hl & Hc).
  destruct Ha as [Hw Hh Hwr Htk Hr]. destruct Hm as [Hmw Hmh Hmt Hhd Htl Hpre Hrm Hsl Hit].
  destruct (access_wf _ _ _ _ _ _ _ Hmw Hw H) as (Hmw' & Hw' & _).
  apply access_Some in H as (_ & _ & -> & ->).
  assert (forall n, (length tk <= n < length tk + slots)%nat -> n <> length us -> Slot (place n) <> Slot (place (length us))) as Hne.
  { intros n Hn HW [= E]. apply HW. by apply (place_inj (length tk)). }
  split; cbn [written].
  - constructor.
    + done.
    + by rewrite store_ne.
    + by rewrite store_ne.
    + intros j msg Hj. rewrite store_ne in Hj by done. by apply Hhd.
    + intros j msg Hj. rewrite store_ne in Hj by done. by apply Htl.
    + by apply prefix_app_r.
    + rewrite length_app. cbn [length]. lia.
    + intros n Hn. rewrite length_app. cbn [length]. destruct (decide (n = length us)) as [->|HnW].
      * rewrite store_eq, length_app. cbn [length]. destruct (Nat.ltb_spec (length us) (length us + 1)); lia.
      * rewrite store_ne by (by apply Hne). rewrite Hsl by done.
        destruct (Nat.ltb_spec n (length us)), (Nat.ltb_spec n (length us + 1)); lia.
    + intros n y Hn Hy. apply lookup_snoc_Some in Hy as [[Hlt Hy]|[-> <-]].
      * rewrite store_ne; [by apply Hit|]. apply Hne; lia.
      * rewrite store_eq, last_snoc. by eexists.
  - split; [|done]. constructor; cbn [cur]; [done|by rewrite bump_ne| | |by rewrite bump_ne].
    + cbn [written]. rewrite length_app, Nat.add_1_r. apply knows_writes_S.
      * eapply knows_writes_mono; [apply bump_le|done].
      * rewrite bump_eq. lia.
    + rewrite bump_ne by done. eapply knows_takes_mono; [apply bump_le|done].
Qed.

Lemma publish_step m t us ps tk item head t' m' :
  producer_ok m t (PPublish item head) us ps tk ->
  write release Head (Index (advance head)) t m = Some (t', m') ->
  producer_ok m' t' PIdle (us ++ [item]) ps tk.
Proof using CapacityOk0.
  intros [Hm [Ha [-> Hroom]]] H. cbn [written] in *. rewrite advance_index in H.
  destruct Ha as [Hw Hh Hwr Htk Hr]. destruct Hm as [Hmw Hmh Hmt Hhd Htl Hpre Hrm Hsl Hit].
  destruct (write_wf _ _ _ _ _ _ _ Hmw Hw H) as (Hmw' & Hw' & _).
  apply write_Some in H as (_ & -> & ->). rewrite length_app, Nat.add_1_r in *. cbn [length] in *.
  split; cbn [written].
  - constructor; rewrite ?length_app, ?Nat.add_1_r; [done| |by rewrite store_ne| | |done|done| |].
    + rewrite store_eq, length_app. cbn [length]. lia.
    + intros j msg Hj. apply store_lookup in Hj as [Hj|(_ & -> & ->)]; [by apply Hhd|]. cbn [value released].
      rewrite Hmh. split; [done|]. split; [rewrite bump_eq; lia|].
      eapply knows_writes_mono; [apply bump_le|done].
    + intros j msg Hj. rewrite store_ne in Hj by done. by apply Htl.
    + intros n Hn. rewrite store_ne by done. by apply Hsl.
    + intros n x Hn Hx. rewrite store_ne by done. by apply Hit.
  - split; [|done]. constructor; cbn [cur written]; rewrite ?length_app, ?Nat.add_1_r;
      [done|rewrite bump_eq; lia| | |rewrite bump_ne by done; lia].
    + eapply knows_writes_mono; [apply bump_le|done].
    + rewrite bump_ne by done. eapply knows_takes_mono; [apply bump_le|done].
Qed.

Lemma producer_step_inv m t p us m' t' p' us' ps tk :
  producer_step m t p us m' t' p' us' -> (length ps <= length tk)%nat -> producer_ok m t p us ps tk ->
  producer_ok m' t' p' us' ps tk /\ extends m m'.
Proof using CapacityOk0.
  intros Hs Hps Hok. pose proof (mi_wf _ _ _ _ _ (proj1 Hok)) as Hmw.
  pose proof (pa_wf _ _ _ _ (proj1 (proj2 Hok))) as Htw.
  destruct Hs as [m t us item k head t' H|m t us item head k tail t' H E|m t us item head k tail t' H E
                 |m t us item head x t' m' H|m t us item head t' m' H].
  - destruct Hok as [Hm [Ha _]]. split; [|done]. split; [done|].
    assert (length (m Head) = S (cur t Head)) as Hl by (rewrite (pa_head _ _ _ _ Ha); apply Hm).
    destruct (read_own _ _ _ _ _ _ Hmw Htw Hl H) as (Hw' & _ & Ec & msg & Hmsg & Ev).
    split; [by eapply producer_at_same|]. cbn. rewrite (pa_head _ _ _ _ Ha) in Hmsg.
    destruct (mi_head _ _ _ _ _ Hm _ _ Hmsg) as [Ei _]. rewrite Ei in Ev. by injection Ev.
  - destruct Hok as [Hm [Ha _]]. destruct (producer_acquire _ _ _ _ _ _ _ _ _ Hm Ha H) as (Ha' & _). done.
  - destruct Hok as [Hm [Ha ->]]. destruct (producer_acquire _ _ _ _ _ _ _ _ _ Hm Ha H) as (Ha' & -> & Hk).
    split; [|done]. split; [done|]. split; [done|]. split; [done|]. rewrite advance_index in E.
    pose proof (pa_room _ _ _ _ Ha) as Hr. cbn [written] in Hr.
    destruct (decide (S (length us) = k + slots)%nat) as [Eq|]; [|lia].
    destruct E. by rewrite Eq, index_next.
  - split; [by eapply write_step|]. by apply (access_wf _ _ _ _ _ _ _ Hmw Htw H).
  - split; [by eapply publish_step|]. by apply (write_wf _ _ _ _ _ _ _ Hmw Htw H).
Qed.

(** ** The consumer's steps *)

Definition consumer_ok (m : ring_memory) (t : thread loc) (c : consumer T) (us wr ps : list T) : Prop :=
  mem_inv m us ps wr (taken c ps) /\ consumer_inv m t c ps.

(** The slot the consumer reads holds the next item. *)
Lemma read_slot_known m t us wr ps :
  mem_inv m us ps wr ps -> consumer_at m t ps ps -> (length ps < t.(cur) Head)%nat -> (length us <= length wr)%nat ->
  (length ps < length us)%nat /\
  length (m (Slot (place (length ps)))) = S (t.(cur) (Slot (place (length ps)))) /\
  t.(cur) (Slot (place (length ps))) = (2 * turn (length ps) + 1)%nat /\
  exists x msg, wr !! length ps = Some x /\ last (m (Slot (place (length ps)))) = Some msg /\ msg.(value) = Item x.
Proof using CapacityOk0.
  intros Hm [Hw Ht Htk Hwr Hs] Hlt Hus. pose proof slots_ge_2.
  pose proof (wf_cur _ _ Hw Head) as Hh. rewrite (mi_heads _ _ _ _ _ Hm) in Hh. cbn [pred] in Hh.
  split; [lia|].
  pose proof (mi_slot _ _ _ _ _ Hm (length ps) ltac:(lia)) as Hl.
  rewrite (proj2 (Nat.ltb_lt _ _)) in Hl by lia.
  pose proof (wf_cur _ _ Hw (Slot (place (length ps)))) as Hb. pose proof (Hwr _ Hlt) as Hk.
  split; [lia|]. split; [lia|].
  destruct (lookup_lt_is_Some_2 wr (length ps)) as [x Hx]; [lia|].
  destruct (mi_item _ _ _ _ _ Hm (length ps) x ltac:(lia) Hx) as (msg & Hlast & Hv).
  by exists x, msg.
Qed.

Lemma read_step m t us wr ps tail out t' m' :
  consumer_ok m t (CRead tail) us wr ps -> (length us <= length wr)%nat ->
  access (Slot (Z.to_nat tail)) move_from t m = Some (Item out, t', m') ->
  consumer_ok m' t' (CAdvance tail out) us wr ps.
Proof using CapacityOk0.
  intros [Hm [Ha [-> Hsome]]] Hus H. cbn [taken] in *. rewrite index_slot in H.
  destruct (read_slot_known _ _ _ _ _ Hm Ha Hsome Hus) as (Hlt & Hl & Hc & x & msg & Hx & Hlast & Hv).
  destruct Ha as [Hw Ht Htk Hwr Hs]. destruct Hm as [Hmw Hmh Hmt Hhd Htl Hpre Hrm Hsl Hit].
  destruct (access_wf _ _ _ _ _ _ _ Hmw Hw H) as (Hmw' & Hw' & _).
  apply access_Some in H as (_ & (msg' & Hlast' & Ex) & -> & ->).
  rewrite Hlast in Hlast'. injection Hlast' as <-. rewrite Hv in Ex. injection Ex as ->.
  assert (forall n, (S (length ps) <= n < length ps + slots)%nat -> Slot (place n) <> Slot (place (length ps))) as Hne.
  { intros n Hn [= E]. apply (place_inj (length ps)) in E; lia. }
  split; cbn [taken].
  - constructor; rewrite ?length_app, ?Nat.add_1_r; cbn [length].
    + done.
    + by rewrite store_ne.
    + by rewrite store_ne.
    + intros j y Hj. rewrite store_ne in Hj by done. by apply Hhd.
    + intros j y Hj. rewrite store_ne in Hj by done. by apply Htl.
    + destruct Hpre as [rest ->]. rewrite lookup_app_r, Nat.sub_diag in Hx by lia.
      destruct rest as [|y rest]; [done|]. injection Hx as ->. exists rest. by rewrite <- app_assoc.
    + lia.
    + intros n Hn. destruct (decide (n < length ps + slots)%nat) as [Hn'|Hn'].
      * rewrite store_ne by (apply Hne; lia). apply Hsl. lia.
      * assert (n = length ps + slots)%nat as -> by lia.
        rewrite place_next, turn_next, store_eq, length_app. cbn [length].
        destruct (Nat.ltb_spec (length ps + slots) (length wr)); lia.
    + intros n y Hn Hy. pose proof (lookup_lt_Some _ _ _ Hy).
      rewrite store_ne by (apply Hne; lia). apply Hit; [lia|done].
  - split; [|by cbn [cur]; rewrite bump_ne].
    constructor; cbn [cur taken]; [done|by rewrite bump_ne| | |by rewrite bump_ne].
    + rewrite length_app, Nat.add_1_r. apply knows_takes_S.
      * eapply knows_takes_mono; [apply bump_le|done].
      * rewrite bump_eq. lia.
    + rewrite bump_ne by done. eapply knows_writes_mono; [apply bump_le|done].
Qed.

Lemma advance_step m t us wr ps tail out t' m' :
  consumer_ok m t (CAdvance tail out) us wr ps ->
  write release Tail (Index (advance tail)) t m = Some (t', m') ->
  consumer_ok m' t' CIdle us wr (ps ++ [out]).
Proof using CapacityOk0.
  intros [Hm [Ha [-> Hsome]]] H. cbn [taken] in *. rewrite advance_index in H.
  destruct Ha as [Hw Ht Htk Hwr Hs]. destruct Hm as [Hmw Hmh Hmt Hhd Htl Hpre Hrm Hsl Hit].
  destruct (write_wf _ _ _ _ _ _ _ Hmw Hw H) as (Hmw' & Hw' & _).
  apply write_Some in H as (_ & -> & ->). rewrite length_app, Nat.add_1_r in *. cbn [length] in *.
  split; cbn [taken].
  - constructor; rewrite ?length_app, ?Nat.add_1_r; [done|by rewrite store_ne| | | |done|done| |].
    + rewrite store_eq, length_app. cbn [length]. lia.
    + intros j msg Hj. rewrite store_ne in Hj by done. by apply Hhd.
    + intros j msg Hj. apply store_lookup in Hj as [Hj|(_ & -> & ->)]; [by apply Htl|]. cbn [value released].
      rewrite Hmt. split; [done|]. split; [rewrite bump_eq; lia|].
      eapply knows_takes_mono; [apply bump_le|done].
    + intros n Hn. rewrite store_ne by done. by apply Hsl.
    + intros n x Hn Hx. rewrite store_ne by done. by apply Hit.
  - split; [|done]. constructor; cbn [cur taken]; rewrite ?length_app, ?Nat.add_1_r; cbn [length];
      [done|rewrite bump_eq; lia| | |rewrite bump_ne by done; lia].
    + eapply knows_takes_mono; [apply bump_le|done].
    + rewrite bump_ne by done. eapply knows_writes_mono; [apply bump_le|done].
Qed.

Lemma consumer_step_inv m t c ps m' t' c' ps' us wr :
  consumer_step m t c ps m' t' c' ps' -> (length us <= length wr)%nat -> consumer_ok m t c us wr ps ->
  consumer_ok m' t' c' us wr ps' /\ extends m m'.
Proof using CapacityOk0.
  intros Hs Hus Hok. pose proof (mi_wf _ _ _ _ _ (proj1 Hok)) as Hmw.
  pose proof (ca_wf _ _ _ _ (proj1 (proj2 Hok))) as Htw.
  destruct Hs as [m t ps k tail t' H|m t ps tail k head t' H E|m t ps tail k head t' H E
                 |m t ps tail out t' m' H|m t ps tail out t' m' H].
  - destruct Hok as [Hm [Ha _]]. split; [|done]. split; [done|].
    assert (length (m Tail) = S (cur t Tail)) as Hl by (rewrite (ca_tail _ _ _ _ Ha); apply Hm).
    destruct (read_own _ _ _ _ _ _ Hmw Htw Hl H) as (Hw' & _ & Ec & msg & Hmsg & Ev).
    split; [by eapply consumer_at_same|]. cbn. rewrite (ca_tail _ _ _ _ Ha) in Hmsg.
    destruct (mi_tail _ _ _ _ _ Hm _ _ Hmsg) as [Ei _]. rewrite Ei in Ev. by injection Ev.
  - destruct Hok as [Hm [Ha _]]. destruct (consumer_acquire _ _ _ _ _ _ _ _ _ Hm Ha H) as (Ha' & _). done.
  - destruct Hok as [Hm [Ha ->]]. destruct (consumer_acquire _ _ _ _ _ _ _ _ _ Hm Ha H) as (Ha' & -> & Hk & Ek & _).
    split; [|done]. split; [done|]. split; [done|]. split; [done|]. rewrite Ek.
    pose proof (ca_some _ _ _ _ Ha) as Hsome. assert (length ps <> k) by (by intros <-). lia.
  - split; [by eapply read_step|]. by apply (access_wf _ _ _ _ _ _ _ Hmw Htw H).
  - split; [by eapply advance_step|]. by apply (write_wf _ _ _ _ _ _ _ Hmw Htw H).
Qed.

(** ** All steps *)

Lemma written_length p (us : list T) : (length us <= length (written p us))%nat.
Proof using. destruct p; cbn; rewrite ?length_app; lia. Qed.

Lemma taken_length c (ps : list T) : (length ps <= length (taken c ps))%nat.
Proof using. destruct c; cbn; rewrite ?length_app; lia. Qed.

Lemma ring_step_inv c c' : step c c' -> inv c -> inv c'.
Proof using CapacityOk0.
  intros Hs [Hm Hp Hc]. destruct Hs as [m t p tc c us ps m' t' p' us' Hs|m t p tc c us ps m' tc' c' ps' Hs];
    cbn [mem pview prod cview cons pushed popped] in *.
  - destruct (producer_step_inv _ _ _ _ _ _ _ _ _ _ Hs (taken_length c ps) (conj Hm Hp)) as [[Hm' Hp'] He].
    constructor; cbn; [done|done|]. by eapply consumer_inv_extends.
  - destruct (consumer_step_inv _ _ _ _ _ _ _ _ _ _ Hs (written_length p us) (conj Hm Hc)) as [[Hm' Hc'] He].
    constructor; cbn; [done| |done]. by eapply producer_inv_extends.
Qed.

Lemma construct_released x l k msg : construct x l !! k = Some msg -> k = 0%nat /\ msg.(released) = bottom.
Proof using.
  destruct l as [| |i]; cbn; [destruct k; [|done]; by intros [= <-]..|].
  case_decide; [|done]. destruct k; [|done]. by intros [= <-].
Qed.

Lemma index_0 : index 0 = 0.
Proof using CapacityOk0. unfold index, place. by rewrite Nat.Div0.mod_0_l. Qed.

Lemma ring_initial_inv x : inv (initial x).
Proof using CapacityOk0.
  pose proof slots_ge_2. constructor; cbn.
  - constructor; cbn [written taken length]; try done.
    + intros l k msg Hk. apply construct_released in Hk as [_ ->]. apply bounded_bottom.
    + intros j msg Hj. pose proof (construct_released x Head j msg Hj) as [-> _]. injection Hj as <-.
      rewrite index_0. split; [done|]. split; [done|]. intros n Hn. lia.
    + intros j msg Hj. pose proof (construct_released x Tail j msg Hj) as [-> _]. injection Hj as <-.
      rewrite index_0. split; [done|]. split; [done|]. intros n Hn. lia.
    + lia.
    + intros n Hn. cbn [construct]. rewrite decide_True by apply place_lt.
      unfold turn. rewrite Nat.div_small by lia. done.
  - split; [|done]. constructor; cbn; [apply fresh_wf|done| | |unfold bottom; lia]; intros n Hn; unfold bottom in Hn; lia.
  - split; [|done]. constructor; cbn; [apply fresh_wf|done| | |unfold bottom; lia]; intros n Hn; unfold bottom in Hn; lia.
Qed.

Lemma ring_reachable_inv x c : reachable x c -> inv c.
Proof using CapacityOk0.
  intros H. pose proof (ring_initial_inv x) as Hi. unfold reachable in H.
  induction H as [|a b c Hab _ IH]; [done|]. apply IH. by eapply ring_step_inv.
Qed.

(** ** No thread is stuck *)

Lemma access_total l f t (m : ring_memory) msg :
  length (m l) = S (t.(cur) l) -> last (m l) = Some msg ->
  exists t' m', access l f t m = Some (msg.(value), t', m').
Proof using. intros Hl Hm. unfold access. apply knows_last_spec in Hl as ->. rewrite Hm. by eexists _, _. Qed.

Lemma producer_access m t p us ps tk :
  mem_inv m us ps (written p us) tk -> producer_inv m t p us -> (length ps <= length tk)%nat ->
  forall item head, p = PWrite item head -> is_Some (access (Slot (Z.to_nat head)) (assign item) t m).
Proof using CapacityOk0.
  intros Hm Hp Hps item head ->. destruct Hp as [Ha [-> Hroom]]. cbn [written] in *. rewrite index_slot.
  destruct (write_slot_known _ _ _ _ _ Hm Ha Hroom Hps) as (_ & Hl & _).
  destruct (last (m (Slot (place (length us))))) as [msg|] eqn:E; [|apply last_None in E; by rewrite E in Hl].
  destruct (access_total _ (assign item) t m msg Hl E) as (t' & m' & ->). by eexists.
Qed.

Lemma consumer_access m t c us wr ps :
  mem_inv m us ps wr (taken c ps) -> consumer_inv m t c ps -> (length us <= length wr)%nat ->
  forall tail, c = CRead tail ->
  exists out t' m', access (Slot (Z.to_nat tail)) move_from t m = Some (Item out, t', m').
Proof using CapacityOk0.
  intros Hm Hc Hus tail ->. destruct Hc as [Ha [-> Hsome]]. cbn [taken] in *. rewrite index_slot.
  destruct (read_slot_known _ _ _ _ _ Hm Ha Hsome Hus) as (_ & Hl & _ & x & msg & _ & Hlast & Hv).
  destruct (access_total _ move_from t m msg Hl Hlast) as (t' & m' & E). rewrite Hv in E.
  by exists x, t', m'.
Qed.

(** The newest store to an index can be loaded. *)
Lemma index_total o l t m us ps wr tk :
  mem_inv m us ps wr tk -> thread_wf m t -> l = Head \/ l = Tail ->
  exists k i t', read o l k t m = Some (Index i, t').
Proof using.
  intros Hm Hw Hl.
  assert (m l <> []) as Hne.
  { intros E. pose proof (mi_heads _ _ _ _ _ Hm) as Hh. pose proof (mi_tails _ _ _ _ _ Hm) as Ht.
    destruct Hl as [-> | ->]; by rewrite E in *. }
  destruct (read_total o l t m (wf_cur _ _ Hw) Hne) as (v & t' & H).
  pose proof H as H'. apply read_Some in H' as (msg & Hmsg & _ & -> & _).
  assert (exists j, msg.(value) = Index (index j)) as [j Hj].
  { destruct Hl as [-> | ->]; eexists;
      [apply (mi_head _ _ _ _ _ Hm _ _ Hmsg)|apply (mi_tail _ _ _ _ _ Hm _ _ Hmsg)]. }
  rewrite Hj in H. by eexists _, _, _.
Qed.

Lemma producer_can_step m t p us ps tk :
  mem_inv m us ps (written p us) tk -> producer_inv m t p us ->
  (forall item head, p = PWrite item head -> is_Some (access (Slot (Z.to_nat head)) (assign item) t m)) ->
  p <> PIdle -> exists m' t' p' us', producer_step m t p us m' t' p' us'.
Proof using CapacityOk0.
  intros Hm [Ha _] Hacc Hne. pose proof (pa_wf _ _ _ _ Ha) as Hw.
  destruct p as [|item head|item head|item head]; [done|..].
  - destruct (index_total acquire Tail t m _ _ _ _ Hm Hw ltac:(by right)) as (k & i & t' & H).
    destruct (decide (advance head = i)); eexists _, _, _, _; [by eapply p_full|by eapply p_room].
  - destruct (Hacc item head eq_refl) as [[[x t'] m'] H]. eexists _, _, _, _. by eapply p_write.
  - destruct (write_total release Head (Index (advance head)) t m) as (t' & m' & H).
    { rewrite (pa_head _ _ _ _ Ha). apply Hm. }
    eexists _, _, _, _. by eapply p_publish.
Qed.

Lemma consumer_can_step m t c us wr ps :
  mem_inv m us ps wr (taken c ps) -> consumer_inv m t c ps ->
  (forall tail, c = CRead tail ->
     exists out t' m', access (Slot (Z.to_nat tail)) move_from t m = Some (Item out, t', m')) ->
  c <> CIdle -> exists m' t' c' ps', consumer_step m t c ps m' t' c' ps'.
Proof using CapacityOk0.
  intros Hm [Ha _] Hacc Hne. pose proof (ca_wf _ _ _ _ Ha) as Hw.
  destruct c as [|tail|tail|tail out]; [done|..].
  - destruct (index_total acquire Head t m _ _ _ _ Hm Hw ltac:(by left)) as (k & i & t' & H).
    destruct (decide (tail = i)); eexists _, _, _, _; [by eapply c_empty|by eapply c_some].
  - destruct (Hacc tail eq_refl) as (out & t' & m' & H). eexists _, _, _, _. by eapply c_read.
  - destruct (write_total release Tail (Index (advance tail)) t m) as (t' & m' & H).
    { rewrite (ca_tail _ _ _ _ Ha). apply Hm. }
    eexists _, _, _, _. by eapply c_advance.
Qed.

(** What was received is a prefix of what was published. *)
Lemma received_prefix x c :
  reachable x c -> c.(popped) `prefix_of` c.(pushed) /\ (length c.(pushed) < length c.(popped) + slots)%nat.
Proof using CapacityOk0.
  intros H. apply ring_reachable_inv in H as [Hm [Hp _] [Hc Hcs]].
  pose proof (wf_cur _ _ (pa_wf _ _ _ _ Hp) Tail) as Ht. rewrite (mi_tails _ _ _ _ _ Hm) in Ht.
  pose proof (wf_cur _ _ (ca_wf _ _ _ _ Hc) Head) as Hh. rewrite (mi_heads _ _ _ _ _ Hm) in Hh.
  cbn [pred] in Ht, Hh. pose proof (pa_room _ _ _ _ Hp) as Hr. pose proof (ca_some _ _ _ _ Hc) as Hs.
  assert (c.(popped) `prefix_of` written c.(prod) c.(pushed)) as Hpre.
  { etrans; [|apply Hm]. destruct (cons c); cbn; try done. by apply prefix_app_r. }
  split; [|lia]. assert (c.(pushed) `prefix_of` written c.(prod) c.(pushed)) as Hus
      by (destruct (prod c); cbn; try done; by apply prefix_app_r).
  destruct (prefix_weak_total _ _ _ Hpre Hus) as [H'|H']; [done|].
  apply prefix_length_eq in H'; [by rewrite H'|lia].
Qed.

(** The next access of a thread to a slot is not a data race. *)
Lemma slot_access_ok x c :
  reachable x c ->
  (forall item head, c.(prod) = PWrite item head ->
     is_Some (access (Slot (Z.to_nat head)) (assign item) c.(pview) c.(mem))) /\
  (forall tail, c.(cons) = CRead tail ->
     exists out t m, access (Slot (Z.to_nat tail)) move_from c.(cview) c.(mem) = Some (Item out, t, m)).
Proof using CapacityOk0.
  intros H. apply ring_reachable_inv in H as [Hm Hp Hc]. destruct c as [m t p tc c us ps].
  cbn [mem pview prod cview cons pushed popped] in *. split.
  - exact (producer_access m t p us ps (taken c ps) Hm Hp (taken_length c ps)).
  - exact (consumer_access m tc c us (written p us) ps Hm Hc (written_length p us)).
Qed.

(** ** Properties *)

(** C9: the ring under release/acquire memory.  Whatever older values of the
    indices the two threads may load, in every execution what the consumer
    has received is a prefix of what the producer has published, nothing lost,
    repeated or out of order, and at most [Capacity - 1] items are in
    between. *)
Theorem ring_release_acquire x c :
  reachable x c ->
  exists queued, c.(pushed) = c.(popped) ++ queued /\ Z.of_nat (length queued) <= Capacity - 1.
Proof using CapacityOk0.
  intros H. destruct (received_prefix x c H) as [[queued Hq] Hl]. exists queued. split; [done|].
  apply (f_equal length) in Hq. rewrite length_app in Hq. pose proof slots_capacity. lia.
Qed.

(** C23: no data race, no stuck thread.  In every reachable state: an access to
    a slot that a thread is about to make happens after all earlier accesses
    to it, so it is not a data race, and the consumer finds an item; and a
    thread inside an operation can take its next step whatever the other
    does. *)
Theorem ring_weak_race_free x c :
  reachable x c ->
  (forall item head, c.(prod) = PWrite item head ->
     is_Some (access (Slot (Z.to_nat head)) (assign item) c.(pview) c.(mem))) /\
  (forall tail, c.(cons) = CRead tail ->
     exists out t m, access (Slot (Z.to_nat tail)) move_from c.(cview) c.(mem) = Some (Item out, t, m)) /\
  (c.(prod) <> PIdle -> exists m t p us, producer_step c.(mem) c.(pview) c.(prod) c.(pushed) m t p us) /\
  (c.(cons) <> CIdle -> exists m t q ps, consumer_step c.(mem) c.(cview) c.(cons) c.(popped) m t q ps).
Proof using CapacityOk0.
  intros H. destruct (slot_access_ok x c H) as [Hpa Hca]. apply ring_reachable_inv in H as [Hm Hp Hc].
  split; [exact Hpa|]. split; [exact Hca|]. split.
  - intros Hne. eapply producer_can_step; [exact Hm|exact Hp|exact Hpa|exact Hne].
  - intros Hne. eapply consumer_can_step; [exact Hm|exact Hc|exact Hca|exact Hne].
Qed.

End Threads.

(** ** Concrete executions *)

Ltac producer_does c := eapply rtc_l; [apply step_producer; c|].
Ltac consumer_does c := eapply rtc_l; [apply step_consumer; c|].

(** Four slots.  7 is published; a [try_pop] that does not see it yet reports
    an empty ring; the next one sees it, while the producer is about to write
    8 into the slot beside it. *)
Lemma stale_index_run : exists c, reachable 4 (fun _ : Z => -1) 0 c /\
  c.(prod) = PWrite 8 1 /\ c.(cons) = CRead 0 /\ c.(pushed) = [7] /\ c.(popped) = [].
Proof.
  eexists. split.
  - unfold reachable, initial.
    producer_does ltac:(apply (p_call _ _ _ _ 7 0 0); reflexivity).
    producer_does ltac:(apply (p_room _ _ _ _ _ _ 0 0); [reflexivity|discriminate]).
    producer_does ltac:(eapply p_write; reflexivity).
    producer_does ltac:(apply p_publish; reflexivity).
    consumer_does ltac:(apply (c_call _ _ _ _ _ 0 0); reflexivity).
    consumer_does ltac:(apply (c_empty _ _ _ _ _ _ 0 0); reflexivity).
    consumer_does ltac:(apply (c_call _ _ _ _ _ 0 0); reflexivity).
    consumer_does ltac:(apply (c_some _ _ _ _ _ _ 1 1); [reflexivity|discriminate]).
    producer_does ltac:(apply (p_call _ _ _ _ 8 1 1); reflexivity).
    producer_does ltac:(apply (p_room _ _ _ _ _ _ 0 0); [reflexivity|discriminate]).
    apply rtc_refl.
  - repeat split; reflexivity.
Qed.

Lemma ring_release_acquire_witness :
  exists c, reachable 4 (fun _ : Z => -1) 0 c /\ c.(pushed) = [7] /\
    exists queued, c.(pushed) = c.(popped) ++ queued /\ Z.of_nat (length queued) <= 4 - 1.
Proof.
  destruct stale_index_run as (c & Hc & _ & _ & Hp & _). exists c. split; [exact Hc|]. split; [exact Hp|].
  exact (ring_release_acquire 4 (fun _ : Z => -1) 0 c Hc).
Defined.

Lemma ring_weak_race_free_witness :
  exists c, reachable 4 (fun _ : Z => -1) 0 c /\ c.(prod) = PWrite 8 1 /\
    is_Some (access (Slot 1) (assign 8) c.(pview) c.(mem)).
Proof.
  destruct stale_index_run as (c & Hc & Hp & _). exists c. split; [exact Hc|]. split; [exact Hp|].
  exact (proj1 (ring_weak_race_free 4 (fun _ : Z => -1) 0 c Hc) 8 1 Hp).
Defined.

End RingWeak.
