(* ===== verification/RingLink.v ===== *)
(** * The two models of the ring

    The interleaving semantics of [RingConcurrency.v] is the part of
    [RingWeak.v] in which every load returns the newest value: each of its
    executions (of [try_push] and [try_pop]) is one under release/acquire
    memory, step by step.  What [RingWeak.v] proves of all executions holds of
    the interleavings. *)

From S2P Require Export RingConcurrency RingWeak.
#[local] Open Scope Z_scope.

Module RingLink.
Import WeakMemory.

Section Link.
Context {T : Type} (Capacity : Z) (moved_from : T -> T) {HC : SpscRing.CapacityOk Capacity}.

(** The same point of the program. *)
Definition same_producer (p : RingConcurrency.producer T) (q : RingWeak.producer T) : Prop :=
  match p, q with
  | RingConcurrency.PIdle, RingWeak.PIdle => True
  | RingConcurrency.PCalled x h, RingWeak.PCalled y k
  | RingConcurrency.PWrite x h, RingWeak.PWrite y k
  | RingConcurrency.PPublish x h, RingWeak.PPublish y k => x = y /\ h = k
  | _, _ => False
  end.

Definition same_consumer (c : RingConcurrency.consumer T) (d : RingWeak.consumer T) : Prop :=
  match c, d with
  | RingConcurrency.CIdle, RingWeak.CIdle => True
  | RingConcurrency.CCalled t, RingWeak.CCalled u | RingConcurrency.CRead t, RingWeak.CRead u => t = u
  | RingConcurrency.CAdvance t x, RingWeak.CAdvance u y => t = u /\ x = y
  | _, _ => False
  end.

(** The newest store to each slot is what the array holds. *)
Definition same_slots (buffer : list T) (m : memory RingWeak.loc (RingWeak.cell T)) : Prop :=
  forall i x, buffer !! i = Some x ->
  exists msg, last (m (RingWeak.Slot i)) = Some msg /\ msg.(value) = RingWeak.Item x.

Record related (s : RingConcurrency.config T) (w : RingWeak.config (T := T)) : Prop := {
  re_inv : RingWeak.inv Capacity w;
  re_prod : same_producer s.(RingConcurrency.prod) w.(RingWeak.prod);
  re_cons : same_consumer s.(RingConcurrency.cons) w.(RingWeak.cons);
  re_pushed : s.(RingConcurrency.pushed) = w.(RingWeak.pushed);
  re_popped : s.(RingConcurrency.popped) = w.(RingWeak.popped);
  re_head : SpscRing.head_ s.(RingConcurrency.ring) = RingWeak.index Capacity (length w.(RingWeak.pushed));
  re_tail : SpscRing.tail_ s.(RingConcurrency.ring) = RingWeak.index Capacity (length w.(RingWeak.popped));
  re_slots : same_slots (SpscRing.buffer_ s.(RingConcurrency.ring)) w.(RingWeak.mem)
}.

(** Loading the newest index. *)
Lemma newest_head o t m (us ps wr tk : list T) :
  RingWeak.mem_inv Capacity m us ps wr tk -> thread_wf m t ->
  exists k t', read o RingWeak.Head k t m = Some (RingWeak.Index (RingWeak.index Capacity (length us)), t').
Proof using.
  intros Hm Hw. pose proof (RingWeak.mi_heads _ _ _ _ _ _ Hm) as Hl.
  destruct (read_total o RingWeak.Head t m (wf_cur _ _ Hw)) as (v & t' & H); [by intros E; rewrite E in Hl|].
  rewrite Hl in H. cbn [pred] in H. exists (length us), t'. rewrite H.
  apply read_Some in H as (msg & Hmsg & _ & -> & _).
  by rewrite (proj1 (RingWeak.mi_head _ _ _ _ _ _ Hm _ _ Hmsg)).
Qed.

Lemma newest_tail o t m (us ps wr tk : list T) :
  RingWeak.mem_inv Capacity m us ps wr tk -> thread_wf m t ->
  exists k t', read o RingWeak.Tail k t m = Some (RingWeak.Index (RingWeak.index Capacity (length ps)), t').
Proof using.
  intros Hm Hw. pose proof (RingWeak.mi_tails _ _ _ _ _ _ Hm) as Hl.
  destruct (read_total o RingWeak.Tail t m (wf_cur _ _ Hw)) as (v & t' & H); [by intros E; rewrite E in Hl|].
  rewrite Hl in H. cbn [pred] in H. exists (length ps), t'. rewrite H.
  apply read_Some in H as (msg & Hmsg & _ & -> & _).
  by rewrite (proj1 (RingWeak.mi_tail _ _ _ _ _ _ Hm _ _ Hmsg)).
Qed.

(** An access to a slot keeps the slots the same. *)
Lemma same_slots_access buffer m i f t v t' m' x y :
  same_slots buffer m -> access (RingWeak.Slot i) f t m = Some (v, t', m') ->
  buffer !! i = Some x -> f (RingWeak.Item x) = RingWeak.Item y ->
  v = RingWeak.Item x /\ same_slots (<[i := y]> buffer) m'.
Proof using.
  intros Hs H Hx Hf. apply access_Some in H as (_ & (msg & Hl & ->) & -> & _).
  destruct (Hs _ _ Hx) as (msg' & Hl' & Hv). rewrite Hl in Hl'. injection Hl' as <-. split; [done|].
  intros j z Hz. destruct (decide (j = i)) as [->|Hne].
  - rewrite list_lookup_insert_eq in Hz by (by eapply lookup_lt_Some). injection Hz as <-.
    rewrite store_eq, last_snoc. eexists. split; [done|]. cbn. by rewrite Hv.
  - rewrite list_lookup_insert_ne in Hz by done. rewrite store_ne by congruence. by apply Hs.
Qed.

Lemma same_slots_write buffer o l v t (m : memory RingWeak.loc (RingWeak.cell T)) t' m' :
  (forall i, l <> RingWeak.Slot i) -> same_slots buffer m -> write o l v t m = Some (t', m') -> same_slots buffer m'.
Proof using.
  intros Hl Hs H. apply write_Some in H as (_ & -> & _). intros i x Hx. rewrite store_ne by (intros E; by eapply Hl).
  by apply Hs.
Qed.

(** What the operations on the array do. *)
Lemma set_slot_Ok i x (r r' : SpscRing.SPSCRing T) :
  SpscRing.set_slot i x r = Ok r' ->
  0 <= i /\ is_Some (SpscRing.buffer_ r !! Z.to_nat i) /\
  r' = SpscRing.mkSPSCRing (SpscRing.head_ r) (SpscRing.tail_ r) (<[Z.to_nat i := x]> (SpscRing.buffer_ r)).
Proof using.
  unfold SpscRing.set_slot. case_test; [|done]. intros [= <-]. bool_to_prop.
  split; [done|]. split; [|done]. apply lookup_lt_is_Some. lia.
Qed.

Lemma get_slot_Ok i x (r : SpscRing.SPSCRing T) :
  SpscRing.get_slot i r = Ok x -> SpscRing.buffer_ r !! Z.to_nat i = Some x.
Proof using. unfold SpscRing.get_slot. destruct (_ !! _); [|done]. case_test; [|done]. by intros [= <-]. Qed.

(** The relation after a step of a thread. *)
Lemma related_producer r p c us ps m t q tc d r' p' us' m' t' q' us2 ps2 :
  let w := RingWeak.mkConfig m t q tc d us2 ps2 in
  related (RingConcurrency.mkConfig r p c us ps) w ->
  RingWeak.producer_step Capacity m t q us2 m' t' q' us' ->
  same_producer p' q' -> SpscRing.tail_ r' = SpscRing.tail_ r ->
  SpscRing.head_ r' = RingWeak.index Capacity (length us') -> same_slots (SpscRing.buffer_ r') m' ->
  exists w', RingWeak.step Capacity moved_from w w' /\ related (RingConcurrency.mkConfig r' p' c us' ps) w'.
Proof using HC.
  intros w [Hi _ Rc Ru Rs _ Rt _] Hs Hp Ht Hh Hb. cbn in *.
  assert (RingWeak.step Capacity moved_from w (RingWeak.mkConfig m' t' q' tc d us' ps2)) as Hstep
    by by apply RingWeak.step_producer.
  eexists. split; [exact Hstep|]. constructor; cbn; try done; [by eapply RingWeak.ring_step_inv|by rewrite Ht].
Qed.

Lemma related_consumer r p c us ps m t q tc d r' c' ps' m' tc' d' us2 ps2 :
  let w := RingWeak.mkConfig m t q tc d us2 ps2 in
  related (RingConcurrency.mkConfig r p c us ps) w ->
  RingWeak.consumer_step Capacity moved_from m tc d ps2 m' tc' d' ps' ->
  same_consumer c' d' -> SpscRing.head_ r' = SpscRing.head_ r ->
  SpscRing.tail_ r' = RingWeak.index Capacity (length ps') -> same_slots (SpscRing.buffer_ r') m' ->
  exists w', RingWeak.step Capacity moved_from w w' /\ related (RingConcurrency.mkConfig r' p c' us ps') w'.
Proof using HC.
  intros w [Hi Rp _ Ru Rs Rh _ _] Hs Hc Ht Hh Hb. cbn in *.
  assert (RingWeak.step Capacity moved_from w (RingWeak.mkConfig m' t q tc' d' us2 ps')) as Hstep
    by by apply RingWeak.step_consumer.
  eexists. split; [exact Hstep|]. constructor; cbn; try done; [by eapply RingWeak.ring_step_inv|by rewrite Ht].
Qed.

(** The accesses to the slots. *)
Lemma write_simulated r c us ps m t q tc d r' item head us2 ps2 :
  let w := RingWeak.mkConfig m t q tc d us2 ps2 in
  related (RingConcurrency.mkConfig r (RingConcurrency.PWrite item head) c us ps) w ->
  SpscRing.set_slot head item r = Ok r' ->
  exists w', RingWeak.step Capacity moved_from w w' /\
    related (RingConcurrency.mkConfig r' (RingConcurrency.PPublish item head) c us ps) w'.
Proof using HC.
  intros w Hr E. pose proof Hr as [[Hm Hp _] Rp _ Ru _ Rh _ Rb]. cbn in Hm, Hp, Rp, Ru, Rh, Rb. subst us2.
  destruct q as [|x h|x h|x h]; try done. destruct Rp as [-> ->].
  apply set_slot_Ok in E as (_ & [y Hy] & ->).
  destruct (RingWeak.producer_access _ m t _ us ps2 _ Hm Hp (RingWeak.taken_length d ps2) x h eq_refl) as [[[v t'] m'] H].
  destruct (same_slots_access _ _ _ _ _ _ _ _ y x Rb H Hy eq_refl) as [_ Hs].
  eapply related_producer; [exact Hr|by eapply RingWeak.p_write|done..].
Qed.

Lemma read_simulated r p us ps m t q tc d r1 r' tail out us2 ps2 :
  let w := RingWeak.mkConfig m t q tc d us2 ps2 in
  related (RingConcurrency.mkConfig r p (RingConcurrency.CRead tail) us ps) w ->
  SpscRing.get_slot tail r = Ok out -> r1 = moved_from out -> SpscRing.set_slot tail r1 r = Ok r' ->
  exists w', RingWeak.step Capacity moved_from w w' /\
    related (RingConcurrency.mkConfig r' p (RingConcurrency.CAdvance tail out) us ps) w'.
Proof using HC.
  intros w Hr E1 -> E2. pose proof Hr as [[Hm _ Hc] _ Rc _ Rs _ Rt Rb]. cbn in Hm, Hc, Rc, Rs, Rt, Rb. subst ps2.
  destruct d as [|u|u|u x]; try done. cbn in Rc. subst u.
  apply get_slot_Ok in E1. apply set_slot_Ok in E2 as (_ & _ & ->).
  destruct (RingWeak.consumer_access _ moved_from m tc _ us2 _ ps Hm Hc (RingWeak.written_length q us2) tail eq_refl)
    as (o & t' & m' & H).
  destruct (same_slots_access _ _ _ _ _ _ _ _ out (moved_from out) Rb H E1 eq_refl) as [[= ->] Hs].
  eapply related_consumer; [exact Hr|by eapply RingWeak.c_read|done..].
Qed.

(** Every step of the interleaving semantics is one of the other. *)
Lemma step_simulated s s' w :
  RingConcurrency.step Capacity moved_from false s s' -> related s w ->
  exists w', RingWeak.step Capacity moved_from w w' /\ related s' w'.
Proof using HC.
  intros Hs Hr. pose proof Hr as [[Hm Hp Hc] Rp Rc Ru Rs Rh Rt Rb].
  destruct w as [m t p tc c us ps].
  cbn [RingWeak.mem RingWeak.pview RingWeak.prod RingWeak.cview RingWeak.cons RingWeak.pushed RingWeak.popped] in *.
  pose proof (RingWeak.pa_wf _ _ _ _ _ (proj1 Hp)) as Hwp. pose proof (RingWeak.ca_wf _ _ _ _ _ (proj1 Hc)) as Hwc.
  destruct (newest_tail acquire t m _ _ _ _ Hm Hwp) as (kt & tt & Ht), (newest_head acquire tc m _ _ _ _ Hm Hwc) as (kh & th & Hh).
  destruct Hs as [r c1 us1 ps1 item|r c1 us1 ps1 item head E|r c1 us1 ps1 item head E|r r' c1 us1 ps1 item head E|r c1 us1 ps1 item head
    | | | | |
    |r p1 us1 ps1|r p1 us1 ps1 tail E|r p1 us1 ps1 tail E|r r' p1 us1 ps1 tail out E1 E2|r p1 us1 ps1 tail out];
    try done; cbn in Rp, Rc, Ru, Rs, Rh, Rt, Rb; try done; subst us1 ps1.
  - destruct p; try done. destruct (newest_head relaxed t m _ _ _ _ Hm Hwp) as (k & t' & Hk).
    eapply related_producer; [exact Hr|by eapply (RingWeak.p_call _ _ _ _ item)|done..].
  - destruct p as [|x h|x h|x h]; try done. destruct Rp as [-> ->].
    eapply related_producer; [exact Hr|eapply RingWeak.p_full; [exact Ht|by rewrite <- Rt]|done..].
  - destruct p as [|x h|x h|x h]; try done. destruct Rp as [-> ->].
    eapply related_producer; [exact Hr|eapply RingWeak.p_room; [exact Ht|by rewrite <- Rt]|done..].
  - by eapply write_simulated.
  - destruct p as [|x h|x h|x h]; try done. destruct Rp as [-> ->].
    destruct (write_total release RingWeak.Head (RingWeak.Index (RingWeak.advance Capacity h)) t m) as (t' & m' & H).
    { rewrite (RingWeak.pa_head _ _ _ _ _ (proj1 Hp)). apply Hm. }
    eapply related_producer; [exact Hr|by eapply RingWeak.p_publish|done|done| |eapply same_slots_write; [|exact Rb|exact H]; done].
    destruct Hp as (_ & -> & _). cbn. rewrite length_app, Nat.add_1_r. by apply RingWeak.advance_index.
  - destruct c; try done. destruct (newest_tail relaxed tc m _ _ _ _ Hm Hwc) as (k & t' & Hk).
    eapply related_consumer; [exact Hr|by eapply RingWeak.c_call|done..].
  - destruct c as [|u|u|u x]; try done. cbn in Rc. subst u.
    eapply related_consumer; [exact Hr|eapply RingWeak.c_empty; [exact Hh|by rewrite <- Rh]|done..].
  - destruct c as [|u|u|u x]; try done. cbn in Rc. subst u.
    eapply related_consumer; [exact Hr|eapply RingWeak.c_some; [exact Hh|by rewrite <- Rh]|done..].
  - by eapply read_simulated.
  - destruct c as [|u|u|u x]; try done. destruct Rc as [-> ->].
    destruct (write_total release RingWeak.Tail (RingWeak.Index (RingWeak.advance Capacity u)) tc m) as (t' & m' & H).
    { rewrite (RingWeak.ca_tail _ _ _ _ _ (proj1 Hc)). apply Hm. }
    eapply related_consumer; [exact Hr|by eapply RingWeak.c_advance|done|done| |eapply same_slots_write; [|exact Rb|exact H]; done].
    destruct Hc as (_ & -> & _). cbn. rewrite length_app, Nat.add_1_r. by apply RingWeak.advance_index.
Qed.

Lemma initial_related x :
  related (RingConcurrency.initial Capacity x) (RingWeak.initial Capacity x).
Proof using HC.
  constructor; cbn; try done; [by apply RingWeak.ring_initial_inv|by rewrite RingWeak.index_0..|].
  intros i y Hy. pose proof (lookup_lt_Some _ _ _ Hy) as Hi. rewrite repeat_length in Hi.
  apply list_elem_of_lookup_2, list_elem_of_In, repeat_spec in Hy as ->. cbn. rewrite decide_True by done. by eexists.
Qed.

(** Every state that the interleavings of [try_push] and [try_pop] reach is
    reached under release/acquire memory: with the threads at the same points,
    the same items published and received, and the newest store to every
    location what the array and the indices hold. *)
Theorem interleaving_is_execution x s :
  RingConcurrency.reachable Capacity moved_from false x s ->
  exists w, RingWeak.reachable Capacity moved_from x w /\ related s w.
Proof using HC.
  intros Hs. unfold RingConcurrency.reachable, RingWeak.reachable in *.
  generalize (RingWeak.initial Capacity x) (initial_related x).
  induction Hs as [s|s1 s2 s3 Hstep _ IH]; intros w Hr; [by exists w|].
  destruct (step_simulated s1 s2 w Hstep Hr) as (w1 & Hs1 & Hr1). destruct (IH w1 Hr1) as (w' & Hw & Hr').
  exists w'. split; [by eapply rtc_l|done].
Qed.

End Link.

Lemma interleaving_is_execution_witness :
  exists s w, RingConcurrency.reachable 4 (fun _ : Z => -1) false 0 s /\
    RingWeak.reachable 4 (fun _ : Z => -1) 0 w /\ RingWeak.pushed w = [7] /\ RingWeak.popped w = [7].
Proof.
  assert (exists s, RingConcurrency.reachable 4 (fun _ : Z => -1) false 0 s /\
    RingConcurrency.pushed s = [7] /\ RingConcurrency.popped s = [7]) as (s & Hs & H1 & H2).
  { eexists. split.
    - unfold RingConcurrency.reachable, RingConcurrency.initial. RingConcurrency.run_push 7. RingConcurrency.run_pop. apply rtc_refl.
    - split; reflexivity. }
  destruct (interleaving_is_execution 4 (fun _ : Z => -1) 0 s Hs) as (w & Hw & [_ _ _ Eu Ep _ _ _]).
  exists s, w. split; [exact Hs|]. split; [exact Hw|]. rewrite <- Eu, <- Ep. by split.
Defined.

End RingLink.
