(* ===== verification/Backpressure.v ===== *)
(** * Backpressure ([include/sensorforge/core/backpressure_policy.hpp], [sensor_frame.hpp])

    [apply_policy] on the ring.  The blocking policy waits for another thread:
    what the consumer does while the producer yields or sleeps is a schedule,
    the number of [try_pop]s before each retry; when the schedule is over and
    the ring was always full, the call has not returned.

    Results: the effect of each policy on the queue and its result, and when
    the blocking policy returns. *)

From S2P Require Export SpscRing Frame.

Module Backpressure.
Import SpscRing.

(** [sensor_frame.hpp] *)
Record SensorFrame := mkSensorFrame {
  data : list byte;
  sequence : Z;
  timestamp_ns : Z
}.

Definition SensorFrame_default : SensorFrame :=
  {| data := []; sequence := 0; timestamp_ns := 0 |}.

Inductive BackpressurePolicy :=
| kOverwriteOldest
| kDropNewest
| kBatchAccumulate
| kNeverDropBlock.

Definition default_policy_for (t : Frame.SensorType) : BackpressurePolicy :=
  if t =? Frame.kCamera then kOverwriteOldest
  else if t =? Frame.kLidar then kDropNewest
  else if t =? Frame.kImu then kBatchAccumulate
  else if t =? Frame.kGps then kDropNewest
  else if t =? Frame.kCan then kNeverDropBlock
  else kDropNewest.

Inductive PushResult :=
| kEnqueued
| kDroppedNewest
| kOverwrote
| kBlockedThenEnqueued.

Section Policy.
Context {T : Type} (Capacity : Z) (moved_from : T -> T).

(** [n] calls of [try_pop] by the consumer. *)
Fixpoint consume (n : nat) (r : SPSCRing T) : outcome (SPSCRing T) :=
  match n with
  | O => Ok r
  | S n => res ← try_pop Capacity moved_from r; consume n res.1
  end.

(** The [for (;;)] loop; [None] while it is still waiting. *)
Fixpoint block_loop (schedule : list nat) (item : T) (r : SPSCRing T) :
    outcome (SPSCRing T * option PushResult) :=
  match schedule with
  | [] => Ok (r, None)
  | n :: schedule =>
    r ← consume n r;
    res ← try_push Capacity item r;
    if (res.2 : bool) then Ok (res.1, Some kBlockedThenEnqueued)
    else block_loop schedule item res.1
  end.

Definition apply_policy (schedule : list nat) (r : SPSCRing T) (item : T)
    (policy : BackpressurePolicy) : outcome (SPSCRing T * option PushResult) :=
  match policy with
  | kOverwriteOldest =>
    res ← try_push Capacity item r;
    if (res.2 : bool) then Ok (res.1, Some kEnqueued)
    else
      res ← force_push_overwrite Capacity item res.1;
      Ok (res.1, Some kOverwrote)
  | kDropNewest | kBatchAccumulate =>
    res ← try_push Capacity item r;
    Ok (res.1, Some (if (res.2 : bool) then kEnqueued else kDroppedNewest))
  | kNeverDropBlock =>
    res ← try_push Capacity item r;
    if (res.2 : bool) then Ok (res.1, Some kEnqueued)
    else block_loop schedule item res.1
  end.

Context `{!CapacityOk Capacity}.

Abbreviation contents := (contents Capacity).
Abbreviation ring_ok := (ring_ok Capacity).

Definition is_full (r : SPSCRing T) : bool := Z.of_nat (length (contents r)) =? Capacity - 1.

Lemma consume_spec n r :
  ring_ok r -> exists r', consume n r = Ok r' /\ ring_ok r' /\ contents r' = drop n (contents r).
Proof using CapacityOk0.
  revert r. induction n as [|n IH]; intros r Hr; cbn [consume]; [by exists r|].
  destruct (try_pop_spec Capacity moved_from r Hr) as (r1 & -> & H1 & H2). cbn [mbind outcome_bind fst].
  destruct (IH r1 H1) as (r2 & -> & H3 & H4). exists r2. split; [done|]. split; [done|].
  by rewrite H4, H2, drop_drop.
Qed.

(** The waiting producer gets in at the first retry behind a pop. *)
Lemma block_loop_spec schedule item r :
  ring_ok r -> is_full r = true ->
  exists r', ring_ok r' /\
    match List.find (fun n => negb (n =? 0)%nat) schedule with
    | Some n => block_loop schedule item r = Ok (r', Some kBlockedThenEnqueued) /\
                contents r' = drop n (contents r) ++ [item]
    | None => block_loop schedule item r = Ok (r', None) /\ contents r' = contents r
    end.
Proof using CapacityOk0.
  unfold is_full. pose proof (capacity_ge_2 (Capacity := Capacity)) as H2.
  revert r. induction schedule as [|n schedule IH]; intros r Hr Hf; cbn [block_loop List.find];
    [by exists r|].
  destruct (consume_spec n r Hr) as (r1 & -> & H1 & Hc1). cbn [mbind outcome_bind].
  destruct (try_push_spec Capacity item r1 H1) as (r3 & -> & H3 & Hc3). cbn [mbind outcome_bind fst snd].
  rewrite Hc1 in *. rewrite length_drop in *. bool_to_prop.
  destruct n as [|n]; cbn [negb Nat.eqb].
  - rewrite Nat.sub_0_r, Hf, Z.eqb_refl in *. cbn [negb]. rewrite drop_0 in Hc3.
    destruct (IH r3 H3) as (r4 & H4 & H5); [rewrite Hc3; lia|]. exists r4.
    rewrite Hc3 in H5. done.
  - rewrite (proj2 (Z.eqb_neq _ _)) in * by lia. cbn [negb]. by exists r3.
Qed.

(** Nothing but the consumer ends the wait: called on the thread that would
    pop (a full ring, and no step of the consumer between the attempts), the
    blocking policy tries for ever. *)
Lemma blocked_alone n item r :
  ring_ok r -> is_full r = true ->
  exists r', block_loop (replicate n 0%nat) item r = Ok (r', None) /\ contents r' = contents r.
Proof using CapacityOk0.
  intros Hr Hf. destruct (block_loop_spec (replicate n 0%nat) item r Hr Hf) as (r' & _ & H).
  assert (List.find (fun n => negb (n =? 0)%nat) (replicate n 0%nat) = None) as E
    by (clear; by induction n).
  rewrite E in H. by exists r'.
Qed.

(** What each policy does to the queue.  An arriving item is enqueued by
    every policy when there is room.  When the ring is full, the camera policy
    drops the oldest item and keeps the new one, the lidar, GPS and IMU
    policies keep the queue and drop the new item, and the CAN policy loses
    nothing: it returns exactly when the consumer pops, with the new item
    behind what the consumer left; until then it waits. *)
Theorem apply_policy_spec schedule r item policy :
  ring_ok r ->
  exists r' res, apply_policy schedule r item policy = Ok (r', res) /\ ring_ok r' /\
    if is_full r then
      match policy with
      | kOverwriteOldest => res = Some kOverwrote /\ contents r' = drop 1 (contents r) ++ [item]
      | kDropNewest | kBatchAccumulate => res = Some kDroppedNewest /\ contents r' = contents r
      | kNeverDropBlock =>
        match List.find (fun n => negb (n =? 0)%nat) schedule with
        | Some n => res = Some kBlockedThenEnqueued /\ contents r' = drop n (contents r) ++ [item]
        | None => res = None /\ contents r' = contents r
        end
      end
    else res = Some kEnqueued /\ contents r' = contents r ++ [item].
Proof using CapacityOk0.
  intros Hr. unfold is_full.
  destruct (try_push_spec Capacity item r Hr) as (r1 & E & H1 & Hc1).
  destruct (Z.of_nat (length (contents r)) =? Capacity - 1) eqn:Ef; cbn [negb] in E;
    destruct policy; cbn [apply_policy]; rewrite E; cbn [mbind outcome_bind fst snd]; try (by eexists _, _).
  - destruct (force_push_spec Capacity item r1 H1) as (r2 & -> & H2 & Hc2).
    rewrite Hc1, Ef in Hc2. cbn [mbind outcome_bind fst]. by eexists _, _.
  - destruct (block_loop_spec schedule item r1 H1) as (r2 & H2 & Hb); [unfold is_full; by rewrite Hc1|].
    rewrite Hc1 in Hb. destruct (List.find _ schedule); destruct Hb as [-> Hb]; by eexists _, _.
Qed.

End Policy.

Lemma apply_policy_spec_witness :
  exists r' res,
    apply_policy 4 (fun x : Z => -1) [0; 2]%nat
      {| head_ := 3; tail_ := 0; buffer_ := [1; 2; 3; 0] |} 4 kNeverDropBlock = Ok (r', res) /\
    res = Some kBlockedThenEnqueued.
Proof.
  destruct (apply_policy_spec 4 (fun x : Z => -1) [0; 2]%nat
      {| head_ := 3; tail_ := 0; buffer_ := [1; 2; 3; 0] |} 4 kNeverDropBlock)
    as (r' & res & H1 & _ & H2); [split; cbn; lia|].
  exists r', res. split; [exact H1|]. exact (proj1 H2).
Defined.

End Backpressure.
