(* ===== verification/Seqlock.v ===== *)
(** * The sequence lock ([include/sensorforge/core/seqlock.hpp])

    [store] and [load] split at their accesses to shared memory (the sequence
    counter, each byte of the payload), one writer and one reader, all
    interleavings; every load returns the newest value.  [SeqlockWeak.v] has
    the memory orders.  A value is its bytes ([memcpy] of a trivially copyable
    type).

    Results: the counter is even exactly between stores; a load that returns,
    returns the whole value that was current when its last attempt began
    (never a mixture), as long as the 64-bit counter does not wrap around; a
    store always completes, and a load that is not disturbed returns. *)

From S2P Require Export Prelude Buffers.
From stdpp Require Export relations.
#[local] Open Scope Z_scope.

Module Seqlock.

Record Seqlock := mkSeqlock {
  seq_ : Z;
  data_ : list byte
}.

(** The constructors: the counter stays 0. *)
Definition construct (initial : list byte) : Seqlock := {| seq_ := 0; data_ := initial |}.

(** [sequence()] *)
Definition sequence (l : Seqlock) : Z := l.(seq_).

Definition set_seq (s : Z) (l : Seqlock) : Seqlock := {| seq_ := s; data_ := l.(data_) |}.
Definition set_byte (i : nat) (b : byte) (l : Seqlock) : Seqlock :=
  {| seq_ := l.(seq_); data_ := <[i := b]> l.(data_) |}.

Inductive writer :=
| WIdle
| WLoaded (v : list byte) (seq : Z)              (** counter loaded *)
| WBytes (v : list byte) (seq : Z) (i : nat).    (** odd stored, [i] bytes written *)

Inductive reader :=
| RIdle
| RRetry                                         (** at the top of the loop *)
| RBytes (seq0 : Z) (bs : list byte) (version : nat)  (** even counter seen, bytes read *)
| RDone (bs : list byte) (version : nat).        (** about to return [bs] *)

(** [versions] are the values that have been published, oldest first; the
    reader remembers which was the newest when its attempt began (this is not
    part of the program). *)
Record config := mkConfig {
  lock : Seqlock;
  wr : writer;
  rd_ : reader;
  versions : list (list byte)
}.

Inductive step (size : nat) : config -> config -> Prop :=
| w_call l r vs v :
    length v = size ->
    step size (mkConfig l WIdle r vs) (mkConfig l (WLoaded v l.(seq_)) r vs)
| w_odd l r vs v seq :
    step size (mkConfig l (WLoaded v seq) r vs)
              (mkConfig (set_seq (u64 (seq + 1)) l) (WBytes v seq 0) r vs)
| w_byte l r vs v seq i b :
    v !! i = Some b ->
    step size (mkConfig l (WBytes v seq i) r vs) (mkConfig (set_byte i b l) (WBytes v seq (S i)) r vs)
| w_even l r vs v seq :
    step size (mkConfig l (WBytes v seq (length v)) r vs)
              (mkConfig (set_seq (u64 (seq + 2)) l) WIdle r (vs ++ [v]))
| r_call l w vs :
    step size (mkConfig l w RIdle vs) (mkConfig l w RRetry vs)
| r_odd l w vs :
    l.(seq_) &&& 1 <> 0 ->
    step size (mkConfig l w RRetry vs) (mkConfig l w RRetry vs)
| r_even l w vs :
    l.(seq_) &&& 1 = 0 ->
    step size (mkConfig l w RRetry vs) (mkConfig l w (RBytes l.(seq_) [] (pred (length vs))) vs)
| r_byte l w vs seq0 bs k b :
    (length bs < size)%nat -> l.(data_) !! length bs = Some b ->
    step size (mkConfig l w (RBytes seq0 bs k) vs) (mkConfig l w (RBytes seq0 (bs ++ [b]) k) vs)
| r_same l w vs seq0 bs k :
    length bs = size -> seq0 = l.(seq_) ->
    step size (mkConfig l w (RBytes seq0 bs k) vs) (mkConfig l w (RDone bs k) vs)
| r_changed l w vs seq0 bs k :
    length bs = size -> seq0 <> l.(seq_) ->
    step size (mkConfig l w (RBytes seq0 bs k) vs) (mkConfig l w RRetry vs)
| r_return l w vs bs k :
    step size (mkConfig l w (RDone bs k) vs) (mkConfig l w RIdle vs).

Definition initial (v : list byte) : config := mkConfig (construct v) WIdle RIdle [v].

Definition reachable (v : list byte) (c : config) : Prop := rtc (step (length v)) (initial v) c.

(** ** The invariant *)

Section Invariant.
Context (size : nat).

(** The newest published value. *)
Definition newest (vs : list (list byte)) (v : list byte) : Prop := vs !! pred (length vs) = Some v.

(** The counter of a stable lock. *)
Definition stable_seq (vs : list (list byte)) : Z := 2 * Z.of_nat (pred (length vs)).

Definition writer_inv (l : Seqlock) (w : writer) (vs : list (list byte)) : Prop :=
  match w with
  | WIdle => l.(seq_) = stable_seq vs /\ newest vs l.(data_)
  | WLoaded v seq => length v = size /\ seq = stable_seq vs /\ l.(seq_) = seq /\ newest vs l.(data_)
  | WBytes v seq i =>
    length v = size /\ (i <= size)%nat /\ seq = stable_seq vs /\ l.(seq_) = seq + 1 /\
    exists old, newest vs old /\ l.(data_) = take i v ++ drop i old
  end.

Definition reader_inv (l : Seqlock) (r : reader) (vs : list (list byte)) : Prop :=
  match r with
  | RIdle | RRetry => True
  | RBytes seq0 bs k =>
    (k < length vs)%nat /\ seq0 = 2 * Z.of_nat k /\ seq0 <= l.(seq_) /\ (length bs <= size)%nat /\
    (l.(seq_) = seq0 -> exists v, vs !! k = Some v /\ bs = take (length bs) v)
  | RDone bs k => vs !! k = Some bs
  end.

Record inv (c : config) : Prop := {
  inv_nonempty : (0 < length c.(versions))%nat;
  inv_size : Forall (fun v => length v = size) c.(versions);
  inv_writer : writer_inv c.(lock) c.(wr) c.(versions);
  inv_reader : reader_inv c.(lock) c.(rd_) c.(versions)
}.

(** The number of stores the counter can distinguish. *)
Definition no_wrap (c : config) : Prop := Z.of_nat (length c.(versions)) < 2 ^ 63.

Lemma land_1 z : z &&& 1 = z mod 2.
Proof using. change 1 with (2 ^ 1 - 1). rewrite land_mask by lia. done. Qed.

(** An even counter: no store is under way. *)
Lemma even_stable l w vs :
  writer_inv l w vs -> l.(seq_) mod 2 = 0 -> l.(seq_) = stable_seq vs /\ newest vs l.(data_).
Proof using.
  intros Hw He. destruct w as [|v seq|v seq i]; cbn in Hw; [done| |].
  - by destruct Hw as (_ & -> & E & Hn).
  - exfalso. destruct Hw as (_ & _ & -> & E & _). rewrite E in He. unfold stable_seq in He.
    rewrite Z.add_comm, Z.mul_comm, Z.mod_add in He by lia. done.
Qed.

Lemma newest_snoc vs v : newest (vs ++ [v]) v.
Proof using. unfold newest. rewrite length_app. cbn [length].
  replace (pred (length vs + 1)) with (length vs) by lia. by rewrite list_lookup_middle. Qed.

(** A reader is not disturbed by steps that keep the data or change the
    counter. *)
Lemma reader_inv_move l l' r vs vs' :
  reader_inv l r vs -> l.(seq_) < l'.(seq_) -> (exists more, vs' = vs ++ more) -> reader_inv l' r vs'.
Proof using.
  intros Hr Hs [more ->]. destruct r as [| |seq0 bs k|bs k]; cbn in *; [done..| |].
  - destruct Hr as (Hk & -> & Hle & Hb & _). rewrite length_app. repeat split; try lia.
  - by apply lookup_app_l_Some.
Qed.

Lemma writer_step_data (v old : list byte) i b :
  length v = length old -> v !! i = Some b ->
  <[i := b]> (take i v ++ drop i old) = take (S i) v ++ drop (S i) old.
Proof using.
  intros Hl Hb. pose proof (lookup_lt_Some _ _ _ Hb) as Hi.
  destruct (lookup_lt_is_Some_2 old i) as [o Ho]; [lia|].
  rewrite (drop_S old o i Ho), (take_S_r v i b Hb), <- app_assoc.
  rewrite insert_app_r_alt by (rewrite length_take; lia).
  rewrite length_take, Nat.min_l, Nat.sub_diag by lia. done.
Qed.

Lemma lock_step_inv c c' : step size c c' -> no_wrap c' -> inv c -> inv c'.
Proof using.
  intros Hs Hn [H0 Hsz Hw Hr]. unfold no_wrap in Hn.
  destruct Hs; cbn [lock wr rd_ versions] in *; constructor; cbn [lock wr rd_ versions]; try done.
  - destruct Hw as [E Hnew]. done.
  - destruct Hw as (Hl & -> & E & Hnew). cbn [writer_inv].
    repeat split; [done|lia| |by exists (data_ l)].
    cbn. apply wrap_small. unfold is_uint, stable_seq. lia.
  - destruct Hw as (Hl & -> & E & Hnew).
    apply (reader_inv_move l _ r vs); [done| |exists []; by rewrite app_nil_r].
    cbn. rewrite wrap_small by (unfold is_uint, stable_seq; lia). lia.
  - destruct Hw as (Hl & Hi & -> & E & old & Hnew & Hd). pose proof (lookup_lt_Some _ _ _ H) as Hlt.
    cbn [writer_inv]. repeat split; [done|lia|done|]. exists old. split; [done|]. cbn. rewrite Hd.
    apply writer_step_data; [|done]. rewrite Hl. symmetry.
    rewrite Forall_lookup in Hsz. by eapply Hsz.
  - rewrite length_app. cbn. lia.
  - destruct Hw as (Hl & _). apply Forall_app. split; [done|]. by apply Forall_singleton.
  - destruct Hw as (Hl & Hi & -> & E & old & Hnew & Hd). rewrite length_app in Hn. cbn [length] in Hn.
    cbn [writer_inv set_seq seq_ data_]. split.
    + unfold stable_seq. rewrite length_app, wrap_small by (unfold is_uint; lia). cbn [length]. lia.
    + rewrite Hd, firstn_all. rewrite drop_ge, app_nil_r; [apply newest_snoc|].
      rewrite Forall_lookup in Hsz. rewrite (Hsz _ _ Hnew). lia.
  - destruct Hw as (Hl & Hi & -> & E & _). rewrite length_app in Hn. cbn [length] in Hn.
    apply (reader_inv_move l _ r vs); [done| |by eexists].
    cbn. rewrite wrap_small by (unfold is_uint, stable_seq; lia). lia.
  - rewrite land_1 in H. destruct (even_stable l w vs Hw H) as [E Hnew].
    cbn. unfold stable_seq in E. repeat split; [lia|lia|lia|lia|]. intros _. by exists (data_ l).
  - cbn in Hr |- *. destruct Hr as (Hk & -> & Hle & Hb & Hv). rewrite length_app. cbn [length].
    repeat split; try done; [lia|]. intros E. destruct (Hv E) as (v & Hvk & Hbs).
    exists v. split; [done|]. rewrite Nat.add_1_r.
    destruct (even_stable l w vs Hw) as [Es Hnew]; [rewrite E, Z.mul_comm; apply Z.mod_mul; lia|].
    unfold stable_seq, newest in *. replace (pred (length vs)) with k in Hnew by lia.
    rewrite Hnew in Hvk. injection Hvk as <-.
    rewrite (take_S_r _ _ b) by done. by rewrite <- Hbs.
  - cbn in Hr |- *. destruct Hr as (Hk & -> & Hle & Hb & Hv). destruct (Hv (eq_sym H1)) as (v & Hvk & Hbs).
    rewrite Hvk. f_equal. rewrite Hbs. rewrite Forall_lookup in Hsz.
    rewrite take_ge; [done|]. rewrite (Hsz _ _ Hvk). lia.
Qed.

Lemma step_versions c c' :
  step size c c' -> exists more, c'.(versions) = c.(versions) ++ more.
Proof using. intros []; cbn; solve [by eexists | exists []; by rewrite app_nil_r]. Qed.

Lemma steps_inv c c' : rtc (step size) c c' -> no_wrap c' -> inv c -> inv c'.
Proof using.
  intros Hs. induction Hs as [|x y z Hxy Hyz IH]; [done|]. intros Hn Hi.
  apply IH; [done|]. eapply lock_step_inv; [exact Hxy| |done].
  clear -Hyz Hn. induction Hyz as [|x y z Hxy _ IH]; [done|].
  specialize (IH Hn). apply step_versions in Hxy as [more Hm]. unfold no_wrap in *.
  rewrite Hm, length_app in IH. lia.
Qed.

Lemma initial_inv v : length v = size -> inv (initial v).
Proof using. intros Hv. constructor; cbn; [lia|by constructor|done|done]. Qed.

(** The reader alone, from the top of its loop. *)
Lemma read_alone l w vs k m :
  (k + m = size)%nat -> length l.(data_) = size -> forall n,
  rtc (step size) (mkConfig l w (RBytes l.(seq_) (take k l.(data_)) n) vs) (mkConfig l w (RDone l.(data_) n) vs).
Proof using.
  intros Hk Hl n. revert k Hk. induction m as [|m IH]; intros k Hk.
  - eapply rtc_l; [|apply rtc_refl]. rewrite take_ge by lia. by apply r_same.
  - assert (length (take k (data_ l)) = k) as Ht by (rewrite length_take; lia).
    destruct (lookup_lt_is_Some_2 (data_ l) k) as [b Hb]; [lia|].
    eapply rtc_l; [apply (r_byte _ _ _ _ _ _ _ b); rewrite Ht; [lia|done]|].
    rewrite <- (take_S_r _ _ b) by done. apply IH. lia.
Qed.

(** The writer alone, from its [i]-th byte. *)
Lemma write_alone l r vs v seq i m :
  (i + m = length v)%nat -> length v = size ->
  exists l', rtc (step size) (mkConfig l (WBytes v seq i) r vs) (mkConfig l' WIdle r (vs ++ [v])).
Proof using.
  revert l i. induction m as [|m IH]; intros l i Hi Hv.
  - replace i with (length v) by lia. eexists. eapply rtc_l; [apply w_even|apply rtc_refl].
  - destruct (lookup_lt_is_Some_2 v i) as [b Hb]; [lia|].
    destruct (IH (set_byte i b l) (S i)) as [l' Hl']; [lia|done|]. exists l'.
    eapply rtc_l; [by apply w_byte|exact Hl'].
Qed.

End Invariant.
(** ** Properties *)

(** No torn reads.  In every interleaving of stores and loads, a load
    that is about to return has the complete bytes of one published value, the
    one that was the newest when its successful attempt saw an even counter,
    provided fewer than 2^63 values were published in all (the counter has 64
    bits and counts two per store). *)
Theorem seqlock_no_torn_reads v c bs k :
  reachable v c -> Z.of_nat (length c.(versions)) < 2 ^ 63 -> c.(rd_) = RDone bs k ->
  c.(versions) !! k = Some bs.
Proof.
  intros Hc Hn Hr. apply (steps_inv (length v)) in Hc; [|done|by apply initial_inv].
  pose proof (inv_reader _ _ Hc) as H. by rewrite Hr in H.
Qed.

(** Progress.  From every reachable state in which the counter is even, a
    load that begins and is not disturbed reads the bytes once and returns the
    newest published value; and from every reachable state between stores, the
    writer completes a store whatever the reader does. *)
Theorem seqlock_progress v c w :
  reachable v c -> Z.of_nat (length c.(versions)) < 2 ^ 63 -> length w = length v ->
  (c.(rd_) = RIdle -> c.(wr) = WIdle ->
   exists bs k c', rtc (step (length v)) c c' /\ c'.(rd_) = RDone bs k /\
                   last c.(versions) = Some bs /\ c'.(versions) = c.(versions)) /\
  (c.(wr) = WIdle ->
   exists c', rtc (step (length v)) c c' /\ c'.(wr) = WIdle /\ c'.(versions) = c.(versions) ++ [w]).
Proof.
  intros Hc Hn Hw. apply (steps_inv (length v)) in Hc; [|done|by apply initial_inv].
  destruct Hc as [H0 Hsz Hwr _]. destruct c as [l w0 r vs]; cbn [lock wr rd_ versions] in *.
  split.
  - intros -> ->. destruct Hwr as [E Hnew].
    exists (data_ l), (pred (length vs)), (mkConfig l WIdle (RDone (data_ l) (pred (length vs))) vs).
    split; [|rewrite last_lookup; done].
    eapply rtc_l; [apply r_call|]. eapply rtc_l.
    + apply r_even. rewrite land_1, E. unfold stable_seq. rewrite Z.mul_comm. apply Z.mod_mul. lia.
    + apply (read_alone (length v) l WIdle vs 0 (length v)); [lia|].
      rewrite Forall_lookup in Hsz. by eapply Hsz.
  - intros ->. destruct (write_alone (length v) (set_seq (u64 (seq_ l + 1)) l) r vs w (seq_ l) 0 (length w))
      as [l' Hl']; [done|done|]. eexists. split; [|split].
    + eapply rtc_l; [by apply w_call|]. eapply rtc_l; [apply w_odd|exact Hl'].
    + done.
    + done.
Qed.

Definition two_bytes (a b : Z) : list byte := [z2b a; z2b b].

Lemma seqlock_no_torn_reads_witness :
  exists c, reachable (two_bytes 1 2) c /\ c.(rd_) = RDone (two_bytes 1 2) 0 /\
            c.(versions) !! 0%nat = Some (two_bytes 1 2).
Proof.
  assert (exists c, reachable (two_bytes 1 2) c /\ c.(rd_) = RDone (two_bytes 1 2) 0 /\
                    c.(versions) = [two_bytes 1 2]) as (c & H1 & H2 & H3).
  { eexists. split.
    - eapply rtc_l; [apply r_call|]. eapply rtc_l; [apply r_even; reflexivity|].
      eapply rtc_l; [eapply r_byte; [cbn; lia|reflexivity]|].
      eapply rtc_l; [eapply r_byte; [cbn; lia|reflexivity]|].
      eapply rtc_l; [apply r_same; reflexivity|]. apply rtc_refl.
    - split; reflexivity. }
  exists c. split; [exact H1|]. split; [exact H2|].
  apply (seqlock_no_torn_reads (two_bytes 1 2) c (two_bytes 1 2) 0 H1); [by rewrite H3|exact H2].
Defined.

Lemma seqlock_progress_witness :
  exists c', rtc (step 2) (initial (two_bytes 1 2)) c' /\ c'.(wr) = WIdle /\
             c'.(versions) = [two_bytes 1 2; two_bytes 3 4].
Proof.
  apply (seqlock_progress (two_bytes 1 2) (initial (two_bytes 1 2)) (two_bytes 3 4));
    [apply rtc_refl|reflexivity|reflexivity|reflexivity].
Defined.

End Seqlock.
