(* ===== verification/SeqlockWeak.v ===== *)
(** * The sequence lock under release/acquire memory

    [store] and [load] of [seqlock.hpp] with the memory orders and fences they
    have, on the semantics of [WeakMemory.v]: one writer, any number of
    readers.  A load of the code may return any value its thread may still
    see; threads may also synchronise by other means between their calls.

    Results: a load that returns, returns the whole of one published value,
    and one that is at least as new as every publication the thread knew of
    when it called [load]; so the loads of one thread never go back.  No
    operation gets stuck, and an undisturbed load can return the newest
    value. *)

From S2P Require Export WeakMemory Seqlock.
From stdpp Require Export sorting.
#[local] Open Scope Z_scope.

Module SeqlockWeak.
Import WeakMemory.

Inductive loc :=
| Seq                      (** [seq_] *)
| Data (i : nat).          (** [data_[i]] *)

#[global] Instance loc_eq_dec : EqDecision loc.
Proof. solve_decision. Defined.

(** What the constructors leave, before any reader exists. *)
Definition construct (initial : list byte) : memory loc Z := fun l =>
  match l with
  | Seq => [mkMessage 0 bottom]
  | Data i => match initial !! i with Some b => [mkMessage (b2z b) bottom] | None => [] end
  end.

Inductive writer :=
| WIdle
| WLoaded (v : list byte) (seq : Z)              (** counter loaded *)
| WOdd (v : list byte) (seq : Z)                 (** odd counter stored, fence next *)
| WBytes (v : list byte) (seq : Z) (i : nat)     (** [i] bytes stored *)
| WFenced (v : list byte) (seq : Z).             (** second fence passed, even counter next *)

(** [store] *)
Inductive writer_step (size : nat) :
  memory loc Z -> thread loc -> writer -> list (list byte) ->
  memory loc Z -> thread loc -> writer -> list (list byte) -> Prop :=
| w_call m t vs v k seq t' :
    length v = size -> read relaxed Seq k t m = Some (seq, t') ->
    writer_step size m t WIdle vs m t' (WLoaded v seq) vs
| w_odd m t vs v seq t' m' :
    write relaxed Seq (u64 (seq + 1)) t m = Some (t', m') ->
    writer_step size m t (WLoaded v seq) vs m' t' (WOdd v seq) vs
| w_fence m t vs v seq :
    writer_step size m t (WOdd v seq) vs m (fence release t) (WBytes v seq 0) vs
| w_byte m t vs v seq i b t' m' :
    v !! i = Some b -> write relaxed (Data i) (b2z b) t m = Some (t', m') ->
    writer_step size m t (WBytes v seq i) vs m' t' (WBytes v seq (S i)) vs
| w_fence2 m t vs v seq :
    writer_step size m t (WBytes v seq (length v)) vs m (fence release t) (WFenced v seq) vs
| w_even m t vs v seq t' m' :
    write release Seq (u64 (seq + 2)) t m = Some (t', m') ->
    writer_step size m t (WFenced v seq) vs m' t' WIdle (vs ++ [v]).

Inductive reader :=
| RIdle
| RRetry                                         (** at the top of the loop *)
| RBytes (seq0 : Z) (bs : list byte)             (** even counter seen, bytes being read *)
| RFenced (seq0 : Z) (bs : list byte)            (** fence passed, counter to be read again *)
| RDone (bs : list byte).                        (** about to return [bs] *)

(** A reading thread.  [known] is the number of publications it knew of when
    it called [load], [results] what its calls returned (neither is part of
    the program). *)
Record reader_thread := mkReader {
  rview : thread loc;
  rpc : reader;
  known : nat;
  results : list (list byte)
}.

(** [load] and [sequence] *)
Inductive reader_step (size : nat) (m : memory loc Z) : reader_thread -> reader_thread -> Prop :=
| r_sequence t n rs k s t' :
    read acquire Seq k t m = Some (s, t') ->
    reader_step size m (mkReader t RIdle n rs) (mkReader t' RIdle n rs)
| r_call t n rs :
    reader_step size m (mkReader t RIdle n rs) (mkReader t RRetry (t.(cur) Seq / 2) rs)
| r_odd t n rs k seq0 t' :
    read acquire Seq k t m = Some (seq0, t') -> seq0 &&& 1 <> 0 ->
    reader_step size m (mkReader t RRetry n rs) (mkReader t' RRetry n rs)
| r_even t n rs k seq0 t' :
    read acquire Seq k t m = Some (seq0, t') -> seq0 &&& 1 = 0 ->
    reader_step size m (mkReader t RRetry n rs) (mkReader t' (RBytes seq0 []) n rs)
| r_byte t n rs k seq0 bs x t' :
    (length bs < size)%nat -> read relaxed (Data (length bs)) k t m = Some (x, t') ->
    reader_step size m (mkReader t (RBytes seq0 bs) n rs) (mkReader t' (RBytes seq0 (bs ++ [z2b x])) n rs)
| r_fence t n rs seq0 bs :
    length bs = size ->
    reader_step size m (mkReader t (RBytes seq0 bs) n rs) (mkReader (fence acquire t) (RFenced seq0 bs) n rs)
| r_same t n rs k seq0 bs t' :
    read relaxed Seq k t m = Some (seq0, t') ->
    reader_step size m (mkReader t (RFenced seq0 bs) n rs) (mkReader t' (RDone bs) n rs)
| r_changed t n rs k seq0 bs seq1 t' :
    read relaxed Seq k t m = Some (seq1, t') -> seq1 <> seq0 ->
    reader_step size m (mkReader t (RFenced seq0 bs) n rs) (mkReader t' RRetry n rs)
| r_return t n rs bs :
    reader_step size m (mkReader t (RDone bs) n rs) (mkReader t RIdle n (rs ++ [bs])).

(** [versions] are the values that have been published, oldest first. *)
Record config := mkConfig {
  mem : memory loc Z;
  wview : thread loc;
  wpc : writer;
  readers : list reader_thread;
  versions : list (list byte)
}.

Inductive step (size : nat) : config -> config -> Prop :=
| step_writer m t w rs vs m' t' w' vs' :
    writer_step size m t w vs m' t' w' vs' ->
    step size (mkConfig m t w rs vs) (mkConfig m' t' w' rs vs')
| step_reader m t w rs vs i r r' :
    rs !! i = Some r -> reader_step size m r r' ->
    step size (mkConfig m t w rs vs) (mkConfig m t w (<[i := r']> rs) vs)
| step_sync_writer m t w rs vs i tr n res :
    rs !! i = Some (mkReader tr RIdle n res) ->
    step size (mkConfig m t w rs vs)
              (mkConfig m t w (<[i := mkReader (synchronize t.(cur) tr) RIdle n res]> rs) vs)
| step_sync_reader m t w rs vs i j tr n res r :
    rs !! i = Some (mkReader tr RIdle n res) -> rs !! j = Some r ->
    step size (mkConfig m t w rs vs)
              (mkConfig m t w (<[i := mkReader (synchronize r.(rview).(cur) tr) RIdle n res]> rs) vs).

Definition initial (v : list byte) (n : nat) : config :=
  mkConfig (construct v) fresh WIdle (replicate n (mkReader fresh RIdle 0 [])) [v].

Definition reachable (v : list byte) (n : nat) (c : config) : Prop :=
  rtc (step (length v)) (initial v n) c.

(** ** The invariant

    The [j]-th store to the counter stores [j]; the [n]-th store to a byte is
    that of version [n] and was preceded by the store of the odd counter
    [2n - 1]; the store of [2n] releases all bytes of version [n]. *)

Section Invariant.
Context (size : nat).

(** The value being stored, if any. *)
Definition in_flight (w : writer) : list (list byte) :=
  match w with
  | WIdle => []
  | WLoaded v _ | WOdd v _ | WBytes v _ _ | WFenced v _ => [v]
  end.

(** Byte [i] of version [n] is [b]. *)
Definition byte_of (vs : list (list byte)) (n i : nat) (b : byte) : Prop :=
  exists v, vs !! n = Some v /\ v !! i = Some b.

Record mem_inv (m : memory loc Z) (vs : list (list byte)) : Prop := {
  mi_wf : memory_wf m;
  mi_size : Forall (fun v => length v = size) vs;
  mi_seq j msg : m Seq !! j = Some msg -> msg.(value) = u64 (Z.of_nat j);
  mi_data i n msg : m (Data i) !! n = Some msg -> exists b, byte_of vs n i b /\ msg.(value) = b2z b;
  mi_odd i n msg : m (Data i) !! n = Some msg -> (2 * n <= S (msg.(released) Seq))%nat;
  mi_even i n msg : (i < size)%nat -> m Seq !! (2 * n)%nat = Some msg -> (n <= msg.(released) (Data i))%nat
}.

(** What the writer knows: everything; [k] values have been published, [i]
    bytes of the next one are stored, and [o] is the rest of the counter. *)
Record writer_at (m : memory loc Z) (t : thread loc) (k o i : nat) : Prop := {
  wa_wf : thread_wf m t;
  wa_seq : length (m Seq) = S (t.(cur) Seq);
  wa_seq_k : (2 + t.(cur) Seq = 2 * k + o)%nat;
  wa_data j : (j < size)%nat -> length (m (Data j)) = S (t.(cur) (Data j));
  wa_data_k j : (j < size)%nat -> S (t.(cur) (Data j)) = if decide (j < i)%nat then S k else k
}.

Definition writer_inv (m : memory loc Z) (t : thread loc) (w : writer) (k : nat) : Prop :=
  match w with
  | WIdle => writer_at m t k 0 0
  | WLoaded v seq => writer_at m t k 0 0 /\ length v = size /\ seq = u64 (Z.of_nat (t.(cur) Seq))
  | WOdd v seq => writer_at m t k 1 0 /\ length v = size /\ seq = u64 (2 * Z.of_nat k - 2)
  | WBytes v seq i =>
    writer_at m t k 1 i /\ length v = size /\ seq = u64 (2 * Z.of_nat k - 2) /\ (i <= size)%nat /\
    t.(rel) Seq = t.(cur) Seq
  | WFenced v seq => writer_at m t k 1 size /\ length v = size /\ seq = u64 (2 * Z.of_nat k - 2)
  end.

(** The bytes a reader has read belong to versions from [n] on, whose odd
    counters it knows (in [a]) . *)
Definition bytes_inv (vs : list (list byte)) (n : nat) (a : view loc) (bs : list byte) : Prop :=
  forall i b, bs !! i = Some b -> exists q, byte_of vs q i b /\ (n <= q)%nat /\ (2 * q <= S (a Seq))%nat.

(** A reader that has seen the even counter of version [n]. *)
Definition saw (m : memory loc Z) (r : reader_thread) (n : nat) : Prop :=
  (r.(known) <= n)%nat /\ (2 * n <= r.(rview).(cur) Seq)%nat /\ (2 * n < length (m Seq))%nat.

Definition pc_inv (m : memory loc Z) (vs : list (list byte)) (r : reader_thread) : Prop :=
  let t := r.(rview) in
  match r.(rpc) with
  | RIdle => True
  | RRetry => (2 * r.(known) <= t.(cur) Seq)%nat
  | RBytes seq0 bs =>
    exists n, saw m r n /\ seq0 = u64 (2 * Z.of_nat n) /\ (length bs <= size)%nat /\
      (forall i, (i < size)%nat -> (n <= t.(cur) (Data i))%nat) /\ bytes_inv vs n t.(acq) bs
  | RFenced seq0 bs =>
    exists n, saw m r n /\ seq0 = u64 (2 * Z.of_nat n) /\ length bs = size /\ bytes_inv vs n t.(cur) bs
  | RDone bs => exists n, saw m r n /\ vs !! n = Some bs
  end.

(** The results are versions in order, none newer than [bound]. *)
Definition in_order (vs : list (list byte)) (bound : nat) (rs : list (list byte)) : Prop :=
  exists ns, StronglySorted le ns /\ Forall (fun n => n <= bound)%nat ns /\
    Forall2 (fun n bs => vs !! n = Some bs) ns rs.

Record reader_inv (m : memory loc Z) (vs : list (list byte)) (r : reader_thread) : Prop := {
  ri_wf : thread_wf m r.(rview);
  ri_pc : pc_inv m vs r;
  ri_results : in_order vs (match r.(rpc) with RIdle => r.(rview).(cur) Seq / 2 | _ => r.(known) end) r.(results)
}.

Record inv (c : config) : Prop := {
  inv_mem : mem_inv c.(mem) (c.(versions) ++ in_flight c.(wpc));
  inv_writer : writer_inv c.(mem) c.(wview) c.(wpc) (length c.(versions));
  inv_nonempty : (0 < length c.(versions))%nat;
  inv_readers : Forall (reader_inv c.(mem) (c.(versions) ++ in_flight c.(wpc))) c.(readers)
}.

(** The number of stores the counter can distinguish. *)
Definition no_wrap (c : config) : Prop := Z.of_nat (length c.(versions)) < 2 ^ 63.

(** ** Monotonicity: other threads' steps keep what a reader knows *)

Lemma byte_of_prefix vs vs' n i b : vs `prefix_of` vs' -> byte_of vs n i b -> byte_of vs' n i b.
Proof using. intros Hp (v & Hv & Hb). exists v. split; [by eapply prefix_lookup_Some|done]. Qed.

Lemma in_order_mono vs vs' n n' rs :
  vs `prefix_of` vs' -> (n <= n')%nat -> in_order vs n rs -> in_order vs' n' rs.
Proof using.
  intros Hp Hn (ns & Hs & Hb & Hf). exists ns. split; [done|]. split.
  - eapply Forall_impl; [exact Hb|]. intros k Hk. cbn in *. lia.
  - eapply Forall2_impl; [exact Hf|]. intros k bs Hk. by apply (prefix_lookup_Some vs).
Qed.

Lemma bytes_inv_mono vs vs' n a a' bs :
  vs `prefix_of` vs' -> (a Seq <= a' Seq)%nat -> bytes_inv vs n a bs -> bytes_inv vs' n a' bs.
Proof using.
  intros Hp Ha H i b Hb. destruct (H i b Hb) as (q & Hq & Hn & Hs).
  exists q. split; [by eapply byte_of_prefix|]. lia.
Qed.

Lemma saw_extends m m' r n : extends m m' -> saw m r n -> saw m' r n.
Proof using. intros H (H1 & H2 & H3). pose proof (extends_length m m' Seq H). unfold saw. lia. Qed.

Lemma reader_inv_extends m m' vs vs' r :
  extends m m' -> vs `prefix_of` vs' -> reader_inv m vs r -> reader_inv m' vs' r.
Proof using.
  intros He Hp [Hw Hpc Hr]. constructor.
  - by eapply thread_wf_extends.
  - unfold pc_inv in *. destruct (rpc r) as [| |seq0 bs|seq0 bs|bs]; [done|done| | |].
    + destruct Hpc as (n & Hs & -> & Hl & Hd & Hb). exists n. split; [by eapply saw_extends|].
      repeat split; [done|done|]. eapply bytes_inv_mono; [exact Hp|reflexivity|exact Hb].
    + destruct Hpc as (n & Hs & -> & Hl & Hb). exists n. split; [by eapply saw_extends|].
      repeat split; [done|]. eapply bytes_inv_mono; [exact Hp|reflexivity|exact Hb].
    + destruct Hpc as (n & Hs & Hv). exists n. split; [by eapply saw_extends|by eapply prefix_lookup_Some].
  - by eapply in_order_mono.
Qed.

(** ** A reader's steps *)

Lemma counter_even n : u64 (2 * Z.of_nat n) &&& 1 = 0.
Proof using.
  rewrite Seqlock.land_1. unfold wrap. rewrite Z.mod_mod_divide by (by exists (2 ^ 63)).
  rewrite Z.mul_comm. apply Z.mod_mul. done.
Qed.

(** The parity of the counter is that of its place. *)
Lemma counter_parity j : u64 (Z.of_nat j) &&& 1 = 0 -> exists n, j = (2 * n)%nat.
Proof using.
  rewrite Seqlock.land_1. unfold wrap. rewrite Z.mod_mod_divide by (by exists (2 ^ 63)).
  intros H. apply Z.mod_divide in H as [q Hq]; [|done]. exists (Z.to_nat q). lia.
Qed.

Lemma bytes_inv_snoc vs n a bs b q :
  bytes_inv vs n a bs -> byte_of vs q (length bs) b -> (n <= q)%nat -> (2 * q <= S (a Seq))%nat ->
  bytes_inv vs n a (bs ++ [b]).
Proof using.
  intros H Hq Hn Hs i x Hx. apply lookup_snoc_Some in Hx as [[_ Hx]|[-> <-]]; [by apply H|by exists q].
Qed.

(** All bytes are of version [n] when the counter is still [2n]. *)
Lemma bytes_inv_same vs n a bs v :
  Forall (fun v => length v = size) vs -> vs !! n = Some v -> length bs = size ->
  bytes_inv vs n a bs -> (a Seq <= 2 * n)%nat -> bs = v.
Proof using.
  intros Hsz Hv Hl Hb Ha. rewrite Forall_lookup in Hsz. pose proof (Hsz _ _ Hv) as Hlv.
  apply (list_eq_same_length _ _ (length v)); [done|lia|].
  intros i x y _ Hx Hy. destruct (Hb i x Hx) as (q & (w & Hw & Hwx) & Hq1 & Hq2).
  assert (q = n) as -> by lia. rewrite Hv in Hw. injection Hw as <-.
  rewrite Hwx in Hy. by injection Hy.
Qed.

(** A load of the counter by a reader that is not inside the payload. *)
Lemma read_seq_wf o m vs t k s t' :
  mem_inv m vs -> thread_wf m t -> read o Seq k t m = Some (s, t') ->
  thread_wf m t' /\ s = u64 (Z.of_nat k) /\ (t.(cur) Seq <= t'.(cur) Seq)%nat /\ (t.(cur) Seq <= k)%nat /\
  (k <= t'.(cur) Seq)%nat /\ (k < length (m Seq))%nat.
Proof using.
  intros Hm Ht Hr. split; [by eapply read_wf; [apply Hm|..]|].
  pose proof (read_cur_le _ _ _ _ _ _ _ Hr Seq). pose proof (read_cur_loc _ _ _ _ _ _ _ Hr).
  apply read_Some in Hr as (msg & Hk & Hle & -> & _). pose proof (lookup_lt_Some _ _ _ Hk).
  split; [by eapply mi_seq|]. done.
Qed.

Lemma half_le a b : (a <= b)%nat -> (a / 2 <= b / 2)%nat.
Proof using. intros H. by apply Nat.Div0.div_le_mono. Qed.

Lemma twice_half a : (2 * (a / 2) <= a)%nat.
Proof using. pose proof (Nat.Div0.mul_div_le a 2). lia. Qed.

(** The first load of an attempt finds an even counter. *)
Lemma even_inv m vs t n rs k seq0 t' :
  mem_inv m vs -> reader_inv m vs (mkReader t RRetry n rs) ->
  read acquire Seq k t m = Some (seq0, t') -> seq0 &&& 1 = 0 ->
  reader_inv m vs (mkReader t' (RBytes seq0 []) n rs).
Proof using.
  intros Hm [Hw Hpc Hres] Hr He. cbn in *.
  destruct (read_seq_wf _ _ _ _ _ _ _ Hm Hw Hr) as (Hw' & -> & Hmono & Hle & Hk & Hlt).
  apply counter_parity in He as [j ->]. constructor; cbn; [done| |done].
  exists j. split; [unfold saw; cbn; lia|]. split; [f_equal; lia|]. split; [lia|]. split.
  - intros i Hi. pose proof Hr as Hr'. apply read_Some in Hr' as (msg & Hmsg & _).
    pose proof (mi_even _ _ Hm i j msg Hi Hmsg).
    pose proof (read_acquire_le _ _ _ _ _ _ _ Hr Hmsg (Data i)). lia.
  - intros i b Hb. done.
Qed.

(** Reading the next byte. *)
Lemma byte_inv m vs t n rs k seq0 bs x t' :
  mem_inv m vs -> reader_inv m vs (mkReader t (RBytes seq0 bs) n rs) ->
  (length bs < size)%nat -> read relaxed (Data (length bs)) k t m = Some (x, t') ->
  reader_inv m vs (mkReader t' (RBytes seq0 (bs ++ [z2b x])) n rs).
Proof using.
  intros Hm [Hw (j & Hs & -> & Hl & Hd & Hb) Hres] Hlt Hr. cbn in *.
  pose proof (read_cur_le _ _ _ _ _ _ _ Hr) as Hmono.
  pose proof (read_wf _ _ _ _ _ _ _ (mi_wf _ _ Hm) Hw Hr) as Hw'.
  pose proof Hr as Hr'. apply read_Some in Hr' as (msg & Hk & Hle & -> & _).
  destruct (read_acq_le _ _ _ _ _ _ _ _ Hr Hk) as [Ha Hrel].
  destruct (mi_data _ _ Hm _ _ _ Hk) as (b & Hby & ->). rewrite z2b_b2z.
  constructor; cbn; [done| |done]. exists j. split; [|split; [done|]].
  - destruct Hs as (? & ? & ?). cbn in *. specialize (Hmono Seq). unfold saw. cbn. lia.
  - split; [rewrite length_app; cbn; lia|]. split.
    + intros i Hi. specialize (Hd i Hi). specialize (Hmono (Data i)). lia.
    + apply (bytes_inv_snoc _ _ _ _ _ k); [|done| |].
      * eapply bytes_inv_mono; [reflexivity|apply Ha|done].
      * specialize (Hd _ Hlt). lia.
      * pose proof (mi_odd _ _ Hm _ _ _ Hk). specialize (Hrel Seq). lia.
Qed.

(** The second load of the counter finds the value of the first. *)
Lemma same_inv m vs t n rs k seq0 bs t' :
  mem_inv m vs -> Z.of_nat (length (m Seq)) <= 2 ^ 64 -> (length (m Seq) <= 2 * length vs)%nat ->
  reader_inv m vs (mkReader t (RFenced seq0 bs) n rs) ->
  read relaxed Seq k t m = Some (seq0, t') ->
  reader_inv m vs (mkReader t' (RDone bs) n rs).
Proof using.
  intros Hm Hn Hvs [Hw (j & Hs & -> & Hl & Hb) Hres] Hr. cbn in *.
  destruct (read_seq_wf _ _ _ _ _ _ _ Hm Hw Hr) as (Hw' & E & Hmono & Hle & Hk & Hlt).
  destruct Hs as (Hs1 & Hs2 & Hs3). cbn in *.
  assert (k = 2 * j)%nat as -> by (rewrite !wrap_small in E by (unfold is_uint; lia); lia).
  constructor; cbn; [done| |done].
  destruct (lookup_lt_is_Some_2 vs j) as [v Hv]; [lia|].
  exists j. split; [unfold saw; cbn; lia|]. rewrite Hv. f_equal. symmetry.
  eapply bytes_inv_same; [apply Hm|done..|lia].
Qed.

(** Returning from [load]. *)
Lemma return_inv m vs t n rs bs :
  reader_inv m vs (mkReader t (RDone bs) n rs) -> reader_inv m vs (mkReader t RIdle n (rs ++ [bs])).
Proof using.
  intros [Hw (j & Hs & Hv) (ns & Hso & Hbo & Hf)]. cbn in *.
  destruct Hs as (Hs1 & Hs2 & Hs3). cbn in *. constructor; cbn; [done|done|].
  assert (j <= cur t Seq / 2)%nat as Hj by (apply Nat.div_le_lower_bound; lia).
  exists (ns ++ [j]). split; [|split].
  - apply StronglySorted_app. split; [|by split; [|repeat constructor]].
    intros x y Hx Hy. apply list_elem_of_singleton in Hy as ->.
    rewrite Forall_forall in Hbo. specialize (Hbo _ Hx). cbn in Hbo. lia.
  - apply Forall_app. split; [|by apply Forall_singleton].
    eapply Forall_impl; [exact Hbo|]. intros x Hx. cbn in *. lia.
  - apply Forall2_app; [done|]. by constructor.
Qed.

Lemma reader_step_inv m vs r r' :
  mem_inv m vs -> Z.of_nat (length (m Seq)) <= 2 ^ 64 -> (length (m Seq) <= 2 * length vs)%nat ->
  reader_step size m r r' -> reader_inv m vs r -> reader_inv m vs r'.
Proof using.
  intros Hm Hn Hvs Hs Hi.
  destruct Hs as [t n rs k s t' Hr|t n rs|t n rs k seq0 t' Hr He|t n rs k seq0 t' Hr He|t n rs k seq0 bs x t' Hl Hr
                 |t n rs seq0 bs Hl|t n rs k seq0 bs t' Hr|t n rs k seq0 bs seq1 t' Hr He|t n rs bs].
  - destruct Hi as [Hw Hpc Hres]. cbn in *.
    destruct (read_seq_wf _ _ _ _ _ _ _ Hm Hw Hr) as (Hw' & _ & Hmono & _).
    constructor; cbn; [done|done|]. eapply in_order_mono; [reflexivity|by apply half_le|done].
  - destruct Hi as [Hw Hpc Hres]. constructor; cbn; [done| |done]. apply twice_half.
  - destruct Hi as [Hw Hpc Hres]. cbn in *.
    destruct (read_seq_wf _ _ _ _ _ _ _ Hm Hw Hr) as (Hw' & _ & Hmono & _).
    constructor; cbn; [done|lia|done].
  - by eapply even_inv.
  - by eapply byte_inv.
  - destruct Hi as [Hw (j & Hs & -> & Hl' & Hd & Hb) Hres]. cbn in *.
    constructor; cbn; [by apply (fence_wf acquire)| |done]. exists j. split; [|done].
    destruct Hs as (? & ? & ?). pose proof (wf_cur_acq _ _ Hw Seq). unfold saw. cbn in *. lia.
  - by eapply same_inv.
  - destruct Hi as [Hw (j & Hs & -> & Hl & Hb) Hres]. cbn in *.
    destruct (read_seq_wf _ _ _ _ _ _ _ Hm Hw Hr) as (Hw' & _ & Hmono & _).
    constructor; cbn; [done| |done]. destruct Hs as (? & ? & _). cbn in *. lia.
  - by apply return_inv.
Qed.

Lemma synchronize_inv m vs a tr n res :
  bounded m a -> reader_inv m vs (mkReader tr RIdle n res) ->
  reader_inv m vs (mkReader (synchronize a tr) RIdle n res).
Proof using.
  intros Ha [Hw Hpc Hres]. constructor; cbn in *; [by apply synchronize_wf|done|].
  eapply in_order_mono; [reflexivity| |done]. apply half_le. apply (join_l _ _ Seq).
Qed.

(** ** The writer's steps *)

Lemma mem_inv_prefix m vs vs' :
  vs `prefix_of` vs' -> Forall (fun v => length v = size) vs' -> mem_inv m vs -> mem_inv m vs'.
Proof using.
  intros Hp Hsz Hm. destruct Hm. constructor; try done.
  intros i n msg H. destruct (mi_data0 i n msg H) as (b & Hb & E). exists b.
  split; [by eapply byte_of_prefix|done].
Qed.

Lemma store_seq_inv m vs msg :
  mem_inv m vs -> memory_wf (store Seq msg m) -> msg.(value) = u64 (Z.of_nat (length (m Seq))) ->
  (forall n i, (i < size)%nat -> length (m Seq) = (2 * n)%nat -> (n <= msg.(released) (Data i))%nat) ->
  mem_inv (store Seq msg m) vs.
Proof using.
  intros [] Hwf Hv Hr. constructor; [done|done| | | |].
  - intros j x H. apply store_lookup in H as [H|(_ & -> & ->)]; [by eapply mi_seq0|done].
  - intros i n x H. rewrite store_ne in H by done. by eapply mi_data0.
  - intros i n x H. rewrite store_ne in H by done. by eapply mi_odd0.
  - intros i n x Hi H. apply store_lookup in H as [H|(_ & E & ->)]; [by eapply mi_even0|by apply Hr].
Qed.

Lemma store_data_inv m vs i msg b :
  mem_inv m vs -> memory_wf (store (Data i) msg m) ->
  byte_of vs (length (m (Data i))) i b -> msg.(value) = b2z b ->
  (2 * length (m (Data i)) <= S (msg.(released) Seq))%nat ->
  mem_inv (store (Data i) msg m) vs.
Proof using.
  intros [] Hwf Hb Hv Hr. constructor; [done|done| | | |].
  - intros j x H. rewrite store_ne in H by done. by eapply mi_seq0.
  - intros j n x H. apply store_lookup in H as [H|(E & -> & ->)]; [by eapply mi_data0|].
    injection E as ->. by exists b.
  - intros j n x H. apply store_lookup in H as [H|(E & -> & ->)]; [by eapply mi_odd0|done].
  - intros j n x Hj H. rewrite store_ne in H by done. by eapply mi_even0.
Qed.

Lemma writer_write_seq o v m t k c i t' m' :
  memory_wf m -> writer_at m t k c i -> write o Seq v t m = Some (t', m') -> writer_at m' t' k (S c) i.
Proof using.
  intros Hm [Hw Hs Hk Hd Hdk] H. destruct (write_wf _ _ _ _ _ _ _ Hm Hw H) as (_ & Hw' & _).
  apply write_Some in H as (_ & -> & ->). constructor; cbn [cur]; [done| | | |].
  - rewrite store_eq, length_app, bump_eq. cbn. lia.
  - rewrite bump_eq. lia.
  - intros j Hj. rewrite store_ne, bump_ne by done. by apply Hd.
  - intros j Hj. rewrite bump_ne by done. by apply Hdk.
Qed.

Lemma writer_write_data o v m t k c i t' m' :
  memory_wf m -> writer_at m t k c i -> (i < size)%nat -> write o (Data i) v t m = Some (t', m') ->
  writer_at m' t' k c (S i).
Proof using.
  intros Hm [Hw Hs Hk Hd Hdk] Hi H. destruct (write_wf _ _ _ _ _ _ _ Hm Hw H) as (_ & Hw' & _).
  pose proof (Hdk i Hi) as Hki. rewrite decide_False in Hki by lia.
  apply write_Some in H as (Hl & -> & ->). constructor; cbn [cur]; [done| | | |].
  - by rewrite store_ne, bump_ne.
  - by rewrite bump_ne.
  - intros j Hj. destruct (decide (j = i)) as [->|Hne].
    + rewrite store_eq, length_app, bump_eq. cbn. lia.
    + rewrite store_ne, bump_ne by congruence. by apply Hd.
  - intros j Hj. destruct (decide (j = i)) as [->|Hne].
    + rewrite bump_eq, decide_True by lia. lia.
    + rewrite bump_ne by congruence. rewrite (Hdk j Hj). do 2 case_decide; lia.
Qed.

Lemma writer_read m t k c i j s t' :
  memory_wf m -> writer_at m t k c i -> read relaxed Seq j t m = Some (s, t') ->
  writer_at m t' k c i /\ t'.(cur) Seq = t.(cur) Seq /\ j = t.(cur) Seq.
Proof using.
  intros Hm [Hw Hs Hk Hd Hdk] H. pose proof (read_wf _ _ _ _ _ _ _ Hm Hw H) as Hw'.
  pose proof (read_last _ _ _ _ _ _ _ H Hs) as ->.
  apply read_Some in H as (msg & _ & _ & _ & _ & _ & E).
  assert (forall l, cur t' l = cur t l) as Hc.
  { intros l. rewrite E. unfold bump. case_decide; subst; lia. }
  split; [|by rewrite Hc]. constructor; [done|by rewrite Hc|by rewrite Hc| |]; intros l; rewrite Hc; auto.
Qed.

Lemma writer_fence o m t k c i : o <> acquire -> writer_at m t k c i -> writer_at m (fence o t) k c i.
Proof using. intros Ho []. constructor; [by apply fence_wf|..]; by destruct o. Qed.

Lemma writer_next m t k : writer_at m t k 2 size -> writer_at m t (S k) 0 0.
Proof using.
  intros [Hw Hs Hk Hd Hdk]. constructor; [done|done|lia|done|].
  intros j Hj. rewrite (Hdk j Hj), decide_True, decide_False by lia. done.
Qed.

(** One step of the writer: the memory grows, the list of values grows. *)
Definition writer_ok (m : memory loc Z) (t : thread loc) (w : writer) (vs : list (list byte)) : Prop :=
  mem_inv m (vs ++ in_flight w) /\ writer_inv m t w (length vs).

Lemma odd_step m t v seq vs t' m' :
  writer_ok m t (WLoaded v seq) vs -> write relaxed Seq (u64 (seq + 1)) t m = Some (t', m') ->
  writer_ok m' t' (WOdd v seq) vs.
Proof using.
  intros [Hm (Ha & Hl & ->)] H. cbn in *. pose proof (wa_wf _ _ _ _ _ Ha) as Hw.
  destruct (write_wf _ _ _ _ _ _ _ (mi_wf _ _ Hm) Hw H) as (Hm' & _).
  pose proof (writer_write_seq _ _ _ _ _ _ _ _ _ (mi_wf _ _ Hm) Ha H) as Ha'.
  destruct Ha as [_ Hs Hk _ _]. apply write_Some in H as (_ & -> & ->). split.
  - apply store_seq_inv; cbn; [done|done| |].
    + rewrite wrap_add_l by lia. f_equal. lia.
    + intros n i Hi E. lia.
  - cbn. split; [done|]. split; [done|]. f_equal. lia.
Qed.

Lemma byte_step m t v seq i b vs t' m' :
  writer_ok m t (WBytes v seq i) vs -> v !! i = Some b ->
  write relaxed (Data i) (b2z b) t m = Some (t', m') -> writer_ok m' t' (WBytes v seq (S i)) vs.
Proof using.
  intros [Hm (Ha & Hl & -> & Hi & Hrel)] Hb H. cbn in *. pose proof (wa_wf _ _ _ _ _ Ha) as Hw.
  pose proof (lookup_lt_Some _ _ _ Hb) as Hlt.
  destruct (write_wf _ _ _ _ _ _ _ (mi_wf _ _ Hm) Hw H) as (Hm' & _).
  pose proof (writer_write_data _ _ _ _ _ _ _ _ _ (mi_wf _ _ Hm) Ha ltac:(lia) H) as Ha'.
  assert (length (m (Data i)) = length vs) as Hlen.
  { rewrite (wa_data _ _ _ _ _ Ha), (wa_data_k _ _ _ _ _ Ha), decide_False by lia. done. }
  destruct Ha as [_ Hs Hk _ _]. apply write_Some in H as (_ & -> & ->). split.
  - apply (store_data_inv _ _ _ _ b); cbn; [done|done| |done|].
    + exists v. by rewrite Hlen, list_lookup_middle.
    + rewrite Hlen, bump_ne by done. lia.
  - cbn. split; [done|]. split; [done|]. split; [done|]. split; [lia|]. by rewrite bump_ne.
Qed.

Lemma even_step m t v seq vs t' m' :
  writer_ok m t (WFenced v seq) vs -> write release Seq (u64 (seq + 2)) t m = Some (t', m') ->
  writer_ok m' t' WIdle (vs ++ [v]).
Proof using.
  intros [Hm (Ha & Hl & ->)] H. cbn in *. pose proof (wa_wf _ _ _ _ _ Ha) as Hw.
  destruct (write_wf _ _ _ _ _ _ _ (mi_wf _ _ Hm) Hw H) as (Hm' & _).
  pose proof (writer_write_seq _ _ _ _ _ _ _ _ _ (mi_wf _ _ Hm) Ha H) as Ha'.
  destruct Ha as [_ Hs Hk _ Hdk]. apply write_Some in H as (_ & -> & ->). split.
  - cbn. rewrite app_nil_r. apply store_seq_inv; cbn; [done|done| |].
    + rewrite wrap_add_l by lia. f_equal. lia.
    + intros n i Hi E. rewrite bump_ne by done. specialize (Hdk i Hi).
      rewrite decide_True in Hdk by done. lia.
  - cbn. rewrite length_app, Nat.add_1_r. by apply writer_next.
Qed.

Lemma call_step m t vs v k seq t' :
  writer_ok m t WIdle vs -> length v = size -> read relaxed Seq k t m = Some (seq, t') ->
  writer_ok m t' (WLoaded v seq) vs.
Proof using.
  intros [Hm Ha] Hl H. cbn in *. rewrite app_nil_r in Hm.
  destruct (writer_read _ _ _ _ _ _ _ _ (mi_wf _ _ Hm) Ha H) as (Ha' & Ec & ->).
  apply read_Some in H as (msg & Hmsg & _ & -> & _). split; cbn.
  - eapply mem_inv_prefix; [by eexists| |done]. apply Forall_app.
    split; [apply Hm|by apply Forall_singleton].
  - split; [done|]. split; [done|]. rewrite Ec. by eapply mi_seq.
Qed.

Lemma writer_step_inv m t w vs m' t' w' vs' :
  writer_step size m t w vs m' t' w' vs' -> writer_ok m t w vs ->
  writer_ok m' t' w' vs' /\ extends m m' /\ (vs ++ in_flight w) `prefix_of` (vs' ++ in_flight w').
Proof using.
  intros Hs Hi. assert (memory_wf m /\ thread_wf m t) as [Hmw Htw].
  { destruct Hi as [Hm Hw]. split; [apply Hm|]. destruct w; cbn in Hw; [apply Hw|apply (proj1 Hw)..]. }
  destruct Hs as [m t vs v k seq t' Hl H|m t vs v seq t' m' H|m t vs v seq|m t vs v seq i b t' m' Hb H
                 |m t vs v seq|m t vs v seq t' m' H].
  - split; [by eapply call_step|]. split; [done|]. rewrite app_nil_r. by eexists.
  - split; [by eapply odd_step|]. split; [|done]. by apply (write_wf _ _ _ _ _ _ _ Hmw Htw H).
  - split; [|done]. destruct Hi as [Hm (Ha & Hl & ->)]. split; [done|]. cbn.
    split; [by apply (writer_fence release)|]. split; [done|]. split; [done|]. split; [lia|done].
  - split; [by eapply byte_step|]. split; [|done]. by apply (write_wf _ _ _ _ _ _ _ Hmw Htw H).
  - split; [|done]. destruct Hi as [Hm (Ha & Hl & -> & Hi & _)]. split; [done|]. cbn.
    split; [|done]. rewrite <- Hl. by apply (writer_fence release).
  - split; [by eapply even_step|]. split; [by apply (write_wf _ _ _ _ _ _ _ Hmw Htw H)|].
    by rewrite app_nil_r.
Qed.

(** ** All steps *)

Lemma writer_bounded m t w k : writer_inv m t w k -> thread_wf m t /\ length (m Seq) = S (t.(cur) Seq).
Proof using. intros H. destruct w; cbn in H; [split; apply H|split; apply (proj1 H)..]. Qed.

(** How long the history of the counter is. *)
Lemma writer_counter m t w k :
  writer_inv m t w k -> (0 < k)%nat -> (length (m Seq) <= 2 * k)%nat /\ (2 * k <= S (length (m Seq)))%nat.
Proof using.
  intros H Hk.
  assert (exists o i, writer_at m t k o i /\ (o <= 1)%nat) as (o & i & [_ Hs Hk' _ _] & Ho); [|lia].
  destruct w; cbn in H; [by exists 0%nat, 0%nat; split; [|lia]|..]; destruct H as [H _];
    eexists _, _; (split; [exact H|lia]).
Qed.

Lemma weak_step_inv c c' : step size c c' -> no_wrap c' -> inv c -> inv c'.
Proof using.
  intros Hs Hn [Hm Hw H0 Hr]. unfold no_wrap in Hn.
  destruct Hs as [m t w rs vs m' t' w' vs' Hs|m t w rs vs i r r' Hi Hs|m t w rs vs i tr n res Hi|m t w rs vs i j tr n res r Hi Hj];
    cbn [mem wview wpc readers versions] in *.
  - destruct (writer_step_inv _ _ _ _ _ _ _ _ Hs (conj Hm Hw)) as ([Hm' Hw'] & He & Hp).
    constructor; cbn; [done|done| |].
    + destruct Hs; try done. rewrite length_app. cbn. lia.
    + eapply Forall_impl; [exact Hr|]. intros r. by apply reader_inv_extends.
  - constructor; cbn; [done|done|done|]. apply Forall_insert; [done|].
    rewrite Forall_lookup in Hr. destruct (writer_counter _ _ _ _ Hw H0).
    eapply reader_step_inv; [done| |rewrite length_app|exact Hs|by eapply Hr]; lia.
  - constructor; cbn; [done|done|done|]. apply Forall_insert; [done|].
    rewrite Forall_lookup in Hr. apply synchronize_inv; [|by eapply Hr]. apply (writer_bounded _ _ _ _ Hw).
  - constructor; cbn; [done|done|done|]. apply Forall_insert; [done|].
    rewrite Forall_lookup in Hr. apply synchronize_inv; [|by eapply Hr].
    apply (ri_wf _ _ _ (Hr _ _ Hj)).
Qed.

Lemma weak_step_versions c c' : step size c c' -> c.(versions) `prefix_of` c'.(versions).
Proof using. intros [????????? Hs| | |]; cbn; [|done..]. destruct Hs; try done. by eexists. Qed.

Lemma weak_steps_inv c c' : rtc (step size) c c' -> no_wrap c' -> inv c -> inv c'.
Proof using.
  intros Hs. induction Hs as [|x y z Hxy Hyz IH]; [done|]. intros Hn Hi.
  apply IH; [done|]. eapply weak_step_inv; [exact Hxy| |done].
  clear -Hyz Hn. induction Hyz as [|x y z Hxy _ IH]; [done|].
  specialize (IH Hn). apply weak_step_versions, prefix_length in Hxy. unfold no_wrap in *. lia.
Qed.

Lemma construct_data v i n msg :
  construct v (Data i) !! n = Some msg -> n = 0%nat /\ exists b, v !! i = Some b /\ msg = mkMessage (b2z b) bottom.
Proof using.
  cbn. destruct (v !! i) as [b|]; [|done]. destruct n; [|done]. intros [= <-]. split; [done|]. by exists b.
Qed.

Lemma weak_initial_inv v n : length v = size -> inv (initial v n).
Proof using.
  intros Hv. constructor; cbn; [| |lia|].
  - constructor; [|by constructor|..].
    + intros [|i] k msg H; [destruct k; [|done]; injection H as <-; apply bounded_bottom|].
      apply construct_data in H as (_ & b & _ & ->). apply bounded_bottom.
    + intros [|j] msg H; [|done]. by injection H as <-.
    + intros i k msg H. apply construct_data in H as (-> & b & Hb & ->). exists b. split; [|done]. by exists v.
    + intros i k msg H. apply construct_data in H as (-> & _). lia.
    + intros i [|k] msg Hi H; [lia|done].
  - constructor; [apply fresh_wf|done|done| |].
    + intros j Hj. cbn. destruct (lookup_lt_is_Some_2 v j) as [b ->]; [lia|done].
    + intros j Hj. done.
  - apply Forall_replicate. constructor; [apply fresh_wf|done|].
    exists []. split; [constructor|]. split; constructor.
Qed.

(** What a finished load and the earlier ones have returned. *)
Lemma published m t w vs n bs :
  writer_inv m t w (length vs) -> (0 < length vs)%nat -> (2 * n < length (m Seq))%nat ->
  (vs ++ in_flight w) !! n = Some bs -> vs !! n = Some bs.
Proof using.
  intros Hw H0 Hn H. destruct (writer_counter _ _ _ _ Hw H0). by rewrite lookup_app_l in H by lia.
Qed.

(** ** Progress *)

(** The steps a store still takes. *)
Definition left_to_do (w : writer) : nat :=
  match w with
  | WIdle => 0
  | WFenced _ _ => 1
  | WBytes _ _ i => 2 + (size - i)
  | WOdd _ _ => 3 + size
  | WLoaded _ _ => 4 + size
  end.

(** The writer is never stuck inside a store. *)
Lemma writer_can_step m t w vs :
  writer_ok m t w vs -> w <> WIdle ->
  exists m' t' w' vs', writer_step size m t w vs m' t' w' vs' /\
    (left_to_do w' < left_to_do w)%nat /\ vs' ++ in_flight w' = vs ++ in_flight w.
Proof using.
  intros [Hm Hw] Hne. destruct w as [|v seq|v seq|v seq i|v seq]; cbn in Hw; [done|..].
  - destruct Hw as [Ha _]. destruct (write_total relaxed Seq (u64 (seq + 1)) t m (wa_seq _ _ _ _ _ Ha)) as (t' & m' & H).
    eexists m', t', _, vs. split; [by apply w_odd|]. split; [cbn; lia|done].
  - eexists m, _, _, vs. split; [apply w_fence|]. split; [cbn; lia|done].
  - destruct Hw as (Ha & Hl & _ & Hi & _). destruct (decide (i = size)) as [->|Hneq].
    + rewrite <- Hl. eexists m, _, _, vs. split; [apply w_fence2|]. split; [cbn; lia|done].
    + destruct (lookup_lt_is_Some_2 v i) as [b Hb]; [lia|].
      destruct (write_total relaxed (Data i) (b2z b) t m (wa_data _ _ _ _ _ Ha i ltac:(lia))) as (t' & m' & H).
      eexists m', t', _, vs. split; [by eapply w_byte|]. split; [cbn; lia|done].
  - destruct Hw as [Ha _]. destruct (write_total release Seq (u64 (seq + 2)) t m (wa_seq _ _ _ _ _ Ha)) as (t' & m' & H).
    eexists m', t', _, (vs ++ [v]). split; [by apply w_even|]. split; [cbn; lia|]. cbn. by rewrite app_nil_r.
Qed.

(** A store completes. *)
Lemma write_completes m t w rs vs :
  writer_ok m t w vs ->
  exists m' t', rtc (step size) (mkConfig m t w rs vs) (mkConfig m' t' WIdle rs (vs ++ in_flight w)).
Proof using.
  remember (left_to_do w) as k eqn:Hk. revert m t w vs Hk.
  induction k as [k IH] using lt_wf_ind. intros m t w vs -> Hok.
  destruct (decide (left_to_do w = 0%nat)) as [E|E].
  { destruct w; cbn in E; [|lia..]. cbn. rewrite app_nil_r. by eexists _, _. }
  destruct (writer_can_step m t w vs Hok) as (m1 & t1 & w1 & vs1 & Hs & Hlt & Hvs); [by intros ->|].
  destruct (writer_step_inv _ _ _ _ _ _ _ _ Hs Hok) as [Hok1 _].
  destruct (IH _ Hlt m1 t1 w1 vs1 eq_refl Hok1) as (m' & t' & Hrun). rewrite Hvs in Hrun.
  exists m', t'. eapply rtc_l; [by apply step_writer|done].
Qed.

Lemma data_nonempty m t k o i j :
  writer_at m t k o i -> (j < size)%nat -> m (Data j) <> [].
Proof using. intros Ha Hj E. pose proof (wa_data _ _ _ _ _ Ha j Hj) as H. by rewrite E in H. Qed.

(** A reader that reads the newest stores, from its [i]-th byte on. *)
Lemma read_bytes m t vs v seq0 rt n rs i l :
  mem_inv m vs -> writer_at m t (length vs) 0 0 -> last vs = Some v -> length v = size -> (i + l = size)%nat ->
  thread_wf m rt ->
  exists rt', thread_wf m rt' /\ rtc (reader_step size m) (mkReader rt (RBytes seq0 (take i v)) n rs)
                                  (mkReader rt' (RBytes seq0 v) n rs).
Proof using.
  intros Hm Ha Hlast Hl. revert i rt. induction l as [|l IH]; intros i rt Hi Hrt.
  - exists rt. split; [done|]. by rewrite take_ge by lia.
  - assert (length (take i v) = i) as Ht by (rewrite length_take; lia).
    destruct (lookup_lt_is_Some_2 v i) as [b Hb]; [lia|].
    destruct (read_total relaxed (Data i) rt m (wf_cur _ _ Hrt)) as (x & rt1 & Hr);
      [by apply (data_nonempty _ _ _ _ _ _ Ha); lia|].
    assert (x = b2z b) as ->.
    { pose proof Hr as Hr'. apply read_Some in Hr' as (msg & Hk & _ & -> & _).
      destruct (mi_data _ _ Hm _ _ _ Hk) as (b' & (v' & Hv' & Hb') & ->).
      rewrite (wa_data _ _ _ _ _ Ha), (wa_data_k _ _ _ _ _ Ha), decide_False in Hv' by lia.
      rewrite last_lookup in Hlast. rewrite Hv' in Hlast. injection Hlast as ->.
      rewrite Hb' in Hb. by injection Hb as ->. }
    destruct (IH (S i) rt1) as (rt' & Hrt' & Hrun); [lia|by eapply read_wf; [apply Hm|..]|].
    exists rt'. split; [done|]. eapply rtc_l; [|exact Hrun].
    rewrite (take_S_r v i b), <- (z2b_b2z b) at 1 by done. eapply r_byte; rewrite Ht; [lia|exact Hr].
Qed.

(** An undisturbed load can return the newest value. *)
Lemma read_newest m t vs rt n rs :
  mem_inv m vs -> writer_at m t (length vs) 0 0 -> (0 < length vs)%nat -> thread_wf m rt ->
  exists v rt', last vs = Some v /\
    rtc (reader_step size m) (mkReader rt RIdle n rs) (mkReader rt' (RDone v) (rt.(cur) Seq / 2) rs).
Proof using.
  intros Hm Ha H0 Hrt. destruct (lookup_lt_is_Some_2 vs (pred (length vs))) as [v Hv]; [lia|].
  assert (length v = size) as Hl by (pose proof (mi_size _ _ Hm) as Hsz; rewrite Forall_lookup in Hsz; by eapply Hsz).
  assert (m Seq <> []) as Hne by (pose proof (wa_seq _ _ _ _ _ Ha) as E; by destruct (m Seq)).
  destruct (read_total acquire Seq rt m (wf_cur _ _ Hrt) Hne) as (s0 & rt1 & Hr1).
  destruct (read_seq_wf _ _ _ _ _ _ _ Hm Hrt Hr1) as (Hrt1 & Es & _).
  assert (s0 &&& 1 = 0) as Heven.
  { rewrite Es, (wa_seq _ _ _ _ _ Ha). pose proof (wa_seq_k _ _ _ _ _ Ha) as Hk.
    replace (Z.of_nat (pred (S (cur t Seq)))) with (2 * Z.of_nat (pred (length vs))) by lia. apply counter_even. }
  destruct (read_bytes m t vs v s0 rt1 (cur rt Seq / 2) rs 0 size) as (rt2 & Hrt2 & Hrun);
    [done|done|by rewrite last_lookup|done|lia|done|].
  destruct (read_total relaxed Seq (fence acquire rt2) m (wf_cur _ _ (fence_wf acquire _ _ Hrt2)) Hne) as (s1 & rt3 & Hr3).
  assert (s1 = s0) as ->.
  { destruct (read_seq_wf _ _ _ _ _ _ _ Hm (fence_wf acquire _ _ Hrt2) Hr3) as (_ & -> & _). done. }
  exists v, rt3. split; [by rewrite last_lookup|].
  eapply rtc_l; [apply r_call|]. eapply rtc_l; [by eapply r_even|].
  etrans; [exact Hrun|]. eapply rtc_l; [by apply r_fence|]. eapply rtc_l; [by eapply r_same|]. done.
Qed.

Lemma readers_run m t w rs vs i r r' :
  rs !! i = Some r -> rtc (reader_step size m) r r' ->
  rtc (step size) (mkConfig m t w rs vs) (mkConfig m t w (<[i := r']> rs) vs).
Proof using.
  intros Hi Hrun. revert rs Hi. induction Hrun as [r|r r1 r2 Hs _ IH]; intros rs Hi.
  - by rewrite list_insert_id.
  - eapply rtc_l; [by eapply step_reader|].
    rewrite <- (list_insert_insert_eq rs i r2 r1). apply IH.
    apply list_lookup_insert_eq. by eapply lookup_lt_Some.
Qed.

(** Nor is a reader stuck inside a load. *)
Lemma reader_can_step m vs r :
  mem_inv m vs -> (forall l, l = Seq \/ (exists j, l = Data j /\ (j < size)%nat) -> m l <> []) ->
  reader_inv m vs r -> r.(rpc) <> RIdle -> exists r', reader_step size m r r'.
Proof using.
  intros Hm Hne [Hw Hpc _] Hr. destruct r as [t pc n rs]. cbn in *.
  destruct (read_total acquire Seq t m (wf_cur _ _ Hw)) as (s0 & t0 & H0); [apply Hne; by left|].
  destruct (read_total relaxed Seq t m (wf_cur _ _ Hw)) as (s1 & t1 & H1); [apply Hne; by left|].
  destruct pc as [| |seq0 bs|seq0 bs|bs]; [done|..].
  - destruct (decide (s0 &&& 1 = 0)); eexists; [by eapply r_even|by eapply r_odd].
  - destruct Hpc as (j & _ & _ & Hl & _). destruct (decide (length bs = size)).
    + eexists. by apply r_fence.
    + destruct (read_total relaxed (Data (length bs)) t m (wf_cur _ _ Hw)) as (x & t2 & H2).
      { apply Hne. right. eexists. split; [done|lia]. }
      eexists. eapply r_byte; [lia|exact H2].
  - destruct (decide (s1 = seq0)) as [->|]; eexists; [by eapply r_same|by eapply r_changed].
  - eexists. apply r_return.
Qed.

Lemma in_order_published m t w vs bound rs :
  writer_inv m t w (length vs) -> (0 < length vs)%nat -> (2 * bound < length (m Seq))%nat ->
  in_order (vs ++ in_flight w) bound rs -> in_order vs bound rs.
Proof using.
  intros Hw H0 Hb (ns & Hs & Hbo & Hf). exists ns. split; [done|]. split; [done|].
  clear Hs. induction Hf as [|k bs ns rs Hk Hf IH]; [constructor|].
  apply Forall_cons in Hbo as [Hk0 Hbo]. cbn in Hk0.
  constructor; [|by apply IH]. cbn. eapply published; [done|done| |done]. lia.
Qed.

Lemma writer_knows m t w k :
  writer_inv m t w k -> forall l, (l = Seq \/ exists j, l = Data j /\ (j < size)%nat) ->
  thread_wf m t /\ length (m l) = S (t.(cur) l).
Proof using.
  intros H l Hl. assert (exists o i, writer_at m t k o i) as (o & i & []).
  { destruct w; cbn in H; [by eexists _, _|destruct H as [H _]; by eexists _, _..]. }
  split; [done|]. destruct Hl as [->|(j & -> & Hj)]; auto.
Qed.

(** What a reader knows of is in the history of the counter. *)
Lemma known_bound m vs r :
  reader_inv m vs r -> m Seq <> [] ->
  (2 * match r.(rpc) with RIdle => r.(rview).(cur) Seq / 2 | _ => r.(known) end < length (m Seq))%nat.
Proof using.
  intros [Hw Hpc _] Hne. pose proof (wf_cur _ _ Hw Seq) as Hb. pose proof (twice_half (cur (rview r) Seq)).
  assert (0 < length (m Seq))%nat by (destruct (m Seq); [done|cbn; lia]).
  unfold pc_inv in Hpc. destruct (rpc r); [lia|lia|..];
    destruct Hpc as (k & (Hk & _ & Hlt) & _); lia.
Qed.

End Invariant.

(** ** What a load returns *)

Lemma weak_reachable_inv v n c :
  reachable v n c -> Z.of_nat (length c.(versions)) < 2 ^ 63 -> inv (length v) c.
Proof. intros Hc Hn. eapply weak_steps_inv; [exact Hc|done|by apply weak_initial_inv]. Qed.

Lemma finished_load v n c i r bs :
  reachable v n c -> Z.of_nat (length c.(versions)) < 2 ^ 63 -> c.(readers) !! i = Some r -> r.(rpc) = RDone bs ->
  exists k, c.(versions) !! k = Some bs /\ (r.(known) <= k)%nat.
Proof.
  intros Hc Hn Hr Hd. destruct (weak_reachable_inv _ _ _ Hc Hn) as [Hm Hw H0 Hrs].
  rewrite Forall_lookup in Hrs. destruct (Hrs _ _ Hr) as [_ Hpc _]. unfold pc_inv in Hpc. rewrite Hd in Hpc.
  destruct Hpc as (k & (Hk & _ & Hlt) & Hv). exists k. split; [by eapply published|done].
Qed.

(** A thread that knows of all stores reads an even counter between them: the
    one of the newest value. *)
Lemma stable_counter v n c o k t s t' :
  reachable v n c -> Z.of_nat (length c.(versions)) < 2 ^ 63 -> c.(wpc) = WIdle ->
  (c.(wview).(cur) Seq <= t.(cur) Seq)%nat -> read o Seq k t c.(mem) = Some (s, t') ->
  s = 2 * Z.of_nat (pred (length c.(versions))).
Proof.
  intros Hc Hn Hi Ht Hr. destruct (weak_reachable_inv _ _ _ Hc Hn) as [Hm Hw H0 _].
  rewrite Hi in Hw. cbn in Hw. pose proof (wa_seq _ _ _ _ _ _ Hw) as Hs. pose proof (wa_seq_k _ _ _ _ _ _ Hw) as Hk.
  apply read_Some in Hr as (msg & Hmsg & Hle & -> & _). pose proof (lookup_lt_Some _ _ _ Hmsg).
  rewrite (mi_seq _ _ _ Hm _ _ Hmsg). rewrite wrap_small by (unfold is_uint; lia). lia.
Qed.

(** ** Properties *)

(** C10: the sequence lock under release/acquire memory.  Whatever older
    values the loads of the code may see, in every execution of one writer
    and [n] readers: a load that is about to return has the complete bytes of
    one published value, and not an older one than the thread knew of when it
    called [load]; the values that a thread's loads have returned are
    published values, in the order of their publication (fewer than 2^63
    stores, so that the counter does not wrap around). *)
Theorem seqlock_release_acquire v n c i r :
  reachable v n c -> Z.of_nat (length c.(versions)) < 2 ^ 63 -> c.(readers) !! i = Some r ->
  (forall bs, r.(rpc) = RDone bs ->
     exists k, c.(versions) !! k = Some bs /\ (r.(known) <= k)%nat) /\
  exists ks, StronglySorted le ks /\ Forall2 (fun k bs => c.(versions) !! k = Some bs) ks r.(results).
Proof.
  intros Hc Hn Hr. split; [intros bs; by apply (finished_load v n c i r)|].
  destruct (weak_reachable_inv _ _ _ Hc Hn) as [Hm Hw H0 Hrs]. rewrite Forall_lookup in Hrs.
  pose proof (Hrs _ _ Hr) as Hri. destruct (writer_bounded _ _ _ _ _ Hw) as [_ Hl].
  assert (c.(mem) Seq <> []) as Hne by (intros E; by rewrite E in Hl).
  destruct (in_order_published _ _ _ _ _ _ _ Hw H0 (known_bound _ _ _ _ Hri Hne) (ri_results _ _ _ _ Hri))
    as (ks & Hs & _ & Hf). by exists ks.
Qed.

(** C25: progress.  In every reachable state: no thread is stuck inside an
    operation; the writer, left alone, completes the store it is in; and
    between stores, a load that begins and is left alone can return the newest
    published value. *)
Theorem seqlock_weak_progress v n c :
  reachable v n c -> Z.of_nat (length c.(versions)) < 2 ^ 63 ->
  (exists c', rtc (step (length v)) c c' /\ c'.(wpc) = WIdle /\ c'.(readers) = c.(readers) /\
              c'.(versions) = c.(versions) ++ in_flight c.(wpc)) /\
  (forall i r, c.(readers) !! i = Some r -> r.(rpc) <> RIdle ->
     exists r', reader_step (length v) c.(mem) r r') /\
  (forall i r, c.(readers) !! i = Some r -> r.(rpc) = RIdle -> c.(wpc) = WIdle ->
     exists bs c' r', rtc (step (length v)) c c' /\ c'.(versions) = c.(versions) /\
       c'.(readers) !! i = Some r' /\ r'.(rpc) = RDone bs /\ last c.(versions) = Some bs).
Proof.
  intros Hc Hn. destruct (weak_reachable_inv _ _ _ Hc Hn) as [Hm Hw H0 Hrs]. rewrite Forall_lookup in Hrs. destruct c as [m t w rs vs].
  cbn [mem wview wpc readers versions] in *. split; [|split].
  - destruct (write_completes _ m t w rs vs (conj Hm Hw)) as (m' & t' & Hrun).
    eexists. split; [exact Hrun|done].
  - intros i r Hi Hr. apply (reader_can_step _ m _ r Hm); [|by eapply Hrs|done].
    intros l Hl E. destruct (writer_knows _ _ _ _ _ Hw l Hl) as [_ E']. by rewrite E in E'.
  - intros i [rt pc k res] Hi Hpc ->. cbn in Hpc. subst pc. cbn in *. rewrite app_nil_r in Hm.
    destruct (read_newest _ m t vs rt k res Hm Hw H0 (ri_wf _ _ _ _ (Hrs _ _ Hi))) as (bs & rt' & Hl & Hrun).
    exists bs. eexists _, (mkReader rt' (RDone bs) (cur rt Seq / 2) res).
    split; [by eapply readers_run|]. cbn. split; [done|].
    split; [|done]. apply list_lookup_insert_eq. by eapply lookup_lt_Some.
Qed.

(** Two bytes; one store is published while the reader, which does not know
    of it, still loads the first value: the loads read older stores. *)
Definition stale_value_run_end : config -> Prop := fun c =>
  exists t, c.(readers) !! 0%nat = Some (mkReader t (RDone (Seqlock.two_bytes 1 2)) 0 []) /\
            c.(versions) = [Seqlock.two_bytes 1 2; Seqlock.two_bytes 3 4].

Ltac writer_does c := eapply rtc_l; [apply step_writer; c|].
Ltac reader_does c := eapply rtc_l; [eapply (step_reader _ _ _ _ _ _ 0); [reflexivity|c]|].

Lemma stale_value_run : exists c, reachable (Seqlock.two_bytes 1 2) 1 c /\ stale_value_run_end c.
Proof.
  eexists. split.
  - unfold reachable, initial.
    writer_does ltac:(apply (w_call _ _ _ _ (Seqlock.two_bytes 3 4) 0); reflexivity).
    writer_does ltac:(apply w_odd; reflexivity).
    writer_does ltac:(apply w_fence).
    writer_does ltac:(eapply w_byte; reflexivity).
    writer_does ltac:(eapply w_byte; reflexivity).
    writer_does ltac:(apply (w_fence2 _ _ _ _ (Seqlock.two_bytes 3 4))).
    writer_does ltac:(apply w_even; reflexivity).
    reader_does ltac:(apply r_call).
    reader_does ltac:(apply (r_even _ _ _ _ _ 0); reflexivity).
    reader_does ltac:(eapply (r_byte _ _ _ _ _ 0); [cbn; lia|reflexivity]).
    reader_does ltac:(eapply (r_byte _ _ _ _ _ 0); [cbn; lia|reflexivity]).
    reader_does ltac:(apply r_fence; reflexivity).
    reader_does ltac:(apply (r_same _ _ _ _ _ 0); reflexivity).
    apply rtc_refl.
  - eexists. split; reflexivity.
Qed.

Lemma seqlock_release_acquire_witness :
  exists c t, reachable (Seqlock.two_bytes 1 2) 1 c /\ c.(readers) !! 0%nat = Some (mkReader t (RDone (Seqlock.two_bytes 1 2)) 0 []) /\
    length c.(versions) = 2%nat /\ exists k, c.(versions) !! k = Some (Seqlock.two_bytes 1 2) /\ (0 <= k)%nat.
Proof.
  destruct stale_value_run as (c & Hc & t & Hr & Hv). exists c, t. split; [exact Hc|]. split; [exact Hr|].
  split; [by rewrite Hv|].
  assert (Z.of_nat (length c.(versions)) < 2 ^ 63) as Hn by by rewrite Hv.
  exact (proj1 (seqlock_release_acquire (Seqlock.two_bytes 1 2) 1 c 0 _ Hc Hn Hr) _ eq_refl).
Defined.

Lemma seqlock_weak_progress_witness :
  exists c', rtc (step 2) (initial (Seqlock.two_bytes 1 2) 1) c' /\ c'.(wpc) = WIdle /\
    c'.(readers) = [mkReader fresh RIdle 0 []] /\ c'.(versions) = [Seqlock.two_bytes 1 2].
Proof.
  apply (seqlock_weak_progress (Seqlock.two_bytes 1 2) 1); [apply rtc_refl|reflexivity].
Defined.
End SeqlockWeak.
