(* ===== verification/TcpReassembler.v ===== *)
(** * The packet reassembler ([include/sensorforge/transport/tcp_reassembler.hpp])

    The byte-at-a-time state machine, with the callback as the list of
    payloads it is called with.  Results: whatever arrives, no payload or
    buffer exceeds [max_payload]; packets separated by bytes other than 0xAB
    are delivered exactly and in order, however the stream is cut into chunks. *)

From S2P Require Export Prelude Buffers.

Module TcpReassembler.

Record TcpReassembler := mkTcpReassembler {
  max_payload_ : Z;
  state_ : Z;
  size_bytes_ : list Z;
  size_idx_ : Z;
  payload_size_ : Z;
  payload_ : list byte;
  payloads_emitted_ : Z;
  resyncs_ : Z
}.

Definition construct (max_payload : Z) : TcpReassembler :=
  {| max_payload_ := max_payload; state_ := 0; size_bytes_ := [0; 0; 0; 0]; size_idx_ := 0;
     payload_size_ := 0; payload_ := []; payloads_emitted_ := 0; resyncs_ := 0 |}.

Definition default_max_payload : Z := 8 * 1024 * 1024.

Definition set_state s (r : TcpReassembler) :=
  mkTcpReassembler r.(max_payload_) s r.(size_bytes_) r.(size_idx_) r.(payload_size_) r.(payload_)
    r.(payloads_emitted_) r.(resyncs_).
Definition set_size_bytes l (r : TcpReassembler) :=
  mkTcpReassembler r.(max_payload_) r.(state_) l r.(size_idx_) r.(payload_size_) r.(payload_)
    r.(payloads_emitted_) r.(resyncs_).
Definition set_size_idx i (r : TcpReassembler) :=
  mkTcpReassembler r.(max_payload_) r.(state_) r.(size_bytes_) i r.(payload_size_) r.(payload_)
    r.(payloads_emitted_) r.(resyncs_).
Definition set_payload_size n (r : TcpReassembler) :=
  mkTcpReassembler r.(max_payload_) r.(state_) r.(size_bytes_) r.(size_idx_) n r.(payload_)
    r.(payloads_emitted_) r.(resyncs_).
Definition set_payload p (r : TcpReassembler) :=
  mkTcpReassembler r.(max_payload_) r.(state_) r.(size_bytes_) r.(size_idx_) r.(payload_size_) p
    r.(payloads_emitted_) r.(resyncs_).
Definition count_emitted (r : TcpReassembler) :=
  mkTcpReassembler r.(max_payload_) r.(state_) r.(size_bytes_) r.(size_idx_) r.(payload_size_)
    r.(payload_) (u64 (r.(payloads_emitted_) + 1)) r.(resyncs_).
Definition count_resync (r : TcpReassembler) :=
  mkTcpReassembler r.(max_payload_) r.(state_) r.(size_bytes_) r.(size_idx_) r.(payload_size_)
    r.(payload_) r.(payloads_emitted_) (u64 (r.(resyncs_) + 1)).

Definition reset (r : TcpReassembler) : TcpReassembler :=
  set_payload [] (set_payload_size 0 (set_size_idx 0 (set_state 0 r))).

(** The new state, and the payloads the callback received. *)
Definition feed_byte (r : TcpReassembler) (b : byte) : outcome (TcpReassembler * list (list byte)) :=
  if r.(state_) =? 0 then
    Ok (if b2z b =? 0xAB then set_state 1 r else r, [])
  else if r.(state_) =? 1 then
    Ok (if b2z b =? 0xCD then set_size_idx 0 (set_state 2 r)
        else if b2z b =? 0xAB then set_state 1 r
        else count_resync (set_state 0 r), [])
  else if r.(state_) =? 2 then
    if negb ((0 <=? r.(size_idx_)) && (r.(size_idx_) <? 4)) then OutOfBounds else
    let r := set_size_idx (wrap 8 (r.(size_idx_) + 1))
               (set_size_bytes (<[Z.to_nat r.(size_idx_) := b2z b]> r.(size_bytes_)) r) in
    if r.(size_idx_) =? 4 then
      let r := set_size_idx 0 r in
      let byte i := nth i r.(size_bytes_) 0 in
      let r := set_payload_size
                 (u32 (byte 0%nat <<< 24) ||| u32 (byte 1%nat <<< 16) ||| u32 (byte 2%nat <<< 8)
                  ||| byte 3%nat) r in
      if r.(max_payload_) <? r.(payload_size_) then
        Ok (count_resync (set_payload_size 0 (set_state 0 r)), [])
      else if r.(payload_size_) =? 0 then
        Ok (set_state 0 (count_emitted r), [[]])
      else Ok (set_state 3 (set_payload [] r), [])
    else Ok (r, [])
  else if r.(state_) =? 3 then
    let r := set_payload (r.(payload_) ++ [b]) r in
    if Z.of_nat (length r.(payload_)) =? r.(payload_size_) then
      Ok (set_state 0 (set_payload [] (count_emitted r)), [r.(payload_)])
    else Ok (r, [])
  else Ok (set_state 0 r, []).

Fixpoint feed (r : TcpReassembler) (data : list byte) : outcome (TcpReassembler * list (list byte)) :=
  match data with
  | [] => Ok (r, [])
  | b :: data =>
    res ← feed_byte r b;
    rest ← feed res.1 data;
    Ok (rest.1, res.2 ++ rest.2)
  end.

(** A stream that arrives in chunks. *)
Fixpoint feed_chunks (r : TcpReassembler) (chunks : list (list byte)) :
    outcome (TcpReassembler * list (list byte)) :=
  match chunks with
  | [] => Ok (r, [])
  | c :: chunks =>
    res ← feed r c;
    rest ← feed_chunks res.1 chunks;
    Ok (rest.1, res.2 ++ rest.2)
  end.

(** ** The invariant *)

Record wf (r : TcpReassembler) : Prop := {
  wf_max : is_uint 32 r.(max_payload_);
  wf_state : 0 <= r.(state_) <= 3;
  wf_bytes : length r.(size_bytes_) = 4%nat /\ Forall (is_uint 8) r.(size_bytes_);
  wf_idx : 0 <= r.(size_idx_) < 4;
  wf_payload :
    if r.(state_) =? 3
    then Z.of_nat (length r.(payload_)) < r.(payload_size_) <= r.(max_payload_)
    else r.(payload_) = []
}.

Lemma construct_wf m : is_uint 32 m -> wf (construct m).
Proof. intros Hm. constructor; cbn; try done. split; [done|]. by repeat constructor. Qed.

(** The four length bytes. *)
Definition be_value (bs : list Z) : Z := foldl (fun v b => 256 * v + b) 0 bs.

Lemma length_bytes_value b0 b1 b2 b3 :
  is_uint 8 b0 -> is_uint 8 b1 -> is_uint 8 b2 -> is_uint 8 b3 ->
  u32 (b0 <<< 24) ||| u32 (b1 <<< 16) ||| u32 (b2 <<< 8) ||| b3 = be_value [b0; b1; b2; b3].
Proof.
  intros H0 H1 H2 H3. rewrite !wrap_shl_byte by first [done|lia].
  assert (forall v b, is_uint 8 b -> (v <<< 8) ||| b = 256 * v + b) as Hs.
  { intros v b Hb. rewrite Z.lor_comm, lor_shiftl_8 by done. lia. }
  replace (b0 <<< 24) with (((b0 <<< 8) <<< 8) <<< 8) by by rewrite !Z.shiftl_shiftl.
  replace (b1 <<< 16) with ((b1 <<< 8) <<< 8) by by rewrite !Z.shiftl_shiftl.
  rewrite <- !Z.shiftl_lor, !Hs by done. unfold be_value. cbn [foldl]. f_equal.
Qed.

Lemma feed_byte_wf r b :
  wf r -> exists r' out, feed_byte r b = Ok (r', out) /\ wf r' /\
    r'.(max_payload_) = r.(max_payload_) /\
    Forall (fun p => Z.of_nat (length p) <= r.(max_payload_)) out.
Proof.
  intros [Hm Hs [Hb1 Hb2] Hi Hp]. pose proof (b2z_range b) as Hb. unfold feed_byte.
  assert (r.(state_) = 0 \/ r.(state_) = 1 \/ r.(state_) = 2 \/ r.(state_) = 3) as [E|[E|[E|E]]] by lia;
    rewrite E in Hp |- *; cbn [Z.eqb Pos.eqb] in *.
  - eexists _, _. split; [done|]. split; [|case_test; done]. case_test; constructor; cbn; rewrite ?E; done.
  - eexists _, _. split; [done|]. split; [|repeat case_test; done].
    repeat case_test; constructor; cbn; rewrite ?E; done.
  - rewrite (proj2 (Z.leb_le _ _)), (proj2 (Z.ltb_lt _ _)) by lia. cbn [andb negb].
    rewrite wrap_small by (unfold is_uint; lia). cbn [size_idx_ set_size_idx].
    set (bytes := <[_ := _]> _).
    assert (length bytes = 4%nat /\ Forall (is_uint 8) bytes) as [Hl Hf].
    { unfold bytes. rewrite length_insert. split; [done|]. by apply Forall_insert. }
    destruct bytes as [|b0 [|b1 [|b2 [|b3 [|]]]]]; try done.
    rewrite !Forall_cons in Hf. destruct Hf as (F0 & F1 & F2 & F3 & _).
    destruct (size_idx_ r + 1 =? 4) eqn:E4; bool_to_prop.
    + cbn [size_bytes_ set_size_bytes set_size_idx nth payload_size_ set_payload_size max_payload_].
      rewrite length_bytes_value by done.
      assert (Hv : is_uint 32 (be_value [b0; b1; b2; b3])).
      { unfold is_uint, be_value in *. cbn [foldl]. lia. }
      destruct Hv as [Hv _]. generalize dependent (be_value [b0; b1; b2; b3]). intros n Hn.
      assert (length [b0; b1; b2; b3] = 4%nat /\ Forall (is_uint 8) [b0; b1; b2; b3]) as Hbs
        by (split; [done|by rewrite !Forall_cons, Forall_nil]).
      destruct (r.(max_payload_) <? n) eqn:Em; [|destruct (n =? 0) eqn:En]; bool_to_prop;
        eexists _, _; (split; [done|]); (split; [|split; [done|]]).
      * by constructor.
      * constructor.
      * by constructor.
      * constructor; [destruct Hm; cbn; lia|constructor].
      * constructor; try done. cbn. lia.
      * constructor.
    + eexists _, _. split; [done|]. split; [|done].
      constructor; cbn; rewrite ?E; try done; try lia. split; [done|]. by rewrite !Forall_cons, Forall_nil.
  - cbn [payload_ payload_size_ set_payload]. rewrite length_app. cbn [length].
    case_test; bool_to_prop; eexists _, _; (split; [done|]); (split; [|split; [done|]]).
    + constructor; cbn; done.
    + constructor; [|constructor]. rewrite length_app. cbn. lia.
    + constructor; cbn; rewrite ?E; try done. cbn. rewrite length_app. cbn. lia.
    + constructor.
Qed.

(** ** Packets *)

(** The format of the header comment: start bytes, big-endian length, payload. *)
Definition be_bytes (n : Z) : list byte :=
  [z2b (n >>> 24); z2b (n >>> 16); z2b (n >>> 8); z2b n].

Definition packet (p : list byte) : list byte :=
  [z2b 0xAB; z2b 0xCD] ++ be_bytes (Z.of_nat (length p)) ++ p.

(** Bytes that cannot start a packet. *)
Definition no_start (g : list byte) : Prop := Forall (fun b => b2z b <> 0xAB) g.

Definition idle (r : TcpReassembler) : Prop := wf r /\ r.(state_) = 0.

Lemma be_value_bytes n : is_uint 32 n -> be_value (map b2z (be_bytes n)) = n.
Proof.
  intros [H0 H1]. unfold be_value, be_bytes. cbn [map foldl]. rewrite !b2z_z2b.
  unfold wrap. rewrite !Z.shiftr_div_pow2 by lia.
  change (2 ^ 8) with 256. change (2 ^ 16) with (256 * 256). change (2 ^ 24) with (256 * (256 * 256)).
  rewrite <- !Z.div_div by lia.
  pose proof (Z.div_mod n 256 ltac:(lia)). pose proof (Z.div_mod (n / 256) 256 ltac:(lia)).
  pose proof (Z.div_mod (n / 256 / 256) 256 ltac:(lia)).
  rewrite (Z.mod_small (n / 256 / 256 / 256)); [lia|].
  split; [repeat (apply Z.div_pos; [|lia]); lia|].
  repeat (apply Z.div_lt_upper_bound; [lia|]). lia.
Qed.

Lemma feed_app r a b :
  feed r (a ++ b) = res ← feed r a; rest ← feed res.1 b; Ok (rest.1, res.2 ++ rest.2).
Proof.
  revert r. induction a as [|x a IH]; intros r; cbn [app feed mbind outcome_bind fst snd].
  - by destruct (feed r b) as [[]| |].
  - destruct (feed_byte r x) as [[r1 o1]| |]; [|done|done]. cbn [mbind outcome_bind fst snd].
    rewrite IH. destruct (feed r1 a) as [[r2 o2]| |]; [|done|done]. cbn [mbind outcome_bind fst snd].
    destruct (feed r2 b) as [[r3 o3]| |]; [|done|done]. cbn. by rewrite app_assoc.
Qed.

Lemma feed_no_start r g : idle r -> no_start g -> feed r g = Ok (r, []).
Proof.
  intros [_ Hs]. induction 1 as [|b g Hb _ IH]; [done|]. cbn [feed]. unfold feed_byte.
  rewrite Hs, (proj2 (Z.eqb_neq _ _) Hb). cbn [Z.eqb mbind outcome_bind fst snd]. by rewrite IH.
Qed.

Lemma feed_cons r b data r1 o1 :
  feed_byte r b = Ok (r1, o1) ->
  feed r (b :: data) = rest ← feed r1 data; Ok (rest.1, o1 ++ rest.2).
Proof. intros H. cbn [feed]. by rewrite H. Qed.

Lemma feed_quiet r b data r1 : feed_byte r b = Ok (r1, []) -> feed r (b :: data) = feed r1 data.
Proof.
  intros H. rewrite (feed_cons _ _ _ _ _ H). by destruct (feed r1 data) as [[]| |].
Qed.

Lemma feed_first r : r.(state_) = 0 -> feed_byte r (z2b 0xAB) = Ok (set_state 1 r, []).
Proof. intros Hs. unfold feed_byte. by rewrite Hs, b2z_z2b. Qed.

Lemma feed_second r :
  r.(state_) = 1 -> feed_byte r (z2b 0xCD) = Ok (set_size_idx 0 (set_state 2 r), []).
Proof. intros Hs. unfold feed_byte. by rewrite Hs, b2z_z2b. Qed.

(** A length byte that is not the last. *)
Lemma feed_size_byte r b i :
  r.(state_) = 2 -> r.(size_idx_) = i -> 0 <= i < 3 ->
  feed_byte r b =
  Ok (set_size_idx (i + 1) (set_size_bytes (<[Z.to_nat i := b2z b]> r.(size_bytes_)) r), []).
Proof.
  intros Hs Hi Hr. unfold feed_byte. rewrite Hs, Hi. cbn [Z.eqb Pos.eqb].
  rewrite (proj2 (Z.leb_le _ _)), (proj2 (Z.ltb_lt _ _)) by lia. cbn [andb negb].
  rewrite wrap_small by (unfold is_uint; lia). cbn [size_idx_ set_size_idx].
  by rewrite (proj2 (Z.eqb_neq _ _)) by lia.
Qed.

(** The last length byte. *)
Lemma feed_size_last r b b0 b1 b2 b3 :
  r.(state_) = 2 -> r.(size_idx_) = 3 -> r.(size_bytes_) = [b2z b0; b2z b1; b2z b2; b3] ->
  let bs := [b2z b0; b2z b1; b2z b2; b2z b] in
  let r1 := set_payload_size (be_value bs) (set_size_idx 0 (set_size_idx 4 (set_size_bytes bs r))) in
  feed_byte r b =
  if r.(max_payload_) <? be_value bs then
    Ok (count_resync (set_payload_size 0 (set_state 0 r1)), [])
  else if be_value bs =? 0 then Ok (set_state 0 (count_emitted r1), [[]])
  else Ok (set_state 3 (set_payload [] r1), []).
Proof.
  intros Hs Hi Hb bs r1. unfold feed_byte. rewrite Hs, Hi, Hb. cbn [Z.eqb Pos.eqb].
  change (negb ((0 <=? 3) && (3 <? 4))) with false. change (wrap 8 (3 + 1)) with 4.
  change (Z.to_nat 3) with 3%nat. cbn [insert list_insert]. cbn [size_idx_ set_size_idx Z.eqb Pos.eqb].
  cbn [size_bytes_ set_size_bytes set_size_idx nth payload_size_ set_payload_size max_payload_].
  rewrite length_bytes_value by apply b2z_range. done.
Qed.

(** The header of a packet, from the idle state. *)
Lemma feed_header r b0 b1 b2 b3 data :
  idle r ->
  let bs := [b2z b0; b2z b1; b2z b2; b2z b3] in
  let r1 := set_payload_size (be_value bs)
              (set_size_idx 0 (set_size_bytes bs (set_state 2 r))) in
  feed r (z2b 0xAB :: z2b 0xCD :: b0 :: b1 :: b2 :: b3 :: data) =
  if r.(max_payload_) <? be_value bs then
    feed (count_resync (set_payload_size 0 (set_state 0 r1))) data
  else if be_value bs =? 0 then
    rest ← feed (set_state 0 (count_emitted r1)) data; Ok (rest.1, [[]] ++ rest.2)
  else feed (set_state 3 (set_payload [] r1)) data.
Proof.
  intros [[Hm Hs [Hb1 Hb2] Hi Hp] Hst] bs r1.
  destruct r as [max st sb si ps pl em rs]. cbn [state_ size_bytes_ max_payload_] in *. subst st.
  destruct sb as [|s0 [|s1 [|s2 [|s3 [|]]]]]; try done.
  erewrite feed_quiet by (by apply feed_first).
  erewrite feed_quiet by (by apply feed_second).
  erewrite feed_quiet by (by apply (feed_size_byte _ _ 0)).
  erewrite feed_quiet by (by apply (feed_size_byte _ _ 1)).
  erewrite feed_quiet by (by apply (feed_size_byte _ _ 2)).
  match goal with |- feed ?r2 (b3 :: data) = _ =>
    pose proof (feed_size_last r2 b3 b0 b1 b2 s3 eq_refl eq_refl eq_refl) as H end.
  cbv zeta in H. cbn [max_payload_ set_size_idx set_size_bytes set_state set_payload_size] in H.
  fold bs in H. destruct (max <? be_value bs); [by rewrite (feed_quiet _ _ _ _ H)|].
  destruct (be_value bs =? 0); [by rewrite (feed_cons _ _ _ _ _ H)|by rewrite (feed_quiet _ _ _ _ H)].
Qed.

(** The payload bytes. *)
Lemma feed_payload r p :
  r.(state_) = 3 -> p <> [] ->
  Z.of_nat (length r.(payload_)) + Z.of_nat (length p) = r.(payload_size_) ->
  feed r p = Ok (set_state 0 (set_payload [] (count_emitted r)), [r.(payload_) ++ p]).
Proof.
  revert r. induction p as [|b p IH]; intros r Hs Hne Hl; [done|]. cbn [length] in Hl.
  assert (feed_byte r b =
    if Z.of_nat (length p) =? 0
    then Ok (set_state 0 (set_payload [] (count_emitted r)), [r.(payload_) ++ [b]])
    else Ok (set_payload (r.(payload_) ++ [b]) r, [])) as Hb.
  { unfold feed_byte. rewrite Hs. cbn [Z.eqb Pos.eqb payload_ payload_size_ set_payload].
    rewrite length_app. cbn [length]. destruct (Z.of_nat (length p) =? 0) eqn:E; bool_to_prop.
    - by rewrite (proj2 (Z.eqb_eq _ _)) by lia.
    - by rewrite (proj2 (Z.eqb_neq _ _)) by lia. }
  destruct p as [|b' p].
  - by rewrite (feed_cons _ _ _ _ _ Hb).
  - rewrite (feed_quiet _ _ _ _ Hb), IH; [|done|done|].
    + cbn [payload_ set_payload count_emitted]. by rewrite <- app_assoc.
    + cbn [payload_ set_payload payload_size_]. rewrite length_app. cbn [length] in *. lia.
Qed.

Lemma feed_packet r p :
  idle r -> Z.of_nat (length p) <= r.(max_payload_) ->
  exists r', feed r (packet p) = Ok (r', [p]) /\ idle r' /\ r'.(max_payload_) = r.(max_payload_) /\
             r'.(resyncs_) = r.(resyncs_).
Proof.
  intros Hr Hp. pose proof Hr as [[Hm Hs [Hb1 Hb2] Hi Hpl] Hst]. unfold packet, be_bytes. cbn [app].
  rewrite feed_header by done.
  pose proof (be_value_bytes (Z.of_nat (length p))) as Hv. unfold be_bytes in Hv. cbn [map] in Hv.
  rewrite Hv by (unfold is_uint in *; lia). rewrite (proj2 (Z.ltb_ge _ _)) by lia.
  destruct (Z.of_nat (length p) =? 0) eqn:E; bool_to_prop.
  - destruct p; [|cbn in E; lia]. cbn [feed mbind outcome_bind fst snd app]. eexists. split; [done|].
    rewrite Hst in Hpl. split; [|done]. split; [|done].
    constructor; cbn; try done. split; [done|]. rewrite !Forall_cons, Forall_nil. auto using b2z_range.
  - rewrite feed_payload; [|done|by intros ->|cbn; lia].
    eexists. split; [done|]. split; [|done]. split; [|done].
    constructor; cbn; try done. split; [done|]. rewrite !Forall_cons, Forall_nil. auto using b2z_range.
Qed.

Lemma feed_chunks_concat r chunks : feed_chunks r chunks = feed r (concat chunks).
Proof.
  revert r. induction chunks as [|c cs IH]; intros r; [done|]. cbn [feed_chunks concat].
  rewrite feed_app. destruct (feed r c) as [[r1 o1]| |]; [|done|done].
  cbn [mbind outcome_bind fst snd]. by rewrite IH.
Qed.

(** C30: reassembly.  A stream of packets within the size limit, each preceded
    by any bytes other than 0xAB, is delivered packet by packet, in order,
    with no resynchronisation counted, whatever chunks the stream arrives in. *)
Theorem reassembler_delivers m parts tail chunks :
  is_uint 32 m ->
  Forall (fun gp => no_start gp.1 /\ Z.of_nat (length gp.2) <= m) parts -> no_start tail ->
  concat chunks = concat (map (fun gp => gp.1 ++ packet gp.2) parts) ++ tail ->
  exists r', feed_chunks (construct m) chunks = Ok (r', map snd parts) /\ r'.(resyncs_) = 0.
Proof.
  intros Hm Hparts Htail Hc. rewrite feed_chunks_concat, Hc. clear Hc.
  assert (forall r, idle r -> r.(max_payload_) = m ->
    exists r', feed r (concat (map (fun gp => gp.1 ++ packet gp.2) parts) ++ tail) =
      Ok (r', map snd parts) /\ r'.(resyncs_) = r.(resyncs_)) as Hall.
  { clear Hm. induction Hparts as [|[g p] parts [Hg Hp] _ IH]; intros r Hr Hmax; cbn [map concat fst snd] in *.
    - exists r. by rewrite feed_no_start.
    - rewrite <- !app_assoc, feed_app, feed_no_start by done. cbn [mbind outcome_bind fst snd].
      rewrite feed_app. destruct (feed_packet r p Hr) as (r1 & -> & H1 & H2 & H3); [lia|].
      cbn [mbind outcome_bind fst snd]. destruct (IH r1 H1) as (r2 & -> & H4); [congruence|].
      exists r2. split; [done|congruence]. }
  apply Hall; [|done]. by split; [apply construct_wf|].
Qed.

(** Any bytes. *)
Lemma feed_wf data r : wf r -> exists r' out, feed r data = Ok (r', out) /\ wf r' /\
  r'.(max_payload_) = r.(max_payload_) /\ Forall (fun p => Z.of_nat (length p) <= r.(max_payload_)) out.
Proof.
  revert r. induction data as [|b data IH]; intros r Hr; cbn [feed]; [by exists r, []|].
  destruct (feed_byte_wf r b Hr) as (r1 & o1 & -> & H1 & H2 & H3). cbn [mbind outcome_bind fst snd].
  destruct (IH r1 H1) as (r2 & o2 & -> & H4 & H5 & H6). rewrite H2 in *.
  exists r2, (o1 ++ o2). split; [done|]. split; [done|]. split; [done|]. by apply Forall_app.
Qed.

(** C31: memory safety on arbitrary streams.  Whatever bytes arrive in whatever
    chunks, the state machine stays within its array of four length bytes and
    its states, the buffered payload stays below [max_payload], and no
    delivered payload is longer than [max_payload]. *)
Theorem reassembler_bounded m chunks :
  is_uint 32 m ->
  exists r' out, feed_chunks (construct m) chunks = Ok (r', out) /\
    Forall (fun p => Z.of_nat (length p) <= m) out /\
    Z.of_nat (length r'.(payload_)) <= m /\ 0 <= r'.(state_) <= 3.
Proof.
  intros Hm. rewrite feed_chunks_concat.
  destruct (feed_wf (concat chunks) (construct m) (construct_wf m Hm)) as (r' & out & H1 & H2 & H3 & H4).
  cbn [max_payload_ construct] in *. exists r', out. split; [done|]. split; [done|].
  destruct H2 as [_ Hs _ _ Hp]. split; [|done]. case_test_in Hp; [lia|]. rewrite Hp. destruct Hm. cbn. lia.
Qed.

Lemma reassembler_delivers_witness :
  exists r', feed_chunks (construct default_max_payload)
    [[z2b 0xAB; z2b 0xCD; z2b 0; z2b 0]; [z2b 0; z2b 2; z2b 7]; [z2b 9; z2b 1]] =
    Ok (r', [[z2b 7; z2b 9]]) /\ r'.(resyncs_) = 0.
Proof.
  apply (reassembler_delivers default_max_payload [([], [z2b 7; z2b 9])] [z2b 1]).
  - split; [discriminate|reflexivity].
  - constructor; [|constructor]. split; [constructor|discriminate].
  - constructor; [discriminate|constructor].
  - reflexivity.
Defined.

Lemma reassembler_bounded_witness :
  exists r' out, feed_chunks (construct 1) [map z2b [0xAB; 0xCD; 0xFF; 0xFF; 0xFF; 0xFF]] = Ok (r', out) /\
    Forall (fun p => Z.of_nat (length p) <= 1) out.
Proof.
  destruct (reassembler_bounded 1 [map z2b [0xAB; 0xCD; 0xFF; 0xFF; 0xFF; 0xFF]])
    as (r' & out & H1 & H2 & _); [split; [discriminate|reflexivity]|].
  exists r', out. split; [exact H1|exact H2].
Defined.

End TcpReassembler.
