(* ===== verification/FuzzTargets.v ===== *)
(** * The fuzz targets ([src/fuzz/])

    The programs that the fuzzer runs on arbitrary bytes: the traps they set
    are the properties they look for.  A trap is an exception of the result
    type, a read outside of the input is [OutOfBounds].  The target of the
    YAML parser is in [Scenario.v].

    Results: no input makes a target trap or read out of bounds, in any state
    of the decoder it keeps between inputs; the guard of the resynchronising
    scan is not what ends it; the chunks of the reassembly target do not
    matter. *)

From S2P Require Export FrameCodec WalRecord TcpReassembler.

Module FuzzTargets.

(** Reading the payload byte by byte. *)
Definition touch (data : list byte) (off n : nat) : outcome Z :=
  p ← rd_range data off n;
  Ok (foldl (fun sink b => u8 (sink ^^^ b2z b)) 0 p).

Section Codecs.
Context (crc32c : list byte -> Z).

(** [fuzz_frame_parser]; [decoder] is the static decoder. *)
Definition fuzz_frame_parser (data : list byte) (decoder : FrameCodec.FrameDecoder) : outcome (Z * FrameCodec.FrameDecoder) :=
  let size := Z.of_nat (length data) in
  res ← FrameCodec.decode_header crc32c (Some data) Frame.FrameHeader_default;
  let '(err, hdr) := (res : Frame.FrameError * Frame.FrameHeader) in
  _ ← (if bool_decide (err = Frame.kOk) then
         if size <? u64 (Frame.kFrameOverhead + hdr.(Frame.payload_size)) then Throws "__builtin_trap"
         else touch data (Z.to_nat Frame.kFrameOverhead) (Z.to_nat hdr.(Frame.payload_size))
       else Ok 0);
  res ← FrameCodec.decode crc32c decoder (Some data) 0 Frame.FrameHeader_default;
  let '(_, _, decoder) := (res : Frame.FrameError * Frame.FrameHeader * FrameCodec.FrameDecoder) in
  Ok (0, decoder).

(** The scan of [fuzz_replay_reader]: the position where it stops. *)
Definition kGuard : nat := Z.to_nat (1 <<< 20).

Fixpoint resync (guard : nat) (data : list byte) (pos : nat) : outcome nat :=
  if negb (Z.of_nat pos + WalRecord.kRecordHeaderSize <=? Z.of_nat (length data)) then Ok pos
  else
    match guard with
    | O => Ok pos
    | S guard =>
      res ← WalRecord.decode_record crc32c (Some (drop pos data)) WalRecord.RecordHeader_default;
      let '(err, h) := (res : WalRecord.RecordError * WalRecord.RecordHeader) in
      if bool_decide (err = WalRecord.kOk) then resync guard data (pos + Z.to_nat h.(WalRecord.record_length))
      else resync guard data (S pos)
    end.

Definition fuzz_replay_reader (data : list byte) : outcome Z :=
  let size := Z.of_nat (length data) in
  res ← WalRecord.decode_record crc32c (Some data) WalRecord.RecordHeader_default;
  let '(err, hdr) := (res : WalRecord.RecordError * WalRecord.RecordHeader) in
  _ ← (if bool_decide (err = WalRecord.kOk) then
         if size <? hdr.(WalRecord.record_length) then Throws "__builtin_trap"
         else touch data (Z.to_nat WalRecord.kRecordHeaderSize) (Z.to_nat hdr.(WalRecord.payload_size))
       else Ok 0);
  _ ← resync kGuard data 0;
  Ok 0.

End Codecs.

(** The loop of [fuzz_tcp_reassembly]: the payloads handed to the callback. *)
Fixpoint feed_all (fuel : nat) (data : list byte) (off : nat) (r : TcpReassembler.TcpReassembler) :
    outcome (list (list byte)) :=
  if (length data <=? off)%nat then Ok []
  else
    match fuel with
    | O => Throws "fuel"
    | S fuel =>
      b ← rd_range data off 1;
      let chunk := (1 + Z.to_nat (b2z (nth 0 b Byte.x00) mod 17))%nat in
      let n := if (off + chunk <=? length data)%nat then chunk else (length data - off)%nat in
      part ← rd_range data off n;
      res ← TcpReassembler.feed r part;
      out ← feed_all fuel data (off + n) res.1;
      Ok (res.2 ++ out)
    end.

Definition fuzz_max_payload : Z := 64 * 1024.

Definition fuzz_tcp_reassembly (data : list byte) : outcome (list (list byte)) :=
  feed_all (length data) data 0 (TcpReassembler.construct fuzz_max_payload).

(** ** Lemmas *)

Lemma touch_ok data off n : (off + n <= length data)%nat -> exists v, touch data off n = Ok v.
Proof. intros H. unfold touch. rewrite rd_range_ok by done. by eexists. Qed.

Section Proofs.
Context (crc32c : list byte -> Z) {Hck : Crc.Checksum crc32c}.

Lemma frame_accepted_fits data out h :
  FrameCodec.decode_header crc32c (Some data) out = Ok (Frame.kOk, h) ->
  0 <= Frame.payload_size h <= Frame.kMaxPayload /\
  Frame.kFrameOverhead + Frame.payload_size h <= Z.of_nat (length data).
Proof.
  intros H. apply FrameCodec.decode_header_sound in H as (payload & rest & Hv & ->).
  pose proof (FrameCodec.vf_payload_size _ _ _ Hv). pose proof (FrameCodec.vf_max_payload _ _ _ Hv).
  rewrite length_app, FrameCodec.length_frame_bytes. unfold Frame.kFrameOverhead, Frame.kHeaderSize. lia.
Qed.

Lemma record_accepted_fits data out h :
  WalRecord.decode_record crc32c (Some data) out = Ok (WalRecord.kOk, h) ->
  0 <= WalRecord.payload_size h /\ WalRecord.record_length h = 34 + WalRecord.payload_size h /\
  WalRecord.record_length h <= Z.of_nat (length data).
Proof.
  intros H. apply WalRecord.decode_record_sound in H as (payload & rest & Hv & ->).
  pose proof (WalRecord.vr_payload_size _ _ _ Hv). pose proof (WalRecord.vr_length _ _ _ Hv) as Hl.
  unfold WalRecord.kRecordOverhead, WalRecord.kRecordHeaderSize, WalRecord.kRecordTrailerSize in Hl.
  rewrite length_app, WalRecord.length_record_bytes. lia.
Qed.

(** The scan moves forward and stays inside; with a guard as large as what is
    left it reaches the end. *)
Lemma resync_ok guard data pos : (pos <= length data)%nat ->
  exists pos', resync crc32c guard data pos = Ok pos' /\ (pos <= pos' <= length data)%nat /\
    ((length data - pos <= guard)%nat -> Z.of_nat (length data) < Z.of_nat pos' + WalRecord.kRecordHeaderSize).
Proof.
  revert pos. induction guard as [|guard IH]; intros pos Hpos; cbn [resync].
  - case_test; bool_to_prop; exists pos; (split; [done|]); (split; [lia|]); unfold WalRecord.kRecordHeaderSize in *; lia.
  - case_test; bool_to_prop; [by exists pos; split; [done|]; split; lia|]. unfold WalRecord.kRecordHeaderSize in E.
    destruct (WalRecord.decode_record_total crc32c (Some (drop pos data)) WalRecord.RecordHeader_default) as (e & h & Hd).
    rewrite Hd. cbn [mbind outcome_bind]. case_bool_decide as He.
    + subst e. destruct (record_accepted_fits _ _ _ Hd) as (H1 & H2 & H3). rewrite length_drop in H3.
      destruct (IH (pos + Z.to_nat (WalRecord.record_length h))%nat) as (pos' & -> & Hp & Hg); [lia|].
      exists pos'. split; [done|]. split; [lia|]. intros Hl. apply Hg. lia.
    + destruct (IH (S pos)) as (pos' & -> & Hp & Hg); [lia|]. exists pos'. split; [done|]. split; [lia|]. intros Hl. apply Hg. lia.
Qed.

End Proofs.

Lemma feed_all_ok fuel data off r : TcpReassembler.wf r -> (length data - off <= fuel)%nat -> (off <= length data)%nat ->
  exists r' out, feed_all fuel data off r = Ok out /\ TcpReassembler.feed r (drop off data) = Ok (r', out).
Proof.
  revert off r. induction fuel as [|fuel IH]; intros off r Hr Hf Ho; cbn [feed_all].
  - rewrite (proj2 (Nat.leb_le _ _)) by lia. rewrite drop_ge by lia. by exists r, [].
  - case_test; bool_to_prop; [rewrite drop_ge by lia; by exists r, []|].
    rewrite (rd_range_ok data off 1) by lia. cbn [mbind outcome_bind].
    set (chunk := (1 + Z.to_nat _)%nat). set (n := if (off + chunk <=? length data)%nat then _ else _).
    assert (1 <= n /\ off + n <= length data)%nat as [Hn1 Hn2] by (subst n chunk; case_test; bool_to_prop; lia).
    clearbody n. rewrite rd_range_ok by done. cbn [mbind outcome_bind].
    assert (drop off data = slice off n data ++ drop (off + n) data) as Hsplit.
    { unfold slice. rewrite <- (take_drop n (drop off data)) at 1. by rewrite drop_drop. }
    destruct (TcpReassembler.feed_wf (slice off n data) r Hr) as (r1 & o1 & E1 & Hr1 & _). rewrite E1. cbn [mbind outcome_bind fst snd].
    destruct (IH (off + n)%nat r1 Hr1) as (r2 & o2 & -> & E2); [lia|lia|]. cbn [mbind outcome_bind].
    exists r2, (o1 ++ o2). split; [done|]. rewrite Hsplit, TcpReassembler.feed_app, E1. cbn [mbind outcome_bind fst snd]. by rewrite E2.
Qed.

(** The fuzzers find nothing.  For every input and every state of the
    static decoder the targets end normally: no trap, no read outside of the
    input.  The recovery scan stops only where no record header fits any
    more (for inputs of up to 2^20 bytes, its guard), and the reassembly
    target delivers what feeding the whole input at once would deliver. *)
Theorem fuzz_targets_safe crc32c {Hck : Crc.Checksum crc32c} data decoder :
  (exists decoder', fuzz_frame_parser crc32c data decoder = Ok (0, decoder')) /\
  fuzz_replay_reader crc32c data = Ok 0 /\
  (exists pos, resync crc32c kGuard data 0 = Ok pos /\ (pos <= length data)%nat /\
     (Z.of_nat (length data) <= 2 ^ 20 -> Z.of_nat (length data) < Z.of_nat pos + WalRecord.kRecordHeaderSize)) /\
  (exists r' out, fuzz_tcp_reassembly data = Ok out /\
     TcpReassembler.feed (TcpReassembler.construct fuzz_max_payload) data = Ok (r', out)).
Proof.
  destruct (resync_ok crc32c kGuard data 0) as (pos & Hr & Hp & Hg); [lia|].
  split; [|split; [|split]].
  - unfold fuzz_frame_parser.
    destruct (FrameCodec.decode_header_total crc32c (Some data) Frame.FrameHeader_default) as (e & h & Hd & _). rewrite Hd.
    destruct (FrameCodec.decode_total crc32c decoder (Some data) 0 Frame.FrameHeader_default) as (e2 & h2 & dec2 & -> & _).
    cbn [mbind outcome_bind]. case_bool_decide as He; [|by eexists]. subst e.
    destruct (frame_accepted_fits crc32c _ _ _ Hd) as [H1 H2]. unfold Frame.kFrameOverhead, Frame.kHeaderSize, Frame.kMaxPayload in *.
    rewrite wrap_small by (unfold is_uint; lia). rewrite (proj2 (Z.ltb_ge _ _)) by lia.
    destruct (touch_ok data (Z.to_nat (36 + 4)) (Z.to_nat (Frame.payload_size h))) as [v ->]; [lia|]. by eexists.
  - unfold fuzz_replay_reader. destruct (WalRecord.decode_record_total crc32c (Some data) WalRecord.RecordHeader_default) as (e & h & Hd).
    rewrite Hd, Hr. cbn [mbind outcome_bind]. case_bool_decide as He; [|done]. subst e.
    destruct (record_accepted_fits crc32c _ _ _ Hd) as (H1 & H2 & H3). rewrite (proj2 (Z.ltb_ge _ _)) by lia.
    destruct (touch_ok data (Z.to_nat WalRecord.kRecordHeaderSize) (Z.to_nat (WalRecord.payload_size h))) as [v ->];
      [unfold WalRecord.kRecordHeaderSize; lia|done].
  - exists pos. split; [exact Hr|]. split; [lia|]. intros Hl. apply Hg. unfold kGuard. change (1 <<< 20) with (2 ^ 20). lia.
  - unfold fuzz_tcp_reassembly. destruct (feed_all_ok (length data) data 0 (TcpReassembler.construct fuzz_max_payload))
      as (r' & out & E1 & E2); [apply TcpReassembler.construct_wf; unfold is_uint, fuzz_max_payload; lia|lia|lia|]. by exists r', out.
Qed.

Lemma fuzz_targets_safe_witness :
  (exists decoder', fuzz_frame_parser Crc.crc32c_portable [z2b 83; z2b 70] ∅ = Ok (0, decoder')) /\
  fuzz_replay_reader Crc.crc32c_portable [z2b 83; z2b 70] = Ok 0.
Proof.
  destruct (fuzz_targets_safe Crc.crc32c_portable [z2b 83; z2b 70] ∅) as (H1 & H2 & _). split; [exact H1|exact H2].
Defined.

End FuzzTargets.
