(* ===== verification/Stress.v ===== *)
(** * The stress test ([src/stress/spsc_tsan_stress.cpp])

    The four threads of the test over the shared ring and the shared lock,
    under release/acquire memory: a producer of items with a checksum, a
    consumer that counts wrong checksums, a writer of configurations with a
    guard, and a reader that counts wrong guards.  A configuration is the
    bytes of its three members.

    Result: what the test looks for never happens, in any execution: no wrong
    value, and no data race. *)

From S2P Require Export CppInput RingWeak SeqlockWeak.
#[local] Open Scope Z_scope.

Module Stress.

Record Item := mkItem { seq : Z; checksum : Z }.

Definition kChecksum : Z := 2654435761.
Definition make_item (s : Z) : Item := {| seq := s; checksum := u64 (s * kChecksum) |}.
Definition mismatch (it : Item) : bool := negb (it.(checksum) =? u64 (it.(seq) * kChecksum)).

(** [Config]: rate, delay and guard. *)
Definition config_bytes (rate_hz delay_ns guard : Z) : list byte :=
  le_bytes 8 rate_hz ++ le_bytes 8 delay_ns ++ le_bytes 8 guard.
Definition make_config (r : Z) : list byte := config_bytes r (u64 (r * 3)) (u64 (r + u64 (r * 3))).
Definition torn (c : list byte) : bool :=
  negb (le_value (slice 16 8 c) =? u64 (le_value (slice 0 8 c) + le_value (slice 8 8 c))).

Record state := mkState {
  ring : RingWeak.config (T := Item);
  next_seq : Z;                     (** [seq] of the producer *)
  produced : Z;
  consumed : Z;
  mismatches : Z;
  cfg : SeqlockWeak.config;
  next_rate : Z;                    (** [r] of the writer *)
  torn_reads : Z
}.

Definition Capacity : Z := 1024.

Definition initial : state :=
  {| ring := RingWeak.initial Capacity (mkItem 0 0); next_seq := 0; produced := 0; consumed := 0; mismatches := 0;
     cfg := SeqlockWeak.initial (config_bytes 100 0 (100 + 0)) 1; next_rate := 100; torn_reads := 0 |}.

(** What a thread does when its operation has ended: the producer counts an
    item that was pushed, the consumer checks an item that was popped. *)
Definition after_push (c' : RingWeak.config (T := Item)) (s : state) : state :=
  if (length (RingWeak.pushed s.(ring)) <? length (RingWeak.pushed c'))%nat then
    let n := u64 (s.(next_seq) + 1) in
    mkState s.(ring) n n s.(consumed) s.(mismatches) s.(cfg) s.(next_rate) s.(torn_reads)
  else s.

Definition after_pop (c' : RingWeak.config (T := Item)) (s : state) : state :=
  match drop (length (RingWeak.popped s.(ring))) (RingWeak.popped c') with
  | it :: _ =>
    mkState s.(ring) s.(next_seq) s.(produced) (u64 (s.(consumed) + 1))
      (if mismatch it then u64 (s.(mismatches) + 1) else s.(mismatches)) s.(cfg) s.(next_rate) s.(torn_reads)
  | [] => s
  end.

Definition after_store (l' : SeqlockWeak.config) (s : state) : state :=
  if (length (SeqlockWeak.versions s.(cfg)) <? length (SeqlockWeak.versions l'))%nat then
    mkState s.(ring) s.(next_seq) s.(produced) s.(consumed) s.(mismatches) s.(cfg) (u64 (s.(next_rate) + 1)) s.(torn_reads)
  else s.

(** Where the reader is. *)
Definition reader_pc (l : SeqlockWeak.config) : SeqlockWeak.reader :=
  match SeqlockWeak.readers l with
  | r :: _ => SeqlockWeak.rpc r
  | [] => SeqlockWeak.RIdle
  end.

Definition after_load (l' : SeqlockWeak.config) (s : state) : state :=
  match reader_pc s.(cfg), reader_pc l' with
  | SeqlockWeak.RDone c, SeqlockWeak.RIdle =>
    mkState s.(ring) s.(next_seq) s.(produced) s.(consumed) s.(mismatches) s.(cfg) s.(next_rate)
      (if torn c then u64 (s.(torn_reads) + 1) else s.(torn_reads))
  | _, _ => s
  end.

Definition set_ring c (s : state) : state :=
  mkState c s.(next_seq) s.(produced) s.(consumed) s.(mismatches) s.(cfg) s.(next_rate) s.(torn_reads).
Definition set_cfg l (s : state) : state :=
  mkState s.(ring) s.(next_seq) s.(produced) s.(consumed) s.(mismatches) l s.(next_rate) s.(torn_reads).

(** The arguments of [try_push] and [store] when they are called. *)
Definition pushes (c c' : RingWeak.config (T := Item)) (it : Item) : Prop :=
  match RingWeak.prod c, RingWeak.prod c' with
  | RingWeak.PIdle, RingWeak.PCalled it' _ => it' = it
  | _, _ => True
  end.

Definition stores (l l' : SeqlockWeak.config) (v : list byte) : Prop :=
  match SeqlockWeak.wpc l, SeqlockWeak.wpc l' with
  | SeqlockWeak.WIdle, SeqlockWeak.WLoaded v' _ => v' = v
  | _, _ => True
  end.

Inductive step : state -> state -> Prop :=
| s_ring s c' :
    RingWeak.step Capacity (fun it => it) s.(ring) c' -> pushes s.(ring) c' (make_item s.(next_seq)) ->
    step s (set_ring c' (after_pop c' (after_push c' s)))
| s_lock s l' :
    SeqlockWeak.step 24 s.(cfg) l' -> stores s.(cfg) l' (make_config s.(next_rate)) ->
    step s (set_cfg l' (after_load l' (after_store l' s))).

(** How long [main] lets the threads run; [None]: the environment variable is
    not set. *)
Definition stress_seconds (env : option string) : outcome Z :=
  match env with
  | Some s => v ← atoi s; if 0 <? v then Ok v else Ok 60
  | None => Ok 60
  end.

(** The verdict of [main] when the threads are joined. *)
Definition verdict (s : state) : Z :=
  if negb (s.(mismatches) =? 0) || negb (s.(torn_reads) =? 0) then 1 else 0.

(** ** Lemmas *)

(** The test always runs for a while. *)
Lemma stress_seconds_positive env n : stress_seconds env = Ok n -> 0 < n < 2 ^ 31.
Proof.
  destruct env as [s|]; cbn [stress_seconds]; [|by intros [= <-]].
  destruct (atoi s) as [v| |] eqn:E; cbn [mbind outcome_bind]; try done. apply atoi_range in E.
  destruct (Z.ltb_spec 0 v); intros [= <-]; [lia|done].
Qed.

Lemma make_item_ok s : mismatch (make_item s) = false.
Proof. unfold mismatch. cbn. by rewrite Z.eqb_refl. Qed.

Lemma config_slices a b c : slice 0 8 (config_bytes a b c) = le_bytes 8 a /\ slice 8 8 (config_bytes a b c) = le_bytes 8 b /\
  slice 16 8 (config_bytes a b c) = le_bytes 8 c.
Proof.
  unfold config_bytes. split; [|split].
  - apply slice_0_app, length_le_bytes.
  - apply slice_app_mid; apply length_le_bytes.
  - rewrite app_assoc. rewrite <- (app_nil_r (le_bytes 8 c)) at 1. apply slice_app_mid; [|apply length_le_bytes].
    by rewrite length_app, !length_le_bytes.
Qed.

Lemma config_ok a b : torn (config_bytes a b (a + b)) = false.
Proof.
  unfold torn. destruct (config_slices a b (a + b)) as (-> & -> & ->). rewrite !le_value_le_bytes.
  change (8 * Z.of_nat 8) with 64. unfold wrap. rewrite <- Z.add_mod by lia. by rewrite Z.eqb_refl.
Qed.

Lemma le_bytes_u64 v : le_bytes 8 (u64 v) = le_bytes 8 v.
Proof.
  pose proof (le_bytes_le_value (le_bytes 8 v)) as H. rewrite length_le_bytes, le_value_le_bytes in H. exact H.
Qed.

Lemma make_config_ok r : torn (make_config r) = false.
Proof. unfold make_config. pose proof (config_ok r (u64 (r * 3))) as H. unfold config_bytes in *. by rewrite (le_bytes_u64 (r + _)). Qed.

Lemma length_config a b c : length (config_bytes a b c) = 24%nat.
Proof. reflexivity. Qed.

#[local] Instance capacity_ok : SpscRing.CapacityOk Capacity.
Proof. split; [discriminate|reflexivity|split; [discriminate|reflexivity]]. Qed.

(** The items the producer has made. *)
Definition items (n : nat) : list Item := map (fun k => make_item (u64 (Z.of_nat k))) (List.seq 0 n).

Lemma items_S n : items (S n) = items n ++ [make_item (u64 (Z.of_nat n))].
Proof. unfold items. rewrite seq_S, map_app. done. Qed.

Lemma length_items n : length (items n) = n.
Proof. unfold items. by rewrite length_map, length_seq. Qed.

(** The item a running [try_push] carries. *)
Definition carries (p : RingWeak.producer Item) (it : Item) : Prop :=
  match p with
  | RingWeak.PIdle => True
  | RingWeak.PCalled it' _ | RingWeak.PWrite it' _ | RingWeak.PPublish it' _ => it' = it
  end.

Record ring_good (s : state) : Prop := {
  rg_reach : RingWeak.reachable Capacity (fun it => it) (mkItem 0 0) s.(ring);
  rg_pushed : RingWeak.pushed s.(ring) = items (length (RingWeak.pushed s.(ring)));
  rg_next : s.(next_seq) = u64 (Z.of_nat (length (RingWeak.pushed s.(ring))));
  rg_carries : carries (RingWeak.prod s.(ring)) (make_item s.(next_seq));
  rg_mismatches : s.(mismatches) = 0
}.

Definition writer_good (w : SeqlockWeak.writer) : Prop :=
  match w with
  | SeqlockWeak.WIdle => True
  | SeqlockWeak.WLoaded v _ | SeqlockWeak.WOdd v _ | SeqlockWeak.WBytes v _ _ | SeqlockWeak.WFenced v _ => torn v = false
  end.

Record lock_good (s : state) : Prop := {
  lg_reach : SeqlockWeak.reachable (config_bytes 100 0 (100 + 0)) 1 s.(cfg);
  lg_versions : Forall (fun v => torn v = false) (SeqlockWeak.versions s.(cfg));
  lg_writer : writer_good (SeqlockWeak.wpc s.(cfg));
  lg_torn : s.(torn_reads) = 0
}.

(** An operation of the ring moves at most one item. *)
Lemma ring_step_effect c c' it : RingWeak.step Capacity (fun it => it) c c' ->
  carries (RingWeak.prod c) it -> pushes c c' it ->
  (carries (RingWeak.prod c') it /\ RingWeak.pushed c' = RingWeak.pushed c \/
   RingWeak.prod c' = RingWeak.PIdle /\ RingWeak.pushed c' = RingWeak.pushed c ++ [it]) /\
  exists out, RingWeak.popped c' = RingWeak.popped c ++ out /\ (length out <= 1)%nat.
Proof.
  assert (forall l : list Item, exists out, l = l ++ out /\ (length out <= 1)%nat) as Hnil
    by (intros l; exists []; rewrite app_nil_r; split; [done|cbn; lia]).
  intros [m t p tc d us ps m' t' p' us' Hs|m t p tc d us ps m' tc' d' ps' Hs] Hc Hp; cbn in *.
  - split; [|apply Hnil]. destruct Hs; cbn in *; try (left; by split). subst item. by right.
  - split; [by left|]. destruct Hs; first [apply Hnil|eexists; split; [done|cbn; lia]].
Qed.

Lemma ring_good_step s c' :
  RingWeak.step Capacity (fun it => it) s.(ring) c' -> pushes s.(ring) c' (make_item s.(next_seq)) ->
  ring_good s -> ring_good (set_ring c' (after_pop c' (after_push c' s))).
Proof.
  intros Hs Hp [Hr Hpu Hn Hc Hm].
  destruct (ring_step_effect _ _ _ Hs Hc Hp) as [Heff (out & Hout & Hlen)].
  assert (RingWeak.reachable Capacity (fun it => it) (mkItem 0 0) c') as Hr' by (eapply rtc_r; [exact Hr|exact Hs]).
  assert (RingWeak.pushed c' = items (length (RingWeak.pushed c')) /\
          next_seq (after_push c' s) = u64 (Z.of_nat (length (RingWeak.pushed c'))) /\
          carries (RingWeak.prod c') (make_item (next_seq (after_push c' s))) /\
          mismatches (after_push c' s) = 0) as (Hpu' & Hn' & Hc' & Hm').
  { unfold after_push. destruct Heff as [[H1 H2]|[H1 H2]]; rewrite H2.
    - rewrite Nat.ltb_irrefl. by rewrite <- Hpu.
    - rewrite length_app. cbn [length]. rewrite (proj2 (Nat.ltb_lt _ _)) by lia. cbn [next_seq mismatches].
      rewrite H1, Nat.add_1_r, items_S, <- Hpu, <- Hn. split; [done|]. split; [|done].
      rewrite Hn. unfold wrap. rewrite Z.add_mod_idemp_l by lia. f_equal. lia. }
  assert (Forall (fun it => mismatch it = false) (RingWeak.popped c')) as Hpop.
  { destruct (RingWeak.received_prefix Capacity (fun it => it) _ _ Hr') as [[queued Hq] _].
    assert (Forall (fun it => mismatch it = false) (RingWeak.pushed c')) as Hall.
    { rewrite Hpu'. unfold items. apply Forall_map, Forall_forall. intros k _. apply make_item_ok. }
    rewrite Hq in Hall. by apply Forall_app in Hall as [Hall _]. }
  assert (mismatches (after_pop c' (after_push c' s)) = 0 /\
          next_seq (after_pop c' (after_push c' s)) = next_seq (after_push c' s)) as [Hm2 Hn2].
  { assert (ring (after_push c' s) = ring s) as Er by (unfold after_push; by case_test).
    unfold after_pop. rewrite Er, Hout, drop_app_length. destruct out as [|it [|]]; [done| |cbn in Hlen; lia].
    rewrite Hout in Hpop. apply Forall_app in Hpop as [_ Hpop]. inversion_clear Hpop as [|? ? Hit _]. by rewrite Hit. }
  constructor; cbn [ring set_ring next_seq mismatches]; rewrite ?Hn2; done.
Qed.

Lemma writer_step_good l l' r : SeqlockWeak.step 24 l l' -> stores l l' (make_config r) ->
  Forall (fun v => torn v = false) (SeqlockWeak.versions l) -> writer_good (SeqlockWeak.wpc l) ->
  Forall (fun v => torn v = false) (SeqlockWeak.versions l') /\ writer_good (SeqlockWeak.wpc l').
Proof.
  intros [m t w rs vs m' t' w' vs' Hs| | |] Hst Hv Hw; cbn in *; try done.
  destruct Hs; cbn in *; try done.
  - subst v. split; [done|]. apply make_config_ok.
  - split; [|done]. apply Forall_app. split; [done|]. by constructor.
Qed.

(** A load that returns has a published value. *)
Lemma load_good l bs : SeqlockWeak.reachable (config_bytes 100 0 (100 + 0)) 1 l -> SeqlockWeak.no_wrap l ->
  Forall (fun v => torn v = false) (SeqlockWeak.versions l) -> reader_pc l = SeqlockWeak.RDone bs -> torn bs = false.
Proof.
  intros Hr Hn Hv Hd. unfold reader_pc in Hd. destruct (SeqlockWeak.readers l) as [|r rs] eqn:Er; [done|].
  destruct (SeqlockWeak.finished_load _ _ l 0 r bs Hr Hn) as (k & Hk & _); [by rewrite Er|done|].
  rewrite Forall_lookup in Hv. by apply (Hv k).
Qed.

Lemma lock_good_step s l' :
  SeqlockWeak.step 24 s.(cfg) l' -> stores s.(cfg) l' (make_config s.(next_rate)) -> SeqlockWeak.no_wrap s.(cfg) ->
  lock_good s -> lock_good (set_cfg l' (after_load l' (after_store l' s))).
Proof.
  intros Hs Hst Hn [Hr Hv Hw Ht]. destruct (writer_step_good _ _ _ Hs Hst Hv Hw) as [Hv' Hw'].
  constructor; cbn [cfg set_cfg torn_reads]; [by eapply rtc_r|done|done|].
  assert (cfg (after_store l' s) = cfg s /\ torn_reads (after_store l' s) = torn_reads s) as [E1 E2]
    by (unfold after_store; by case_test).
  unfold after_load. rewrite E1. destruct (reader_pc (cfg s)) as [| | | |bs] eqn:Ed; try congruence.
  destruct (reader_pc l'); cbn [torn_reads]; try congruence. rewrite (load_good _ _ Hr Hn Hv Ed). congruence.
Qed.

(** The two halves do not touch each other. *)
Lemma after_push_lock c' s : cfg (after_pop c' (after_push c' s)) = cfg s /\ torn_reads (after_pop c' (after_push c' s)) = torn_reads s.
Proof.
  assert (cfg (after_push c' s) = cfg s /\ torn_reads (after_push c' s) = torn_reads s) as [E1 E2]
    by (unfold after_push; by case_test).
  unfold after_pop. destruct (drop _ _); by rewrite ?E1, ?E2.
Qed.

Lemma after_load_ring l' s : let s' := after_load l' (after_store l' s) in
  ring s' = ring s /\ next_seq s' = next_seq s /\ mismatches s' = mismatches s.
Proof.
  cbv zeta. assert (ring (after_store l' s) = ring s /\ next_seq (after_store l' s) = next_seq s /\
          mismatches (after_store l' s) = mismatches s) as (E1 & E2 & E3) by (unfold after_store; by case_test).
  unfold after_load. destruct (reader_pc (cfg (after_store l' s))); try done. by destruct (reader_pc l').
Qed.

Lemma stress_step s s' : step s s' -> SeqlockWeak.no_wrap s'.(cfg) ->
  SeqlockWeak.no_wrap s.(cfg) /\ (ring_good s -> lock_good s -> ring_good s' /\ lock_good s').
Proof.
  intros [s0 c' Hs Hp|s0 l' Hs Hp] Hn.
  - cbn [cfg set_ring] in Hn. destruct (after_push_lock c' s0) as [E1 E2]. rewrite E1 in Hn. split; [exact Hn|]. intros Hr Hl.
    split; [by apply ring_good_step|]. destruct Hl as [H1 H2 H3 H4].
    constructor; cbn [cfg set_ring torn_reads]; rewrite ?E1, ?E2; done.
  - cbn [cfg set_cfg] in Hn. assert (SeqlockWeak.no_wrap (cfg s0)) as Hn0.
    { pose proof (prefix_length _ _ (SeqlockWeak.weak_step_versions 24 _ _ Hs)). unfold SeqlockWeak.no_wrap in *. lia. }
    split; [exact Hn0|]. intros Hr Hl. split; [|by apply lock_good_step].
    destruct (after_load_ring l' s0) as (E1 & E2 & E3). destruct Hr as [H1 H2 H3 H4 H5].
    constructor; cbn [ring set_cfg next_seq mismatches]; rewrite ?E1, ?E2, ?E3; done.
Qed.

Lemma stress_good s : rtc step initial s -> SeqlockWeak.no_wrap s.(cfg) -> ring_good s /\ lock_good s.
Proof.
  revert s. apply (rtc_ind_r (fun s => SeqlockWeak.no_wrap s.(cfg) -> ring_good s /\ lock_good s)).
  - intros _. split.
    + constructor; (done || apply rtc_refl).
    + constructor; [apply rtc_refl|by constructor; [apply (config_ok 100 0)|]|done|done].
  - intros s s' _ Hs IH Hn. destruct (stress_step s s' Hs Hn) as [Hn0 H]. destruct (IH Hn0). by apply H.
Qed.

(** C24: the stress test passes.  Whatever older values the four threads load and
    whenever they are stopped, the consumer has seen no wrong checksum and
    the reader no torn configuration, so the test reports success; the items
    taken are exactly the first ones made, in order, each once; and an access
    to a slot that a thread is about to make is not a data race (provided that
    fewer than 2^63 configurations were stored). *)
Theorem stress_passes s :
  rtc step initial s -> Z.of_nat (length (SeqlockWeak.versions s.(cfg))) < 2 ^ 63 ->
  s.(mismatches) = 0 /\ s.(torn_reads) = 0 /\ verdict s = 0 /\
  (exists n queued, items n = RingWeak.popped s.(ring) ++ queued) /\
  (forall it head, RingWeak.prod s.(ring) = RingWeak.PWrite it head ->
     is_Some (WeakMemory.access (RingWeak.Slot (Z.to_nat head)) (RingWeak.assign it)
                (RingWeak.pview s.(ring)) (RingWeak.mem s.(ring)))) /\
  (forall tail, RingWeak.cons s.(ring) = RingWeak.CRead tail ->
     is_Some (WeakMemory.access (RingWeak.Slot (Z.to_nat tail)) (RingWeak.move_from (fun it => it))
                (RingWeak.cview s.(ring)) (RingWeak.mem s.(ring)))).
Proof.
  intros Hs Hn. destruct (stress_good s Hs Hn) as [[Hr Hpu _ _ Hm] [_ _ _ Ht]]. split; [exact Hm|]. split; [exact Ht|].
  split; [unfold verdict; by rewrite Hm, Ht|].
  destruct (RingWeak.received_prefix Capacity (fun it => it) (mkItem 0 0) _ Hr) as [[queued Hq] _].
  destruct (RingWeak.slot_access_ok Capacity (fun it => it) (mkItem 0 0) _ Hr) as [Hp Hc].
  split; [|split].
  - exists (length (RingWeak.pushed (ring s))), queued. by rewrite <- Hpu.
  - exact Hp.
  - intros tail E. destruct (Hc tail E) as (out & t & m & H). by eexists.
Qed.

Lemma stress_passes_witness :
  exists s, rtc step initial s /\ RingWeak.prod s.(ring) = RingWeak.PCalled (make_item 0) 0 /\
    reader_pc s.(cfg) = SeqlockWeak.RRetry /\ verdict s = 0.
Proof.
  assert (exists s, rtc step initial s /\ RingWeak.prod s.(ring) = RingWeak.PCalled (make_item 0) 0 /\
    reader_pc s.(cfg) = SeqlockWeak.RRetry /\ SeqlockWeak.versions s.(cfg) = [config_bytes 100 0 (100 + 0)]) as (s & H1 & H2 & H3 & H4).
  { eexists. split.
    - eapply rtc_l; [apply s_ring; [apply RingWeak.step_producer, (RingWeak.p_call _ _ _ _ (make_item 0) 0 0); reflexivity|reflexivity]|].
      eapply rtc_l; [apply s_lock; [eapply (SeqlockWeak.step_reader _ _ _ _ _ _ 0); [reflexivity|eapply SeqlockWeak.r_call]|exact Logic.I]|]. apply rtc_refl.
    - split; [reflexivity|]. split; reflexivity. }
  exists s. split; [exact H1|]. split; [exact H2|]. split; [exact H3|].
  apply (stress_passes s H1). rewrite H4. reflexivity.
Defined.

End Stress.
