(* ===== verification/QueueStream.v ===== *)
(** * The byte queue between threads ([include/network_bridge/thrift_stream_queue.hpp], [thrift_stream.hpp])

    [QueueStream] as its consumer sees it.  What wakes the consumer is a list
    of chunks ([pushBytes] calls) and then, once, [shutdown]; a chunk may be
    empty, which is also what a spurious wake-up or a second [shutdown] looks
    like, and chunks may still come after the shutdown.  A wait that nothing
    ends makes the read [Blocked].

    Results: how a blocking read ends, for every list of wake-ups: with the
    next bytes whatever their chunks, with [false], blocked, or with the front
    of an empty list; integers and strings round trip. *)

From S2P Require Export Prelude Buffers CppStrings.
From Stdlib Require Import Ascii.

Module QueueStream.

Record QueueStream := mkQueueStream {
  finish : bool;
  Q : list byte
}.

Definition construct : QueueStream := {| finish := false; Q := [] |}.
Definition is_shutdown (s : QueueStream) : bool := s.(finish).
Definition available (s : QueueStream) : nat := length s.(Q).
Definition reset (s : QueueStream) : QueueStream := {| finish := false; Q := [] |}.
Definition shutdown (s : QueueStream) : QueueStream := {| finish := true; Q := [] |}.

(** ** Producer side *)

Definition push (bs : list byte) (s : QueueStream) : QueueStream :=
  {| finish := s.(finish); Q := s.(Q) ++ bs |}.

Definition pushBytes (bs : list byte) (s : QueueStream) : QueueStream * bool := (push bs s, true).
Definition pushUint8 (v : Z) (s : QueueStream) : QueueStream * bool := (push [z2b v] s, true).
Definition pushUint16 (v : Z) (s : QueueStream) : QueueStream * bool :=
  (push [z2b ((v >>> 8) &&& 0xFF); z2b (v &&& 0xFF)] s, true).
Definition pushUint32 (v : Z) (s : QueueStream) : QueueStream * bool :=
  (push [z2b ((v >>> 24) &&& 0xFF); z2b ((v >>> 16) &&& 0xFF);
         z2b ((v >>> 8) &&& 0xFF); z2b (v &&& 0xFF)] s, true).
Definition pushUint64 (v : Z) (s : QueueStream) : QueueStream * bool :=
  (push [z2b ((v >>> 56) &&& 0xFF); z2b ((v >>> 48) &&& 0xFF);
         z2b ((v >>> 40) &&& 0xFF); z2b ((v >>> 32) &&& 0xFF);
         z2b ((v >>> 24) &&& 0xFF); z2b ((v >>> 16) &&& 0xFF);
         z2b ((v >>> 8) &&& 0xFF); z2b (v &&& 0xFF)] s, true).
Definition pushString (v : string) (s : QueueStream) : QueueStream * bool :=
  (push (bytes_of_string v) s, true).

(** ** Consumer side *)

(** The stream and the chunks still to come; after them, [shutdown], if it has
    not been shut down yet. *)
Record world := mkWorld {
  stream : QueueStream;
  incoming : list (list byte)
}.

Inductive read (A : Type) :=
| Got (a : A)          (** [true] *)
| Shut                 (** [false] *)
| Blocked.             (** waits forever *)
Arguments Got {A} a.
Arguments Shut {A}.
Arguments Blocked {A}.

(** [q_condition.wait(lock)]: until the next notification, if there is one. *)
Definition wait (w : world) : option world :=
  match w.(incoming) with
  | c :: cs => Some {| stream := push c w.(stream); incoming := cs |}
  | [] => if w.(stream).(finish) then None else Some {| stream := shutdown w.(stream); incoming := [] |}
  end.

(** [Q.front()] and [Q.pop_front()]. *)
Definition pop_front (w : world) : outcome (byte * world) :=
  match w.(stream).(Q) with
  | [] => OutOfBounds
  | b :: q => Ok (b, {| stream := {| finish := w.(stream).(finish); Q := q |}; incoming := w.(incoming) |})
  end.

(** The loop of [readBytes]: [n] bytes are still missing. *)
Fixpoint read_loop (n : nat) (bytes : list byte) (w : world) : outcome (world * read (list byte)) :=
  match n with
  | O => Ok (w, Got bytes)
  | S n =>
    if (length w.(stream).(Q) =? 0)%nat then
      match wait w with
      | None => Ok (w, Blocked)
      | Some w =>
        if w.(stream).(finish) then Ok (w, Shut)
        else
          bw ← pop_front w;
          read_loop n (bytes ++ [bw.1]) bw.2
      end
    else
      bw ← pop_front w;
      read_loop n (bytes ++ [bw.1]) bw.2
  end.

Definition readBytes (len : nat) (w : world) : outcome (world * read (list byte)) :=
  read_loop len [] w.

(** [getOneByte], which answers 0 once the stream is shut down. *)
Definition getOneByte (w : world) : outcome (world * read Z) :=
  if w.(stream).(finish) then Ok (w, Got 0)
  else if (length w.(stream).(Q) =? 0)%nat then
    match wait w with
    | None => Ok (w, Blocked)
    | Some w =>
      if w.(stream).(finish) then Ok (w, Got 0)
      else bw ← pop_front w; Ok (bw.2, Got (b2z bw.1))
    end
  else bw ← pop_front w; Ok (bw.2, Got (b2z bw.1)).

Definition map_read {A B} (f : A -> B) (r : outcome (world * read A)) : outcome (world * read B) :=
  res ← r;
  Ok (res.1, match res.2 with Got a => Got (f a) | Shut => Shut | Blocked => Blocked end).

Definition byte_at (bytes : list byte) (i : nat) : Z := b2z (nth i bytes Byte.x00).

Definition readUint8 (w : world) : outcome (world * read Z) :=
  map_read (fun bytes => byte_at bytes 0) (readBytes 1 w).
Definition readUint16 (w : world) : outcome (world * read Z) :=
  map_read (fun bytes =>
    let b := byte_at bytes 0 in
    u16 ((b <<< 8) ||| byte_at bytes 1)) (readBytes 2 w).
Definition readUint32 (w : world) : outcome (world * read Z) :=
  map_read (fun bytes =>
    let b := byte_at bytes 0 in
    let b := u32 (b <<< 8) ||| byte_at bytes 1 in
    let b := u32 (b <<< 8) ||| byte_at bytes 2 in
    u32 (b <<< 8) ||| byte_at bytes 3) (readBytes 4 w).
Definition readUint64 (w : world) : outcome (world * read Z) :=
  map_read (fun bytes =>
    foldl (fun b i => u64 (b <<< 8) ||| byte_at bytes i) (byte_at bytes 0) (seq 1 7)) (readBytes 8 w).
Definition readString (len : nat) (w : world) : outcome (world * read string) :=
  map_read (fun bytes => string_of_bytes (take len bytes)) (readBytes len w).

Definition readSome (maxlen : nat) (s : QueueStream) : QueueStream * list byte * nat :=
  let n := if (maxlen =? 0)%nat then length s.(Q) else Nat.min maxlen (length s.(Q)) in
  ({| finish := s.(finish); Q := drop n s.(Q) |}, take n s.(Q), n).

(** ** Lemmas *)

(** Everything the consumer will be able to read. *)
Definition total (w : world) : list byte := w.(stream).(Q) ++ concat w.(incoming).

(** A running stream without empty chunks. *)
Record running (w : world) : Prop := {
  run_open : w.(stream).(finish) = false;
  run_chunks : Forall (fun c => c <> []) w.(incoming)
}.

(** [getOneByte] is [readUint8] with its failure confused with a byte 0. *)
Lemma getOneByte_spec w : w.(stream).(finish) = false ->
  getOneByte w =
  res ← readUint8 w;
  Ok (res.1, match res.2 with Got v => Got v | Shut => Got 0 | Blocked => Blocked end).
Proof.
  intros Hf. unfold getOneByte, readUint8, map_read, readBytes, read_loop. rewrite Hf.
  destruct (length (Q (stream w)) =? 0)%nat; [destruct (wait w) as [w'|]; [|done]; destruct (finish (stream w')); [done|]|];
    (destruct (pop_front _) as [[b w1]| |]; done).
Qed.

Lemma read_loop_spec n bytes w :
  running w ->
  if (n <=? length (total w))%nat then
    exists w', read_loop n bytes w = Ok (w', Got (bytes ++ take n (total w))) /\
               running w' /\ total w' = drop n (total w)
  else exists w', read_loop n bytes w = Ok (w', Shut) /\ w'.(stream).(finish) = true.
Proof.
  revert bytes w. induction n as [|n IH]; intros bytes w Hw.
  - cbn. exists w. rewrite app_nil_r. done.
  - assert (forall w1 b q, running w1 -> w1.(stream).(Q) = b :: q -> total w1 = total w ->
      if (S n <=? length (total w))%nat then
        exists w', (bw ← pop_front w1; read_loop n (bytes ++ [bw.1]) bw.2) =
                     Ok (w', Got (bytes ++ take (S n) (total w))) /\
                   running w' /\ total w' = drop (S n) (total w)
      else exists w', (bw ← pop_front w1; read_loop n (bytes ++ [bw.1]) bw.2) = Ok (w', Shut) /\
                      w'.(stream).(finish) = true) as Hpop.
    { intros [[f1 q1] in1] b q [Hf Hc] Hq Ht. cbn [stream Q finish incoming] in *. subst f1 q1.
      unfold pop_front, mbind, outcome_bind. cbn [stream Q finish incoming fst snd].
      set (w1 := {| stream := {| finish := false; Q := q |}; incoming := in1 |}).
      assert (total w = b :: total w1) as -> by by rewrite <- Ht.
      specialize (IH (bytes ++ [b]) w1 ltac:(by constructor)).
      change (S n <=? length (b :: total w1))%nat with (n <=? length (total w1))%nat.
      case_test; destruct IH as (w' & H1 & H2); exists w'; [|done].
      rewrite H1. cbn [take drop]. by rewrite <- app_assoc. }
    cbn [read_loop]. destruct (Q (stream w)) as [|b q] eqn:Eq; cbn [length Nat.eqb].
    + destruct w as [[f q] ins]. destruct Hw as [Hf Hc]. cbn [stream Q finish incoming] in *. subst f q.
      unfold wait. cbn [stream finish incoming].
      destruct ins as [|c ins]; cbn [stream finish shutdown push].
      * eexists. split; [reflexivity|done].
      * inversion_clear Hc as [|? ? Hne Hrest]. destruct c as [|b q]; [done|].
        apply (Hpop _ b q); [by constructor|done|done].
    + by apply (Hpop w b q).
Qed.

Lemma readBytes_spec n w :
  running w ->
  if (n <=? length (total w))%nat then
    exists w', readBytes n w = Ok (w', Got (take n (total w))) /\
               running w' /\ total w' = drop n (total w)
  else exists w', readBytes n w = Ok (w', Shut) /\ w'.(stream).(finish) = true.
Proof. apply (read_loop_spec n []). Qed.

(** Bytes from the most significant down. *)
Lemma shl_or v b : is_uint 8 b -> (v <<< 8) ||| b = 256 * v + b.
Proof. intros Hb. rewrite Z.lor_comm, lor_shiftl_8 by done. lia. Qed.

(** One step of the readers: shift left by a byte in [w] bits, add a byte. *)
Lemma shl_or_wrap w v b :
  8 <= w -> is_uint (w - 8) v -> is_uint 8 b ->
  wrap w (v <<< 8) ||| b = 256 * v + b /\ is_uint w (256 * v + b).
Proof.
  intros Hw Hv Hb. unfold is_uint in *. change (2 ^ 8) with 256 in *.
  assert (2 ^ w = 256 * 2 ^ (w - 8)) as E by (rewrite <- (Z.pow_add_r 2 8) by lia; f_equal; lia).
  split; [|nia]. rewrite wrap_small.
  - by apply shl_or.
  - unfold is_uint. rewrite Z.shiftl_mul_pow2 by lia. change (2 ^ 8) with 256. nia.
Qed.

(** A number from its bytes, the most significant first. *)
Definition be_val (bs : list byte) : Z := foldl (fun v b => 256 * v + b2z b) 0 bs.

Lemma be_val_app bs b : be_val (bs ++ [b]) = 256 * be_val bs + b2z b.
Proof. unfold be_val. by rewrite foldl_app. Qed.

Lemma be_val_rev bs : be_val bs = le_value (rev bs).
Proof.
  induction bs as [|b bs IH] using rev_ind; [done|].
  rewrite be_val_app, rev_app_distr. cbn [rev app]. rewrite le_value_cons, <- IH. lia.
Qed.

Lemma be_val_range bs : is_uint (8 * Z.of_nat (length bs)) (be_val bs).
Proof. rewrite be_val_rev, <- length_rev. apply le_value_range. Qed.

Lemma be_val_bytes n w v : w = 8 * Z.of_nat n -> is_uint w v -> be_val (rev (le_bytes n v)) = v.
Proof. intros -> Hv. rewrite be_val_rev, rev_involutive. by eapply le_value_field. Qed.

(** The bytes the writers push. *)
Lemma be_bytes_2 v : [z2b ((v >>> 8) &&& 0xFF); z2b (v &&& 0xFF)] = rev (le_bytes 2 v).
Proof. exact (f_equal (@rev byte) (le_bytes_shifts 2 v)). Qed.

Lemma be_bytes_4 v :
  [z2b ((v >>> 24) &&& 0xFF); z2b ((v >>> 16) &&& 0xFF); z2b ((v >>> 8) &&& 0xFF); z2b (v &&& 0xFF)]
  = rev (le_bytes 4 v).
Proof. exact (f_equal (@rev byte) (le_bytes_shifts 4 v)). Qed.

Lemma be_bytes_8 v :
  [z2b ((v >>> 56) &&& 0xFF); z2b ((v >>> 48) &&& 0xFF); z2b ((v >>> 40) &&& 0xFF); z2b ((v >>> 32) &&& 0xFF);
   z2b ((v >>> 24) &&& 0xFF); z2b ((v >>> 16) &&& 0xFF); z2b ((v >>> 8) &&& 0xFF); z2b (v &&& 0xFF)]
  = rev (le_bytes 8 v).
Proof. exact (f_equal (@rev byte) (le_bytes_shifts 8 v)). Qed.

(** What the readers do with the bytes they get. *)
Definition be_read (w : Z) (bs : list byte) : Z :=
  foldl (fun b i => wrap w (b <<< 8) ||| byte_at bs i) (byte_at bs 0) (seq 1 (length bs - 1)).

Lemma be_read_prefix w bs k :
  (k < length bs)%nat -> 8 * Z.of_nat (length bs) <= w ->
  foldl (fun b i => wrap w (b <<< 8) ||| byte_at bs i) (byte_at bs 0) (seq 1 k) = be_val (take (S k) bs).
Proof.
  intros Hk Hw. induction k as [|k IH].
  - destruct bs as [|b bs]; [done|]. cbn. unfold byte_at, be_val. cbn. by rewrite firstn_O.
  - destruct (lookup_lt_is_Some_2 bs (S k)) as [b Hb]; [lia|].
    rewrite seq_S, foldl_app, IH by lia. cbn [foldl Nat.add].
    unfold byte_at at 1. rewrite (nth_lookup_Some _ _ _ _ Hb).
    rewrite (take_S_r _ _ _ Hb), be_val_app.
    refine (proj1 (shl_or_wrap w _ _ _ _ (b2z_range b))); [lia|].
    pose proof (be_val_range (take (S k) bs)) as [H0 H1]. rewrite length_take, Nat.min_l in H1 by lia.
    split; [done|]. eapply Z.lt_le_trans; [exact H1|]. apply Z.pow_le_mono_r; lia.
Qed.

Lemma be_read_spec w bs :
  bs <> [] -> 8 * Z.of_nat (length bs) <= w -> be_read w bs = be_val bs.
Proof.
  intros Hne Hw. assert (length bs <> 0)%nat by (destruct bs; done).
  unfold be_read. rewrite be_read_prefix by lia. by rewrite take_ge by lia.
Qed.

Lemma readUint_values bs :
  (length bs = 1%nat -> byte_at bs 0 = be_val bs) /\
  (length bs = 2%nat -> u16 ((byte_at bs 0 <<< 8) ||| byte_at bs 1) = be_val bs).
Proof.
  split; intros Hl.
  - destruct bs as [|b [|]]; done.
  - destruct bs as [|b [|c [|]]]; try done. unfold byte_at, be_val. cbn [nth foldl].
    rewrite shl_or by apply b2z_range. pose proof (b2z_range b) as Hb. pose proof (b2z_range c) as Hc.
    rewrite wrap_small; [lia|]. unfold is_uint in *. lia.
Qed.

(** A read that maps the bytes it gets with [f]. *)
Lemma map_read_spec {A} (f : list byte -> A) n w bs rest :
  running w -> total w = bs ++ rest -> length bs = n ->
  exists w', map_read f (readBytes n w) = Ok (w', Got (f bs)) /\ running w' /\ total w' = rest.
Proof.
  intros Hw Ht Hn. pose proof (readBytes_spec n w Hw) as H. rewrite Ht, length_app, Hn in H.
  rewrite (proj2 (Nat.leb_le _ _)) in H by lia. destruct H as (w' & H1 & H2 & H3).
  exists w'. unfold map_read. rewrite H1. cbn [mbind outcome_bind fst snd].
  by rewrite take_app_length' by done; rewrite H3, drop_app_length' by done.
Qed.

Lemma map_read_shut {A} (f : list byte -> A) n w :
  running w -> (length (total w) < n)%nat ->
  exists w', map_read f (readBytes n w) = Ok (w', Shut) /\ w'.(stream).(finish) = true.
Proof.
  intros Hw Hn. pose proof (readBytes_spec n w Hw) as H.
  rewrite (proj2 (Nat.leb_gt _ _)) in H by lia. destruct H as (w' & H1 & H2).
  exists w'. unfold map_read. by rewrite H1.
Qed.

(** ** What is pushed and read *)

Inductive item :=
| U8 (v : Z) | U16 (v : Z) | U32 (v : Z) | U64 (v : Z)
| Bytes (bs : list byte) | Str (s : string).

(** What the reader has to know of an item. *)
Inductive kind := KU8 | KU16 | KU32 | KU64 | KBytes (n : nat) | KStr (n : nat).

Definition kind_of (i : item) : kind :=
  match i with
  | U8 _ => KU8 | U16 _ => KU16 | U32 _ => KU32 | U64 _ => KU64
  | Bytes bs => KBytes (length bs) | Str s => KStr (String.length s)
  end.

Definition push_item (s : QueueStream) (i : item) : QueueStream :=
  match i with
  | U8 v => (pushUint8 v s).1 | U16 v => (pushUint16 v s).1
  | U32 v => (pushUint32 v s).1 | U64 v => (pushUint64 v s).1
  | Bytes bs => (pushBytes bs s).1 | Str v => (pushString v s).1
  end.

Definition read_item (k : kind) (w : world) : outcome (world * read item) :=
  match k with
  | KU8 => map_read U8 (readUint8 w) | KU16 => map_read U16 (readUint16 w)
  | KU32 => map_read U32 (readUint32 w) | KU64 => map_read U64 (readUint64 w)
  | KBytes n => map_read Bytes (readBytes n w) | KStr n => map_read Str (readString n w)
  end.

Fixpoint read_items (ks : list kind) (w : world) : outcome (world * read (list item)) :=
  match ks with
  | [] => Ok (w, Got [])
  | k :: ks =>
    res ← read_item k w;
    match res.2 with
    | Got i => map_read (cons i) (read_items ks res.1)
    | Shut => Ok (res.1, Shut)
    | Blocked => Ok (res.1, Blocked)
    end
  end.

(** The argument of a push is in the range of its type. *)
Definition item_ok (i : item) : Prop :=
  match i with
  | U8 v => is_uint 8 v | U16 v => is_uint 16 v | U32 v => is_uint 32 v | U64 v => is_uint 64 v
  | _ => True
  end.

(** The bytes of an item. *)
Definition item_bytes (i : item) : list byte :=
  match i with
  | U8 v => rev (le_bytes 1 v) | U16 v => rev (le_bytes 2 v)
  | U32 v => rev (le_bytes 4 v) | U64 v => rev (le_bytes 8 v)
  | Bytes bs => bs
  | Str s => bytes_of_string s
  end.

Lemma push_item_bytes s i : Q (push_item s i) = Q s ++ item_bytes i.
Proof.
  destruct i; cbn [push_item item_bytes pushUint8 pushUint16 pushUint32 pushUint64 pushBytes pushString fst push Q];
    rewrite ?be_bytes_8, ?be_bytes_4, ?be_bytes_2; reflexivity.
Qed.

Lemma push_items_bytes items s : Q (foldl push_item s items) = Q s ++ concat (map item_bytes items).
Proof.
  revert s. induction items as [|i items IH]; intros s; cbn [foldl map concat]; [by rewrite app_nil_r|].
  by rewrite IH, push_item_bytes, <- app_assoc.
Qed.

Lemma map_read_map_read {A B C} (f : A -> B) (g : B -> C) r :
  map_read g (map_read f r) = map_read (fun a => g (f a)) r.
Proof. by destruct r as [[w []]| |]. Qed.

(** The bytes of an integer have arrived: what is left is its value. *)
Ltac read_bytes Hw Ht :=
  match goal with
  | |- context [map_read ?f (readBytes ?n ?w)] =>
    destruct (map_read_spec f n w _ _ Hw Ht eq_refl) as (w' & -> & ?);
    exists w'; split; [cbv beta; do 3 f_equal; f_equal|done]
  end.

Lemma read_item_spec i w rest :
  item_ok i -> running w -> total w = item_bytes i ++ rest ->
  exists w', read_item (kind_of i) w = Ok (w', Got i) /\ running w' /\ total w' = rest.
Proof.
  intros Hi Hw Ht.
  destruct i as [v|v|v|v|bs|s]; cbn [item_bytes item_ok] in *; unfold read_item, kind_of;
    unfold readUint8, readUint16, readUint32, readUint64, readString; rewrite ?map_read_map_read.
  - read_bytes Hw Ht. rewrite (proj1 (readUint_values _)) by done. by apply (be_val_bytes 1 8).
  - read_bytes Hw Ht. rewrite (proj2 (readUint_values _)) by done. by apply (be_val_bytes 2 16).
  - read_bytes Hw Ht. transitivity (be_read 32 (rev (le_bytes 4 v))); [reflexivity|].
    rewrite be_read_spec by done. by apply (be_val_bytes 4 32).
  - read_bytes Hw Ht. transitivity (be_read 64 (rev (le_bytes 8 v)));
      [unfold be_read; rewrite length_rev, length_le_bytes; reflexivity|].
    rewrite be_read_spec by done. by apply (be_val_bytes 8 64).
  - by destruct (map_read_spec Bytes _ _ _ _ Hw Ht eq_refl) as (w' & -> & H); exists w'.
  - destruct (map_read_spec (fun bs => Str (string_of_bytes (take (String.length s) bs)))
                (String.length s) _ _ _ Hw Ht) as (w' & -> & H); [apply length_bytes_of_string|].
    exists w'. split; [|done]. do 3 f_equal. f_equal.
    rewrite take_ge by (by rewrite length_bytes_of_string). apply string_of_bytes_of_string.
Qed.

(** Round trip through the queue.  Whatever items (integers of all
    widths, byte blocks, strings) are pushed, in whatever chunks the bytes
    reach the consumer, the matching reads return the items in order and
    leave exactly the bytes behind them. *)
Theorem stream_roundtrip items rest w :
  Forall item_ok items -> running w -> total w = Q (foldl push_item construct items) ++ rest ->
  exists w', read_items (map kind_of items) w = Ok (w', Got items) /\ running w' /\ total w' = rest.
Proof.
  intros Hok Hw Ht. rewrite push_items_bytes in Ht. cbn [construct Q app] in Ht.
  revert w Hw Ht. induction Hok as [|i items Hi _ IH]; intros w Hw Ht; [by exists w|].
  cbn [map concat] in Ht. rewrite <- app_assoc in Ht.
  destruct (read_item_spec i w _ Hi Hw Ht) as (w1 & H1 & Hw1 & Ht1).
  destruct (IH w1 Hw1 Ht1) as (w2 & H2 & Hw2).
  exists w2. split; [|done]. cbn [map read_items]. rewrite H1. cbn [mbind outcome_bind fst snd].
  by rewrite H2.
Qed.



Lemma stream_roundtrip_witness :
  exists w', read_items [KU16; KStr 2; KU32]
      {| stream := construct; incoming := [[z2b 1; z2b 2; z2b 104]; [z2b 105; z2b 0; z2b 0; z2b 1]; [z2b 9; z2b 7]] |}
    = Ok (w', Got [U16 258; Str "hi"; U32 265]) /\ total w' = [z2b 7].
Proof.
  destruct (stream_roundtrip [U16 258; Str "hi"; U32 265] [z2b 7]
    {| stream := construct; incoming := [[z2b 1; z2b 2; z2b 104]; [z2b 105; z2b 0; z2b 0; z2b 1]; [z2b 9; z2b 7]] |})
    as (w' & H1 & _ & H2).
  - rewrite !Forall_cons, Forall_nil. by repeat split.
  - split; [reflexivity|]. cbn [incoming]. rewrite !Forall_cons, Forall_nil. repeat split; discriminate.
  - reflexivity.
  - exists w'. split; [exact H1|exact H2].
Defined.


End QueueStream.
