(* ===== verification/TcpInterface.v ===== *)
(** * The TCP interface ([src/src/network_interfaces/tcp_interface.cpp])

    The packets [write] puts on the socket, the thread that takes them out of
    the byte queue, and the flags.  The byte order of the host is a parameter
    ([write] copies the length from memory, [receive_thread] applies
    [htonl]).  The socket is the list of bytes that get through; a failing
    write throws after some of its bytes.  Boost.Asio appears through error
    codes and the handlers it runs: of the operation that waits, and of those
    [close] cancelled.

    Results: between hosts of one byte order the payloads arrive as they were
    sent, however the stream is cut; the thread ends on any stream once it is
    shut down; the interface can be closed and opened again, provided that the
    handlers of cancelled operations run before the context is stopped;
    [TcpReassembler], written to replace the thread, reads the length in the
    other byte order than a little-endian sender writes it. *)

From S2P Require Export QueueStream TcpReassembler.

Module TcpInterface.
Import QueueStream.

(** The asynchronous operations. *)
Inductive async_op := Accept | Read.

Record TcpInterface := mkTcpInterface {
  role_ : string;
  ready_ : bool;
  failed_ : bool;
  shutting_down_ : bool;
  socket_ : bool;                   (** is the pointer set? *)
  joinable : bool;                  (** [io_thread_] and [packet_thread_] *)
  pending : option async_op;        (** the operation that waits *)
  aborted : list async_op;          (** handlers of cancelled operations that have not run *)
  stream_ : QueueStream
}.

(** The constructor ([shutting_down_] is not initialised: [open] does it). *)
Definition construct (shutting_down : bool) : TcpInterface :=
  {| role_ := ""; ready_ := false; failed_ := false; shutting_down_ := shutting_down; socket_ := false;
     joinable := false; pending := None; aborted := []; stream_ := QueueStream.construct |}.

(** [initialize_], from the parameters of the node. *)
Definition load_parameters (role : string) (t : TcpInterface) : TcpInterface :=
  mkTcpInterface role t.(ready_) t.(failed_) t.(shutting_down_) t.(socket_) t.(joinable) t.(pending) t.(aborted) t.(stream_).

Definition set_ready b (t : TcpInterface) :=
  mkTcpInterface t.(role_) b t.(failed_) t.(shutting_down_) t.(socket_) t.(joinable) t.(pending) t.(aborted) t.(stream_).
Definition set_failed b (t : TcpInterface) :=
  mkTcpInterface t.(role_) t.(ready_) b t.(shutting_down_) t.(socket_) t.(joinable) t.(pending) t.(aborted) t.(stream_).
Definition set_socket b (t : TcpInterface) :=
  mkTcpInterface t.(role_) t.(ready_) t.(failed_) t.(shutting_down_) b t.(joinable) t.(pending) t.(aborted) t.(stream_).
Definition set_joinable b (t : TcpInterface) :=
  mkTcpInterface t.(role_) t.(ready_) t.(failed_) t.(shutting_down_) t.(socket_) b t.(pending) t.(aborted) t.(stream_).
Definition set_async p a (t : TcpInterface) :=
  mkTcpInterface t.(role_) t.(ready_) t.(failed_) t.(shutting_down_) t.(socket_) t.(joinable) p a t.(stream_).
Definition set_stream s (t : TcpInterface) :=
  mkTcpInterface t.(role_) t.(ready_) t.(failed_) t.(shutting_down_) t.(socket_) t.(joinable) t.(pending) t.(aborted) s.

Definition is_ready (t : TcpInterface) : bool := t.(ready_) && negb t.(failed_).
Definition has_failed (t : TcpInterface) : bool := t.(failed_).

(** [error_handler]: a fatal error ends the process. *)
Definition error_handler (ec fatal : bool) (t : TcpInterface) : outcome unit :=
  if ec && (fatal && negb t.(shutting_down_)) then Throws "exit(1)" else Ok tt.

Definition start_receive (t : TcpInterface) : TcpInterface :=
  if t.(socket_) then set_async (Some Read) t.(aborted) t else t.

(** What the system answers to [open]: whether the remote address is one, the
    error codes of the four calls of [setup_server], and those of the attempts
    to connect, until [rclcpp::ok()] is false. *)
Record answers := mkAnswers { a_address : bool; a_server : list bool; a_connect : list bool }.

(** The calls of [setup_server]; the value says whether it goes on. *)
Fixpoint server_calls (ecs : list bool) (fatal : bool) (t : TcpInterface) : outcome bool :=
  match ecs with
  | [] => Ok true
  | ec :: ecs =>
    _ ← error_handler ec fatal t;
    if t.(shutting_down_) then Ok false else server_calls ecs fatal t
  end.

Definition setup_server (ecs : list bool) (t : TcpInterface) : outcome TcpInterface :=
  let fatal := negb t.(shutting_down_) in
  let t := set_socket true t in
  go ← server_calls (take 4 ecs) fatal t;
  if go : bool then Ok (set_async (Some Accept) t.(aborted) t) else Ok t.

(** The handler of [async_accept]; [gone]: [remote_endpoint] throws because
    the peer has left, in the thread of the context. *)
Definition accepted (ec gone : bool) (t : TcpInterface) : outcome TcpInterface :=
  _ ← error_handler ec (negb t.(shutting_down_)) t;
  if negb t.(shutting_down_) then
    if gone then Throws "std::terminate" else Ok (start_receive (set_ready true t))
  else Ok t.

(** The loop of [setup_client]: [attempts] are the error codes of [connect]. *)
Fixpoint connect_loop (attempts : list bool) (t : TcpInterface) : TcpInterface :=
  match attempts with
  | [] => t
  | false :: _ => start_receive (set_ready true t)
  | true :: attempts => connect_loop attempts (set_ready false t)
  end.

Definition setup_client (address : bool) (attempts : list bool) (t : TcpInterface) : outcome TcpInterface :=
  if negb address then Throws "boost::system::system_error" else Ok (connect_loop attempts (set_socket true t)).

(** [open]; assigning to a joinable thread ends the program. *)
Definition open (a : answers) (t : TcpInterface) : outcome TcpInterface :=
  let t := mkTcpInterface t.(role_) false false false t.(socket_) t.(joinable) t.(pending) t.(aborted) (reset t.(stream_)) in
  t ← (if bool_decide (t.(role_) = "server"%string) then setup_server a.(a_server) t
       else if bool_decide (t.(role_) = "client"%string) then setup_client a.(a_address) a.(a_connect) t
       else Ok t);
  if t.(joinable) then Throws "std::terminate" else Ok (set_joinable true t).

(** [receive], the completion handler of the socket. *)
Definition receive (error : bool) (bytes : list byte) (t : TcpInterface) : TcpInterface :=
  if negb error then start_receive (set_stream (pushBytes bytes t.(stream_)).1 t)
  else set_failed true t.

(** The handler of a cancelled operation. *)
Definition run_aborted (op : async_op) (t : TcpInterface) : outcome TcpInterface :=
  match op with Accept => accepted true false t | Read => Ok (receive true [] t) end.

Fixpoint run_handlers (ops : list async_op) (t : TcpInterface) : outcome TcpInterface :=
  match ops with
  | [] => Ok t
  | op :: ops => t ← run_aborted op t; run_handlers ops t
  end.

(** [close]: closing the socket and the acceptor cancels the operation that
    waits.  The context is stopped at the end; [ran] says whether it ran the
    handlers before, or keeps them. *)
Definition close (ran : bool) (t : TcpInterface) : outcome TcpInterface :=
  let t := mkTcpInterface t.(role_) t.(ready_) t.(failed_) true false t.(joinable) None
             (t.(aborted) ++ option_list t.(pending)) (shutdown t.(stream_)) in
  t ← (if ran && t.(joinable) then run_handlers t.(aborted) (set_async None [] t) else Ok t);
  Ok (set_joinable false t).

(** What the thread of the context runs. *)
Inductive event :=
| Accepted (ec gone : bool)
| Received (error : bool) (bytes : list byte)
| Aborted.

Definition step (ev : event) (t : TcpInterface) : outcome TcpInterface :=
  if negb t.(joinable) then Ok t else
  match ev, t.(pending), t.(aborted) with
  | Accepted ec gone, Some Accept, _ => accepted ec gone (set_async None t.(aborted) t)
  | Received error bytes, Some Read, _ => Ok (receive error (take (Z.to_nat 65536) bytes) (set_async None t.(aborted) t))
  | Aborted, _, op :: ops => run_aborted op (set_async t.(pending) ops t)
  | _, _, _ => Ok t
  end.

Section Host.
Context (little : bool).

(** The representation of a 32-bit integer in memory. *)
Definition host_bytes (v : Z) : list byte :=
  if little then le_bytes 4 v else rev (le_bytes 4 v).

Definition htonl (v : Z) : Z := if little then le_value (rev (le_bytes 4 v)) else v.

(** The three writes of [write]; an answer is [None], or the number of bytes
    that got through before the socket failed. *)
Fixpoint socket_writes (answers : list (option nat)) (bufs : list (list byte)) : list byte * bool :=
  match bufs with
  | [] => ([], true)
  | buf :: bufs =>
    match answers with
    | Some k :: _ => (take k buf, false)
    | None :: answers =>
      let res := socket_writes answers bufs in (buf ++ res.1, res.2)
    | [] => let res := socket_writes [] bufs in (buf ++ res.1, res.2)
    end
  end.

(** [write]; without a socket it goes through a null pointer. *)
Definition write (answers : list (option nat)) (data : list byte) (t : TcpInterface) :
    outcome (TcpInterface * list byte) :=
  if negb t.(socket_) then OutOfBounds else
  let size := u32 (Z.of_nat (length data)) in
  let res := socket_writes answers
    [[z2b 0xAB; z2b 0xCD]; host_bytes size; take (Z.to_nat size) data] in
  Ok (if res.2 then t else set_failed true t, res.1).

(** Several payloads on a socket that does not fail. *)
Fixpoint write_all (ps : list (list byte)) (t : TcpInterface) : outcome (TcpInterface * list byte) :=
  match ps with
  | [] => Ok (t, [])
  | p :: ps =>
    res ← write [] p t;
    rest ← write_all ps res.1;
    Ok (rest.1, res.2 ++ rest.2)
  end.

(** How [receive_thread] ended. *)
Inductive ending := Exited | Stuck | Running.

(** The loop of [receive_thread]; [recv_cb_] is called with the payloads of
    the result, in order. *)
Fixpoint receive_thread (fuel : nat) (state payload_size : Z) (w : world) :
    outcome (ending * list (list byte)) :=
  match fuel with
  | O => Ok (Running, [])
  | S fuel =>
    if is_shutdown w.(stream) then Ok (Exited, []) else
    if state =? 0 then
      res ← readUint8 w;
      match res.2 with
      | Blocked => Ok (Stuck, [])
      | Shut => receive_thread fuel 0 payload_size res.1
      | Got start1 => receive_thread fuel (if start1 =? 0xAB then 1 else 0) payload_size res.1
      end
    else if state =? 1 then
      res ← readUint8 w;
      match res.2 with
      | Blocked => Ok (Stuck, [])
      | Shut => receive_thread fuel 0 payload_size res.1
      | Got start2 =>
        receive_thread fuel (if start2 =? 0xCD then 2 else if start2 =? 0xAB then 1 else 0) payload_size res.1
      end
    else if state =? 2 then
      res ← readUint32 w;
      match res.2 with
      | Blocked => Ok (Stuck, [])
      | Shut => receive_thread fuel 0 0 res.1
      | Got payload_size => receive_thread fuel 3 (htonl payload_size) res.1
      end
    else if state =? 3 then
      res ← readBytes (Z.to_nat payload_size) w;
      match res.2 with
      | Blocked => Ok (Stuck, [])
      | Shut => receive_thread fuel 0 payload_size res.1
      | Got payload =>
        rest ← receive_thread fuel 0 payload_size res.1;
        Ok (rest.1, payload :: rest.2)
      end
    else receive_thread fuel 0 payload_size w
  end.

End Host.

(** ** Lemmas *)

Lemma read_byte_spec w :
  running w ->
  match total w with
  | [] => exists w', readUint8 w = Ok (w', Shut) /\ is_shutdown w'.(stream) = true
  | b :: t => exists w', readUint8 w = Ok (w', Got (b2z b)) /\ running w' /\ total w' = t
  end.
Proof.
  intros Hw. destruct (total w) as [|b t] eqn:Ht.
  - apply (map_read_shut _ 1); [done|]. rewrite Ht. cbn. lia.
  - exact (map_read_spec (fun bs => byte_at bs 0) 1 w [b] t Hw Ht eq_refl).
Qed.

Lemma read_bytes_spec n w :
  running w ->
  if (n <=? length (total w))%nat then
    exists w', readBytes n w = Ok (w', Got (take n (total w))) /\ running w' /\ total w' = drop n (total w)
  else exists w', readBytes n w = Ok (w', Shut) /\ is_shutdown w'.(stream) = true.
Proof. apply readBytes_spec. Qed.

Lemma read_u32_spec w bs t :
  running w -> total w = bs ++ t -> length bs = 4%nat ->
  exists w', readUint32 w = Ok (w', Got (be_val bs)) /\ running w' /\ total w' = t.
Proof.
  intros Hw Ht Hl.
  destruct (map_read_spec (be_read 32) 4 w bs t Hw Ht Hl) as (w' & E & H).
  exists w'. split; [|done]. rewrite be_read_spec in E by (by intros -> || lia). rewrite <- E.
  unfold readUint32, map_read. pose proof (readBytes_spec 4 w Hw) as Hr.
  rewrite Ht, length_app, Hl in Hr. rewrite (proj2 (Nat.leb_le _ _)) in Hr by lia.
  destruct Hr as (w1 & -> & _). rewrite take_app_length' by done.
  destruct bs as [|b0 [|b1 [|b2 [|b3 [|]]]]]; try done.
Qed.

Lemma read_u32_shut w :
  running w -> (length (total w) < 4)%nat ->
  exists w', readUint32 w = Ok (w', Shut) /\ is_shutdown w'.(stream) = true.
Proof. by apply map_read_shut. Qed.

Section Host.
Context (little : bool).

Lemma length_host_bytes v : length (host_bytes little v) = 4%nat.
Proof. unfold host_bytes. destruct little; [|rewrite length_rev]; apply length_le_bytes. Qed.

(** The two exchanges of bytes cancel out. *)
Lemma htonl_host_bytes v : is_uint 32 v -> htonl little (be_val (host_bytes little v)) = v.
Proof.
  intros Hv. unfold htonl, host_bytes. destruct little.
  - rewrite be_val_rev. pose proof (le_bytes_le_value (rev (le_bytes 4 v))) as E.
    rewrite length_rev, length_le_bytes in E. rewrite E, rev_involutive. by apply (le_value_field 4 32).
  - by apply (be_val_bytes 4 32).
Qed.

Lemma receive_thread_shut fuel s n w :
  is_shutdown w.(stream) = true -> receive_thread little (S fuel) s n w = Ok (Exited, []).
Proof. intros H. cbn [receive_thread]. by rewrite H. Qed.

(** The measure of the loop: every iteration reads a byte, except that of an
    empty payload. *)
Definition work (s : Z) (w : world) : nat := 2 * length (total w) + if s =? 3 then 1 else 0.

Lemma receive_thread_ends_aux fuel s n w :
  running w -> 0 <= s <= 3 -> (work s w + 2 <= fuel)%nat ->
  exists out, receive_thread little fuel s n w = Ok (Exited, out) /\
              (length (concat out) <= length (total w))%nat.
Proof.
  revert s n w. induction fuel as [|fuel IH]; intros s n w Hw Hs Hf; [lia|].
  unfold work in *. cbn [receive_thread]. unfold is_shutdown at 1. rewrite (run_open w Hw).
  assert (forall w' s' n', is_shutdown w'.(stream) = true ->
    exists out, receive_thread little fuel s' n' w' = Ok (Exited, out) /\
                (length (concat out) <= length (total w))%nat) as Hshut.
  { intros w' s' n' H. exists []. destruct fuel; [lia|]. rewrite receive_thread_shut by done.
    split; [done|cbn; lia]. }
  pose proof (read_byte_spec w Hw) as Hb.
  destruct (Z.eqb_spec s 0) as [->|]; [|destruct (Z.eqb_spec s 1) as [->|];
    [|destruct (Z.eqb_spec s 2) as [->|]; [|destruct (Z.eqb_spec s 3) as [->|]; [|lia]]]].
  - destruct (total w) as [|b t] eqn:Ht; destruct Hb as (w' & -> & Hw'); cbn [mbind outcome_bind fst snd].
    + by apply Hshut.
    + destruct Hw' as [Hw' Ht']. cbn [length] in *.
      destruct (IH (if b2z b =? 171 then 1 else 0) n w' Hw') as (out & -> & Hl);
        [by case_test|rewrite Ht'; case_test; cbn; lia|].
      exists out. split; [done|]. rewrite Ht' in Hl. lia.
  - destruct (total w) as [|b t] eqn:Ht; destruct Hb as (w' & -> & Hw'); cbn [mbind outcome_bind fst snd].
    + by apply Hshut.
    + destruct Hw' as [Hw' Ht']. cbn [length] in *.
      destruct (IH (if b2z b =? 205 then 2 else if b2z b =? 171 then 1 else 0) n w' Hw') as (out & -> & Hl);
        [by repeat case_test|rewrite Ht'; repeat case_test; cbn; lia|].
      exists out. split; [done|]. rewrite Ht' in Hl. lia.
  - destruct (decide (4 <= length (total w))%nat) as [H4|H4].
    + destruct (read_u32_spec w (take 4 (total w)) (drop 4 (total w)) Hw) as (w' & -> & Hw' & Ht');
        [by rewrite take_drop|by rewrite length_take, Nat.min_l by lia|].
      cbn [mbind outcome_bind fst snd].
      destruct (IH 3 (htonl little (be_val (take 4 (total w)))) w' Hw') as (out & -> & Hl);
        [done|rewrite Ht', length_drop; cbn; lia|].
      exists out. split; [done|]. rewrite Ht', length_drop in Hl. lia.
    + destruct (read_u32_shut w Hw) as (w' & -> & Hw'); [lia|].
      cbn [mbind outcome_bind fst snd]. by apply Hshut.
  - pose proof (read_bytes_spec (Z.to_nat n) w Hw) as Hr. case_test_in Hr; bool_to_prop.
    + destruct Hr as (w' & -> & Hw' & Ht'). cbn [mbind outcome_bind fst snd].
      destruct (IH 0 n w' Hw') as (out & -> & Hl);
        [done|rewrite Ht', length_drop; cbn in *; lia|].
      cbn [mbind outcome_bind fst snd]. eexists. split; [done|].
      cbn [concat]. rewrite length_app, length_take. rewrite Ht', length_drop in Hl. lia.
    + destruct Hr as (w' & -> & Hw'). cbn [mbind outcome_bind fst snd]. by apply Hshut.
Qed.

(** What [write] sends when the socket does not fail. *)
Definition wire (p : list byte) : list byte :=
  [z2b 0xAB; z2b 0xCD] ++ host_bytes little (Z.of_nat (length p)) ++ p.

Lemma write_wire p t : socket_ t = true -> Z.of_nat (length p) < 2 ^ 32 -> write little [] p t = Ok (t, wire p).
Proof.
  intros Hs Hp. unfold write, wire. rewrite Hs, wrap_small by (unfold is_uint; lia). cbn [negb].
  rewrite take_ge by lia. cbn [socket_writes fst snd app]. by rewrite app_nil_r.
Qed.

Lemma write_all_wire ps t : socket_ t = true -> Forall (fun p => Z.of_nat (length p) < 2 ^ 32) ps ->
  write_all little ps t = Ok (t, concat (map wire ps)).
Proof.
  intros Hs. induction 1 as [|p ps Hp _ IH]; [done|]. cbn [write_all map concat]. rewrite write_wire by done.
  cbn [mbind outcome_bind fst snd]. by rewrite IH.
Qed.

Lemma receive_packet fuel n w p t :
  running w -> Z.of_nat (length p) < 2 ^ 32 -> total w = wire p ++ t ->
  exists w', running w' /\ total w' = t /\
    receive_thread little (4 + fuel) 0 n w =
    rest ← receive_thread little fuel 0 (Z.of_nat (length p)) w'; Ok (rest.1, p :: rest.2).
Proof.
  intros Hw Hp Ht. unfold wire in Ht. rewrite <- !app_assoc in Ht. cbn [app] in Ht.
  pose proof (read_byte_spec w Hw) as H1. rewrite Ht in H1. destruct H1 as (w1 & E1 & Hw1 & Ht1).
  pose proof (read_byte_spec w1 Hw1) as H2. rewrite Ht1 in H2. destruct H2 as (w2 & E2 & Hw2 & Ht2).
  destruct (read_u32_spec w2 _ _ Hw2 Ht2 (length_host_bytes _)) as (w3 & E3 & Hw3 & Ht3).
  pose proof (read_bytes_spec (length p) w3 Hw3) as H4.
  rewrite Ht3, length_app, (proj2 (Nat.leb_le _ _)) in H4 by lia.
  rewrite take_app_length, drop_app_length in H4. destruct H4 as (w4 & E4 & Hw4 & Ht4).
  exists w4. split; [done|]. split; [done|].
  cbn [Nat.add receive_thread]. unfold is_shutdown.
  rewrite (run_open w Hw), E1, b2z_z2b. cbn [Z.eqb mbind outcome_bind fst snd].
  change (wrap 8 171 =? 171) with true. cbn iota.
  rewrite (run_open w1 Hw1), E2, b2z_z2b. cbn [Z.eqb Pos.eqb mbind outcome_bind fst snd].
  change (wrap 8 205 =? 205) with true. cbn iota.
  rewrite (run_open w2 Hw2), E3. cbn [Z.eqb Pos.eqb mbind outcome_bind fst snd].
  rewrite htonl_host_bytes by (unfold is_uint; lia).
  by rewrite (run_open w3 Hw3), Nat2Z.id, E4.
Qed.

End Host.

(** More fuel does not change a run that has ended. *)
Lemma receive_thread_more little more fuel s n w out :
  receive_thread little fuel s n w = Ok (Exited, out) ->
  receive_thread little (fuel + more) s n w = Ok (Exited, out).
Proof.
  revert s n w out. induction fuel as [|fuel IH]; intros s n w out; [done|].
  cbn [Nat.add receive_thread].
  assert (forall A (r : outcome (world * read A)) (k k' : world * A -> outcome (ending * list (list byte))) w0,
    (forall w' a, k (w', a) = Ok (Exited, out) -> k' (w', a) = Ok (Exited, out)) ->
    (res ← r; match res.2 with Got a => k (res.1, a) | Shut => receive_thread little fuel 0 w0 res.1
              | Blocked => Ok (Stuck, []) end) = Ok (Exited, out) ->
    (res ← r; match res.2 with Got a => k' (res.1, a) | Shut => receive_thread little (fuel + more) 0 w0 res.1
              | Blocked => Ok (Stuck, []) end) = Ok (Exited, out)) as Hstep.
  { intros A [[w' [a| |]]| |] k k' w0 Hk; cbn [mbind outcome_bind fst snd]; auto. }
  case_test; [done|]. case_test; [|case_test; [|case_test; [|case_test]]].
  - apply (Hstep _ _ (fun r => receive_thread little fuel (if r.2 =? 171 then 1 else 0) n r.1)
      (fun r => receive_thread little (fuel + more) (if r.2 =? 171 then 1 else 0) n r.1)). auto.
  - apply (Hstep _ _
      (fun r => receive_thread little fuel (if r.2 =? 205 then 2 else if r.2 =? 171 then 1 else 0) n r.1)
      (fun r => receive_thread little (fuel + more) (if r.2 =? 205 then 2 else if r.2 =? 171 then 1 else 0) n r.1)).
    auto.
  - apply (Hstep _ _ (fun r => receive_thread little fuel 3 (htonl little r.2) r.1)
      (fun r => receive_thread little (fuel + more) 3 (htonl little r.2) r.1)). auto.
  - apply (Hstep _ _
      (fun r => rest ← receive_thread little fuel 0 n r.1; Ok (rest.1, r.2 :: rest.2))
      (fun r => rest ← receive_thread little (fuel + more) 0 n r.1; Ok (rest.1, r.2 :: rest.2))).
    intros w' a. cbn [fst snd].
    destruct (receive_thread little fuel 0 n w') as [[e o]| |] eqn:Er; cbn [mbind outcome_bind fst snd]; try done.
    intros [= -> <-]. by rewrite (IH _ _ _ _ Er).
  - auto.
Qed.

(** What was put on the wire comes out of the receive thread. *)
Lemma receive_wires little ps w n fuel :
  Forall (fun p => Z.of_nat (length p) < 2 ^ 32) ps -> running w ->
  total w = concat (map (wire little) ps) -> (4 * length ps + 2 <= fuel)%nat ->
  receive_thread little fuel 0 n w = Ok (Exited, ps).
Proof.
  intros Hps. revert w n fuel. induction Hps as [|p ps Hp _ IH]; intros w n fuel Hw Ht Hf.
  - cbn [map concat] in Ht. pose proof (read_byte_spec w Hw) as H. rewrite Ht in H.
    destruct H as (w' & E & Hw'). destruct fuel as [|fuel]; cbn [length] in Hf; [lia|].
    cbn [receive_thread]. unfold is_shutdown at 1. rewrite (run_open w Hw), E.
    cbn [Z.eqb mbind outcome_bind fst snd]. destruct fuel; [lia|]. by apply receive_thread_shut.
  - cbn [map concat length] in *.
    destruct (receive_packet little (fuel - 4) n w p _ Hw Hp Ht) as (w' & Hw' & Ht' & E).
    replace (4 + (fuel - 4))%nat with fuel in E by lia. rewrite E.
    by rewrite (IH w' (Z.of_nat (length p)) (fuel - 4)%nat Hw' Ht') by lia.
Qed.

(** C19: packets arrive.  Between two hosts of one byte order (either one),
    whatever payloads [write] sent on a socket that does not fail, the
    receive thread hands them to the callback in order and exits when the
    stream is shut down, however the byte stream was cut into non-empty
    chunks. *)
Theorem write_then_receive little ps w n fuel t :
  socket_ t = true -> Forall (fun p => Z.of_nat (length p) < 2 ^ 32) ps -> running w ->
  write_all little ps t = Ok (t, total w) -> (4 * length ps + 2 <= fuel)%nat ->
  receive_thread little fuel 0 n w = Ok (Exited, ps).
Proof.
  intros Hs Hps Hw. rewrite write_all_wire by done. intros [= Ht] Hf. by apply receive_wires.
Qed.

(** The thread always ends.  On any bytes in any non-empty chunks the
    receive thread exits after the shutdown that follows them, and the
    payloads it delivered have no more bytes than arrived: a hostile length
    field costs no memory beyond what is received. *)
Theorem receive_thread_ends little n w :
  running w ->
  exists fuel out, (forall more, receive_thread little (fuel + more) 0 n w = Ok (Exited, out)) /\
    (length (concat out) <= length (total w))%nat.
Proof.
  intros Hw. exists (work 0 w + 2)%nat.
  destruct (receive_thread_ends_aux little (work 0 w + 2) 0 n w Hw) as (out & E & Hl); [done|lia|].
  exists out. split; [|done]. intros more. by apply receive_thread_more.
Qed.

(** The packets of a little-endian sender have the length reversed for
    [TcpReassembler]. *)
Lemma reassembler_drops r p :
  TcpReassembler.idle r -> TcpReassembler.max_payload_ r = TcpReassembler.default_max_payload ->
  TcpReassembler.no_start p -> Z.of_nat (length p) < 2 ^ 32 -> Z.of_nat (length p) mod 256 <> 0 ->
  exists r', TcpReassembler.feed r (wire true p) = Ok (r', []) /\ TcpReassembler.idle r' /\
    TcpReassembler.max_payload_ r' = TcpReassembler.default_max_payload /\
    TcpReassembler.resyncs_ r' = u64 (TcpReassembler.resyncs_ r + 1).
Proof.
  intros Hr Hm Hp Hl Hn. pose proof Hr as [[Hmax Hs [Hb1 Hb2] Hi Hpl] Hst].
  unfold wire, host_bytes. cbn [le_bytes app]. rewrite TcpReassembler.feed_header by done.
  set (v := Z.of_nat (length p)) in *. rewrite Hm.
  pose proof (b2z_range (z2b (v >>> 8))) as R1. pose proof (b2z_range (z2b (v >>> 8 >>> 8))) as R2.
  pose proof (b2z_range (z2b (v >>> 8 >>> 8 >>> 8))) as R3.
  assert (b2z (z2b v) = v mod 256) as R0 by (rewrite b2z_z2b; reflexivity).
  pose proof (Z.mod_pos_bound v 256 ltac:(lia)) as Hmod. unfold is_uint in *.
  rewrite (proj2 (Z.ltb_lt _ _)) by (unfold TcpReassembler.be_value, TcpReassembler.default_max_payload;
    cbn [foldl]; lia).
  rewrite TcpReassembler.feed_no_start; [eexists; split; [done|]| |done].
  all: assert (TcpReassembler.payload_ r = []) by (by rewrite Hst in Hpl).
  - split; [|split; [exact Hm|reflexivity]]. split; [|reflexivity].
    constructor; cbn; try done. split; [done|]. rewrite !Forall_cons, Forall_nil. unfold is_uint. lia.
  - split; [|reflexivity].
    constructor; cbn; try done. split; [done|]. rewrite !Forall_cons, Forall_nil. unfold is_uint. lia.
Qed.

(** [TcpReassembler] is not a replacement for the receive thread.  On a
    little-endian host none of the payloads [write] sends (without start
    bytes inside, of a length that is not a multiple of 256) gets through it:
    every packet is taken for an oversized one and dropped, while the thread
    delivers them all. *)
Theorem reassembler_is_no_replacement ps t :
  Forall (fun p => TcpReassembler.no_start p /\ Z.of_nat (length p) < 2 ^ 32 /\
                   Z.of_nat (length p) mod 256 <> 0) ps ->
  socket_ t = true ->
  exists bytes r', write_all true ps t = Ok (t, bytes) /\
    TcpReassembler.feed (TcpReassembler.construct TcpReassembler.default_max_payload) bytes = Ok (r', []).
Proof.
  intros Hps Hs. exists (concat (map (wire true) ps)).
  assert (forall r, TcpReassembler.idle r ->
    TcpReassembler.max_payload_ r = TcpReassembler.default_max_payload ->
    exists r', TcpReassembler.feed r (concat (map (wire true) ps)) = Ok (r', [])) as H.
  { clear Hs. induction Hps as [|p ps (H1 & H2 & H3) _ IH]; intros r Hr Hm; [by exists r|].
    cbn [map concat]. rewrite TcpReassembler.feed_app.
    destruct (reassembler_drops r p Hr Hm H1 H2 H3) as (r1 & -> & Hr1 & Hm1 & _).
    destruct (IH r1 Hr1 Hm1) as (r2 & E). exists r2. cbn [mbind outcome_bind fst snd]. by rewrite E. }
  destruct (H (TcpReassembler.construct TcpReassembler.default_max_payload)) as [r' Hr]; [|done|].
  - split; [by apply TcpReassembler.construct_wf|done].
  - exists r'. split; [|exact Hr]. apply write_all_wire; [done|]. eapply Forall_impl; [exact Hps|]. by intros p (_ & Hp & _).
Qed.

(** ** Opening and closing *)

(** Opened and not closed; closed, or never opened.  Every handler has run. *)
Record live (t : TcpInterface) : Prop := {
  live_role : role_ t = "server"%string \/ role_ t = "client"%string;
  live_threads : joinable t = true;
  live_socket : socket_ t = true;
  live_up : shutting_down_ t = false;
  live_handlers : aborted t = []
}.

Record closed (t : TcpInterface) : Prop := {
  closed_role : role_ t = "server"%string \/ role_ t = "client"%string;
  closed_threads : joinable t = false;
  closed_handlers : aborted t = []
}.

(** Answers that do not end the process: those of the calls the role makes. *)
Definition harmless (a : answers) : Prop := a.(a_address) = true /\ Forall (fun ec => ec = false) (take 4 a.(a_server)).

(** Events that do not end the process: a failing read may occur, a failing
    accept may not. *)
Definition calm (ev : event) : Prop := match ev with Accepted ec gone => ec = false /\ gone = false | _ => True end.

Lemma start_receive_fields t :
  role_ (start_receive t) = role_ t /\ joinable (start_receive t) = joinable t /\ socket_ (start_receive t) = socket_ t /\
  shutting_down_ (start_receive t) = shutting_down_ t /\ aborted (start_receive t) = aborted t /\
  failed_ (start_receive t) = failed_ t /\ ready_ (start_receive t) = ready_ t.
Proof. unfold start_receive. by destruct (socket_ t) eqn:E; cbn; rewrite ?E. Qed.

Lemma connect_loop_fields attempts t :
  let t' := connect_loop attempts t in
  role_ t' = role_ t /\ joinable t' = joinable t /\ socket_ t' = socket_ t /\
  shutting_down_ t' = shutting_down_ t /\ aborted t' = aborted t /\ failed_ t' = failed_ t.
Proof.
  revert t. induction attempts as [|[] l IH]; intros t; cbn [connect_loop]; [done|exact (IH (set_ready false t))|].
  pose proof (start_receive_fields (set_ready true t)). tauto.
Qed.

Lemma server_calls_ok ecs fatal t :
  shutting_down_ t = false -> Forall (fun ec => ec = false) ecs -> server_calls ecs fatal t = Ok true.
Proof. intros Ht. induction 1 as [|ec l -> _ IH]; [done|]. cbn [server_calls error_handler andb mbind outcome_bind]. by rewrite Ht. Qed.

Lemma tcp_open a t : closed t -> harmless a -> exists t', open a t = Ok t' /\ live t' /\ failed_ t' = false.
Proof.
  intros [Hr Hj Ha] [H1 H2]. unfold open. cbn [role_ joinable]. destruct Hr as [Hr|Hr]; rewrite Hr.
  - rewrite bool_decide_true by done. unfold setup_server. rewrite server_calls_ok by done. cbn [mbind outcome_bind joinable set_async set_socket].
    rewrite Hj. eexists. split; [done|]. split; [|done]. constructor; cbn; by auto.
  - rewrite bool_decide_false, bool_decide_true by done. unfold setup_client. rewrite H1. cbn [negb mbind outcome_bind].
    match goal with |- context [connect_loop ?l ?s] => pose proof (connect_loop_fields l s) as F; set (t1 := connect_loop l s) in * end.
    cbn in F. destruct F as (F1 & F2 & F3 & F4 & F5 & F6). rewrite F2, Hj.
    eexists. split; [done|]. split; [|exact F6]. constructor; cbn; [right; congruence|done|done|done|congruence].
Qed.

Lemma tcp_step ev t : live t -> calm ev -> exists t', step ev t = Ok t' /\ live t'.
Proof.
  intros [Hr Hj Hs Hu Ha] Hc. unfold step. rewrite Hj, Ha. cbn [negb]. assert (live t) as Hl by done.
  destruct ev as [ec gone|error bytes|]; destruct (pending t) as [[]|]; try (by exists t).
  - destruct Hc as [-> ->]. unfold accepted. cbn [error_handler andb mbind outcome_bind shutting_down_ set_async]. rewrite Hu. cbn [negb].
    eexists. split; [done|]. pose proof (start_receive_fields (set_ready true (set_async None [] t))) as F. cbn in F.
    destruct F as (F1 & F2 & F3 & F4 & F5 & _). constructor; [by rewrite F1|congruence..].
  - eexists. split; [done|]. unfold receive. destruct error; cbn [negb]; [by constructor|].
    match goal with |- live (start_receive ?s) => destruct (start_receive_fields s) as (F1 & F2 & F3 & F4 & F5 & _) end.
    constructor; rewrite ?F1, ?F2, ?F3, ?F4, ?F5; done.
Qed.

Lemma tcp_close t : live t -> exists t', close true t = Ok t' /\ closed t' /\ socket_ t' = false.
Proof.
  intros [Hr Hj Hs Hu Ha]. unfold close. cbn [joinable]. rewrite Hj, Ha. cbn [andb app aborted].
  destruct (pending t) as [[]|]; cbn [option_list run_handlers run_aborted accepted error_handler andb negb mbind outcome_bind
    shutting_down_ set_async]; by eexists.
Qed.

Lemma tcp_write little ans data t : live t -> exists t' bytes, write little ans data t = Ok (t', bytes) /\ live t'.
Proof.
  intros [Hr Hj Hs Hu Ha]. unfold write. rewrite Hs. cbn [negb]. eexists _, _. split; [done|].
  by destruct (socket_writes _ _) as [? []].
Qed.

(** When the context is stopped before it runs the handler of the read that
    [close] cancels, the handler runs after the next [open]: the new
    connection is marked as failed. *)
Theorem tcp_stale_read t a rest :
  live t -> role_ t = "client"%string -> pending t = Some Read -> harmless a -> a_connect a = false :: rest ->
  exists t1 t2 t3, close false t = Ok t1 /\ open a t1 = Ok t2 /\ is_ready t2 = true /\
    step Aborted t2 = Ok t3 /\ has_failed t3 = true.
Proof.
  intros [Hr Hj Hs Hu Ha] Hc Hp [H1 _] Hrest. unfold close. cbn [andb]. rewrite Hp, Ha. cbn [mbind outcome_bind].
  eexists. eexists. eexists. split; [done|]. unfold open. cbn [role_ set_joinable joinable]. rewrite Hc.
  rewrite bool_decide_false, bool_decide_true by done. unfold setup_client. rewrite H1, Hrest.
  cbn [negb mbind outcome_bind connect_loop start_receive set_ready set_socket socket_ joinable set_async].
  split; [done|]. split; [done|]. split; done.
Qed.

(** For a server the cancelled accept is next: the process exits. *)
Theorem tcp_stale_accept t a :
  live t -> role_ t = "server"%string -> pending t = Some Accept -> harmless a ->
  exists t1 t2, close false t = Ok t1 /\ open a t1 = Ok t2 /\ step Aborted t2 = Throws "exit(1)".
Proof.
  intros [Hr Hj Hs Hu Ha] Hc Hp [_ H2]. unfold close. cbn [andb]. rewrite Hp, Ha. cbn [mbind outcome_bind].
  eexists. eexists. split; [done|]. unfold open. cbn [role_ set_joinable joinable]. rewrite Hc.
  rewrite bool_decide_true by done. unfold setup_server. rewrite server_calls_ok by done.
  cbn [mbind outcome_bind joinable set_async set_socket set_joinable]. split; done.
Qed.

(** After [close] a write goes through a null pointer. *)
Theorem tcp_write_closed little ans data t t1 : live t -> close true t = Ok t1 -> write little ans data t1 = OutOfBounds.
Proof. intros Hl Hc. destruct (tcp_close t Hl) as (t' & E & _ & Hs). unfold write. replace t1 with t' by congruence. by rewrite Hs. Qed.

Definition sample_payloads : list (list byte) := [[z2b 7; z2b 9]; [z2b 0xAB]].

Lemma write_then_receive_witness :
  receive_thread true 10 0 0
    {| stream := QueueStream.construct;
       incoming := [[z2b 0xAB]; [z2b 0xCD; z2b 2; z2b 0; z2b 0; z2b 0; z2b 7]; [z2b 9; z2b 0xAB; z2b 0xCD];
                    [z2b 1; z2b 0; z2b 0; z2b 0; z2b 0xAB]] |} = Ok (Exited, sample_payloads).
Proof.
  apply (write_then_receive true sample_payloads _ 0 10 (set_socket true (load_parameters "client" (construct false)))).
  - reflexivity.
  - unfold sample_payloads. rewrite !Forall_cons, Forall_nil. repeat split; reflexivity.
  - split; [reflexivity|]. cbn [incoming]. rewrite !Forall_cons, Forall_nil. repeat split; discriminate.
  - reflexivity.
  - cbn. lia.
Defined.

Lemma receive_thread_ends_witness :
  exists fuel out, receive_thread true fuel 0 0
    {| stream := QueueStream.construct; incoming := [[z2b 0xAB; z2b 0xCD; z2b 255]; [z2b 255; z2b 255; z2b 255]] |}
    = Ok (Exited, out).
Proof.
  destruct (receive_thread_ends true 0
    {| stream := QueueStream.construct; incoming := [[z2b 0xAB; z2b 0xCD; z2b 255]; [z2b 255; z2b 255; z2b 255]] |})
    as (fuel & out & H & _).
  - split; [reflexivity|]. cbn [incoming]. rewrite !Forall_cons, Forall_nil. repeat split; discriminate.
  - exists (fuel + 0)%nat, out. apply H.
Defined.

Lemma reassembler_is_no_replacement_witness :
  exists bytes r', write_all true [[z2b 7; z2b 9]] (set_socket true (load_parameters "client" (construct false))) =
      Ok (set_socket true (load_parameters "client" (construct false)), bytes) /\
    TcpReassembler.feed (TcpReassembler.construct TcpReassembler.default_max_payload) bytes = Ok (r', []).
Proof.
  apply (reassembler_is_no_replacement [[z2b 7; z2b 9]] (set_socket true (load_parameters "client" (construct false)))); [|reflexivity].
  rewrite !Forall_cons, Forall_nil. unfold TcpReassembler.no_start.
  rewrite !Forall_cons, Forall_nil. repeat split; discriminate.
Defined.

End TcpInterface.
