(* ===== verification/UdpInterface.v ===== *)
(** * The UDP interface ([src/src/network_interfaces/udp_interface.cpp], [udp_interface.hpp])

    Opening, closing, the receive loop and the write of the Boost.Asio
    interface.  The library and the network are a sequence of events: the
    context runs a handler when the operation that waits completes and neither
    the context was stopped nor its thread has ended.  The error codes of the
    calls are parameters, except that opening a socket that is open is an
    error, as documented.

    Results: for every sequence of events, the datagrams with a payload are
    delivered once, unchanged and in order, up to the first error with bytes or
    the first [close], which end the receive loop, as nothing else does; every
    write is sent, also after [close]; opening a closed interface again ends
    the process. *)

From S2P Require Export Buffers.

Module UdpInterface.

Record UdpInterface := mkUdp {
  local_address_ : string;
  receive_port_ : Z;
  remote_address_ : string;
  send_port_ : Z;
  stopped : bool;                     (** [io_context_] *)
  joinable : bool;                    (** [io_thread_] *)
  send_open : bool;
  receive_open : bool;
  armed : bool;                       (** an [async_receive_from] waits *)
  receive_buffer_ : list byte;
  delivered : list (list byte);       (** the calls of [recv_cb_] *)
  sent : list (list byte)             (** the datagrams given to [send_to] *)
}.

(** The buffer of the base class. *)
Definition buffer_size : nat := Z.to_nat 65536.

(** The constructor, and [initialize] with the values of the parameters. *)
Definition initialize (local_address : string) (receive_port : Z) (remote_address : string) (send_port : Z) : UdpInterface :=
  {| local_address_ := local_address; receive_port_ := receive_port; remote_address_ := remote_address;
     send_port_ := send_port; stopped := false; joinable := false; send_open := false; receive_open := false;
     armed := false; receive_buffer_ := replicate buffer_size (z2b 0); delivered := []; sent := [] |}.

Definition has_failed (u : UdpInterface) : bool := false.
Definition is_ready (u : UdpInterface) : bool := true.

Definition set_sockets so ro ar (u : UdpInterface) : UdpInterface :=
  mkUdp u.(local_address_) u.(receive_port_) u.(remote_address_) u.(send_port_) u.(stopped) u.(joinable) so ro ar
    u.(receive_buffer_) u.(delivered) u.(sent).
Definition set_io st jo (u : UdpInterface) : UdpInterface :=
  mkUdp u.(local_address_) u.(receive_port_) u.(remote_address_) u.(send_port_) st jo u.(send_open) u.(receive_open)
    u.(armed) u.(receive_buffer_) u.(delivered) u.(sent).
Definition set_logs buf d s (u : UdpInterface) : UdpInterface :=
  mkUdp u.(local_address_) u.(receive_port_) u.(remote_address_) u.(send_port_) u.(stopped) u.(joinable) u.(send_open)
    u.(receive_open) u.(armed) buf d s.

(** [error_handler]: a fatal error ends the process. *)
Definition error_handler (ec fatal : bool) : outcome unit :=
  if ec && fatal then Throws "exit(1)" else Ok tt.

Definition start_receive (u : UdpInterface) : UdpInterface := set_sockets u.(send_open) u.(receive_open) true u.

(** The error codes of [setup_udp]: opening the sending socket, parsing the
    remote address, opening the receiving socket, parsing the local address,
    binding. *)
Record error_codes := mkErrors { e_send : bool; e_remote : bool; e_receive : bool; e_local : bool; e_bind : bool }.

Definition setup_udp (e : error_codes) (u : UdpInterface) : outcome UdpInterface :=
  _ ← error_handler (u.(send_open) || e.(e_send)) true;
  let u := set_sockets true u.(receive_open) u.(armed) u in
  _ ← error_handler e.(e_remote) true;
  _ ← error_handler (u.(receive_open) || e.(e_receive)) true;
  let u := set_sockets u.(send_open) true u.(armed) u in
  _ ← error_handler e.(e_local) true;
  _ ← error_handler e.(e_bind) true;
  Ok (start_receive u).

(** Assigning to a joinable thread ends the program. *)
Definition open (e : error_codes) (u : UdpInterface) : outcome UdpInterface :=
  u ← setup_udp e u;
  if u.(joinable) then Throws "std::terminate" else Ok (set_io u.(stopped) true u).

Definition close (u : UdpInterface) : UdpInterface := set_io true false u.

(** The handler of a receive that has completed. *)
Definition receive (ec : bool) (bytes_recvd : nat) (u : UdpInterface) : outcome UdpInterface :=
  match bytes_recvd with
  | O => Ok (start_receive u)
  | _ =>
    if negb ec then
      data ← rd_range u.(receive_buffer_) 0 bytes_recvd;
      Ok (start_receive (set_logs u.(receive_buffer_) (u.(delivered) ++ [data]) u.(sent) u))
    else
      _ ← error_handler ec false; Ok u
  end.

Definition write (data : list byte) (u : UdpInterface) : UdpInterface :=
  if negb u.(send_open) then u else set_logs u.(receive_buffer_) u.(delivered) (u.(sent) ++ [data]) u.

(** ** The context *)

Inductive event :=
| Datagram (d : list byte)
| Error (bytes_recvd : nat)
| Write (data : list byte)
| Close.                            (** the node calls [close] *)

(** The handler runs in the thread of the context. *)
Definition running (u : UdpInterface) : bool := u.(joinable) && negb u.(stopped) && u.(armed).

Definition step (ev : event) (u : UdpInterface) : outcome UdpInterface :=
  match ev with
  | Datagram d =>
    if running u then
      let d := take buffer_size d in
      let u := set_logs (d ++ drop (length d) u.(receive_buffer_)) u.(delivered) u.(sent) u in
      receive false (length d) (set_sockets u.(send_open) u.(receive_open) false u)
    else Ok u
  | Error n => if running u then receive true n (set_sockets u.(send_open) u.(receive_open) false u) else Ok u
  | Write data => Ok (write data u)
  | Close => Ok (close u)
  end.

Fixpoint run (evs : list event) (u : UdpInterface) : outcome UdpInterface :=
  match evs with
  | [] => Ok u
  | ev :: evs => u ← step ev u; run evs u
  end.

(** ** Lemmas *)

(** An open interface. *)
Record live (u : UdpInterface) : Prop := {
  live_io : running u = true;
  live_send : send_open u = true;
  live_recv : receive_open u = true;
  live_buffer : length (receive_buffer_ u) = buffer_size
}.

Lemma open_live e u u' :
  open e u = Ok u' -> stopped u = false -> length (receive_buffer_ u) = buffer_size ->
  live u' /\ delivered u' = delivered u /\ sent u' = sent u.
Proof.
  unfold open, setup_udp, error_handler. destruct (send_open u || e_send e); cbn; [done|].
  destruct (e_remote e); cbn; [done|]. destruct (receive_open u || e_receive e); cbn; [done|].
  destruct (e_local e); cbn; [done|]. destruct (e_bind e); cbn; [done|].
  destruct (joinable u); [done|]. intros E Hs Hb. match type of E with Ok ?x = _ => assert (u' = x) as -> by congruence end.
  split; [|done]. constructor; cbn; [|done|done|done]. unfold running. cbn. by rewrite Hs.
Qed.

(** What an event delivers and sends. *)
Definition payload (ev : event) : option (list byte) :=
  match ev with Datagram d => if bool_decide (d = []) then None else Some (take buffer_size d) | _ => None end.
Definition output (ev : event) : option (list byte) := match ev with Write d => Some d | _ => None end.

(** The events that end the receive loop: its handler does not start another
    receive, or the context is stopped. *)
Definition ends (ev : event) : bool :=
  match ev with Error n => negb (n =? 0)%nat | Close => true | _ => false end.

(** The events before the first that ends the loop. *)
Fixpoint heard (evs : list event) : list event :=
  match evs with
  | [] => []
  | ev :: evs => if ends ev then [] else ev :: heard evs
  end.

Lemma heard_all evs : Forall (fun ev => ends ev = false) evs -> heard evs = evs.
Proof. induction 1 as [|ev evs E _ IH]; [done|]. cbn [heard]. by rewrite E, IH. Qed.

Lemma take_cons_length (d : list byte) : d <> [] -> exists n, length (take buffer_size d) = S n.
Proof.
  intros Hd. rewrite length_take. destruct d as [|b d]; [by destruct Hd|]. exists (pred (buffer_size `min` length (b :: d))).
  assert (0 < buffer_size)%nat by (unfold buffer_size; lia). cbn [length]. lia.
Qed.

(** An interface whose receive loop has ended. *)
Definition deaf (u : UdpInterface) : Prop := send_open u = true /\ running u = false.

Lemma udp_step ev u : live u ->
  exists u', step ev u = Ok u' /\ (if ends ev then deaf u' else live u') /\
    delivered u' = delivered u ++ option_list (payload ev) /\ sent u' = sent u ++ option_list (output ev).
Proof.
  intros [Hio Hs Hr Hb]. pose proof Hio as Hio'. unfold running in Hio'. rewrite !andb_true_iff in Hio'. destruct Hio' as [[Hj Hst] Ha].
  destruct ev as [d|n|data|]; cbn [step ends payload output option_list] in *; rewrite ?app_nil_r.
  - rewrite Hio. set (d' := take buffer_size d).
    assert (length d' <= buffer_size)%nat as Hd by (subst d'; rewrite length_take; lia).
    unfold receive. case_bool_decide as Ed.
    + subst d. subst d'. rewrite take_nil. cbn [length]. eexists. split; [done|]. cbn [app drop]. rewrite app_nil_r.
      split; [|done]. constructor; [|done..]. unfold running. cbn. by rewrite Hj, Hst.
    + assert (exists n, length d' = S n) as [n Hn].
      { apply take_cons_length. by destruct d. }
      rewrite Hn. cbn [negb receive_buffer_ set_sockets set_logs]. rewrite <- Hn.
      rewrite rd_range_prefix by done. cbn [mbind outcome_bind]. eexists. split; [done|]. split; [|done].
      constructor; cbn; [|done|done|rewrite length_app, length_drop; lia]. unfold running. cbn. by rewrite Hj, Hst.
  - rewrite Hio. destruct n as [|n]; cbn [Nat.eqb negb receive]; eexists; (split; [done|]); (split; [|done]).
    + constructor; [|done..]. unfold running. cbn. by rewrite Hj, Hst.
    + split; [done|]. unfold running. cbn. apply andb_false_r.
  - unfold write. rewrite Hs. cbn [negb]. eexists. split; [done|]. by split.
  - eexists. split; [done|]. split; [|done]. by split.
Qed.

Lemma udp_step_deaf ev u : deaf u ->
  exists u', step ev u = Ok u' /\ deaf u' /\ delivered u' = delivered u /\ sent u' = sent u ++ option_list (output ev).
Proof.
  intros [Hs Hio]. unfold deaf. destruct ev as [d|n|data|]; cbn [step output option_list]; rewrite ?app_nil_r, ?Hio;
    [by exists u..| |by eexists]. unfold write. rewrite Hs. cbn [negb]. by eexists.
Qed.

Lemma udp_run_deaf evs u0 : deaf u0 -> exists u, run evs u0 = Ok u /\
  delivered u = delivered u0 /\ sent u = sent u0 ++ omap output evs /\ deaf u.
Proof.
  revert u0. induction evs as [|ev evs IH]; intros u0 Hl; cbn [run].
  - exists u0. cbn. by rewrite app_nil_r.
  - destruct (udp_step_deaf ev u0 Hl) as (u1 & -> & Hl1 & Hd1 & Hs1). cbn [mbind outcome_bind].
    destruct (IH u1 Hl1) as (u & -> & Hd & Hs & Hlu). exists u. split; [done|]. rewrite Hd, Hs, Hd1, Hs1, <- app_assoc.
    cbn [omap list_omap]. split; [done|]. split; [by destruct (output ev)|done].
Qed.

Lemma udp_run evs u0 : live u0 -> exists u, run evs u0 = Ok u /\
  delivered u = delivered u0 ++ omap payload (heard evs) /\ sent u = sent u0 ++ omap output evs /\
  if existsb ends evs then deaf u else live u.
Proof.
  revert u0. induction evs as [|ev evs IH]; intros u0 Hl; cbn [run].
  - exists u0. cbn. by rewrite !app_nil_r.
  - destruct (udp_step ev u0 Hl) as (u1 & -> & Hl1 & Hd1 & Hs1). cbn [mbind outcome_bind heard existsb].
    assert (exists u, run evs u1 = Ok u /\ sent u = sent u1 ++ omap output evs /\
      (if ends ev then delivered u = delivered u1 /\ deaf u
       else delivered u = delivered u1 ++ omap payload (heard evs) /\ if existsb ends evs then deaf u else live u))
      as (u & -> & Hs & Hu).
    { destruct (ends ev).
      - destruct (udp_run_deaf evs u1 Hl1) as (u & H1 & H2 & H3 & H4). by exists u.
      - destruct (IH u1 Hl1) as (u & H1 & H2 & H3 & H4). by exists u. }
    exists u. split; [done|]. rewrite Hs, Hs1, <- app_assoc. cbn [omap list_omap].
    assert (sent u0 ++ option_list (output ev) ++ omap output evs =
            sent u0 ++ (omap output [ev] ++ omap output evs)) as -> by (cbn; by destruct (output ev)).
    destruct (ends ev) eqn:Ee; cbn [orb omap list_omap].
    + destruct Hu as [Hd Hu]. rewrite Hd, Hd1. assert (payload ev = None) as -> by (by destruct ev). cbn.
      split; [done|]. split; [by destruct (output ev)|done].
    + destruct Hu as [Hd Hu]. rewrite Hd, Hd1, <- app_assoc. cbn. split; [by destruct (payload ev)|].
      split; [by destruct (output ev)|done].
Qed.

(** C40: what the interface delivers and sends, whatever happens.  After
    [open], for every sequence of datagrams, errors, writes and calls of
    [close], the interface delivers exactly the datagrams that have a payload,
    each once, unchanged (up to the 65536 bytes of the buffer) and in order,
    up to the first error that comes with bytes or the first [close]; from
    there on it delivers nothing.  Nothing else ends the loop: neither an empty
    datagram nor an error without bytes.  Every write is handed to the socket,
    before and after that. *)
Theorem udp_receives_all la rp ra sp e u0 evs :
  open e (initialize la rp ra sp) = Ok u0 ->
  exists u, run evs u0 = Ok u /\ delivered u = omap payload (heard evs) /\ sent u = omap output evs /\
    running u = negb (existsb ends evs).
Proof.
  intros Ho. destruct (open_live e _ u0 Ho) as (Hl & Hd & Hs); [done|apply length_replicate|].
  destruct (udp_run evs u0 Hl) as (u & E & H1 & H2 & H3). exists u. rewrite H1, H2, Hd, Hs. do 3 (split; [done|]).
  destruct (existsb ends evs); apply H3.
Qed.

(** [close] leaves both sockets open and the context stopped: the interface
    still sends, and opening it again ends the process. *)
Theorem udp_reopen_exits e u data : live u ->
  sent (write data (close u)) = sent u ++ [data] /\ open e (close u) = Throws "exit(1)".
Proof.
  intros [_ Hs _ _]. split.
  - unfold write. cbn. by rewrite Hs.
  - unfold open, setup_udp. cbn. by rewrite Hs.
Qed.

Definition no_errors : error_codes := mkErrors false false false false false.

Lemma udp_receives_all_witness :
  exists u0 u, open no_errors (initialize "0.0.0.0" 5000 "10.0.0.2" 5001) = Ok u0 /\
    run [Datagram [z2b 1]; Datagram []; Error 0; Datagram [z2b 2; z2b 3]; Error 5; Datagram [z2b 4]; Close; Write [z2b 9]] u0
      = Ok u /\
    delivered u = [[z2b 1]; [z2b 2; z2b 3]] /\ sent u = [[z2b 9]] /\ running u = false.
Proof.
  assert (exists u0, open no_errors (initialize "0.0.0.0" 5000 "10.0.0.2" 5001) = Ok u0) as [u0 Ho] by (eexists; reflexivity).
  destruct (udp_receives_all "0.0.0.0" 5000 "10.0.0.2" 5001 no_errors u0
    [Datagram [z2b 1]; Datagram []; Error 0; Datagram [z2b 2; z2b 3]; Error 5; Datagram [z2b 4]; Close; Write [z2b 9]] Ho)
    as (u & H1 & H2 & H3 & H4).
  exists u0, u. split; [exact Ho|]. split; [exact H1|]. split; [exact H2|]. split; [exact H3|exact H4].
Defined.

End UdpInterface.
