(* ===== verification/IoUring.v ===== *)
(** * The io_uring interface ([src/src/network_interfaces/iouring_interface.cpp], [iouring_interface.hpp])

    The build with liburing: the pools of buffers, opening and closing, the
    write path and the completion thread.  The ring is the operations that
    were submitted and have not completed, and the completions that were not
    seen.  The kernel is a sequence of events between the operations of the
    interface: it completes submitted operations in any order, once each; a
    receive fills the buffer of its slot, a send takes the bytes that are in
    the buffer of its slot when it is carried out.  The results of the system
    calls and of [io_uring_get_sqe] are parameters; a submission succeeds.
    The stub of other builds is [StubUring].

    Results: every datagram that arrives is delivered once and unchanged, in
    the order of the completions, and the interface never leaves a buffer;
    what is sent is what was written as long as no slot is reused while its
    send is in flight; all descriptors are closed. *)

From S2P Require Export Buffers.

Module IoUring.

Definition kNumRecvBuffers : nat := 64.
Definition kNumSendBuffers : nat := 64.
Definition kBufferSize : nat := Z.to_nat 65536.

(** The user data of an operation, and the operations in flight. *)
Inductive Slot := RecvSlot (i : nat) | SendSlot (i : nat).
Inductive op := OpRecv (i : nat) | OpSend (i len : nat).

(** [sent], [arrived] and [queued] are the datagrams sent, those put into
    buffers by the kernel, and those of the sends submitted. *)
Record io_uring := mkRing {
  ops : list op;
  cq : list (Slot * Z);
  sent : list (list byte);
  arrived : list (list byte);
  queued : list (list byte)
}.

Record IoUringInterface := mkIoUring {
  ready_ : bool;
  failed_ : bool;
  running_ : bool;
  joinable : bool;                        (** [cq_thread_] *)
  ring_ready_ : bool;
  recv_fd_ : Z;
  send_fd_ : Z;
  recv_slots_ : list (list byte);
  send_slots_ : list (list byte);
  next_send_slot_ : Z;
  ring_ : io_uring;
  delivered : list (list byte);           (** the calls of [recv_cb_] *)
  opened : list Z;
  closed : list Z
}.

Definition new_ring (r : io_uring) : io_uring :=
  {| ops := []; cq := []; sent := r.(sent); arrived := r.(arrived); queued := r.(queued) |}.

Definition construct : IoUringInterface :=
  {| ready_ := false; failed_ := false; running_ := false; joinable := false; ring_ready_ := false;
     recv_fd_ := -1; send_fd_ := -1; recv_slots_ := []; send_slots_ := []; next_send_slot_ := 0;
     ring_ := {| ops := []; cq := []; sent := []; arrived := []; queued := [] |};
     delivered := []; opened := []; closed := [] |}.

Definition set_failed b (s : IoUringInterface) : IoUringInterface :=
  mkIoUring s.(ready_) b s.(running_) s.(joinable) s.(ring_ready_) s.(recv_fd_) s.(send_fd_) s.(recv_slots_)
    s.(send_slots_) s.(next_send_slot_) s.(ring_) s.(delivered) s.(opened) s.(closed).
Definition set_fds rfd sfd o (s : IoUringInterface) : IoUringInterface :=
  mkIoUring s.(ready_) s.(failed_) s.(running_) s.(joinable) s.(ring_ready_) rfd sfd s.(recv_slots_)
    s.(send_slots_) s.(next_send_slot_) s.(ring_) s.(delivered) o s.(closed).
Definition set_ring r (s : IoUringInterface) : IoUringInterface :=
  mkIoUring s.(ready_) s.(failed_) s.(running_) s.(joinable) s.(ring_ready_) s.(recv_fd_) s.(send_fd_) s.(recv_slots_)
    s.(send_slots_) s.(next_send_slot_) r s.(delivered) s.(opened) s.(closed).
Definition set_send n slots (s : IoUringInterface) : IoUringInterface :=
  mkIoUring s.(ready_) s.(failed_) s.(running_) s.(joinable) s.(ring_ready_) s.(recv_fd_) s.(send_fd_) s.(recv_slots_)
    slots n s.(ring_) s.(delivered) s.(opened) s.(closed).
Definition set_recv slots d (s : IoUringInterface) : IoUringInterface :=
  mkIoUring s.(ready_) s.(failed_) s.(running_) s.(joinable) s.(ring_ready_) s.(recv_fd_) s.(send_fd_) slots
    s.(send_slots_) s.(next_send_slot_) s.(ring_) d s.(opened) s.(closed).

Definition has_failed (s : IoUringInterface) : bool := s.(failed_).
Definition is_ready (s : IoUringInterface) : bool := s.(ready_) && negb s.(failed_).

(** Submitting an operation; nothing when there was no entry. *)
Definition submit (sqe : bool) (o : op) (s : IoUringInterface) : IoUringInterface :=
  if sqe then
    set_ring {| ops := s.(ring_).(ops) ++ [o]; cq := s.(ring_).(cq); sent := s.(ring_).(sent);
                arrived := s.(ring_).(arrived); queued := s.(ring_).(queued) |} s
  else s.

Definition arm_recv (sqe : bool) (i : nat) (s : IoUringInterface) : IoUringInterface := submit sqe (OpRecv i) s.

(** What the system answers to [open]: the descriptors, [bind],
    [io_uring_queue_init], and an entry for each receive. *)
Record answers := mkAnswers {
  a_send_fd : Z; a_recv_fd : Z; a_bind : bool; a_queue : bool; a_sqe : nat -> bool
}.

Definition setup_sockets (a : answers) (s : IoUringInterface) : IoUringInterface :=
  let s := set_fds a.(a_recv_fd) a.(a_send_fd)
             (s.(opened) ++ List.filter (fun fd => 0 <=? fd) [a.(a_send_fd); a.(a_recv_fd)]) s in
  if (a.(a_send_fd) <? 0) || (a.(a_recv_fd) <? 0) then set_failed true s
  else if negb a.(a_bind) then set_failed true s
  else s.

(** [open]; assigning to a joinable thread ends the program. *)
Definition open (a : answers) (s : IoUringInterface) : outcome IoUringInterface :=
  let s := mkIoUring false false s.(running_) s.(joinable) s.(ring_ready_) s.(recv_fd_) s.(send_fd_) s.(recv_slots_)
             s.(send_slots_) s.(next_send_slot_) s.(ring_) s.(delivered) s.(opened) s.(closed) in
  let s := setup_sockets a s in
  if s.(failed_) then Ok s
  else if negb a.(a_queue) then Ok (set_failed true s)
  else
    let pool n := replicate n (replicate kBufferSize (z2b 0)) in
    let s := mkIoUring s.(ready_) s.(failed_) s.(running_) s.(joinable) true s.(recv_fd_) s.(send_fd_)
               (pool kNumRecvBuffers) (pool kNumSendBuffers) s.(next_send_slot_) (new_ring s.(ring_)) s.(delivered)
               s.(opened) s.(closed) in
    let s := foldl (fun s i => arm_recv (a.(a_sqe) i) i s) s (seq 0 kNumRecvBuffers) in
    if s.(joinable) then Throws "std::terminate"
    else Ok (mkIoUring true s.(failed_) true true s.(ring_ready_) s.(recv_fd_) s.(send_fd_) s.(recv_slots_)
               s.(send_slots_) s.(next_send_slot_) s.(ring_) s.(delivered) s.(opened) s.(closed)).

(** One round of [completion_loop]. *)
Definition completion (sqe : bool) (s : IoUringInterface) : outcome IoUringInterface :=
  if negb s.(running_) then Ok s
  else
    match s.(ring_).(cq) with
    | [] => Ok s
    | (slot, res) :: rest =>
      let s := set_ring {| ops := s.(ring_).(ops); cq := rest; sent := s.(ring_).(sent);
                           arrived := s.(ring_).(arrived); queued := s.(ring_).(queued) |} s in
      match slot with
      | SendSlot _ => Ok s
      | RecvSlot i =>
        match s.(recv_slots_) !! i with
        | None => OutOfBounds
        | Some buf =>
          d ← (if 0 <? res then data ← rd_range buf 0 (Z.to_nat res); Ok (s.(delivered) ++ [data]) else Ok s.(delivered));
          Ok (arm_recv sqe i (set_recv s.(recv_slots_) d s))
        end
      end
    end.

(** [acquire_send_slot]: the slot, and the counter increased. *)
Definition acquire_send_slot (s : IoUringInterface) : nat * IoUringInterface :=
  (Z.to_nat (s.(next_send_slot_) mod Z.of_nat kNumSendBuffers),
   set_send (u32 (s.(next_send_slot_) + 1)) s.(send_slots_) s).

Definition write (sqe : bool) (data : list byte) (s : IoUringInterface) : outcome IoUringInterface :=
  if negb s.(ready_) || s.(failed_) then Ok s
  else if (kBufferSize <? length data)%nat then Ok s
  else
    let '(i, s) := acquire_send_slot s in
    match s.(send_slots_) !! i with
    | None => OutOfBounds
    | Some buf =>
      buf ← store 0 data buf;
      let s := set_send s.(next_send_slot_) (<[i := buf]> s.(send_slots_)) s in
      if negb sqe then Ok s
      else
        let s := submit true (OpSend i (length data)) s in
        Ok (set_ring {| ops := s.(ring_).(ops); cq := s.(ring_).(cq); sent := s.(ring_).(sent);
                        arrived := s.(ring_).(arrived); queued := s.(ring_).(queued) ++ [data] |} s)
    end.

(** [close]: the thread has ended, and what was in flight is gone. *)
Definition close (s : IoUringInterface) : IoUringInterface :=
  let fds := List.filter (fun fd => 0 <=? fd) [s.(recv_fd_); s.(send_fd_)] in
  mkIoUring false s.(failed_) false false false (-1) (-1) s.(recv_slots_) s.(send_slots_) s.(next_send_slot_)
    (if s.(ring_ready_) then new_ring s.(ring_) else s.(ring_)) s.(delivered) s.(opened) (s.(closed) ++ fds).

(** ** The kernel *)

Definition complete (k : nat) (c : Slot * Z) (r : io_uring) : io_uring :=
  {| ops := delete k r.(ops); cq := r.(cq) ++ [c]; sent := r.(sent); arrived := r.(arrived); queued := r.(queued) |}.

(** The [k]-th operation is carried out: a send with the bytes in its slot, a
    receive of a datagram; [None] is a failure. *)
Definition kernel_send (k : nat) (s : IoUringInterface) : IoUringInterface :=
  match s.(ring_).(ops) !! k with
  | Some (OpSend i len) =>
    let r := complete k (SendSlot i, Z.of_nat len) s.(ring_) in
    set_ring {| ops := r.(ops); cq := r.(cq); sent := r.(sent) ++ [take len (default [] (s.(send_slots_) !! i))];
                arrived := r.(arrived); queued := r.(queued) |} s
  | _ => s
  end.

Definition kernel_recv (k : nat) (datagram : option (list byte)) (s : IoUringInterface) : IoUringInterface :=
  match s.(ring_).(ops) !! k with
  | Some (OpRecv i) =>
    match datagram with
    | Some d =>
      let d := take kBufferSize d in
      let r := complete k (RecvSlot i, Z.of_nat (length d)) s.(ring_) in
      set_ring {| ops := r.(ops); cq := r.(cq); sent := r.(sent);
                  arrived := r.(arrived) ++ (if bool_decide (d = []) then [] else [d]); queued := r.(queued) |}
        (set_recv (alter (fun buf => d ++ drop (length d) buf) i s.(recv_slots_)) s.(delivered) s)
    | None => set_ring (complete k (RecvSlot i, -1) s.(ring_)) s
    end
  | _ => s
  end.

Inductive event :=
| Write (data : list byte) (sqe : bool)
| Completion (sqe : bool)
| KernelSend (k : nat)
| KernelRecv (k : nat) (datagram : option (list byte)).

Definition step (ev : event) (s : IoUringInterface) : outcome IoUringInterface :=
  match ev with
  | Write data sqe => write sqe data s
  | Completion sqe => completion sqe s
  | KernelSend k => Ok (kernel_send k s)
  | KernelRecv k d => Ok (kernel_recv k d s)
  end.

Fixpoint run (evs : list event) (s : IoUringInterface) : outcome IoUringInterface :=
  match evs with
  | [] => Ok s
  | ev :: evs => s ← step ev s; run evs s
  end.

(** The interface of a build without liburing: only [failed_] changes. *)
Module StubUring.
Definition open (failed : bool) : bool := true.
Definition close (failed : bool) : bool := failed.
Definition write (data : list byte) (failed : bool) : bool := failed.
End StubUring.

(** ** The invariant *)

Definition recv_of_op (o : op) : option nat := match o with OpRecv i => Some i | OpSend _ _ => None end.
Definition recv_of_cqe (c : Slot * Z) : option nat := match c.1 with RecvSlot i => Some i | SendSlot _ => None end.

(** The receive slots that wait for a datagram or to be seen. *)
Definition in_use (s : IoUringInterface) : list nat :=
  omap recv_of_op s.(ring_).(ops) ++ omap recv_of_cqe s.(ring_).(cq).

(** The datagram of a completion. *)
Definition content (slots : list (list byte)) (c : Slot * Z) : option (list byte) :=
  match c.1 with
  | RecvSlot i => if 0 <? c.2 then Some (take (Z.to_nat c.2) (default [] (slots !! i))) else None
  | SendSlot _ => None
  end.

(** The datagram a pending send will send. *)
Definition pending (slots : list (list byte)) (o : op) : option (list byte) :=
  match o with OpSend i len => Some (take len (default [] (slots !! i))) | OpRecv _ => None end.

Definition pool_ok (slots : list (list byte)) : Prop :=
  length slots = 64%nat /\ Forall (fun buf => length buf = kBufferSize) slots.

(** A working interface; [A] and [D] are what had arrived and was delivered
    when it was opened. *)
Record wf (A D : list (list byte)) (s : IoUringInterface) : Prop := {
  wf_flags : s.(ready_) = true /\ s.(failed_) = false /\ s.(running_) = true;
  wf_recv : pool_ok s.(recv_slots_);
  wf_send : pool_ok s.(send_slots_);
  wf_slots : NoDup (in_use s) /\ Forall (fun i => (i < 64)%nat) (in_use s);
  wf_cq : Forall (fun c => if c.1 is RecvSlot _ then c.2 <= 65536 else True) s.(ring_).(cq);
  wf_log : exists x, s.(delivered) = D ++ x /\ s.(ring_).(arrived) = A ++ x ++ omap (content s.(recv_slots_)) s.(ring_).(cq)
}.

Lemma pool_lookup slots i : pool_ok slots -> (i < 64)%nat -> exists buf, slots !! i = Some buf /\ length buf = kBufferSize.
Proof.
  intros [Hl Hf] Hi. destruct (lookup_lt_is_Some_2 slots i) as [buf Hb]; [lia|]. exists buf. split; [done|].
  by apply (Forall_lookup_1 _ _ _ _ Hf Hb).
Qed.

Lemma pool_insert slots i buf : pool_ok slots -> length buf = kBufferSize -> pool_ok (<[i := buf]> slots).
Proof. intros [Hl Hf] Hb. split; [by rewrite length_insert|]. by apply Forall_insert. Qed.

Lemma pool_alter slots i f : pool_ok slots -> (forall b, length b = kBufferSize -> length (f b) = kBufferSize) -> pool_ok (alter f i slots).
Proof.
  intros [Hl Hf] Hb. split; [by rewrite length_alter|]. apply Forall_alter; [done|]. intros x _. apply Hb.
Qed.

Lemma pool_new : pool_ok (replicate 64 (replicate kBufferSize (z2b 0))).
Proof. split; [by rewrite length_replicate|]. apply Forall_replicate, length_replicate. Qed.

(** Contents depend on the slots of the list only. *)
Lemma content_alter f i slots (l : list (Slot * Z)) :
  i ∉ omap recv_of_cqe l -> omap (content (alter f i slots)) l = omap (content slots) l.
Proof.
  induction l as [|[sl res] l IH]; [done|]. cbn [omap list_omap]. unfold recv_of_cqe at 1. cbn [fst].
  destruct sl as [j|j].
  - rewrite not_elem_of_cons. intros [Hj Hl]. rewrite IH by done. unfold content at 1 3. cbn [fst snd].
    by rewrite list_lookup_alter_ne.
  - intros Hl. by rewrite IH.
Qed.

Lemma omap_delete {A B} (f : A -> option B) k x (l : list A) :
  l !! k = Some x -> omap f l ≡ₚ option_list (f x) ++ omap f (delete k l).
Proof.
  revert k. induction l as [|y l IH]; intros [|k] Hk; cbn in Hk; try done.
  - injection Hk as ->. cbn. by destruct (f x).
  - cbn [omap list_omap delete list_delete]. destruct (f y) as [z|]; [|by apply IH].
    rewrite (IH k Hk). by rewrite Permutation_middle.
Qed.

Section Steps.
Context (A D : list (list byte)).

Lemma slots_perm s l : in_use s ≡ₚ l -> NoDup (in_use s) /\ Forall (fun i => (i < 64)%nat) (in_use s) ->
  NoDup l /\ Forall (fun i => (i < 64)%nat) l.
Proof. intros H. by rewrite H. Qed.

Lemma next_slot n : (Z.to_nat (n mod Z.of_nat kNumSendBuffers) < 64)%nat.
Proof. unfold kNumSendBuffers. pose proof (Z.mod_pos_bound n (Z.of_nat 64) ltac:(lia)). lia. Qed.

Lemma uring_write_ok sqe data s : wf A D s -> exists s', write sqe data s = Ok s' /\ wf A D s' /\ in_use s' = in_use s.
Proof.
  intros [(H1 & H2 & H3) H4 H5 H6 H7 H8]. unfold write. rewrite H1, H2. cbn [negb orb].
  case_test; [by exists s|]. apply Nat.ltb_ge in E. unfold acquire_send_slot. cbn [send_slots_ set_send].
  destruct (pool_lookup _ _ H5 (next_slot (next_send_slot_ s))) as (buf & Hb & Hl). rewrite Hb.
  unfold store. rewrite (proj2 (Nat.leb_le _ _)) by (cbn; lia). cbn [mbind outcome_bind take app Nat.add].
  assert (pool_ok (<[Z.to_nat (next_send_slot_ s mod Z.of_nat kNumSendBuffers) := data ++ drop (length data) buf]> (send_slots_ s))) as Hp
    by (apply pool_insert; [done|]; rewrite length_app, length_drop; lia).
  destruct sqe; cbn [negb]; eexists; (split; [done|]); (split; [|unfold in_use; cbn; rewrite ?omap_app; cbn; by rewrite ?app_nil_r]).
  - constructor; cbn; try done. unfold in_use in *. cbn. by rewrite omap_app; cbn; rewrite app_nil_r.
  - by constructor.
Qed.

Lemma uring_completion_ok sqe s : wf A D s ->
  exists s', completion sqe s = Ok s' /\ wf A D s' /\ (sqe = true -> in_use s' ≡ₚ in_use s).
Proof.
  intros [(H1 & H2 & H3) H4 H5 H6 H7 H8]. unfold completion. rewrite H3. cbn [negb].
  unfold in_use in *. destruct (cq (ring_ s)) as [|[[i|i] res] rest] eqn:Ec; cbn [recv_slots_ set_ring].
  - exists s. split; [done|]. split; [constructor; unfold in_use; rewrite ?Ec; done|by rewrite Ec].
  - cbn [omap list_omap recv_of_cqe fst] in H6 |- *. inversion_clear H7 as [|x y Hres Hrest]. cbn [fst snd] in Hres.
    assert (i < 64)%nat as Hi by (destruct H6 as [_ Hf]; apply Forall_app in Hf as [_ Hf]; by inversion_clear Hf).
    destruct (pool_lookup _ _ H4 Hi) as (buf & Hb & Hl). rewrite Hb.
    assert (exists d, (if 0 <? res then data ← rd_range buf 0 (Z.to_nat res); Ok (delivered s ++ [data]) else Ok (delivered s)) = Ok d /\
              d = delivered s ++ option_list (content (recv_slots_ s) (RecvSlot i, res))) as (d & Hd & Ed).
    { unfold content. cbn [fst snd]. case_test; cbn [option_list].
      - unfold kBufferSize in Hl. rewrite rd_range_ok by lia. cbn [mbind outcome_bind]. eexists. split; [done|].
        rewrite Hb. unfold slice. by rewrite drop_0.
      - eexists. by rewrite app_nil_r. }
    cbn [delivered set_ring] in Hd |- *. rewrite Hd. cbn [mbind outcome_bind]. eexists. split; [done|].
    destruct H8 as (x & Hx1 & Hx2). cbn [omap list_omap] in Hx2.
    assert (omap (content (recv_slots_ s)) ((RecvSlot i, res) :: rest) =
            option_list (content (recv_slots_ s) (RecvSlot i, res)) ++ omap (content (recv_slots_ s)) rest) as Ho
      by (cbn [omap list_omap]; by destruct (content _ _)).
    cbn [omap list_omap] in Ho. rewrite Ho in Hx2.
    assert (exists x, d = D ++ x /\ arrived (ring_ s) = A ++ x ++ omap (content (recv_slots_ s)) rest) as Hlog.
    { exists (x ++ option_list (content (recv_slots_ s) (RecvSlot i, res))). rewrite Ed, Hx1, Hx2, <- !app_assoc. done. }
    assert (omap recv_of_op (ops (ring_ s)) ++ i :: omap recv_of_cqe rest ≡ₚ
            (omap recv_of_op (ops (ring_ s)) ++ [i]) ++ omap recv_of_cqe rest) as Hperm by (by rewrite <- app_assoc).
    destruct sqe; cbn [arm_recv submit].
    + rewrite Hperm in H6. split; [|intros _; cbn; rewrite omap_app; cbn; by rewrite Hperm].
      constructor; unfold in_use; cbn; try done. by rewrite omap_app.
    + split; [|done]. constructor; unfold in_use; cbn; try done. rewrite <- Permutation_middle in H6.
      destruct H6 as [Hn Hf]. by inversion_clear Hn; inversion_clear Hf.
  - cbn [omap list_omap recv_of_cqe fst] in H6 |- *. inversion_clear H7 as [|x y Hres Hrest].
    destruct H8 as (x & Hx1 & Hx2). cbn [omap list_omap content fst] in Hx2.
    eexists. split; [done|]. split; [|done]. constructor; unfold in_use; cbn; try done. by exists x.
Qed.

Lemma kernel_send_ok k s : wf A D s -> wf A D (kernel_send k s) /\ in_use (kernel_send k s) ≡ₚ in_use s.
Proof.
  intros Hwf. unfold kernel_send. destruct (ops (ring_ s) !! k) as [[i|i len]|] eqn:Ek; [done| |done].
  destruct Hwf as [(H1 & H2 & H3) H4 H5 H6 H7 H8].
  match goal with |- wf _ _ ?s' /\ _ => assert (in_use s' ≡ₚ in_use s) as Hu end.
  { unfold in_use. cbn [ring_ set_ring ops cq complete]. rewrite (omap_delete recv_of_op k (OpSend i len) (ops (ring_ s))) by done.
    rewrite omap_app. cbn [recv_of_op option_list app omap list_omap recv_of_cqe fst]. by rewrite app_nil_r. }
  split; [|exact Hu]. constructor; [done|done|done| |..].
  - by rewrite Hu.
  - cbn. apply Forall_app. split; [done|]. by constructor.
  - cbn. destruct H8 as (x & Hx1 & Hx2). exists x. split; [done|]. rewrite omap_app. cbn. by rewrite app_nil_r.
Qed.

Lemma kernel_recv_ok k d s : wf A D s -> wf A D (kernel_recv k d s) /\ in_use (kernel_recv k d s) ≡ₚ in_use s.
Proof.
  intros Hwf. unfold kernel_recv. destruct (ops (ring_ s) !! k) as [[i|i len]|] eqn:Ek; [|done|done].
  destruct Hwf as [(H1 & H2 & H3) H4 H5 H6 H7 H8].
  assert (forall res r, ops r = delete k (ops (ring_ s)) -> cq r = cq (ring_ s) ++ [(RecvSlot i, res)] ->
    omap recv_of_op (ops r) ++ omap recv_of_cqe (cq r) ≡ₚ in_use s) as Hu.
  { intros res r -> ->. unfold in_use. rewrite (omap_delete recv_of_op k (OpRecv i) (ops (ring_ s))) by done.
    rewrite omap_app. cbn [recv_of_op option_list app omap list_omap recv_of_cqe fst].
    rewrite app_assoc. by rewrite Permutation_app_comm. }
  assert ((i ∉ omap recv_of_cqe (cq (ring_ s))) /\ (i < 64)%nat) as [Hi Hi64].
  { destruct H6 as [Hn Hf]. unfold in_use in Hn, Hf. rewrite (omap_delete recv_of_op k (OpRecv i)) in Hn, Hf by done.
    cbn [recv_of_op option_list app] in Hn, Hf. inversion_clear Hn as [|x y Hx _]. inversion_clear Hf.
    split; [|done]. intros Hin. apply Hx. apply elem_of_app. by right. }
  destruct (pool_lookup _ _ H4 Hi64) as (buf & Hb & Hl). destruct H8 as (x & Hx1 & Hx2). destruct d as [d|].
  - set (d' := take kBufferSize d).
    assert (length d' <= kBufferSize)%nat as Hd by (subst d'; rewrite length_take; lia).
    match goal with |- wf _ _ ?s' /\ _ => assert (in_use s' ≡ₚ in_use s) as Hu' by (eapply Hu; reflexivity) end.
    split; [|exact Hu']. constructor; [done| |done|by rewrite Hu'| |].
    + cbn. apply pool_alter; [done|]. intros b Hbl. rewrite length_app, length_drop. lia.
    + cbn. apply Forall_app. split; [done|]. constructor; [|constructor]. cbn. unfold kBufferSize in Hd. lia.
    + cbn. exists x. split; [done|]. rewrite omap_app, content_alter by done. rewrite Hx2, <- !app_assoc. do 3 f_equal.
      unfold content. cbn [omap list_omap fst snd]. case_bool_decide as Ed.
      * by rewrite Ed.
      * rewrite (proj2 (Z.ltb_lt _ _)) by (destruct d'; [done|cbn; lia]).
        rewrite list_lookup_alter_eq, Hb. cbn. by rewrite Nat2Z.id, take_app_length.
  - match goal with |- wf _ _ ?s' /\ _ => assert (in_use s' ≡ₚ in_use s) as Hu' by (eapply Hu; reflexivity) end.
    split; [|exact Hu']. constructor; [done|done|done|by rewrite Hu'| |].
    + cbn. apply Forall_app. split; [done|]. by constructor.
    + cbn. exists x. split; [done|]. rewrite omap_app. cbn. by rewrite app_nil_r.
Qed.

(** Any event succeeds and keeps the invariant; with an entry for the
    re-armed receive no slot is lost. *)
Definition entry_ok (ev : event) : Prop := match ev with Completion sqe => sqe = true | _ => True end.

Lemma uring_step_ok ev s : wf A D s -> exists s', step ev s = Ok s' /\ wf A D s' /\ (entry_ok ev -> in_use s' ≡ₚ in_use s).
Proof.
  intros Hwf. destruct ev as [data sqe|sqe|k|k d]; cbn [step entry_ok].
  - destruct (uring_write_ok sqe data s Hwf) as (s' & -> & H & E). exists s'. by rewrite E.
  - by apply uring_completion_ok.
  - destruct (kernel_send_ok k s Hwf). by eexists.
  - destruct (kernel_recv_ok k d s Hwf). by eexists.
Qed.

Lemma uring_run_ok evs s : wf A D s ->
  exists s', run evs s = Ok s' /\ wf A D s' /\ (Forall entry_ok evs -> in_use s' ≡ₚ in_use s).
Proof.
  revert s. induction evs as [|ev evs IH]; intros s Hwf; cbn [run]; [by exists s|].
  destruct (uring_step_ok ev s Hwf) as (s1 & -> & H1 & U1). cbn [mbind outcome_bind].
  destruct (IH s1 H1) as (s2 & -> & H2 & U2). exists s2. split; [done|]. split; [done|]. intros Hf.
  inversion_clear Hf. rewrite U2, U1; done.
Qed.

End Steps.

(** ** Opening *)

Lemma arm_all sqe l s :
  foldl (fun s i => arm_recv (sqe i) i s) s l =
  set_ring {| ops := s.(ring_).(ops) ++ map OpRecv (List.filter sqe l); cq := s.(ring_).(cq); sent := s.(ring_).(sent);
              arrived := s.(ring_).(arrived); queued := s.(ring_).(queued) |} s.
Proof.
  revert s. induction l as [|i l IH]; intros s; cbn [foldl List.filter].
  - rewrite app_nil_r. by destruct s as [? ? ? ? ? ? ? ? ? ? [] ? ? ?].
  - rewrite IH. unfold arm_recv, submit. destruct (sqe i); [|done]. cbn. by rewrite <- app_assoc.
Qed.

Lemma omap_recv_ops l : omap recv_of_op (map OpRecv l) = l.
Proof. induction l as [|i l IH]; [done|]. cbn. by f_equal. Qed.

Lemma open_ready a s s0 : open a s = Ok s0 -> ready_ s0 = true ->
  wf (arrived (ring_ s)) (delivered s) s0 /\ in_use s0 = List.filter a.(a_sqe) (seq 0 64) /\
  ops (ring_ s0) = map OpRecv (List.filter a.(a_sqe) (seq 0 64)) /\
  sent (ring_ s0) = sent (ring_ s) /\ queued (ring_ s0) = queued (ring_ s) /\ delivered s0 = delivered s.
Proof.
  unfold open. cbv zeta. set (s1 := setup_sockets a _).
  assert (ready_ s1 = false /\ ring_ s1 = ring_ s /\ delivered s1 = delivered s) as (R & Hr & Hd).
  { subst s1. unfold setup_sockets. case_test; [done|]. by case_test. }
  clearbody s1.
  destruct (failed_ s1) eqn:Ef; [intros [= <-]; by rewrite R|].
  destruct (a_queue a); cbn [negb]; [|intros [= <-]; cbn [ready_ set_failed]; by rewrite R].
  rewrite arm_all. set (s2 := set_ring _ _). destruct (joinable s2); [done|]. intros E.
  match type of E with Ok ?x = _ => assert (s0 = x) as -> by congruence end. clear E. intros _.
  cbn [ready_ failed_ running_ ring_ delivered recv_slots_ send_slots_ s2 set_ring ops cq sent arrived queued new_ring app].
  rewrite Hr, Hd. unfold in_use. cbn [ring_ ops cq]. rewrite omap_recv_ops. cbn [omap list_omap]. rewrite app_nil_r.
  split; [|done]. constructor; cbn [ready_ failed_ running_ ring_ delivered recv_slots_ send_slots_ ops cq arrived].
  - done.
  - apply pool_new.
  - apply pool_new.
  - unfold in_use. cbn [ring_ ops cq]. rewrite omap_recv_ops. cbn [omap list_omap]. rewrite app_nil_r. split.
    + apply NoDup_ListNoDup, List.NoDup_filter, seq_NoDup.
    + apply Forall_forall. intros i. rewrite list_elem_of_In, List.filter_In, in_seq. unfold kNumRecvBuffers. lia.
  - constructor.
  - exists []. by rewrite !app_nil_r.
Qed.

(** C18: every datagram that arrives is delivered once and unchanged.  After
    any operations, completions and actions of the kernel, in any order,
    nothing has gone wrong (no access outside of a buffer), the datagrams the
    kernel received are those delivered, in the order of their completions,
    followed by those the completion thread has not seen yet; and as long as
    there are entries to re-arm the slots, each of the 64 is in the ring or
    about to be, once. *)
Theorem iouring_receives a s s0 evs :
  open a s = Ok s0 -> s0.(ready_) = true ->
  exists s1, run evs s0 = Ok s1 /\
    (exists x, s1.(delivered) = s.(delivered) ++ x /\
       s1.(ring_).(arrived) = s.(ring_).(arrived) ++ x ++ omap (content s1.(recv_slots_)) s1.(ring_).(cq)) /\
    (Forall entry_ok evs -> (forall i, (i < 64)%nat -> a.(a_sqe) i = true) -> in_use s1 ≡ₚ seq 0 64).
Proof.
  intros Ho Hr. destruct (open_ready a s s0 Ho Hr) as (Hwf & Hu & _).
  destruct (uring_run_ok _ _ evs s0 Hwf) as (s1 & E & H1 & U). exists s1. split; [exact E|]. split; [apply H1|].
  intros He Ha. rewrite (U He), Hu. replace (List.filter (a_sqe a) (seq 0 64)) with (seq 0 64); [done|].
  assert (forall l, Forall (fun i => (i < 64)%nat) l -> List.filter (a_sqe a) l = l) as Hfl.
  { induction 1 as [|i l Hi _ IH]; cbn; [done|]. by rewrite (Ha i Hi), IH. }
  symmetry. apply Hfl, Forall_forall. intros i. rewrite list_elem_of_In, in_seq. lia.
Qed.

(** ** Sending *)

(** The slot the next write uses. *)
Definition next_slot_of (s : IoUringInterface) : nat := Z.to_nat (s.(next_send_slot_) mod Z.of_nat kNumSendBuffers).

(** No write takes a slot whose send is in flight. *)
Fixpoint no_overrun (evs : list event) (s : IoUringInterface) : Prop :=
  match evs with
  | [] => True
  | ev :: evs =>
    (if ev is Write _ _ then forall len, OpSend (next_slot_of s) len ∉ s.(ring_).(ops) else True) /\
    (if step ev s is Ok s' then no_overrun evs s' else True)
  end.

(** The writes that are submitted. *)
Definition accepted (ev : event) : option (list byte) :=
  match ev with
  | Write data true => if (kBufferSize <? length data)%nat then None else Some data
  | _ => None
  end.

(** What was submitted since [S] and [Q] is sent or pending. *)
Definition sends_ok (S Q w : list (list byte)) (s : IoUringInterface) : Prop :=
  exists x, s.(ring_).(sent) = S ++ x /\ s.(ring_).(queued) = Q ++ w /\
    w ≡ₚ x ++ omap (pending s.(send_slots_)) s.(ring_).(ops).

Lemma pending_insert i buf slots (l : list op) :
  (forall len, OpSend i len ∉ l) -> omap (pending (<[i := buf]> slots)) l = omap (pending slots) l.
Proof.
  induction l as [|o l IH]; intros Hl; [done|]. cbn [omap list_omap].
  assert (forall len, OpSend i len ∉ l) as Hl' by (intros len Hin; apply (Hl len); by right).
  rewrite (IH Hl'). destruct o as [j|j len]; [done|]. cbn [pending]. rewrite list_lookup_insert_ne; [done|].
  intros ->. apply (Hl len). left.
Qed.

Lemma write_sends A D S Q w sqe data s s' :
  wf A D s -> (forall len, OpSend (next_slot_of s) len ∉ s.(ring_).(ops)) -> sends_ok S Q w s -> write sqe data s = Ok s' ->
  sends_ok S Q (w ++ option_list (accepted (Write data sqe))) s'.
Proof.
  intros [(H1 & H2 & H3) H4 H5 H6 H7 H8] Hno (x & Hx1 & Hx2 & Hx3). unfold write. rewrite H1, H2. cbn [negb orb].
  cbn [accepted]. destruct (kBufferSize <? length data)%nat eqn:El.
  { intros [= <-]. exists x. destruct sqe; cbn; by rewrite app_nil_r. }
  apply Nat.ltb_ge in El. unfold acquire_send_slot. cbn [send_slots_ set_send]. fold (next_slot_of s).
  destruct (pool_lookup _ _ H5 (next_slot (next_send_slot_ s))) as (buf & Hb & Hl). fold (next_slot_of s) in Hb. rewrite Hb.
  unfold store. rewrite (proj2 (Nat.leb_le _ _)) by (cbn [Nat.add]; lia). cbn [mbind outcome_bind Nat.add]. change (take 0 buf ++ ?y) with y.
  assert (next_slot_of s < length (send_slots_ s))%nat as Hlt by (destruct H5 as [-> _]; apply next_slot).
  destruct sqe; cbn [negb]; intros E; (match type of E with Ok ?t = _ => assert (s' = t) as -> by congruence end);
    exists x; cbn [ring_ set_ring sent queued ops submit send_slots_ set_send option_list app].
  - split; [done|]. split; [by rewrite Hx2, <- app_assoc|]. rewrite omap_app, pending_insert by done. cbn [omap list_omap pending].
    rewrite list_lookup_insert_eq by done. cbn [default from_option id]. rewrite take_app_length, app_assoc. by rewrite Hx3.
  - split; [done|]. rewrite app_nil_r. split; [done|]. by rewrite pending_insert.
Qed.

Lemma step_sends A D S Q w ev s s' :
  wf A D s -> (if ev is Write _ _ then forall len, OpSend (next_slot_of s) len ∉ s.(ring_).(ops) else True) ->
  sends_ok S Q w s -> step ev s = Ok s' -> sends_ok S Q (w ++ option_list (accepted ev)) s'.
Proof.
  intros Hwf Hno Hs. destruct ev as [data sqe|sqe|k|k d]; cbn [step]; [by apply (write_sends A D)|..];
    cbn [accepted option_list]; rewrite app_nil_r; destruct Hs as (x & Hx1 & Hx2 & Hx3).
  - unfold completion. case_test; [intros [= <-]; by exists x|].
    destruct (cq (ring_ s)) as [|[[i|i] res] rest]; [intros [= <-]; by exists x| |intros [= <-]; by exists x].
    destruct (recv_slots_ _ !! i) as [buf|]; [|done].
    destruct (if 0 <? res then _ else _) as [d| |]; cbn [mbind outcome_bind]; try done. intros [= <-]. unfold arm_recv, submit.
    destruct sqe; exists x; cbn; (split; [done|split; [done|]]); [|done]. rewrite omap_app. cbn. by rewrite app_nil_r.
  - intros [= <-]. unfold kernel_send. destruct (ops (ring_ s) !! k) as [[i|i len]|] eqn:Ek; [by exists x| |by exists x].
    exists (x ++ [take len (default [] (send_slots_ s !! i))]). cbn [ring_ set_ring sent queued ops complete send_slots_].
    split; [by rewrite Hx1, <- app_assoc|]. split; [done|]. rewrite Hx3, (omap_delete _ k (OpSend i len)) by done.
    cbn [pending option_list]. by rewrite <- app_assoc.
  - intros [= <-]. unfold kernel_recv. destruct (ops (ring_ s) !! k) as [[i|i len]|] eqn:Ek; [|by exists x|by exists x].
    rewrite (omap_delete _ k (OpRecv i)) in Hx3 by done. cbn [pending option_list app] in Hx3. destruct d; by exists x.
Qed.

(** What is sent is what was written.  As long as no write reuses a
    slot whose send is in flight, the writes that got an entry (each of at most
    65536 bytes) are, each once and unchanged, the datagrams sent and those
    whose send is pending, whatever the order in which the kernel carries out
    the operations. *)
Theorem iouring_sends a s s0 evs s1 :
  open a s = Ok s0 -> s0.(ready_) = true -> run evs s0 = Ok s1 -> no_overrun evs s0 ->
  exists x, s1.(ring_).(sent) = s.(ring_).(sent) ++ x /\
    s1.(ring_).(queued) = s.(ring_).(queued) ++ omap accepted evs /\
    omap accepted evs ≡ₚ x ++ omap (pending s1.(send_slots_)) s1.(ring_).(ops).
Proof.
  intros Ho Hr Hrun Hno. destruct (open_ready a s s0 Ho Hr) as (Hwf & _ & Hops & Hs & Hq & _).
  assert (forall evs w s0 s1, wf (arrived (ring_ s)) (delivered s) s0 -> run evs s0 = Ok s1 -> no_overrun evs s0 ->
            sends_ok (sent (ring_ s)) (queued (ring_ s)) w s0 ->
            sends_ok (sent (ring_ s)) (queued (ring_ s)) (w ++ omap accepted evs) s1) as H.
  { clear. induction evs as [|ev evs IH]; intros w s0 s1 Hwf; cbn [run no_overrun].
    - intros [= <-] _. cbn. by rewrite app_nil_r.
    - destruct (uring_step_ok _ _ ev s0 Hwf) as (s2 & E & Hwf2 & _). rewrite E. cbn [mbind outcome_bind].
      intros Hrun [Hn Hno] Hs. specialize (IH _ s2 s1 Hwf2 Hrun Hno (step_sends _ _ _ _ w ev s0 s2 Hwf Hn Hs E)).
      replace (w ++ omap accepted (ev :: evs)) with ((w ++ option_list (accepted ev)) ++ omap accepted evs); [exact IH|].
      rewrite <- app_assoc. cbn [omap list_omap]. by destruct (accepted ev). }
  destruct (H evs [] s0 s1 Hwf Hrun Hno) as (x & Hx); [|by exists x].
  exists []. rewrite Hs, Hq, !app_nil_r, Hops. split; [done|]. split; [done|]. cbn [app].
  assert (forall l, omap (pending (send_slots_ s0)) (map OpRecv l) = []) as -> by (induction l as [|i l IH]; [done|exact IH]).
  done.
Qed.

(** The slot of a send in flight is overwritten by the write that comes back to
    it: the datagram is lost and the later one is sent in its place, and once
    more when its own turn comes. *)
Theorem send_overrun A D s k len data s' :
  wf A D s -> s.(ring_).(ops) !! k = Some (OpSend (next_slot_of s) len) -> length data = len -> (len <= kBufferSize)%nat ->
  write true data s = Ok s' ->
  sent (ring_ (kernel_send k s')) = sent (ring_ s) ++ [data].
Proof.
  intros [(H1 & H2 & H3) H4 H5 H6 H7 H8] Hk <- Hlen. unfold write. rewrite H1, H2. cbn [negb orb].
  rewrite (proj2 (Nat.ltb_ge _ _)) by done. unfold acquire_send_slot. cbn [send_slots_ set_send]. fold (next_slot_of s).
  destruct (pool_lookup _ _ H5 (next_slot (next_send_slot_ s))) as (buf & Hb & Hl). fold (next_slot_of s) in Hb. rewrite Hb.
  unfold store. rewrite (proj2 (Nat.leb_le _ _)) by (cbn [Nat.add]; lia). cbn [mbind outcome_bind Nat.add]. change (take 0 buf ++ ?y) with y.
  intros E. (match type of E with Ok ?t = _ => assert (s' = t) as -> by congruence end). clear E.
  assert (next_slot_of s < length (send_slots_ s))%nat as Hlt by (destruct H5 as [-> _]; apply next_slot).
  unfold kernel_send. cbn [ring_ set_ring ops submit set_send negb]. rewrite (lookup_app_l_Some _ _ _ _ Hk).
  cbn [ring_ set_ring sent complete send_slots_ set_send]. rewrite list_lookup_insert_eq by done.
  cbn [default from_option id]. by rewrite take_app_length.
Qed.

(** ** A sample run *)

Definition sample_answers : answers :=
  {| a_send_fd := 5; a_recv_fd := 6; a_bind := true; a_queue := true; a_sqe := fun _ => true |}.

Lemma sample_opens : exists s0, open sample_answers construct = Ok s0 /\ ready_ s0 = true.
Proof. unfold open. rewrite arm_all. eexists. split; reflexivity. Qed.

Lemma iouring_receives_witness :
  exists s0 s1 x, open sample_answers construct = Ok s0 /\
    run [KernelRecv 0 (Some [z2b 1; z2b 2]); KernelRecv 3 None; Completion true; Completion true] s0 = Ok s1 /\
    delivered s1 = x /\ in_use s1 ≡ₚ seq 0 64.
Proof.
  destruct sample_opens as (s0 & Ho & Hr).
  destruct (iouring_receives sample_answers construct s0
    [KernelRecv 0 (Some [z2b 1; z2b 2]); KernelRecv 3 None; Completion true; Completion true] Ho Hr)
    as (s1 & H1 & (x & H2 & _) & H3).
  exists s0, s1, x. split; [exact Ho|]. split; [exact H1|]. split; [exact H2|]. apply H3; [repeat constructor|reflexivity].
Defined.

Lemma iouring_sends_witness :
  exists s0 s1 x, open sample_answers construct = Ok s0 /\
    run [Write [z2b 7; z2b 8] true; KernelSend 64] s0 = Ok s1 /\ sent (ring_ s1) = x /\
    omap accepted [Write [z2b 7; z2b 8] true; KernelSend 64] ≡ₚ x ++ omap (pending (send_slots_ s1)) (ops (ring_ s1)).
Proof.
  destruct sample_opens as (s0 & Ho & Hr).
  pose proof (open_ready _ _ _ Ho Hr) as (Hwf & _ & Hops & _).
  destruct (uring_run_ok _ _ [Write [z2b 7; z2b 8] true; KernelSend 64] s0 Hwf) as (s1 & Hrun & _ & _).
  destruct (iouring_sends sample_answers construct s0 [Write [z2b 7; z2b 8] true; KernelSend 64] s1 Ho Hr Hrun)
    as (x & H1 & _ & H2).
  - split.
    + intros len. rewrite Hops, list_elem_of_In, in_map_iff. intros (i & Hi & _). discriminate Hi.
    + destruct (step _ s0); [|exact I..]. split; [exact I|]. destruct (step _ _); exact I.
  - exists s0, s1, x. split; [exact Ho|]. split; [exact Hrun|]. split; [exact H1|exact H2].
Defined.

(** ** Descriptors *)

Definition is_open (fd : Z) : bool := 0 <=? fd.

(** Every descriptor opened was closed, or is a member. *)
Definition fds_ok (s : IoUringInterface) : Prop :=
  s.(opened) ≡ₚ s.(closed) ++ List.filter is_open [s.(send_fd_); s.(recv_fd_)].

Lemma open_fds a s s0 :
  fds_ok s -> s.(send_fd_) < 0 -> s.(recv_fd_) < 0 -> open a s = Ok s0 -> fds_ok s0.
Proof.
  unfold fds_ok, is_open. intros H Hs Hr. unfold open. cbv zeta. set (s1 := setup_sockets a _).
  assert (opened s1 ≡ₚ closed s1 ++ List.filter is_open [s1.(send_fd_); s1.(recv_fd_)]) as H1.
  { cbn [List.filter] in H. rewrite (proj2 (Z.leb_gt _ _) Hs), (proj2 (Z.leb_gt _ _) Hr), app_nil_r in H.
    subst s1. unfold setup_sockets. case_test; [cbn; by rewrite H|]. case_test; cbn; by rewrite H. }
  clearbody s1. destruct (failed_ s1); [intros [= <-]; exact H1|].
  destruct (a_queue a); cbn [negb]; [|intros [= <-]; exact H1].
  rewrite arm_all. set (s2 := set_ring _ _). destruct (joinable s2); [done|]. intros E.
  match type of E with Ok ?x = _ => assert (s0 = x) as -> by congruence end. exact H1.
Qed.

Lemma close_fds s : fds_ok s -> opened (close s) ≡ₚ closed (close s) /\ send_fd_ (close s) = -1 /\ recv_fd_ (close s) = -1.
Proof.
  unfold fds_ok, is_open. intros H. split; [|done]. cbn [close opened closed]. rewrite H. apply Permutation_app_head.
  cbn [List.filter]. destruct (0 <=? send_fd_ s), (0 <=? recv_fd_ s); try done. apply perm_swap.
Qed.

End IoUring.
