(* ===== verification/NetworkInterfaces.v ===== *)
(** * What the bridge needs of a network interface ([src/include/network_interfaces/network_interface_base.hpp])

    The virtual operations of the base class as a class of operations
    ([NetworkInterface]), and its documented promises in two forms:
    [Restartable], an interface that failed can be closed and opened again,
    and nothing goes wrong between; [Transport], what is written on one side
    is what the callback of the other side gets.  The bridge ([BridgeNode.v])
    is proved against these classes; here the three interfaces discharge
    them, as far as they keep the promises.

    TCP and io_uring are restartable, TCP as long as the context runs the
    handlers of cancelled operations before it is stopped.  UDP never reports
    a failure, which makes it restartable only because it is never restarted.
    TCP (between hosts of one byte order) and UDP (on a network that neither
    loses nor reorders) are transports; io_uring leaves the order of the
    sends to the kernel and is none. *)

From S2P Require Export TcpInterface UdpInterface IoUring.

Module NetworkInterfaces.

(** The virtual operations.  [answers], [closing] and [io] are what the system
    answers to [open], [close] and [write]; [event] is what the threads of
    the interface do. *)
Class NetworkInterface (I : Type) := {
  answers : Type;
  closing : Type;
  io : Type;
  event : Type;
  has_failed : I -> bool;
  is_ready : I -> bool;
  open : answers -> I -> outcome I;
  close : closing -> I -> outcome I;
  write : io -> list byte -> I -> outcome I;
  step : event -> I -> outcome I
}.

(** [idle]: can be opened; [live]: was opened.  [harmless] answers do not end
    the process, [fine] ones let it open; [calm] events do not end the process. *)
Class Restartable (I : Type) `{NetworkInterface I} := {
  idle : I -> Prop;
  live : I -> Prop;
  harmless : answers -> Prop;
  fine : answers -> Prop;
  clean : closing -> Prop;
  calm : event -> Prop;
  open_live a i : idle i -> harmless a ->
    exists i', open a i = Ok i' /\ live i' /\ (fine a -> has_failed i' = false);
  step_live ev i : live i -> calm ev -> exists i', step ev i = Ok i' /\ live i';
  write_live w data i : live i -> exists i', write w data i = Ok i' /\ live i';
  close_live c i : live i -> clean c -> exists i', close c i = Ok i' /\ (has_failed i = true -> idle i');
  close_twice c c' i i' : live i -> clean c -> clean c' -> close c i = Ok i' -> exists i'', close c' i' = Ok i'';
  ready_not_failed i : is_ready i = true -> has_failed i = false
}.

(** Payloads written on one side and handed to the callback on the other. *)
Class Transport (link : list (list byte) -> list (list byte) -> Prop) (fits : list byte -> Prop) : Prop := {
  link_total ps : Forall fits ps -> exists qs, link ps qs;
  link_exact ps qs : Forall fits ps -> link ps qs -> qs = ps
}.

(** ** TCP *)

Section Tcp.
Context (little : bool).

#[global] Instance tcp_interface : NetworkInterface TcpInterface.TcpInterface := {
  answers := TcpInterface.answers;
  closing := bool;
  io := list (option nat);
  event := TcpInterface.event;
  has_failed := TcpInterface.has_failed;
  is_ready := TcpInterface.is_ready;
  open := TcpInterface.open;
  close := TcpInterface.close;
  write w data t := res ← TcpInterface.write little w data t; Ok res.1;
  step := TcpInterface.step
}.

#[global] Instance tcp_restartable : Restartable TcpInterface.TcpInterface.
Proof.
  refine {| idle := TcpInterface.closed; live := TcpInterface.live; harmless := TcpInterface.harmless;
            fine := fun _ => True; clean := fun ran => ran = true; calm := TcpInterface.calm |}; cbn.
  - intros a t Hc Ha. destruct (TcpInterface.tcp_open a t Hc Ha) as (t' & E & Hl & Hf). by exists t'.
  - apply TcpInterface.tcp_step.
  - intros w data t Hl. destruct (TcpInterface.tcp_write little w data t Hl) as (t' & bytes & -> & Hl'). by exists t'.
  - intros c t Hl ->. destruct (TcpInterface.tcp_close t Hl) as (t' & E & Hc & _). by exists t'.
  - intros c c' t t1 Hl -> -> E. destruct (TcpInterface.tcp_close t Hl) as (t' & E' & [_ Hj Ha] & _).
    assert (t1 = t') as -> by congruence. unfold TcpInterface.close. cbn [TcpInterface.joinable]. rewrite Hj. by eexists.
  - intros t. unfold TcpInterface.is_ready, TcpInterface.has_failed. by destruct (TcpInterface.ready_ t), (TcpInterface.failed_ t).
Defined.

(** A connection between two hosts of one byte order; the stream arrives in
    chunks, and is shut down after them. *)
Definition tcp_link (ps qs : list (list byte)) : Prop :=
  exists t t' w n fuel, TcpInterface.socket_ t = true /\ TcpInterface.write_all little ps t = Ok (t', QueueStream.total w) /\
    QueueStream.running w /\ TcpInterface.receive_thread little fuel 0 n w = Ok (TcpInterface.Exited, qs).

Definition tcp_fits (p : list byte) : Prop := Z.of_nat (length p) < 2 ^ 32.

#[global] Instance tcp_transport : Transport tcp_link tcp_fits.
Proof.
  split.
  - intros ps Hps. exists ps. set (t := TcpInterface.set_socket true (TcpInterface.load_parameters "client" (TcpInterface.construct false))).
    set (bytes := concat (map (TcpInterface.wire little) ps)).
    exists t, t, {| QueueStream.stream := QueueStream.construct;
                    QueueStream.incoming := if bytes is [] then [] else [bytes] |}, 0, (4 * length ps + 2)%nat.
    assert (QueueStream.total {| QueueStream.stream := QueueStream.construct;
              QueueStream.incoming := if bytes is [] then [] else [bytes] |} = bytes) as Ht.
    { unfold QueueStream.total. cbn. destruct bytes; [done|]. cbn. by rewrite app_nil_r. }
    assert (QueueStream.running {| QueueStream.stream := QueueStream.construct;
              QueueStream.incoming := if bytes is [] then [] else [bytes] |}) as Hr.
    { split; [done|]. cbn. destruct bytes; [constructor|]. by constructor. }
    split; [done|]. split; [by rewrite Ht; apply TcpInterface.write_all_wire|]. split; [exact Hr|].
    apply TcpInterface.receive_wires; try done.
  - intros ps qs Hps (t & t' & w & n & fuel & Hs & Hw & Hr & He).
    rewrite TcpInterface.write_all_wire in Hw by done. injection Hw as _ Ht.
    pose proof (TcpInterface.receive_thread_more little (4 * length ps + 2) _ _ _ _ _ He) as E1.
    rewrite (TcpInterface.receive_wires little ps w n) in E1 by (done || lia). congruence.
Qed.

End Tcp.

(** ** UDP *)

#[global] Instance udp_interface : NetworkInterface UdpInterface.UdpInterface := {
  answers := UdpInterface.error_codes;
  closing := unit;
  io := unit;
  event := UdpInterface.event;
  has_failed := UdpInterface.has_failed;
  is_ready := UdpInterface.is_ready;
  open := UdpInterface.open;
  close _ u := Ok (UdpInterface.close u);
  write _ data u := Ok (UdpInterface.write data u);
  step := UdpInterface.step
}.

(** The receive buffer is as long as the library is told. *)
Definition udp_buffer (u : UdpInterface.UdpInterface) : Prop :=
  length (UdpInterface.receive_buffer_ u) = UdpInterface.buffer_size.

(** Never opened. *)
Record udp_new (u : UdpInterface.UdpInterface) : Prop := {
  new_sockets : UdpInterface.send_open u = false /\ UdpInterface.receive_open u = false;
  new_thread : UdpInterface.joinable u = false;
  new_buffer : udp_buffer u
}.

Lemma udp_open u : udp_new u -> exists u', UdpInterface.open UdpInterface.no_errors u = Ok u' /\ udp_buffer u'.
Proof.
  unfold udp_buffer. destruct u as [la rp ra sp st jo so ro ar buf del snt]. intros [[Hs Hr] Hj Hb].
  cbn [UdpInterface.send_open UdpInterface.receive_open UdpInterface.joinable] in *. subst. by eexists.
Qed.

Lemma udp_step_buffer ev u : udp_buffer u -> exists u', UdpInterface.step ev u = Ok u' /\ udp_buffer u'.
Proof.
  unfold udp_buffer. intros Hb. destruct ev as [d|n|data|]; cbn [UdpInterface.step].
  - destruct (UdpInterface.running u); [|by exists u]. set (d' := take UdpInterface.buffer_size d).
    assert (length d' <= UdpInterface.buffer_size)%nat as Hd by (subst d'; rewrite length_take; lia). clearbody d'.
    assert (length (d' ++ drop (length d') (UdpInterface.receive_buffer_ u)) = UdpInterface.buffer_size) as Hl
      by (rewrite length_app, length_drop; lia).
    unfold UdpInterface.receive. destruct (length d') as [|k] eqn:Ek; [by eexists|].
    cbn [negb UdpInterface.receive_buffer_ UdpInterface.set_sockets UdpInterface.set_logs]. rewrite <- Ek in *.
    rewrite rd_range_prefix by done. cbn [mbind outcome_bind]. by eexists.
  - destruct (UdpInterface.running u); [|by exists u]. by destruct n; eexists.
  - unfold UdpInterface.write. destruct (negb _); by eexists.
  - by eexists.
Qed.

#[global] Instance udp_restartable : Restartable UdpInterface.UdpInterface.
Proof.
  refine {| idle := udp_new; live := udp_buffer; harmless := fun a => a = UdpInterface.no_errors;
            fine := fun _ => True; clean := fun _ => True; calm := fun _ => True |}; cbn.
  - intros a u Hu ->. destruct (udp_open u Hu) as (u' & E & Hb). by exists u'.
  - intros ev u Hu _. by apply udp_step_buffer.
  - intros w data u Hu. unfold UdpInterface.write. destruct (negb _); by eexists.
  - intros c u Hu _. by exists (UdpInterface.close u).
  - intros c c' u u' _ _ _ _. by exists (UdpInterface.close u').
  - done.
Defined.

(** A network that hands over the datagrams as they were sent. *)
Definition udp_link (ps qs : list (list byte)) : Prop :=
  exists la rp ra sp la' rp' ra' sp' e e' s0 s r0 r,
    UdpInterface.open e (UdpInterface.initialize la rp ra sp) = Ok s0 /\
    UdpInterface.run (map UdpInterface.Write ps) s0 = Ok s /\
    UdpInterface.open e' (UdpInterface.initialize la' rp' ra' sp') = Ok r0 /\
    UdpInterface.run (map UdpInterface.Datagram (UdpInterface.sent s)) r0 = Ok r /\
    qs = UdpInterface.delivered r.

Definition udp_fits (p : list byte) : Prop := 0 < Z.of_nat (length p) <= 65536.

Lemma omap_payload ps : Forall udp_fits ps -> omap UdpInterface.payload (map UdpInterface.Datagram ps) = ps.
Proof.
  induction 1 as [|p ps [H1 H2] _ IH]; [done|]. cbn [map omap list_omap UdpInterface.payload].
  rewrite bool_decide_false by (by intros ->). fold (omap UdpInterface.payload (map UdpInterface.Datagram ps)). rewrite IH.
  rewrite take_ge; [done|]. unfold UdpInterface.buffer_size. lia.
Qed.

Lemma omap_output ps : omap UdpInterface.output (map UdpInterface.Write ps) = ps.
Proof. induction ps as [|p ps IH]; [done|]. cbn. by f_equal. Qed.

Lemma plain_events (f : list byte -> UdpInterface.event) ps :
  (forall p, UdpInterface.ends (f p) = false) -> Forall (fun ev => UdpInterface.ends ev = false) (map f ps).
Proof. intros H. by induction ps; constructor. Qed.

Lemma udp_opens la rp ra sp e u0 : UdpInterface.open e (UdpInterface.initialize la rp ra sp) = Ok u0 ->
  forall evs, Forall (fun ev => UdpInterface.ends ev = false) evs -> exists u, UdpInterface.run evs u0 = Ok u /\
    UdpInterface.delivered u = omap UdpInterface.payload evs /\ UdpInterface.sent u = omap UdpInterface.output evs.
Proof.
  intros Ho evs He. destruct (UdpInterface.open_live e _ u0 Ho) as (Hl & Hd & Hs); [done|apply length_replicate|].
  destruct (UdpInterface.udp_run evs u0 Hl) as (u & E & H1 & H2 & _). exists u.
  by rewrite H1, H2, Hd, Hs, UdpInterface.heard_all.
Qed.

#[global] Instance udp_transport : Transport udp_link udp_fits.
Proof.
  split.
  - intros ps Hps. destruct (udp_open (UdpInterface.initialize "" 0 "" 0)) as (s0 & Ho & _);
      [constructor; [done|done|apply length_replicate]|].
    destruct (udp_opens _ _ _ _ _ _ Ho (map UdpInterface.Write ps)) as (s & Hs & _); [by apply plain_events|].
    destruct (udp_opens _ _ _ _ _ _ Ho (map UdpInterface.Datagram (UdpInterface.sent s))) as (r & Hr & _); [by apply plain_events|].
    exists (UdpInterface.delivered r), ""%string, 0, ""%string, 0, ""%string, 0, ""%string, 0.
    by exists UdpInterface.no_errors, UdpInterface.no_errors, s0, s, s0, r.
  - intros ps qs Hps (la & rp & ra & sp & la' & rp' & ra' & sp' & e & e' & s0 & s & r0 & r & Hs0 & Hs & Hr0 & Hr & ->).
    destruct (udp_opens _ _ _ _ _ _ Hs0 (map UdpInterface.Write ps)) as (s' & Es & _ & H1); [by apply plain_events|].
    assert (s' = s) as -> by congruence. rewrite omap_output in H1. rewrite H1 in Hr.
    destruct (udp_opens _ _ _ _ _ _ Hr0 (map UdpInterface.Datagram ps)) as (r' & Er & H2 & _); [by apply plain_events|].
    assert (r' = r) as -> by congruence. rewrite H2. by apply omap_payload.
Qed.

(** ** io_uring *)

#[global] Instance uring_interface : NetworkInterface IoUring.IoUringInterface := {
  answers := IoUring.answers;
  closing := unit;
  io := bool;
  event := IoUring.event;
  has_failed := IoUring.has_failed;
  is_ready := IoUring.is_ready;
  open := IoUring.open;
  close _ s := Ok (IoUring.close s);
  write := IoUring.write;
  step := IoUring.step
}.

(** Working, or with its operations switched off. *)
Definition uring_on (s : IoUring.IoUringInterface) : Prop := exists A D, IoUring.wf A D s.
Definition uring_off (s : IoUring.IoUringInterface) : Prop := IoUring.ready_ s = false /\ IoUring.running_ s = false.

(** Descriptors are accounted for in every state. *)
Definition uring_live (s : IoUring.IoUringInterface) : Prop := IoUring.fds_ok s /\ (uring_on s \/ uring_off s).

Record uring_idle (s : IoUring.IoUringInterface) : Prop := {
  idle_off : uring_off s;
  idle_thread : IoUring.joinable s = false;
  idle_fds : IoUring.send_fd_ s < 0 /\ IoUring.recv_fd_ s < 0;
  idle_closed : IoUring.fds_ok s
}.

(** All calls succeed. *)
Definition uring_fine (a : IoUring.answers) : Prop :=
  0 <= IoUring.a_send_fd a /\ 0 <= IoUring.a_recv_fd a /\ IoUring.a_bind a = true /\ IoUring.a_queue a = true.

Lemma setup_sockets_fields a s :
  let s' := IoUring.setup_sockets a s in
  IoUring.ready_ s' = IoUring.ready_ s /\ IoUring.running_ s' = IoUring.running_ s /\ IoUring.joinable s' = IoUring.joinable s /\
  (uring_fine a -> IoUring.failed_ s' = IoUring.failed_ s).
Proof.
  unfold IoUring.setup_sockets, uring_fine. destruct (_ || _) eqn:E; [|destruct (IoUring.a_bind a); cbn; by intuition].
  cbn. apply orb_true_iff in E. rewrite !Z.ltb_lt in E. intuition lia.
Qed.

Lemma uring_open a s : uring_idle s ->
  exists s', IoUring.open a s = Ok s' /\ uring_live s' /\ (uring_fine a -> IoUring.failed_ s' = false).
Proof.
  intros [[Hr Hn] Hj [Hs1 Hs2] Hfd].
  assert (exists s', IoUring.open a s = Ok s' /\ (IoUring.ready_ s' = true \/ uring_off s') /\
            (uring_fine a -> IoUring.failed_ s' = false)) as (s' & E & Hon & Hf).
  { unfold IoUring.open. cbv zeta. match goal with |- context [IoUring.setup_sockets a ?s1] =>
      pose proof (setup_sockets_fields a s1) as F; set (s2 := IoUring.setup_sockets a s1) in * end.
    cbn in F. clearbody s2. destruct F as (F1 & F2 & F3 & F4). rewrite Hn in F2. rewrite Hj in F3.
    destruct (IoUring.failed_ s2) eqn:Ef.
    { exists s2. split; [done|]. split; [by right|]. intros Ha. by specialize (F4 Ha). }
    destruct (IoUring.a_queue a) eqn:Eq; cbn [negb].
    - rewrite IoUring.arm_all. set (s3 := IoUring.set_ring _ _). assert (IoUring.joinable s3 = false) as -> by exact F3.
      eexists. split; [done|]. split; [by left|]. by intros _.
    - eexists. split; [done|]. split; [by right|]. intros (_ & _ & _ & Hq). by rewrite Hq in Eq. }
  exists s'. split; [exact E|]. split; [|exact Hf]. split; [by apply (IoUring.open_fds a s)|].
  destruct Hon as [Hon|Hoff]; [left|by right]. by eexists _, _; apply (IoUring.open_ready a s s').
Qed.

(** No operation but [open] and [close] touches the descriptors and the flags. *)
Definition uring_frame (s s' : IoUring.IoUringInterface) : Prop :=
  (IoUring.opened s', IoUring.closed s', IoUring.send_fd_ s', IoUring.recv_fd_ s', IoUring.ready_ s', IoUring.running_ s') =
  (IoUring.opened s, IoUring.closed s, IoUring.send_fd_ s, IoUring.recv_fd_ s, IoUring.ready_ s, IoUring.running_ s).

Lemma uring_step_frame ev s s' : IoUring.step ev s = Ok s' -> uring_frame s s'.
Proof.
  destruct ev as [data sqe|sqe|k|k d]; cbn [IoUring.step].
  - unfold IoUring.write. case_test; [by intros [= <-]|]. case_test; [by intros [= <-]|].
    unfold IoUring.acquire_send_slot. destruct (IoUring.send_slots_ _ !! _) as [buf|]; [|done].
    destruct (store 0 data buf) as [buf'| |]; cbn [mbind outcome_bind]; try done. destruct sqe; cbn [negb]; by intros [= <-].
  - unfold IoUring.completion. case_test; [by intros [= <-]|].
    destruct (IoUring.cq (IoUring.ring_ s)) as [|[[i|i] res] rest]; [by intros [= <-]| |by intros [= <-]].
    destruct (IoUring.recv_slots_ _ !! i) as [buf|]; [|done].
    destruct (if 0 <? res then _ else _) as [d| |]; cbn [mbind outcome_bind]; try done.
    unfold IoUring.arm_recv, IoUring.submit. destruct sqe; by intros [= <-].
  - intros [= <-]. unfold IoUring.kernel_send. by destruct (IoUring.ops (IoUring.ring_ s) !! k) as [[]|].
  - intros [= <-]. unfold IoUring.kernel_recv. destruct (IoUring.ops (IoUring.ring_ s) !! k) as [[]|]; [|done..]. by destruct d.
Qed.

Lemma uring_step ev s : uring_live s -> exists s', IoUring.step ev s = Ok s' /\ uring_live s'.
Proof.
  intros [Hfd Hs].
  assert (exists s', IoUring.step ev s = Ok s' /\ (uring_on s' \/ uring_off s')) as (s' & E & Hs').
  { destruct Hs as [(A & D & Hwf)|[Hr Hn]].
    - destruct (IoUring.uring_step_ok A D ev s Hwf) as (s' & E & Hwf' & _). exists s'. split; [exact E|]. left. by exists A, D.
    - destruct ev as [data sqe|sqe|k|k d]; cbn [IoUring.step].
      + unfold IoUring.write. rewrite Hr. exists s. split; [done|]. by right.
      + unfold IoUring.completion. rewrite Hn. exists s. split; [done|]. by right.
      + eexists. split; [done|]. right. unfold IoUring.kernel_send. by destruct (IoUring.ops (IoUring.ring_ s) !! k) as [[]|].
      + eexists. split; [done|]. right. unfold IoUring.kernel_recv. destruct (IoUring.ops (IoUring.ring_ s) !! k) as [[]|]; [|done..].
        by destruct d. }
  exists s'. split; [exact E|]. split; [|exact Hs'].
  pose proof (uring_step_frame ev s s' E) as [= E1 E2 E3 E4 E5 E6]. unfold IoUring.fds_ok. by rewrite E1, E2, E3, E4.
Qed.

Lemma uring_close s : IoUring.fds_ok s -> uring_idle (IoUring.close s).
Proof.
  intros Hfd. destruct (IoUring.close_fds s Hfd) as (H1 & H2 & H3). constructor; [done|done|by rewrite H2, H3|].
  unfold IoUring.fds_ok. rewrite H2, H3. by rewrite app_nil_r.
Qed.

Lemma uring_construct_idle : uring_idle IoUring.construct.
Proof. constructor; (done || constructor). Qed.

#[global] Instance uring_restartable : Restartable IoUring.IoUringInterface.
Proof.
  refine {| idle := uring_idle; live := uring_live; harmless := fun _ => True; fine := uring_fine;
            clean := fun _ => True; calm := fun _ => True |}; cbn.
  - intros a s Hs _. by apply uring_open.
  - intros ev s Hs _. by apply uring_step.
  - intros sqe data s Hs. by apply (uring_step (IoUring.Write data sqe) s).
  - intros c s [Hfd _] _. exists (IoUring.close s). split; [done|]. intros _. by apply uring_close.
  - intros c c' s s' _ _ _ _. by exists (IoUring.close s').
  - intros s. unfold IoUring.is_ready, IoUring.has_failed. by destruct (IoUring.ready_ s), (IoUring.failed_ s).
Defined.

End NetworkInterfaces.
