(* ===== verification/Faults.v ===== *)
(** * Fault injection ([src/faults/fault_types.hpp], [fault_engine.hpp], [fault_engine.cpp])

    The engine with its rules, generator, token bucket, held frame and queue
    of delayed frames.  The calls of [write_] and of the restart hook are
    logged in the state.  Parameters: the state of the generator and the two
    distributions (their algorithms are left open by the C++ standard; what
    is used is the documented range), the clock, and the queue's choice among
    frames due at one time.  The worker thread is a sequence of iterations
    between the operations of the caller.

    Results: every frame is accounted for; without corruption no frame is
    invented or repeated; delayed frames leave in the order of their due
    times; reordering swaps adjacent frames and keeps an odd one for ever. *)

From S2P Require Export Prelude Buffers CppDouble.

Module Faults.

Inductive FaultKind :=
| kNone | kDelay | kDrop | kDuplicate | kCorrupt | kReorder | kBurstLoss
| kBandwidthLimit | kEcuDisconnect | kProcessRestart.

#[global] Instance FaultKind_eq_dec : EqDecision FaultKind.
Proof. solve_decision. Defined.

Definition fault_kind_from_string (s : string) : FaultKind :=
  if bool_decide (s = "delay"%string) then kDelay
  else if bool_decide (s = "drop"%string) then kDrop
  else if bool_decide (s = "duplicate"%string) then kDuplicate
  else if bool_decide (s = "corrupt"%string) then kCorrupt
  else if bool_decide (s = "reorder"%string) then kReorder
  else if bool_decide (s = "burst"%string) || bool_decide (s = "burst_loss"%string) then kBurstLoss
  else if bool_decide (s = "bandwidth_limit"%string) then kBandwidthLimit
  else if bool_decide (s = "ecu_disconnect"%string) then kEcuDisconnect
  else if bool_decide (s = "process_restart"%string) then kProcessRestart
  else kNone.

Record FaultRule := mkFaultRule {
  kind : FaultKind;
  stream : string;
  start_s : double;
  duration_s : double;
  delay_ms : double;
  drop_rate : double;
  bandwidth_kbps : double;
  corrupt_bits : Z;
  seed : Z
}.

Definition FaultRule_default : FaultRule :=
  {| kind := kNone; stream := ""; start_s := d_zero; duration_s := d_zero; delay_ms := d_zero;
     drop_rate := d_zero; bandwidth_kbps := d_zero; corrupt_bits := 4; seed := 1 |}.

(** [a >= b] of doubles. *)
Definition d_ge (a b : double) : bool := d_le b a.

Definition active_at (r : FaultRule) (t_s : double) : bool :=
  d_ge t_s r.(start_s) && d_lt t_s (d_add r.(start_s) r.(duration_s)).

Definition matches (r : FaultRule) (s : string) : bool :=
  bool_decide (r.(stream) = ""%string) || bool_decide (r.(stream) = s).

Record FaultStats := mkFaultStats {
  forwarded : Z;
  dropped : Z;
  duplicated : Z;
  corrupted : Z;
  reordered : Z;
  delayed : Z
}.

Definition FaultStats_default : FaultStats := mkFaultStats 0 0 0 0 0 0.

Definition inc_forwarded (s : FaultStats) :=
  mkFaultStats (u64 (s.(forwarded) + 1)) s.(dropped) s.(duplicated) s.(corrupted) s.(reordered) s.(delayed).
Definition inc_dropped (s : FaultStats) :=
  mkFaultStats s.(forwarded) (u64 (s.(dropped) + 1)) s.(duplicated) s.(corrupted) s.(reordered) s.(delayed).
Definition inc_duplicated (s : FaultStats) :=
  mkFaultStats s.(forwarded) s.(dropped) (u64 (s.(duplicated) + 1)) s.(corrupted) s.(reordered) s.(delayed).
Definition inc_corrupted (s : FaultStats) :=
  mkFaultStats s.(forwarded) s.(dropped) s.(duplicated) (u64 (s.(corrupted) + 1)) s.(reordered) s.(delayed).
Definition inc_reordered (s : FaultStats) :=
  mkFaultStats s.(forwarded) s.(dropped) s.(duplicated) s.(corrupted) (u64 (s.(reordered) + 1)) s.(delayed).
Definition inc_delayed (s : FaultStats) :=
  mkFaultStats s.(forwarded) s.(dropped) s.(duplicated) s.(corrupted) s.(reordered) (u64 (s.(delayed) + 1)).

Record Delayed := mkDelayed { due_ns : double; data : list byte }.

(** The engine; [reads] counts the readings of the clock, [written] and
    [restarts] are the calls of [write_] and of the hook so far. *)
Record FaultEngine (G : Type) := mkFaultEngine {
  has_write : bool;
  has_hook : bool;
  rules_ : list FaultRule;
  rng_ : G;
  held_ : option (list byte);          (** [has_held_] and [held_] *)
  tokens_bytes_ : double;
  last_refill_ns_ : double;
  restarted_this_window_ : list string;
  delayed_ : list Delayed;
  stop_ : bool;
  stats_ : FaultStats;
  reads : nat;
  written : list (list byte);
  restarts : list string
}.
Arguments mkFaultEngine {G}.
Arguments has_write {G}. Arguments has_hook {G}. Arguments rules_ {G}. Arguments rng_ {G}.
Arguments held_ {G}. Arguments tokens_bytes_ {G}. Arguments last_refill_ns_ {G}.
Arguments restarted_this_window_ {G}. Arguments delayed_ {G}. Arguments stop_ {G}.
Arguments stats_ {G}. Arguments reads {G}. Arguments written {G}. Arguments restarts {G}.

Section Engine.
Context {G : Type}.

Definition set_rng g (e : FaultEngine G) : FaultEngine G :=
  mkFaultEngine e.(has_write) e.(has_hook) e.(rules_) g e.(held_) e.(tokens_bytes_) e.(last_refill_ns_)
    e.(restarted_this_window_) e.(delayed_) e.(stop_) e.(stats_) e.(reads) e.(written) e.(restarts).
Definition set_held h (e : FaultEngine G) : FaultEngine G :=
  mkFaultEngine e.(has_write) e.(has_hook) e.(rules_) e.(rng_) h e.(tokens_bytes_) e.(last_refill_ns_)
    e.(restarted_this_window_) e.(delayed_) e.(stop_) e.(stats_) e.(reads) e.(written) e.(restarts).
Definition set_bucket t l (e : FaultEngine G) : FaultEngine G :=
  mkFaultEngine e.(has_write) e.(has_hook) e.(rules_) e.(rng_) e.(held_) t l
    e.(restarted_this_window_) e.(delayed_) e.(stop_) e.(stats_) e.(reads) e.(written) e.(restarts).
Definition set_restarted ss hs (e : FaultEngine G) : FaultEngine G :=
  mkFaultEngine e.(has_write) e.(has_hook) e.(rules_) e.(rng_) e.(held_) e.(tokens_bytes_) e.(last_refill_ns_)
    ss e.(delayed_) e.(stop_) e.(stats_) e.(reads) e.(written) hs.
Definition set_delayed q (e : FaultEngine G) : FaultEngine G :=
  mkFaultEngine e.(has_write) e.(has_hook) e.(rules_) e.(rng_) e.(held_) e.(tokens_bytes_) e.(last_refill_ns_)
    e.(restarted_this_window_) q e.(stop_) e.(stats_) e.(reads) e.(written) e.(restarts).
Definition set_stop b (e : FaultEngine G) : FaultEngine G :=
  mkFaultEngine e.(has_write) e.(has_hook) e.(rules_) e.(rng_) e.(held_) e.(tokens_bytes_) e.(last_refill_ns_)
    e.(restarted_this_window_) e.(delayed_) b e.(stats_) e.(reads) e.(written) e.(restarts).
Definition on_stats f (e : FaultEngine G) : FaultEngine G :=
  mkFaultEngine e.(has_write) e.(has_hook) e.(rules_) e.(rng_) e.(held_) e.(tokens_bytes_) e.(last_refill_ns_)
    e.(restarted_this_window_) e.(delayed_) e.(stop_) (f e.(stats_)) e.(reads) e.(written) e.(restarts).
Definition count_read (e : FaultEngine G) : FaultEngine G :=
  mkFaultEngine e.(has_write) e.(has_hook) e.(rules_) e.(rng_) e.(held_) e.(tokens_bytes_) e.(last_refill_ns_)
    e.(restarted_this_window_) e.(delayed_) e.(stop_) e.(stats_) (S e.(reads)) e.(written) e.(restarts).
Definition log_write d (e : FaultEngine G) : FaultEngine G :=
  mkFaultEngine e.(has_write) e.(has_hook) e.(rules_) e.(rng_) e.(held_) e.(tokens_bytes_) e.(last_refill_ns_)
    e.(restarted_this_window_) e.(delayed_) e.(stop_) e.(stats_) e.(reads) (e.(written) ++ [d]) e.(restarts).
Definition add_rule r (e : FaultEngine G) : FaultEngine G :=
  mkFaultEngine e.(has_write) e.(has_hook) (e.(rules_) ++ [r]) e.(rng_) e.(held_) e.(tokens_bytes_)
    e.(last_refill_ns_) e.(restarted_this_window_) e.(delayed_) e.(stop_) e.(stats_) e.(reads) e.(written) e.(restarts).
Definition set_restart_hook b (e : FaultEngine G) : FaultEngine G :=
  mkFaultEngine e.(has_write) b e.(rules_) e.(rng_) e.(held_) e.(tokens_bytes_) e.(last_refill_ns_)
    e.(restarted_this_window_) e.(delayed_) e.(stop_) e.(stats_) e.(reads) e.(written) e.(restarts).

(** The constructor; [g] is the generator seeded with [seed]. *)
Definition construct (write : bool) (g : G) : FaultEngine G :=
  {| has_write := write; has_hook := false; rules_ := []; rng_ := g; held_ := None;
     tokens_bytes_ := d_zero; last_refill_ns_ := d_zero; restarted_this_window_ := [];
     delayed_ := []; stop_ := false; stats_ := FaultStats_default;
     reads := 0; written := []; restarts := [] |}.

Definition stats (e : FaultEngine G) : FaultStats := e.(stats_).

(** [uniform_real_distribution(0, 1)] and [uniform_int_distribution(lo, hi)],
    the clock's readings, and [top]/[pop] of the priority queue. *)
Context (uniform_real : G -> double * G)
        (uniform_int : Z -> Z -> G -> Z * G)
        (clock : nat -> double)
        (pop : list Delayed -> option (Delayed * list Delayed)).

Definition now_ns (e : FaultEngine G) : double * FaultEngine G := (clock e.(reads), count_read e).

Definition emit (data : list byte) (e : FaultEngine G) : FaultEngine G :=
  let e := if e.(has_write) then log_write data e else e in
  on_stats inc_forwarded e.

Definition max_delay (active : list FaultRule) : double :=
  foldl (fun delay r =>
    if bool_decide (r.(kind) = kDelay)
    then (if d_lt delay r.(delay_ms) then r.(delay_ms) else delay)
    else delay) d_zero active.

Definition dispatch_or_delay (payload : list byte) (active : list FaultRule) (e : FaultEngine G) :
    FaultEngine G :=
  let delay := max_delay active in
  if d_le delay d_zero then emit payload e
  else
    let '(now, e) := now_ns e in
    let e := set_delayed (e.(delayed_) ++ [{| due_ns := d_add now (d_mul delay (d_of_Z 1000000));
                                              data := payload |}]) e in
    on_stats inc_delayed e.

(** The restart hook fires once until the tracking of the stream is cleared. *)
Definition fire_restart (s : string) (e : FaultEngine G) (r : FaultRule) : FaultEngine G :=
  if bool_decide (r.(kind) = kProcessRestart) then
    if bool_decide (s ∈ e.(restarted_this_window_)) then e
    else set_restarted (e.(restarted_this_window_) ++ [s])
           (if e.(has_hook) then e.(restarts) ++ [s] else e.(restarts)) e
  else e.

Definition track_restarts (s : string) (active : list FaultRule) (e : FaultEngine G) : FaultEngine G :=
  let e := foldl (fire_restart s) e active in
  match active with
  | [] => set_restarted (List.filter (fun x => negb (bool_decide (x = s))) e.(restarted_this_window_))
            e.(restarts) e
  | _ => e
  end.

Definition suppressed (active : list FaultRule) : bool :=
  existsb (fun r => bool_decide (r.(kind) = kEcuDisconnect) || bool_decide (r.(kind) = kBurstLoss)) active.

(** The probabilistic drop: [true] when the frame is gone. *)
Fixpoint drop_loop (active : list FaultRule) (e : FaultEngine G) : FaultEngine G * bool :=
  match active with
  | [] => (e, false)
  | r :: active =>
    if bool_decide (r.(kind) = kDrop) && d_lt d_zero r.(drop_rate) then
      let '(x, g) := uniform_real e.(rng_) in
      let e := set_rng g e in
      if d_lt x r.(drop_rate) then (e, true) else drop_loop active e
    else drop_loop active e
  end.

(** The token bucket. *)
Fixpoint bandwidth_loop (size : Z) (active : list FaultRule) (e : FaultEngine G) : FaultEngine G * bool :=
  match active with
  | [] => (e, false)
  | r :: active =>
    if bool_decide (r.(kind) = kBandwidthLimit) && d_lt d_zero r.(bandwidth_kbps) then
      let '(now, e) := now_ns e in
      let cap_bytes := d_div (d_mul r.(bandwidth_kbps) (d_of_Z 1000)) (d_of_Z 8) in
      let e := if d_eq e.(last_refill_ns_) d_zero then set_bucket cap_bytes now e else e in
      let elapsed_s := d_div (d_sub now e.(last_refill_ns_)) (d_of_Z 1000000000) in
      let refilled := d_add e.(tokens_bytes_) (d_mul elapsed_s cap_bytes) in
      let e := set_bucket (if d_lt refilled cap_bytes then refilled else cap_bytes) now e in
      if d_lt e.(tokens_bytes_) (d_of_Z size) then (e, true)
      else bandwidth_loop size active
             (set_bucket (d_sub e.(tokens_bytes_) (d_of_Z size)) e.(last_refill_ns_) e)
    else bandwidth_loop size active e
  end.

(** [n] bit flips: the bit is drawn before the position. *)
Fixpoint flip_bits (n : nat) (payload : list byte) (g : G) : outcome (list byte * G) :=
  match n with
  | O => Ok (payload, g)
  | S n =>
    let '(bit, g) := uniform_int 0 7 g in
    let '(pos, g) := uniform_int 0 (Z.of_nat (length payload) - 1) g in
    match payload !! Z.to_nat pos with
    | Some b =>
      if pos <? 0 then OutOfBounds
      else flip_bits n (<[Z.to_nat pos := z2b (b2z b ^^^ u8 (1 <<< bit))]> payload) g
    | None => OutOfBounds
    end
  end.

Fixpoint corrupt_loop (active : list FaultRule) (payload : list byte) (e : FaultEngine G) :
    outcome (list byte * FaultEngine G) :=
  match active with
  | [] => Ok (payload, e)
  | r :: active =>
    if bool_decide (r.(kind) = kCorrupt) && negb (bool_decide (payload = [])) then
      res ← flip_bits (Z.to_nat r.(corrupt_bits)) payload e.(rng_);
      corrupt_loop active res.1 (on_stats inc_corrupted (set_rng res.2 e))
    else corrupt_loop active payload e
  end.

Fixpoint duplicate_loop (active all : list FaultRule) (payload : list byte) (e : FaultEngine G) : FaultEngine G :=
  match active with
  | [] => e
  | r :: active =>
    duplicate_loop active all payload
      (if bool_decide (r.(kind) = kDuplicate)
       then on_stats inc_duplicated (dispatch_or_delay payload all e) else e)
  end.

(** The end of [process]: reorder, forward, duplicate. *)
Definition forward (payload : list byte) (active : list FaultRule) (e : FaultEngine G) : FaultEngine G :=
  if existsb (fun r => bool_decide (r.(kind) = kReorder)) active then
    match e.(held_) with
    | None => set_held (Some payload) e
    | Some prev =>
      let e := set_held None e in
      let e := dispatch_or_delay payload active e in
      let e := dispatch_or_delay prev active e in
      on_stats inc_reordered e
    end
  else duplicate_loop active active payload (dispatch_or_delay payload active e).

Definition process (data : list byte) (t_s : double) (s : string) (e : FaultEngine G) :
    outcome (FaultEngine G) :=
  let active := List.filter (fun r => matches r s && active_at r t_s) e.(rules_) in
  let e := track_restarts s active e in
  if suppressed active then Ok (on_stats inc_dropped e) else
  let '(e, gone) := drop_loop active e in
  if gone : bool then Ok (on_stats inc_dropped e) else
  let '(e, over) := bandwidth_loop (Z.of_nat (length data)) active e in
  if over : bool then Ok (on_stats inc_dropped e) else
  res ← corrupt_loop active data e;
  Ok (forward res.1 active res.2).

(** One iteration of [worker_loop]; [None] when the loop has ended.  The wait
    converts the remaining time to an integer.  An iteration is one step: that
    the lock is released between the pop and [emit], so that [flush] can return
    while the worker still has a frame in its hands, is not modelled. *)
Definition worker_step (e : FaultEngine G) : outcome (option (FaultEngine G)) :=
  if e.(stop_) then Ok None
  else
    match pop e.(delayed_) with
    | None => Ok (Some e)
    | Some (top, rest) =>
      let '(now, e) := now_ns e in
      if d_lt now top.(due_ns) then
        _ ← cast_int64 (d_sub top.(due_ns) now);
        Ok (Some e)
      else Ok (Some (emit top.(data) (set_delayed rest e)))
    end.

(** [flush], a pop per round. *)
Fixpoint flush_loop (fuel : nat) (e : FaultEngine G) : option (FaultEngine G) :=
  match pop e.(delayed_) with
  | None => Some e
  | Some (top, rest) =>
    match fuel with
    | O => None
    | S fuel => flush_loop fuel (emit top.(data) (set_delayed rest e))
    end
  end.

Definition flush (e : FaultEngine G) : option (FaultEngine G) :=
  flush_loop (length e.(delayed_)) e.

(** The destructor: the worker stops; what is queued is not sent. *)
Definition destroy (e : FaultEngine G) : FaultEngine G := set_stop true e.

End Engine.

(** ** Lemmas *)

(** Equality of 64-bit counters. *)
Definition eqm (a b : Z) : Prop := exists k, a = b + 2 ^ 64 * k.

Lemma u64_eqm x : eqm (u64 x) x.
Proof. exists (- (x / 2 ^ 64)). unfold wrap. pose proof (Z.div_mod x (2 ^ 64)). lia. Qed.

Section Proofs.
Context {G : Type} (uniform_real : G -> double * G) (uniform_int : Z -> Z -> G -> Z * G)
        (clock : nat -> double) (pop : list Delayed -> option (Delayed * list Delayed)).

(** The documented behaviour of the distribution and of the queue. *)
Context (uniform_int_range : forall lo hi g, lo <= hi -> lo <= (uniform_int lo hi g).1 <= hi).
Context (pop_spec : forall q,
  match pop q with
  | None => q = []
  | Some (d, r) => q ≡ₚ d :: r /\ Forall (fun x => d_lt x.(due_ns) d.(due_ns) = false) r
  end).

Abbreviation process := (process uniform_real uniform_int clock).
Abbreviation flush := (flush pop).
Abbreviation flush_loop := (flush_loop pop).
Abbreviation worker_step := (worker_step clock pop).
Abbreviation dispatch := (dispatch_or_delay clock).

(** The frames that were sent or still are in the engine. *)
Definition frames (e : FaultEngine G) : list (list byte) :=
  e.(written) ++ option_list e.(held_) ++ map data e.(delayed_).

(** Every frame counted once; duplicates are extra. *)
Definition weight (e : FaultEngine G) : Z :=
  e.(stats_).(forwarded) + e.(stats_).(dropped) + match e.(held_) with Some _ => 1 | None => 0 end
  + Z.of_nat (length e.(delayed_)) - e.(stats_).(duplicated).

(** What the parts of [process] that only look at the frame leave alone. *)
Definition core (e : FaultEngine G) :=
  (e.(has_write), e.(rules_), e.(held_), e.(delayed_), e.(written), e.(stats_).(forwarded),
   e.(stats_).(dropped), e.(stats_).(duplicated)).

Lemma core_frames e e' : core e = core e' -> frames e = frames e'.
Proof. unfold core, frames. intros [=]. congruence. Qed.

Lemma core_weight e e' : core e = core e' -> weight e = weight e'.
Proof.
  unfold core, weight. intros [=].
  repeat match goal with H : _ = _ |- _ => rewrite H; clear H end. done.
Qed.

Lemma core_has_write e e' : core e = core e' -> has_write e = has_write e' /\ rules_ e = rules_ e' /\
  written e = written e' /\ forwarded (stats_ e) = forwarded (stats_ e').
Proof. unfold core. by intros [=]. Qed.

Lemma track_restarts_core s active e : core (track_restarts s active e) = core e.
Proof.
  assert (forall l e, core (foldl (fire_restart s) e l) = core e) as H.
  { induction l as [|r l IH]; intros e0; [done|]. cbn [foldl]. rewrite IH. unfold fire_restart.
    case_test; [|done]. by case_test. }
  unfold track_restarts. destruct active; [done|]. apply H.
Qed.

Lemma drop_loop_core active e : core (drop_loop uniform_real active e).1 = core e.
Proof.
  revert e. induction active as [|r l IH]; intros e; cbn [drop_loop]; [done|]. case_test; [|apply IH].
  destruct (uniform_real (rng_ e)) as [x g]. case_test; [done|]. by rewrite IH.
Qed.

Lemma bandwidth_loop_core size active e : core (bandwidth_loop clock size active e).1 = core e.
Proof.
  revert e. induction active as [|r l IH]; intros e; cbn [bandwidth_loop]; [done|].
  case_test; [|apply IH]. unfold now_ns. cbv zeta. destruct (d_eq _ d_zero); case_test; (done || by rewrite IH).
Qed.

Lemma flip_bits_ok n payload g :
  payload <> [] -> exists payload' g', flip_bits uniform_int n payload g = Ok (payload', g') /\
                                       length payload' = length payload.
Proof.
  revert payload g. induction n as [|n IH]; intros payload g Hne; cbn [flip_bits]; [by exists payload, g|].
  destruct (uniform_int 0 7 g) as [bit g1].
  assert (0 < length payload)%nat as Hl by (destruct payload; [done|cbn; lia]).
  pose proof (uniform_int_range 0 (Z.of_nat (length payload) - 1) g1 ltac:(lia)) as Hp.
  destruct (uniform_int 0 (Z.of_nat (length payload) - 1) g1) as [pos g2]. cbn [fst] in Hp.
  destruct (lookup_lt_is_Some_2 payload (Z.to_nat pos)) as [b Hb]; [lia|]. rewrite Hb.
  rewrite (proj2 (Z.ltb_ge _ _)) by lia.
  destruct (IH (<[Z.to_nat pos:=z2b (b2z b ^^^ u8 (1 <<< bit))]> payload) g2) as (p' & g' & -> & E).
  - intros E. apply (f_equal length) in E. rewrite length_insert in E. cbn in E. lia.
  - exists p', g'. by rewrite E, length_insert.
Qed.

Lemma corrupt_loop_ok active payload e :
  exists payload' e', corrupt_loop uniform_int active payload e = Ok (payload', e') /\
    length payload' = length payload /\ core e' = core e /\
    (Forall (fun r => r.(kind) <> kCorrupt) active -> payload' = payload).
Proof.
  revert payload e. induction active as [|r l IH]; intros payload e; cbn [corrupt_loop];
    [by exists payload, e|].
  case_test.
  - apply andb_true_iff in E as [Hk Hne]. apply bool_decide_eq_true in Hk.
    apply negb_true_iff, bool_decide_eq_false in Hne.
    destruct (flip_bits_ok (Z.to_nat (corrupt_bits r)) payload (rng_ e) Hne) as (p1 & g1 & -> & Hl).
    cbn [mbind outcome_bind fst snd].
    destruct (IH p1 (on_stats inc_corrupted (set_rng g1 e))) as (p2 & e2 & -> & Hl2 & Hc & _).
    exists p2, e2. split; [done|]. split; [congruence|]. split; [by rewrite Hc|].
    intros Hf. by inversion_clear Hf.
  - destruct (IH payload e) as (p2 & e2 & -> & Hl2 & Hc & Hf).
    exists p2, e2. split; [done|]. split; [done|]. split; [done|].
    intros H. inversion_clear H. auto.
Qed.

(** Sending a frame on, now or later. *)
Lemma emit_spec d e :
  weight (emit d e) = weight e - forwarded (stats_ e) + u64 (forwarded (stats_ e) + 1) /\
  has_write (emit d e) = has_write e /\ rules_ (emit d e) = rules_ e /\ held_ (emit d e) = held_ e /\
  delayed_ (emit d e) = delayed_ e /\
  written (emit d e) = written e ++ (if has_write e then [d] else []) /\
  forwarded (stats_ (emit d e)) = u64 (forwarded (stats_ e) + 1).
Proof.
  unfold emit, weight, log_write, on_stats, inc_forwarded. destruct (has_write e) eqn:Ew;
    cbn -[Z.add Z.sub wrap Z.of_nat]; rewrite ?app_nil_r, ?Ew; repeat split; lia.
Qed.

(** Counters agree with the log, and the number of frames with the counters. *)
Record step_ok (n : Z) (e e' : FaultEngine G) : Prop := {
  so_weight : eqm (weight e') (weight e + n);
  so_write : has_write e' = has_write e;
  so_rules : rules_ e' = rules_ e;
  so_log : has_write e = true ->
    eqm (Z.of_nat (length (written e'))) (forwarded (stats_ e')) <->
    eqm (Z.of_nat (length (written e))) (forwarded (stats_ e))
}.

Lemma step_ok_core n e1 e e' : core e1 = core e -> step_ok n e1 e' -> step_ok n e e'.
Proof.
  intros Hc [H1 H2 H3 H4]. destruct (core_has_write _ _ Hc) as (W & R & L & F).
  rewrite (core_weight _ _ Hc) in H1. constructor; [done|congruence|congruence|].
  rewrite <- W, <- L, <- F. done.
Qed.

Lemma core_step_ok e e' : core e' = core e -> step_ok 0 e e'.
Proof.
  intros Hc. destruct (core_has_write _ _ Hc) as (W & R & L & F). constructor; [|done|done|by rewrite L, F].
  exists 0. rewrite (core_weight _ _ Hc). lia.
Qed.

Lemma step_ok_trans n m e1 e2 e3 : step_ok n e1 e2 -> step_ok m e2 e3 -> step_ok (n + m) e1 e3.
Proof.
  intros [[a H1] H2 H3 H4] [[b H5] H6 H7 H8]. constructor; [exists (a + b); lia|congruence|congruence|].
  intros Hw. rewrite H8 by congruence. auto.
Qed.
Lemma emit_ok d e : step_ok 1 e (emit d e).
Proof.
  destruct (emit_spec d e) as (H1 & H2 & H3 & _ & _ & H6 & H7).
  destruct (u64_eqm (forwarded (stats_ e) + 1)) as [k Hk].
  constructor; [exists k; lia|done|done|]. intros Hw. rewrite H6, H7, Hw, length_app. cbn [length].
  unfold eqm. split; intros [j Hj]; [exists (j + k)|exists (j - k)]; lia.
Qed.

Lemma dispatch_ok payload active e :
  step_ok 1 e (dispatch payload active e) /\ held_ (dispatch payload active e) = held_ e /\
  (has_write e = true -> frames (dispatch payload active e) ≡ₚ payload :: frames e).
Proof.
  unfold dispatch_or_delay. case_test.
  - split; [apply emit_ok|]. destruct (emit_spec payload e) as (_ & _ & _ & H1 & H2 & H3 & _).
    split; [done|]. intros Hw. unfold frames. rewrite H1, H2, H3, Hw, <- app_assoc.
    by rewrite Permutation_middle.
  - cbn [now_ns]. split; [|split; [done|]].
    + constructor; try done. exists 0. unfold weight. cbn -[Z.add Z.sub Z.of_nat].
      rewrite length_app. cbn [length]. lia.
    + intros _. unfold frames. cbn [on_stats set_delayed count_read written held_ delayed_].
      rewrite map_app, !(assoc_L (++)). cbn [map data].
      by rewrite <- Permutation_cons_append.
Qed.

Lemma duplicated_ok e : step_ok (-1) e (on_stats inc_duplicated e).
Proof.
  constructor; [|done|done|done]. destruct (u64_eqm (duplicated (stats_ e) + 1)) as [k Hk].
  exists (- k). unfold weight. cbn -[Z.add Z.sub Z.of_nat wrap]. lia.
Qed.

Lemma dropped_ok e : step_ok 1 e (on_stats inc_dropped e).
Proof.
  constructor; [|done|done|done]. destruct (u64_eqm (dropped (stats_ e) + 1)) as [k Hk].
  exists k. unfold weight. cbn -[Z.add Z.sub Z.of_nat wrap]. lia.
Qed.

Lemma duplicate_loop_ok active all payload e :
  step_ok 0 e (duplicate_loop clock active all payload e) /\
  (Forall (fun r => r.(kind) <> kDuplicate) active -> duplicate_loop clock active all payload e = e).
Proof.
  revert e. induction active as [|r l IH]; intros e; cbn [duplicate_loop]; [split; [by apply core_step_ok|done]|].
  case_test.
  - split.
    + apply (step_ok_trans (1 + -1) 0 _ (on_stats inc_duplicated (dispatch payload all e))); [|apply IH].
      eapply step_ok_trans; [apply dispatch_ok|apply duplicated_ok].
    + intros H. inversion_clear H. by apply bool_decide_eq_true in E.
  - split; [apply IH|]. intros H. inversion_clear H. by apply IH.
Qed.

Lemma set_held_ok h e :
  step_ok ((if h is Some _ then 1 else 0) - (if held_ e is Some _ then 1 else 0)) e (set_held h e).
Proof. constructor; [|done|done|done]. exists 0. unfold weight. destruct h, (held_ e); cbn -[Z.add Z.sub Z.of_nat]; lia. Qed.

Lemma forward_ok payload active e :
  step_ok 1 e (forward clock payload active e) /\
  (has_write e = true -> Forall (fun r => r.(kind) <> kDuplicate) active ->
   frames (forward clock payload active e) ≡ₚ payload :: frames e).
Proof.
  unfold forward. case_test.
  - destruct (held_ e) as [prev|] eqn:Eh.
    + pose proof (set_held_ok None e) as H0. rewrite Eh in H0.
      destruct (dispatch_ok payload active (set_held None e)) as (H1 & H2 & H3).
      destruct (dispatch_ok prev active (dispatch payload active (set_held None e))) as (H4 & H5 & H6).
      split.
      * apply (step_ok_core 1 e); [done|]. pose proof (step_ok_trans _ _ _ _ _ (step_ok_trans _ _ _ _ _ H0 H1) H4) as [W1 W2 W3 W4].
        by constructor.
      * intros Hw _. change (frames (on_stats inc_reordered ?x)) with (frames x).
        rewrite H6 by (rewrite (so_write _ _ _ H1); done). rewrite H3 by done.
        rewrite perm_swap. constructor. unfold frames. cbn [set_held written held_ delayed_ option_list app].
        rewrite Eh. apply Permutation_middle.
    + pose proof (set_held_ok (Some payload) e) as H0. rewrite Eh in H0. split; [exact H0|].
      intros _ _. unfold frames. cbn [set_held written held_ delayed_ option_list app]. rewrite Eh.
      symmetry. apply Permutation_middle.
  - destruct (dispatch_ok payload active e) as (H1 & H2 & H3).
    destruct (duplicate_loop_ok active active payload (dispatch payload active e)) as [H4 H5].
    split; [by apply (step_ok_trans 1 0 _ _ _ H1 H4)|]. intros Hw Hd. rewrite H5 by done. auto.
Qed.

(** One frame. *)
Lemma process_ok d t_s s e :
  exists e', process d t_s s e = Ok e' /\ step_ok 1 e e' /\
    (has_write e = true -> Forall (fun r => r.(kind) <> kDuplicate /\ r.(kind) <> kCorrupt) (rules_ e) ->
     frames e' ⊆+ d :: frames e).
Proof.
  unfold Faults.process. set (active := List.filter _ _).
  pose proof (track_restarts_core s active e) as C1. set (e1 := track_restarts s active e) in *.
  assert (forall e2, core e2 = core e -> exists e', Ok (on_stats inc_dropped e2) = Ok e' /\ step_ok 1 e e' /\
    (has_write e = true -> Forall (fun r => r.(kind) <> kDuplicate /\ r.(kind) <> kCorrupt) (rules_ e) ->
     frames e' ⊆+ d :: frames e)) as Hdrop.
  { intros e2 Hc. eexists. split; [done|]. split; [apply (step_ok_core _ _ _ _ Hc), dropped_ok|].
    intros _ _. change (frames (on_stats inc_dropped e2)) with (frames e2). rewrite (core_frames _ _ Hc).
    by apply submseteq_cons. }
  case_test; [by apply Hdrop|].
  pose proof (drop_loop_core active e1) as C2. destruct (drop_loop _ active e1) as [e2 gone].
  cbn [fst] in C2. destruct gone; [apply Hdrop; congruence|].
  pose proof (bandwidth_loop_core (Z.of_nat (length d)) active e2) as C3.
  destruct (bandwidth_loop _ _ active e2) as [e3 over]. cbn [fst] in C3.
  destruct over; [apply Hdrop; congruence|].
  destruct (corrupt_loop_ok active d e3) as (p & e4 & -> & Hl & C4 & Hp). cbn [mbind outcome_bind fst snd].
  assert (core e4 = core e) as C by congruence.
  destruct (forward_ok p active e4) as [H1 H2]. eexists. split; [done|].
  split; [by apply (step_ok_core _ _ _ _ C)|]. intros Hw Hr.
  assert (Forall (fun r => r.(kind) <> kDuplicate /\ r.(kind) <> kCorrupt) active) as Ha.
  { subst active. clear -Hr. induction Hr as [|r l Hr _ IH]; cbn; [constructor|]. case_test; [by constructor|done]. }
  apply Forall_and in Ha as [Ha1 Ha2]. rewrite H2; [|by rewrite (proj1 (core_has_write _ _ C))|done].
  rewrite (core_frames _ _ C). by rewrite (Hp Ha2).
Qed.

(** A delayed frame goes out. *)
Lemma pop_emit_ok e top rest :
  pop (delayed_ e) = Some (top, rest) ->
  step_ok 0 e (emit (data top) (set_delayed rest e)) /\
  (has_write e = true -> frames (emit (data top) (set_delayed rest e)) ≡ₚ frames e).
Proof.
  intros Hp. pose proof (pop_spec (delayed_ e)) as H. rewrite Hp in H. destruct H as [H _].
  assert (step_ok (-1) e (set_delayed rest e)) as H0.
  { constructor; [|done|done|done]. exists 0. unfold weight. cbn -[Z.add Z.sub Z.of_nat]. rewrite H. cbn [length]. lia. }
  split; [exact (step_ok_trans _ _ _ _ _ H0 (emit_ok _ _))|].
  destruct (emit_spec (data top) (set_delayed rest e)) as (_ & _ & _ & H1 & H2 & H3 & _).
  intros Hw. unfold frames. rewrite H1, H2, H3. cbn [set_delayed has_write held_ delayed_ written].
  rewrite Hw, H, <- app_assoc. cbn [map]. apply Permutation_app_head.
  cbn [app]. rewrite Permutation_middle. done.
Qed.

Lemma flush_loop_ok fuel e :
  (length (delayed_ e) <= fuel)%nat ->
  exists e' q, flush_loop fuel e = Some e' /\ delayed_ e' = [] /\ held_ e' = held_ e /\ q ≡ₚ delayed_ e /\
    StronglySorted (fun a b => d_lt b.(due_ns) a.(due_ns) = false) q /\
    written e' = written e ++ (if has_write e then map data q else []) /\
    step_ok 0 e e' /\ (has_write e = true -> frames e' ≡ₚ frames e).
Proof.
  revert e. induction fuel as [|fuel IH]; intros e Hl; cbn [Faults.flush_loop];
    pose proof (pop_spec (delayed_ e)) as Hp; destruct (pop (delayed_ e)) as [[top rest]|] eqn:Ep.
  1: { destruct Hp as [Hp _]. rewrite Hp in Hl. cbn in Hl. lia. }
  1,3: exists e, []; rewrite Hp; cbn; repeat split; try done; [constructor|by case_match; rewrite app_nil_r|..];
    try (exists 0; lia); done.
  destruct Hp as [Hp Hmin]. destruct (pop_emit_ok e top rest Ep) as [S1 F1].
  destruct (emit_spec (data top) (set_delayed rest e)) as (_ & Hw & _ & Hh & Hd & Hlog & _).
  cbn [set_delayed delayed_ has_write written held_] in *.
  rewrite Hp in Hl. cbn [length] in Hl.
  destruct (IH (emit (data top) (set_delayed rest e))) as (e' & q & E & D & H & P & S & W & S2 & F2);
    [rewrite Hd; lia|].
  exists e', (top :: q). rewrite Hd in P. split; [done|]. split; [done|]. split; [congruence|].
  split; [by rewrite P|]. split; [constructor; [done|by rewrite P]|].
  split; [rewrite W, Hlog, Hw; destruct (has_write e); rewrite <- app_assoc; done|].
  split; [exact (step_ok_trans 0 0 _ _ _ S1 S2)|]. intros H1. rewrite F2 by congruence. auto.
Qed.

(** ** Operations of the caller and of the worker, in any order *)

Inductive op :=
| OProcess (data : list byte) (t_s : double) (s : string)
| OWorker
| OFlush.

Definition op_frames (o : op) : list (list byte) :=
  match o with OProcess d _ _ => [d] | _ => [] end.

Definition step (o : op) (e : FaultEngine G) : outcome (FaultEngine G) :=
  match o with
  | OProcess d t_s s => process d t_s s e
  | OWorker => res ← worker_step e; Ok (default e res)
  | OFlush => Ok (default e (flush e))
  end.

Fixpoint run (ops : list op) (e : FaultEngine G) : outcome (FaultEngine G) :=
  match ops with
  | [] => Ok e
  | o :: ops => e ← step o e; run ops e
  end.

Lemma step_spec o e e' :
  step o e = Ok e' ->
  step_ok (Z.of_nat (length (op_frames o))) e e' /\
  (has_write e = true -> Forall (fun r => r.(kind) <> kDuplicate /\ r.(kind) <> kCorrupt) (rules_ e) ->
   frames e' ⊆+ op_frames o ++ frames e).
Proof.
  destruct o as [d t_s s| |]; cbn [step op_frames length app].
  - intros E. destruct (process_ok d t_s s e) as (e1 & E1 & H). rewrite E in E1. by injection E1 as ->.
  - unfold Faults.worker_step. case_test; [intros [= <-]; split; [by apply core_step_ok|done]|].
    destruct (pop (delayed_ e)) as [[top rest]|] eqn:Ep; cbn [mbind outcome_bind default from_option];
      [|intros [= <-]; split; [by apply core_step_ok|done]].
    cbn [now_ns]. case_test.
    + destruct (cast_int64 _); cbn [mbind outcome_bind default from_option]; try done.
      intros [= <-]. split; [by apply core_step_ok|done].
    + cbn [mbind outcome_bind default from_option]. intros [= <-].
      destruct (pop_emit_ok (count_read e) top rest Ep) as [H1 H2].
      split; [exact (step_ok_core 0 (count_read e) e _ eq_refl H1)|]. intros Hw _. by rewrite H2.
  - destruct (flush_loop_ok (length (delayed_ e)) e) as (e1 & q & E & _ & _ & _ & _ & _ & H1 & H2); [done|].
    unfold Faults.flush. rewrite E. intros [= <-]. split; [done|]. intros Hw _. by rewrite H2.
Qed.

Lemma run_spec ops e e' :
  run ops e = Ok e' ->
  step_ok (Z.of_nat (length (concat (map op_frames ops)))) e e' /\
  (has_write e = true -> Forall (fun r => r.(kind) <> kDuplicate /\ r.(kind) <> kCorrupt) (rules_ e) ->
   frames e' ⊆+ concat (map op_frames ops) ++ frames e).
Proof.
  revert e. induction ops as [|o ops IH]; intros e; cbn [run map concat].
  - intros [= <-]. split; [by apply core_step_ok|done].
  - destruct (step o e) as [e1| |] eqn:E; cbn [mbind outcome_bind]; try done. intros Hr.
    destruct (step_spec o e e1 E) as [H1 H2]. destruct (IH e1 Hr) as [H3 H4].
    split; [rewrite length_app, Nat2Z.inj_add; exact (step_ok_trans _ _ _ _ _ H1 H3)|].
    intros Hw Hf. rewrite H4; [|by rewrite (so_write _ _ _ H1)|by rewrite (so_rules _ _ _ H1)].
    etrans; [by apply submseteq_skips_l, H2|]. by rewrite !app_assoc, (Permutation_app_comm (concat _) (op_frames o)).
Qed.

(** A new engine with its rules. *)
Definition engine (write : bool) (rules : list FaultRule) (g : G) : FaultEngine G :=
  foldl (fun e r => add_rule r e) (construct write g) rules.

Lemma engine_spec write rules g :
  has_write (engine write rules g) = write /\ rules_ (engine write rules g) = rules /\
  weight (engine write rules g) = 0 /\ frames (engine write rules g) = [] /\
  forwarded (stats_ (engine write rules g)) = 0.
Proof.
  unfold engine. assert (forall l (e : FaultEngine G),
    let e' := foldl (fun e r => add_rule r e) e l in
    has_write e' = has_write e /\ rules_ e' = rules_ e ++ l /\ weight e' = weight e /\ frames e' = frames e /\
    forwarded (stats_ e') = forwarded (stats_ e)) as H.
  { induction l as [|r l IH]; intros e; cbn [foldl]; [by rewrite app_nil_r|].
    destruct (IH (add_rule r e)) as (H1 & H2 & H3). rewrite H1, H2. cbn [add_rule has_write rules_].
    by rewrite <- app_assoc. }
  destruct (H rules (construct write g)) as (H1 & H2 & H3 & H4 & H5). by rewrite H1, H2, H3, H4, H5.
Qed.

(** C11: every frame is accounted for.  After any operations of the caller and
    the worker, whatever the rules and the random numbers, the frames
    forwarded, dropped, held and queued are as many as came in plus the
    duplicates (up to the width of the counters), and the writes made are
    those counted; the engine is then still able to process any frame (no
    access outside of a payload) and a flush ends with an empty queue. *)
Theorem fault_engine_accounts write rules g ops e :
  run ops (engine write rules g) = Ok e ->
  eqm (forwarded (stats e) + dropped (stats e) + (if held_ e is Some _ then 1 else 0)
       + Z.of_nat (length (delayed_ e)))
      (Z.of_nat (length (concat (map op_frames ops))) + duplicated (stats e)) /\
  (write = true -> eqm (Z.of_nat (length (written e))) (forwarded (stats e))) /\
  (forall d t_s s, exists e', process d t_s s e = Ok e') /\
  (exists e', flush e = Some e' /\ delayed_ e' = []).
Proof.
  intros Hr. destruct (run_spec _ _ _ Hr) as [[[k Hk] Hw _ Hl] _].
  destruct (engine_spec write rules g) as (E1 & _ & E2 & E3 & E4). rewrite E2 in Hk.
  split; [|split; [|split]].
  - exists k. unfold weight, stats in *. destruct (held_ e); lia.
  - intros ->. apply Hl; [done|]. rewrite E4. apply app_nil in E3 as [-> _]. by exists 0.
  - intros d t_s s. destruct (process_ok d t_s s e) as (e' & E & _). by exists e'.
  - destruct (flush_loop_ok (length (delayed_ e)) e) as (e' & q & E & D & _); [done|]. by exists e'.
Qed.

(** No frame is invented, repeated or overtaken.  Without corruption and
    duplication, the frames sent, held and queued are among the frames that
    came in, each at most as often; and a flush sends exactly the queued
    frames, in the order of their due times, while a frame held by the
    reordering stays behind. *)
Theorem fault_engine_frames rules g ops e :
  run ops (engine true rules g) = Ok e ->
  (Forall (fun r => r.(kind) <> kDuplicate /\ r.(kind) <> kCorrupt) rules ->
   written e ++ option_list (held_ e) ++ map data (delayed_ e) ⊆+ concat (map op_frames ops)) /\
  exists e' q, flush e = Some e' /\ q ≡ₚ delayed_ e /\
    StronglySorted (fun a b => d_lt b.(due_ns) a.(due_ns) = false) q /\
    written e' = written e ++ map data q /\ held_ e' = held_ e.
Proof.
  intros Hr. destruct (run_spec _ _ _ Hr) as [[_ Hw _ _] Hf].
  destruct (engine_spec true rules g) as (E1 & E2 & _ & E3 & _).
  split.
  - intros Hrules. fold (frames e). rewrite Hf; [|done|by rewrite E2]. by rewrite E3, app_nil_r.
  - destruct (flush_loop_ok (length (delayed_ e)) e) as (e' & q & E & _ & H & P & S & W & _); [done|].
    exists e', q. rewrite Hw, E1 in W. done.
Qed.

(** What a rule does to a frame.  With no active rule the frame is sent at
    once and unchanged; under a disconnect or burst rule it is dropped
    whatever else is active; under reordering alone the first frame is held
    and the next one is sent before it. *)
Theorem process_branches d t_s s e :
  let active := List.filter (fun r => matches r s && active_at r t_s) (rules_ e) in
  has_write e = true ->
  exists e', process d t_s s e = Ok e' /\
    (active = [] -> written e' = written e ++ [d] /\ held_ e' = held_ e /\ delayed_ e' = delayed_ e) /\
    (suppressed active = true ->
     written e' = written e /\ dropped (stats e') = u64 (dropped (stats e) + 1) /\
     held_ e' = held_ e /\ delayed_ e' = delayed_ e) /\
    (forall r, active = [r] -> kind r = kReorder ->
     match held_ e with
     | None => written e' = written e /\ held_ e' = Some d
     | Some prev => written e' = written e ++ [d; prev] /\ held_ e' = None
     end).
Proof.
  intros active Hw. destruct (process_ok d t_s s e) as (e' & E & _). exists e'. split; [done|].
  unfold Faults.process in E. fold active in E.
  pose proof (track_restarts_core s active e) as C. set (e1 := track_restarts s active e) in *.
  unfold core in C. injection C as C1 _ C2 C3 C4 _ C5 _.
  split; [|split].
  - intros Ha. rewrite Ha in E. cbn [suppressed existsb drop_loop bandwidth_loop corrupt_loop mbind outcome_bind fst snd] in E.
    injection E as <-. unfold forward. cbn [existsb duplicate_loop]. unfold dispatch_or_delay. cbn [max_delay foldl].
    change (d_le d_zero d_zero) with true. cbn iota.
    destruct (emit_spec d e1) as (_ & _ & _ & H1 & H2 & H3 & _). rewrite H1, H2, H3, C1, C2, C3, C4, Hw. done.
  - intros Hs. rewrite Hs in E. injection E as <-. cbn. by rewrite C2, C3, C4, C5.
  - intros r Ha Hk. rewrite Ha in E.
    unfold suppressed in E. cbn [existsb drop_loop bandwidth_loop corrupt_loop] in E. rewrite Hk in E.
    cbn [bool_decide decide_rel FaultKind_eq_dec orb andb mbind outcome_bind fst snd] in E.
    vm_compute (bool_decide (kReorder = kEcuDisconnect)) in E.
    vm_compute (bool_decide (kReorder = kBurstLoss)) in E.
    vm_compute (bool_decide (kReorder = kDrop)) in E.
    vm_compute (bool_decide (kReorder = kBandwidthLimit)) in E.
    vm_compute (bool_decide (kReorder = kCorrupt)) in E.
    cbn [orb andb mbind outcome_bind fst snd] in E. injection E as <-.
    unfold forward. cbn [existsb]. rewrite Hk, bool_decide_true by done. cbn [orb]. rewrite C2.
    assert (forall p (x : FaultEngine G), dispatch p [r] x = emit p x) as Hd.
    { intros p x. unfold dispatch_or_delay, max_delay. cbn [foldl]. rewrite Hk. reflexivity. }
    destruct (held_ e) as [prev|]; [|by cbn; rewrite C4].
    rewrite !Hd. unfold emit. cbn. rewrite C1, Hw. cbn. rewrite C1, Hw. cbn. by rewrite C4, <- app_assoc.
Qed.

End Proofs.

(** ** A concrete generator, clock and queue *)

(** The scan for a minimal due time. *)
Fixpoint min_scan (acc : Delayed) (seen l : list Delayed) : Delayed * list Delayed :=
  match l with
  | [] => (acc, seen)
  | x :: l => if d_lt x.(due_ns) acc.(due_ns) then min_scan x (acc :: seen) l else min_scan acc (x :: seen) l
  end.

Definition pop_min (q : list Delayed) : option (Delayed * list Delayed) :=
  match q with [] => None | x :: l => Some (min_scan x [] l) end.

Lemma min_scan_spec acc seen l :
  Forall (fun x => d_lt x.(due_ns) acc.(due_ns) = false) seen ->
  let res := min_scan acc seen l in
  acc :: seen ++ l ≡ₚ res.1 :: res.2 /\ Forall (fun x => d_lt x.(due_ns) res.1.(due_ns) = false) res.2.
Proof.
  revert acc seen. induction l as [|x l IH]; intros acc seen Hs; cbn [min_scan]; [by rewrite app_nil_r|].
  case_test.
  - destruct (IH x (acc :: seen)) as [H1 H2].
    + constructor.
      * apply not_true_is_false. intros H.
        pose proof (d_lt_trans _ _ _ E H) as H'. by rewrite d_lt_irrefl in H'.
      * eapply Forall_impl; [exact Hs|]. intros y Hy. apply not_true_is_false. intros H.
        pose proof (d_lt_trans _ _ _ H E) as H'. cbv beta in Hy. congruence.
    + split; [|exact H2]. rewrite <- H1. cbn [app]. by rewrite <- Permutation_middle, perm_swap.
  - destruct (IH acc (x :: seen)) as [H1 H2]; [by constructor|]. split; [|exact H2].
    rewrite <- H1. cbn [app]. by rewrite <- Permutation_middle.
Qed.

Lemma pop_min_spec q :
  match pop_min q with
  | None => q = []
  | Some (d, r) => q ≡ₚ d :: r /\ Forall (fun x => d_lt x.(due_ns) d.(due_ns) = false) r
  end.
Proof.
  destruct q as [|x l]; cbn [pop_min]; [done|].
  pose proof (min_scan_spec x [] l ltac:(constructor)) as H. by destruct (min_scan x [] l).
Qed.

Definition toy_real (g : Z) : double * Z := (d_lit (g mod 2) 2, g + 1).
Definition toy_int (lo hi g : Z) : Z * Z := (lo + g mod (hi - lo + 1), g + 1).
Definition toy_clock (n : nat) : double := d_of_Z (1000 * Z.of_nat n).

Lemma toy_int_range lo hi g : lo <= hi -> lo <= (toy_int lo hi g).1 <= hi.
Proof. intros H. cbn. pose proof (Z.mod_pos_bound g (hi - lo + 1)). lia. Qed.

Definition rule (k : FaultKind) : FaultRule :=
  {| kind := k; stream := ""; start_s := d_zero; duration_s := d_of_Z 10; delay_ms := d_of_Z 5;
     drop_rate := d_lit 1 4; bandwidth_kbps := d_zero; corrupt_bits := 4; seed := 1 |}.

Definition sample_ops : list op :=
  [OProcess [z2b 1] d_one "imu"; OProcess [z2b 2] d_one "imu"; OWorker; OProcess [z2b 3] d_one "imu"].

Definition sample_engine (rules : list FaultRule) : FaultEngine Z :=
  match run toy_real toy_int toy_clock pop_min sample_ops (engine true rules 0) with
  | Ok e => e
  | _ => engine true rules 0
  end.

Lemma fault_engine_accounts_witness :
  eqm (forwarded (stats (sample_engine [rule kDrop; rule kDelay])) +
       dropped (stats (sample_engine [rule kDrop; rule kDelay])) + 0 + 1) (3 + 0).
Proof.
  destruct (fault_engine_accounts toy_real toy_int toy_clock pop_min toy_int_range pop_min_spec
    true [rule kDrop; rule kDelay] 0 sample_ops (sample_engine [rule kDrop; rule kDelay])) as [H _].
  - vm_compute. reflexivity.
  - exact H.
Defined.

Lemma fault_engine_frames_witness :
  exists e' q, flush pop_min (sample_engine [rule kDelay; rule kReorder]) = Some e' /\
    q ≡ₚ delayed_ (sample_engine [rule kDelay; rule kReorder]) /\ held_ e' = Some [z2b 3].
Proof.
  destruct (fault_engine_frames toy_real toy_int toy_clock pop_min toy_int_range pop_min_spec
    [rule kDelay; rule kReorder] 0 sample_ops (sample_engine [rule kDelay; rule kReorder]))
    as [_ (e' & q & H1 & H2 & _ & _ & H3)].
  - vm_compute. reflexivity.
  - exists e', q. split; [exact H1|]. split; [exact H2|]. rewrite H3. vm_compute. reflexivity.
Defined.

Lemma process_branches_witness :
  exists e', process toy_real toy_int toy_clock [z2b 4] d_one "can" (sample_engine [rule kReorder]) = Ok e' /\
    written e' = written (sample_engine [rule kReorder]) ++ [[z2b 4]; [z2b 3]].
Proof.
  set (e := sample_engine [rule kReorder]).
  assert (has_write e = true) as Hw by (vm_compute; reflexivity).
  assert (held_ e = Some [z2b 3]) as Hh by (vm_compute; reflexivity).
  assert (List.filter (fun r => matches r "can" && active_at r d_one) (rules_ e) = [rule kReorder]) as Ha
    by (vm_compute; reflexivity).
  destruct (process_branches toy_real toy_int toy_clock toy_int_range [z2b 4] d_one "can" e Hw)
    as (e' & H1 & _ & _ & H2).
  specialize (H2 _ Ha eq_refl). rewrite Hh in H2. exists e'. split; [exact H1|exact (proj1 H2)].
Defined.

End Faults.
