(* ===== verification/FaultRuns.v ===== *)
(** * Fault engines as their clients see them

    More on the engine of [Faults.v], for the scenario runner, which keeps the
    frames of one stream in an engine of its own: the log of writes only
    grows, frames keep their length, and an engine with delay rules only
    loses, changes and repeats nothing. *)

From S2P Require Export Faults.

Module FaultRuns.
Import Faults.

Section Proofs.
Context {G : Type} (uniform_real : G -> double * G) (uniform_int : Z -> Z -> G -> Z * G)
        (clock : nat -> double) (pop : list Delayed -> option (Delayed * list Delayed)).
Context (uniform_int_range : forall lo hi g, lo <= hi -> lo <= (uniform_int lo hi g).1 <= hi).
Context (pop_spec : forall q,
  match pop q with
  | None => q = []
  | Some (d, r) => q ≡ₚ d :: r /\ Forall (fun x => d_lt x.(due_ns) d.(due_ns) = false) r
  end).

Abbreviation process := (Faults.process uniform_real uniform_int clock).
Abbreviation step := (Faults.step uniform_real uniform_int clock pop).
Abbreviation run := (Faults.run uniform_real uniform_int clock pop).
Abbreviation flush := (Faults.flush pop).
Abbreviation dispatch := (dispatch_or_delay clock).

(** ** The log grows *)

Definition grows (e e' : FaultEngine G) : Prop := has_write e' = has_write e /\ written e `prefix_of` written e'.

#[export] Instance grows_preorder : PreOrder grows.
Proof. split; [by split|]. intros e1 e2 e3 [H1 H2] [H3 H4]. split; [congruence|by etrans]. Qed.

Lemma core_grows e e' : core e' = core e -> grows e e'.
Proof. intros H. destruct (core_has_write _ _ H) as (H1 & _ & H2 & _). split; [done|by rewrite H2]. Qed.

Lemma emit_grows d e : grows e (emit d e).
Proof. destruct (emit_spec d e) as (_ & H1 & _ & _ & _ & H2 & _). split; [done|]. rewrite H2. by apply prefix_app_r. Qed.

Lemma dispatch_grows payload active e : grows e (dispatch payload active e).
Proof. unfold dispatch_or_delay. case_test; [apply emit_grows|by split]. Qed.

Lemma duplicate_loop_grows active all payload e : grows e (duplicate_loop clock active all payload e).
Proof.
  revert e. induction active as [|r l IH]; intros e; cbn [duplicate_loop]; [done|]. etrans; [|apply IH].
  case_test; [|done]. exact (dispatch_grows payload all e).
Qed.

Lemma forward_grows payload active e : grows e (forward clock payload active e).
Proof.
  unfold forward. case_test; [|etrans; [apply dispatch_grows|apply duplicate_loop_grows]].
  destruct (held_ e) as [prev|]; [|by split].
  etrans; [|exact (dispatch_grows prev active (dispatch payload active (set_held None e)))].
  exact (dispatch_grows payload active (set_held None e)).
Qed.

(** A frame is dropped, or goes on with its length and the rest unchanged. *)
Lemma process_cases d t_s s e :
  let active := List.filter (fun r => matches r s && active_at r t_s) (rules_ e) in
  exists e0, core e0 = core e /\
    (process d t_s s e = Ok (on_stats inc_dropped e0) \/
     exists payload, length payload = length d /\ process d t_s s e = Ok (forward clock payload active e0)).
Proof.
  cbv zeta. unfold Faults.process. set (active := List.filter _ _).
  pose proof (track_restarts_core s active e) as C1. set (e1 := track_restarts s active e) in *.
  case_test; [by exists e1; auto|].
  pose proof (drop_loop_core uniform_real active e1) as C2. destruct (drop_loop _ active e1) as [e2 gone]. cbn [fst] in C2.
  destruct gone; [exists e2; split; [congruence|by left]|].
  pose proof (bandwidth_loop_core clock (Z.of_nat (length d)) active e2) as C3.
  destruct (bandwidth_loop _ _ active e2) as [e3 over]. cbn [fst] in C3.
  destruct over; [exists e3; split; [congruence|by left]|].
  destruct (corrupt_loop_ok uniform_int uniform_int_range active d e3) as (p & e4 & -> & Hl & C4 & _).
  cbn [mbind outcome_bind fst snd]. exists e4. split; [congruence|]. right. by exists p.
Qed.

Lemma pop_emit_grows e top rest : grows e (emit (data top) (set_delayed rest e)).
Proof. exact (emit_grows (data top) (set_delayed rest e)). Qed.

Lemma flush_grows e e' : flush e = Some e' -> grows e e'.
Proof.
  intros H. destruct (flush_loop_ok pop pop_spec (length (delayed_ e)) e) as (e1 & q & E & _ & _ & _ & _ & H1 & [_ H2 _ _] & _);
    [done|]. unfold Faults.flush in H. rewrite H in E. injection E as <-. split; [done|]. rewrite H1. by apply prefix_app_r.
Qed.

Lemma step_grows o e e' : step o e = Ok e' -> grows e e'.
Proof.
  destruct o as [d t_s s| |]; cbn [Faults.step].
  - destruct (process_cases d t_s s e) as (e0 & C & [->|(p & _ & ->)]); intros [= <-].
    + etrans; [by apply core_grows|by split].
    + etrans; [by apply core_grows|apply forward_grows].
  - unfold worker_step. case_test; [by intros [= <-]|].
    destruct (pop (delayed_ e)) as [[top rest]|]; cbn [mbind outcome_bind default from_option]; [|by intros [= <-]].
    cbn [now_ns]. case_test.
    + destruct (cast_int64 _); cbn [mbind outcome_bind default from_option]; try done. by intros [= <-].
    + cbn [mbind outcome_bind default from_option]. intros [= <-]. apply (pop_emit_grows (count_read e)).
  - intros [= <-]. destruct (flush e) eqn:E; cbn; [by apply flush_grows|done].
Qed.

(** ** Frames keep a property of their length *)

Definition all_length (n : nat) (e : FaultEngine G) : Prop :=
  has_write e = true /\ Forall (fun f => length f = n) (frames e).

Lemma core_all_length n e e' : core e' = core e -> all_length n e -> all_length n e'.
Proof.
  intros C [H1 H2]. split; [by rewrite (proj1 (core_has_write _ _ C))|by rewrite (core_frames _ _ C)].
Qed.

Lemma dispatch_all_length n payload active e :
  length payload = n -> all_length n e -> all_length n (dispatch payload active e).
Proof.
  intros Hp [H1 H2]. destruct (dispatch_ok clock payload active e) as ([_ Hw _ _] & _ & Hf). split; [congruence|].
  rewrite Hf by done. by constructor.
Qed.

Lemma duplicate_loop_all_length n active all payload e :
  length payload = n -> all_length n e -> all_length n (duplicate_loop clock active all payload e).
Proof.
  intros Hp. revert e. induction active as [|r l IH]; intros e He; cbn [duplicate_loop]; [done|]. apply IH.
  case_test; [|done]. by apply (dispatch_all_length n payload all e).
Qed.

Lemma forward_all_length n payload active e :
  length payload = n -> all_length n e -> all_length n (forward clock payload active e).
Proof.
  intros Hp He. unfold forward. case_test.
  - destruct He as [Hw Hf]. unfold frames in Hf. rewrite !Forall_app in Hf. destruct Hf as (F1 & F2 & F3).
    destruct (held_ e) as [prev|] eqn:Eh.
    + cbn [option_list] in F2. inversion_clear F2. apply (dispatch_all_length n prev); [done|].
      apply dispatch_all_length; [done|]. split; [done|]. unfold frames. cbn. by apply Forall_app.
    + split; [done|]. unfold frames. cbn. apply Forall_app. split; [done|]. by constructor.
  - by apply duplicate_loop_all_length, dispatch_all_length.
Qed.

Lemma pop_all_length n e e' :
  all_length n e -> step_ok 0 e e' -> (has_write e = true -> frames e' ≡ₚ frames e) -> all_length n e'.
Proof. intros [H1 H2] [_ Hw _ _] Hf. split; [congruence|]. by rewrite Hf. Qed.

Lemma step_all_length n o e e' :
  Forall (fun f => length f = n) (op_frames o) -> all_length n e -> step o e = Ok e' -> all_length n e'.
Proof.
  destruct o as [d t_s s| |]; cbn [Faults.step op_frames]; intros Ho He.
  - inversion_clear Ho. destruct (process_cases d t_s s e) as (e0 & C & [->|(p & Hp & ->)]); intros [= <-].
    + exact (core_all_length n _ _ C He).
    + apply forward_all_length; [congruence|by apply (core_all_length n e)].
  - unfold worker_step. case_test; [by intros [= <-]|].
    destruct (pop (delayed_ e)) as [[top rest]|] eqn:Ep; cbn [mbind outcome_bind default from_option]; [|by intros [= <-]].
    cbn [now_ns]. case_test.
    + destruct (cast_int64 _); cbn [mbind outcome_bind default from_option]; try done. by intros [= <-].
    + cbn [mbind outcome_bind default from_option]. intros [= <-].
      destruct (pop_emit_ok pop pop_spec (count_read e) top rest Ep) as [H1 H2].
      by apply (pop_all_length n (count_read e)).
  - destruct (flush_loop_ok pop pop_spec (length (delayed_ e)) e) as (e1 & q & E & _ & _ & _ & _ & _ & H1 & H2); [done|].
    unfold Faults.flush. rewrite E. intros [= <-]. by apply (pop_all_length n e).
Qed.

(** ** Delays only *)

Definition delays_only (rules : list FaultRule) : Prop := Forall (fun r => kind r = kDelay) rules.

Lemma delay_loops active payload e :
  delays_only active ->
  suppressed active = false /\ drop_loop uniform_real active e = (e, false) /\
  bandwidth_loop clock (Z.of_nat (length payload)) active e = (e, false) /\
  corrupt_loop uniform_int active payload e = Ok (payload, e) /\
  existsb (fun r => bool_decide (r.(kind) = kReorder)) active = false /\
  forall all (e' : FaultEngine G), duplicate_loop clock active all payload e' = e'.
Proof.
  unfold suppressed. induction 1 as [|r l Hr Hl IH]; [done|]. cbn. rewrite Hr. cbn. destruct IH as (H1 & H2 & H3 & H4 & H5 & H6).
  by rewrite H1, H2, H3, H4, H5.
Qed.

Lemma process_delay d t_s s e :
  delays_only (rules_ e) -> held_ e = None -> has_write e = true ->
  exists e', process d t_s s e = Ok e' /\ frames e' ≡ₚ d :: frames e /\ held_ e' = None /\
    has_write e' = true /\ rules_ e' = rules_ e.
Proof.
  intros Hr Hh Hw. unfold Faults.process. set (active := List.filter _ _).
  assert (delays_only active) as Ha.
  { subst active. clear -Hr. induction Hr as [|r l Hr _ IH]; cbn; [constructor|]. case_test; [by constructor|done]. }
  pose proof (track_restarts_core s active e) as C. set (e1 := track_restarts s active e) in *.
  destruct (delay_loops active d e1 Ha) as (-> & -> & -> & -> & H5 & H6). cbn [mbind outcome_bind fst snd].
  eexists. split; [done|]. unfold forward. rewrite H5, H6.
  destruct (dispatch_ok clock d active e1) as ([_ W R _] & H & F).
  destruct (core_has_write _ _ C) as (C1 & C2 & _ & _).
  rewrite F by congruence. rewrite (core_frames _ _ C), H, W, R, C1, C2. split; [done|].
  unfold core in C. injection C as _ _ C3 _ _ _ _ _. by rewrite C3.
Qed.

Lemma run_delay ops e e' :
  run ops e = Ok e' -> delays_only (rules_ e) -> held_ e = None -> has_write e = true ->
  frames e' ≡ₚ concat (map op_frames ops) ++ frames e /\ held_ e' = None.
Proof.
  revert e. induction ops as [|o ops IH]; intros e; cbn [Faults.run map concat]; [by intros [= <-]|].
  destruct (step o e) as [e1| |] eqn:E; cbn [mbind outcome_bind]; try done. intros Hrun Hr Hh Hw.
  assert (frames e1 ≡ₚ op_frames o ++ frames e /\ held_ e1 = None /\ has_write e1 = true /\ rules_ e1 = rules_ e)
    as (F & H1 & H2 & H3).
  { destruct o as [d t_s s| |]; cbn [Faults.step op_frames app] in *.
    - destruct (process_delay d t_s s e Hr Hh Hw) as (e2 & E2 & F). rewrite E in E2. injection E2 as <-. exact F.
    - unfold worker_step in E. case_test_in E; [by injection E as <-|].
      destruct (pop (delayed_ e)) as [[top rest]|] eqn:Ep; cbn [mbind outcome_bind default from_option] in E;
        [|by injection E as <-].
      cbn [now_ns] in E. case_test_in E.
      + destruct (cast_int64 _); cbn [mbind outcome_bind default from_option] in E; try done. by injection E as <-.
      + cbn [mbind outcome_bind default from_option] in E. injection E as <-.
        destruct (pop_emit_ok pop pop_spec (count_read e) top rest Ep) as [[_ W R _] F].
        rewrite F, W, R by done. split; [done|]. split; [|done].
        by destruct (emit_spec (data top) (set_delayed rest (count_read e))) as (_ & _ & _ & -> & _).
    - destruct (flush_loop_ok pop pop_spec (length (delayed_ e)) e) as (e2 & q & E2 & _ & H & _ & _ & _ & [_ W R _] & F); [done|].
      unfold Faults.flush in E. rewrite E2 in E. injection E as <-. rewrite F, W, R, H by done. done. }
  destruct (IH e1 Hrun) as [F' Hh']; [by rewrite H3|done|done|]. split; [|done]. rewrite F', F.
  by rewrite !app_assoc, (Permutation_app_comm (concat _)).
Qed.

End Proofs.

End FaultRuns.
