(* ===== verification/SubscriptionManager.v ===== *)
(** * Subscriptions ([src/src/subscription_manager.cpp], [subscription_manager.hpp])

    The manager of one topic: set-up of the subscription, the callback that
    puts a message into the ring under the policy of its sensor type, and the
    side of the send timer.  The ROS graph, the middleware's QoS constructor
    and the clock are parameters.

    Results: callbacks and timers refine a bounded queue with a last value;
    every message is queued or counted; set-up takes the type and the QoS of
    the topic. *)

From S2P Require Export Backpressure.

Module SubscriptionManager.
Import SpscRing Backpressure.

(** [kRingCapacity] *)
Definition kRingCapacity : Z := 1024.

#[global] Instance kRingCapacity_ok : CapacityOk kRingCapacity.
Proof. split; unfold kRingCapacity, is_uint; (reflexivity || lia). Qed.

(** The QoS profile of a publisher. *)
Record rmw_qos := mkRmwQos {
  durability : Z;
  reliability : Z;
  deadline : Z * Z;                    (** seconds, nanoseconds *)
  liveliness : Z;
  liveliness_lease_duration : Z * Z
}.

(** The ROS graph as the manager sees it. *)
Record graph := mkGraph {
  ok : bool;                                  (** [rclcpp::ok()] *)
  topic_names_and_types : gmap string (list string);
  publishers_info : string -> list rmw_qos
}.

Record SubscriptionManager := mkSubscriptionManager {
  msg_type_ : string;
  topic_ : string;
  subscribe_namespace_ : string;
  zstd_compression_level_ : Z;
  topic_found_ : bool;
  received_msg_ : bool;
  is_stale_ : bool;
  publish_stale_data_ : bool;
  subscriber : option (string * string * rmw_qos);
  ring_ : SPSCRing SensorFrame;
  current_frame_ : SensorFrame;
  capture_sequence_ : Z;
  sensor_type_ : Frame.SensorType;
  policy_ : BackpressurePolicy;
  enqueued_count_ : Z;
  dropped_count_ : Z;
  overwritten_count_ : Z
}.

Definition set_sensor_type (t : Frame.SensorType) (m : SubscriptionManager) : SubscriptionManager :=
  {| msg_type_ := m.(msg_type_); topic_ := m.(topic_); subscribe_namespace_ := m.(subscribe_namespace_);
     zstd_compression_level_ := m.(zstd_compression_level_); topic_found_ := m.(topic_found_);
     received_msg_ := m.(received_msg_); is_stale_ := m.(is_stale_);
     publish_stale_data_ := m.(publish_stale_data_); subscriber := m.(subscriber); ring_ := m.(ring_);
     current_frame_ := m.(current_frame_); capture_sequence_ := m.(capture_sequence_);
     sensor_type_ := t; policy_ := default_policy_for t;
     enqueued_count_ := m.(enqueued_count_); dropped_count_ := m.(dropped_count_);
     overwritten_count_ := m.(overwritten_count_) |}.

Definition construct (topic subscribe_namespace : string) (zstd_compression_level : Z)
    (publish_stale_data : bool) : SubscriptionManager :=
  set_sensor_type Frame.kControl
  {| msg_type_ := ""; topic_ := topic; subscribe_namespace_ := subscribe_namespace;
     zstd_compression_level_ := zstd_compression_level; topic_found_ := true;
     received_msg_ := false; is_stale_ := true; publish_stale_data_ := publish_stale_data;
     subscriber := None; ring_ := SpscRing.construct kRingCapacity SensorFrame_default;
     current_frame_ := SensorFrame_default; capture_sequence_ := 0;
     sensor_type_ := Frame.kControl; policy_ := kDropNewest;
     enqueued_count_ := 0; dropped_count_ := 0; overwritten_count_ := 0 |}.

(** What set-up changes. *)
Definition set_subscription (found : bool) (type : string) (sub : option (string * string * rmw_qos))
    (m : SubscriptionManager) : SubscriptionManager :=
  {| msg_type_ := type; topic_ := m.(topic_); subscribe_namespace_ := m.(subscribe_namespace_);
     zstd_compression_level_ := m.(zstd_compression_level_); topic_found_ := found;
     received_msg_ := m.(received_msg_); is_stale_ := m.(is_stale_);
     publish_stale_data_ := m.(publish_stale_data_); subscriber := sub; ring_ := m.(ring_);
     current_frame_ := m.(current_frame_); capture_sequence_ := m.(capture_sequence_);
     sensor_type_ := m.(sensor_type_); policy_ := m.(policy_);
     enqueued_count_ := m.(enqueued_count_); dropped_count_ := m.(dropped_count_);
     overwritten_count_ := m.(overwritten_count_) |}.

Section Graph.
(** [QoS(QoSInitialization::from_rmw(qos))]: history and depth are taken
    over, the other policies have default values. *)
Context (from_rmw : rmw_qos -> rmw_qos).

Definition subscription_qos (candidate : rmw_qos) : rmw_qos :=
  let qos := from_rmw candidate in
  {| durability := candidate.(durability); reliability := candidate.(reliability);
     deadline := if candidate.(deadline).1 <? 10000 then candidate.(deadline) else qos.(deadline);
     liveliness := candidate.(liveliness);
     liveliness_lease_duration :=
       if candidate.(liveliness_lease_duration).1 <? 10000
       then candidate.(liveliness_lease_duration) else qos.(liveliness_lease_duration) |}.

Definition create_subscription (topic msg_type : string) (qos : rmw_qos) (m : SubscriptionManager) :
    SubscriptionManager :=
  set_subscription m.(topic_found_) m.(msg_type_) (Some (topic, msg_type, qos)) m.

(** [setup_subscription] up to the (virtual) call of [create_subscription]:
    its arguments, when the topic was found. *)
Definition setup_target (g : graph) (m : SubscriptionManager) :
    outcome (SubscriptionManager * option (string * string * rmw_qos)) :=
  if negb g.(ok) then Ok (m, None) else
  let topic := (m.(subscribe_namespace_) +:+ m.(topic_))%string in
  match g.(topic_names_and_types) !! topic with
  | None => Ok (set_subscription false m.(msg_type_) m.(subscriber) m, None)
  | Some types =>
    match g.(publishers_info) topic with
    | [] => Ok (set_subscription false m.(msg_type_) m.(subscriber) m, None)
    | info :: _ =>
      let qos := subscription_qos info in
      match types with
      | [] => OutOfBounds
      | type :: _ => Ok (set_subscription true type m.(subscriber) m, Some (topic, type, qos))
      end
    end
  end.

Definition setup_subscription (g : graph) (m : SubscriptionManager) : outcome SubscriptionManager :=
  res ← setup_target g m;
  match res.2 with
  | Some (topic, type, qos) => Ok (create_subscription topic type qos res.1)
  | None => Ok res.1
  end.

Definition check_subscription (g : graph) (m : SubscriptionManager) : outcome SubscriptionManager :=
  match m.(subscriber) with
  | None => setup_subscription g m
  | Some _ => Ok m
  end.

End Graph.

(** The members the data path changes. *)
Definition set_data (received stale : bool) (ring : SPSCRing SensorFrame) (current : SensorFrame)
    (capture enqueued dropped overwritten : Z) (m : SubscriptionManager) : SubscriptionManager :=
  {| msg_type_ := m.(msg_type_); topic_ := m.(topic_); subscribe_namespace_ := m.(subscribe_namespace_);
     zstd_compression_level_ := m.(zstd_compression_level_); topic_found_ := m.(topic_found_);
     received_msg_ := received; is_stale_ := stale;
     publish_stale_data_ := m.(publish_stale_data_); subscriber := m.(subscriber); ring_ := ring;
     current_frame_ := current; capture_sequence_ := capture;
     sensor_type_ := m.(sensor_type_); policy_ := m.(policy_);
     enqueued_count_ := enqueued; dropped_count_ := dropped; overwritten_count_ := overwritten |}.

(** The messages that wait. *)
Abbreviation queue m := (contents kRingCapacity m.(ring_)).

Section Data.
Context (moved_from : SensorFrame -> SensorFrame).

(** [callback] for a message of these bytes at this time; [schedule] is what
    the timer does while a blocking policy waits. *)
Definition callback (schedule : list nat) (serialized_msg : list byte) (now_ns : Z)
    (m : SubscriptionManager) : outcome (SubscriptionManager * option PushResult) :=
  let frame := {| data := serialized_msg; sequence := m.(capture_sequence_);
                  timestamp_ns := u64 now_ns |} in
  let capture := u64 (m.(capture_sequence_) + 1) in
  res ← apply_policy kRingCapacity moved_from schedule m.(ring_) frame m.(policy_);
  let '(enqueued, dropped, overwritten) :=
    match res.2 with
    | Some (kEnqueued | kBlockedThenEnqueued) =>
      (u64 (m.(enqueued_count_) + 1), m.(dropped_count_), m.(overwritten_count_))
    | Some kOverwrote =>
      (u64 (m.(enqueued_count_) + 1), m.(dropped_count_), u64 (m.(overwritten_count_) + 1))
    | Some kDroppedNewest => (m.(enqueued_count_), u64 (m.(dropped_count_) + 1), m.(overwritten_count_))
    | None => (m.(enqueued_count_), m.(dropped_count_), m.(overwritten_count_))
    end in
  Ok (set_data true false res.1 m.(current_frame_) capture enqueued dropped overwritten m, res.2).

Definition empty_approx : SPSCRing SensorFrame -> bool := SpscRing.empty_approx kRingCapacity.

Definition has_data (m : SubscriptionManager) : bool :=
  if negb m.(received_msg_) then false
  else if negb (empty_approx m.(ring_)) then true
  else m.(publish_stale_data_).

Definition is_stale (m : SubscriptionManager) : bool := m.(is_stale_).

Definition get_data (m : SubscriptionManager) : outcome (SubscriptionManager * list byte * bool) :=
  if negb m.(received_msg_) then Ok (m, m.(current_frame_).(data), false) else
  res ← try_pop kRingCapacity moved_from m.(ring_);
  match res.2 with
  | Some popped =>
    Ok (set_data m.(received_msg_) (empty_approx res.1) res.1 popped m.(capture_sequence_)
          m.(enqueued_count_) m.(dropped_count_) m.(overwritten_count_) m, popped.(data), true)
  | None =>
    if m.(publish_stale_data_) && negb (bool_decide (m.(current_frame_).(data) = []))
    then Ok (set_data m.(received_msg_) m.(is_stale_) res.1 m.(current_frame_) m.(capture_sequence_)
               m.(enqueued_count_) m.(dropped_count_) m.(overwritten_count_) m,
             m.(current_frame_).(data), true)
    else Ok (set_data m.(received_msg_) true res.1 m.(current_frame_) m.(capture_sequence_)
               m.(enqueued_count_) m.(dropped_count_) m.(overwritten_count_) m,
             m.(current_frame_).(data), false)
  end.

Definition ring_occupancy (m : SubscriptionManager) : Z := size_approx kRingCapacity m.(ring_).

(** ** Lemmas *)

Record wf (m : SubscriptionManager) : Prop := {
  wf_ring : ring_ok kRingCapacity m.(ring_);
  wf_policy : m.(policy_) = default_policy_for m.(sensor_type_);
  wf_received : m.(received_msg_) = false -> queue m = []
}.

Lemma manager_construct_wf topic ns level stale : wf (construct topic ns level stale).
Proof.
  destruct (SpscRing.construct_ok kRingCapacity SensorFrame_default) as [H1 H2].
  constructor; [exact H1|reflexivity|]. intros _. exact H2.
Qed.

Lemma empty_approx_queue m : wf m -> empty_approx m.(ring_) = bool_decide (queue m = []).
Proof.
  intros [Hr _ _]. unfold empty_approx, SpscRing.empty_approx. rewrite size_approx_spec by done.
  destruct (queue m); cbn [length]; [reflexivity|]. rewrite bool_decide_false by done. apply Z.eqb_neq. lia.
Qed.

Lemma has_data_spec m :
  wf m -> has_data m = m.(received_msg_) && (negb (bool_decide (queue m = [])) || m.(publish_stale_data_)).
Proof.
  intros Hm. unfold has_data. rewrite empty_approx_queue by done.
  destruct (received_msg_ m); [|done]. by case_bool_decide.
Qed.

(** A timer takes the oldest message. *)
Lemma get_data_spec m :
  wf m ->
  exists m', wf m' /\
    match queue m with
    | f :: q => get_data m = Ok (m', f.(data), true) /\ queue m' = q /\ current_frame_ m' = f
    | [] => get_data m = Ok (m', m.(current_frame_).(data),
              m.(received_msg_) && m.(publish_stale_data_) && negb (bool_decide (m.(current_frame_).(data) = []))) /\
            queue m' = [] /\ current_frame_ m' = current_frame_ m
    end /\
    received_msg_ m' = received_msg_ m /\ publish_stale_data_ m' = publish_stale_data_ m /\
    enqueued_count_ m' = enqueued_count_ m /\ dropped_count_ m' = dropped_count_ m /\
    capture_sequence_ m' = capture_sequence_ m /\ sensor_type_ m' = sensor_type_ m /\
    topic_ m' = topic_ m /\ msg_type_ m' = msg_type_ m /\
    zstd_compression_level_ m' = zstd_compression_level_ m /\ subscriber m' = subscriber m.
Proof.
  intros Hm. destruct (received_msg_ m) eqn:Er.
  - destruct (try_pop_spec kRingCapacity moved_from (ring_ m) (wf_ring m Hm)) as (r & E & H1 & H2).
    unfold get_data. rewrite Er, E. cbn [negb mbind outcome_bind fst snd].
    destruct (queue m) as [|f q] eqn:Eq; cbn [head drop] in H2 |- *.
    + cbn [andb]. case_test; eexists; (split; cycle 1;
        [split; [split; [reflexivity|done]|done]|constructor; [exact H1|exact (wf_policy m Hm)|done]]).
    + eexists; (split; cycle 1;
        [split; [split; [reflexivity|done]|done]|constructor; [exact H1|exact (wf_policy m Hm)|cbn; congruence]]).
  - exists m. split; [done|]. rewrite (wf_received m Hm Er). unfold get_data. rewrite Er. done.
Qed.

Lemma callback_spec schedule bs now m :
  wf m -> m.(sensor_type_) = Frame.kControl ->
  let f := {| data := bs; sequence := m.(capture_sequence_); timestamp_ns := u64 now |} in
  let full := Z.of_nat (length (queue m)) =? kRingCapacity - 1 in
  exists m', wf m' /\
    callback schedule bs now m = Ok (m', Some (if full then kDroppedNewest else kEnqueued)) /\
    queue m' = (if full then queue m else queue m ++ [f]) /\
    received_msg_ m' = true /\ publish_stale_data_ m' = publish_stale_data_ m /\
    current_frame_ m' = current_frame_ m /\ sensor_type_ m' = sensor_type_ m /\
    enqueued_count_ m' = (if full then enqueued_count_ m else u64 (enqueued_count_ m + 1)) /\
    dropped_count_ m' = (if full then u64 (dropped_count_ m + 1) else dropped_count_ m) /\
    capture_sequence_ m' = u64 (capture_sequence_ m + 1).
Proof.
  intros Hm Ht f full.
  destruct (try_push_spec kRingCapacity f (ring_ m) (wf_ring m Hm)) as (r & E & H1 & H2).
  fold full in E, H2. pose proof (wf_policy m Hm) as Hp. rewrite Ht in Hp.
  change (default_policy_for Frame.kControl) with kDropNewest in Hp.
  unfold callback. fold f. rewrite Hp. cbn [apply_policy]. rewrite E. cbn [mbind outcome_bind fst snd].
  destruct full; cbn [negb]; eexists; (split; cycle 1;
    [split; [reflexivity|done]|constructor; [exact H1|cbn; by rewrite Hp, Ht|done]]).
Qed.

End Data.

(** ** The specification: a bounded queue of messages and the last one taken *)

Record spec := mkSpec {
  s_queue : list (list byte);
  s_last : list byte;
  s_received : bool;
  s_accepted : Z;
  s_dropped : Z
}.

Definition spec_initial : spec := mkSpec [] [] false 0 0.

Definition spec_message (bs : list byte) (s : spec) : spec :=
  if Z.of_nat (length s.(s_queue)) =? kRingCapacity - 1
  then mkSpec s.(s_queue) s.(s_last) true s.(s_accepted) (s.(s_dropped) + 1)
  else mkSpec (s.(s_queue) ++ [bs]) s.(s_last) true (s.(s_accepted) + 1) s.(s_dropped).

(** What a timer sends. *)
Definition spec_timer (stale : bool) (s : spec) : spec * option (list byte) :=
  match s.(s_queue) with
  | bs :: q => (mkSpec q bs s.(s_received) s.(s_accepted) s.(s_dropped), Some bs)
  | [] => (s, if s.(s_received) && stale && negb (bool_decide (s.(s_last) = [])) then Some s.(s_last) else None)
  end.

Inductive op := Message (bs : list byte) (now_ns : Z) | Timer.

Fixpoint spec_run (stale : bool) (ops : list op) (s : spec) : spec * list (option (list byte)) :=
  match ops with
  | [] => (s, [])
  | Message bs _ :: ops => spec_run stale ops (spec_message bs s)
  | Timer :: ops =>
    let '(s, out) := spec_timer stale s in
    let '(s, outs) := spec_run stale ops s in (s, out :: outs)
  end.

Section Refinement.
Context (moved_from : SensorFrame -> SensorFrame).

(** The timer's use of the manager ([NetworkBridge::send_data]). *)
Definition timer (m : SubscriptionManager) : outcome (SubscriptionManager * option (list byte)) :=
  if has_data m then
    res ← get_data moved_from m;
    Ok (res.1.1, if (res.2 : bool) then Some res.1.2 else None)
  else Ok (m, None).

Fixpoint run (ops : list op) (m : SubscriptionManager) :
    outcome (SubscriptionManager * list (option (list byte))) :=
  match ops with
  | [] => Ok (m, [])
  | Message bs now :: ops =>
    res ← callback moved_from [] bs now m;
    run ops res.1
  | Timer :: ops =>
    res ← timer m;
    rest ← run ops res.1;
    Ok (rest.1, res.2 :: rest.2)
  end.

Record refines (stale : bool) (m : SubscriptionManager) (s : spec) : Prop := {
  r_wf : wf m;
  r_control : m.(sensor_type_) = Frame.kControl;
  r_stale : m.(publish_stale_data_) = stale;
  r_queue : map data (queue m) = s.(s_queue);
  r_last : m.(current_frame_).(data) = s.(s_last);
  r_received : m.(received_msg_) = s.(s_received);
  r_accepted : m.(enqueued_count_) = u64 s.(s_accepted);
  r_dropped : m.(dropped_count_) = u64 s.(s_dropped)
}.

Lemma u64_succ x : u64 (u64 x + 1) = u64 (x + 1).
Proof. unfold wrap. by rewrite Zplus_mod_idemp_l. Qed.

Lemma callback_refines stale bs now m s :
  refines stale m s ->
  exists m' r, callback moved_from [] bs now m = Ok (m', r) /\ refines stale m' (spec_message bs s).
Proof.
  intros [Hw Hc Hs Hq Hl Hr Ha Hd].
  destruct (callback_spec moved_from [] bs now m Hw Hc)
    as (m' & Hw' & E & Hq' & Hr' & Hs' & Hl' & Hc' & Ha' & Hd' & _).
  rewrite E. eexists m', _. split; [reflexivity|]. clear E. unfold spec_message. rewrite <- Hq, length_map.
  destruct (Z.of_nat (length (queue m)) =? kRingCapacity - 1);
    constructor; cbn [s_queue s_last s_received s_accepted s_dropped]; try congruence.
  - by rewrite Hd', Hd, u64_succ.
  - by rewrite Hq', map_app.
  - by rewrite Ha', Ha, u64_succ.
Qed.

Lemma timer_refines stale m s :
  refines stale m s ->
  exists m', timer m = Ok (m', (spec_timer stale s).2) /\ refines stale m' (spec_timer stale s).1.
Proof.
  intros [Hw Hc Hs Hq Hl Hr Ha Hd]. unfold timer, spec_timer. rewrite has_data_spec by done.
  destruct (get_data_spec moved_from m Hw) as (m' & Hw' & E & Hr' & Hs' & Ha' & Hd' & _ & Hc' & _).
  rewrite <- Hq, <- Hr. destruct (queue m) as [|f q] eqn:Eq; cbn [map] in *.
  - rewrite bool_decide_true by done. cbn [negb orb fst snd]. destruct E as (E & E1 & E2).
    rewrite Hs in *. rewrite <- Hl. destruct (received_msg_ m && stale) eqn:Eb.
    + rewrite E. cbn [mbind outcome_bind fst snd andb]. exists m'.
      split; [by case_test|]. constructor; try congruence. by rewrite E1, <- Hq.
    + exists m. split; [done|]. constructor; try congruence. by rewrite Eq, <- Hq.
  - destruct E as (E & E1 & E2). destruct (received_msg_ m) eqn:Er.
    + rewrite bool_decide_false by done. cbn [negb orb andb]. rewrite E. cbn [mbind outcome_bind fst snd].
      exists m'. split; [done|]. constructor; cbn [s_queue s_last s_received s_accepted s_dropped]; congruence.
    + by rewrite (wf_received m Hw Er) in Eq.
Qed.

(** C8: the manager is a bounded queue with a last value.  For any sequence of
    messages and timers, the data the timers send is what the specification
    says: the queued messages in order of arrival, each once, then (with
    [publish_stale_data] only) the last one again; a message that finds 1023
    waiting is dropped; the counters count both kinds; and the ring is never
    left. *)
Theorem subscription_refines topic ns level stale ops :
  exists m, run ops (construct topic ns level stale) = Ok (m, (spec_run stale ops spec_initial).2) /\
    refines stale m (spec_run stale ops spec_initial).1.
Proof.
  assert (refines stale (construct topic ns level stale) spec_initial) as H.
  { pose proof (manager_construct_wf topic ns level stale) as Hw. constructor;
      (exact Hw || reflexivity || by rewrite (wf_received _ Hw eq_refl)). }
  revert H. generalize (construct topic ns level stale) as m. generalize spec_initial as s.
  induction ops as [|[bs now|] ops IH]; intros s m H; cbn [run spec_run].
  - by exists m.
  - destruct (callback_refines stale bs now m s H) as (m' & r & -> & H').
    cbn [mbind outcome_bind fst]. by apply IH.
  - destruct (timer_refines stale m s H) as (m' & -> & H').
    destruct (spec_timer stale s) as [s1 out]. cbn [mbind outcome_bind fst snd] in *.
    destruct (IH s1 m' H') as (m2 & -> & H2). exists m2.
    by destruct (spec_run stale ops s1) as [s2 outs].
Qed.

End Refinement.

End SubscriptionManager.
