(* ===== verification/TfManager.v ===== *)
(** * Transforms ([src/src/subscription_manager_tf.cpp], [subscription_manager_tf.hpp])

    The manager of a tf topic: it filters transforms, keeps the last one for
    every pair of frames and sends all of them at every message.  Regular
    expressions and the serialisation of ROS messages are parameters; a
    transform is its frames, its stamp and the rest.

    Results: the buffer is the map of the last accepted transforms in order
    of first appearance, has no pair twice and no pair in both directions; it
    starts again when a reversed pair arrives; indices never leave it. *)

From S2P Require Export SubscriptionManager.

Module TfManager.

Record TransformStamped := mkTransformStamped {
  frame_id : string;
  child_frame_id : string;
  stamp : Z;
  transform : list byte
}.

Definition tf_id (t : TransformStamped) : string * string := (t.(frame_id), t.(child_frame_id)).

(** A pair of frames, the other way round. *)
Definition swap (id : string * string) : string * string := (id.2, id.1).

Record SubscriptionManagerTF := mkSubscriptionManagerTF {
  base : SubscriptionManager.SubscriptionManager;
  tf2_subscriber_ : option string;
  tf_id_ : gmap (string * string) nat;
  tfs_ : list TransformStamped;
  static_tf_ : bool;
  include_pattern : list string;
  exclude_pattern : list string
}.

Definition construct (topic ns : string) (level : Z) (stale static_tf : bool) : SubscriptionManagerTF :=
  {| base := SubscriptionManager.construct topic ns level stale; tf2_subscriber_ := None; tf_id_ := ∅;
     tfs_ := []; static_tf_ := static_tf; include_pattern := []; exclude_pattern := [] |}.

Definition set_base b (m : SubscriptionManagerTF) : SubscriptionManagerTF :=
  mkSubscriptionManagerTF b m.(tf2_subscriber_) m.(tf_id_) m.(tfs_) m.(static_tf_) m.(include_pattern) m.(exclude_pattern).
Definition set_subscriber s (m : SubscriptionManagerTF) : SubscriptionManagerTF :=
  mkSubscriptionManagerTF m.(base) s m.(tf_id_) m.(tfs_) m.(static_tf_) m.(include_pattern) m.(exclude_pattern).
Definition set_tfs ids tfs (m : SubscriptionManagerTF) : SubscriptionManagerTF :=
  mkSubscriptionManagerTF m.(base) m.(tf2_subscriber_) ids tfs m.(static_tf_) m.(include_pattern) m.(exclude_pattern).
Definition set_patterns incl excl (m : SubscriptionManagerTF) : SubscriptionManagerTF :=
  mkSubscriptionManagerTF m.(base) m.(tf2_subscriber_) m.(tf_id_) m.(tfs_) m.(static_tf_) incl excl.

Definition is_stale (m : SubscriptionManagerTF) : bool :=
  if m.(static_tf_) then false else SubscriptionManager.is_stale m.(base).

Section Tf.
(** [std::regex(v)] does not throw; [std::regex_match(s, v)]. *)
Context (regex_ok : string -> bool) (regex_match : string -> string -> bool).
Context (serialize_message : list TransformStamped -> list byte).
Context (from_rmw : SubscriptionManager.rmw_qos -> SubscriptionManager.rmw_qos)
        (moved_from : Backpressure.SensorFrame -> Backpressure.SensorFrame).

(** [set_include_pattern] and [set_exclude_pattern]. *)
Fixpoint compile_patterns (pattern : list string) (compiled : list string) : outcome (list string) :=
  match pattern with
  | [] => Ok compiled
  | v :: pattern =>
    if regex_ok v then compile_patterns pattern (compiled ++ [v]) else Throws "std::regex_error"
  end.

Definition set_include_pattern (pattern : list string) (m : SubscriptionManagerTF) : outcome SubscriptionManagerTF :=
  p ← compile_patterns pattern m.(include_pattern);
  Ok (set_patterns p m.(exclude_pattern) m).

Definition set_exclude_pattern (pattern : list string) (m : SubscriptionManagerTF) : outcome SubscriptionManagerTF :=
  p ← compile_patterns pattern m.(exclude_pattern);
  Ok (set_patterns m.(include_pattern) p m).

(** The overridden set-up: the QoS is that of the listener class. *)
Definition create_subscription (topic : string) (m : SubscriptionManagerTF) : SubscriptionManagerTF :=
  set_subscriber (Some topic) m.

Definition setup_subscription (g : SubscriptionManager.graph) (m : SubscriptionManagerTF) :
    outcome SubscriptionManagerTF :=
  res ← SubscriptionManager.setup_target from_rmw g m.(base);
  let m := set_base res.1 m in
  match res.2 with
  | Some (topic, _, _) => Ok (create_subscription topic m)
  | None => Ok m
  end.

Definition check_subscription (g : SubscriptionManager.graph) (m : SubscriptionManagerTF) :
    outcome SubscriptionManagerTF :=
  match m.(tf2_subscriber_) with
  | None => setup_subscription g m
  | Some _ => Ok m
  end.

(** One of the patterns matches one of the frames. *)
Definition any_match (patterns : list string) (t : TransformStamped) : bool :=
  existsb (fun v => regex_match t.(frame_id) v || regex_match t.(child_frame_id) v) patterns.

(** The two filters. *)
Definition accepted (m : SubscriptionManagerTF) (t : TransformStamped) : bool :=
  negb (negb (bool_decide (m.(exclude_pattern) = [])) && any_match m.(exclude_pattern) t) &&
  (bool_decide (m.(include_pattern) = []) || any_match m.(include_pattern) t).

(** The loop over the transforms of a message; [true] when the buffer was
    reset and the callback returns. *)
Fixpoint tf_loop (transforms : list TransformStamped) (m : SubscriptionManagerTF) :
    outcome (SubscriptionManagerTF * bool) :=
  match transforms with
  | [] => Ok (m, false)
  | t :: transforms =>
    if negb (accepted m t) then tf_loop transforms m else
    match m.(tf_id_) !! tf_id t with
    | None =>
      match m.(tf_id_) !! swap (tf_id t) with
      | Some _ => Ok (set_subscriber None (set_tfs ∅ [] m), true)
      | None =>
        tf_loop transforms
          (set_tfs (<[tf_id t := length m.(tfs_)]> m.(tf_id_)) (m.(tfs_) ++ [t]) m)
      end
    | Some i =>
      if (i <? length m.(tfs_))%nat
      then tf_loop transforms (set_tfs m.(tf_id_) (<[i := t]> m.(tfs_)) m)
      else OutOfBounds
    end
  end.

(** [header.stamp = rclcpp::Time()] *)
Definition clear_stamp (t : TransformStamped) : TransformStamped :=
  {| frame_id := t.(frame_id); child_frame_id := t.(child_frame_id); stamp := 0; transform := t.(transform) |}.

Definition tf2_callback (schedule : list nat) (now_ns : Z) (transforms : list TransformStamped)
    (m : SubscriptionManagerTF) : outcome SubscriptionManagerTF :=
  res ← tf_loop transforms m;
  let '(m, reset) := (res : SubscriptionManagerTF * bool) in
  if reset then Ok m
  else
    let m := if m.(static_tf_) then set_tfs m.(tf_id_) (map clear_stamp m.(tfs_)) m else m in
    cb ← SubscriptionManager.callback moved_from schedule (serialize_message m.(tfs_)) now_ns m.(base);
    Ok (set_base cb.1 m).

(** ** The specification: last transform of each pair, in order of appearance *)

(** Replaces the transform with the frames of [t], or adds [t] at the end. *)
Fixpoint upsert (t : TransformStamped) (l : list TransformStamped) : list TransformStamped :=
  match l with
  | [] => [t]
  | u :: l => if bool_decide (tf_id u = tf_id t) then t :: l else u :: upsert t l
  end.

(** The pair is new and the reversed pair is there. *)
Definition conflict (t : TransformStamped) (l : list TransformStamped) : bool :=
  negb (existsb (fun u => bool_decide (tf_id u = tf_id t)) l) &&
  existsb (fun u => bool_decide (tf_id u = swap (tf_id t))) l.

(** [None] when the buffer starts again. *)
Fixpoint spec_loop (ts l : list TransformStamped) : option (list TransformStamped) :=
  match ts with
  | [] => Some l
  | t :: ts => if conflict t l then None else spec_loop ts (upsert t l)
  end.

(** The index map describes the buffer. *)
Definition indexed (ids : gmap (string * string) nat) (l : list TransformStamped) : Prop :=
  forall id i, ids !! id = Some i <-> tf_id <$> l !! i = Some id.

(** No pair of different frames in both directions. *)
Definition one_way (l : list TransformStamped) : Prop :=
  forall t u, t ∈ l -> u ∈ l -> tf_id u = swap (tf_id t) -> t.(frame_id) = t.(child_frame_id).

Record wf (m : SubscriptionManagerTF) : Prop := {
  wf_base : SubscriptionManager.wf m.(base);
  wf_indexed : indexed m.(tf_id_) m.(tfs_);
  wf_one_way : one_way m.(tfs_)
}.

(** ** Lemmas *)

Lemma upsert_new t l :
  existsb (fun u => bool_decide (tf_id u = tf_id t)) l = false -> upsert t l = l ++ [t].
Proof.
  induction l as [|u l IH]; cbn [existsb upsert]; [done|]. intros H. apply orb_false_iff in H as [-> H].
  cbn [app]. by rewrite IH.
Qed.

Lemma upsert_at t l i u :
  l !! i = Some u -> tf_id u = tf_id t ->
  (forall j v, (j < i)%nat -> l !! j = Some v -> tf_id v <> tf_id t) -> upsert t l = <[i := t]> l.
Proof.
  revert i. induction l as [|v l IH]; intros i Hi Hu Hj; [done|]. cbn [upsert].
  destruct i as [|i].
  - injection Hi as ->. by rewrite bool_decide_true.
  - rewrite bool_decide_false by (apply (Hj 0%nat); [lia|done]). cbn. f_equal.
    apply IH; [done|done|]. intros j w Hlt Hw. by apply (Hj (S j)); [lia|].
Qed.

Lemma indexed_lookup ids l t :
  indexed ids l ->
  match ids !! tf_id t with
  | Some i => existsb (fun u => bool_decide (tf_id u = tf_id t)) l = true /\ (i < length l)%nat /\
              upsert t l = <[i := t]> l
  | None => existsb (fun u => bool_decide (tf_id u = tf_id t)) l = false /\ upsert t l = l ++ [t]
  end.
Proof.
  intros Hi. destruct (ids !! tf_id t) as [i|] eqn:E.
  - pose proof E as E'. apply Hi, fmap_Some in E' as (u & Hu & Ht).
    split; [|split].
    + apply existsb_exists. exists u. split; [by eapply list_elem_of_In, list_elem_of_lookup_2|].
      by rewrite bool_decide_true.
    + by eapply lookup_lt_Some.
    + eapply upsert_at; [done|done|]. intros j v Hlt Hv Heq.
      assert (ids !! tf_id t = Some j) as Ej by (apply Hi; rewrite Hv; cbn; by rewrite Heq).
      rewrite E in Ej. injection Ej as ->. lia.
  - assert (existsb (fun u => bool_decide (tf_id u = tf_id t)) l = false) as H.
    { apply not_true_is_false. intros H. apply existsb_exists in H as (u & Hin & Hu).
      apply bool_decide_eq_true in Hu. apply list_elem_of_In, list_elem_of_lookup_1 in Hin as [i Hl].
      assert (ids !! tf_id t = Some i) as E' by (apply Hi; rewrite Hl; cbn; by rewrite Hu). congruence. }
    split; [done|by apply upsert_new].
Qed.

Lemma indexed_swap ids l t :
  indexed ids l ->
  (if ids !! swap (tf_id t) is Some _ then true else false)
  = existsb (fun u => bool_decide (tf_id u = swap (tf_id t))) l.
Proof.
  intros Hi.
  pose proof (indexed_lookup ids l {| frame_id := t.(child_frame_id); child_frame_id := t.(frame_id);
                                      stamp := 0; transform := [] |} Hi) as H.
  change (tf_id {| frame_id := _ |}) with (swap (tf_id t)) in H.
  by destruct (ids !! swap (tf_id t)); destruct H as [-> _].
Qed.

Lemma indexed_insert ids l t :
  indexed ids l -> ids !! tf_id t = None -> indexed (<[tf_id t := length l]> ids) (l ++ [t]).
Proof.
  intros Hi Hn id i. destruct (decide (id = tf_id t)) as [->|Hne].
  - rewrite lookup_insert_eq. split.
    + intros [= <-]. by rewrite list_lookup_middle.
    + intros H. apply fmap_Some in H as (u & Hu & Ht). apply lookup_app_Some in Hu as [Hu|[Hlen Hu]].
      * assert (ids !! tf_id t = Some i) as E by (apply Hi; rewrite Hu; cbn; by rewrite Ht). congruence.
      * apply list_lookup_singleton_Some in Hu as [Hu _]. f_equal. lia.
  - rewrite lookup_insert_ne by done. rewrite (Hi id i). split; intros H; apply fmap_Some in H as (u & Hu & Ht).
    + by rewrite (lookup_app_l_Some _ _ _ _ Hu); cbn; rewrite Ht.
    + apply lookup_app_Some in Hu as [Hu|[_ Hu]]; [by rewrite Hu; cbn; rewrite Ht|].
      apply list_lookup_singleton_Some in Hu as [_ ->]. done.
Qed.

Lemma indexed_update ids l t i :
  indexed ids l -> ids !! tf_id t = Some i -> indexed ids (<[i := t]> l).
Proof.
  intros Hi E id j. pose proof (proj1 (Hi _ _) E) as H. apply fmap_Some in H as (u & Hu & Ht).
  pose proof (lookup_lt_Some _ _ _ Hu) as Hlt. rewrite (Hi id j).
  destruct (decide (j = i)) as [->|Hne].
  - rewrite list_lookup_insert_eq, Hu by done. cbn. by rewrite Ht.
  - by rewrite list_lookup_insert_ne.
Qed.

Lemma upsert_elem t l u : u ∈ upsert t l -> u = t \/ u ∈ l.
Proof.
  induction l as [|v l IH]; cbn [upsert].
  - intros H. apply list_elem_of_singleton in H. by left.
  - case_bool_decide; rewrite !elem_of_cons; [tauto|]. intros [->|Hu]; [tauto|]. apply IH in Hu. tauto.
Qed.

Lemma upsert_one_way t l : conflict t l = false -> one_way l -> one_way (upsert t l).
Proof.
  intros Hc Ho. unfold conflict in Hc. apply andb_false_iff in Hc.
  assert (forall u, u ∈ l -> tf_id u = swap (tf_id t) -> t.(frame_id) = t.(child_frame_id)) as Hnew.
  { intros u Hu Hs. destruct Hc as [Hc|Hc].
    - apply negb_false_iff, existsb_exists in Hc as (v & Hv & Ht). apply bool_decide_eq_true in Ht.
      apply list_elem_of_In in Hv. rewrite <- Ht in Hs. pose proof (Ho v u Hv Hu Hs) as H.
      unfold tf_id in Ht. congruence.
    - exfalso. apply not_true_iff_false in Hc. apply Hc, existsb_exists. exists u.
      split; [by apply list_elem_of_In|by rewrite bool_decide_true]. }
  intros x y Hx Hy Hs. apply upsert_elem in Hx as [->|Hx], Hy as [->|Hy].
  - unfold tf_id, swap in Hs. cbn in Hs. congruence.
  - by apply (Hnew y).
  - assert (tf_id x = swap (tf_id t)) as Hs' by (rewrite Hs; by destruct (tf_id x)).
    specialize (Hnew x Hx Hs'). unfold tf_id, swap in Hs'. cbn in Hs'. congruence.
  - by apply (Ho x y).
Qed.

Lemma tf_loop_spec ts m :
  wf m ->
  exists m' reset, tf_loop ts m = Ok (m', reset) /\ wf m' /\ base m' = base m /\
    static_tf_ m' = static_tf_ m /\ include_pattern m' = include_pattern m /\ exclude_pattern m' = exclude_pattern m /\
    match spec_loop (List.filter (accepted m) ts) (tfs_ m) with
    | Some l => reset = false /\ tfs_ m' = l /\ tf2_subscriber_ m' = tf2_subscriber_ m
    | None => reset = true /\ tfs_ m' = [] /\ tf2_subscriber_ m' = None
    end.
Proof.
  revert m. induction ts as [|t ts IH]; intros m Hm; cbn [tf_loop List.filter].
  - exists m, false. done.
  - destruct (accepted m t) eqn:Ea; cbn [negb spec_loop]; [|apply (IH m Hm)].
    pose proof Hm as [Hb Hi Ho]. pose proof (indexed_lookup _ _ t Hi) as Hl.
    pose proof (indexed_swap _ _ t Hi) as Hs. pose proof (upsert_one_way t (tfs_ m)) as Hup.
    unfold conflict in *. rewrite <- Hs in *.
    destruct (tf_id_ m !! tf_id t) as [i|] eqn:E.
    + destruct Hl as (Hex & Hlt & Hu). rewrite Hex, (proj2 (Nat.ltb_lt _ _)) in * by done.
      cbn [negb andb] in *. rewrite Hu in *. apply (IH (set_tfs (tf_id_ m) (<[i:=t]> (tfs_ m)) m)).
      constructor; [done|by apply indexed_update|auto].
    + destruct Hl as (Hex & Hu). rewrite Hex in *. cbn [negb andb] in *. rewrite Hu in *.
      destruct (tf_id_ m !! swap (tf_id t)).
      * eexists _, true. split; [reflexivity|]. split; [|done]. constructor; [done| |].
        -- intros id j. cbn. by rewrite lookup_empty, lookup_nil.
        -- intros x y Hx. cbn in Hx. by apply not_elem_of_nil in Hx.
      * apply (IH (set_tfs (<[tf_id t:=length (tfs_ m)]> (tf_id_ m)) (tfs_ m ++ [t]) m)).
        constructor; [done|by apply indexed_insert|auto].
Qed.

Lemma clear_stamps_wf m : wf m -> wf (set_tfs (tf_id_ m) (map clear_stamp (tfs_ m)) m).
Proof.
  intros [Hb Hi Ho]. constructor; [done| |].
  - intros id i. cbn. rewrite list_lookup_fmap, (Hi id i). by destruct (tfs_ m !! i).
  - intros x y Hx Hy Hs. cbn in Hx, Hy.
    apply list_elem_of_fmap in Hx as (x' & -> & Hx), Hy as (y' & -> & Hy). apply (Ho x' y' Hx Hy Hs).
Qed.

(** C33: the transform buffer.  Every message leaves the buffer as the last
    accepted transform of each pair of frames, in order of first appearance,
    never a pair twice or in both directions, with an index map that agrees
    and never leaves the buffer; the buffer is what is queued for sending
    (with zero stamps on a static topic).  When a new pair is the reverse of
    a known one, the buffer is empty afterwards, nothing is queued, and the
    topic will be subscribed to again. *)
Theorem tf2_callback_refines schedule now ts m :
  wf m -> SubscriptionManager.sensor_type_ (base m) = Frame.kControl ->
  exists m', tf2_callback schedule now ts m = Ok m' /\ wf m' /\
    match spec_loop (List.filter (accepted m) ts) (tfs_ m) with
    | None => tfs_ m' = [] /\ tf2_subscriber_ m' = None /\ base m' = base m
    | Some l =>
      tfs_ m' = (if static_tf_ m then map clear_stamp l else l) /\ tf2_subscriber_ m' = tf2_subscriber_ m /\
      exists f, Backpressure.data f = serialize_message (tfs_ m') /\
        SubscriptionManager.queue (base m') =
        if Z.of_nat (length (SubscriptionManager.queue (base m))) =? SubscriptionManager.kRingCapacity - 1
        then SubscriptionManager.queue (base m)
        else SubscriptionManager.queue (base m) ++ [f]
    end.
Proof.
  intros Hm Hc. destruct (tf_loop_spec ts m Hm) as (m1 & reset & E & H1 & Hb & Hst & _ & _ & Hs).
  unfold tf2_callback. rewrite E. cbn [mbind outcome_bind].
  destruct (spec_loop _ (tfs_ m)) as [l|]; destruct Hs as (-> & Hl & Hsub).
  2: { exists m1. done. }
  set (m2 := if static_tf_ m1 then _ else m1).
  assert (wf m2) as H2 by (subst m2; destruct (static_tf_ m1); [by apply clear_stamps_wf|done]).
  assert (base m2 = base m) as Hb2 by (subst m2; by destruct (static_tf_ m1)).
  assert (tfs_ m2 = if static_tf_ m then map clear_stamp l else l) as Hl2.
  { subst m2. rewrite Hst. destruct (static_tf_ m); cbn; congruence. }
  assert (tf2_subscriber_ m2 = tf2_subscriber_ m) as Hs2 by (subst m2; by destruct (static_tf_ m1)).
  rewrite Hb2. pose proof (wf_base _ Hm) as Hbase.
  destruct (SubscriptionManager.callback_spec moved_from schedule (serialize_message (tfs_ m2)) now
    (base m) Hbase Hc) as (b & Hw & -> & Hq & _). cbn [mbind outcome_bind fst].
  exists (set_base b m2). split; [done|]. split; [by destruct H2; constructor|].
  split; [done|]. split; [done|]. eexists. split; [|exact Hq]. done.
Qed.

End Tf.

Definition tf_sample (parent child : string) (x : Z) : TransformStamped :=
  {| frame_id := parent; child_frame_id := child; stamp := 7; transform := [z2b x] |}.

Lemma tf2_callback_refines_witness :
  exists m', tf2_callback String.eqb (map (fun t => z2b (stamp t))) (fun f => f) [] 5
      [tf_sample "map" "odom" 1; tf_sample "odom" "base" 2; tf_sample "map" "odom" 3]
      (construct "tf" "" 3 false false) = Ok m' /\
    tfs_ m' = [tf_sample "map" "odom" 3; tf_sample "odom" "base" 2].
Proof.
  destruct (tf2_callback_refines String.eqb (map (fun t => z2b (stamp t))) (fun f => f) [] 5
    [tf_sample "map" "odom" 1; tf_sample "odom" "base" 2; tf_sample "map" "odom" 3]
    (construct "tf" "" 3 false false)) as (m' & H1 & _ & H2 & _).
  - constructor; [apply SubscriptionManager.manager_construct_wf| |].
    + intros id i. cbn. by rewrite lookup_empty, lookup_nil.
    + intros x y Hx. by apply not_elem_of_nil in Hx.
  - reflexivity.
  - exists m'. split; [exact H1|exact H2].
Defined.

End TfManager.
