(* ===== verification/NetworkBridge.v ===== *)
(** * The bridge node ([src/src/network_bridge.cpp], [network_bridge.hpp])

    What the node does with its parameters, the two data paths ([send_data]
    and [receive_data]) with framing, compression, the optional log and the
    optional fault engine, and the inner header.  Zstandard, the allocator,
    the creation of publishers, the clock and the operating system are
    parameters; what is written to the network and what is published is
    logged in the state.

    Results: what one bridge sends the other publishes, under the same topic
    and type, in order and unchanged; on arbitrary bytes the receiver
    publishes nothing or one message, counts what it rejects and never leaves
    a buffer, and throws only when a publisher cannot be created. *)

From S2P Require Export TfManager FrameCodec WalWriter Faults.
From Stdlib Require Import Ascii.

Module NetworkBridge.

(** ** Parameters of the node *)

(** The normalisation of the two namespaces. *)
Definition normalize_namespace (ns : string) : string :=
  match ns with
  | EmptyString => ns
  | String c _ =>
    let ns := if bool_decide (c = "/"%char) then ns else ("/" +:+ ns)%string in
    let n := String.length ns in
    if bool_decide (String.get (n - 1) ns = Some "/"%char) then String.substring 0 (n - 1) ns else ns
  end.

Definition is_tf_topic (topic : string) : bool :=
  bool_decide (topic = "/tf"%string) || bool_decide (topic = "tf"%string) ||
  bool_decide (topic = "/tf_static"%string) || bool_decide (topic = "tf_static"%string).

Definition is_static_tf_topic (topic : string) : bool :=
  is_tf_topic topic && (bool_decide (topic = "/tf_static"%string) || bool_decide (topic = "tf_static"%string)).

(** [static_cast<int>(1000.0 / rate)], [rate] a [float]: undefined when it does not fit. *)
Definition timer_period_ms (rate : double) : outcome Z :=
  match d_trunc (d_div (d_of_Z 1000) rate) with
  | Some z => if (- 2 ^ 31 <=? z) && (z <? 2 ^ 31) then Ok z else OutOfBounds
  | None => OutOfBounds
  end.

(** The parameter server: for a name and a default, the value. *)
Record parameters := mkParameters {
  p_bool : string -> bool -> bool;
  p_int : string -> Z -> Z;
  p_double : string -> double -> double;
  p_string : string -> string -> string;
  p_strings : string -> list string -> list string
}.

(** The manager of a topic, with the period of its timer. *)
Inductive any_manager :=
| Generic (m : SubscriptionManager.SubscriptionManager)
| Tf (m : TfManager.SubscriptionManagerTF).

Section Load.
Context (p : parameters) (regex_ok : string -> bool)
        (from_rmw : SubscriptionManager.rmw_qos -> SubscriptionManager.rmw_qos)
        (g : SubscriptionManager.graph).

(** One round of the loop over the topics. *)
Definition load_topic (subscribe_namespace : string) (publish_stale_data : bool)
    (default_rate : double) (default_zstd_level : Z) (topic : string) : outcome (any_manager * Z) :=
  let is_tf := p.(p_bool) (topic +:+ ".is_tf")%string (is_tf_topic topic) in
  let rate := d_float (p.(p_double) (topic +:+ ".rate")%string default_rate) in
  let zstd_level := p.(p_int) (topic +:+ ".zstd_level")%string default_zstd_level in
  if is_tf then
    let is_static_tf := p.(p_bool) (topic +:+ ".is_static_tf")%string (is_static_tf_topic topic) in
    let tf_include := p.(p_strings) (topic +:+ ".include")%string [] in
    let tf_exclude := p.(p_strings) (topic +:+ ".exclude")%string [] in
    let m := TfManager.construct topic subscribe_namespace zstd_level publish_stale_data is_static_tf in
    m ← TfManager.set_include_pattern regex_ok tf_include m;
    m ← TfManager.set_exclude_pattern regex_ok tf_exclude m;
    m ← TfManager.setup_subscription from_rmw g m;
    ms ← timer_period_ms rate;
    Ok (Tf m, ms)
  else
    let m := SubscriptionManager.construct topic subscribe_namespace zstd_level publish_stale_data in
    m ← SubscriptionManager.setup_subscription from_rmw g m;
    ms ← timer_period_ms rate;
    Ok (Generic m, ms).

(** The rule of the transport fault injection, if any. *)
Definition load_fault_rule : option Faults.FaultRule :=
  let fault_type := p.(p_string) "fault_type" "none" in
  if negb (bool_decide (fault_type = "none"%string)) && negb (bool_decide (fault_type = ""%string)) then
    let rule :=
      {| Faults.kind := Faults.fault_kind_from_string fault_type;
         Faults.stream := ""; Faults.start_s := p.(p_double) "fault_start_s" d_zero;
         Faults.duration_s := p.(p_double) "fault_duration_s" (d_of_Z 1000000000);
         Faults.delay_ms := p.(p_double) "fault_delay_ms" d_zero;
         Faults.drop_rate := p.(p_double) "fault_drop_rate" d_zero;
         Faults.bandwidth_kbps := p.(p_double) "fault_bandwidth_kbps" d_zero;
         Faults.corrupt_bits := 4; Faults.seed := 1 |} in
    if bool_decide (Faults.kind rule = Faults.kNone) then None else Some rule
  else None.

Fixpoint load_topics (ns : string) (stale : bool) (rate : double) (level : Z)
    (topics : list string) : outcome (list (any_manager * Z)) :=
  match topics with
  | [] => Ok []
  | topic :: topics =>
    c ← load_topic ns stale rate level topic;
    cs ← load_topics ns stale rate level topics;
    Ok (c :: cs)
  end.

(** [load_parameters]: the name of the interface, the directory of the log,
    the fault rule, the namespace of the publishers and the topics. *)
Definition load_parameters :
    outcome (string * option string * option Faults.FaultRule * string * list (any_manager * Z)) :=
  let network_interface_name := p.(p_string) "network_interface" "network_bridge::UdpInterface" in
  let publish_stale_data := p.(p_bool) "publish_stale_data" false in
  let default_rate := d_float (p.(p_double) "default_rate" (d_of_Z 5)) in
  let default_zstd_level := p.(p_int) "default_zstd_level" 3 in
  let wal_record_dir := p.(p_string) "wal_record_dir" "" in
  let wal := if bool_decide (wal_record_dir = ""%string) then None else Some wal_record_dir in
  let rule := load_fault_rule in
  let publish_namespace := normalize_namespace (p.(p_string) "publish_namespace" "") in
  let subscribe_namespace := normalize_namespace (p.(p_string) "subscribe_namespace" "") in
  topics ← load_topics subscribe_namespace publish_stale_data default_rate default_zstd_level
             (p.(p_strings) "topics" []);
  Ok (network_interface_name, wal, rule, publish_namespace, topics).

End Load.

(** ** The inner header: topic '\0' type '\0' *)

Definition NUL : byte := Byte.x00.

Definition create_header (topic msg_type : string) : list byte :=
  bytes_of_string topic ++ [NUL] ++ bytes_of_string msg_type ++ [NUL].

(** The scan for a terminator, from the start of [l]. *)
Fixpoint scan_nul (l : list byte) : nat :=
  match l with
  | [] => 0
  | b :: l => if bool_decide (b = NUL) then 0 else S (scan_nul l)
  end.

(** The two strings are passed in and returned. *)
Definition parse_header (header : list byte) (topic msg_type : string) : string * string :=
  if (length header <? 4)%nat then (topic, msg_type) else
  let topic_end := scan_nul header in
  if (length header - 1 <=? topic_end)%nat then (topic, msg_type) else
  let topic := string_of_bytes (take topic_end header) in
  let type_start := S topic_end in
  let type_end := (type_start + scan_nul (drop type_start header))%nat in
  if (length header <=? type_end)%nat then (topic, msg_type)
  else (topic, string_of_bytes (slice type_start (type_end - type_start) header)).

(** ** Compression *)

Inductive content_size := SizeError | SizeUnknown | SizeKnown (n : Z).

(** Zstandard: results are error names or bytes. *)
Record zstd := mkZstd {
  ZSTD_compressBound : Z -> Z;
  ZSTD_compress : Z -> list byte -> Z -> string + list byte;      (** capacity, source, level *)
  ZSTD_getFrameContentSize : list byte -> content_size;
  ZSTD_decompress : Z -> list byte -> string + list byte
}.

Section Bridge.
Context {G : Type} (crc32c : list byte -> Z) (z : zstd).
(** [std::vector::resize] succeeds; [create_generic_publisher] succeeds. *)
Context (can_alloc : Z -> bool) (can_create : string -> string -> bool).
Context (from_rmw : SubscriptionManager.rmw_qos -> SubscriptionManager.rmw_qos)
        (moved_from : Backpressure.SensorFrame -> Backpressure.SensorFrame).
Context (uniform_real : G -> double * G) (uniform_int : Z -> Z -> G -> Z * G) (fault_clock : nat -> double).

(** A call of [ZSTD_compress] or [ZSTD_decompress] that writes to a buffer of
    [capacity] bytes. *)
Definition into_buffer (capacity : Z) (res : string + list byte) : outcome (list byte) :=
  match res with
  | inl name => Throws name
  | inr bytes => if capacity <? Z.of_nat (length bytes) then OutOfBounds else Ok bytes
  end.

Definition compress (data : list byte) (level : Z) : outcome (list byte) :=
  let compressedCapacity := z.(ZSTD_compressBound) (Z.of_nat (length data)) in
  if negb (can_alloc compressedCapacity) then Throws "std::bad_alloc" else
  into_buffer compressedCapacity (z.(ZSTD_compress) compressedCapacity data level).

Definition decompress (compressed_data : list byte) : outcome (list byte) :=
  match z.(ZSTD_getFrameContentSize) compressed_data with
  | SizeError => Throws "Not compressed by Zstd"
  | SizeUnknown => Throws "Original size unknown"
  | SizeKnown n =>
    if negb (can_alloc n) then Throws "std::bad_alloc" else
    bytes ← into_buffer n (z.(ZSTD_decompress) n compressed_data);
    Ok (bytes ++ repeat NUL (Z.to_nat n - length bytes))
  end.

(** ** The node *)

Record NetworkBridge := mkNetworkBridge {
  publish_namespace_ : string;
  tx_sequence_ : Z;
  frame_decoder_ : FrameCodec.FrameDecoder;
  frame_reject_count_ : Z;
  crc_failure_count_ : Z;
  publishers_ : gmap string (string * string);       (** topic, to name and type *)
  wal_writer_ : option WalWriter.WalWriter;
  wal_dir : WalWriter.directory;
  fault_engine_ : option (Faults.FaultEngine G);
  sent : list (list byte);                           (** [network_interface_->write] *)
  published : list (string * string * list byte)     (** name, type, bytes *)
}.

Definition construct (publish_namespace : string) (wal : option WalWriter.WalWriter)
    (dir : WalWriter.directory) (engine : option (Faults.FaultEngine G)) : NetworkBridge :=
  {| publish_namespace_ := publish_namespace; tx_sequence_ := 0; frame_decoder_ := ∅;
     frame_reject_count_ := 0; crc_failure_count_ := 0; publishers_ := ∅; wal_writer_ := wal;
     wal_dir := dir; fault_engine_ := engine; sent := []; published := [] |}.

(** The members the receiver changes. *)
Definition set_receiver dec rej crc pubs log (b : NetworkBridge) : NetworkBridge :=
  {| publish_namespace_ := b.(publish_namespace_); tx_sequence_ := b.(tx_sequence_); frame_decoder_ := dec;
     frame_reject_count_ := rej; crc_failure_count_ := crc; publishers_ := pubs;
     wal_writer_ := b.(wal_writer_); wal_dir := b.(wal_dir); fault_engine_ := b.(fault_engine_);
     sent := b.(sent); published := log |}.

(** The members the sender changes. *)
Definition set_sender seq wal dir engine out (b : NetworkBridge) : NetworkBridge :=
  {| publish_namespace_ := b.(publish_namespace_); tx_sequence_ := seq; frame_decoder_ := b.(frame_decoder_);
     frame_reject_count_ := b.(frame_reject_count_); crc_failure_count_ := b.(crc_failure_count_);
     publishers_ := b.(publishers_); wal_writer_ := wal; wal_dir := dir; fault_engine_ := engine;
     sent := out; published := b.(published) |}.

(** Step 4 of [receive_data]: the publisher of the topic, created on demand. *)
Definition publish (topic type : string) (payload : list byte) (b : NetworkBridge) : outcome NetworkBridge :=
  let name := (b.(publish_namespace_) +:+ topic)%string in
  let log pubs p := Ok (set_receiver b.(frame_decoder_) b.(frame_reject_count_) b.(crc_failure_count_)
                          pubs (b.(published) ++ [(p.1, p.2, payload)]) b) in
  match b.(publishers_) !! topic with
  | Some p => log b.(publishers_) p
  | None =>
    if negb (can_create name type) then Throws "rclcpp::exceptions"
    else log (<[topic := (name, type)]> b.(publishers_)) (name, type)
  end.

(** [receive_data]; [rclcpp_ok] is [rclcpp::ok()], which does not change
    during the call. *)
Definition receive_data (rclcpp_ok : bool) (data : list byte) (b : NetworkBridge) : outcome NetworkBridge :=
  if negb rclcpp_ok then Ok b else
  res ← FrameCodec.decode crc32c b.(frame_decoder_) (Some data) 0 Frame.FrameHeader_default;
  let '(err, fh, dec) := (res : Frame.FrameError * Frame.FrameHeader * FrameCodec.FrameDecoder) in
  if negb (bool_decide (err = Frame.kOk)) then
    let crc :=
      if bool_decide (err = Frame.kHeaderCrcMismatch) || bool_decide (err = Frame.kPayloadCrcMismatch)
      then u64 (b.(crc_failure_count_) + 1) else b.(crc_failure_count_) in
    Ok (set_receiver dec (u64 (b.(frame_reject_count_) + 1)) crc b.(publishers_) b.(published) b)
  else
    let b := set_receiver dec b.(frame_reject_count_) b.(crc_failure_count_) b.(publishers_) b.(published) b in
    frame_payload ← rd_range data (Z.to_nat Frame.kFrameOverhead) (Z.to_nat fh.(Frame.payload_size));
    match decompress frame_payload with
    | OutOfBounds => OutOfBounds
    | Throws _ => Ok b
    | Ok decompressed_data =>
      let '(topic, type) := parse_header decompressed_data "" "" in
      if bool_decide (topic = ""%string) || bool_decide (type = ""%string) then Ok b else
      let header_length := (String.length topic + 1 + String.length type + 1)%nat in
      if (length decompressed_data <? header_length)%nat then Ok b else
      publish topic type (drop header_length decompressed_data) b
    end.

(** The end of [send_data]: the frame goes to the fault engine or out. *)
Definition transmit (t_s : double) (topic : string) (frame : list byte)
    (engine : option (Faults.FaultEngine G)) (out : list (list byte)) :
    outcome (option (Faults.FaultEngine G) * list (list byte)) :=
  match engine with
  | Some e =>
    e' ← Faults.process uniform_real uniform_int fault_clock frame t_s topic e;
    Ok (Some e', out ++ drop (length (Faults.written e)) (Faults.written e'))
  | None => Ok (None, out ++ [frame])
  end.

(** The manager as [SubscriptionManager], and the virtual
    [check_subscription]. *)
Definition base_manager (m : any_manager) : SubscriptionManager.SubscriptionManager :=
  match m with Generic m => m | Tf m => TfManager.base m end.

Definition with_base (m : any_manager) (b : SubscriptionManager.SubscriptionManager) : any_manager :=
  match m with Generic _ => Generic b | Tf m => Tf (TfManager.set_base b m) end.

Definition check_subscription (g : SubscriptionManager.graph) (m : any_manager) : outcome any_manager :=
  match m with
  | Generic m => m ← SubscriptionManager.check_subscription from_rmw g m; Ok (Generic m)
  | Tf m => m ← TfManager.check_subscription from_rmw g m; Ok (Tf m)
  end.

(** The inputs of one timer: the ROS graph, the interface, the clocks, and
    the answers of the system to the log writer. *)
Record tick := mkTick {
  t_graph : SubscriptionManager.graph;
  t_ready : bool;
  t_now_ns : Z;
  t_scenario_s : double;
  t_io : WalWriter.io
}.

Definition send_data (t : tick) (m : any_manager) (b : NetworkBridge) : outcome (any_manager * NetworkBridge) :=
  m ← check_subscription t.(t_graph) m;
  if negb (SubscriptionManager.has_data (base_manager m)) then Ok (m, b) else
  if negb t.(t_ready) then Ok (m, b) else
  res ← SubscriptionManager.get_data moved_from (base_manager m);
  let '(bm, data, is_data_valid) := (res : SubscriptionManager.SubscriptionManager * list byte * bool) in
  let m := with_base m bm in
  if bool_decide (data = []) || negb is_data_valid then Ok (m, b) else
  let topic := SubscriptionManager.topic_ bm in
  let header := create_header topic (SubscriptionManager.msg_type_ bm) in
  match compress (header ++ data) (SubscriptionManager.zstd_compression_level_ bm) with
  | OutOfBounds => OutOfBounds
  | Throws _ => Ok (m, b)
  | Ok compressed_data =>
    let timestamp_ns := u64 t.(t_now_ns) in
    let sequence := b.(tx_sequence_) in
    let tx := u64 (sequence + 1) in
    match FrameCodec.encode_frame crc32c Frame.kControl sequence timestamp_ns Frame.kFlagCompressed
            compressed_data with
    | OutOfBounds => OutOfBounds
    | Throws _ => Ok (m, set_sender tx b.(wal_writer_) b.(wal_dir) b.(fault_engine_) b.(sent) b)
    | Ok frame =>
      let '(dir, wal) :=
        match b.(wal_writer_) with
        | Some w =>
          let '(dir, w, _) := WalWriter.append crc32c t.(t_io) b.(wal_dir) w timestamp_ns
                                Frame.kControl (u64 (tx - 1)) compressed_data in
          (dir, Some w)
        | None => (b.(wal_dir), None)
        end in
      res ← transmit t.(t_scenario_s) topic frame b.(fault_engine_) b.(sent);
      Ok (m, set_sender tx wal dir res.1 res.2 b)
    end
  end.

End Bridge.

(** ** The inner header *)

(** A topic or type name: not empty, without terminators. *)
Definition name_ok (s : string) : Prop := s <> ""%string /\ NUL ∉ bytes_of_string s.

Lemma scan_nul_app a rest : NUL ∉ a -> scan_nul (a ++ NUL :: rest) = length a.
Proof.
  induction a as [|b a IH]; intros Hn; cbn [app scan_nul length].
  - by rewrite bool_decide_true.
  - rewrite not_elem_of_cons in Hn. destruct Hn as [Hb Ha]. rewrite bool_decide_false by congruence.
    by rewrite IH.
Qed.

Lemma scan_nul_split l :
  (scan_nul l < length l)%nat -> exists rest, l = take (scan_nul l) l ++ NUL :: rest.
Proof.
  induction l as [|b l IH]; cbn [scan_nul length]; [lia|]. case_bool_decide as Hb.
  - intros _. exists l. by rewrite Hb.
  - intros Hl. destruct IH as [rest Hr]; [lia|]. exists rest. cbn [take app]. by rewrite <- Hr.
Qed.

Lemma scan_nul_prefix l : NUL ∉ take (scan_nul l) l.
Proof.
  induction l as [|b l IH]; cbn [scan_nul]; [by apply not_elem_of_nil|]. case_bool_decide as Hb; cbn [take]; [by apply not_elem_of_nil|].
  rewrite not_elem_of_cons. by split; [congruence|].
Qed.

Lemma bytes_of_string_nonempty s : s <> ""%string -> (0 < length (bytes_of_string s))%nat.
Proof. rewrite length_bytes_of_string. destruct s; [done|cbn; lia]. Qed.

Lemma bytes_of_string_of_bytes bs : bytes_of_string (string_of_bytes bs) = bs.
Proof.
  unfold bytes_of_string, string_of_bytes. rewrite String.list_ascii_of_string_of_list_ascii, map_map.
  rewrite <- (map_id bs) at 2. apply map_ext. intros b. unfold code.
  pose proof (b2z_range b) as Hb. unfold is_uint in Hb.
  rewrite N_ascii_embedding by lia. rewrite Z2N.id by lia. apply z2b_b2z.
Qed.

(** What is written is read, whatever follows. *)
Lemma parse_create_header topic type data :
  name_ok topic -> name_ok type ->
  parse_header (create_header topic type ++ data) "" "" = (topic, type).
Proof.
  intros [Ht1 Ht2] [Hy1 Hy2]. apply bytes_of_string_nonempty in Ht1, Hy1.
  assert (create_header topic type ++ data =
          bytes_of_string topic ++ NUL :: bytes_of_string type ++ NUL :: data) as ->.
  { unfold create_header. by rewrite <- !app_assoc. }
  unfold parse_header. rewrite !length_app. cbn [length]. rewrite length_app. cbn [length].
  rewrite (proj2 (Nat.ltb_ge _ _)) by lia.
  rewrite scan_nul_app by done. rewrite (proj2 (Nat.leb_gt _ _)) by lia.
  assert (drop (S (length (bytes_of_string topic)))
            (bytes_of_string topic ++ NUL :: bytes_of_string type ++ NUL :: data) =
          bytes_of_string type ++ NUL :: data) as Hd.
  { rewrite (cons_middle NUL), app_assoc. apply drop_app_length'. rewrite length_app. cbn. lia. }
  rewrite Hd, scan_nul_app by done. rewrite (proj2 (Nat.leb_gt _ _)) by lia.
  rewrite take_app_length, string_of_bytes_of_string. f_equal.
  unfold slice. rewrite Hd. replace (_ + _ - _)%nat with (length (bytes_of_string type)) by lia.
  by rewrite take_app_length, string_of_bytes_of_string.
Qed.

(** What is read was written. *)
Lemma parse_header_sound x topic type :
  parse_header x "" "" = (topic, type) -> topic <> ""%string -> type <> ""%string ->
  name_ok topic /\ name_ok type /\ exists data, x = create_header topic type ++ data.
Proof.
  unfold parse_header. case_test; [by intros [= <- <-]|]. case_test; [by intros [= <- <-]|].
  case_test; [by intros [= <- <-]|]. bool_to_prop. intros [= <- <-] Ht Hy.
  destruct (scan_nul_split x) as [r1 Hr1]; [lia|].
  assert (drop (S (scan_nul x)) x = r1) as Hd.
  { rewrite Hr1 at 2. rewrite (cons_middle NUL), app_assoc. apply drop_app_length'.
    rewrite length_app, length_take. cbn. lia. }
  rewrite Hd in *. assert (length x = scan_nul x + S (length r1))%nat as Hl.
  { rewrite Hr1 at 1. rewrite length_app, length_take. cbn [length]. lia. }
  unfold slice in *. rewrite Hd in *. assert (scan_nul x + scan_nul r1 - scan_nul x = scan_nul r1)%nat as Hm by lia. rewrite Hm in *.
  split; [by split; [|rewrite bytes_of_string_of_bytes; apply scan_nul_prefix]|].
  split; [by split; [|rewrite bytes_of_string_of_bytes; apply scan_nul_prefix]|].
  destruct (scan_nul_split r1) as [r2 Hr2]; [lia|]. exists r2.
  unfold create_header. rewrite !bytes_of_string_of_bytes.
  rewrite <- !app_assoc. cbn [app]. by rewrite <- Hr2, <- Hr1.
Qed.

Lemma length_create_header topic type :
  length (create_header topic type) = (String.length topic + 1 + String.length type + 1)%nat.
Proof. unfold create_header. rewrite !length_app, !length_bytes_of_string. cbn. lia. Qed.

(** ** Reception *)

Section Reception.
Context {G : Type} (crc32c : list byte -> Z) {Hck : Crc.Checksum crc32c} (z : zstd).
Context (can_alloc : Z -> bool) (can_create : string -> string -> bool).

Abbreviation NetworkBridge := (NetworkBridge (G := G)).
Abbreviation receive_data := (receive_data (G := G) crc32c z can_alloc can_create).

(** The frames of the link so far do not stand in the way of this one. *)
Definition link_ok (dec : FrameCodec.FrameDecoder) (sequence now : Z) : Prop :=
  match dec !! 0 with
  | None => True
  | Some st => FrameCodec.last_sequence st <= sequence /\ FrameCodec.last_timestamp_ns st <= now
  end.

(** The decoder after a frame it accepted. *)
Definition stream_at (seq ts : Z) : FrameCodec.StreamState :=
  {| FrameCodec.last_sequence := seq; FrameCodec.last_timestamp_ns := ts; FrameCodec.seen := true |}.

Lemma link_ok_at dec seq ts seq' ts' :
  dec !! 0 = Some (stream_at seq ts) -> seq <= seq' -> ts <= ts' -> link_ok dec seq' ts'.
Proof. intros E H1 H2. unfold link_ok. by rewrite E. Qed.

Lemma decode_sent dec seq ts y f :
  is_uint 64 seq -> is_uint 64 ts -> link_ok dec seq ts -> Z.of_nat (length y) <= Frame.kMaxPayload ->
  FrameCodec.encode_frame crc32c Frame.kControl seq ts Frame.kFlagCompressed y = Ok f ->
  rd_range f (Z.to_nat Frame.kFrameOverhead) (length y) = Ok y /\
  exists h dec', FrameCodec.decode crc32c dec (Some f) 0 Frame.FrameHeader_default = Ok (Frame.kOk, h, dec') /\
    Frame.payload_size h = Z.of_nat (length y) /\ dec' !! 0 = Some (stream_at seq ts).
Proof.
  intros Hs Ht Hl Hy He. rewrite FrameCodec.encode_frame_eq in He by done. injection He as <-.
  set (h := FrameCodec.encoded_header _ _ _ _ _ _).
  assert (FrameCodec.valid_frame crc32c h y) as Hv by (apply FrameCodec.encoded_header_valid; done).
  split.
  - rewrite <- (app_nil_r (FrameCodec.frame_bytes _ _ _)). unfold FrameCodec.frame_bytes.
    rewrite (app_assoc (FrameCodec.header_bytes h)), <- app_assoc. apply rd_range_mid; [|done].
    by rewrite length_app, FrameCodec.length_header_bytes, length_le_bytes.
  - exists h. unfold FrameCodec.decode.
    rewrite (FrameCodec.decode_header_complete crc32c _ _ h y []) by (done || by rewrite app_nil_r).
    cbn [mbind outcome_bind]. rewrite bool_decide_true by done. cbn [negb]. unfold link_ok in Hl.
    destruct (dec !! 0) as [st|]; cbn [default from_option id FrameCodec.StreamState_default FrameCodec.seen andb].
    + destruct Hl as [H1 H2]. change (Frame.sequence h) with seq. change (Frame.timestamp_ns h) with ts.
      rewrite (proj2 (Z.ltb_ge _ _) H1), (proj2 (Z.ltb_ge _ _) H2), andb_false_r.
      eexists. split; [done|]. split; [done|]. by rewrite lookup_insert_eq.
    + eexists. split; [done|]. split; [done|]. by rewrite lookup_insert_eq.
Qed.

Lemma receive_sent dec' h f y topic type data (b : NetworkBridge) :
  FrameCodec.decode crc32c (frame_decoder_ b) (Some f) 0 Frame.FrameHeader_default = Ok (Frame.kOk, h, dec') ->
  Frame.payload_size h = Z.of_nat (length y) ->
  rd_range f (Z.to_nat Frame.kFrameOverhead) (length y) = Ok y ->
  decompress z can_alloc y = Ok (create_header topic type ++ data) -> name_ok topic -> name_ok type ->
  receive_data true f b =
  publish can_create topic type data
    (set_receiver dec' (frame_reject_count_ b) (crc_failure_count_ b) (publishers_ b) (published b) b).
Proof.
  intros Hd Hps Hrd Hx Ht Hy. unfold NetworkBridge.receive_data. cbn [negb]. rewrite Hd.
  cbn [mbind outcome_bind]. rewrite bool_decide_true by done. cbn [negb].
  rewrite Hps, Nat2Z.id, Hrd. cbn [mbind outcome_bind]. rewrite Hx.
  rewrite parse_create_header by done. rewrite !bool_decide_false by (apply Ht || apply Hy). cbn [orb].
  rewrite length_app, length_create_header, (proj2 (Nat.ltb_ge _ _)) by lia.
  by rewrite drop_app_length' by (symmetry; apply length_create_header).
Qed.

End Reception.

(** The contract of Zstandard the node relies on: a decompression stays in its
    buffer; what was compressed has a known size and is decompressed again. *)
Class ZstdOk (z : zstd) : Prop := {
  zstd_bounded : forall n y x, ZSTD_decompress z n y = inr x -> Z.of_nat (length x) <= n;
  zstd_roundtrip : forall x level y,
    ZSTD_compress z (ZSTD_compressBound z (Z.of_nat (length x))) x level = inr y ->
    Z.of_nat (length y) <= ZSTD_compressBound z (Z.of_nat (length x)) /\
    ZSTD_getFrameContentSize z y = SizeKnown (Z.of_nat (length x)) /\
    ZSTD_decompress z (Z.of_nat (length x)) y = inr x
}.

Section Theorems.
Context {G : Type} (crc32c : list byte -> Z) {Hck : Crc.Checksum crc32c} (z : zstd) {Hz : ZstdOk z}.
Context (can_alloc : Z -> bool) (can_create : string -> string -> bool).
Context (from_rmw : SubscriptionManager.rmw_qos -> SubscriptionManager.rmw_qos)
        (moved_from : Backpressure.SensorFrame -> Backpressure.SensorFrame).
Context (uniform_real : G -> double * G) (uniform_int : Z -> Z -> G -> Z * G) (fault_clock : nat -> double).

Abbreviation NetworkBridge := (NetworkBridge (G := G)).
Abbreviation receive_data := (receive_data (G := G) crc32c z can_alloc can_create).
Abbreviation send_data :=
  (send_data (G := G) crc32c z can_alloc from_rmw moved_from uniform_real uniform_int fault_clock).

Lemma decompress_safe y : decompress z can_alloc y <> OutOfBounds.
Proof.
  unfold decompress. destruct (ZSTD_getFrameContentSize z y) as [| |n]; try done. case_test; [done|].
  unfold into_buffer. destruct (ZSTD_decompress z n y) as [e|x] eqn:Ed; [done|].
  apply zstd_bounded in Ed. by rewrite (proj2 (Z.ltb_ge _ _)) by lia.
Qed.

(** The publisher of a topic: the one it has, or a new one. *)
Definition publisher_of (topic type : string) (b : NetworkBridge) (p : string * string) : Prop :=
  publishers_ b !! topic = Some p \/
  publishers_ b !! topic = None /\ p = ((publish_namespace_ b +:+ topic)%string, type).

(** The topic has a publisher, or one can be created. *)
Definition can_publish (topic type : string) (b : NetworkBridge) : bool :=
  match publishers_ b !! topic with Some _ => true | None => can_create (publish_namespace_ b +:+ topic)%string type end.

(** [b'] is [b] after a publication. *)
Definition publishes (topic type : string) (payload : list byte) (b b' : NetworkBridge) : Prop :=
  exists p, publisher_of topic type b p /\ publishers_ b' !! topic = Some p /\
    published b' = published b ++ [(p.1, p.2, payload)].

Lemma publish_spec topic type payload (b : NetworkBridge) :
  if can_publish topic type b
  then exists b', publish can_create topic type payload b = Ok b' /\ publishes topic type payload b b' /\
         b' = set_receiver (frame_decoder_ b) (frame_reject_count_ b) (crc_failure_count_ b)
                (publishers_ b') (published b') b
  else publish can_create topic type payload b = Throws "rclcpp::exceptions".
Proof.
  unfold can_publish, publish, publishes, publisher_of. destruct (publishers_ b !! topic) as [p|] eqn:Ep.
  - eexists. split; [done|]. split; [|done]. exists p. split; [by left|done].
  - destruct (can_create _ type); cbn [negb]; [|done]. eexists. split; [done|]. split; [|done].
    eexists. split; [by right|]. cbn. by rewrite lookup_insert_eq.
Qed.

(** The bytes start with a well-formed frame (both checksums right) whose
    payload decompresses to the inner header of a topic and a type and then
    the payload. *)
Definition carries (data : list byte) (topic type : string) (payload : list byte) : Prop :=
  exists h y rest, FrameCodec.valid_frame crc32c h y /\ data = FrameCodec.frame_bytes crc32c h y ++ rest /\
    decompress z can_alloc y = Ok (create_header topic type ++ payload) /\ name_ok topic /\ name_ok type.

(** The frame at the start of some bytes is determined. *)
Lemma frame_unique h y rest h' y' rest' :
  FrameCodec.valid_frame crc32c h y -> FrameCodec.valid_frame crc32c h' y' ->
  FrameCodec.frame_bytes crc32c h y ++ rest = FrameCodec.frame_bytes crc32c h' y' ++ rest' -> y = y'.
Proof.
  intros Hv Hv' E.
  pose proof (FrameCodec.decode_header_complete crc32c _ Frame.FrameHeader_default h y rest Hv eq_refl) as H1.
  pose proof (FrameCodec.decode_header_complete crc32c _ Frame.FrameHeader_default h' y' rest' Hv' eq_refl) as H2.
  rewrite <- E, H1 in H2. injection H2 as <-. unfold FrameCodec.frame_bytes in E. rewrite <- !app_assoc in E.
  do 2 apply app_inv_head in E. apply (f_equal (take (length y))) in E.
  pose proof (FrameCodec.vf_payload_size _ _ _ Hv) as L. rewrite (FrameCodec.vf_payload_size _ _ _ Hv') in L.
  rewrite take_app_length in E. by rewrite take_app_length' in E by lia.
Qed.

(** What an accepted frame does. *)
Lemma receive_accepted data h dec (b : NetworkBridge) :
  FrameCodec.decode crc32c (frame_decoder_ b) (Some data) 0 Frame.FrameHeader_default = Ok (Frame.kOk, h, dec) ->
  let b1 := set_receiver dec (frame_reject_count_ b) (crc_failure_count_ b) (publishers_ b) (published b) b in
  (exists topic type payload, carries data topic type payload /\
     receive_data true data b = publish can_create topic type payload b1) \/
  (forall topic type payload, ~ carries data topic type payload) /\ receive_data true data b = Ok b1.
Proof.
  intros Hd b1. unfold NetworkBridge.receive_data. cbn [negb]. rewrite Hd. cbn [mbind outcome_bind].
  rewrite bool_decide_true by done. cbn [negb]. fold b1.
  destruct (FrameCodec.decode_total crc32c (frame_decoder_ b) (Some data) 0 Frame.FrameHeader_default) as (e & h' & dec' & Hd' & Hok).
  rewrite Hd in Hd'. injection Hd' as <- <- <-.
  specialize (Hok eq_refl). apply FrameCodec.decode_header_sound in Hok as (y & rest & Hv & Hdata).
  assert (rd_range data (Z.to_nat Frame.kFrameOverhead) (Z.to_nat (Frame.payload_size h)) = Ok y) as ->.
  { rewrite Hdata, (FrameCodec.vf_payload_size _ _ _ Hv), Nat2Z.id. unfold FrameCodec.frame_bytes.
    rewrite (app_assoc (FrameCodec.header_bytes h)), <- app_assoc. apply rd_range_mid; [|done].
    by rewrite length_app, FrameCodec.length_header_bytes, length_le_bytes. }
  assert (forall topic type payload, carries data topic type payload ->
            decompress z can_alloc y = Ok (create_header topic type ++ payload) /\ name_ok topic /\ name_ok type) as Hc.
  { intros topic type payload (h2 & y2 & rest2 & Hv2 & E2 & H2). rewrite Hdata in E2.
    by rewrite (frame_unique _ _ _ _ _ _ Hv Hv2 E2). }
  cbn [mbind outcome_bind]. pose proof (decompress_safe y) as Hsafe.
  destruct (decompress z can_alloc y) as [x|exn|] eqn:Ex; [|right; split; [|done]; intros ??? [E _]%Hc; congruence|done].
  destruct (parse_header x "" "") as [topic type] eqn:Ep.
  assert (forall topic' type' payload, carries data topic' type' payload -> topic' = topic /\ type' = type /\ name_ok topic /\ name_ok type) as Hc'.
  { intros topic' type' payload (E & H1 & H2)%Hc. injection E as ->. rewrite parse_create_header in Ep by done.
    by injection Ep as <- <-. }
  case_test.
  { right. split; [|done]. intros topic' type' payload (_ & _ & [H1 _] & [H2 _])%Hc'.
    apply orb_true_iff in E as [E|E]; by apply bool_decide_eq_true in E. }
  apply orb_false_iff in E as [E1 E2]. apply bool_decide_eq_false in E1, E2.
  destruct (parse_header_sound x topic type Ep E1 E2) as (Ht & Hy & payload & Hx).
  rewrite Hx, length_app, length_create_header, (proj2 (Nat.ltb_ge _ _)) by lia.
  rewrite drop_app_length' by (symmetry; apply length_create_header). left. exists topic, type, payload.
  split; [|done]. exists h, y, rest. by rewrite Ex, Hx.
Qed.

(** C3: reception fails closed.  On any bytes nothing is sent, and exactly one
    of four things happens.  A frame that the decoder rejects is counted and
    publishes nothing.  An accepted frame (both checksums right) that does not
    decompress to the inner header of a topic and a type publishes nothing.
    One that does publishes exactly the bytes behind that header, once, on the
    publisher of the topic, which has the type of its first message.  When the
    topic has no publisher and none can be created with this name and type,
    the exception of the library leaves [receive_data], and only then. *)
Theorem receive_data_fails_closed data (b : NetworkBridge) :
  exists e h dec,
    FrameCodec.decode crc32c (frame_decoder_ b) (Some data) 0 Frame.FrameHeader_default = Ok (e, h, dec) /\
    let ends b' := receive_data true data b = Ok b' /\ sent b' = sent b /\ tx_sequence_ b' = tx_sequence_ b /\
                   frame_decoder_ b' = dec in
    if decide (e = Frame.kOk)
    then (exists topic type payload, carries data topic type payload /\
            if can_publish topic type b
            then exists b', ends b' /\ frame_reject_count_ b' = frame_reject_count_ b /\
                   publishes topic type payload b b'
            else receive_data true data b = Throws "rclcpp::exceptions") \/
         (forall topic type payload, ~ carries data topic type payload) /\
         exists b', ends b' /\ frame_reject_count_ b' = frame_reject_count_ b /\ published b' = published b
    else exists b', ends b' /\ frame_reject_count_ b' = u64 (frame_reject_count_ b + 1) /\ published b' = published b.
Proof.
  destruct (FrameCodec.decode_total crc32c (frame_decoder_ b) (Some data) 0 Frame.FrameHeader_default) as (e & h & dec & Hd & _).
  exists e, h, dec. split; [done|]. cbv zeta. destruct (decide (e = Frame.kOk)) as [->|He].
  - destruct (receive_accepted data h dec b Hd) as [(topic & type & payload & Hc & E)|[Hc E]]; rewrite E.
    + left. exists topic, type, payload. split; [done|].
      match goal with |- context [publish _ _ _ _ ?b1] => pose proof (publish_spec topic type payload b1) as H; revert H end.
      unfold can_publish. cbn [publishers_ publish_namespace_ set_receiver]. case_test; [|done].
      intros (b' & E' & Hp & Hb). exists b'. split; [split; [exact E'|by rewrite Hb]|]. split; [by rewrite Hb|exact Hp].
    + right. split; [done|]. by eexists.
  - unfold NetworkBridge.receive_data. cbn [negb]. rewrite Hd. cbn [mbind outcome_bind].
    rewrite bool_decide_false by done. cbn [negb]. by eexists.
Qed.

(** ** From bridge to bridge *)

Definition subscribed (m : any_manager) : Prop :=
  match m with
  | Generic m => SubscriptionManager.subscriber m <> None
  | Tf m => TfManager.tf2_subscriber_ m <> None
  end.

Lemma check_subscribed g m : subscribed m -> check_subscription from_rmw g m = Ok m.
Proof.
  destruct m as [m|m]; cbn; unfold SubscriptionManager.check_subscription, TfManager.check_subscription;
    intros H; case_match; done.
Qed.

Lemma compress_ok x level y :
  (forall n, can_alloc n = true) ->
  ZSTD_compress z (ZSTD_compressBound z (Z.of_nat (length x))) x level = inr y ->
  compress z can_alloc x level = Ok y /\ decompress z can_alloc y = Ok x.
Proof.
  intros Ha Hc. destruct (zstd_roundtrip x level y Hc) as (H1 & H2 & H3).
  unfold compress, decompress, into_buffer. rewrite Hc, H2, H3, !Ha. cbn [negb].
  rewrite !(proj2 (Z.ltb_ge _ _)) by lia. split; [done|]. cbn [mbind outcome_bind].
  by rewrite Nat2Z.id, Nat.sub_diag, app_nil_r.
Qed.

(** The messages of [m] go to this topic with this type. *)
Record sends_to (m : any_manager) (topic type : string) (level : Z) : Prop := {
  st_wf : SubscriptionManager.wf (base_manager m);
  st_subscribed : subscribed m;
  st_topic : SubscriptionManager.topic_ (base_manager m) = topic;
  st_type : SubscriptionManager.msg_type_ (base_manager m) = type;
  st_level : SubscriptionManager.zstd_compression_level_ (base_manager m) = level
}.

(** The inner message of [f] compresses to a payload of legal size. *)
Definition compresses (topic type : string) (level : Z) (f : Backpressure.SensorFrame) (y : list byte) : Prop :=
  let x := create_header topic type ++ Backpressure.data f in
  ZSTD_compress z (ZSTD_compressBound z (Z.of_nat (length x))) x level = inr y /\
  Z.of_nat (length y) <= Frame.kMaxPayload.

(** What the timer records of a payload, in the directory of the log. *)
Definition record_payload (seq : Z) (t : tick) (y : list byte)
    (log : WalWriter.directory * option WalWriter.WalWriter) : WalWriter.directory * option WalWriter.WalWriter :=
  match log.2 with
  | Some w =>
    let '(dir, w, _) := WalWriter.append crc32c t.(t_io) log.1 w t.(t_now_ns) Frame.kControl seq y in (dir, Some w)
  | None => log
  end.

Definition log_of (b : NetworkBridge) : WalWriter.directory * option WalWriter.WalWriter :=
  (b.(wal_dir), b.(wal_writer_)).

Lemma send_one t m topic type level f q y (b : NetworkBridge) :
  (forall n, can_alloc n = true) -> sends_to m topic type level ->
  SubscriptionManager.queue (base_manager m) = f :: q -> Backpressure.data f <> [] ->
  compresses topic type level f y -> t_ready t = true -> is_uint 64 (t_now_ns t) ->
  is_uint 64 (tx_sequence_ b) -> fault_engine_ b = None ->
  exists m' b' fr, send_data t m b = Ok (m', b') /\ sends_to m' topic type level /\
    SubscriptionManager.queue (base_manager m') = q /\
    FrameCodec.encode_frame crc32c Frame.kControl (tx_sequence_ b) (t_now_ns t) Frame.kFlagCompressed y = Ok fr /\
    sent b' = sent b ++ [fr] /\ tx_sequence_ b' = u64 (tx_sequence_ b + 1) /\ fault_engine_ b' = None /\
    log_of b' = record_payload (tx_sequence_ b) t y (log_of b).
Proof.
  intros Ha [Hw Hs Ht Hy Hl] Hq Hne [Hc Hmax] Hr Hnow Htx Hf.
  destruct (compress_ok _ _ _ Ha Hc) as [Hcomp _].
  destruct (SubscriptionManager.get_data_spec moved_from (base_manager m) Hw) as (bm & Hw' & E & Hrest).
  rewrite Hq in E. destruct E as (E & Hq' & _). destruct Hrest as (_&_&_&_&_&_&H1&H2&H3&H4).
  unfold NetworkBridge.send_data. rewrite check_subscribed by done. cbn [mbind outcome_bind].
  rewrite SubscriptionManager.has_data_spec by done. rewrite Hq, bool_decide_false by done.
  destruct (SubscriptionManager.received_msg_ (base_manager m)) eqn:Er;
    [|by rewrite (SubscriptionManager.wf_received _ Hw Er) in Hq].
  cbn [negb andb orb]. rewrite Hr. cbn [negb]. rewrite E. cbn [mbind outcome_bind].
  rewrite bool_decide_false by done. cbn [negb orb]. rewrite H1, H2, H3, Ht, Hy, Hl, Hcomp.
  rewrite (wrap_small 64 (t_now_ns t)) by done.
  rewrite (FrameCodec.encode_frame_eq crc32c) by done. rewrite Hf. cbn [transmit].
  assert (sends_to (with_base m bm) topic type level) as Hm'.
  { destruct m as [m|m]; constructor; cbn in *; try congruence. }
  assert (base_manager (with_base m bm) = bm) as Hbm by by destruct m.
  rewrite wrap_pred by done. unfold record_payload, log_of. destruct (wal_writer_ b) as [w|]; cbn [fst snd].
  - destruct (WalWriter.append _ _ _ _ _ _ _ _) as [[dir w'] ok]. cbn [mbind outcome_bind fst snd].
    eexists _, _, _. split; [done|]. split; [done|]. by rewrite Hbm.
  - cbn [mbind outcome_bind fst snd]. eexists _, _, _. split; [done|]. split; [done|]. by rewrite Hbm.
Qed.

Fixpoint send_all (ticks : list tick) (m : any_manager) (b : NetworkBridge) : outcome (any_manager * NetworkBridge) :=
  match ticks with
  | [] => Ok (m, b)
  | t :: ticks => res ← send_data t m b; send_all ticks res.1 res.2
  end.

Fixpoint receive_all (frames : list (list byte)) (b : NetworkBridge) : outcome NetworkBridge :=
  match frames with
  | [] => Ok b
  | f :: frames => b ← receive_data true f b; receive_all frames b
  end.

(** The timers fire in time order, with the interface ready. *)
Fixpoint ticks_ok (last : Z) (ticks : list tick) : Prop :=
  match ticks with
  | [] => True
  | t :: ticks => t_ready t = true /\ last <= t_now_ns t < 2 ^ 64 /\ ticks_ok (t_now_ns t) ticks
  end.

(** One frame for each payload, with the next sequence number and the time. *)
Fixpoint framed (seq : Z) (ticks : list tick) (ys frames : list (list byte)) : Prop :=
  match ticks, ys, frames with
  | [], [], [] => True
  | t :: ticks, y :: ys, fr :: frames =>
    FrameCodec.encode_frame crc32c Frame.kControl seq (t_now_ns t) Frame.kFlagCompressed y = Ok fr /\
    framed (seq + 1) ticks ys frames
  | _, _, _ => False
  end.

Fixpoint record_all (seq : Z) (ticks : list tick) (ys : list (list byte))
    (log : WalWriter.directory * option WalWriter.WalWriter) : WalWriter.directory * option WalWriter.WalWriter :=
  match ticks, ys with
  | t :: ticks, y :: ys => record_all (seq + 1) ticks ys (record_payload seq t y log)
  | _, _ => log
  end.

(** The messages of the ring are framed and recorded, in order. *)
Lemma send_frames ticks m topic type level fs ys q last (s : NetworkBridge) :
  (forall n, can_alloc n = true) -> sends_to m topic type level ->
  SubscriptionManager.queue (base_manager m) = fs ++ q -> length ticks = length fs ->
  Forall (fun f => Backpressure.data f <> []) fs -> Forall2 (compresses topic type level) fs ys ->
  0 <= last -> ticks_ok last ticks -> fault_engine_ s = None ->
  0 <= tx_sequence_ s -> tx_sequence_ s + Z.of_nat (length fs) < 2 ^ 64 ->
  exists m' s' frames,
    send_all ticks m s = Ok (m', s') /\ SubscriptionManager.queue (base_manager m') = q /\
    sent s' = sent s ++ frames /\ framed (tx_sequence_ s) ticks ys frames /\
    log_of s' = record_all (tx_sequence_ s) ticks ys (log_of s).
Proof.
  intros Ha Hm Hq Hlen Hne Hys. revert ticks m last s Hm Hq Hlen Hne.
  induction Hys as [|f y fs ys Hy _ IH]; intros ticks m last s Hm Hq Hlen Hne H0 Htick Hf Htx0 Htx.
  { destruct ticks; [|done]. exists m, s, []. by rewrite app_nil_r. }
  destruct ticks as [|t ticks]; [done|]. cbn [ticks_ok length app] in *. destruct Htick as (Hr & Hnow & Htick).
  apply Forall_cons in Hne as [Hne1 Hne].
  destruct (send_one t m topic type level f (fs ++ q) y s Ha Hm Hq Hne1 Hy Hr) as (m1 & s1 & fr & E1 & Hm1 & Hq1 & He & Hs1 & Ht1 & Hf1 & Hl1);
    [unfold is_uint; lia..|done|].
  rewrite wrap_small in Ht1 by (unfold is_uint; lia).
  destruct (IH ticks m1 (t_now_ns t) s1) as (m2 & s2 & frames & E2 & Hq2 & Hs2 & Hfr & Hl2); [done|done|lia|done|lia|done|done|lia|lia|].
  exists m2, s2, (fr :: frames). cbn [send_all]. rewrite E1. cbn [mbind outcome_bind fst snd].
  split; [done|]. split; [done|]. split; [by rewrite Hs2, Hs1, <- app_assoc|]. rewrite Ht1, Hl1 in *. done.
Qed.

(** [r'] is [r] after the publication of the message of a frame. *)
Record accepts (topic type : string) (seq ts : Z) (data : list byte) (r r' : NetworkBridge) : Prop := {
  ac_namespace : publish_namespace_ r' = publish_namespace_ r;
  ac_publisher : publisher_of topic type r' ((publish_namespace_ r +:+ topic)%string, type);
  ac_decoder : frame_decoder_ r' !! 0 = Some (stream_at seq ts);
  ac_rejects : frame_reject_count_ r' = frame_reject_count_ r;
  ac_sent : sent r' = sent r;
  ac_published : published r' = published r ++ [((publish_namespace_ r +:+ topic)%string, type, data)]
}.

Lemma receive_frame seq ts topic type level f y fr (r : NetworkBridge) :
  (forall n, can_alloc n = true) -> (forall name ty, can_create name ty = true) ->
  name_ok topic -> name_ok type -> compresses topic type level f y -> is_uint 64 seq -> is_uint 64 ts ->
  link_ok (frame_decoder_ r) seq ts -> publisher_of topic type r ((publish_namespace_ r +:+ topic)%string, type) ->
  FrameCodec.encode_frame crc32c Frame.kControl seq ts Frame.kFlagCompressed y = Ok fr ->
  exists r', receive_data true fr r = Ok r' /\ accepts topic type seq ts (Backpressure.data f) r r'.
Proof.
  intros Ha Hcc Htop Htyp [Hy Hmax] Hs Ht Hlink Hpub He.
  destruct (decode_sent crc32c (frame_decoder_ r) seq ts y fr Hs Ht Hlink Hmax He) as (Hrd & h & dec & Hd & Hps & Hnext).
  destruct (compress_ok _ _ _ Ha Hy) as [_ Hdec].
  rewrite (receive_sent crc32c z can_alloc can_create dec h fr y topic type (Backpressure.data f) r Hd Hps Hrd Hdec Htop Htyp).
  match goal with |- context [publish _ _ _ _ ?b1] => pose proof (publish_spec topic type (Backpressure.data f) b1) as H; revert H end.
  assert (forall b, can_publish topic type b = true) as -> by (intros b; unfold can_publish; by destruct (publishers_ b !! topic)).
  intros (r1 & Ep & (p & Hp & Hp1 & Hpub1) & Hr1).
  assert (p = ((publish_namespace_ r +:+ topic)%string, type)) as ->.
  { unfold publisher_of in *. cbn [publishers_ set_receiver publish_namespace_] in Hp.
    destruct Hp as [Hp|[_ Hp]]; [|done]. destruct Hpub as [Hpub|[Hpub _]]; congruence. }
  exists r1. split; [exact Ep|]. split; [by rewrite Hr1|by left|by rewrite Hr1..|exact Hpub1].
Qed.

(** Messages whose frames have at most [limit] bytes. *)
Lemma receive_framed topic type level fs ys ticks frames seq last (r : NetworkBridge) :
  (forall n, can_alloc n = true) -> (forall name ty, can_create name ty = true) ->
  name_ok topic -> name_ok type -> Forall2 (compresses topic type level) fs ys ->
  0 <= last -> ticks_ok last ticks -> 0 <= seq -> seq + Z.of_nat (length fs) < 2 ^ 64 ->
  framed seq ticks ys frames -> link_ok (frame_decoder_ r) seq last ->
  publisher_of topic type r ((publish_namespace_ r +:+ topic)%string, type) ->
  exists r', receive_all frames r = Ok r' /\ sent r' = sent r /\
    published r' = published r ++
      map (fun f => ((publish_namespace_ r +:+ topic)%string, type, Backpressure.data f)) fs.
Proof.
  intros Ha Hcc Htop Htyp Hys. revert ticks frames seq last r.
  induction Hys as [|f y fs ys Hy _ IH]; intros ticks frames seq last r H0 Htick Hs Hw Hfr Hlink Hpub;
    destruct ticks as [|t ticks], frames as [|fr frames]; try done.
  { exists r. by rewrite app_nil_r. }
  cbn [ticks_ok framed length receive_all map] in *. destruct Htick as (_ & Hnow & Htick), Hfr as [He Hfr].
  destruct (receive_frame seq (t_now_ns t) topic type level f y fr r Ha Hcc Htop Htyp Hy) as (r1 & E1 & [H1 H2 H3 _ H5 H6]);
    [unfold is_uint; lia..|unfold link_ok in *; case_match; lia|done|done|].
  rewrite E1. cbn [mbind outcome_bind]. rewrite <- H1 in H2.
  destruct (IH ticks frames (seq + 1) (t_now_ns t) r1) as (r2 & E2 & H7 & H8); [lia|done|lia|lia|done|eapply link_ok_at; [done|lia..]|done|].
  exists r2. split; [done|]. rewrite H8, H7, H6, H5, H1, <- app_assoc. done.
Qed.

Lemma length_framed limit seq ticks ys frames :
  framed seq ticks ys frames ->
  Forall (fun y => Z.of_nat (length y) <= Frame.kMaxPayload /\ Frame.kFrameOverhead + Z.of_nat (length y) <= limit) ys ->
  Forall (fun fr => 0 < Z.of_nat (length fr) <= limit) frames.
Proof.
  revert seq ticks frames. induction ys as [|y ys IH]; intros seq ticks frames Hfr Hys;
    destruct ticks as [|t ticks], frames as [|fr frames]; try done.
  destruct Hfr as [He Hfr]. apply Forall_cons in Hys as [[Hmax Hl] Hys]. constructor; [|by eapply IH].
  rewrite FrameCodec.encode_frame_eq in He by done. injection He as <-. rewrite FrameCodec.length_frame_bytes.
  unfold Frame.kFrameOverhead, Frame.kHeaderSize in Hl. lia.
Qed.

(** The payloads of messages that compress. *)
Lemma payloads limit topic type level fs :
  Forall (fun f => Backpressure.data f <> [] /\
    exists y, compresses topic type level f y /\ Frame.kFrameOverhead + Z.of_nat (length y) <= limit) fs ->
  Forall (fun f => Backpressure.data f <> []) fs /\
  exists ys, Forall2 (compresses topic type level) fs ys /\
    Forall (fun y => Z.of_nat (length y) <= Frame.kMaxPayload /\ Frame.kFrameOverhead + Z.of_nat (length y) <= limit) ys.
Proof.
  induction 1 as [|f fs (Hne & y & Hy & Hl) _ (IH1 & ys & IH2 & IH3)]; [by split; [|exists []]|].
  split; [by constructor|]. exists (y :: ys). split; [by constructor|]. constructor; [|done]. split; [apply Hy|done].
Qed.

Lemma transfer limit ticks m topic type level fs q last (s r : NetworkBridge) :
  (forall n, can_alloc n = true) -> (forall name ty, can_create name ty = true) ->
  name_ok topic -> name_ok type -> sends_to m topic type level ->
  SubscriptionManager.queue (base_manager m) = fs ++ q -> length ticks = length fs ->
  Forall (fun f => Backpressure.data f <> [] /\
    exists y, compresses topic type level f y /\ Frame.kFrameOverhead + Z.of_nat (length y) <= limit) fs ->
  0 <= last -> ticks_ok last ticks -> fault_engine_ s = None ->
  0 <= tx_sequence_ s -> tx_sequence_ s + Z.of_nat (length fs) < 2 ^ 64 ->
  link_ok (frame_decoder_ r) (tx_sequence_ s) last ->
  publisher_of topic type r ((publish_namespace_ r +:+ topic)%string, type) ->
  exists m' s' frames r',
    send_all ticks m s = Ok (m', s') /\ SubscriptionManager.queue (base_manager m') = q /\
    sent s' = sent s ++ frames /\ receive_all frames r = Ok r' /\
    published r' = published r ++
      map (fun f => ((publish_namespace_ r +:+ topic)%string, type, Backpressure.data f)) fs /\
    sent r' = sent r /\ Forall (fun fr => 0 < Z.of_nat (length fr) <= limit) frames.
Proof.
  intros Ha Hcc Htop Htyp Hm Hq Hlen Hfs H0 Htick Hf H1 H2 Hlink Hpub.
  destruct (payloads _ _ _ _ _ Hfs) as (Hne & ys & Hys & Hl).
  destruct (send_frames ticks m topic type level fs ys q last s) as (m' & s' & frames & E & Hq' & Hs & Hfr & _); try done.
  destruct (receive_framed topic type level fs ys ticks frames (tx_sequence_ s) last r) as (r' & Er & Hsent & Hpub'); try done.
  exists m', s', frames, r'. repeat (split; [done|]). by eapply length_framed.
Qed.

(** From bridge to bridge.  A sender whose ring holds the messages [fs]
    sends one frame for each at the timers, and a receiver that gets these
    frames in order publishes exactly the bytes of [fs], in order, under the
    same topic (in its own namespace) and the same type; nothing else is
    sent or published.  This holds for a tf or any other manager, with or
    without recording, provided that messages compress to at most 4 MiB, that
    the clock does not go back, and that the 64-bit sequence does not wrap. *)
Theorem bridge_transfers ticks m topic type level fs q last (s r : NetworkBridge) :
  (forall n, can_alloc n = true) -> (forall name ty, can_create name ty = true) ->
  name_ok topic -> name_ok type -> sends_to m topic type level ->
  SubscriptionManager.queue (base_manager m) = fs ++ q -> length ticks = length fs ->
  Forall (fun f => Backpressure.data f <> [] /\ exists y, compresses topic type level f y) fs ->
  0 <= last -> ticks_ok last ticks -> fault_engine_ s = None ->
  0 <= tx_sequence_ s -> tx_sequence_ s + Z.of_nat (length fs) < 2 ^ 64 ->
  link_ok (frame_decoder_ r) (tx_sequence_ s) last ->
  publisher_of topic type r ((publish_namespace_ r +:+ topic)%string, type) ->
  exists m' s' frames r',
    send_all ticks m s = Ok (m', s') /\ SubscriptionManager.queue (base_manager m') = q /\
    sent s' = sent s ++ frames /\ receive_all frames r = Ok r' /\
    published r' = published r ++
      map (fun f => ((publish_namespace_ r +:+ topic)%string, type, Backpressure.data f)) fs /\
    sent r' = sent r.
Proof.
  intros Ha Hcc Htop Htyp Hm Hq Hlen Hfs H0 Ht Hf H1 H2 Hl Hp.
  destruct (transfer (Frame.kFrameOverhead + Frame.kMaxPayload) ticks m topic type level fs q last s r)
    as (m' & s' & frames & r' & E1 & E2 & E3 & E4 & E5 & E6 & _); try done.
  - eapply Forall_impl; [exact Hfs|]. intros f (Hd & y & Hy). split; [done|]. exists y. split; [done|]. destruct Hy. lia.
  - by exists m', s', frames, r'.
Qed.

End Theorems.

(** ** The properties at concrete inputs *)

(** A codec that stores. *)
Definition stored : zstd :=
  {| ZSTD_compressBound := fun n => n;
     ZSTD_compress := fun _ x _ => inr x;
     ZSTD_getFrameContentSize := fun y => SizeKnown (Z.of_nat (length y));
     ZSTD_decompress := fun n y => if Z.of_nat (length y) <=? n then inr y else inl "Destination buffer is too small" |}.

#[global] Instance stored_ok : ZstdOk stored.
Proof.
  split; cbn.
  - intros n y x. case_test; [|done]. intros [= <-]. by apply Z.leb_le.
  - intros x level y [= <-]. rewrite (proj2 (Z.leb_le _ _)) by lia. repeat split. lia.
Qed.

Definition sample_qos : SubscriptionManager.rmw_qos :=
  {| SubscriptionManager.durability := 0; SubscriptionManager.reliability := 0; SubscriptionManager.deadline := (0, 0);
     SubscriptionManager.liveliness := 0; SubscriptionManager.liveliness_lease_duration := (0, 0) |}.

Definition sample_frame : Backpressure.SensorFrame :=
  {| Backpressure.data := [z2b 1; z2b 2]; Backpressure.sequence := 0; Backpressure.timestamp_ns := 5 |}.

Definition sample_subscriber : SubscriptionManager.SubscriptionManager :=
  SubscriptionManager.set_subscription true "sensor_msgs/msg/Imu" (Some ("/imu", "sensor_msgs/msg/Imu", sample_qos)%string)
    (SubscriptionManager.construct "/imu" "" 3 false).

Definition sample_manager : SubscriptionManager.SubscriptionManager :=
  match SubscriptionManager.callback (fun f => f) [] (Backpressure.data sample_frame) 5 sample_subscriber with
  | Ok r => r.1
  | _ => sample_subscriber
  end.

Definition sample_tick : tick :=
  {| t_graph := {| SubscriptionManager.ok := true; SubscriptionManager.topic_names_and_types := ∅;
                   SubscriptionManager.publishers_info := fun _ => [] |};
     t_ready := true; t_now_ns := 9; t_scenario_s := d_zero; t_io := WalWriter.io_ok |}.

Definition sample_bridge (ns : string) : NetworkBridge (G := Z) := construct ns None ∅ None.

Lemma sample_manager_sends : sends_to (Generic sample_manager) "/imu" "sensor_msgs/msg/Imu" 3.
Proof.
  destruct (SubscriptionManager.callback_spec (fun f => f) [] (Backpressure.data sample_frame) 5 sample_subscriber)
    as (m & Hm & E & _).
  - destruct (SubscriptionManager.manager_construct_wf "/imu" "" 3 false) as [H1 H2 H3]. by constructor.
  - reflexivity.
  - constructor; try (vm_compute; (reflexivity || discriminate)).
    cbn [base_manager]. unfold sample_manager. rewrite E. exact Hm.
Qed.

Lemma name_ok_dec s : bool_decide (s <> ""%string /\ NUL ∉ bytes_of_string s) = true -> name_ok s.
Proof. apply bool_decide_eq_true. Qed.

Lemma bridge_transfers_witness :
  exists m' s' frames r',
    send_all Crc.crc32c_portable stored (fun _ => true) (fun q => q) (fun f => f)
      Faults.toy_real Faults.toy_int Faults.toy_clock
      [sample_tick] (Generic sample_manager) (sample_bridge "") = Ok (m', s') /\
    sent s' = frames /\
    receive_all Crc.crc32c_portable stored (fun _ => true) (fun _ _ => true) frames (sample_bridge "/mirror") = Ok r' /\
    published r' = [("/mirror/imu", "sensor_msgs/msg/Imu", [z2b 1; z2b 2])%string].
Proof.
  destruct (bridge_transfers Crc.crc32c_portable stored (fun _ => true) (fun _ _ => true) (fun q => q) (fun f => f)
      Faults.toy_real Faults.toy_int Faults.toy_clock [sample_tick] (Generic sample_manager)
      "/imu" "sensor_msgs/msg/Imu" 3 [sample_frame] [] 0 (sample_bridge "") (sample_bridge "/mirror"))
    as (m' & s' & frames & r' & H1 & _ & H2 & H3 & H4 & _).
  - reflexivity.
  - reflexivity.
  - apply name_ok_dec. vm_compute. reflexivity.
  - apply name_ok_dec. vm_compute. reflexivity.
  - exact sample_manager_sends.
  - vm_compute. reflexivity.
  - reflexivity.
  - constructor; [|constructor]. split; [discriminate|].
    exists (create_header "/imu" "sensor_msgs/msg/Imu" ++ [z2b 1; z2b 2]). split; [reflexivity|vm_compute; discriminate].
  - reflexivity.
  - vm_compute. repeat split; discriminate.
  - reflexivity.
  - reflexivity.
  - reflexivity.
  - exact I.
  - right. split; reflexivity.
  - exists m', s', frames, r'. split; [exact H1|]. split; [exact H2|]. split; [exact H3|exact H4].
Defined.

Lemma receive_data_fails_closed_witness :
  exists b', receive_data Crc.crc32c_portable stored (fun _ => true) (fun _ _ => false) true [z2b 1; z2b 2]
    (sample_bridge "") = Ok b' /\ frame_reject_count_ b' = 1.
Proof.
  destruct (receive_data_fails_closed Crc.crc32c_portable stored (fun _ => true) (fun _ _ => false)
    [z2b 1; z2b 2] (sample_bridge "")) as (e & h & dec & Hd & H).
  assert (e <> Frame.kOk) as He.
  { intros ->. vm_compute in Hd. discriminate. }
  destruct (decide (e = Frame.kOk)) as [|_]; [by destruct He|].
  destruct H as (b' & (H1 & _) & H2 & _). exists b'. split; [exact H1|exact H2].
Defined.

(** A frame for a topic whose type the library does not know. *)
Example unknown_type_throws :
  match FrameCodec.encode_frame Crc.crc32c_portable Frame.kControl 0 0 Frame.kFlagCompressed
          (create_header "/imu" "no/msg/Type" ++ [z2b 1]) with
  | Ok fr => receive_data Crc.crc32c_portable stored (fun _ => true) (fun _ type => negb (bool_decide (type = "no/msg/Type"%string)))
               true fr (sample_bridge "")
  | _ => OutOfBounds
  end = Throws "rclcpp::exceptions".
Proof. vm_compute. reflexivity. Qed.

End NetworkBridge.
