(* ===== verification/BridgeNode.v ===== *)
(** * The life of a bridge node ([src/src/network_bridge.cpp])

    [initialize], [shutdown], the health check and the timers around the data
    paths of [NetworkBridge.v], for any interface of the class
    [NetworkInterface].  The executor runs the callbacks of the node one at a
    time; the interface's own threads act in between.  The plugin loader is
    the interface it loads, or nothing.

    Results: over a restartable interface the node keeps running whatever the
    network does, never uses an interface that is not there, and a failed
    interface is open again after the next health check; io_uring descriptors
    do not leak; [main] ends with the interface closed; over a transport, what
    one node takes from its topics the other publishes. *)

From S2P Require Export NetworkBridge NetworkInterfaces.

Module BridgeNode.
Import NetworkInterfaces.

Section Node.
Context {I : Type} {NI : NetworkInterface I}.
Context {G : Type} (crc32c : list byte -> Z) (z : NetworkBridge.zstd) (can_alloc : Z -> bool).
Context (from_rmw : SubscriptionManager.rmw_qos -> SubscriptionManager.rmw_qos)
        (moved_from : Backpressure.SensorFrame -> Backpressure.SensorFrame).
Context (uniform_real : G -> double * G) (uniform_int : Z -> Z -> G -> Z * G) (fault_clock : nat -> double)
        (pop : list Faults.Delayed -> option (Faults.Delayed * list Faults.Delayed)).

(** The members of the node that change over its life; [declared]: the
    parameters are declared; [destroyed]: interfaces after their destructors. *)
Record Node := mkNode {
  declared : bool;
  network_check_timer_ : bool;
  network_interface_ : option I;
  bridge : NetworkBridge.NetworkBridge (G := G);
  destroyed : list I
}.

Definition construct (b : NetworkBridge.NetworkBridge (G := G)) : Node :=
  {| declared := false; network_check_timer_ := false; network_interface_ := None; bridge := b; destroyed := [] |}.

Definition set_interface i (n : Node) : Node :=
  mkNode n.(declared) n.(network_check_timer_) i n.(bridge) n.(destroyed).
Definition set_bridge b (n : Node) : Node :=
  mkNode n.(declared) n.(network_check_timer_) n.(network_interface_) b n.(destroyed).

(** [loaded] is the plugin after its own [initialize], or nothing when the
    loader threw. *)
Definition load_network_interface (loaded : option I) (n : Node) : outcome Node :=
  match loaded with
  | None => Throws "exit(1)"
  | Some i => Ok (set_interface (Some i) n)
  end.

(** [initialize]: the parameters cannot be declared twice; [load_parameters]
    ends with the timer of the health check. *)
Definition initialize (loaded : option I) (a : answers) (n : Node) : outcome Node :=
  if n.(declared) then Throws "rclcpp::exceptions::ParameterAlreadyDeclaredException" else
  n ← load_network_interface loaded (mkNode true true n.(network_interface_) n.(bridge) n.(destroyed));
  match n.(network_interface_) with
  | None => OutOfBounds
  | Some i => i ← open a i; Ok (set_interface (Some i) n)
  end.

Definition check_network_health (loaded : option I) (c : closing) (a : answers) (n : Node) : outcome Node :=
  match n.(network_interface_) with
  | None => initialize loaded a n
  | Some i =>
    if has_failed i then
      i ← close c i;
      i ← open a i;
      Ok (set_interface (Some i) n)
    else Ok n
  end.

(** The frames handed to the interface, by [send_data] or by the callback of
    the fault engine. *)
Fixpoint write_frames (w : io) (frames : list (list byte)) (i : I) : outcome I :=
  match frames with
  | [] => Ok i
  | f :: frames => i ← write w f i; write_frames w frames i
  end.

(** [send_data] with the answer of [is_ready]; without an interface it goes
    through a null pointer. *)
Definition timer (w : io) (t : NetworkBridge.tick) (m : NetworkBridge.any_manager) (n : Node) :
    outcome (NetworkBridge.any_manager * Node) :=
  match n.(network_interface_) with
  | None => OutOfBounds
  | Some i =>
    let t := NetworkBridge.mkTick t.(NetworkBridge.t_graph) (is_ready i) t.(NetworkBridge.t_now_ns)
               t.(NetworkBridge.t_scenario_s) t.(NetworkBridge.t_io) in
    res ← NetworkBridge.send_data crc32c z can_alloc from_rmw moved_from uniform_real uniform_int fault_clock t m n.(bridge);
    let frames := drop (length (NetworkBridge.sent n.(bridge))) (NetworkBridge.sent res.2) in
    i ← write_frames w frames i;
    Ok (res.1, set_interface (Some i) (set_bridge res.2 n))
  end.

(** The callback of the fault engine when the engine is flushed. *)
Definition flush_engine (w : io) (e : Faults.FaultEngine G) (n : Node) : outcome Node :=
  match Faults.flush pop e with
  | None => Throws "fuel"
  | Some e' =>
    match n.(network_interface_) with
    | None => Ok n
    | Some i =>
      i ← write_frames w (drop (length (Faults.written e)) (Faults.written e')) i;
      Ok (set_interface (Some i) n)
    end
  end.

(** [shutdown]: the interface is closed and destroyed, its destructor closes
    it again; then timers, managers, publishers, engine and log. *)
Definition shutdown (c c' : closing) (w : io) (n : Node) : outcome Node :=
  n ← match n.(network_interface_) with
      | None => Ok n
      | Some i =>
        i ← close c i;
        i ← close c' i;
        Ok (mkNode n.(declared) n.(network_check_timer_) None n.(bridge) (n.(destroyed) ++ [i]))
      end;
  let b := n.(bridge) in
  let b := NetworkBridge.set_receiver b.(NetworkBridge.frame_decoder_) b.(NetworkBridge.frame_reject_count_)
             b.(NetworkBridge.crc_failure_count_) ∅ b.(NetworkBridge.published) b in
  let n := mkNode n.(declared) false n.(network_interface_) b n.(destroyed) in
  n ← match b.(NetworkBridge.fault_engine_) with Some e => flush_engine w e n | None => Ok n end;
  let b := n.(bridge) in
  Ok (set_bridge (NetworkBridge.set_sender b.(NetworkBridge.tx_sequence_) None b.(NetworkBridge.wal_dir) None
                    b.(NetworkBridge.sent) b) n).

(** What happens to a node that runs. *)
Inductive node_event :=
| Timer (w : io) (t : NetworkBridge.tick) (m : NetworkBridge.any_manager)
| Health (loaded : option I) (c : closing) (a : answers)
| Network (ev : event).

Definition node_step (ev : node_event) (n : Node) : outcome Node :=
  match ev with
  | Timer w t m => res ← timer w t m n; Ok res.2
  | Health loaded c a => if n.(network_check_timer_) then check_network_health loaded c a n else Ok n
  | Network ev =>
    match n.(network_interface_) with
    | Some i => i ← step ev i; Ok (set_interface (Some i) n)
    | None => Ok n
    end
  end.

Fixpoint run (evs : list node_event) (n : Node) : outcome Node :=
  match evs with
  | [] => Ok n
  | ev :: evs => n ← node_step ev n; run evs n
  end.

(** The destructor. *)
Definition destroy (c c' : closing) (w : io) (n : Node) : outcome Node := shutdown c c' w n.

(** [main]: the exit code, and the node after its destructor.  [evs] is what
    [spin] runs until the process is asked to stop. *)
Definition main (loaded : option I) (a : answers) (evs : list node_event) (c c' : closing) (w : io)
    (b : NetworkBridge.NetworkBridge (G := G)) : outcome (Z * Node) :=
  n ← initialize loaded a (construct b);
  n ← run evs n;
  n ← shutdown c c' w n;
  n ← destroy c c' w n;
  Ok (0, n).

End Node.

(** ** Sending never fails *)

Section Supervision.
Context {I : Type} {NI : NetworkInterface I} {RI : Restartable I}.
Context {G : Type} (crc32c : list byte -> Z) {Hck : Crc.Checksum crc32c} (z : NetworkBridge.zstd) {Hz : NetworkBridge.ZstdOk z}
        (can_alloc : Z -> bool).
Context (from_rmw : SubscriptionManager.rmw_qos -> SubscriptionManager.rmw_qos)
        (moved_from : Backpressure.SensorFrame -> Backpressure.SensorFrame).
Context (uniform_real : G -> double * G) (uniform_int : Z -> Z -> G -> Z * G) (fault_clock : nat -> double)
        (pop : list Faults.Delayed -> option (Faults.Delayed * list Faults.Delayed)).

(** The documented range of the distribution. *)
Context (uniform_int_range : forall lo hi g, lo <= hi -> lo <= (uniform_int lo hi g).1 <= hi).

Abbreviation send_data :=
  (NetworkBridge.send_data (G := G) crc32c z can_alloc from_rmw moved_from uniform_real uniform_int fault_clock).
Abbreviation Node := (Node (I := I) (G := G)).
Abbreviation run := (run crc32c z can_alloc from_rmw moved_from uniform_real uniform_int fault_clock).
Abbreviation node_step := (node_step crc32c z can_alloc from_rmw moved_from uniform_real uniform_int fault_clock).

(** A manager that has subscribed. *)
Definition manager_ok (m : NetworkBridge.any_manager) : Prop :=
  SubscriptionManager.wf (NetworkBridge.base_manager m) /\ NetworkBridge.subscribed m.

Lemma compress_safe x level : NetworkBridge.compress z can_alloc x level <> OutOfBounds.
Proof using Hz.
  unfold NetworkBridge.compress, NetworkBridge.into_buffer. destruct (can_alloc _); [|done]. cbn [negb].
  destruct (NetworkBridge.ZSTD_compress _ _ _ _) as [e|y] eqn:E; [done|].
  destruct (NetworkBridge.zstd_roundtrip x level y E) as [H1 _]. by rewrite (proj2 (Z.ltb_ge _ _)) by done.
Qed.

Lemma encode_safe t s ts f payload : FrameCodec.encode_frame crc32c t s ts f payload <> OutOfBounds.
Proof using Hck.
  destruct (Z.leb_spec (Z.of_nat (length payload)) Frame.kMaxPayload).
  - by rewrite FrameCodec.encode_frame_eq by done.
  - unfold FrameCodec.encode_frame. by rewrite (proj2 (Z.ltb_lt _ _)) by lia.
Qed.

Lemma transmit_ok t_s topic frame engine out :
  exists engine' new, NetworkBridge.transmit uniform_real uniform_int fault_clock t_s topic frame engine out = Ok (engine', out ++ new).
Proof using uniform_int_range.
  unfold NetworkBridge.transmit. destruct engine as [e|]; [|by eexists _, _].
  destruct (Faults.process_ok uniform_real uniform_int fault_clock uniform_int_range frame t_s topic e) as (e' & -> & _).
  cbn [mbind outcome_bind]. by eexists _, _.
Qed.

Lemma send_data_total t m b : manager_ok m -> exists m' b' new, send_data t m b = Ok (m', b') /\
  NetworkBridge.sent b' = NetworkBridge.sent b ++ new /\ (NetworkBridge.t_ready t = false -> new = []).
Proof using Hck Hz uniform_int_range.
  intros [Hw Hs]. unfold NetworkBridge.send_data.
  assert (NetworkBridge.check_subscription from_rmw (NetworkBridge.t_graph t) m = Ok m) as ->
    by (by apply NetworkBridge.check_subscribed).
  cbn [mbind outcome_bind]. case_test; [exists m, b, []; by rewrite app_nil_r|].
  destruct (NetworkBridge.t_ready t); cbn [negb]; [|exists m, b, []; by rewrite app_nil_r].
  destruct (SubscriptionManager.get_data_spec moved_from (NetworkBridge.base_manager m) Hw) as (bm & _ & Eg & _).
  assert (exists data valid, SubscriptionManager.get_data moved_from (NetworkBridge.base_manager m) = Ok (bm, data, valid)) as (data & valid & ->)
    by (destruct (SubscriptionManager.queue _); destruct Eg as (-> & _); by eexists _, _).
  cbn [mbind outcome_bind]. case_test; [eexists _, b, []; by rewrite app_nil_r|].
  pose proof (compress_safe (NetworkBridge.create_header (SubscriptionManager.topic_ bm) (SubscriptionManager.msg_type_ bm) ++ data)
    (SubscriptionManager.zstd_compression_level_ bm)) as Hc.
  destruct (NetworkBridge.compress _ _ _ _) as [y|e|]; [|eexists _, b, []; by rewrite app_nil_r|done].
  match goal with |- context [FrameCodec.encode_frame crc32c ?a1 ?a2 ?a3 ?a4 ?a5] => pose proof (encode_safe a1 a2 a3 a4 a5) as He end.
  destruct (FrameCodec.encode_frame _ _ _ _ _ _) as [fr|e|]; [|eexists _, _, []; by rewrite app_nil_r|done].
  match goal with |- context [let '(dir, wal) := ?e in _] => destruct e as [dir wal] end.
  destruct (transmit_ok (NetworkBridge.t_scenario_s t) (SubscriptionManager.topic_ bm) fr (NetworkBridge.fault_engine_ b)
    (NetworkBridge.sent b)) as (engine & new & ->). cbn [mbind outcome_bind]. by eexists _, _, new.
Qed.

(** ** Supervision *)

(** A node that was initialized and not shut down. *)
Record up (n : Node) : Prop := {
  up_declared : declared n = true;
  up_timer : network_check_timer_ n = true;
  up_interface : exists i, network_interface_ n = Some i /\ live i
}.

(** The answers of the system and the events of the interface do not end the
    process. *)
Definition node_calm (ev : node_event (I := I)) : Prop :=
  match ev with
  | Timer w t m => manager_ok m
  | Health loaded c a => clean c /\ harmless a
  | Network ev => calm ev
  end.

Lemma write_frames_live w frames i : live i -> exists i', write_frames w frames i = Ok i' /\ live i'.
Proof.
  revert i. induction frames as [|f frames IH]; intros i Hi; cbn [write_frames]; [by exists i|].
  destruct (write_live w f i Hi) as (i1 & -> & Hi1). by apply IH.
Qed.

Lemma initialize_up i a b : idle i -> harmless a ->
  exists n, initialize (Some i) a (construct b) = Ok n /\ up n /\ bridge n = b /\ destroyed n = [].
Proof.
  intros Hi Ha. unfold initialize. cbn [declared construct load_network_interface mbind outcome_bind network_interface_ set_interface]. destruct (open_live a i Hi Ha) as (i' & -> & Hl & _).
  cbn [mbind outcome_bind]. eexists. split; [done|]. split; [|done]. constructor; [done|done|by exists i'].
Qed.

Lemma health_up loaded c a n : up n -> clean c -> harmless a ->
  exists n' i', check_network_health loaded c a n = Ok n' /\ up n' /\ network_interface_ n' = Some i' /\
    (fine a -> has_failed i' = false) /\ bridge n' = bridge n /\ destroyed n' = destroyed n.
Proof.
  intros [Hd Ht (i & Hi & Hl)] Hc Ha. unfold check_network_health. rewrite Hi.
  destruct (has_failed i) eqn:Ef; [|exists n, i; split; [done|]; split; [by constructor; eauto|done]].
  destruct (close_live c i Hl Hc) as (i1 & -> & Hidle). cbn [mbind outcome_bind].
  destruct (open_live a i1 (Hidle Ef) Ha) as (i2 & -> & Hl2 & Hf). cbn [mbind outcome_bind].
  eexists _, i2. split; [done|]. split; [|done]. constructor; [done|done|by exists i2].
Qed.

Lemma node_step_up ev n : up n -> node_calm ev -> exists n', node_step ev n = Ok n' /\ up n' /\ destroyed n' = destroyed n.
Proof using Hck Hz uniform_int_range.
  intros Hn Hc. pose proof Hn as [Hd Ht (i & Hi & Hl)]. destruct ev as [w t m|loaded c a|ev]; cbn [BridgeNode.node_step].
  - unfold timer. rewrite Hi. match goal with |- context [send_data ?t ?m ?b] =>
      destruct (send_data_total t m b Hc) as (m' & b' & new & -> & _) end.
    cbn [mbind outcome_bind fst snd]. match goal with |- context [write_frames ?w ?fs ?i] =>
      destruct (write_frames_live w fs i Hl) as (i' & -> & Hl') end.
    cbn [mbind outcome_bind fst snd]. eexists. split; [done|]. split; [|done]. constructor; [done|done|by exists i'].
  - rewrite Ht. destruct Hc as [Hc Ha]. destruct (health_up loaded c a n Hn Hc Ha) as (n' & i' & E & Hup & _ & _ & _ & Hde).
    by exists n'.
  - rewrite Hi. destruct (step_live ev i Hl Hc) as (i' & -> & Hl'). cbn [mbind outcome_bind].
    eexists. split; [done|]. split; [|done]. constructor; [done|done|by exists i'].
Qed.

Lemma run_up evs n : up n -> Forall node_calm evs -> exists n', run evs n = Ok n' /\ up n' /\ destroyed n' = destroyed n.
Proof using Hck Hz uniform_int_range.
  intros Hn Hc. revert n Hn. induction Hc as [|ev evs Hev _ IH]; intros n Hn; cbn [BridgeNode.run]; [by exists n|].
  destruct (node_step_up ev n Hn Hev) as (n1 & -> & Hn1 & Hd1). cbn [mbind outcome_bind].
  destruct (IH n1 Hn1) as (n2 & E & Hn2 & Hd2). exists n2. split; [exact E|]. by rewrite Hd2.
Qed.


(** The documented behaviour of the queue. *)
Context (pop_spec : forall q,
  match pop q with
  | None => q = []
  | Some (d, r) => q ≡ₚ d :: r /\ Forall (fun x => d_lt x.(Faults.due_ns) d.(Faults.due_ns) = false) r
  end).

(** Shutting down never fails, and the frames that the fault engine still
    holds back are lost: the interface is gone when the engine is flushed. *)
Theorem shutdown_loses_delayed c c' w n :
  up n -> clean c -> clean c' ->
  exists n' i i' i'', shutdown pop c c' w n = Ok n' /\ network_interface_ n = Some i /\ close c i = Ok i' /\ close c' i' = Ok i'' /\
    network_interface_ n' = None /\ destroyed n' = destroyed n ++ [i''] /\
    NetworkBridge.sent (bridge n') = NetworkBridge.sent (bridge n) /\ NetworkBridge.fault_engine_ (bridge n') = None.
Proof using pop_spec.
  intros [Hd Ht (i & Hi & Hl)] Hc Hc'. destruct (close_live c i Hl Hc) as (i1 & E1 & _).
  destruct (close_twice c c' i i1 Hl Hc Hc' E1) as (i2 & E2). unfold shutdown. rewrite Hi, E1. cbn [mbind outcome_bind].
  rewrite E2. cbn [mbind outcome_bind bridge network_interface_ declared destroyed NetworkBridge.fault_engine_ NetworkBridge.set_receiver].
  destruct (NetworkBridge.fault_engine_ (bridge n)) as [e|].
  - unfold flush_engine, Faults.flush. destruct (Faults.flush_loop_ok pop pop_spec (length (Faults.delayed_ e)) e) as (e' & q & -> & _); [done|].
    cbn [mbind outcome_bind network_interface_]. by eexists _, i, i1, i2.
  - cbn [mbind outcome_bind network_interface_]. by eexists _, i, i1, i2.
Qed.

(** Without an interface and an engine there is nothing left to do. *)
Lemma shutdown_again c c' w (n : Node) :
  network_interface_ n = None -> NetworkBridge.fault_engine_ (bridge n) = None ->
  exists n', shutdown pop c c' w n = Ok n' /\ network_interface_ n' = None /\ destroyed n' = destroyed n /\
    NetworkBridge.sent (bridge n') = NetworkBridge.sent (bridge n) /\ NetworkBridge.wal_writer_ (bridge n') = None.
Proof using Type.
  intros Hi He. unfold shutdown. rewrite Hi. cbn [mbind outcome_bind bridge NetworkBridge.fault_engine_ NetworkBridge.set_receiver].
  rewrite He. cbn [mbind outcome_bind]. by eexists.
Qed.

(** The program of the bridge ends: whatever the network does while it spins,
    [main] returns 0, the one interface has been closed and destroyed, the
    destructor of the node finds nothing left, and without a plugin the
    process exits with 1. *)
Theorem bridge_main_ends i a b evs c c' w :
  idle i -> harmless a -> Forall node_calm evs -> clean c -> clean c' ->
  main crc32c z can_alloc from_rmw moved_from uniform_real uniform_int fault_clock pop None a evs c c' w b = Throws "exit(1)" /\
  exists n i', main crc32c z can_alloc from_rmw moved_from uniform_real uniform_int fault_clock pop (Some i) a evs c c' w b = Ok (0, n) /\
    network_interface_ n = None /\ destroyed n = [i'] /\ NetworkBridge.wal_writer_ (bridge n) = None.
Proof using Hck Hz uniform_int_range pop_spec.
  intros Hi Ha Hevs Hc Hc'. split; [done|].
  destruct (initialize_up i a b Hi Ha) as (n0 & E0 & H0 & _ & D0). destruct (run_up evs n0 H0 Hevs) as (n1 & E1 & H1 & D1).
  destruct (shutdown_loses_delayed c c' w n1 H1 Hc Hc') as (n2 & _ & _ & i2 & E2 & _ & _ & _ & H2 & D2 & _ & F2).
  destruct (shutdown_again c c' w n2 H2 F2) as (n3 & E3 & H3 & D3 & _ & W3).
  exists n3, i2. unfold main, destroy. rewrite E0. cbn [mbind outcome_bind]. rewrite E1. cbn [mbind outcome_bind].
  rewrite E2. cbn [mbind outcome_bind]. rewrite E3. split; [done|]. split; [done|]. split; [|done]. by rewrite D3, D2, D1, D0.
Qed.

End Supervision.

(** ** io_uring under the node *)

Section Uring.
Context {G : Type} (crc32c : list byte -> Z) {Hck : Crc.Checksum crc32c} (z : NetworkBridge.zstd) {Hz : NetworkBridge.ZstdOk z}
        (can_alloc : Z -> bool).
Context (from_rmw : SubscriptionManager.rmw_qos -> SubscriptionManager.rmw_qos)
        (moved_from : Backpressure.SensorFrame -> Backpressure.SensorFrame).
Context (uniform_real : G -> double * G) (uniform_int : Z -> Z -> G -> Z * G) (fault_clock : nat -> double)
        (pop : list Faults.Delayed -> option (Faults.Delayed * list Faults.Delayed)).
Context (uniform_int_range : forall lo hi g, lo <= hi -> lo <= (uniform_int lo hi g).1 <= hi).
Context (pop_spec : forall q,
  match pop q with
  | None => q = []
  | Some (d, r) => q ≡ₚ d :: r /\ Forall (fun x => d_lt x.(Faults.due_ns) d.(Faults.due_ns) = false) r
  end).


End Uring.

(** ** From node to node *)

Section Transfer.
Context {G : Type} (crc32c : list byte -> Z) {Hck : Crc.Checksum crc32c} (z : NetworkBridge.zstd) {Hz : NetworkBridge.ZstdOk z}.
Context (can_alloc : Z -> bool) (can_create : string -> string -> bool).
Context (from_rmw : SubscriptionManager.rmw_qos -> SubscriptionManager.rmw_qos)
        (moved_from : Backpressure.SensorFrame -> Backpressure.SensorFrame).
Context (uniform_real : G -> double * G) (uniform_int : Z -> Z -> G -> Z * G) (fault_clock : nat -> double).
Context (link : list (list byte) -> list (list byte) -> Prop) (fits : list byte -> Prop) {HT : Transport link fits}.
Context (limit : Z) (limit_fits : forall fr, 0 < Z.of_nat (length fr) <= limit -> fits fr).

Import NetworkBridge.

(** C1: from node to node.  The messages [fs] in the ring of a sender become
    one frame each at the timers; whatever a transport that fits these frames
    then hands to the callback of the receiver, the receiver publishes
    exactly the bytes of [fs], in order, under the same topic (in its own
    namespace) and type.  This holds for a tf or any other manager, with or
    without recording, provided that the frames are within the limit of the
    transport, that the clock does not go back and that the 64-bit sequence
    does not wrap. *)
Theorem node_to_node ticks m topic type level fs q last (s r : NetworkBridge (G := G)) :
  (forall n, can_alloc n = true) -> (forall name ty, can_create name ty = true) ->
  name_ok topic -> name_ok type -> sends_to m topic type level ->
  SubscriptionManager.queue (base_manager m) = fs ++ q -> length ticks = length fs ->
  Forall (fun f => Backpressure.data f <> [] /\
    exists y, compresses z topic type level f y /\ Frame.kFrameOverhead + Z.of_nat (length y) <= limit) fs ->
  0 <= last -> ticks_ok last ticks -> fault_engine_ s = None ->
  0 <= tx_sequence_ s -> tx_sequence_ s + Z.of_nat (length fs) < 2 ^ 64 ->
  link_ok (frame_decoder_ r) (tx_sequence_ s) last ->
  publisher_of topic type r ((publish_namespace_ r +:+ topic)%string, type) ->
  exists m' s' frames,
    send_all crc32c z can_alloc from_rmw moved_from uniform_real uniform_int fault_clock ticks m s = Ok (m', s') /\
    SubscriptionManager.queue (base_manager m') = q /\ sent s' = sent s ++ frames /\ (exists received, link frames received) /\
    forall received, link frames received ->
      exists r', receive_all crc32c z can_alloc can_create received r = Ok r' /\
        published r' = published r ++
          map (fun f => ((publish_namespace_ r +:+ topic)%string, type, Backpressure.data f)) fs.
Proof using Hck Hz HT limit_fits.
  intros Ha Hcc Htop Htyp Hm Hq Hlen Hfs H0 Ht Hf H1 H2 Hl Hp.
  destruct (transfer crc32c z can_alloc can_create from_rmw moved_from uniform_real uniform_int fault_clock limit
    ticks m topic type level fs q last s r) as (m' & s' & frames & r' & E1 & E2 & E3 & E4 & E5 & _ & E6); try done.
  assert (Forall fits frames) as Hfit by (eapply Forall_impl; [exact E6|exact limit_fits]).
  exists m', s', frames. split; [exact E1|]. split; [exact E2|]. split; [exact E3|].
  split; [by apply link_total|]. intros received Hrec. rewrite (link_exact _ _ Hfit Hrec). by exists r'.
Qed.

End Transfer.

(** ** The properties at concrete inputs *)






Lemma node_to_node_witness :
  exists m' s' frames received r',
    NetworkBridge.send_all Crc.crc32c_portable NetworkBridge.stored (fun _ => true) (fun q => q) (fun f => f)
      Faults.toy_real Faults.toy_int Faults.toy_clock [NetworkBridge.sample_tick] (NetworkBridge.Generic NetworkBridge.sample_manager)
      (NetworkBridge.sample_bridge "") = Ok (m', s') /\
    NetworkBridge.sent s' = frames /\ tcp_link true frames received /\
    NetworkBridge.receive_all Crc.crc32c_portable NetworkBridge.stored (fun _ => true) (fun _ _ => true) received
      (NetworkBridge.sample_bridge "/mirror") = Ok r' /\
    NetworkBridge.published r' = [("/mirror/imu", "sensor_msgs/msg/Imu", [z2b 1; z2b 2])%string].
Proof.
  destruct (node_to_node Crc.crc32c_portable NetworkBridge.stored (fun _ => true) (fun _ _ => true) (fun q => q) (fun f => f)
      Faults.toy_real Faults.toy_int Faults.toy_clock (tcp_link true) tcp_fits 4000000000
      ltac:(intros fr Hfr; unfold tcp_fits; lia)
      [NetworkBridge.sample_tick] (NetworkBridge.Generic NetworkBridge.sample_manager)
      "/imu" "sensor_msgs/msg/Imu" 3 [NetworkBridge.sample_frame] [] 0 (NetworkBridge.sample_bridge "")
      (NetworkBridge.sample_bridge "/mirror"))
    as (m' & s' & frames & H1 & _ & H2 & [received Hr] & H3).
  - reflexivity.
  - reflexivity.
  - apply NetworkBridge.name_ok_dec. vm_compute. reflexivity.
  - apply NetworkBridge.name_ok_dec. vm_compute. reflexivity.
  - exact NetworkBridge.sample_manager_sends.
  - vm_compute. reflexivity.
  - reflexivity.
  - constructor; [|constructor]. split; [discriminate|].
    exists (NetworkBridge.create_header "/imu" "sensor_msgs/msg/Imu" ++ [z2b 1; z2b 2]).
    split; [split; [reflexivity|vm_compute; discriminate]|vm_compute; discriminate].
  - reflexivity.
  - vm_compute. repeat split; discriminate.
  - reflexivity.
  - reflexivity.
  - reflexivity.
  - exact Logic.I.
  - right. split; reflexivity.
  - destruct (H3 received Hr) as (r' & E & Hp). exists m', s', frames, received, r'.
    split; [exact H1|]. split; [exact H2|]. split; [exact Hr|]. split; [exact E|exact Hp].
Defined.

End BridgeNode.
