(* ===== verification/LossyLink.v ===== *)
(** * Bridges over an unreliable link

    What a receiver publishes when frames of a sender are lost, delivered
    late, delivered again or damaged, and when foreign bytes arrive between
    them.  An arrival is one call of [receive_data]
    ([src/src/network_bridge.cpp]); what arrives is described relative to the
    frames that the sender of [NetworkBridge] wrote.

    Result: the receiver publishes exactly the messages of the arrivals that
    are intact and not older than the last one it published, in the order of
    the sender, and counts every other arrival. *)

From S2P Require Export NetworkBridge.
From stdpp Require Import sorting.
#[local] Open Scope Z_scope.

Module LossyLink.
Import NetworkBridge.

(** ** Arrivals *)

(** The [k]-th frame as it was sent, the [k]-th frame with a burst of up to 32
    flipped bits, or bytes that do not start with a frame of the protocol. *)
Inductive arrival :=
| Intact (k : nat)
| Damaged (k : nat)
| Foreign.

(** The messages the receiver publishes: [next] is the number of the last one,
    or 0. *)
Fixpoint kept (next : nat) (l : list arrival) : list nat :=
  match l with
  | [] => []
  | Intact k :: l => if (next <=? k)%nat then k :: kept k l else kept next l
  | (Damaged _ | Foreign) :: l => kept next l
  end.

(** The numbers of the intact arrivals. *)
Fixpoint intact (l : list arrival) : list nat :=
  match l with
  | [] => []
  | Intact k :: l => k :: intact l
  | (Damaged _ | Foreign) :: l => intact l
  end.

Lemma kept_sorted next l : StronglySorted le (kept next l) /\ Forall (le next) (kept next l).
Proof.
  revert next. induction l as [|[k|k|] l IH]; intros next; cbn [kept]; [by split; constructor| |apply IH|apply IH].
  case_test; [|apply IH]. bool_to_prop. destruct (IH k) as [H1 H2].
  assert (forall j, (k <= j)%nat -> (next <= j)%nat) as Hle by lia.
  split; constructor; try done. by eapply Forall_impl; [exact H2|].
Qed.

(** Frames that are not overtaken are all published. *)
Lemma kept_in_order next l : StronglySorted le (intact l) -> Forall (le next) (intact l) -> kept next l = intact l.
Proof.
  revert next. induction l as [|[k|k|] l IH]; intros next; cbn [kept intact]; [done| |apply IH|apply IH].
  intros Hs Hf. apply Forall_cons in Hf as [Hk _]. inversion Hs as [|? ? Hs' Hf']; subst.
  rewrite (proj2 (Nat.leb_le _ _) Hk). f_equal. by apply IH.
Qed.

Section Link.
Context {G : Type} (crc32c : list byte -> Z) {Hck : Crc.Checksum crc32c} (z : zstd) {Hz : ZstdOk z}.
Context (can_alloc : Z -> bool) (can_create : string -> string -> bool).

Abbreviation NetworkBridge := (NetworkBridge (G := G)).
Abbreviation receive_data := (receive_data (G := G) crc32c z can_alloc can_create).
Abbreviation receive_all := (receive_all (G := G) crc32c z can_alloc can_create).

(** The bytes of an arrival, given the frames that were sent. *)
Inductive arrives (frames : list (list byte)) : arrival -> list byte -> Prop :=
| arrives_intact k fr : frames !! k = Some fr -> arrives frames (Intact k) fr
| arrives_damaged k fr g : frames !! k = Some fr -> Crc.burst_error fr g -> arrives frames (Damaged k) g
| arrives_foreign g :
    (forall h y rest, FrameCodec.valid_frame crc32c h y -> g <> FrameCodec.frame_bytes crc32c h y ++ rest) ->
    arrives frames Foreign g.

(** ** What the receiver rejects *)

(** [r'] is [r] after a rejected arrival. *)
Record rejects (r r' : NetworkBridge) : Prop := {
  rj_namespace : publish_namespace_ r' = publish_namespace_ r;
  rj_publishers : publishers_ r' = publishers_ r;
  rj_decoder : frame_decoder_ r' !! 0 = frame_decoder_ r !! 0;
  rj_rejects : frame_reject_count_ r' = u64 (frame_reject_count_ r + 1);
  rj_sent : sent r' = sent r;
  rj_published : published r' = published r
}.

Lemma receive_rejected e h dec data (r : NetworkBridge) :
  FrameCodec.decode crc32c (frame_decoder_ r) (Some data) 0 Frame.FrameHeader_default = Ok (e, h, dec) ->
  e <> Frame.kOk -> dec !! 0 = frame_decoder_ r !! 0 ->
  exists r', receive_data true data r = Ok r' /\ rejects r r'.
Proof using.
  intros Hd He Hdec. unfold NetworkBridge.receive_data. cbn [negb]. rewrite Hd. cbn [mbind outcome_bind].
  rewrite bool_decide_false by done. cbn [negb]. eexists. by split.
Qed.

(** Bytes without a frame leave the decoder as it was. *)
Lemma receive_no_frame data (r : NetworkBridge) :
  (forall h y rest, FrameCodec.valid_frame crc32c h y -> data <> FrameCodec.frame_bytes crc32c h y ++ rest) ->
  exists r', receive_data true data r = Ok r' /\ rejects r r'.
Proof using.
  intros Hno. destruct (FrameCodec.decode_header_total crc32c (Some data) Frame.FrameHeader_default) as (e & h & Hd & _).
  assert (e <> Frame.kOk) as He.
  { intros ->. apply FrameCodec.decode_header_sound in Hd as (y & rest & Hv & Hb). by eapply Hno. }
  apply (receive_rejected e h (frame_decoder_ r) data r); [|done|done].
  unfold FrameCodec.decode. rewrite Hd. cbn [mbind outcome_bind]. by rewrite bool_decide_false.
Qed.

(** A frame from before the last one is a regression of the sequence. *)
Lemma receive_late seq ts y fr seq' ts' (r : NetworkBridge) :
  FrameCodec.encode_frame crc32c Frame.kControl seq ts Frame.kFlagCompressed y = Ok fr ->
  is_uint 64 seq -> is_uint 64 ts -> Z.of_nat (length y) <= Frame.kMaxPayload ->
  frame_decoder_ r !! 0 = Some (stream_at seq' ts') -> seq < seq' ->
  exists r', receive_data true fr r = Ok r' /\ rejects r r'.
Proof using Hck.
  intros He Hs Ht Hy Hdec Hlt. rewrite FrameCodec.encode_frame_eq in He by done. injection He as <-.
  set (h := FrameCodec.encoded_header _ _ _ _ _ _).
  assert (FrameCodec.valid_frame crc32c h y) as Hv by (apply FrameCodec.encoded_header_valid; done).
  eapply (receive_rejected Frame.kSequenceRegression h); [|done|].
  - unfold FrameCodec.decode.
    rewrite (FrameCodec.decode_header_complete crc32c _ _ h y []) by (done || by rewrite app_nil_r).
    cbn [mbind outcome_bind]. rewrite bool_decide_true by done. cbn [negb]. rewrite Hdec.
    cbn [default from_option id stream_at FrameCodec.seen FrameCodec.last_sequence andb].
    change (Frame.sequence h) with seq. by rewrite (proj2 (Z.ltb_lt _ _) Hlt).
  - by rewrite lookup_insert_eq, Hdec.
Qed.

(** ** One frame among those that were sent *)

Lemma framed_lookup seq ticks ys frames k fr :
  framed crc32c seq ticks ys frames -> frames !! k = Some fr ->
  exists t y, ticks !! k = Some t /\ ys !! k = Some y /\
    FrameCodec.encode_frame crc32c Frame.kControl (seq + Z.of_nat k) (t_now_ns t) Frame.kFlagCompressed y = Ok fr.
Proof using.
  revert seq ticks ys k. induction frames as [|fr' frames IH]; intros seq ticks ys k Hf Hk; [done|].
  destruct ticks as [|t ticks], ys as [|y ys]; try done. destruct Hf as [He Hf]. destruct k as [|k].
  - injection Hk as ->. exists t, y. by rewrite Z.add_0_r.
  - destruct (IH _ _ _ k Hf Hk) as (t' & y' & H1 & H2 & H3). exists t', y'. split; [done|]. split; [done|].
    by replace (seq + Z.of_nat (S k)) with (seq + 1 + Z.of_nat k) by lia.
Qed.

Lemma ticks_range last ticks k t :
  0 <= last -> ticks_ok last ticks -> ticks !! k = Some t -> last <= t_now_ns t < 2 ^ 64.
Proof using.
  revert last k. induction ticks as [|t' ticks IH]; intros last k H0 Ht Hk; [done|].
  destruct Ht as (_ & Hn & Ht). destruct k as [|k]; [by injection Hk as <-|].
  destruct (IH (t_now_ns t') k); [lia|done|done|lia].
Qed.

Lemma ticks_monotone last ticks i j t t' :
  0 <= last -> ticks_ok last ticks -> (i <= j)%nat -> ticks !! i = Some t -> ticks !! j = Some t' ->
  t_now_ns t <= t_now_ns t'.
Proof using.
  revert last i j. induction ticks as [|u ticks IH]; intros last i j H0 Ht Hij Hi Hj; [done|].
  destruct Ht as (_ & Hn & Ht). destruct i as [|i], j as [|j]; [cbn in *; simplify_eq; lia| |lia|].
  - injection Hi as ->. eapply ticks_range in Ht; [|lia|exact Hj]. lia.
  - apply (IH (t_now_ns u) i j); [lia|done|lia|done|done].
Qed.

Lemma damaged_no_frame seq ts y fr g h y' rest :
  FrameCodec.encode_frame crc32c Frame.kControl seq ts Frame.kFlagCompressed y = Ok fr ->
  is_uint 64 seq -> is_uint 64 ts -> Z.of_nat (length y) <= Frame.kMaxPayload ->
  Crc.burst_error fr g -> FrameCodec.valid_frame crc32c h y' -> g <> FrameCodec.frame_bytes crc32c h y' ++ rest.
Proof using Hck.
  intros He Hs Ht Hy Hb Hv Hg. rewrite FrameCodec.encode_frame_eq in He by done. injection He as <-.
  eapply (FrameCodec.burst_not_valid crc32c _ _ h y' g [] rest); [|exact Hv|exact Hb|by rewrite app_nil_r].
  by apply FrameCodec.encoded_header_valid.
Qed.

(** ** The receiver on a link *)

Section Receiver.
Context (topic type : string) (level : Z) (fs : list Backpressure.SensorFrame) (ys : list (list byte)).
Context (ticks : list tick) (frames : list (list byte)) (seq last : Z).
Context (alloc_ok : forall n, can_alloc n = true) (create_ok : forall name ty, can_create name ty = true).
Context (topic_ok : name_ok topic) (type_ok : name_ok type).
Context (Hys : Forall2 (compresses z topic type level) fs ys).
Context (Hlast : 0 <= last) (Hticks : ticks_ok last ticks).
Context (Hseq : 0 <= seq) (Hroom : seq + Z.of_nat (length fs) < 2 ^ 64).
Context (Hframed : framed crc32c seq ticks ys frames).

(** What is known of the sent frame [k]. *)
Lemma sent_frame k fr :
  frames !! k = Some fr ->
  exists t y f, ticks !! k = Some t /\ fs !! k = Some f /\ compresses z topic type level f y /\
    is_uint 64 (seq + Z.of_nat k) /\ is_uint 64 (t_now_ns t) /\
    FrameCodec.encode_frame crc32c Frame.kControl (seq + Z.of_nat k) (t_now_ns t) Frame.kFlagCompressed y = Ok fr.
Proof using Hframed Hlast Hroom Hseq Hticks Hys.
  intros Hk. destruct (framed_lookup seq ticks ys frames k fr Hframed Hk) as (t & y & H1 & H2 & H3).
  destruct (Forall2_lookup_r _ _ _ _ _ Hys H2) as (f & Hf & Hc). exists t, y, f.
  pose proof (ticks_range last ticks k t Hlast Hticks H1). pose proof (lookup_lt_Some _ _ _ Hf).
  unfold is_uint. repeat split; (done || apply Hc || lia).
Qed.

(** The receiver when frame [next] is the oldest it still publishes. *)
Record at_frame (ns : string) (next : nat) (r : NetworkBridge) : Prop := {
  at_namespace : publish_namespace_ r = ns;
  at_publisher : publisher_of topic type r ((ns +:+ topic)%string, type);
  at_next : forall k t, (next <= k)%nat -> ticks !! k = Some t ->
    link_ok (frame_decoder_ r) (seq + Z.of_nat k) (t_now_ns t);
  at_late : forall k, (k < next)%nat -> exists s ts,
    frame_decoder_ r !! 0 = Some (stream_at s ts) /\ seq + Z.of_nat k < s
}.

Lemma rejects_at ns next r r' : at_frame ns next r -> rejects r r' -> at_frame ns next r'.
Proof using.
  intros [H1 H2 H3 H4] [R1 R2 R3 _ _ _]. split; [congruence| | |].
  - unfold publisher_of in *. by rewrite R1, R2.
  - intros k t Hk Ht. specialize (H3 k t Hk Ht). unfold link_ok in *. by rewrite R3.
  - rewrite R3. exact H4.
Qed.

Lemma start_at r :
  link_ok (frame_decoder_ r) seq last ->
  publisher_of topic type r ((publish_namespace_ r +:+ topic)%string, type) ->
  at_frame (publish_namespace_ r) 0 r.
Proof using Hlast Hticks.
  clear Hroom Hys. intros Hl Hp. split; [done|done| |lia]. intros k t _ Ht. pose proof (ticks_range last ticks k t Hlast Hticks Ht).
  unfold link_ok in *. case_match; lia.
Qed.

(** One arrival. *)
Lemma arrival_step ns next a g r :
  at_frame ns next r -> arrives frames a g ->
  exists r', receive_data true g r = Ok r' /\ sent r' = sent r /\
    match kept next [a] with
    | k :: _ => at_frame ns k r' /\ frame_reject_count_ r' = frame_reject_count_ r /\
      exists f, fs !! k = Some f /\ published r' = published r ++ [((ns +:+ topic)%string, type, Backpressure.data f)]
    | [] => at_frame ns next r' /\ published r' = published r /\
      frame_reject_count_ r' = u64 (frame_reject_count_ r + 1)
    end.
Proof using Hck Hframed Hlast Hroom Hseq Hticks Hys Hz alloc_ok create_ok topic_ok type_ok.
  intros Hat Ha. assert (forall r', rejects r r' -> at_frame ns next r' /\ published r' = published r /\
      frame_reject_count_ r' = u64 (frame_reject_count_ r + 1)) as Hrej.
  { intros r' Hr. split; [by eapply rejects_at|]. by destruct Hr. }
  destruct Ha as [k fr Hk|k fr g Hk Hb|g Hno]; cbn [kept].
  - destruct (sent_frame k fr Hk) as (t & y & f & Ht & Hf & Hc & Hu & Hut & He). destruct Hat as [H1 H2 H3 H4].
    case_test; bool_to_prop.
    + subst ns. destruct (receive_frame crc32c z can_alloc can_create _ _ topic type level f y fr r alloc_ok create_ok topic_ok type_ok Hc Hu Hut)
        as (r' & Er & [A1 A2 A3 A4 A5 A6]); [by apply H3|done|done|].
      exists r'. split; [done|]. split; [done|]. split; [|split; [done|by exists f]]. split; [done|done| |].
      * intros j t' Hj Ht'. eapply link_ok_at; [done|lia|]. exact (ticks_monotone last ticks k j t t' Hlast Hticks Hj Ht Ht').
      * intros j Hj. eexists _, _. split; [done|]. lia.
    + destruct (H4 k) as (s & ts & Hs & Hlt); [lia|].
      destruct (receive_late _ _ y fr s ts r He Hu Hut) as (r' & Er & Hr); [apply Hc|done|done|].
      exists r'. split; [done|]. split; [apply Hr|by apply Hrej].
  - destruct (sent_frame k fr Hk) as (t & y & f & Ht & Hf & Hc & Hu & Hut & He).
    destruct (receive_no_frame g r) as (r' & Er & Hr).
    { intros h y' rest Hv. eapply damaged_no_frame; [exact He|done|done|apply Hc|done|done]. }
    exists r'. split; [done|]. split; [apply Hr|by apply Hrej].
  - destruct (receive_no_frame g r Hno) as (r' & Er & Hr).
    exists r'. split; [done|]. split; [apply Hr|by apply Hrej].
Qed.

(** Any number of arrivals. *)
Lemma arrivals_run ns arrivals received next r :
  at_frame ns next r -> Forall2 (arrives frames) arrivals received -> is_uint 64 (frame_reject_count_ r) ->
  exists r', receive_all received r = Ok r' /\ sent r' = sent r /\
    published r' = published r ++
      map (fun f => ((ns +:+ topic)%string, type, Backpressure.data f)) (omap (fun k => fs !! k) (kept next arrivals)) /\
    frame_reject_count_ r' = u64 (frame_reject_count_ r + (Z.of_nat (length arrivals) - Z.of_nat (length (kept next arrivals)))).
Proof using Hck Hframed Hlast Hroom Hseq Hticks Hys Hz alloc_ok create_ok topic_ok type_ok.
  intros Hat Har. revert next r Hat.
  induction Har as [|a g arrivals received Ha _ IH]; intros next r Hat Hu; cbn [NetworkBridge.receive_all].
  { exists r. cbn. rewrite app_nil_r, Z.add_0_r, wrap_small by done. done. }
  destruct (arrival_step ns next a g r Hat Ha) as (r1 & -> & Hs & H). cbn [mbind outcome_bind].
  assert (forall l, kept next (a :: l) = match kept next [a] with k :: _ => k :: kept k l | [] => kept next l end) as ->.
  { intros l. destruct a; cbn [kept]; [|done|done]. by case_test. }
  destruct (kept next [a]) as [|k ?].
  - destruct H as (Hat' & Hp & Hr). destruct (IH next r1 Hat') as (r' & Er & Hs' & Hp' & Hr'); [rewrite Hr; by apply wrap_range|].
    exists r'. split; [done|]. rewrite Hs', Hp', Hr', Hs, Hp, Hr. split; [done|]. split; [done|].
    rewrite wrap_add_l by done. f_equal. cbn [length]. lia.
  - destruct H as (Hat' & Hr & f & Hf & Hp). destruct (IH k r1 Hat') as (r' & Er & Hs' & Hp' & Hr'); [by rewrite Hr|].
    exists r'. split; [done|]. rewrite Hs', Hp', Hr', Hs, Hp, Hr. split; [done|]. cbn [omap list_omap length].
    rewrite Hf. cbn [map]. split; [by rewrite <- app_assoc|]. f_equal. lia.
Qed.

End Receiver.

End Link.
Section Composition.
Context {G : Type} (crc32c : list byte -> Z) {Hck : Crc.Checksum crc32c} (z : zstd) {Hz : ZstdOk z}.
Context (can_alloc : Z -> bool) (can_create : string -> string -> bool).
Context (from_rmw : SubscriptionManager.rmw_qos -> SubscriptionManager.rmw_qos)
        (moved_from : Backpressure.SensorFrame -> Backpressure.SensorFrame).
Context (uniform_real : G -> double * G) (uniform_int : Z -> Z -> G -> Z * G) (fault_clock : nat -> double).

Lemma length_frames seq ticks ys frames : framed crc32c seq ticks ys frames -> length frames = length ys.
Proof.
  revert seq ticks ys. induction frames as [|fr frames IH]; intros seq ticks ys H;
    destruct ticks as [|t ticks], ys as [|y ys]; try done. cbn. f_equal. by eapply IH, H.
Qed.

(** C2: over an unreliable link.  The messages [fs] of a sender are framed;
    whatever then arrives at the receiver (these frames in any order, any
    number of times or never, frames with a burst of up to 32 flipped bits,
    bytes that hold no frame), every call ends normally, and the receiver
    publishes exactly the messages of the intact arrivals that are not older
    than the last one it published (all the intact ones, when none is overtaken),
    unchanged and in the order of the sender; every other arrival is counted as rejected, and nothing is sent. *)
Theorem lossy_link ticks m topic type level fs q last (s r : NetworkBridge (G := G)) :
  (forall n, can_alloc n = true) -> (forall name ty, can_create name ty = true) ->
  name_ok topic -> name_ok type -> sends_to m topic type level ->
  SubscriptionManager.queue (base_manager m) = fs ++ q -> length ticks = length fs ->
  Forall (fun f => Backpressure.data f <> [] /\ exists y, compresses z topic type level f y) fs ->
  0 <= last -> ticks_ok last ticks -> fault_engine_ s = None ->
  0 <= tx_sequence_ s -> tx_sequence_ s + Z.of_nat (length fs) < 2 ^ 64 ->
  link_ok (frame_decoder_ r) (tx_sequence_ s) last -> is_uint 64 (frame_reject_count_ r) ->
  publisher_of topic type r ((publish_namespace_ r +:+ topic)%string, type) ->
  exists m' s' frames,
    send_all crc32c z can_alloc from_rmw moved_from uniform_real uniform_int fault_clock ticks m s = Ok (m', s') /\
    sent s' = sent s ++ frames /\ length frames = length fs /\
    forall arrivals received, Forall2 (arrives crc32c frames) arrivals received ->
      exists r', receive_all crc32c z can_alloc can_create received r = Ok r' /\ sent r' = sent r /\
        StronglySorted le (kept 0 arrivals) /\ (StronglySorted le (intact arrivals) -> kept 0 arrivals = intact arrivals) /\
        published r' = published r ++
          map (fun f => ((publish_namespace_ r +:+ topic)%string, type, Backpressure.data f))
            (omap (fun k => fs !! k) (kept 0 arrivals)) /\
        frame_reject_count_ r' = u64 (frame_reject_count_ r +
          (Z.of_nat (length arrivals) - Z.of_nat (length (kept 0 arrivals)))).
Proof using Hck Hz.
  intros Ha Hcc Htop Htyp Hm Hq Hlen Hfs H0 Ht Hf H1 H2 Hl Hu Hp.
  destruct (payloads z (Frame.kFrameOverhead + Frame.kMaxPayload) topic type level fs) as (Hne & ys & Hys & _).
  { eapply Forall_impl; [exact Hfs|]. intros f (Hd & y & Hy). split; [done|]. exists y. split; [done|]. destruct Hy. lia. }
  destruct (send_frames crc32c z can_alloc from_rmw moved_from uniform_real uniform_int fault_clock
    ticks m topic type level fs ys q last s) as (m' & s' & frames & E & _ & Hs & Hfr & _); try done.
  exists m', s', frames. split; [done|]. split; [done|].
  split; [rewrite (length_frames _ _ _ _ Hfr); by rewrite <- (Forall2_length _ _ _ Hys)|].
  intros arrivals received Har.
  pose proof (start_at (G := G) topic type ticks (tx_sequence_ s) last H0 Ht r Hl Hp) as Hat.
  destruct (arrivals_run crc32c z can_alloc can_create topic type level fs ys ticks frames (tx_sequence_ s) last Ha Hcc Htop Htyp
    Hys H0 Ht H1 H2 Hfr _ arrivals received 0 r Hat Har Hu) as (r' & Er & Hsent & Hpub & Hrej).
  exists r'. split; [done|]. split; [done|]. split; [apply kept_sorted|].
  split; [intros Hi; apply kept_in_order; [done|by apply Forall_true; lia]|]. by split.
Qed.

End Composition.

(** ** The property at a concrete input *)

Definition second_frame : Backpressure.SensorFrame :=
  {| Backpressure.data := [z2b 3]; Backpressure.sequence := 1; Backpressure.timestamp_ns := 6 |}.

Definition two_messages : SubscriptionManager.SubscriptionManager :=
  match SubscriptionManager.callback (fun f => f) [] (Backpressure.data second_frame) 6 sample_manager with
  | Ok r => r.1
  | _ => sample_manager
  end.

Lemma two_messages_send : sends_to (Generic two_messages) "/imu" "sensor_msgs/msg/Imu" 3.
Proof.
  destruct sample_manager_sends as [Hw _ _ _ _].
  destruct (SubscriptionManager.callback_spec (fun f => f) [] (Backpressure.data second_frame) 6 sample_manager Hw)
    as (m & Hm & E & _); [vm_compute; reflexivity|].
  constructor; try (vm_compute; (reflexivity || discriminate)).
  cbn [base_manager]. unfold two_messages. rewrite E. exact Hm.
Qed.

(** The second frame overtakes the first and is repeated; noise between. *)
Definition sample_arrivals : list arrival := [Intact 1; Foreign; Intact 0; Intact 1].

Lemma lossy_link_witness :
  exists m' s' received r',
    send_all Crc.crc32c_portable stored (fun _ => true) (fun q => q) (fun f => f) Faults.toy_real Faults.toy_int
      Faults.toy_clock [sample_tick; sample_tick] (Generic two_messages) (sample_bridge "") = Ok (m', s') /\
    Forall2 (arrives Crc.crc32c_portable (sent s')) sample_arrivals received /\
    receive_all Crc.crc32c_portable stored (fun _ => true) (fun _ _ => true) received (sample_bridge "/mirror") = Ok r' /\
    published r' = [("/mirror/imu", "sensor_msgs/msg/Imu", [z2b 3]); ("/mirror/imu", "sensor_msgs/msg/Imu", [z2b 3])]%string /\
    frame_reject_count_ r' = 2.
Proof.
  destruct (lossy_link Crc.crc32c_portable stored (fun _ => true) (fun _ _ => true) (fun q => q) (fun f => f)
      Faults.toy_real Faults.toy_int Faults.toy_clock [sample_tick; sample_tick] (Generic two_messages)
      "/imu" "sensor_msgs/msg/Imu" 3 [sample_frame; second_frame] [] 0 (sample_bridge "") (sample_bridge "/mirror"))
    as (m' & s' & frames & H1 & H2 & H3 & H4).
  - reflexivity.
  - reflexivity.
  - apply name_ok_dec. vm_compute. reflexivity.
  - apply name_ok_dec. vm_compute. reflexivity.
  - exact two_messages_send.
  - vm_compute. reflexivity.
  - reflexivity.
  - repeat constructor; try discriminate.
    + exists (create_header "/imu" "sensor_msgs/msg/Imu" ++ [z2b 1; z2b 2]). split; [reflexivity|vm_compute; discriminate].
    + exists (create_header "/imu" "sensor_msgs/msg/Imu" ++ [z2b 3]). split; [reflexivity|vm_compute; discriminate].
  - reflexivity.
  - vm_compute. repeat split; discriminate.
  - reflexivity.
  - vm_compute. discriminate.
  - reflexivity.
  - exact Logic.I.
  - vm_compute. split; [discriminate|reflexivity].
  - right. split; reflexivity.
  - destruct frames as [|f0 [|f1 [|]]]; try discriminate H3.
    destruct (H4 sample_arrivals [f1; []; f0; f1]) as (r' & E & _ & _ & _ & Hp & Hr).
    { repeat constructor. intros h y rest _. discriminate. }
    exists m', s', [f1; []; f0; f1], r'. split; [exact H1|]. rewrite H2.
    split; [repeat constructor; intros h y rest _; discriminate|]. split; [exact E|]. split; [exact Hp|exact Hr].
Defined.

End LossyLink.
