(* ===== verification/BridgeLog.v ===== *)
(** * The log of a bridge

    [NetworkBridge::send_data] ([src/src/network_bridge.cpp]) writes each
    payload to the network inside a frame and to the log inside a record.
    Here the two paths meet: what a reader ([src/src/replay/wal_reader.cpp])
    finds in the log of a bridge against what the bridge sent. *)

From S2P Require Export NetworkBridge WalLog.

Module BridgeLog.
Import NetworkBridge.

Section Log.
Context {G : Type} (crc32c : list byte -> Z) {Hck : Crc.Checksum crc32c} (z : zstd) {Hz : ZstdOk z}.
Context (can_alloc : Z -> bool).
Context (from_rmw : SubscriptionManager.rmw_qos -> SubscriptionManager.rmw_qos)
        (moved_from : Backpressure.SensorFrame -> Backpressure.SensorFrame).
Context (uniform_real : G -> double * G) (uniform_int : Z -> Z -> G -> Z * G) (fault_clock : nat -> double).

(** The items that the timers append. *)
Fixpoint logged (seq : Z) (ticks : list tick) (ys : list (list byte)) : list WalLog.item :=
  match ticks, ys with
  | t :: ticks, y :: ys => WalLog.mkItem t.(t_now_ns) Frame.kControl seq y :: logged (seq + 1) ticks ys
  | _, _ => []
  end.

Lemma record_all_logged seq ticks ys d w :
  Forall (fun t => t.(t_io) = WalWriter.io_ok) ticks ->
  (record_all crc32c seq ticks ys (d, Some w)).1 = (WalLog.append_all crc32c d w (logged seq ticks ys)).1.1.
Proof.
  intros Hio. revert seq ys d w. induction Hio as [|t ticks Ht _ IH]; intros seq ys d w; [done|].
  destruct ys as [|y ys]; [done|]. cbn [record_all logged WalLog.append_all]. unfold record_payload. cbn [fst snd].
  rewrite Ht. cbn [WalLog.it_timestamp WalLog.it_type WalLog.it_sequence WalLog.it_payload].
  destruct (WalWriter.append _ _ _ _ _ _ _ _) as [[d1 w1] ok]. rewrite IH.
  by destruct (WalLog.append_all crc32c d1 w1 _) as [[d2 w2] oks].
Qed.

Lemma length_logged seq ticks ys : length ticks = length ys -> length (logged seq ticks ys) = length ys.
Proof.
  revert seq ys. induction ticks as [|t ticks IH]; intros seq [|y ys] H; try done. cbn in *. f_equal. by apply IH; lia.
Qed.

Lemma logged_ok last seq ticks ys :
  0 <= last -> ticks_ok last ticks -> 0 <= seq -> seq + Z.of_nat (length ys) < 2 ^ 64 ->
  Forall (fun y => Z.of_nat (length y) <= Frame.kMaxPayload) ys -> Forall WalLog.item_ok (logged seq ticks ys).
Proof.
  intros H0 Ht Hs Hw Hys. revert last seq ticks H0 Ht Hs Hw.
  induction Hys as [|y ys Hy _ IH]; intros last seq [|t ticks] H0 Ht Hs Hw; cbn [logged]; try apply Forall_nil_2.
  cbn [ticks_ok length] in *. destruct Ht as (_ & Hn & Ht). constructor.
  - constructor; cbn; unfold is_uint; try lia; try done.
  - apply (IH (t_now_ns t)); [lia|done|lia|lia].
Qed.

(** Records of a bridge are in the order of the log. *)
Lemma logged_sorted last seq ticks ys :
  ticks_ok last ticks ->
  StronglySorted (not_after WalLog.in_log_order) (map (WalLog.record_of crc32c) (logged seq ticks ys)) /\
  Forall (fun it => last <= WalLog.it_timestamp it /\ seq <= WalLog.it_sequence it) (logged seq ticks ys).
Proof.
  revert last seq ys. induction ticks as [|t ticks IH]; intros last seq [|y ys] Ht; try by split; constructor.
  destruct Ht as (_ & Hn & Ht). destruct (IH (t_now_ns t) (seq + 1) ys Ht) as [H1 H2]. cbn [logged map]. split.
  - constructor; [done|]. apply Forall_map. eapply Forall_impl; [exact H2|]. intros it [H3 H4].
    unfold not_after, WalLog.in_log_order. cbn. apply orb_false_iff. split; [by apply Z.ltb_ge|].
    apply andb_false_iff. right. apply Z.ltb_ge. lia.
  - constructor; [cbn; lia|]. eapply Forall_impl; [exact H2|]. cbn. lia.
Qed.

(** Each record reframes to the frame that was sent. *)
Definition reframes (rec : WalReader.ReplayRecord) (fr : list byte) : Prop :=
  WalRecord.sensor_type (WalReader.header rec) = Frame.kControl /\
  FrameCodec.encode_frame crc32c Frame.kControl (WalRecord.sequence (WalReader.header rec))
    (WalRecord.timestamp_ns (WalReader.header rec)) Frame.kFlagCompressed (WalReader.payload rec) = Ok fr.

Lemma logged_framed seq ticks ys frames :
  framed crc32c seq ticks ys frames -> Forall2 reframes (map (WalLog.record_of crc32c) (logged seq ticks ys)) frames.
Proof.
  revert seq ticks ys. induction frames as [|fr frames IH]; intros seq [|t ticks] [|y ys] H; try done.
  destruct H as [He H]. constructor; [by split|by apply IH].
Qed.

Lemma logged_payloads topic type level fs seq ticks ys :
  (forall n, can_alloc n = true) -> length ticks = length ys -> Forall2 (compresses z topic type level) fs ys ->
  Forall2 (fun rec f => decompress z can_alloc (WalReader.payload rec) = Ok (create_header topic type ++ Backpressure.data f))
    (map (WalLog.record_of crc32c) (logged seq ticks ys)) fs.
Proof using Hz.
  intros Ha Hlen Hys. revert seq ticks Hlen. induction Hys as [|f y fs ys Hy _ IH]; intros seq [|t ticks] Hlen; try done.
  constructor; [|apply IH; by injection Hlen]. destruct Hy as [Hc _]. by destruct (compress_ok z can_alloc _ _ _ Ha Hc).
Qed.

(** C6: the log of a bridge is what it sent.  A bridge that records into an
    empty directory sends the messages [fs]; then a reader that loads the
    directory, in whatever order it is listed, finds no damage and one record
    for each frame, in the order of sending: framing the record again, with
    its own sequence number and time, gives the bytes that were sent, and its
    payload decompresses to the inner header and the bytes of the message. *)
Theorem bridge_log_replays bytes d0 w0 ticks m topic type level fs q last (s : NetworkBridge (G := G)) :
  (forall n, can_alloc n = true) -> sends_to m topic type level ->
  SubscriptionManager.queue (base_manager m) = fs ++ q -> length ticks = length fs ->
  Forall (fun f => Backpressure.data f <> [] /\ exists y, compresses z topic type level f y) fs ->
  0 <= last -> ticks_ok last ticks -> Forall (fun t => t.(t_io) = WalWriter.io_ok) ticks -> fault_engine_ s = None ->
  0 <= tx_sequence_ s -> tx_sequence_ s + Z.of_nat (length fs) < 2 ^ 64 ->
  0 <= bytes <= 2 ^ 63 -> 2 + Z.of_nat (length fs) < 2 ^ 32 ->
  WalWriter.construct true WalWriter.io_ok ∅ bytes = Ok (d0, w0) -> wal_dir s = d0 -> wal_writer_ s = Some w0 ->
  exists m' s' frames records,
    send_all crc32c z can_alloc from_rmw moved_from uniform_real uniform_int fault_clock ticks m s = Ok (m', s') /\
    sent s' = sent s ++ frames /\ Forall2 reframes records frames /\
    Forall2 (fun rec f => decompress z can_alloc (WalReader.payload rec) =
                          Ok (create_header topic type ++ Backpressure.data f)) records fs /\
    forall listing, listing ≡ₚ (map_to_list (wal_dir s')).*1 ->
      exists rd, WalReader.load crc32c (fun _ => true) (fun _ => true) (Some (wal_dir s', listing)) = Ok rd /\
        WalReader.records_ rd = records /\ WalReader.records_ok (WalReader.stats_ rd) = Z.of_nat (length fs) /\
        WalReader.records_corrupt_skipped (WalReader.stats_ rd) = 0 /\ WalReader.bytes_skipped (WalReader.stats_ rd) = 0.
Proof using Hck Hz.
  intros Ha Hm Hq Hlen Hfs H0 Ht Hio Hf H1 H2 Hb Hn Hw0 Hd0 Hw1.
  destruct (payloads z (Frame.kFrameOverhead + Frame.kMaxPayload) topic type level fs) as (Hne & ys & Hys & Hmax).
  { eapply Forall_impl; [exact Hfs|]. intros f (Hd & y & Hy). split; [done|]. exists y. split; [done|]. destruct Hy. lia. }
  pose proof (Forall2_length _ _ _ Hys) as Hlys.
  destruct (send_frames crc32c z can_alloc from_rmw moved_from uniform_real uniform_int fault_clock
    ticks m topic type level fs ys q last s) as (m' & s' & frames & E & _ & Hs & Hfr & Hlog); try done.
  set (items := logged (tx_sequence_ s) ticks ys) in *.
  assert (length items = length fs) as Hli by (unfold items; rewrite length_logged; congruence).
  assert (Forall WalLog.item_ok items) as Hits.
  { apply (logged_ok last); [done|done|done|lia|]. eapply Forall_impl; [exact Hmax|]. by intros y []. }
  exists m', s', frames, (map (WalLog.record_of crc32c) items).
  split; [done|]. split; [done|]. split; [by apply logged_framed|]. split; [apply (logged_payloads topic type level); congruence|].
  intros listing Hp.
  destruct (WalLog.write_log_inv crc32c bytes items Hits Hb) as (d & w & init & cur & Ew & Hinv & Hc & Hne'); [lia|].
  assert (wal_dir s' = d) as Hd.
  { unfold WalLog.write_log in Ew. rewrite Hw0 in Ew. cbn [mbind outcome_bind] in Ew.
    change (wal_dir s') with (log_of s').1. rewrite Hlog. unfold log_of. rewrite Hd0, Hw1, record_all_logged by done.
    fold items. destruct (WalLog.append_all crc32c d0 w0 items) as [[d2 w2] oks]. cbn [fst]. congruence. }
  rewrite Hd in *. eexists. split; [apply (WalLog.load_log crc32c _ init cur d w items Hinv Hc Hne' Hits); [lia|done]|].
  cbn [WalReader.records_ WalReader.stats_ WalReader.records_ok WalReader.records_corrupt_skipped WalReader.bytes_skipped].
  rewrite Hli. split; [|done]. apply stable_sort_sorted_id. by apply (logged_sorted last).
Qed.

End Log.
(** ** The property at a concrete input *)

(** A new log with segments of 100 bytes. *)
Definition sample_log : WalWriter.directory * WalWriter.WalWriter :=
  WalWriter.open_new_segment WalWriter.io_ok ∅
    {| WalWriter.segment_bytes_ := 100; WalWriter.out_ := {| WalWriter.file := None; WalWriter.good := true |};
       WalWriter.current_segment_id_ := 0; WalWriter.current_segment_offset_ := 0; WalWriter.records_written_ := 0;
       WalWriter.index_ := ReplayIndex.empty_index |}.

Definition recording_bridge : NetworkBridge (G := Z) := construct "" (Some sample_log.2) sample_log.1 None.

Lemma bridge_log_replays_witness :
  exists m' s' frames rec rd,
    send_all Crc.crc32c_portable stored (fun _ => true) (fun q => q) (fun f => f) Faults.toy_real Faults.toy_int
      Faults.toy_clock [sample_tick] (Generic sample_manager) recording_bridge = Ok (m', s') /\
    sent s' = frames /\ Forall2 (reframes Crc.crc32c_portable) [rec] frames /\
    WalReader.load Crc.crc32c_portable (fun _ => true) (fun _ => true) (Some (wal_dir s', (map_to_list (wal_dir s')).*1)) = Ok rd /\
    WalReader.records_ rd = [rec].
Proof.
  destruct (bridge_log_replays Crc.crc32c_portable stored (fun _ => true) (fun q => q) (fun f => f)
      Faults.toy_real Faults.toy_int Faults.toy_clock 100 sample_log.1 sample_log.2 [sample_tick] (Generic sample_manager)
      "/imu" "sensor_msgs/msg/Imu" 3 [sample_frame] [] 0 recording_bridge)
    as (m' & s' & frames & records & H1 & H2 & H3 & H4 & H5).
  - reflexivity.
  - exact sample_manager_sends.
  - vm_compute. reflexivity.
  - reflexivity.
  - constructor; [|constructor]. split; [discriminate|].
    exists (create_header "/imu" "sensor_msgs/msg/Imu" ++ [z2b 1; z2b 2]). split; [reflexivity|vm_compute; discriminate].
  - reflexivity.
  - vm_compute. repeat split; discriminate.
  - repeat constructor.
  - reflexivity.
  - vm_compute. discriminate.
  - reflexivity.
  - split; discriminate.
  - reflexivity.
  - vm_compute. reflexivity.
  - reflexivity.
  - reflexivity.
  - destruct records as [|rec [|]]; [inversion H4| |inversion H4 as [|? ? ? ? _ Hbad]; inversion Hbad].
    destruct (H5 _ (reflexivity _)) as (rd & E & Hr & _). exists m', s', frames, rec, rd.
    split; [exact H1|]. split; [exact H2|]. split; [exact H3|]. split; [exact E|exact Hr].
Defined.

End BridgeLog.
