(* ===== verification/Scenario.v ===== *)
(** * Scenarios ([src/scenario/scenario.hpp], [scenario.cpp])

    The data of a scenario, the names of fault types and operators, and the
    parser on top of the YAML library.  A YAML node is abstract: the parser
    uses the look-up of a key, conversion to string and to double, and
    iteration; reading a file and the fuzz target ([src/fuzz/fuzz_yaml_scenario.cpp])
    take the library's parser as an argument.

    Results: what the parser returns is a valid scenario; every name that is
    printed is read back, and the fault engine knows every fault type; the
    fuzz target traps on no input when the library keeps to its exceptions. *)

From S2P Require Export CppStrings CppDouble Faults.

Module Scenario.

Record StreamConfig := mkStreamConfig { stream_name : string; rate_hz : double }.

Inductive FaultType :=
| kDelay | kDrop | kCorrupt | kReorder | kDuplicate | kBurstLoss
| kBandwidthLimit | kEcuDisconnect | kProcessRestart | kUnknown.

#[global] Instance FaultType_eq_dec : EqDecision FaultType.
Proof. solve_decision. Defined.

Definition fault_type_from_string (s : string) : FaultType :=
  if bool_decide (s = "delay"%string) then kDelay
  else if bool_decide (s = "drop"%string) then kDrop
  else if bool_decide (s = "corrupt"%string) then kCorrupt
  else if bool_decide (s = "reorder"%string) then kReorder
  else if bool_decide (s = "duplicate"%string) then kDuplicate
  else if bool_decide (s = "burst"%string) || bool_decide (s = "burst_loss"%string) then kBurstLoss
  else if bool_decide (s = "bandwidth_limit"%string) then kBandwidthLimit
  else if bool_decide (s = "ecu_disconnect"%string) then kEcuDisconnect
  else if bool_decide (s = "process_restart"%string) then kProcessRestart
  else kUnknown.

Definition FaultType_to_string (t : FaultType) : string :=
  match t with
  | kDelay => "delay"
  | kDrop => "drop"
  | kCorrupt => "corrupt"
  | kReorder => "reorder"
  | kDuplicate => "duplicate"
  | kBurstLoss => "burst_loss"
  | kBandwidthLimit => "bandwidth_limit"
  | kEcuDisconnect => "ecu_disconnect"
  | kProcessRestart => "process_restart"
  | kUnknown => "unknown"
  end.

Record FaultSpec := mkFaultSpec {
  stream : string;
  start_seconds : double;
  duration_seconds : double;
  type : FaultType;
  params : gmap string double
}.

Definition param (f : FaultSpec) (key : string) (fallback : double) : double :=
  match f.(params) !! key with None => fallback | Some v => v end.

Inductive CompareOp := kLessThan | kGreaterThan | kEquals | kNotEquals | kUnknownOp.

#[global] Instance CompareOp_eq_dec : EqDecision CompareOp.
Proof. solve_decision. Defined.

Definition compare_op_from_string (s : string) : CompareOp :=
  if bool_decide (s = "less_than"%string) then kLessThan
  else if bool_decide (s = "greater_than"%string) then kGreaterThan
  else if bool_decide (s = "equals"%string) then kEquals
  else if bool_decide (s = "not_equals"%string) then kNotEquals
  else kUnknownOp.

Definition CompareOp_to_string (op : CompareOp) : string :=
  match op with
  | kLessThan => "less_than"
  | kGreaterThan => "greater_than"
  | kEquals => "equals"
  | kNotEquals => "not_equals"
  | kUnknownOp => "unknown"
  end.

Record Assertion := mkAssertion {
  metric : string;
  op : CompareOp;
  value : double;
  window_seconds : option double
}.

Record Scenario := mkScenario {
  name : string;
  scenario_duration : double;
  streams : list StreamConfig;
  faults : list FaultSpec;
  assertions : list Assertion
}.

(** ** The parser *)

(** What the parser uses of [YAML::Node]; any of it may throw. *)
Class Yaml (Node : Type) := {
  get : Node -> string -> outcome (option Node);      (** [node[key]], when defined *)
  as_string : Node -> outcome string;
  as_double : Node -> outcome double;
  elements : Node -> outcome (list Node);             (** iteration over a sequence *)
  entries : Node -> outcome (list (Node * Node))      (** iteration over a map *)
}.

Section Parser.
Context {Node : Type} `{!Yaml Node}.

(** [node[key] ? node[key].as<T>() : fallback] *)
Definition get_or {A} (as_type : Node -> outcome A) (node : Node) (key : string) (fallback : A) : outcome A :=
  n ← get node key;
  match n with Some n => as_type n | None => Ok fallback end.

(** The loop over an optional child: [if (node[key]) for (x : node[key]) ...]. *)
Fixpoint parse_list {A B} (parse : A -> outcome B) (l : list A) : outcome (list B) :=
  match l with
  | [] => Ok []
  | x :: l => b ← parse x; bs ← parse_list parse l; Ok (b :: bs)
  end.

Definition parse_child {A B} (iterate : Node -> outcome (list A)) (parse : A -> outcome B)
    (node : Node) (key : string) : outcome (list B) :=
  n ← get node key;
  match n with
  | Some n => l ← iterate n; parse_list parse l
  | None => Ok []
  end.

Definition parse_stream (kv : Node * Node) : outcome StreamConfig :=
  n ← as_string kv.1;
  rate ← get_or as_double kv.2 "rate_hz" d_zero;
  if d_le rate d_zero then Throws "std::runtime_error"
  else Ok {| stream_name := n; rate_hz := rate |}.

(** The nested map of parameters. *)
Fixpoint parse_params (l : list (Node * Node)) (ps : gmap string double) : outcome (gmap string double) :=
  match l with
  | [] => Ok ps
  | (k, v) :: l => k ← as_string k; v ← as_double v; parse_params l (<[k := v]> ps)
  end.

(** The inline keys. *)
Fixpoint parse_inline (f : Node) (keys : list string) (ps : gmap string double) : outcome (gmap string double) :=
  match keys with
  | [] => Ok ps
  | key :: keys =>
    n ← get f key;
    match n with
    | Some n => v ← as_double n; parse_inline f keys (<[key := v]> ps)
    | None => parse_inline f keys ps
    end
  end.

Definition parse_fault (f : Node) : outcome FaultSpec :=
  stream ← get_or as_string f "stream" ""%string;
  start ← get_or as_double f "start_seconds" d_zero;
  duration ← get_or as_double f "duration_seconds" d_zero;
  type_str ← get_or as_string f "type" ""%string;
  let type := fault_type_from_string type_str in
  if bool_decide (type = kUnknown) then Throws "std::runtime_error" else
  n ← get f "params";
  ps ← match n with Some n => l ← entries n; parse_params l ∅ | None => Ok ∅ end;
  ps ← parse_inline f ["delay_ms"; "drop_rate"; "bandwidth_kbps"; "burst_ms"]%string ps;
  Ok {| stream := stream; start_seconds := start; duration_seconds := duration; type := type; params := ps |}.

Definition parse_assertion (a : Node) : outcome Assertion :=
  metric ← get_or as_string a "metric" ""%string;
  op_str ← get_or as_string a "operator" ""%string;
  let op := compare_op_from_string op_str in
  if bool_decide (metric = ""%string) || bool_decide (op = kUnknownOp) then Throws "std::runtime_error" else
  value ← get_or as_double a "value" d_zero;
  n ← get a "window_seconds";
  window ← match n with Some n => w ← as_double n; Ok (Some w) | None => Ok None end;
  Ok {| metric := metric; op := op; value := value; window_seconds := window |}.

Definition parse_node (root : Node) : outcome Scenario :=
  n ← get root "name";
  match n with
  | None => Throws "std::runtime_error"
  | Some n =>
    name ← as_string n;
    duration ← get_or as_double root "duration_seconds" d_zero;
    if d_le duration d_zero then Throws "std::runtime_error" else
    streams ← parse_child entries parse_stream root "streams";
    faults ← parse_child elements parse_fault root "faults";
    assertions ← parse_child elements parse_assertion root "assertions";
    Ok {| name := name; scenario_duration := duration; streams := streams; faults := faults;
          assertions := assertions |}
  end.

(** ** Valid scenarios *)

(** Greater than 0, or not a number. *)
Definition positive (x : double) : Prop := d_lt d_zero x = true \/ x = S754_nan.

Record valid (s : Scenario) : Prop := {
  valid_duration : positive s.(scenario_duration);
  valid_streams : Forall (fun c => positive c.(rate_hz)) s.(streams);
  valid_faults : Forall (fun f => f.(type) <> kUnknown) s.(faults);
  valid_assertions : Forall (fun a => a.(metric) <> ""%string /\ a.(op) <> kUnknownOp) s.(assertions)
}.

Lemma d_le_lt x y : d_le x y = false -> d_lt y x = true \/ x = S754_nan \/ y = S754_nan.
Proof.
  unfold d_le, d_lt, SFleb, SFltb. intros H.
  destruct x as [sx|[]| |[] mx ex], y as [sy|[]| |[] my ey]; cbn [SFcompare] in *; auto; try discriminate.
  all: try (left; reflexivity).
  all: left; revert H; rewrite (Z.compare_antisym ey ex); destruct (Z.compare ey ex); cbn [CompOpp]; try done;
    change (Pos.compare_cont Eq mx my) with (Pos.compare mx my);
    change (Pos.compare_cont Eq my mx) with (Pos.compare my mx);
    rewrite (Pos.compare_antisym my mx); by destruct (Pos.compare my mx).
Qed.

Lemma not_le_positive x : d_le x d_zero = false -> positive x.
Proof. intros [H|[H|H]]%d_le_lt; [by left|by right|done]. Qed.

Lemma parse_list_forall {A B} (parse : A -> outcome B) (P : B -> Prop) l bs :
  (forall x b, parse x = Ok b -> P b) -> parse_list parse l = Ok bs -> Forall P bs.
Proof.
  intros HP. revert bs. induction l as [|x l IH]; intros bs; cbn [parse_list]; [by intros [= <-]|].
  destruct (parse x) as [b| |] eqn:E; cbn [mbind outcome_bind]; try done.
  destruct (parse_list parse l) as [bs'| |]; cbn [mbind outcome_bind]; try done.
  intros [= <-]. constructor; [by apply (HP x)|by apply IH].
Qed.

Lemma parse_child_forall {A B} iterate (parse : A -> outcome B) (P : B -> Prop) node key bs :
  (forall x b, parse x = Ok b -> P b) -> parse_child iterate parse node key = Ok bs -> Forall P bs.
Proof.
  intros HP. unfold parse_child. destruct (get node key) as [[n|]| |]; cbn [mbind outcome_bind]; try done;
    [|by intros [= <-]].
  destruct (iterate n) as [l| |]; cbn [mbind outcome_bind]; try done. by apply parse_list_forall.
Qed.

(** Peels the binds of a parser that has returned. *)
Ltac unbind H :=
  repeat match type of H with
  | (mbind _ ?m) = Ok _ => destruct m eqn:?; cbn [mbind outcome_bind] in H; try discriminate H
  end.

Lemma parse_stream_valid kv c : parse_stream kv = Ok c -> positive c.(rate_hz).
Proof.
  unfold parse_stream. intros H. unbind H. case_test_in H; [done|]. injection H as <-.
  by apply not_le_positive.
Qed.

Lemma parse_fault_valid f s : parse_fault f = Ok s -> s.(type) <> kUnknown.
Proof.
  unfold parse_fault. intros H. unbind H. case_test_in H; [done|]. unbind H. injection H as <-.
  by apply bool_decide_eq_false in E.
Qed.

Lemma parse_assertion_valid a r : parse_assertion a = Ok r -> r.(metric) <> ""%string /\ r.(op) <> kUnknownOp.
Proof.
  unfold parse_assertion. intros H. unbind H. case_test_in H; [done|]. unbind H. injection H as <-.
  apply orb_false_iff in E as [E1 E2]. by apply bool_decide_eq_false in E1, E2.
Qed.

Lemma parse_node_valid root s : parse_node root = Ok s -> valid s.
Proof.
  unfold parse_node. intros H. unbind H. case_match; [|done]. unbind H. case_test_in H; [done|]. unbind H.
  injection H as <-. constructor.
  - by apply not_le_positive.
  - eapply parse_child_forall; [apply parse_stream_valid|done].
  - eapply parse_child_forall; [apply parse_fault_valid|done].
  - eapply parse_child_forall; [apply parse_assertion_valid|done].
Qed.

(** *** Entry points and fuzz target ([src/fuzz/fuzz_yaml_scenario.cpp]) *)

Definition parse_scenario_file (LoadFile : string -> outcome Node) (path : string) : outcome Scenario :=
  root ← LoadFile path; parse_node root.

Definition parse_scenario_string (Load : string -> outcome Node) (yaml : string) : outcome Scenario :=
  root ← Load yaml; parse_node root.

(** Every exception is caught; a read out of bounds is not. *)
Definition fuzz_yaml_scenario (Load : string -> outcome Node) (data : list byte) : outcome Z :=
  match parse_scenario_string Load (string_of_bytes data) with
  | OutOfBounds => OutOfBounds
  | Ok _ | Throws _ => Ok 0
  end.

Definition safe {A} (m : outcome A) : Prop := m <> OutOfBounds.

Lemma safe_bind {A B} (m : outcome A) (f : A -> outcome B) : safe m -> (forall x, m = Ok x -> safe (f x)) -> safe (m ≫= f).
Proof. intros Hm Hf. unfold safe in *. destruct m; cbn [mbind outcome_bind]; [by apply Hf|done|done]. Qed.

Lemma safe_ok {A} (x : A) : safe (Ok x).
Proof. done. Qed.

Lemma safe_throws {A} e : safe (A := A) (Throws e).
Proof. done. Qed.

Lemma parse_list_safe {A B} (parse : A -> outcome B) l : (forall x, safe (parse x)) -> safe (parse_list parse l).
Proof.
  intros Hp. induction l as [|x l IH]; cbn [parse_list]; [done|].
  apply safe_bind; [done|]. intros b _. apply safe_bind; [done|]. by intros bs _.
Qed.

(** The YAML library throws and does not read out of bounds. *)
Class YamlSafe : Prop := {
  get_safe : forall n key, safe (get n key);
  as_string_safe : forall n, safe (as_string n);
  as_double_safe : forall n, safe (as_double n);
  elements_safe : forall n, safe (elements n);
  entries_safe : forall n, safe (entries n)
}.

Create HintDb safe.
#[local] Hint Resolve get_safe as_string_safe as_double_safe elements_safe entries_safe safe_ok safe_throws : safe.

(** Follows the structure of a parser. *)
Ltac solve_safe :=
  repeat first [progress auto with safe | apply safe_bind; [auto with safe|intros ? _] | case_match].

Context {HY : YamlSafe}.

Lemma get_or_safe {A} (as_type : Node -> outcome A) n key d : (forall n, safe (as_type n)) -> safe (get_or as_type n key d).
Proof using HY. intros Ha. unfold get_or. apply safe_bind; [apply get_safe|]. intros m _. destruct m; [apply Ha|done]. Qed.

#[local] Hint Resolve get_or_safe : safe.

Lemma parse_params_safe l ps : safe (parse_params l ps).
Proof using HY. revert ps. induction l as [|[k v] l IH]; intros ps; cbn [parse_params]; solve_safe. Qed.

Lemma parse_inline_safe f keys ps : safe (parse_inline f keys ps).
Proof using HY. revert ps. induction keys as [|key keys IH]; intros ps; cbn [parse_inline]; solve_safe. Qed.

#[local] Hint Resolve parse_params_safe parse_inline_safe : safe.

Lemma parse_stream_safe kv : safe (parse_stream kv).
Proof using HY. unfold parse_stream. solve_safe. Qed.

Lemma parse_fault_safe f : safe (parse_fault f).
Proof using HY. unfold parse_fault. solve_safe. Qed.

Lemma parse_assertion_safe a : safe (parse_assertion a).
Proof using HY. unfold parse_assertion. solve_safe. Qed.

#[local] Hint Resolve parse_stream_safe parse_fault_safe parse_assertion_safe : safe.

Lemma parse_child_safe {A B} iterate (parse : A -> outcome B) node key :
  (forall n, safe (iterate n)) -> (forall x, safe (parse x)) -> safe (parse_child iterate parse node key).
Proof using HY.
  intros Hi Hp. unfold parse_child. apply safe_bind; [apply get_safe|]. intros m _. destruct m as [n|]; [|done].
  apply safe_bind; [apply Hi|]. intros l _. by apply parse_list_safe.
Qed.

#[local] Hint Resolve parse_child_safe : safe.

Lemma parse_node_safe root : safe (parse_node root).
Proof using HY. unfold parse_node. solve_safe. Qed.

(** The fuzz target of the parser returns 0 on every input. *)
Theorem fuzz_yaml_safe Load data : (forall s, safe (Load s)) -> fuzz_yaml_scenario Load data = Ok 0.
Proof using HY.
  intros Hl. unfold fuzz_yaml_scenario, parse_scenario_string.
  assert (safe (root ← Load (string_of_bytes data); parse_node root)) as H
    by (apply safe_bind; [apply Hl|intros; apply parse_node_safe]).
  by destruct (root ← _; _).
Qed.

End Parser.
Arguments YamlSafe Node {_}.

(** ** The names *)

(** C35: scenarios that are accepted are valid.  Whatever the YAML library
    answers, a scenario the parser returns has a positive duration and
    positive rates (or NaN, which passes the test), a known type in every
    fault and a metric with a known operator in every assertion; every such
    type and operator is read back from its printed name, and the fault
    engine has a kind of its own for it.  Without a name, or with a duration
    that is not positive, the parser throws. *)
Theorem parse_node_sound {Node} `{!Yaml Node} (root : Node) s :
  parse_node root = Ok s ->
  valid s /\
  Forall (fun f => fault_type_from_string (FaultType_to_string f.(type)) = f.(type) /\
                   Faults.fault_kind_from_string (FaultType_to_string f.(type)) <> Faults.kNone) s.(faults) /\
  Forall (fun a => compare_op_from_string (CompareOp_to_string a.(op)) = a.(op)) s.(assertions) /\
  forall root', (get root' "name" = Ok None -> parse_node root' = Throws "std::runtime_error") /\
    (forall n text d duration, get root' "name" = Ok (Some n) -> as_string n = Ok text ->
     get root' "duration_seconds" = Ok (Some d) -> as_double d = Ok duration ->
     d_le duration d_zero = true -> parse_node root' = Throws "std::runtime_error").
Proof.
  intros Hp. pose proof (parse_node_valid root s Hp) as Hv. split; [done|]. destruct Hv as [_ _ Hf Ha].
  split; [|split].
  - eapply Forall_impl; [exact Hf|]. cbv beta. intros f. generalize (type f). intros [] Hne; (by destruct Hne) || (split; [reflexivity|vm_compute; discriminate]).
  - eapply Forall_impl; [exact Ha|]. intros a [_ Hne]. by destruct (op a).
  - intros root'. unfold parse_node, get_or. split.
    + intros ->. done.
    + intros n text d duration -> Hn -> Hd Hle. cbn [mbind outcome_bind]. rewrite Hn. cbn [mbind outcome_bind].
      rewrite Hd. cbn [mbind outcome_bind]. by rewrite Hle.
Qed.

(** A concrete YAML document. *)
Inductive doc := Text (s : string) | Number (x : double) | Seq (l : list doc) | Dict (l : list (string * doc)).

#[global] Instance doc_yaml : Yaml doc := {
  get := fun n key => match n with
                      | Dict l => Ok (snd <$> List.find (fun kv => bool_decide (kv.1 = key)) l)
                      | _ => Throws "YAML::BadSubscript"
                      end;
  as_string := fun n => match n with Text s => Ok s | _ => Throws "YAML::BadConversion" end;
  as_double := fun n => match n with Number x => Ok x | _ => Throws "YAML::BadConversion" end;
  elements := fun n => match n with Seq l => Ok l | _ => Ok [] end;
  entries := fun n => match n with Dict l => Ok (map (fun kv => (Text kv.1, kv.2)) l) | _ => Ok [] end
}.

#[global] Instance doc_yaml_safe : YamlSafe doc.
Proof. split; by intros []. Qed.

Definition sample_doc : doc := Dict
  [("name", Text "smoke"); ("duration_seconds", Number (d_of_Z 2));
   ("streams", Dict [("imu", Dict [("rate_hz", Number (d_of_Z 100))])]);
   ("faults", Seq [Dict [("type", Text "burst"); ("stream", Text "imu"); ("delay_ms", Number (d_of_Z 5))]]);
   ("assertions", Seq [Dict [("metric", Text "imu_received"); ("operator", Text "greater_than")]])]%string.

Definition sample_scenario : Scenario :=
  {| name := "smoke"; scenario_duration := d_of_Z 2; streams := [{| stream_name := "imu"; rate_hz := d_of_Z 100 |}];
     faults := [{| stream := "imu"; start_seconds := d_zero; duration_seconds := d_zero; type := kBurstLoss;
                   params := <["delay_ms"%string := d_of_Z 5]> ∅ |}];
     assertions := [{| metric := "imu_received"; op := kGreaterThan; value := d_zero; window_seconds := None |}] |}.

Lemma parse_node_sound_witness : parse_node sample_doc = Ok sample_scenario /\ valid sample_scenario.
Proof.
  assert (parse_node sample_doc = Ok sample_scenario) as H by (vm_compute; reflexivity).
  split; [exact H|]. exact (proj1 (parse_node_sound sample_doc sample_scenario H)).
Defined.

End Scenario.
