(* ===== verification/Evaluation.v ===== *)
(** * Metrics and verdicts ([src/scenario/metrics.hpp], [assertion.hpp], [assertion.cpp], [namespace_manager.hpp])

    The statistics of a stream, the evaluation of assertions, namespaces and
    ports of parallel runs, and the summary of a set of results.  Numbers are
    IEEE doubles; [std::sort] of latencies is the stable sort by [<], and
    undefined when there is a NaN among them.

    Results: a scenario passes exactly when every assertion holds of the
    metrics (a missing metric and a NaN never hold), and the summary counts
    what it was given. *)

From S2P Require Export Scenario StdAlgorithms.

Module Evaluation.
Import Scenario.

(** [std::map<std::string, double>] *)
Abbreviation MetricMap := (gmap string double).

(** ** Streams *)

Record StreamMetrics := mkStreamMetrics {
  name_ : string;
  expected_rate_hz_ : double;
  duration_seconds_ : double;
  latencies_ms_ : list double;
  received_ : Z;
  sequence_gaps_ : Z;
  has_arrival_ : bool;
  first_arrival_s_ : double;
  last_arrival_s_ : double
}.

Definition new_metrics (name : string) (expected_rate_hz duration_seconds : double) : StreamMetrics :=
  {| name_ := name; expected_rate_hz_ := expected_rate_hz; duration_seconds_ := duration_seconds;
     latencies_ms_ := []; received_ := 0; sequence_gaps_ := 0; has_arrival_ := false;
     first_arrival_s_ := d_zero; last_arrival_s_ := d_zero |}.

(** [record] without an arrival time. *)
Definition record_latency (latency_ms : double) (gap_before : bool) (m : StreamMetrics) : StreamMetrics :=
  {| name_ := m.(name_); expected_rate_hz_ := m.(expected_rate_hz_); duration_seconds_ := m.(duration_seconds_);
     latencies_ms_ := m.(latencies_ms_) ++ [latency_ms]; received_ := u64 (m.(received_) + 1);
     sequence_gaps_ := if gap_before then u64 (m.(sequence_gaps_) + 1) else m.(sequence_gaps_);
     has_arrival_ := m.(has_arrival_); first_arrival_s_ := m.(first_arrival_s_);
     last_arrival_s_ := m.(last_arrival_s_) |}.

Definition set_arrival (first last : double) (m : StreamMetrics) : StreamMetrics :=
  {| name_ := m.(name_); expected_rate_hz_ := m.(expected_rate_hz_); duration_seconds_ := m.(duration_seconds_);
     latencies_ms_ := m.(latencies_ms_); received_ := m.(received_); sequence_gaps_ := m.(sequence_gaps_);
     has_arrival_ := true; first_arrival_s_ := first; last_arrival_s_ := last |}.

(** [record] with an arrival time. *)
Definition record (latency_ms arrival_s : double) (gap_before : bool) (m : StreamMetrics) : StreamMetrics :=
  record_latency latency_ms gap_before
    (set_arrival (if m.(has_arrival_) then m.(first_arrival_s_) else arrival_s) arrival_s m).

Definition add_sequence_gaps (n : Z) (m : StreamMetrics) : StreamMetrics :=
  {| name_ := m.(name_); expected_rate_hz_ := m.(expected_rate_hz_); duration_seconds_ := m.(duration_seconds_);
     latencies_ms_ := m.(latencies_ms_); received_ := m.(received_);
     sequence_gaps_ := u64 (m.(sequence_gaps_) + n);
     has_arrival_ := m.(has_arrival_); first_arrival_s_ := m.(first_arrival_s_);
     last_arrival_s_ := m.(last_arrival_s_) |}.

Definition is_nan (x : double) : bool := match x with S754_nan => true | _ => false end.

(** [std::sort] of doubles: a NaN among several is not ordered by [<] as the
    call requires, so the call is undefined. *)
Definition sortable (l : list double) : bool := (length l <=? 1)%nat || negb (existsb is_nan l).
Definition sort (l : list double) : outcome (list double) := if sortable l then Ok (stable_sort d_lt l) else OutOfBounds.

(** The element at a fraction of the last index. *)
Definition at_fraction (p : double) (s : list double) : outcome double :=
  idx ← cast_uint64 (d_mul p (d_of_Z (Z.of_nat (length s) - 1)));
  match s !! Z.to_nat idx with Some x => Ok x | None => OutOfBounds end.

Definition pct (p : double) (m : StreamMetrics) : outcome double :=
  match m.(latencies_ms_) with
  | [] => Ok d_zero
  | l => s ← sort l; at_fraction p s
  end.

Definition msgs_per_sec (m : StreamMetrics) : double :=
  if d_lt d_zero m.(duration_seconds_) then d_div (d_of_Z m.(received_)) m.(duration_seconds_) else d_zero.

(** [100.0 * (dropped > 0.0 ? dropped : 0.0) / expected] *)
Definition percent (dropped expected : double) : double :=
  d_div (d_mul (d_of_Z 100) (if d_lt d_zero dropped then dropped else d_zero)) expected.

Definition drop_rate_pct (m : StreamMetrics) : double :=
  let window := d_sub m.(last_arrival_s_) m.(first_arrival_s_) in
  if m.(has_arrival_) && (2 <=? m.(received_)) && d_lt d_zero window then
    let expected_intervals := d_mul m.(expected_rate_hz_) window in
    if d_le expected_intervals d_zero then d_zero
    else
      let observed_intervals := d_sub (d_of_Z m.(received_)) d_one in
      percent (d_sub expected_intervals observed_intervals) expected_intervals
  else
    let expected := d_mul m.(expected_rate_hz_) m.(duration_seconds_) in
    if d_le expected d_zero then d_zero
    else percent (d_sub expected (d_of_Z m.(received_))) expected.

Definition emit (m : StreamMetrics) (out : MetricMap) : outcome MetricMap :=
  p50 ← pct (d_lit 1 2) m;
  p99 ← pct (d_lit 99 100) m;
  p999 ← pct (d_lit 999 1000) m;
  let key suffix := (m.(name_) +:+ suffix)%string in
  let out := <[key "_msgs_per_sec" := msgs_per_sec m]> out in
  let out := <[key "_drop_rate_pct" := drop_rate_pct m]> out in
  let out := <[key "_latency_p50_ms" := p50]> out in
  let out := <[key "_latency_p99_ms" := p99]> out in
  let out := <[key "_latency_p999_ms" := p999]> out in
  let out := <[key "_sequence_gaps" := d_of_Z m.(sequence_gaps_)]> out in
  Ok (<[key "_received" := d_of_Z m.(received_)]> out).

(** ** Assertions *)

Record AssertionResult := mkAssertionResult {
  r_metric : string;
  r_op : CompareOp;
  threshold : double;
  actual : double;
  found : bool;
  passed : bool
}.

Definition kEpsilon : double := d_lit 1 1000000000.

Definition evaluate (a : Assertion) (metrics : MetricMap) : AssertionResult :=
  match metrics !! a.(metric) with
  | None =>
    {| r_metric := a.(metric); r_op := a.(op); threshold := a.(value); actual := d_zero;
       found := false; passed := false |}
  | Some x =>
    let passed :=
      match a.(op) with
      | kLessThan => d_lt x a.(value)
      | kGreaterThan => d_lt a.(value) x
      | kEquals => d_le (d_abs (d_sub x a.(value))) kEpsilon
      | kNotEquals => d_lt kEpsilon (d_abs (d_sub x a.(value)))
      | kUnknownOp => false
      end in
    {| r_metric := a.(metric); r_op := a.(op); threshold := a.(value); actual := x;
       found := true; passed := passed |}
  end.

Record ScenarioResult := mkScenarioResult {
  scenario_name : string;
  scenario_passed : bool;
  results : list AssertionResult
}.

(** The loop of [evaluate_all]. *)
Definition evaluate_one (metrics : MetricMap) (sr : ScenarioResult) (a : Assertion) : ScenarioResult :=
  let ar := evaluate a metrics in
  {| scenario_name := sr.(scenario_name);
     scenario_passed := if negb ar.(passed) then false else sr.(scenario_passed);
     results := sr.(results) ++ [ar] |}.

Definition evaluate_all (scenario_name : string) (assertions : list Assertion) (metrics : MetricMap) :
    ScenarioResult :=
  foldl (evaluate_one metrics)
    {| scenario_name := scenario_name; scenario_passed := true; results := [] |} assertions.

(** ** Namespaces and summaries *)

Record NamespaceManager := mkNamespaceManager {
  prefix_ : string;
  base_port_ : Z;
  counter_ : Z
}.

Definition new_manager (prefix : string) (base_port : Z) : NamespaceManager :=
  {| prefix_ := prefix; base_port_ := base_port; counter_ := 0 |}.

Definition next_namespace (n : NamespaceManager) : NamespaceManager * string :=
  ({| prefix_ := n.(prefix_); base_port_ := n.(base_port_); counter_ := u64 (n.(counter_) + 1) |},
   (n.(prefix_) +:+ "_" +:+ dec_string n.(counter_))%string).

Definition metrics_port (n : NamespaceManager) (index : Z) : Z :=
  if n.(base_port_) =? 0 then 0 else u16 (n.(base_port_) + index).

Record AggregateResult := mkAggregateResult {
  total_scenarios : Z;
  scenarios_passed : Z;
  scenarios_failed : Z;
  total_assertions : Z;
  assertions_passed : Z;
  per_scenario : list (string * bool)
}.

Definition all_passed (a : AggregateResult) : bool := (a.(scenarios_failed) =? 0) && (0 <? a.(total_scenarios)).

Definition count_assertion (n : Z) (a : AssertionResult) : Z := if a.(passed) then u64 (n + 1) else n.

(** One round of the loop of [aggregate]. *)
Definition add_result (agg : AggregateResult) (r : ScenarioResult) : AggregateResult :=
  {| total_scenarios := agg.(total_scenarios);
     scenarios_passed := if r.(scenario_passed) then u64 (agg.(scenarios_passed) + 1) else agg.(scenarios_passed);
     scenarios_failed := if r.(scenario_passed) then agg.(scenarios_failed) else u64 (agg.(scenarios_failed) + 1);
     total_assertions := u64 (agg.(total_assertions) + Z.of_nat (length r.(results)));
     assertions_passed := foldl count_assertion agg.(assertions_passed) r.(results);
     per_scenario := agg.(per_scenario) ++ [(r.(scenario_name), r.(scenario_passed))] |}.

Definition aggregate (rs : list ScenarioResult) : AggregateResult :=
  foldl add_result
    {| total_scenarios := Z.of_nat (length rs); scenarios_passed := 0; scenarios_failed := 0;
       total_assertions := 0; assertions_passed := 0; per_scenario := [] |} rs.

(** ** What [emit] stores *)

Definition suffixes : list string :=
  ["_msgs_per_sec"; "_drop_rate_pct"; "_latency_p50_ms"; "_latency_p99_ms"; "_latency_p999_ms";
   "_sequence_gaps"; "_received"]%string.

(** The keys of different streams or different metrics are different. *)
Lemma suffixes_free n1 n2 s1 s2 :
  s1 ∈ suffixes -> s2 ∈ suffixes -> (n1 +:+ s1 = n2 +:+ s2)%string -> n1 = n2 /\ s1 = s2.
Proof.
  intros H1 H2 E.
  assert (Forall (fun s => (6 <= String.length s)%nat) suffixes) as Hlen by (repeat constructor; cbn; lia).
  rewrite Forall_forall in Hlen.
  assert (str_last 6 s1 = str_last 6 s2) as El.
  { rewrite <- (str_last_app 6 n1 s1), <- (str_last_app 6 n2 s2), E by auto. done. }
  assert (s1 = s2) as ->; [|split; [by eapply string_app_inv_tail|done]].
  assert (NoDup (map (str_last 6) suffixes)) as Hnd by (apply (bool_decide_unpack _); vm_compute; exact I).
  apply list_elem_of_lookup in H1 as [i Hi], H2 as [j Hj].
  assert (i = j) as ->; [|congruence].
  apply (NoDup_lookup _ i j (str_last 6 s1) Hnd); change (map ?f ?l) with (f <$> l); rewrite list_lookup_fmap;
    [by rewrite Hi|by rewrite Hj, El].
Qed.

(** The position a percentile reads is inside of the samples. *)
Lemma at_fraction_ok mp s :
  Pos.size mp = 53%positive -> s <> [] -> Z.of_nat (length s) < 2 ^ 53 ->
  exists x, at_fraction (S754_finite false mp (-53)) s = Ok x /\ x ∈ s.
Proof.
  intros Hp Hne Hl. assert (0 < length s)%nat as Hpos by (destruct s; [done|cbn; lia]).
  destruct (d_mul_fraction mp (Z.of_nat (length s) - 1)) as (z & Hz & Hr); [done|lia|].
  unfold at_fraction, cast_uint64. rewrite Hz. rewrite (proj2 (Z.leb_le _ _)), (proj2 (Z.ltb_lt _ _)) by lia.
  cbn [andb mbind outcome_bind]. destruct (lookup_lt_is_Some_2 s (Z.to_nat z)) as [x Hx]; [lia|].
  rewrite Hx. exists x. split; [done|]. by eapply list_elem_of_lookup_2.
Qed.

(** A percentile of at least one sample is a sample. *)
Lemma pct_of_samples mp m x :
  Pos.size mp = 53%positive -> Z.of_nat (length m.(latencies_ms_)) < 2 ^ 53 -> m.(latencies_ms_) <> [] ->
  pct (S754_finite false mp (-53)) m = Ok x -> x ∈ m.(latencies_ms_).
Proof.
  intros Hp Hl Hne. unfold pct. destruct (latencies_ms_ m) as [|y l]; [done|]. unfold sort.
  case_test; cbn [mbind outcome_bind]; [|done].
  pose proof (length_stable_sort d_lt (y :: l)) as Hlen.
  destruct (at_fraction_ok mp (stable_sort d_lt (y :: l)) Hp) as (x' & -> & Hx); [by intros H; rewrite H in Hlen|by rewrite Hlen|].
  intros [= <-]. by rewrite stable_sort_perm in Hx.
Qed.

(** [emit] stores the statistics of the stream under its keys, and leaves all
    other keys alone. *)
Lemma emit_stores m out out' : emit m out = Ok out' ->
  out' !! (m.(name_) +:+ "_msgs_per_sec")%string = Some (msgs_per_sec m) /\
  out' !! (m.(name_) +:+ "_drop_rate_pct")%string = Some (drop_rate_pct m) /\
  (exists p, pct (d_lit 1 2) m = Ok p /\ out' !! (m.(name_) +:+ "_latency_p50_ms")%string = Some p) /\
  (exists p, pct (d_lit 99 100) m = Ok p /\ out' !! (m.(name_) +:+ "_latency_p99_ms")%string = Some p) /\
  (exists p, pct (d_lit 999 1000) m = Ok p /\ out' !! (m.(name_) +:+ "_latency_p999_ms")%string = Some p) /\
  out' !! (m.(name_) +:+ "_sequence_gaps")%string = Some (d_of_Z m.(sequence_gaps_)) /\
  out' !! (m.(name_) +:+ "_received")%string = Some (d_of_Z m.(received_)) /\
  forall k, (forall s, s ∈ suffixes -> k <> (m.(name_) +:+ s)%string) -> out' !! k = out !! k.
Proof.
  unfold emit. destruct (pct (d_lit 1 2) m) as [p50| |] eqn:H1; cbn [mbind outcome_bind]; try done.
  destruct (pct (d_lit 99 100) m) as [p99| |] eqn:H2; cbn [mbind outcome_bind]; try done.
  destruct (pct (d_lit 999 1000) m) as [p999| |] eqn:H3; cbn [mbind outcome_bind]; try done. cbv zeta. intros [= <-].
  assert (forall s1 s2, bool_decide (s1 = s2) = false -> (name_ m +:+ s1 <> name_ m +:+ s2)%string) as Hne.
  { intros s1 s2 Hs E. apply bool_decide_eq_false in Hs. apply Hs. clear -E. induction (name_ m) as [|c n IH]; [done|].
    injection E as E. auto. }
  repeat (split; [try (eexists; split; [done|]); rewrite ?lookup_insert_ne by (apply Hne; reflexivity); apply lookup_insert_eq|]).
  intros k Hk. rewrite !lookup_insert_ne; [done|..]; intros <-;
    (eapply Hk; [|reflexivity]; apply (bool_decide_unpack _); vm_compute; exact I).
Qed.

(** It succeeds unless sorting is undefined. *)
Lemma emit_total m out :
  Z.of_nat (length m.(latencies_ms_)) < 2 ^ 53 -> sortable m.(latencies_ms_) = true ->
  exists out', emit m out = Ok out'.
Proof.
  intros Hl Hs.
  assert (forall p, match p with S754_finite false mp (-53) => Pos.size mp = 53%positive | _ => False end ->
            exists x, pct p m = Ok x) as H.
  { intros p Hp. unfold pct. destruct (latencies_ms_ m) as [|y l]; [by eexists|]. unfold sort. rewrite Hs. cbn [mbind outcome_bind].
    pose proof (length_stable_sort d_lt (y :: l)) as Hlen.
    destruct p as [| | |[] mp e]; try done. destruct e as [|e|e]; try done.
    destruct (decide (e = 53)%positive) as [->|Hne].
    - destruct (at_fraction_ok mp (stable_sort d_lt (y :: l)) Hp) as (x & -> & _);
        [by intros E; rewrite E in Hlen|by rewrite Hlen|by exists x].
    - exfalso. revert Hp. clear -Hne. do 6 (destruct e as [e|e|]; try done). }
  unfold emit. destruct (H (d_lit 1 2)) as [x ->]; [vm_compute; reflexivity|].
  destruct (H (d_lit 99 100)) as [y ->]; [vm_compute; reflexivity|].
  destruct (H (d_lit 999 1000)) as [z ->]; [vm_compute; reflexivity|]. by eexists.
Qed.

(** ** Lemmas *)

(** The assertion holds of the metrics. *)
Definition holds (metrics : MetricMap) (a : Assertion) : Prop :=
  exists x, metrics !! a.(metric) = Some x /\
    match a.(op) with
    | kLessThan => d_lt x a.(value) = true
    | kGreaterThan => d_lt a.(value) x = true
    | kEquals => d_le (d_abs (d_sub x a.(value))) kEpsilon = true
    | kNotEquals => d_lt kEpsilon (d_abs (d_sub x a.(value))) = true
    | kUnknownOp => False
    end.

Lemma evaluate_holds a metrics : passed (evaluate a metrics) = true <-> holds metrics a.
Proof.
  unfold evaluate, holds. destruct (metrics !! metric a) as [x|]; cbn [passed].
  - split; [intros H; exists x; split; [done|by destruct (op a)]|].
    intros (y & [= <-] & H). by destruct (op a).
  - split; [done|by intros (x & ? & _)].
Qed.

Lemma d_sub_nan_l y : d_sub S754_nan y = S754_nan.
Proof. by destruct y. Qed.

Lemma nan_fails a metrics : metrics !! a.(metric) = Some S754_nan -> passed (evaluate a metrics) = false.
Proof.
  intros H. apply not_true_is_false. rewrite evaluate_holds. intros (x & Hx & Hop).
  rewrite H in Hx. injection Hx as <-. rewrite d_sub_nan_l in Hop.
  destruct (op a); try done; unfold d_lt, d_le, SFltb, SFleb in Hop; by destruct (value a) as [[]|[]| |[]].
Qed.

Lemma evaluate_all_loop metrics l sr :
  foldl (evaluate_one metrics) sr l =
  {| scenario_name := scenario_name sr;
     scenario_passed := scenario_passed sr && forallb passed (map (fun a => evaluate a metrics) l);
     results := results sr ++ map (fun a => evaluate a metrics) l |}.
Proof.
  revert sr. induction l as [|a l IH]; intros sr; cbn [foldl map forallb].
  - rewrite andb_true_r, app_nil_r. by destruct sr.
  - rewrite IH. unfold evaluate_one. cbn [scenario_name scenario_passed results].
    rewrite <- app_assoc. f_equal. destruct (passed (evaluate a metrics)); cbn [negb]; [done|].
    by rewrite andb_false_r.
Qed.

Lemma all_hold metrics assertions :
  forallb passed (map (fun a => evaluate a metrics) assertions) = true <-> Forall (holds metrics) assertions.
Proof.
  rewrite forallb_forall, Forall_forall. split.
  - intros H a Ha. apply evaluate_holds, H, in_map_iff. exists a. split; [done|by apply list_elem_of_In].
  - intros H x Hx. apply in_map_iff in Hx as (a & <- & Ha). by apply evaluate_holds, H, list_elem_of_In.
Qed.

(** The number of [true]s. *)
Definition count (l : list bool) : Z := Z.of_nat (length (List.filter id l)).

Lemma count_cons b l : count (b :: l) = (if b then 1 else 0) + count l.
Proof. unfold count. destruct b; cbn; lia. Qed.

Lemma count_app l l' : count (l ++ l') = count l + count l'.
Proof. unfold count. rewrite List.filter_app, length_app. lia. Qed.

Lemma count_range l : 0 <= count l <= Z.of_nat (length l).
Proof. induction l as [|[] l IH]; rewrite ?count_cons; cbn [length]; [done|lia|lia]. Qed.

Lemma count_assertions l n :
  0 <= n -> n + Z.of_nat (length l) < 2 ^ 64 -> foldl count_assertion n l = n + count (map passed l).
Proof.
  revert n. induction l as [|a l IH]; intros n Hn Hl; cbn [foldl map length] in *; [unfold count; cbn; lia|].
  rewrite count_cons. unfold count_assertion at 2. destruct (passed a).
  - rewrite wrap_small by (unfold is_uint; lia). rewrite IH by lia. lia.
  - rewrite IH by lia. lia.
Qed.

Lemma aggregate_loop rs agg :
  0 <= scenarios_passed agg -> 0 <= scenarios_failed agg -> 0 <= assertions_passed agg <= total_assertions agg ->
  scenarios_passed agg + scenarios_failed agg + Z.of_nat (length rs) < 2 ^ 64 ->
  total_assertions agg + Z.of_nat (length (concat (map results rs))) < 2 ^ 64 ->
  foldl add_result agg rs =
  {| total_scenarios := total_scenarios agg;
     scenarios_passed := scenarios_passed agg + count (map scenario_passed rs);
     scenarios_failed := scenarios_failed agg + (Z.of_nat (length rs) - count (map scenario_passed rs));
     total_assertions := total_assertions agg + Z.of_nat (length (concat (map results rs)));
     assertions_passed := assertions_passed agg + count (map passed (concat (map results rs)));
     per_scenario := per_scenario agg ++ map (fun r => (scenario_name r, scenario_passed r)) rs |}.
Proof.
  revert agg. induction rs as [|r rs IH]; intros agg Hp Hf Ha Hn Ht; cbn [foldl map concat length] in *.
  - cbn. rewrite !Z.add_0_r, app_nil_r. by destruct agg.
  - rewrite length_app in *. pose proof (count_range (map passed (results r))) as Hc. rewrite length_map in Hc.
    rewrite IH; cbn [add_result total_scenarios scenarios_passed scenarios_failed total_assertions
                     assertions_passed per_scenario];
      rewrite ?count_assertions by lia; rewrite ?count_cons, <- ?app_assoc;
      rewrite ?(wrap_small 64 (total_assertions agg + _)) by (unfold is_uint; lia).
    + rewrite map_app, count_app.
      destruct (scenario_passed r); rewrite wrap_small by (unfold is_uint; lia); f_equal; lia.
    + destruct (scenario_passed r); [apply wrap_range; lia|lia].
    + destruct (scenario_passed r); [lia|apply wrap_range; lia].
    + lia.
    + destruct (scenario_passed r); rewrite wrap_small by (unfold is_uint; lia); lia.
    + lia.
Qed.

(** Verdicts.  [evaluate_all] passes exactly when every assertion holds of
    the metrics, with one result per assertion in order; a metric that is
    missing or not a number fails its assertion under every operator. *)
Theorem evaluate_all_spec name assertions metrics :
  let r := evaluate_all name assertions metrics in
  scenario_name r = name /\
  results r = map (fun a => evaluate a metrics) assertions /\
  (scenario_passed r = true <-> Forall (holds metrics) assertions) /\
  (forall a, a ∈ assertions ->
   metrics !! a.(metric) = None \/ metrics !! a.(metric) = Some S754_nan -> scenario_passed r = false).
Proof.
  cbv zeta. unfold evaluate_all. rewrite evaluate_all_loop. cbn [scenario_name scenario_passed results app andb].
  pose proof (all_hold metrics assertions) as Hall.
  do 2 (split; [done|]). split; [done|]. intros a Ha Hm. apply not_true_is_false. rewrite Hall, Forall_forall.
  intros H. specialize (H a Ha). destruct Hm as [Hm|Hm].
  - destruct H as (x & Hx & _). congruence.
  - apply evaluate_holds in H. by rewrite (nan_fails a metrics Hm) in H.
Qed.

(** The summary of a parallel run.  [aggregate] counts every scenario
    once as passed or failed and every assertion, keeps the verdicts in
    order, and reports success exactly when there is a result and all of them
    passed. *)
Theorem aggregate_counts rs :
  Z.of_nat (length rs) < 2 ^ 64 -> Z.of_nat (length (concat (map results rs))) < 2 ^ 64 ->
  let a := aggregate rs in
  scenarios_passed a = count (map scenario_passed rs) /\
  scenarios_passed a + scenarios_failed a = Z.of_nat (length rs) /\ total_scenarios a = Z.of_nat (length rs) /\
  total_assertions a = Z.of_nat (length (concat (map results rs))) /\
  assertions_passed a = count (map passed (concat (map results rs))) /\
  per_scenario a = map (fun r => (scenario_name r, scenario_passed r)) rs /\
  (all_passed a = true <-> rs <> [] /\ Forall (fun r => scenario_passed r = true) rs).
Proof.
  intros H1 H2. cbv zeta. unfold aggregate.
  rewrite aggregate_loop by (cbn -[Z.lt Z.add Z.of_nat concat map length]; lia).
  cbn [total_scenarios scenarios_passed scenarios_failed total_assertions assertions_passed per_scenario app].
  do 6 (split; [lia || done|]). unfold all_passed. cbn [scenarios_failed total_scenarios].
  rewrite andb_true_iff, Z.eqb_eq, Z.ltb_lt.
  assert (count (map scenario_passed rs) = Z.of_nat (length rs) <-> Forall (fun r => scenario_passed r = true) rs) as Hc.
  { clear H1 H2. induction rs as [|r rs IH]; [done|]. cbn [map length]. rewrite count_cons, Forall_cons, <- IH.
    pose proof (count_range (map scenario_passed rs)) as Hr. rewrite length_map in Hr.
    destruct (scenario_passed r); (split; [intros H|intros [Hp H]]); try done; lia || (split; [done|lia]). }
  rewrite <- Hc. destruct rs; cbn [length]; (split; intros [Ha Hb]); [done || lia|done|split; [done|lia]|split; lia].
Qed.

Lemma aggregate_counts_witness :
  let rs := [{| scenario_name := "a"; scenario_passed := true; results := [] |};
             {| scenario_name := "b"; scenario_passed := false; results := [] |}] in
  scenarios_passed (aggregate rs) + scenarios_failed (aggregate rs) = 2.
Proof.
  cbv zeta.
  destruct (aggregate_counts [{| scenario_name := "a"; scenario_passed := true; results := [] |};
             {| scenario_name := "b"; scenario_passed := false; results := [] |}]) as (_ & H & _);
    [reflexivity|reflexivity|exact H].
Defined.

Lemma evaluate_all_spec_witness :
  scenario_passed (evaluate_all "s" [{| metric := "m"; op := kLessThan; value := d_one; window_seconds := None |}]
                     (<["m"%string := S754_nan]> ∅)) = false.
Proof.
  destruct (evaluate_all_spec "s" [{| metric := "m"; op := kLessThan; value := d_one; window_seconds := None |}]
              (<["m"%string := S754_nan]> ∅)) as (_ & _ & _ & H).
  apply (H {| metric := "m"; op := kLessThan; value := d_one; window_seconds := None |}).
  - apply list_elem_of_here.
  - right. reflexivity.
Defined.

End Evaluation.
