(* ===== verification/Registry.v ===== *)
(** * The metric registry and its exporter ([src/metrics/registry.hpp], [prometheus_exporter.cpp])

    Families of series in ordered maps, the updates, the text exposition and
    the answer of the HTTP exporter to one request.

    Results: a reader of the text format gets back exactly the series of the
    registry, whatever the label values contain, with the values as they are
    printed; updates of gauges and counters refine a map from metric and key
    of the labels to labels and value; the exporter answers every client it
    accepts with one response and closes it, and a response that [send] takes
    only in part is never mistaken for a complete one. *)

From S2P Require Export StdMap CppFormat.
From Stdlib Require Import Ascii.

Module Registry.

Definition Labels := smap string.

Record Series := mkSeries { labels : Labels; value : double }.
Definition Series_default : Series := {| labels := []; value := d_zero |}.

Record Family := mkFamily { type : string; help : string; series : smap Series }.
Definition Family_default : Family := {| type := ""; help := ""; series := [] |}.

(** [families_]; every operation holds the mutex. *)
Definition Registry := smap Family.

Definition quote : string := String "034" "".
Definition newline : string := String "010" "".

(** The loop of [key], from what is already in [k]. *)
Definition key (ls : Labels) : string :=
  foldl (fun k '(n, v) => k +:+ n +:+ "=" +:+ v +:+ ";") "" ls%string.

Definition set_gauge (name : string) (value : double) (ls : Labels) (r : Registry) : Registry :=
  map_at Family_default name
    (fun fam => {| type := "gauge"; help := fam.(help);
                   series := map_set (key ls) {| labels := ls; value := value |} fam.(series) |}) r.

Definition set_sensor_gauge (name sensor : string) (value : double) (r : Registry) : Registry :=
  set_gauge name value [("sensor"%string, sensor)] r.

Definition add_counter (name : string) (delta : double) (ls : Labels) (r : Registry) : Registry :=
  map_at Family_default name
    (fun fam => {| type := "counter"; help := fam.(help);
                   series := map_at Series_default (key ls)
                               (fun s => {| labels := ls; value := d_add s.(value) delta |}) fam.(series) |}) r.

Definition set_help (name help : string) (r : Registry) : Registry :=
  map_at Family_default name
    (fun fam => {| type := fam.(type); help := help; series := fam.(series) |}) r.

Fixpoint escape (s : string) : string :=
  match s with
  | EmptyString => EmptyString
  | String c s =>
    if bool_decide (c = "010"%char) then String "\" (String "n" (escape s))
    else if bool_decide (c = "034"%char) || bool_decide (c = "\"%char) then String "\" (String c (escape s))
    else String c (escape s)
  end.

(** The pairs of a label set, separated by commas. *)
Fixpoint render_labels (first : bool) (ls : Labels) : string :=
  match ls with
  | [] => ""
  | (n, v) :: ls =>
    (if first then "" else ",") +:+ n +:+ "=" +:+ quote +:+ escape v +:+ quote +:+ render_labels false ls
  end%string.

(** What the rounds of a loop append to the stream. *)
Definition output (l : list string) : string := foldr String.append EmptyString l.

Definition render_series (name : string) (s : Series) : string :=
  (name +:+ (match s.(labels) with [] => "" | ls => "{" +:+ render_labels true ls +:+ "}" end) +:+
   " " +:+ format_general s.(value) +:+ newline)%string.

Definition render_family (name : string) (fam : Family) : string :=
  ((match fam.(help) with EmptyString => "" | h => "# HELP " +:+ name +:+ " " +:+ h +:+ newline end) +:+
   "# TYPE " +:+ name +:+ " " +:+ (match fam.(type) with EmptyString => "gauge" | t => t end) +:+ newline +:+
   output (map (fun '(_, s) => render_series name s) fam.(series)))%string.

Definition render (r : Registry) : string :=
  output (map (fun '(name, fam) => render_family name fam) r).

(** ** The exporter *)

(** [strchr] on the bytes received, which end at the first NUL. *)
Fixpoint split_at (c : ascii) (s : string) : option (string * string) :=
  match s with
  | EmptyString => None
  | String d s =>
    if bool_decide (d = "000"%char) then None
    else if bool_decide (d = c) then Some (EmptyString, s)
    else match split_at c s with Some (a, b) => Some (String d a, b) | None => None end
  end.

(** The path of [GET <path> HTTP/1.1]; at most 2047 bytes are looked at. *)
Definition request_path (request : string) : string :=
  match split_at " " (substr request 0 2047) with
  | Some (_, rest) => match split_at " " rest with Some (path, _) => path | None => "/" end
  | None => "/"
  end%string.

Definition crlf : string := String "013" (String "010" "").

Definition respond (request : string) (r : Registry) : string :=
  let path := request_path request in
  let '(body, status, ctype) :=
    if bool_decide (path = "/metrics"%string) || bool_decide (path = "/"%string)
    then (render r, "200 OK", "text/plain; version=0.0.4; charset=utf-8")
    else ("not found" +:+ newline, "404 Not Found", "text/plain") in
  "HTTP/1.1 " +:+ status +:+ crlf +:+ "Content-Type: " +:+ ctype +:+ crlf +:+
  "Content-Length: " +:+ dec_string (Z.of_nat (String.length body)) +:+ crlf +:+
  "Connection: close" +:+ crlf +:+ crlf +:+ body%string.

(** What reaches the client: [send] takes [taken] bytes of the response (none
    when it fails), and its result is ignored. *)
Definition serve (request : string) (r : Registry) (taken : nat) : string := substr (respond request r) 0 taken.

(** ** A reader of the text format *)

(** A quoted label value, behind its opening quote. *)
Fixpoint scan_value (s : string) : option (string * string) :=
  match s with
  | EmptyString => None
  | String c s =>
    if bool_decide (c = "034"%char) then Some (EmptyString, s)
    else if bool_decide (c = "\"%char) then
      match s with
      | EmptyString => None
      | String d s =>
        '(v, rest) ← scan_value s; Some (String (if bool_decide (d = "n"%char) then "010"%char else d) v, rest)
      end
    else '(v, rest) ← scan_value s; Some (String c v, rest)
  end.

(** Splits in front of the first character that satisfies [P]. *)
Fixpoint span (P : ascii -> bool) (s : string) : string * string :=
  match s with
  | EmptyString => (EmptyString, EmptyString)
  | String c s' => if P c then (EmptyString, s) else let '(a, b) := span P s' in (String c a, b)
  end.

(** Label pairs up to the closing brace; each takes at least one unit of fuel. *)
Fixpoint read_labels (fuel : nat) (s : string) : option (Labels * string) :=
  match fuel with
  | O => None
  | S fuel =>
    match span (fun c => bool_decide (c = "="%char)) s with
    | (n, String _ (String q rest)) =>
      if bool_decide (q = "034"%char) then
        '(v, rest) ← scan_value rest;
        match rest with
        | String c rest =>
          if bool_decide (c = "}"%char) then Some ([(n, v)], rest)
          else if bool_decide (c = ","%char) then '(ls, rest) ← read_labels fuel rest; Some ((n, v) :: ls, rest)
          else None
        | EmptyString => None
        end
      else None
    | _ => None
    end
  end.

(** Metric, labels and printed value. *)
Definition sample : Type := string * Labels * string.

Definition read_sample (line : string) : option sample :=
  match span (fun c => bool_decide (c = "{"%char) || bool_decide (c = " "%char)) line with
  | (name, String c rest) =>
    if bool_decide (c = " "%char) then Some (name, [], rest)
    else
      '(ls, rest) ← read_labels (String.length rest) rest;
      match rest with
      | String c rest => if bool_decide (c = " "%char) then Some (name, ls, rest) else None
      | EmptyString => None
      end
  | _ => None
  end.

Fixpoint lines (s : string) : list string :=
  match s with
  | EmptyString => []
  | String c s =>
    if bool_decide (c = "010"%char) then EmptyString :: lines s
    else match lines s with
         | [] => [String c EmptyString]
         | l :: ls => String c l :: ls
         end
  end.

Definition is_comment (line : string) : bool :=
  match line with String c _ => bool_decide (c = "#"%char) | EmptyString => false end.

(** The samples of a text; [None] when a line is not understood. *)
Definition scrape (text : string) : option (list sample) :=
  mapM read_sample (List.filter (fun l => negb (is_comment l)) (lines text)).

(** ** Reading back what was rendered *)

Definition label_char (c : ascii) : bool :=
  is_digit c || (code "a" <=? code c) && (code c <=? code "z") || (code "A" <=? code c) && (code c <=? code "Z")
  || bool_decide (c = "_"%char).

Definition name_char (c : ascii) : bool := label_char c || bool_decide (c = ":"%char).

Definition not_newline (c : ascii) : bool := negb (bool_decide (c = "010"%char)).

Definition family_ok (name : string) (fam : Family) : Prop :=
  name <> ""%string /\ all_chars name_char name = true /\
  all_chars not_newline fam.(help) = true /\ all_chars not_newline fam.(type) = true /\
  Forall (fun e => Forall (fun l => all_chars label_char l.1 = true) e.2.(labels)) fam.(series).

Definition registry_ok (r : Registry) : Prop := Forall (fun e => family_ok e.1 e.2) r.

Definition family_samples (name : string) (fam : Family) : list sample :=
  map (fun e => (name, e.2.(labels), format_general e.2.(value))) fam.(series).

Definition samples (r : Registry) : list sample := concat (map (fun e => family_samples e.1 e.2) r).

Lemma scan_escape v rest : scan_value (escape v +:+ quote +:+ rest) = Some (v, rest).
Proof.
  induction v as [|c v IH]; [done|]. cbn [escape].
  case_bool_decide as E1; [|case_test].
  - subst. change (scan_value _) with ('(v, rest) ← scan_value (escape v +:+ quote +:+ rest); Some (String "010" v, rest)).
    by rewrite IH.
  - change (scan_value _) with ('(v, rest) ← scan_value (escape v +:+ quote +:+ rest);
      Some (String (if bool_decide (c = "n"%char) then "010"%char else c) v, rest)).
    rewrite IH. cbn [mbind option_bind]. apply orb_true_iff in E as [E|E]; apply bool_decide_eq_true in E; by subst.
  - apply orb_false_iff in E as [E2 E3].
    change (scan_value _) with
      (if bool_decide (c = "034"%char) then Some (EmptyString, escape v +:+ quote +:+ rest)%string
       else if bool_decide (c = "\"%char) then
         match (escape v +:+ quote +:+ rest)%string with
         | EmptyString => None
         | String d s => '(v, rest) ← scan_value s; Some (String (if bool_decide (d = "n"%char) then "010"%char else d) v, rest)
         end
       else '(v, rest) ← scan_value (escape v +:+ quote +:+ rest); Some (String c v, rest)).
    by rewrite E2, E3, IH.
Qed.

Lemma escape_no_newline v : all_chars not_newline (escape v) = true.
Proof.
  induction v as [|c v IH]; [done|]. cbn [escape]. case_bool_decide as E1; [done|].
  case_test; cbn [all_chars]; rewrite IH; unfold not_newline; by rewrite (bool_decide_false (c = _)) by done.
Qed.

Lemma span_app (P : ascii -> bool) a c rest :
  all_chars (fun x => negb (P x)) a = true -> P c = true -> span P (a +:+ String c rest) = (a, String c rest).
Proof.
  intros Ha Hc. induction a as [|x a IH]; cbn [all_chars] in Ha.
  - cbn [span]. change (""+:+ String c rest)%string with (String c rest). cbn [span]. by rewrite Hc.
  - apply andb_true_iff in Ha as [H1 H2]. apply negb_true_iff in H1.
    change (String x a +:+ String c rest)%string with (String x (a +:+ String c rest)). cbn [span].
    by rewrite H1, IH.
Qed.

Lemma lines_app l t : all_chars not_newline l = true -> lines (l +:+ newline +:+ t) = l :: lines t.
Proof.
  induction l as [|c l IH]; [done|]. cbn [all_chars]. rewrite andb_true_iff. intros [Hc Hl].
  change (String c l +:+ newline +:+ t)%string with (String c (l +:+ newline +:+ t)). cbn [lines].
  apply negb_true_iff in Hc. by rewrite Hc, IH.
Qed.

(** A character class without a given character. *)
Lemma chars_without (P : ascii -> bool) (bad : list ascii) s :
  forallb (fun c => negb (P c)) bad = true -> all_chars P s = true ->
  all_chars (fun x => negb (existsb (fun c => bool_decide (x = c)) bad)) s = true.
Proof.
  intros Hb. apply all_chars_impl. intros c Hc. apply negb_true_iff, not_true_is_false. intros H.
  apply existsb_exists in H as (d & Hd & E). apply bool_decide_eq_true in E as ->.
  rewrite forallb_forall in Hb. specialize (Hb d Hd). by rewrite Hc in Hb.
Qed.

(** An identifier has none of the separators. *)
Lemma label_span (c : ascii) n rest :
  all_chars label_char n = true -> c = "="%char ->
  span (fun x => bool_decide (x = "="%char)) (n +:+ String c rest) = (n, String c rest).
Proof.
  intros Hn ->. apply span_app; [|done].
  pose proof (chars_without label_char ["="%char] n eq_refl Hn) as H. revert H. apply all_chars_impl.
  intros x. cbn [existsb]. by rewrite orb_false_r.
Qed.

Definition labels_ok (ls : Labels) : Prop := Forall (fun l => all_chars label_char l.1 = true) ls.

Lemma render_labels_cons first n v ls :
  (render_labels first ((n, v) :: ls) =
   (if first then "" else ",") +:+ n +:+ "=" +:+ quote +:+ escape v +:+ quote +:+ render_labels false ls)%string.
Proof. done. Qed.

Lemma read_render_labels fuel n v ls rest :
  labels_ok ((n, v) :: ls) -> (length ls < fuel)%nat ->
  read_labels fuel (render_labels true ((n, v) :: ls) +:+ "}" +:+ rest)%string = Some ((n, v) :: ls, rest).
Proof.
  revert fuel n v. induction ls as [|[n' v'] ls IH]; intros fuel n v Hok Hf; (destruct fuel as [|fuel]; [lia|]);
    inversion_clear Hok as [|x y Hn Hls]; cbn [fst] in Hn; rewrite render_labels_cons; cbn [read_labels];
    change (("" +:+ ?x)%string) with x; rewrite <- !string_app_assoc.
  - change ("=" +:+ quote +:+ ?x)%string with (String "=" (String "034" x)).
    rewrite label_span by done. cbn iota beta. rewrite bool_decide_true by done. by rewrite scan_escape.
  - change ("=" +:+ quote +:+ ?x)%string with (String "=" (String "034" x)).
    rewrite label_span by done. cbn iota beta. rewrite bool_decide_true by done. rewrite scan_escape.
    cbn [mbind option_bind]. rewrite render_labels_cons, <- !string_app_assoc.
    change ("," +:+ ?x)%string with (String "," x).
    cbn iota beta. rewrite (bool_decide_false (","%char = "}"%char)) by done. rewrite bool_decide_true by done.
    specialize (IH fuel n' v' Hls). rewrite render_labels_cons in IH.
    change (("" +:+ ?x)%string) with x in IH. rewrite <- !string_app_assoc in IH.
    rewrite IH by (cbn in Hf; lia). done.
Qed.

(** The line of a series, without its end. *)
Definition series_line (name : string) (s : Series) : string :=
  (name +:+ (match s.(labels) with [] => "" | ls => "{" +:+ render_labels true ls +:+ "}" end) +:+
   " " +:+ format_general s.(value))%string.

Lemma render_series_line name s : render_series name s = (series_line name s +:+ newline)%string.
Proof. unfold render_series, series_line. by rewrite <- !string_app_assoc. Qed.

Lemma name_span (c : ascii) n rest :
  all_chars name_char n = true -> c = "{"%char \/ c = " "%char ->
  span (fun x => bool_decide (x = "{"%char) || bool_decide (x = " "%char)) (n +:+ String c rest) = (n, String c rest).
Proof.
  intros Hn Hc. apply span_app; [|by destruct Hc as [->| ->]].
  pose proof (chars_without name_char ["{"%char; " "%char] n eq_refl Hn) as H. revert H. apply all_chars_impl.
  intros x. cbn [existsb]. by rewrite orb_false_r.
Qed.

Lemma length_labels ls first : (length ls <= String.length (render_labels first ls))%nat.
Proof.
  revert first. induction ls as [|[n v] ls IH]; intros first; cbn [length]; [lia|].
  rewrite render_labels_cons, !string_length_app. specialize (IH false). cbn [String.length] in *.
  unfold quote. cbn [String.length]. lia.
Qed.

Lemma read_series_line name s :
  all_chars name_char name = true -> labels_ok s.(labels) ->
  read_sample (series_line name s) = Some (name, s.(labels), format_general s.(value)).
Proof.
  intros Hn Hl. unfold read_sample, series_line. destruct s as [ls v]. cbn [labels value] in *.
  destruct ls as [|[n w] ls].
  - change ("" +:+ " " +:+ ?x)%string with (String " " x). by rewrite name_span by auto.
  - rewrite <- !string_app_assoc. change ("{" +:+ ?x)%string with (String "{" x).
    rewrite name_span by auto. cbn iota beta. rewrite bool_decide_false by done.
    rewrite read_render_labels; [done|done|]. rewrite string_length_app.
    pose proof (length_labels ((n, w) :: ls) true). cbn [length] in *. lia.
Qed.

Lemma num_not_newline s : all_chars num_char s = true -> all_chars not_newline s = true.
Proof.
  intros H. pose proof (chars_without num_char ["010"%char] s eq_refl H) as H'. revert H'. apply all_chars_impl.
  intros x. cbn [existsb]. by rewrite orb_false_r.
Qed.

Lemma name_not_newline s : all_chars name_char s = true -> all_chars not_newline s = true.
Proof.
  intros H. pose proof (chars_without name_char ["010"%char] s eq_refl H) as H'. revert H'. apply all_chars_impl.
  intros x. cbn [existsb]. by rewrite orb_false_r.
Qed.

Lemma label_name s : all_chars label_char s = true -> all_chars name_char s = true.
Proof. apply all_chars_impl. unfold name_char. by intros c ->. Qed.

#[local] Hint Resolve num_not_newline name_not_newline label_name format_general_chars escape_no_newline : chars.

Lemma render_labels_chars first ls : labels_ok ls -> all_chars not_newline (render_labels first ls) = true.
Proof.
  intros H. revert first. induction H as [|[n v] ls Hn _ IH]; intros first; [done|]. rewrite render_labels_cons.
  cbn [fst] in Hn. chars. by destruct first.
Qed.
#[local] Hint Resolve render_labels_chars : chars.

Lemma series_line_chars name s :
  all_chars name_char name = true -> labels_ok s.(labels) -> all_chars not_newline (series_line name s) = true.
Proof.
  intros Hn Hl. unfold series_line. chars. destruct s as [[|l ls] v]; cbn [labels] in *; [done|].
  pose proof (render_labels_chars true (l :: ls) Hl). chars.
Qed.

(** The lines of a family: comments, then one for each series. *)
Lemma lines_series name (l : smap Series) rest :
  all_chars name_char name = true -> Forall (fun e => labels_ok e.2.(labels)) l ->
  lines (output (map (fun '(_, s) => render_series name s) l) +:+ rest) =
  map (fun e => series_line name e.2) l ++ lines rest.
Proof.
  intros Hn. induction 1 as [|[k s] l Hs Hl IH]; [done|]. cbn [map app snd] in *. rewrite <- IH.
  unfold output. cbn [foldr]. rewrite render_series_line, <- !string_app_assoc.
  by apply lines_app, series_line_chars.
Qed.

(** The comments of a family. *)
Definition header_lines (name : string) (fam : Family) : list string :=
  (match fam.(help) with EmptyString => [] | h => [("# HELP " +:+ name +:+ " " +:+ h)%string] end) ++
  [("# TYPE " +:+ name +:+ " " +:+ (match fam.(type) with EmptyString => "gauge" | t => t end))%string].

Lemma lines_family name fam rest :
  family_ok name fam ->
  lines (render_family name fam +:+ rest) =
  header_lines name fam ++ map (fun e => series_line name e.2) fam.(series) ++ lines rest.
Proof.
  intros (_ & Hn & Hh & Ht & Hs). unfold render_family, header_lines. rewrite <- (lines_series name) by done.
  assert (forall x, lines (("# TYPE " +:+ name +:+ " " +:+
            (match type fam with EmptyString => "gauge" | t => t end) +:+ newline +:+ x))%string =
          ("# TYPE " +:+ name +:+ " " +:+ (match type fam with EmptyString => "gauge" | t => t end))%string :: lines x) as Htype.
  { intros x. rewrite <- lines_app; [by rewrite <- !string_app_assoc|]. chars. by destruct (type fam). }
  destruct (help fam) as [|c h] eqn:Eh; cbn [app].
  - change ("" +:+ ?x)%string with x. rewrite <- !string_app_assoc. apply Htype.
  - rewrite <- !string_app_assoc. rewrite <- Htype, <- lines_app; [by rewrite <- !string_app_assoc|]. chars.
Qed.

Lemma header_comments name fam : Forall (fun l => is_comment l = true) (header_lines name fam).
Proof. unfold header_lines. destruct (help fam); repeat constructor. Qed.

Lemma series_line_sample name s : name <> ""%string -> all_chars name_char name = true -> is_comment (series_line name s) = false.
Proof.
  intros Hne Hn. destruct name as [|c name]; [done|]. cbn [all_chars] in Hn. apply andb_true_iff in Hn as [Hc _].
  unfold series_line, is_comment. cbn. apply bool_decide_eq_false. by intros ->.
Qed.

Lemma mapM_cons {A B} (f : A -> option B) x l :
  mapM f (x :: l) = (y ← f x; k ← mapM f l; Some (y :: k)).
Proof. done. Qed.

(** Every rendered series is read back. *)
Lemma scrape_render r : registry_ok r -> scrape (render r) = Some (samples r).
Proof.
  unfold scrape, render, samples. induction 1 as [|[name fam] r Hf Hr IH]; [done|].
  cbn [map concat output foldr fst snd]. fold (output (map (fun '(name, fam) => render_family name fam) r)).
  cbn [fst snd] in Hf. rewrite lines_family by done. rewrite !List.filter_app.
  replace (List.filter _ (header_lines name fam)) with (@nil string).
  2: { symmetry. pose proof (header_comments name fam) as H. induction H as [|l ls Hl _ IHl]; cbn; [done|].
       by rewrite Hl. }
  destruct Hf as (Hne & Hn & _ & _ & Hs). cbn [app]. unfold family_samples.
  induction Hs as [|[k s] l Hl Hs IHl]; [exact IH|]. cbn [map List.filter app fst snd] in *.
  rewrite series_line_sample by done. cbn [negb app].
  rewrite mapM_cons, read_series_line by done. cbn [mbind option_bind]. by rewrite IHl.
Qed.

(** ** The updates refine a map *)

Inductive update :=
| Gauge (name : string) (v : double) (ls : Labels)
| Counter (name : string) (delta : double) (ls : Labels)
| Help (name help : string).

Definition apply_update (r : Registry) (u : update) : Registry :=
  match u with
  | Gauge name v ls => set_gauge name v ls r
  | Counter name delta ls => add_counter name delta ls r
  | Help name help => set_help name help r
  end.

(** The specification: per metric and key of the labels, the labels of the last
    update and the last value of a gauge or the sum of a counter. *)
Definition spec_update (m : gmap (string * string) (Labels * double)) (u : update) : gmap (string * string) (Labels * double) :=
  match u with
  | Gauge name v ls => <[(name, key ls) := (ls, v)]> m
  | Counter name delta ls => <[(name, key ls) := (ls, d_add (from_option snd d_zero (m !! (name, key ls))) delta)]> m
  | Help _ _ => m
  end.

(** The same per label set, for label sets with different keys. *)
Definition value_update (m : gmap (string * Labels) double) (u : update) : gmap (string * Labels) double :=
  match u with
  | Gauge name v ls => <[(name, ls) := v]> m
  | Counter name delta ls => <[(name, ls) := d_add (default d_zero (m !! (name, ls))) delta]> m
  | Help _ _ => m
  end.

Definition update_name (u : update) : string :=
  match u with Gauge n _ _ | Counter n _ _ | Help n _ => n end.
Definition update_labels (u : update) : list Labels :=
  match u with Gauge _ _ ls | Counter _ _ ls => [ls] | Help _ _ => [] end.

(** A name of a metric, label names without separators, help on one line. *)
Definition update_ok (u : update) : Prop :=
  update_name u <> ""%string /\ all_chars name_char (update_name u) = true /\
  Forall labels_ok (update_labels u) /\
  match u with Help _ h => all_chars not_newline h = true | _ => True end.

(** No two of the label sets have the same key. *)
Definition keys_distinct (used : list Labels) : Prop :=
  forall l1 l2, l1 ∈ used -> l2 ∈ used -> key l1 = key l2 -> l1 = l2.

Lemma keys_distinct_sub used used' : (forall l, l ∈ used -> l ∈ used') -> keys_distinct used' -> keys_distinct used.
Proof. intros Hs Hd l1 l2 H1 H2. by apply Hd; apply Hs. Qed.

(** A change of one series: what [set_gauge] and [add_counter] share. *)
Definition upd_series (ty name : string) (ls : Labels) (f : double -> double) (r : Registry) : Registry :=
  map_at Family_default name
    (fun fam => {| type := ty; help := fam.(help);
                   series := map_at Series_default (key ls) (fun s => {| labels := ls; value := f s.(value) |})
                               fam.(series) |}) r.

(** The series of a metric with a key. *)
Definition find_series (r : Registry) (name k : string) : option (Labels * double) :=
  fam ← map_find name r; s ← map_find k fam.(series); Some (s.(labels), s.(value)).

(** The registry represents the map [m]. *)
Record represents (r : Registry) (m : gmap (string * string) (Labels * double)) : Prop := {
  rep_ok : map_ok r;
  rep_fam : forall name fam, map_find name r = Some fam ->
    map_ok fam.(series) /\ (forall k s, map_find k fam.(series) = Some s -> k = key s.(labels));
  rep_find : forall name k, find_series r name k = m !! (name, k)
}.

Lemma upd_represents ty name ls f r m :
  represents r m ->
  represents (upd_series ty name ls f r) (<[(name, key ls) := (ls, f (from_option snd d_zero (m !! (name, key ls))))]> m).
Proof.
  intros [H1 H2 H3]. constructor.
  - by apply map_at_ok.
  - intros name' fam. unfold upd_series. rewrite map_find_at. case_bool_decide; [|apply H2].
    intros [= <-]. cbn [series]. split.
    + apply map_at_ok. destruct (map_find name r) as [fam|] eqn:E; cbn [default from_option]; [by apply (H2 name)|constructor].
    + intros k s. rewrite map_find_at. case_bool_decide as Ek; [intros [= <-]; by cbn [labels]|].
      destruct (map_find name r) as [fam|] eqn:E; cbn [default from_option]; [by apply (H2 name)|done].
  - intros name' k. specialize (H3 name' k) as H3'. unfold find_series, upd_series in *. rewrite map_find_at.
    case_bool_decide as En.
    + subst name'. cbn [mbind option_bind series]. rewrite map_find_at. case_bool_decide as Ek.
      * subst k. rewrite lookup_insert_eq. cbn [mbind option_bind value labels]. rewrite <- H3'.
        destruct (map_find name r) as [fam|]; cbn [default from_option mbind option_bind series]; [|done].
        unfold id. by destruct (map_find (key ls) (series fam)).
      * rewrite lookup_insert_ne by congruence. rewrite <- H3'.
        by destruct (map_find name r) as [fam|].
    + rewrite lookup_insert_ne by congruence. exact H3'.
Qed.

Lemma help_represents name help r m : represents r m -> represents (set_help name help r) m.
Proof.
  intros [H1 H2 H3]. constructor; [by apply map_at_ok| |].
  - intros name' fam. unfold set_help. rewrite map_find_at. case_bool_decide; [|apply H2].
    intros [= <-]. cbn [series]. destruct (map_find name r) as [fam|] eqn:E; cbn [default from_option];
      [by apply (H2 name)|split; [constructor|done]].
  - intros name' k. rewrite <- H3. unfold find_series, set_help. rewrite map_find_at.
    case_bool_decide; [|done]. subst. by destruct (map_find name r).
Qed.

Lemma upd_family_ok ty name ls f r :
  name <> ""%string -> all_chars name_char name = true -> labels_ok ls -> all_chars not_newline ty = true ->
  registry_ok r -> registry_ok (upd_series ty name ls f r).
Proof.
  intros Hne Hn Hl Ht Hr. unfold upd_series, map_at.
  assert (Forall (fun e => labels_ok e.2.(labels)) (series (default Family_default (map_find name r))) /\
          all_chars not_newline (help (default Family_default (map_find name r))) = true) as [Hs Hh].
  { destruct (map_find name r) as [fam|] eqn:E; cbn [default from_option]; [|by split; [constructor|]].
    by destruct (map_find_forall _ _ _ _ Hr E) as (_ & _ & H1 & _ & H2). }
  apply map_set_forall; [|done]. do 4 (split; [done|]). by apply map_set_forall.
Qed.

Lemma help_family_ok name h r :
  name <> ""%string -> all_chars name_char name = true -> all_chars not_newline h = true ->
  registry_ok r -> registry_ok (set_help name h r).
Proof.
  intros Hne Hn Hh Hr. apply map_set_forall; [|done].
  destruct (map_find name r) as [fam|] eqn:E; cbn [default from_option].
  - destruct (map_find_forall _ _ _ _ Hr E) as (_ & _ & _ & H1 & H2). by do 4 (split; [done|]).
  - do 4 (split; [done|]). constructor.
Qed.

(** The registry after some updates, and its specifications. *)
Definition run (us : list update) : Registry := foldl apply_update [] us.
Definition spec (us : list update) : gmap (string * string) (Labels * double) := foldl spec_update ∅ us.
Definition values (us : list update) : gmap (string * Labels) double := foldl value_update ∅ us.

Lemma run_ok us : Forall update_ok us -> registry_ok (run us) /\ represents (run us) (spec us).
Proof.
  unfold run, spec. induction us as [|u us IH] using rev_ind; [by split; [constructor|constructor; [constructor|done|done]]|].
  intros [Hus Hu]%Forall_app. destruct (IH Hus) as [Hok Hrep]. rewrite !foldl_app. cbn [foldl].
  rewrite Forall_singleton in Hu. destruct Hu as (Hne & Hn & Hls & Hh).
  destruct u as [name v ls|name delta ls|name h]; cbn [update_name update_labels apply_update spec_update] in *;
    rewrite ?Forall_singleton in Hls; split.
  - apply (upd_family_ok "gauge" name ls (fun _ => v)); done.
  - by apply (upd_represents "gauge" name ls (fun _ => v)).
  - apply (upd_family_ok "counter" name ls (fun x => d_add x delta)); done.
  - by apply (upd_represents "counter" name ls (fun x => d_add x delta)).
  - by apply help_family_ok.
  - by apply help_represents.
Qed.

(** For label sets with different keys, the key says no more than the labels. *)
Lemma spec_values us name ls :
  keys_distinct (ls :: concat (map update_labels us)) ->
  spec us !! (name, key ls) = (fun v => (ls, v)) <$> values us !! (name, ls).
Proof.
  unfold spec, values. induction us as [|u us IH] using rev_ind; [done|]. intros Hd. rewrite !foldl_app. cbn [foldl].
  rewrite map_app, concat_app in Hd. assert (keys_distinct (ls :: concat (map update_labels us))) as Hd'.
  { revert Hd. apply keys_distinct_sub. intros l. rewrite !elem_of_cons, elem_of_app. tauto. }
  specialize (IH Hd').
  assert (forall l, l ∈ update_labels u -> key l = key ls -> l = ls) as Hu.
  { intros l Hl. apply Hd; [|by left]. right. apply elem_of_app. right. cbn. by rewrite app_nil_r. }
  destruct u as [n v l|n delta l|n h]; cbn [spec_update value_update update_labels] in *; [| |exact IH].
  - destruct (decide ((n, l) = (name, ls))) as [[= -> ->]|Hne]; [by rewrite !lookup_insert_eq|].
    rewrite !lookup_insert_ne; [exact IH|done|]. intros [= -> E]. by rewrite (Hu l ltac:(left) E) in Hne.
  - destruct (decide ((n, l) = (name, ls))) as [[= -> ->]|Hne].
    + rewrite !lookup_insert_eq, IH. cbn. by destruct (_ !! (name, ls)).
    + rewrite !lookup_insert_ne; [exact IH|done|]. intros [= -> E]. by rewrite (Hu l ltac:(left) E) in Hne.
Qed.

Lemma elem_of_samples r name ls t :
  map_ok r -> (forall n fam, map_find n r = Some fam -> map_ok fam.(series)) ->
  (name, ls, t) ∈ samples r <->
  exists fam k s, map_find name r = Some fam /\ map_find k fam.(series) = Some s /\ ls = s.(labels) /\
                  t = format_general s.(value).
Proof.
  intros Hr Hf. unfold samples. rewrite list_elem_of_In, in_concat. split.
  - intros (l & Hl & Hin). apply in_map_iff in Hl as ([n fam] & <- & Hn). cbn [fst snd] in Hin.
    apply in_map_iff in Hin as ([k s] & [= <- <- <-] & Hs). cbn [snd].
    rewrite <- list_elem_of_In, <- map_find_elem in Hn by done. pose proof (Hf _ _ Hn) as Hfam.
    rewrite <- list_elem_of_In, <- map_find_elem in Hs by done. by exists fam, k, s.
  - intros (fam & k & s & Hn & Hs & -> & ->). pose proof (Hf _ _ Hn) as Hfam.
    rewrite map_find_elem, list_elem_of_In in Hn by done. rewrite map_find_elem, list_elem_of_In in Hs by done.
    exists (family_samples name fam). split; [by apply (in_map (fun e => family_samples e.1 e.2) r (name, fam))|].
    by apply (in_map (fun e => (name, labels e.2, format_general (value e.2))) _ (k, s)).
Qed.

Lemma family_samples_NoDup (name : string) (l : smap Series) :
  map_ok l -> (forall k s, (k, s) ∈ l -> k = key s.(labels)) ->
  NoDup (map (fun e : string * Series => (name, labels e.2)) l).
Proof.
  unfold map_ok. induction 1 as [|[k s] l Hl IH H0]; intros Hk; cbn [map]; constructor.
  - rewrite list_elem_of_In, in_map_iff. intros ([k' s'] & [= E] & Hin). cbn [snd] in E.
    rewrite <- list_elem_of_In in Hin. pose proof (Hk k s ltac:(left)) as ->.
    pose proof (Hk k' s' ltac:(by right)) as Hk'. rewrite Forall_forall in H0. specialize (H0 _ Hin).
    unfold key_before in H0. cbn [fst] in H0. rewrite Hk', E, string_lt_irrefl in H0. done.
  - apply IH. intros k' s' H. apply Hk. by right.
Qed.

Lemma samples_NoDup r :
  map_ok r -> (forall n fam, (n, fam) ∈ r ->
    map_ok fam.(series) /\ forall k s, (k, s) ∈ fam.(series) -> k = key s.(labels)) ->
  NoDup (map fst (samples r)).
Proof.
  unfold map_ok, samples. induction 1 as [|[n fam] r Hr IH H0]; intros Hf; cbn [map concat fst snd]; [constructor|].
  rewrite map_app. apply NoDup_app. unfold family_samples at 1 2. rewrite map_map. cbn [fst]. split; [|split].
  - destruct (Hf n fam ltac:(left)) as [H1 H2]. by apply family_samples_NoDup.
  - intros [n' ls] Hin1 Hin2. rewrite list_elem_of_In, in_map_iff in Hin1. destruct Hin1 as (e & [= <- _] & _).
    rewrite list_elem_of_In, in_map_iff in Hin2. destruct Hin2 as ([[n' ls'] t] & [= -> _] & Hin).
    apply in_concat in Hin as (l & Hl & Hin). apply in_map_iff in Hl as ([n' fam'] & <- & Hn').
    apply in_map_iff in Hin as (e' & [= E _ _] & _). cbn [fst] in E. subst n'.
    rewrite Forall_forall in H0. rewrite <- list_elem_of_In in Hn'. specialize (H0 _ Hn').
    unfold key_before in H0. cbn [fst] in H0. by rewrite string_lt_irrefl in H0.
  - apply IH. intros n' fam' Hin. apply (Hf n'). by right.
Qed.

(** ** A client of the exporter *)

(** Up to the end of the line. *)
Fixpoint until_crlf (s : string) : option (string * string) :=
  match s with
  | EmptyString => None
  | String c s =>
    if bool_decide (c = "013"%char) then
      match s with
      | String d rest => if bool_decide (d = "010"%char) then Some (EmptyString, rest) else None
      | EmptyString => None
      end
    else '(a, b) ← until_crlf s; Some (String c a, b)
  end.

Fixpoint read_dec (s : string) (acc : Z) : Z :=
  match s with EmptyString => acc | String c s => read_dec s (acc * 10 + (code c - 48)) end.

(** The status and the body, when the body has the announced length. *)
Definition http_response (s : string) : option (string * string) :=
  '(status, s) ← until_crlf s; '(_, s) ← until_crlf s; '(len, s) ← until_crlf s; '(_, s) ← until_crlf s;
  '(_, body) ← until_crlf s;
  let n := read_dec (substr len 16 (String.length len - 16)) 0 in
  if bool_decide (n = Z.of_nat (String.length body)) then Some (status, body) else None.

Lemma until_crlf_app a b :
  all_chars (fun c => negb (bool_decide (c = "013"%char))) a = true -> until_crlf (a +:+ crlf +:+ b) = Some (a, b).
Proof.
  induction a as [|c a IH]; [done|]. cbn [all_chars]. rewrite andb_true_iff. intros [Hc Ha].
  change (String c a +:+ crlf +:+ b)%string with (String c (a +:+ crlf +:+ b)). cbn [until_crlf].
  apply negb_true_iff in Hc. by rewrite Hc, IH.
Qed.

Lemma read_to_dec fuel n acc :
  0 <= n < 10 ^ Z.of_nat fuel -> read_dec (to_dec fuel n acc) 0 = read_dec acc n.
Proof.
  revert n acc. induction fuel as [|fuel IH]; intros n acc Hn; cbn [to_dec].
  - cbn in Hn. by replace n with 0 by lia.
  - pose proof (Z.div_mod n 10 ltac:(lia)) as E. pose proof (Z.mod_pos_bound n 10 ltac:(lia)) as Hm.
    rewrite Nat2Z.inj_succ, Z.pow_succ_r in Hn by lia. case_test.
    + apply Z.ltb_lt in E0. cbn [read_dec]. rewrite code_digit by lia. f_equal. rewrite Z.mod_small by lia. lia.
    + apply Z.ltb_ge in E0. rewrite IH; cbn [read_dec]; [rewrite code_digit by lia; f_equal; lia|].
      split; [apply Z.div_pos; lia|apply Z.div_lt_upper_bound; lia].
Qed.

Lemma dec_string_inj a b : 0 <= a < 10 ^ 20 -> 0 <= b < 10 ^ 20 -> dec_string a = dec_string b -> a = b.
Proof.
  intros Ha Hb E. unfold dec_string in E.
  pose proof (read_to_dec 20 a "" Ha) as H1. pose proof (read_to_dec 20 b "" Hb) as H2.
  rewrite E in H1. rewrite H1 in H2. exact H2.
Qed.

Lemma respond_http request r :
  Z.of_nat (String.length (render r)) < 10 ^ 20 ->
  http_response (respond request r) =
  Some (if bool_decide (request_path request = "/metrics"%string) || bool_decide (request_path request = "/"%string)
        then ("HTTP/1.1 200 OK"%string, render r)
        else ("HTTP/1.1 404 Not Found"%string, ("not found" +:+ newline)%string)).
Proof.
  intros Hr. unfold respond.
  assert (forall body status ctype,
    all_chars (fun c => negb (bool_decide (c = "013"%char))) status = true ->
    all_chars (fun c => negb (bool_decide (c = "013"%char))) ctype = true ->
    Z.of_nat (String.length body) < 10 ^ 20 ->
    http_response ("HTTP/1.1 " +:+ status +:+ crlf +:+ "Content-Type: " +:+ ctype +:+ crlf +:+
      "Content-Length: " +:+ dec_string (Z.of_nat (String.length body)) +:+ crlf +:+
      "Connection: close" +:+ crlf +:+ crlf +:+ body) = Some ("HTTP/1.1 " +:+ status, body)%string) as H.
  { intros body status ctype Hs Hc Hb. unfold http_response.
    rewrite (string_app_assoc "HTTP/1.1 "), until_crlf_app by (by rewrite all_chars_app, Hs). cbn [mbind option_bind].
    rewrite (string_app_assoc "Content-Type: "), until_crlf_app by (by rewrite all_chars_app, Hc). cbn [mbind option_bind].
    assert (all_chars (fun c => negb (bool_decide (c = "013"%char))) (dec_string (Z.of_nat (String.length body))) = true) as Hd.
    { pose proof (chars_without is_digit ["013"%char] _ eq_refl
        (to_dec_chars 20 (Z.of_nat (String.length body)) "" eq_refl)) as H.
      revert H. apply all_chars_impl. intros x. cbn [existsb]. by rewrite orb_false_r. }
    rewrite (string_app_assoc "Content-Length: "), until_crlf_app by (by rewrite all_chars_app, Hd).
    cbn [mbind option_bind]. rewrite until_crlf_app by done. cbn [mbind option_bind].
    change (until_crlf (crlf +:+ body)) with (Some (""%string, body)). cbn [mbind option_bind].
    rewrite string_length_app. change (String.length "Content-Length: ") with 16%nat.
    replace (16 + _ - 16)%nat with (String.length (dec_string (Z.of_nat (String.length body)))) by lia.
    rewrite (substr_skip "Content-Length: "), substr_all. unfold dec_string.
    rewrite read_to_dec by (change (Z.of_nat 20) with 20; lia). cbn [read_dec]. by rewrite bool_decide_true. }
  case_test; apply H; done || (cbn; lia).
Qed.

Lemma until_crlf_prefix p t a r : until_crlf p = Some (a, r) -> until_crlf (p +:+ t) = Some (a, r +:+ t)%string.
Proof.
  revert a r. induction p as [|c p IH]; intros a r; [done|].
  change (String c p +:+ t)%string with (String c (p +:+ t)). cbn [until_crlf]. case_bool_decide.
  - destruct p as [|d p]; [done|]. change (String d p +:+ t)%string with (String d (p +:+ t)).
    case_bool_decide as Ed; [|done]. intros [= <- <-]. by rewrite bool_decide_true.
  - destruct (until_crlf p) as [[a' r']|]; cbn [mbind option_bind]; [|done]. intros [= <- <-]. by rewrite (IH a' r' eq_refl).
Qed.

(** A part of a response is not a response. *)
Lemma http_partial p t res : http_response (p +:+ t)%string = Some res -> t <> ""%string -> http_response p = None.
Proof.
  intros H Ht. destruct (http_response p) as [res'|] eqn:E; [|done]. exfalso. revert E. unfold http_response.
  repeat (match goal with |- context [x ← until_crlf ?s; _] =>
    let a := fresh "a" in let r := fresh "r" in
    destruct (until_crlf s) as [[a r]|] eqn:?; cbn [mbind option_bind]; [|done] end).
  intros E1. revert H. unfold http_response.
  repeat (match goal with H : until_crlf ?s = Some _ |- context [until_crlf (?s +:+ t)%string] =>
    rewrite (until_crlf_prefix _ t _ _ H); cbn [mbind option_bind] end).
  intros E2. repeat case_bool_decide; try done.
  destruct t; [done|]. rewrite string_length_app in *. cbn [String.length] in *. lia.
Qed.

Lemma substr_app_drop s n : exists t, s = (substr s 0 n +:+ t)%string /\ (t = ""%string <-> (String.length s <= n)%nat).
Proof.
  revert n. induction s as [|c s IH]; intros [|n].
  - exists ""%string. split; [done|]. split; [cbn; lia|done].
  - exists ""%string. split; [done|]. split; [cbn; lia|done].
  - exists (String c s). split; [done|]. split; [done|cbn; lia].
  - destruct (IH n) as (t & H1 & H2). exists t. split; [exact (f_equal (String c) H1)|]. rewrite H2. cbn. lia.
Qed.

(** What a client makes of the bytes it gets. *)
Lemma serve_http request r taken :
  Z.of_nat (String.length (render r)) < 10 ^ 20 ->
  http_response (serve request r taken) =
  if (String.length (respond request r) <=? taken)%nat
  then Some (if bool_decide (request_path request = "/metrics"%string) || bool_decide (request_path request = "/"%string)
             then ("HTTP/1.1 200 OK"%string, render r)
             else ("HTTP/1.1 404 Not Found"%string, ("not found" +:+ newline)%string))
  else None.
Proof.
  intros Hr. pose proof (respond_http request r Hr) as H. unfold serve.
  destruct (substr_app_drop (respond request r) taken) as (t & H1 & H2). rewrite H1 in H. case_test; bool_to_prop.
  - apply H2 in E as ->. rewrite <- H. f_equal. clear. generalize (substr (respond request r) 0 taken) as s.
    intros s. induction s as [|c s IH]; [done|]. exact (f_equal (String c) IH).
  - apply (http_partial _ t _ H). intros ->. assert (String.length (respond request r) <= taken)%nat by (by apply H2). lia.
Qed.

(** The label sets the program uses: none, or a sensor. *)
Definition sensor_label (sensor : string) : Labels := [("sensor"%string, sensor)].

Lemma sensor_keys_distinct used :
  Forall (fun ls => ls = [] \/ exists s, ls = sensor_label s) used -> keys_distinct used.
Proof.
  rewrite Forall_forall. intros H l1 l2 H1 H2 E.
  destruct (H l1 H1) as [->|[s1 ->]], (H l2 H2) as [->|[s2 ->]]; try done.
  cbn [key sensor_label foldl] in E. change ("" +:+ ?x)%string with x in E.
  change ("sensor" +:+ "=" +:+ ?x)%string with ("sensor=" +:+ x)%string in E.
  injection E as E. by rewrite (string_app_inv_tail s1 s2 ";" E).
Qed.

(** C21: what a scrape shows.  After any sequence of updates whose metric names
    are names, whose label names have no separators and whose help texts have
    one line, a reader of the text format finds in the body of the answer to
    [GET /metrics] exactly the current series, each once: per metric and key of
    the labels the labels as they were given in the last update, quotes,
    backslashes and newlines in their values included, and, printed with six
    digits, the last value of a gauge or the sum of a counter.  Label sets with
    one key share a series; where no two keys agree, which is so when the label
    sets are empty or one sensor, this is the value of each label set.  To any
    request, the client gets the whole response (status, body of the announced
    length) when the socket takes all of it, and else nothing it could take
    for a response. *)
Theorem scrape_sees_updates us rest :
  Forall update_ok us -> Z.of_nat (String.length (render (run us))) < 10 ^ 20 ->
  (exists body l,
    (forall taken, http_response (serve ("GET /metrics " +:+ rest) (run us) taken) =
       if (String.length (respond ("GET /metrics " +:+ rest) (run us)) <=? taken)%nat
       then Some ("HTTP/1.1 200 OK"%string, body) else None) /\
    scrape body = Some l /\ NoDup (map fst l) /\
    (forall name ls t, (name, ls, t) ∈ l <-> exists v, spec us !! (name, key ls) = Some (ls, v) /\ t = format_general v) /\
    (keys_distinct (concat (map update_labels us)) -> forall name ls t, ls ∈ concat (map update_labels us) ->
       (name, ls, t) ∈ l <-> exists v, values us !! (name, ls) = Some v /\ t = format_general v)) /\
  forall request taken, is_Some (http_response (serve request (run us) taken)) <->
    (String.length (respond request (run us)) <= taken)%nat.
Proof.
  intros Hu Hlen. destruct (run_ok us Hu) as [Hok [R1 R2 R3]]. split.
  2: { intros request taken. rewrite serve_http by done. case_test; bool_to_prop; split; (done || lia || by intros [? ?]). }
  assert (forall name ls t, (name, ls, t) ∈ samples (run us) <->
            exists v, spec us !! (name, key ls) = Some (ls, v) /\ t = format_general v) as Hin.
  { intros name ls t. rewrite elem_of_samples; [|done|by intros n fam H; apply (R2 n)]. setoid_rewrite <- R3. unfold find_series. split.
    - intros (fam & k & s & Hn & Hs & -> & ->). destruct (R2 _ _ Hn) as [_ H2]. rewrite <- (H2 k s Hs), Hn.
      cbn [mbind option_bind]. rewrite Hs. by eexists.
    - intros (v & Hv & ->). destruct (map_find name (run us)) as [fam|] eqn:Hn; cbn [mbind option_bind] in Hv; [|done].
      destruct (map_find (key ls) (series fam)) as [s|] eqn:Hs; cbn [mbind option_bind] in Hv; [|done].
      injection Hv as E <-. by exists fam, (key ls), s. }
  exists (render (run us)), (samples (run us)). split; [intros taken; by rewrite serve_http|].
  split; [by apply scrape_render|]. split; [|split; [exact Hin|]].
  - apply samples_NoDup; [done|]. intros n fam H. rewrite <- map_find_elem in H by done.
    destruct (R2 n fam H) as [H1 H2]. split; [done|]. intros k s Hs. apply H2. by rewrite map_find_elem.
  - intros Hd name ls t Hls. rewrite Hin, spec_values.
    2: { revert Hd. apply keys_distinct_sub. intros l. rewrite elem_of_cons. by intros [->|]. }
    destruct (values us !! (name, ls)) as [v|]; cbn [fmap option_fmap option_map].
    + split; intros (v' & [= <-] & ->); by exists v.
    + by split; intros (v' & ? & _).
Qed.

Definition sample_updates : list update :=
  [Help "rate" "Messages per second"; Gauge "rate" (d_of_Z 5) (sensor_label "imu");
   Gauge "rate" (d_lit 3 2) (sensor_label (quote +:+ "a\b" +:+ newline)); Counter "runs" d_one [];
   Gauge "rate" (d_of_Z 7) (sensor_label "imu"); Counter "runs" d_one []]%string.

Lemma scrape_sees_updates_witness :
  exists body l,
    http_response (serve "GET /metrics HTTP/1.1" (run sample_updates) 1000) = Some ("HTTP/1.1 200 OK"%string, body) /\
    http_response (serve "GET /metrics HTTP/1.1" (run sample_updates) 200) = None /\
    scrape body = Some l /\
    ("rate"%string, sensor_label (quote +:+ "a\b" +:+ newline)%string, "1.5"%string) ∈ l /\
    ("runs"%string, [], "2"%string) ∈ l.
Proof.
  destruct (scrape_sees_updates sample_updates "HTTP/1.1") as [(body & l & H1 & H2 & _ & H3 & H4) _].
  - repeat constructor; discriminate.
  - vm_compute. reflexivity.
  - exists body, l.
    split; [exact (H1 1000%nat)|]. split; [exact (H1 200%nat)|]. split; [exact H2|]. split.
    + apply H4; [| |exists (d_lit 3 2); split; vm_compute; reflexivity].
      * apply sensor_keys_distinct. cbn [concat map update_labels sample_updates app].
        repeat (apply Forall_cons_2; [first [by left | right; by eexists]|]). constructor.
      * cbn [concat map update_labels sample_updates app]. right. left.
    + apply H3. exists (d_of_Z 2). split; vm_compute; reflexivity.
Defined.

(** Label sets with separators in their values can share a key: the second
    gauge replaces the first. *)
Theorem key_collision :
  let l1 := [("a", "1;b=2")]%string in let l2 := [("a", "1"); ("b", "2")]%string in
  l1 <> l2 /\ length (samples (run [Gauge "m" d_one l1; Gauge "m" d_one l2])) = 1%nat.
Proof. vm_compute. by split. Qed.

(** ** Starting and stopping the exporter *)

(** The members, and the descriptors opened and closed so far. *)
Record PrometheusExporter := mkPrometheusExporter {
  port_ : Z;
  listen_fd_ : Z;
  running_ : bool;
  joinable : bool;              (** [thread_] *)
  opened : list Z;
  closed : list Z
}.

Definition new_exporter (port : Z) : PrometheusExporter :=
  {| port_ := port; listen_fd_ := -1; running_ := false; joinable := false; opened := []; closed := [] |}.

(** The results of [socket], [bind] and [listen]; assigning to a thread that
    is still joinable ends the program. *)
Definition start (fd : Z) (bind_ok listen_ok : bool) (e : PrometheusExporter) : outcome (bool * PrometheusExporter) :=
  if fd <? 0 then
    Ok (false, {| port_ := e.(port_); listen_fd_ := fd; running_ := e.(running_); joinable := e.(joinable);
                  opened := e.(opened); closed := e.(closed) |})
  else
    let opened := e.(opened) ++ [fd] in
    if negb bind_ok then
      Ok (false, {| port_ := e.(port_); listen_fd_ := -1; running_ := e.(running_); joinable := e.(joinable);
                    opened := opened; closed := e.(closed) ++ [fd] |})
    else if negb listen_ok then
      Ok (false, {| port_ := e.(port_); listen_fd_ := -1; running_ := e.(running_); joinable := e.(joinable);
                    opened := opened; closed := e.(closed) ++ [fd] |})
    else if e.(joinable) then Throws "std::terminate"
    else
      Ok (true, {| port_ := e.(port_); listen_fd_ := fd; running_ := true; joinable := true;
                   opened := opened; closed := e.(closed) |}).

(** The thread ends by itself once [running_] is false: it polls with a time limit. *)
Definition stop (e : PrometheusExporter) : PrometheusExporter :=
  if negb e.(running_) then e
  else
    {| port_ := e.(port_); listen_fd_ := -1; running_ := false; joinable := false; opened := e.(opened);
       closed := if 0 <=? e.(listen_fd_) then e.(closed) ++ [e.(listen_fd_)] else e.(closed) |}.

(** The state between calls: nothing is open, or the thread runs on one open descriptor. *)
Definition exporter_ok (e : PrometheusExporter) : Prop :=
  e.(running_) = e.(joinable) /\
  if e.(running_) then 0 <= e.(listen_fd_) /\ e.(opened) ≡ₚ e.(listen_fd_) :: e.(closed)
  else e.(opened) ≡ₚ e.(closed).

Lemma start_ok fd b l e : exporter_ok e -> running_ e = false ->
  exists ok e', start fd b l e = Ok (ok, e') /\ exporter_ok e' /\ running_ e' = ok.
Proof.
  intros [H1 H2] Hr. rewrite Hr in *. unfold start. case_test.
  { do 2 eexists. split; [done|]. unfold exporter_ok. cbn. by rewrite Hr. }
  apply Z.ltb_ge in E. destruct b; cbn [negb].
  2: { do 2 eexists. split; [done|]. unfold exporter_ok. cbn. rewrite Hr. split; [|done]. split; [done|by rewrite H2]. }
  destruct l; cbn [negb].
  2: { do 2 eexists. split; [done|]. unfold exporter_ok. cbn. rewrite Hr. split; [|done]. split; [done|by rewrite H2]. }
  rewrite <- H1. do 2 eexists. split; [done|]. unfold exporter_ok. cbn. split; [|done]. split; [done|]. split; [done|].
  by rewrite H2, Permutation_app_comm.
Qed.

Lemma stop_ok e : exporter_ok e -> exporter_ok (stop e) /\ running_ (stop e) = false /\ opened (stop e) ≡ₚ closed (stop e).
Proof.
  intros [H1 H2]. unfold stop. destruct (running_ e) eqn:Hr; cbn [negb]; [|unfold exporter_ok; rewrite Hr; by repeat split].
  destruct H2 as [H2 H3]. rewrite (proj2 (Z.leb_le _ _) H2). unfold exporter_ok. cbn.
  assert (opened e ≡ₚ closed e ++ [listen_fd_ e]) as E by (rewrite H3; apply Permutation_cons_append).
  by repeat split.
Qed.

(** ** The thread of the exporter *)

(** What one round of [serve_loop] sees: the flag, the results of [poll] and
    [accept], the flag once more, the request, the registry and the result of
    [send].  A [SIGPIPE], which would end the process, is not modelled. *)
Record round := mkRound {
  r_running : bool;
  r_poll : Z;
  r_client : Z;
  r_still : bool;
  r_request : string;
  r_registry : Registry;
  r_taken : nat                  (** the bytes [send] takes *)
}.

Inductive socket_call := Accepted (fd : Z) | Sent (fd : Z) (response : string) | Closed (fd : Z).

(** The calls of a round; does the loop go on? *)
Definition serve_round (x : round) : list socket_call * bool :=
  if negb x.(r_running) then ([], false)
  else if x.(r_poll) <=? 0 then ([], true)
  else if x.(r_client) <? 0 then ([], x.(r_still))
  else ([Accepted x.(r_client); Sent x.(r_client) (serve x.(r_request) x.(r_registry) x.(r_taken)); Closed x.(r_client)], true).

(** The calls until the loop ends; [false] when it has not. *)
Fixpoint serve_loop (rounds : list round) : list socket_call * bool :=
  match rounds with
  | [] => ([], false)
  | x :: rounds =>
    let '(calls, on) := serve_round x in
    if on then let rest := serve_loop rounds in (calls ++ rest.1, rest.2) else (calls, true)
  end.

(** A client that is served. *)
Definition served (x : round) : list socket_call :=
  [Accepted x.(r_client); Sent x.(r_client) (serve x.(r_request) x.(r_registry) x.(r_taken)); Closed x.(r_client)].

(** The client of a round has a response when the socket took all of it. *)
Definition complete (x : round) : Prop :=
  is_Some (http_response (serve (r_request x) (r_registry x) (r_taken x))) <->
  (String.length (respond (r_request x) (r_registry x)) <= r_taken x)%nat.

(** Every client that is accepted gets one response, complete exactly when the
    socket takes all of it, and is closed, and the loop ends at the first round
    that finds the flag cleared. *)
Theorem serve_loop_answers rounds :
  (exists clients, sublist clients rounds /\ (serve_loop rounds).1 = concat (map served clients) /\
     Forall (fun x => 0 <= r_client x) clients /\
     (Forall (fun x => Z.of_nat (String.length (render (r_registry x))) < 10 ^ 20) rounds ->
      Forall complete clients)) /\
  (Exists (fun x => r_running x = false) rounds -> (serve_loop rounds).2 = true).
Proof.
  induction rounds as [|x rounds [(cs & Hs & Hc & Hp & Hh) IH]]; cbn [serve_loop].
  { split; [exists []; split; [done|]; split; [done|]; split; [constructor|intros _; constructor]|intros H; inversion H]. }
  assert (Forall (fun x => Z.of_nat (String.length (render (r_registry x))) < 10 ^ 20) (x :: rounds) ->
    Forall complete cs) as Hh'
    by (intros H; apply Hh; by inversion_clear H).
  assert (forall on, (on = true -> r_running x = true) -> Exists (fun x => r_running x = false) (x :: rounds) ->
    (if on : bool then (serve_loop rounds).2 else true) = true) as Hend
    by (intros [] Hon H; [|done]; apply IH; inversion_clear H as [? ? Hx|]; [by rewrite Hon in Hx|done]).
  unfold serve_round. destruct (r_running x) eqn:Er; cbn [negb].
  2: { split; [|done]. exists []. split; [apply sublist_nil_l|]. split; [done|]. split; [constructor|by intros _]. }
  case_test; [|case_test; [destruct (r_still x)|]]; cbn [app fst snd].
  - split; [|by apply (Hend true)]. exists cs. split; [by apply sublist_cons|done].
  - split; [|by apply (Hend true)]. exists cs. split; [by apply sublist_cons|done].
  - split; [|done]. exists []. split; [apply sublist_nil_l|]. split; [done|]. split; [constructor|by intros _].
  - split; [|by apply (Hend true)]. exists (x :: cs). split; [by apply sublist_skip|]. cbn [map concat served app].
    split; [by rewrite Hc|]. bool_to_prop. split; [by constructor|]. intros H. constructor; [|by apply Hh'].
    inversion_clear H as [|? ? Hx _]. unfold complete. rewrite serve_http by done.
    case_test; bool_to_prop; split; (done || lia || by intros [? ?]).
Qed.

End Registry.
