(* ===== verification/CivilTime.v ===== *)
(** * The time stamp of a report ([iso8601_now] of [src/report/report_builder.cpp])

    [gmtime_r] and [strftime] with "%Y-%m-%dT%H:%M:%SZ" on seconds since the
    epoch, from 1970 on.

    Results: the calendar fields are in their ranges and give the seconds
    back; different seconds have different time stamps.  Seconds stay below
    [2 ^ 55], where the year fits in the [int] of [std::tm]. *)

From S2P Require Export CppStrings Registry.
From Stdlib Require Import Ascii.
#[local] Open Scope Z_scope.

Module CivilTime.

(** [std::tm], as far as the format uses it ([tm_mon] from 1 here). *)
Record tm := mkTm { year : Z; month : Z; day : Z; hour : Z; minute : Z; second : Z }.

Definition leap (y : Z) : bool := (y mod 4 =? 0) && (negb (y mod 100 =? 0) || (y mod 400 =? 0)).
Definition year_length (y : Z) : Z := if leap y then 366 else 365.
Definition month_lengths (y : Z) : list Z := [31; if leap y then 29 else 28; 31; 30; 31; 30; 31; 31; 30; 31; 30; 31].

(** The year in which day [d] counted from the first of [y] falls, and the day
    in it; and so for the months. *)
Fixpoint find_year (fuel : nat) (y d : Z) : Z * Z :=
  match fuel with
  | O => (y, d)
  | S fuel => if d <? year_length y then (y, d) else find_year fuel (y + 1) (d - year_length y)
  end.

Fixpoint find_month (lengths : list Z) (m d : Z) : Z * Z :=
  match lengths with
  | [] => (m, d)
  | n :: lengths => if d <? n then (m, d) else find_month lengths (m + 1) (d - n)
  end.

Definition gmtime (t : Z) : tm :=
  let days := t / 86400 in
  let secs := t mod 86400 in
  let '(y, d) := find_year (Z.to_nat (days / 365 + 1)) 1970 days in
  let '(m, d) := find_month (month_lengths y) 1 d in
  mkTm y m (d + 1) (secs / 3600) (secs / 60 mod 60) (secs mod 60).

(** Two digits. *)
Definition two (n : Z) : string := String (digit (n / 10)) (String (digit (n mod 10)) "").

Definition strftime (x : tm) : string :=
  (dec_string x.(year) +:+ "-" +:+ two x.(month) +:+ "-" +:+ two x.(day) +:+ "T" +:+
   two x.(hour) +:+ ":" +:+ two x.(minute) +:+ ":" +:+ two x.(second) +:+ "Z")%string.

(** [t] is what the clock says. *)
Definition iso8601_now (t : Z) : string := strftime (gmtime t).

Example iso8601_samples :
  map iso8601_now [0; 951782399; 951782400; 1709210096; 4102444799] =
  ["1970-01-01T00:00:00Z"; "2000-02-28T23:59:59Z"; "2000-02-29T00:00:00Z"; "2024-02-29T12:34:56Z";
   "2099-12-31T23:59:59Z"]%string.
Proof. vm_compute. reflexivity. Qed.

(** ** The inverse *)

(** The days in the [n] years from [y] on. *)
Fixpoint years (n : nat) (y : Z) : Z :=
  match n with O => 0 | S n => year_length y + years n (y + 1) end.

Definition sum (l : list Z) : Z := foldr Z.add 0 l.

(** [timegm] *)
Definition timegm (x : tm) : Z :=
  86400 * (years (Z.to_nat (x.(year) - 1970)) 1970 + sum (take (Z.to_nat (x.(month) - 1)) (month_lengths x.(year))) +
           (x.(day) - 1)) +
  3600 * x.(hour) + 60 * x.(minute) + x.(second).

Lemma year_length_range y : 365 <= year_length y <= 366.
Proof. unfold year_length. case_test; lia. Qed.

Lemma sum_months y : sum (month_lengths y) = year_length y.
Proof. unfold month_lengths, year_length. by case_test. Qed.

Lemma find_year_spec fuel y d y' d' :
  0 <= d < 365 * Z.of_nat fuel -> find_year fuel y d = (y', d') ->
  y <= y' <= y + Z.of_nat fuel /\ 0 <= d' < year_length y' /\ d = years (Z.to_nat (y' - y)) y + d'.
Proof.
  revert y d. induction fuel as [|fuel IH]; intros y d Hd; [lia|]. cbn [find_year].
  pose proof (year_length_range y). case_test; bool_to_prop.
  - intros [= <- <-]. rewrite Z.sub_diag. change (years (Z.to_nat 0) y) with 0. lia.
  - intros H'. destruct (IH (y + 1) (d - year_length y) ltac:(lia) H') as (H1 & H2 & H3). split; [lia|]. split; [done|].
    replace (Z.to_nat (y' - y)) with (S (Z.to_nat (y' - (y + 1)))) by lia. cbn [years]. lia.
Qed.

Lemma find_month_spec l m d m' d' :
  0 <= d < sum l -> find_month l m d = (m', d') ->
  m <= m' < m + Z.of_nat (length l) /\ (exists n, l !! Z.to_nat (m' - m) = Some n /\ 0 <= d' < n) /\
  d = sum (take (Z.to_nat (m' - m)) l) + d'.
Proof.
  revert m d. induction l as [|n l IH]; intros m d Hd; [cbn in Hd; lia|]. cbn [find_month sum foldr length] in *.
  case_test; bool_to_prop.
  - intros [= <- <-]. rewrite Z.sub_diag. change (Z.to_nat 0) with 0%nat.
    split; [lia|]. split; [exists n; split; [done|lia]|]. cbn. lia.
  - intros H'. destruct (IH (m + 1) (d - n) ltac:(unfold sum; lia) H') as (H1 & (k & Hk & H2) & H3). split; [lia|].
    replace (Z.to_nat (m' - m)) with (S (Z.to_nat (m' - (m + 1)))) by lia. split; [by exists k|].
    cbn [take sum foldr]. unfold sum in *. lia.
Qed.

Lemma month_lengths_range y i n : month_lengths y !! i = Some n -> n <= 31.
Proof.
  intros H. apply list_elem_of_lookup_2 in H. revert H. unfold month_lengths. set_unfold. case_test; lia.
Qed.

(** The fields are in their ranges and give the time back. *)
Lemma gmtime_spec t :
  0 <= t ->
  let x := gmtime t in
  1970 <= x.(year) <= 1971 + t / 86400 / 365 /\ 1 <= x.(month) <= 12 /\ 1 <= x.(day) <= 31 /\
  0 <= x.(hour) < 24 /\ 0 <= x.(minute) < 60 /\ 0 <= x.(second) < 60 /\ timegm x = t.
Proof.
  intros Ht. unfold gmtime. cbv zeta.
  pose proof (Z.div_mod t 86400 ltac:(lia)) as Et. pose proof (Z.mod_pos_bound t 86400 ltac:(lia)) as Hs.
  assert (0 <= t / 86400) as Hd by (apply Z.div_pos; lia). set (days := t / 86400) in *. set (secs := t mod 86400) in *.
  pose proof (Z.div_mod days 365 ltac:(lia)). pose proof (Z.mod_pos_bound days 365 ltac:(lia)).
  assert (0 <= days / 365) by (apply Z.div_pos; lia).
  destruct (find_year _ 1970 days) as [y d] eqn:Ey. apply find_year_spec in Ey as (Hy & Hdy & Ed); [|lia].
  destruct (find_month (month_lengths y) 1 d) as [m dm] eqn:Em.
  apply find_month_spec in Em as (Hm & (n & Hn & Hdm) & Edm); [|by rewrite sum_months].
  pose proof (month_lengths_range _ _ _ Hn). cbn [length month_lengths] in Hm. unfold timegm.
  cbn [year month day hour minute second].
  pose proof (Z.div_mod secs 3600 ltac:(lia)). pose proof (Z.mod_pos_bound secs 3600 ltac:(lia)).
  assert (secs / 60 mod 60 = secs mod 3600 / 60 /\ secs mod 60 = secs mod 3600 mod 60) as [-> ->]
    by (Z.to_euclidean_division_equations; lia).
  pose proof (Z.div_mod (secs mod 3600) 60 ltac:(lia)). pose proof (Z.mod_pos_bound (secs mod 3600) 60 ltac:(lia)).
  repeat split; lia.
Qed.

(** ** Time stamps *)

Lemma two_inj a b : 0 <= a < 100 -> 0 <= b < 100 -> two a = two b -> a = b.
Proof.
  intros Ha Hb [= E1 E2]. apply (f_equal code) in E1, E2.
  rewrite !code_digit in E1, E2 by (Z.to_euclidean_division_equations; lia).
  rewrite (Z.div_mod a 10), (Z.div_mod b 10) by lia. lia.
Qed.

(** Strings with equally long ends. *)
Lemma app_inj_tail_length a b c d :
  (a +:+ b)%string = (c +:+ d)%string -> String.length b = String.length d -> a = c /\ b = d.
Proof.
  intros E Hl. assert (String.length a = String.length c) as Hac.
  { apply (f_equal String.length) in E. rewrite !string_length_app in E. lia. }
  revert c Hac E. clear Hl. induction a as [|x a IH]; intros [|y c] Hac E; try done.
  cbn in Hac, E. injection E as -> E. injection Hac as Hac. destruct (IH c Hac E) as [-> ->]. done.
Qed.

Lemma strftime_inj x y :
  0 <= x.(year) < 10 ^ 20 -> 0 <= y.(year) < 10 ^ 20 ->
  Forall (fun f => 0 <= f x < 100 /\ 0 <= f y < 100) [month; day; hour; minute; second] ->
  strftime x = strftime y -> x = y.
Proof.
  intros Hx Hy Hf E. rewrite !Forall_cons in Hf. destruct Hf as (H1 & H2 & H3 & H4 & H5 & _).
  unfold strftime in E. apply app_inj_tail_length in E as [E1 E2]; [|done].
  apply Registry.dec_string_inj in E1; [|done|done].
  assert (month x = month y /\ day x = day y /\ hour x = hour y /\ minute x = minute y /\ second x = second y)
    as (? & ? & ? & ? & ?).
  { injection E2. intros. repeat split; (apply two_inj; [tauto|tauto|]); unfold two; congruence. }
  destruct x, y. cbn in *. congruence.
Qed.

(** Different seconds have different time stamps. *)
Theorem iso8601_distinct t t' :
  0 <= t < 2 ^ 55 -> 0 <= t' < 2 ^ 55 -> iso8601_now t = iso8601_now t' -> t = t'.
Proof.
  intros Ht Ht' E. destruct (gmtime_spec t) as (Y & M & D & H & N & S & Et); [lia|].
  destruct (gmtime_spec t') as (Y' & M' & D' & H' & N' & S' & Et'); [lia|]. rewrite <- Et, <- Et'. f_equal.
  assert (forall u, 0 <= u < 2 ^ 55 -> u / 86400 / 365 < 2 ^ 55) as Hb
    by (intros u Hu; rewrite Z.div_div by lia; apply Z.div_lt_upper_bound; lia).
  pose proof (Hb t Ht). pose proof (Hb t' Ht').
  apply strftime_inj; [lia|lia| |exact E]. repeat constructor; lia.
Qed.

End CivilTime.
