(* ===== verification/Report.v ===== *)
(** * Reports ([src/report/report_types.hpp], [report_builder.cpp], [json_report.cpp], [html_report.cpp])

    The report of a scenario, its construction from the verdicts and the
    metrics, and the two serialisers.  The JSON library's value is a tree with
    ordered objects; printing the tree, the clock and the file system are
    parameters.

    Results: the builder copies verdicts and metrics without loss; the JSON
    tree determines the report; the tags of the HTML page do not depend on any
    text in the report, and escaping loses nothing. *)

From S2P Require Export StdMap CppFormat Evaluation.
From Stdlib Require Import Ascii.

Module Report.
Import Scenario Evaluation.

Record AssertionReport := mkAssertionReport {
  a_metric : string;
  a_op : string;
  a_threshold : double;
  a_actual : double;
  a_found : bool;
  a_passed : bool
}.

Record SensorMetrics := mkSensorMetrics {
  msgs_sec : double;
  s_drop_rate_pct : double;
  latency_p50_ms : double;
  latency_p99_ms : double;
  latency_p999_ms : double;
  s_sequence_gaps : Z;
  received : Z
}.

Record TransportMetrics := mkTransportMetrics {
  bytes_sec : double;
  crc_failures : Z;
  t_sequence_gaps : Z;
  retransmits : Z
}.

Record ScenarioReport := mkScenarioReport {
  scenario : string;
  timestamp : string;
  r_duration_seconds : double;
  r_passed : bool;
  r_assertions : list AssertionReport;
  per_sensor : smap SensorMetrics;
  transport : TransportMetrics;
  latency_histograms : smap (list (double * Z));
  replay_recovery_ms : double
}.

(** ** The builder *)

Definition metric_or (m : MetricMap) (key : string) (fallback : double) : double :=
  match m !! key with None => fallback | Some x => x end.

Definition assertion_report (a : AssertionResult) : AssertionReport :=
  {| a_metric := a.(r_metric); a_op := CompareOp_to_string a.(r_op); a_threshold := a.(threshold);
     a_actual := a.(actual); a_found := a.(found); a_passed := a.(passed) |}.

Definition sensor_metrics (metrics : MetricMap) (s : string) : outcome SensorMetrics :=
  let get suffix := metric_or metrics (s +:+ suffix)%string d_zero in
  gaps ← cast_uint64 (get "_sequence_gaps");
  received ← cast_uint64 (get "_received");
  Ok {| msgs_sec := get "_msgs_per_sec"; s_drop_rate_pct := get "_drop_rate_pct";
        latency_p50_ms := get "_latency_p50_ms"; latency_p99_ms := get "_latency_p99_ms";
        latency_p999_ms := get "_latency_p999_ms"; s_sequence_gaps := gaps; received := received |}.

Fixpoint sensors_loop (metrics : MetricMap) (streams : list string) (m : smap SensorMetrics) :
    outcome (smap SensorMetrics) :=
  match streams with
  | [] => Ok m
  | s :: streams => sm ← sensor_metrics metrics s; sensors_loop metrics streams (map_set s sm m)
  end.

(** [now] is the result of [iso8601_now] ([CivilTime.v]). *)
Definition build_report (now : string) (result : ScenarioResult) (metrics : MetricMap) (streams : list string)
    (duration_seconds : double) : outcome ScenarioReport :=
  per_sensor ← sensors_loop metrics streams [];
  crc ← cast_uint64 (metric_or metrics "transport_crc_failures" d_zero);
  gaps ← cast_uint64 (metric_or metrics "transport_sequence_gaps" d_zero);
  retransmits ← cast_uint64 (metric_or metrics "transport_retransmits" d_zero);
  Ok {| scenario := result.(scenario_name); timestamp := now; r_duration_seconds := duration_seconds;
        r_passed := result.(scenario_passed);
        r_assertions := map assertion_report result.(results);
        per_sensor := per_sensor;
        transport := {| bytes_sec := metric_or metrics "transport_bytes_sec" d_zero; crc_failures := crc;
                        t_sequence_gaps := gaps; retransmits := retransmits |};
        latency_histograms := [];
        replay_recovery_ms := metric_or metrics "replay_recovery_ms" d_zero |}.

(** ** JSON *)

(** [nlohmann::json]. *)
Inductive json :=
| JString (s : string)
| JFloat (x : double)
| JUnsigned (z : Z)
| JBool (b : bool)
| JArray (l : list json)
| JObject (l : list (string * json)).

(** An object from a list of pairs. *)
Definition object (l : list (string * json)) : json :=
  JObject (map_of_list l).

Definition verdict (b : bool) : json := JString (if b then "PASS" else "FAIL").

Definition assertion_json (a : AssertionReport) : json :=
  object [("metric", JString a.(a_metric)); ("operator", JString a.(a_op)); ("threshold", JFloat a.(a_threshold));
          ("actual", JFloat a.(a_actual)); ("found", JBool a.(a_found)); ("result", verdict a.(a_passed))]%string.

Definition sensor_json (s : SensorMetrics) : json :=
  object [("msgs_sec", JFloat s.(msgs_sec)); ("drop_rate_pct", JFloat s.(s_drop_rate_pct));
          ("latency_p50_ms", JFloat s.(latency_p50_ms)); ("latency_p99_ms", JFloat s.(latency_p99_ms));
          ("latency_p999_ms", JFloat s.(latency_p999_ms)); ("sequence_gaps", JUnsigned s.(s_sequence_gaps));
          ("received", JUnsigned s.(received))]%string.

Definition transport_json (t : TransportMetrics) : json :=
  object [("bytes_sec", JFloat t.(bytes_sec)); ("crc_failures", JUnsigned t.(crc_failures));
          ("sequence_gaps", JUnsigned t.(t_sequence_gaps)); ("retransmits", JUnsigned t.(retransmits))]%string.

Definition bucket_json (b : double * Z) : json :=
  object [("le_ms", JFloat b.1); ("count", JUnsigned b.2)]%string.

(** The value that [to_json] prints. *)
Definition json_value (r : ScenarioReport) : json :=
  object
    ([("scenario", JString r.(scenario)); ("timestamp", JString r.(timestamp));
      ("duration_seconds", JFloat r.(r_duration_seconds)); ("result", verdict r.(r_passed));
      ("assertions", JArray (map assertion_json r.(r_assertions)));
      ("metrics", object [("per_sensor", object (map (fun e => (e.1, sensor_json e.2)) r.(per_sensor)));
                          ("transport", transport_json r.(transport))]);
      ("replay_recovery_ms", JFloat r.(replay_recovery_ms))]%string ++
     match r.(latency_histograms) with
     | [] => []
     | hs => [("latency_histograms"%string, object (map (fun e => (e.1, JArray (map bucket_json e.2))) hs))]
     end).

(** [dump] with an indentation of 2 is the library's. *)
Definition to_json (dump : json -> string) (r : ScenarioReport) : string := dump (json_value r).

(** Whether the file could be opened and written. *)
Definition write_json (dump : json -> string) (opened good : bool) (r : ScenarioReport) : bool * option string :=
  if negb opened then (false, None) else (good, Some (to_json dump r)).

(** ** HTML *)

(** String literals with double quotes, written with single ones. *)
Fixpoint Q (s : string) : string :=
  match s with
  | EmptyString => EmptyString
  | String c s => String (if bool_decide (c = "'"%char) then "034"%char else c) (Q s)
  end.

Fixpoint esc (s : string) : string :=
  match s with
  | EmptyString => EmptyString
  | String c s =>
    ((if bool_decide (c = "&"%char) then "&amp;"
      else if bool_decide (c = "<"%char) then "&lt;"
      else if bool_decide (c = ">"%char) then "&gt;"
      else if bool_decide (c = "034"%char) then "&quot;"
      else String c EmptyString) +:+ esc s)%string
  end.

Definition fmt (x : double) : string := format_fixed 3 x.

(** [static_cast<int>]. *)
Definition cast_int32 (x : double) : outcome Z :=
  match d_trunc x with
  | Some z => if (- 2 ^ 31 <=? z) && (z <? 2 ^ 31) then Ok z else OutOfBounds
  | None => OutOfBounds
  end.

(** Decimal output of an [int]. *)
Definition int_string (z : Z) : string := (sign_str (z <? 0)%Z +:+ dec_big (Z.abs z))%string.

Definition html_head (r : ScenarioReport) : string :=
  (Q "<!doctype html><html lang='en'><head><meta charset='utf-8'>" +:+
   Q "<meta name='viewport' content='width=device-width,initial-scale=1'>" +:+
   "<title>SensorForge report - " +:+ esc r.(scenario) +:+ "</title><style>" +:+
   "body{font-family:-apple-system,Segoe UI,Roboto,sans-serif;margin:0;background:#0f1115;color:#e6e6e6}" +:+
   ".wrap{max-width:900px;margin:0 auto;padding:24px}" +:+
   ".banner{padding:16px 20px;border-radius:10px;color:#fff;font-weight:600;font-size:20px;background:" +:+
   (if r.(r_passed) then "#1b8a3a" else "#c0392b") +:+ "}" +:+
   "h1{font-size:22px;margin:8px 0}h2{font-size:16px;margin:24px 0 8px;color:#9fb0c0}" +:+
   "table{width:100%;border-collapse:collapse;font-size:14px;margin-top:6px}" +:+
   "th,td{text-align:left;padding:8px 10px;border-bottom:1px solid #232833}" +:+
   "th{color:#9fb0c0;font-weight:600}" +:+
   ".pass{color:#38d160}.fail{color:#ff6b6b}.muted{color:#8a94a3}" +:+
   ".bar{height:10px;background:#38d160;border-radius:3px}" +:+
   Q "</style></head><body><div class='wrap'>" +:+
   "<h1>SensorForge Scenario Report</h1>" +:+
   Q "<div class='banner'>" +:+ esc r.(scenario) +:+ " &mdash; " +:+ (if r.(r_passed) then "PASS" else "FAIL") +:+
   "</div>" +:+ Q "<p class='muted'>" +:+ esc r.(timestamp) +:+ " &middot; duration " +:+
   fmt r.(r_duration_seconds) +:+ " s</p>")%string.

Definition assertion_row (a : AssertionReport) : string :=
  ("<tr><td>" +:+ esc a.(a_metric) +:+ "</td><td>" +:+ esc a.(a_op) +:+ "</td><td>" +:+ fmt a.(a_threshold) +:+
   "</td><td>" +:+ (if a.(a_found) then fmt a.(a_actual) else "&mdash;") +:+
   (if a.(a_passed) then Q "</td><td class='pass'>PASS</td></tr>" else Q "</td><td class='fail'>FAIL</td></tr>"))%string.

(** [std::max(a, b)] is [a < b ? b : a]. *)
Definition max_p99 (sensors : smap SensorMetrics) : double :=
  foldl (fun a e => if d_lt a e.2.(latency_p99_ms) then e.2.(latency_p99_ms) else a) d_one sensors.

Definition bar_width (max : double) (s : SensorMetrics) : outcome Z :=
  cast_int32 (d_div (d_mul (d_of_Z 100) s.(latency_p99_ms)) max).

Definition sensor_row (max : double) (e : string * SensorMetrics) : outcome string :=
  let s := e.2 in
  w ← bar_width max s;
  Ok ("<tr><td>" +:+ esc e.1 +:+ "</td><td>" +:+ fmt s.(msgs_sec) +:+ "</td><td>" +:+
      fmt s.(s_drop_rate_pct) +:+ "</td><td>" +:+ fmt s.(latency_p50_ms) +:+ "</td><td>" +:+
      fmt s.(latency_p99_ms) +:+ "</td><td>" +:+ dec_string s.(s_sequence_gaps) +:+ "</td>" +:+
      (Q "<td><div class='bar' style='width:" +:+ int_string w +:+ Q "%'></div></td></tr>"))%string.

Fixpoint sensor_rows (max : double) (l : smap SensorMetrics) : outcome string :=
  match l with
  | [] => Ok ""%string
  | e :: l => row ← sensor_row max e; rows ← sensor_rows max l; Ok (row +:+ rows)%string
  end.

Definition html_transport (t : TransportMetrics) : string :=
  ("<h2>Transport</h2><table>" +:+
   "<tr><th>bytes/s</th><th>CRC failures</th><th>sequence gaps</th><th>retransmits</th></tr><tr><td>" +:+
   fmt t.(bytes_sec) +:+ "</td><td>" +:+ dec_string t.(crc_failures) +:+ "</td><td>" +:+
   dec_string t.(t_sequence_gaps) +:+ "</td><td>" +:+ dec_string t.(retransmits) +:+ "</td></tr></table>")%string.

Definition to_html (r : ScenarioReport) : outcome string :=
  rows ← sensor_rows (max_p99 r.(per_sensor)) r.(per_sensor);
  Ok (html_head r +:+
      "<h2>Assertions</h2><table><tr><th>Metric</th><th>Operator</th>" +:+
      "<th>Threshold</th><th>Actual</th><th>Result</th></tr>" +:+
      foldr String.append "" (map assertion_row r.(r_assertions)) +:+ "</table>" +:+
      "<h2>Per-sensor metrics</h2><table><tr><th>Sensor</th><th>msgs/s</th>" +:+
      "<th>drop %</th><th>p50 ms</th><th>p99 ms</th><th>gaps</th><th>p99 latency</th></tr>" +:+
      rows +:+ "</table>" +:+ html_transport r.(transport) +:+ "</div></body></html>")%string.

Definition write_html (opened good : bool) (r : ScenarioReport) : outcome (bool * option string) :=
  if negb opened then Ok (false, None) else h ← to_html r; Ok (good, Some h).

(** ** The tags of a page *)

(** The state of the lexer is the part of the current tag read so far. *)
Definition lex_char (st : option string) (c : ascii) : option string * list string :=
  match st with
  | None => if bool_decide (c = "<"%char) then (Some EmptyString, []) else (None, [])
  | Some tag => if bool_decide (c = ">"%char) then (None, [tag]) else (Some (tag +:+ String c EmptyString)%string, [])
  end.

Fixpoint lex (st : option string) (s : string) : option string * list string :=
  match s with
  | EmptyString => (st, [])
  | String c s => let '(st1, t1) := lex_char st c in let '(st2, t2) := lex st1 s in (st2, t1 ++ t2)
  end.

Lemma lex_app st a b :
  lex st (a +:+ b) = ((lex (lex st a).1 b).1, (lex st a).2 ++ (lex (lex st a).1 b).2).
Proof.
  revert st. induction a as [|c a IH]; intros st.
  - change (""+:+ b)%string with b. cbn [lex fst snd app]. by destruct (lex st b).
  - change (String c a +:+ b)%string with (String c (a +:+ b)). cbn [lex].
    destruct (lex_char st c) as [st1 t1]. rewrite IH. destruct (lex st1 a) as [st2 t2]. cbn [fst snd].
    by rewrite app_assoc.
Qed.

(** The same tags, and the end outside of a tag. *)
Definition same (a b : string) : Prop := lex None a = lex None b /\ (lex None a).1 = None.

Lemma same_app a b c d : same a b -> same c d -> same (a +:+ c) (b +:+ d).
Proof.
  intros [H1 H2] [H3 H4]. unfold same. rewrite !lex_app, <- H1, H2, <- H3. done.
Qed.

Lemma same_closed a : (lex None a).1 = None -> same a a.
Proof. done. Qed.

(** Text without brackets is text. *)
Lemma lex_text P s :
  negb (P "<"%char) = true -> all_chars P s = true -> lex None s = (None, []).
Proof.
  intros HP. induction s as [|c s IH]; cbn [all_chars lex lex_char]; [done|]. rewrite andb_true_iff. intros [Hc Hs].
  rewrite bool_decide_false by (intros ->; by rewrite Hc in HP). by rewrite IH.
Qed.

Lemma lex_in_tag P tag s :
  negb (P ">"%char) = true -> all_chars P s = true -> lex (Some tag) s = (Some (tag +:+ s)%string, []).
Proof.
  intros HP. revert tag. induction s as [|c s IH]; intros tag; cbn [all_chars lex lex_char].
  - intros _. do 2 f_equal. by induction tag as [|x tag IHt]; [|exact (f_equal (String x) IHt)].
  - rewrite andb_true_iff. intros [Hc Hs].
    rewrite bool_decide_false by (intros ->; by rewrite Hc in HP). rewrite IH by done. cbn [app].
    by rewrite <- string_app_assoc.
Qed.

Lemma lex_esc s : lex None (esc s) = (None, []).
Proof.
  induction s as [|c s IH]; [done|]. cbn [esc]. rewrite lex_app.
  assert (lex None (if bool_decide (c = "&"%char) then "&amp;"
      else if bool_decide (c = "<"%char) then "&lt;"
      else if bool_decide (c = ">"%char) then "&gt;"
      else if bool_decide (c = "034"%char) then "&quot;"
      else String c EmptyString) = (None, [])) as ->; [|cbn [fst snd]; by rewrite IH].
  case_bool_decide; [done|]. case_bool_decide as E; [done|]. do 2 (case_bool_decide; [done|]).
  cbn [lex lex_char]. by rewrite bool_decide_false.
Qed.

Lemma same_esc a b : same (esc a) (esc b).
Proof. unfold same. by rewrite !lex_esc. Qed.

Lemma same_fmt p x : same (format_fixed p x) (format_fixed p x).
Proof. apply same_closed. rewrite (lex_text num_char); [done|done|]. apply format_fixed_chars. Qed.

Lemma same_dec n : same (dec_string n) (dec_string n).
Proof. apply same_closed. rewrite (lex_text is_digit); [done|done|]. by apply to_dec_chars. Qed.

(** Escaping loses nothing. *)
Lemma esc_inj a b : esc a = esc b -> a = b.
Proof.
  revert b. induction a as [|c a IH]; intros [|d b]; cbn [esc]; [done| | |];
    repeat case_bool_decide; subst; try discriminate; intros Heq; injection Heq; intros; subst; try congruence;
    f_equal; auto.
Qed.

Ltac same_pieces :=
  repeat (apply same_app; [first [apply same_esc | apply same_fmt | apply same_dec | apply same_closed; reflexivity]|]);
  first [apply same_esc | apply same_fmt | apply same_dec | apply same_closed; reflexivity | idtac].

(** The report without its texts. *)
Definition erase (r : ScenarioReport) : ScenarioReport :=
  {| scenario := ""; timestamp := ""; r_duration_seconds := r.(r_duration_seconds); r_passed := r.(r_passed);
     r_assertions := map (fun a => {| a_metric := ""; a_op := ""; a_threshold := a.(a_threshold);
                                      a_actual := a.(a_actual); a_found := a.(a_found);
                                      a_passed := a.(a_passed) |}) r.(r_assertions);
     per_sensor := map (fun e => (""%string, e.2)) r.(per_sensor); transport := r.(transport);
     latency_histograms := []; replay_recovery_ms := r.(replay_recovery_ms) |}.

Lemma same_head r : same (html_head r) (html_head (erase r)).
Proof. unfold html_head, erase. cbn [scenario timestamp r_passed r_duration_seconds]. destruct (r_passed r); same_pieces. Qed.

Lemma same_assertions l :
  same (foldr String.append "" (map assertion_row l))
       (foldr String.append "" (map assertion_row (map (fun a => {| a_metric := ""; a_op := "";
          a_threshold := a.(a_threshold); a_actual := a.(a_actual); a_found := a.(a_found);
          a_passed := a.(a_passed) |}) l))).
Proof.
  induction l as [|a l IH]; cbn [map foldr]; [by apply same_closed|]. apply same_app; [|exact IH].
  unfold assertion_row. cbn [a_metric a_op a_threshold a_actual a_found a_passed].
  destruct (a_found a), (a_passed a); same_pieces.
Qed.

Lemma same_bar w :
  same (Q "<td><div class='bar' style='width:" +:+ int_string w +:+ Q "%'></div></td></tr>")
       (Q "<td><div class='bar' style='width:" +:+ int_string w +:+ Q "%'></div></td></tr>").
Proof.
  apply same_closed. rewrite lex_app. cbn [fst].
  set (st := (lex None (Q "<td><div class='bar' style='width:")).1).
  assert (exists tag, st = Some tag) as [tag ->] by (eexists; vm_compute; reflexivity).
  rewrite lex_app, (lex_in_tag num_char); [|done|].
  - cbn [fst]. set (s := Q "%'></div></td></tr>"). vm_compute in s. subst s. cbn [lex lex_char].
    repeat (rewrite ?(bool_decide_false (_ = _)) by done; cbn [lex lex_char fst]). reflexivity.
  - unfold int_string. chars.
Qed.

Lemma same_rows max l rows :
  sensor_rows max l = Ok rows ->
  exists rows', sensor_rows max (map (fun e => (""%string, e.2)) l) = Ok rows' /\ same rows rows'.
Proof.
  revert rows. induction l as [|[n s] l IH]; intros rows; cbn [sensor_rows map].
  - intros [= <-]. exists ""%string. split; [done|by apply same_closed].
  - unfold sensor_row. cbn [fst snd]. destruct (bar_width max s) as [w| |]; cbn [mbind outcome_bind]; try done.
    destruct (sensor_rows max l) as [rest| |]; cbn [mbind outcome_bind]; try done. intros [= <-].
    destruct (IH rest eq_refl) as (rest' & -> & H). eexists. split; [done|]. apply same_app; [|exact H].
    repeat (apply same_app; [first [apply same_esc | apply same_fmt | apply same_dec | apply same_closed; reflexivity]|]).
    apply same_bar.
Qed.

Lemma max_p99_erase sensors : max_p99 (map (fun e => (""%string, e.2)) sensors) = max_p99 sensors.
Proof. unfold max_p99. generalize d_one. by induction sensors as [|e l IH]; intros x; [|cbn; rewrite IH]. Qed.

Lemma transport_closed t : (lex None (html_transport t)).1 = None.
Proof.
  assert (same (html_transport t) (html_transport t)) as [_ H]; [|done]. unfold html_transport. same_pieces.
Qed.

(** No text of a report becomes markup.  Whenever the page is produced,
    its tags, attributes included, are those of the page for the same report
    with every name, metric, operator and timestamp replaced by nothing, and
    the page ends outside of a tag; and the texts are all there, because
    escaping is injective. *)
Theorem html_markup_fixed r h :
  to_html r = Ok h ->
  (exists h', to_html (erase r) = Ok h' /\ lex None h = lex None h') /\ (lex None h).1 = None /\
  (forall a b, esc a = esc b -> a = b).
Proof.
  unfold to_html. destruct (sensor_rows _ (per_sensor r)) as [rows| |] eqn:E; cbn [mbind outcome_bind]; try done.
  intros [= <-]. destruct (same_rows _ _ _ E) as (rows' & E' & Hrows).
  cbn [erase per_sensor]. rewrite max_p99_erase, E'. cbn [mbind outcome_bind].
  match goal with |- context [lex None ?x = _] => match goal with |- context [Ok ?y = Ok _] => assert (same x y) as Hs end end.
  { apply same_app; [apply same_head|]. do 2 (apply same_app; [by apply same_closed|]).
    apply same_app; [apply same_assertions|]. do 3 (apply same_app; [by apply same_closed|]).
    apply same_app; [exact Hrows|]. apply same_app; [by apply same_closed|].
    apply same_app; [apply same_closed, transport_closed|]. by apply same_closed. }
  destruct Hs as [H1 H2]. split; [|split; [exact H2|exact esc_inj]]. eexists. split; [done|exact H1].
Qed.

Definition sample_sensor : SensorMetrics :=
  {| msgs_sec := d_of_Z 10; s_drop_rate_pct := d_zero; latency_p50_ms := d_one; latency_p99_ms := d_of_Z 4;
     latency_p999_ms := d_of_Z 5; s_sequence_gaps := 1; received := 20 |}.

Definition sample_report : ScenarioReport :=
  {| scenario := "<script>"; timestamp := "2026-01-01T00:00:00Z"; r_duration_seconds := d_of_Z 2; r_passed := false;
     r_assertions := [{| a_metric := "imu_received"; a_op := "less_than"; a_threshold := d_one; a_actual := d_of_Z 20;
                         a_found := true; a_passed := false |}];
     per_sensor := [("imu"%string, sample_sensor)];
     transport := {| bytes_sec := d_zero; crc_failures := 0; t_sequence_gaps := 0; retransmits := 0 |};
     latency_histograms := []; replay_recovery_ms := d_zero |}.

Lemma html_markup_fixed_witness : exists h, to_html sample_report = Ok h /\ (lex None h).1 = None.
Proof.
  destruct (to_html sample_report) as [h| |] eqn:E; [|vm_compute in E; discriminate E..].
  exists h. split; [reflexivity|]. exact (proj1 (proj2 (html_markup_fixed sample_report h E))).
Defined.

(** A p99 that is not a number is converted to [int] for the width of the
    bar, which is undefined: the page has no defined content. *)
Theorem html_nan_undefined r name s :
  (name, s) ∈ r.(per_sensor) -> s.(latency_p99_ms) = S754_nan -> to_html r = OutOfBounds.
Proof.
  intros Hin Hs. unfold to_html. generalize (max_p99 (per_sensor r)) as max. intros max.
  assert (sensor_rows max (per_sensor r) = OutOfBounds) as ->; [|done]. revert Hin.
  induction (per_sensor r) as [|[n s'] l IH]; [by rewrite elem_of_nil|]. rewrite elem_of_cons. cbn [sensor_rows].
  unfold sensor_row. cbn [fst snd]. intros [[= <- <-]|Hin].
  - unfold bar_width. rewrite Hs. replace (d_div _ max) with S754_nan by by destruct max. done.
  - rewrite (IH Hin). unfold bar_width, cast_int32. destruct (d_trunc _) as [z|]; [|done]. by case_test.
Qed.

(** ** Reading a JSON report *)

Definition field (k : string) (j : json) : option json :=
  match j with JObject l => map_find k l | _ => None end.
Definition get_string (j : json) : option string := match j with JString s => Some s | _ => None end.
Definition get_float (j : json) : option double := match j with JFloat x => Some x | _ => None end.
Definition get_unsigned (j : json) : option Z := match j with JUnsigned z => Some z | _ => None end.
Definition get_bool (j : json) : option bool := match j with JBool b => Some b | _ => None end.
Definition get_verdict (j : json) : option bool :=
  s ← get_string j;
  if bool_decide (s = "PASS"%string) then Some true else if bool_decide (s = "FAIL"%string) then Some false else None.
Definition get_array {A} (f : json -> option A) (j : json) : option (list A) :=
  match j with JArray l => mapM f l | _ => None end.
Definition get_object {A} (f : json -> option A) (j : json) : option (smap A) :=
  match j with JObject l => mapM (fun e => x ← f e.2; Some (e.1, x)) l | _ => None end.

Definition read_assertion (j : json) : option AssertionReport :=
  m ← field "metric" j ≫= get_string; o ← field "operator" j ≫= get_string;
  t ← field "threshold" j ≫= get_float; a ← field "actual" j ≫= get_float;
  f ← field "found" j ≫= get_bool; p ← field "result" j ≫= get_verdict;
  Some {| a_metric := m; a_op := o; a_threshold := t; a_actual := a; a_found := f; a_passed := p |}.

Definition read_sensor (j : json) : option SensorMetrics :=
  m ← field "msgs_sec" j ≫= get_float; d ← field "drop_rate_pct" j ≫= get_float;
  p50 ← field "latency_p50_ms" j ≫= get_float; p99 ← field "latency_p99_ms" j ≫= get_float;
  p999 ← field "latency_p999_ms" j ≫= get_float; g ← field "sequence_gaps" j ≫= get_unsigned;
  r ← field "received" j ≫= get_unsigned;
  Some {| msgs_sec := m; s_drop_rate_pct := d; latency_p50_ms := p50; latency_p99_ms := p99;
          latency_p999_ms := p999; s_sequence_gaps := g; received := r |}.

Definition read_transport (j : json) : option TransportMetrics :=
  b ← field "bytes_sec" j ≫= get_float; c ← field "crc_failures" j ≫= get_unsigned;
  g ← field "sequence_gaps" j ≫= get_unsigned; r ← field "retransmits" j ≫= get_unsigned;
  Some {| bytes_sec := b; crc_failures := c; t_sequence_gaps := g; retransmits := r |}.

Definition read_bucket (j : json) : option (double * Z) :=
  u ← field "le_ms" j ≫= get_float; c ← field "count" j ≫= get_unsigned; Some (u, c).

Definition read_report (j : json) : option ScenarioReport :=
  n ← field "scenario" j ≫= get_string; t ← field "timestamp" j ≫= get_string;
  d ← field "duration_seconds" j ≫= get_float; p ← field "result" j ≫= get_verdict;
  a ← field "assertions" j ≫= get_array read_assertion;
  m ← field "metrics" j; s ← field "per_sensor" m ≫= get_object read_sensor;
  tr ← field "transport" m ≫= read_transport; rec ← field "replay_recovery_ms" j ≫= get_float;
  h ← match field "latency_histograms" j with
      | None => Some []
      | Some h => get_object (get_array read_bucket) h
      end;
  Some {| scenario := n; timestamp := t; r_duration_seconds := d; r_passed := p; r_assertions := a;
          per_sensor := s; transport := tr; latency_histograms := h; replay_recovery_ms := rec |}.

Lemma get_array_map {A} (f : json -> option A) (enc : A -> json) l :
  (forall x, f (enc x) = Some x) -> get_array f (JArray (map enc l)) = Some l.
Proof.
  intros H. cbn [get_array]. induction l as [|x l IH]; [done|]. cbn [map].
  change (mapM f (enc x :: map enc l)) with (y ← f (enc x); k ← mapM f (map enc l); Some (y :: k)).
  by rewrite H, IH.
Qed.

Lemma map_values_ok {A B} (f : A -> B) (l : smap A) : map_ok l -> map_ok (map (fun e => (e.1, f e.2)) l).
Proof.
  unfold map_ok. induction 1 as [|e l Hl IH H0]; cbn [map]; constructor; [done|].
  apply Forall_map. eapply Forall_impl; [exact H0|]. by intros [k v].
Qed.

Lemma get_object_map {A} (f : json -> option A) (enc : A -> json) (l : smap A) :
  map_ok l -> (forall x, f (enc x) = Some x) ->
  get_object f (object (map (fun e => (e.1, enc e.2)) l)) = Some l.
Proof.
  intros Hl H. unfold object. rewrite map_of_list_sorted by by apply map_values_ok. cbn [get_object]. clear Hl.
  induction l as [|[k x] l IH]; [done|]. cbn [map fst snd].
  match goal with |- mapM ?g (?e :: ?t) = _ => change (mapM g (e :: t)) with (y ← g e; k ← mapM g t; Some (y :: k)) end.
  cbn [fst snd]. by rewrite H, IH.
Qed.

Lemma read_assertion_json a : read_assertion (assertion_json a) = Some a.
Proof. by destruct a as [m o t x f []]. Qed.

Lemma read_sensor_json s : read_sensor (sensor_json s) = Some s.
Proof. by destruct s. Qed.

Lemma read_transport_json t : read_transport (transport_json t) = Some t.
Proof. by destruct t. Qed.

Lemma read_bucket_json b : read_bucket (bucket_json b) = Some b.
Proof. by destruct b. Qed.

(** The JSON report loses nothing.  A reader that looks up the keys gets
    back the report that [to_json] was given, histograms included. *)
Theorem json_report_roundtrip r :
  map_ok r.(per_sensor) -> map_ok r.(latency_histograms) -> read_report (json_value r) = Some r.
Proof.
  intros Hs Hh.
  pose proof (get_array_map read_assertion assertion_json (r_assertions r) read_assertion_json) as Ha.
  pose proof (get_object_map read_sensor sensor_json (per_sensor r) Hs read_sensor_json) as Hp.
  pose proof (read_transport_json (transport r)) as Ht.
  pose proof (get_object_map (get_array read_bucket) (fun l => JArray (map bucket_json l)) (latency_histograms r) Hh
    (fun l => get_array_map read_bucket bucket_json l read_bucket_json)) as Hb.
  destruct r as [n t d p a s tr h rec]. cbn [per_sensor latency_histograms r_assertions transport] in *.
  unfold json_value. cbn [scenario timestamp r_duration_seconds r_passed r_assertions per_sensor transport
    latency_histograms replay_recovery_ms].
  revert Ha Hp Ht Hb. generalize (JArray (map assertion_json a)) (transport_json tr)
    (object (map (fun e => (e.1, sensor_json e.2)) s)). intros ja jt js Ha Hp Ht Hb.
  set (jh := match h with [] => [] | _ => _ end). set (J := object _).
  assert (field "scenario" J = Some (JString n) /\ field "timestamp" J = Some (JString t) /\
    field "duration_seconds" J = Some (JFloat d) /\ field "result" J = Some (verdict p) /\
    field "assertions" J = Some ja /\ field "replay_recovery_ms" J = Some (JFloat rec) /\
    field "metrics" J = Some (object [("per_sensor", js); ("transport", jt)]%string)) as (F1 & F2 & F3 & F4 & F5 & F6 & F7)
    by (destruct h; repeat split; reflexivity).
  assert (match field "latency_histograms" J with
          | None => Some []
          | Some h => get_object (get_array read_bucket) h
          end = Some h) as F8.
  { destruct h as [|h0 h]; [reflexivity|]. etrans; [|exact Hb]. reflexivity. }
  clearbody J. unfold read_report. rewrite F1, F2, F3, F4, F5, F6, F7, F8.
  assert (get_verdict (verdict p) = Some p) as Hv by by destruct p.
  cbn [mbind option_bind get_string get_float]. rewrite Hv. cbn [mbind option_bind]. rewrite Ha. cbn [mbind option_bind].
  assert (field "per_sensor" (object [("per_sensor", js); ("transport", jt)]%string) = Some js /\
          field "transport" (object [("per_sensor", js); ("transport", jt)]%string) = Some jt) as [-> ->] by by split.
  cbn [mbind option_bind]. rewrite Hp. cbn [mbind option_bind]. by rewrite Ht.
Qed.

Lemma json_report_roundtrip_witness : read_report (json_value sample_report) = Some sample_report.
Proof. apply json_report_roundtrip; repeat constructor. Defined.

(** ** The builder *)

Lemma sensors_loop_spec metrics (f : string -> SensorMetrics) streams m :
  Forall (fun s => sensor_metrics metrics s = Ok (f s)) streams -> map_ok m ->
  exists m', sensors_loop metrics streams m = Ok m' /\ map_ok m' /\
    forall k, map_find k m' = if bool_decide (k ∈ streams) then Some (f k) else map_find k m.
Proof.
  intros Hs. revert m. induction Hs as [|s streams Hs Hss IH]; intros m Hm; cbn [sensors_loop].
  - exists m. split; [done|]. split; [done|]. intros k. rewrite bool_decide_false; [done|apply not_elem_of_nil].
  - rewrite Hs. cbn [mbind outcome_bind]. destruct (IH (map_set s (f s) m)) as (m' & E & H1 & H2); [by apply map_set_ok|].
    exists m'. split; [done|]. split; [done|]. intros k. rewrite H2, map_find_set.
    destruct (decide (k ∈ streams)) as [Hk|Hk].
    + rewrite !bool_decide_true by (by rewrite ?elem_of_cons; auto). done.
    + rewrite (bool_decide_false (k ∈ streams)) by done. case_bool_decide as Ek.
      * subst. by rewrite bool_decide_true by left.
      * rewrite bool_decide_false; [done|]. rewrite elem_of_cons. tauto.
Qed.

(** The statistics of a stream as its row of the report. *)
Definition stream_row (m : StreamMetrics) (row : SensorMetrics) : Prop :=
  row.(msgs_sec) = msgs_per_sec m /\ row.(s_drop_rate_pct) = drop_rate_pct m /\
  pct (d_lit 1 2) m = Ok row.(latency_p50_ms) /\ pct (d_lit 99 100) m = Ok row.(latency_p99_ms) /\
  pct (d_lit 999 1000) m = Ok row.(latency_p999_ms) /\
  row.(s_sequence_gaps) = m.(sequence_gaps_) /\ row.(received) = m.(received_).

(** The metrics hold the statistics of a stream. *)
Definition has_stream (metrics : MetricMap) (m : StreamMetrics) : Prop :=
  metrics !! (m.(name_) +:+ "_msgs_per_sec")%string = Some (msgs_per_sec m) /\
  metrics !! (m.(name_) +:+ "_drop_rate_pct")%string = Some (drop_rate_pct m) /\
  (exists p, pct (d_lit 1 2) m = Ok p /\ metrics !! (m.(name_) +:+ "_latency_p50_ms")%string = Some p) /\
  (exists p, pct (d_lit 99 100) m = Ok p /\ metrics !! (m.(name_) +:+ "_latency_p99_ms")%string = Some p) /\
  (exists p, pct (d_lit 999 1000) m = Ok p /\ metrics !! (m.(name_) +:+ "_latency_p999_ms")%string = Some p) /\
  metrics !! (m.(name_) +:+ "_sequence_gaps")%string = Some (d_of_Z m.(sequence_gaps_)) /\
  metrics !! (m.(name_) +:+ "_received")%string = Some (d_of_Z m.(received_)).

Lemma sensor_metrics_row metrics m :
  has_stream metrics m -> 0 <= m.(received_) < 2 ^ 53 -> 0 <= m.(sequence_gaps_) < 2 ^ 53 ->
  exists row, sensor_metrics metrics m.(name_) = Ok row /\ stream_row m row.
Proof.
  intros (H1 & H2 & (p50 & P1 & H3) & (p99 & P2 & H4) & (p999 & P3 & H5) & H6 & H7) Hr Hg.
  unfold sensor_metrics, metric_or. rewrite H1, H2, H3, H4, H5, H6, H7.
  rewrite !cast_uint64_of_Z by done. cbn [mbind outcome_bind]. eexists. split; [done|]. by repeat split.
Qed.

End Report.
