(* ===== verification/Sensors.v ===== *)
(** * Synthetic sensors ([src/sensors/synthetic_base.hpp] and the publishers)

    The common part (parameters, period of the timer, sequence number, noise)
    and what the camera, lidar, IMU and GPS nodes publish at a tick.  The
    random generator with its distributions, [std::sin] and [std::cos] are
    parameters.  The CAN publisher is in [CanBus.v].

    Results: an image has a pixel of three bytes for each position, within the
    noise amplitude of the gradient; a point cloud has twelve bytes for each
    point; both fit their buffers as long as the 32-bit sizes do not wrap. *)

From S2P Require Export Buffers CppDouble.

Module Sensors.

(** ** The base class *)

Record SyntheticPublisherBase (G : Type) := mkBase {
  rate_hz_ : double;
  seed_ : Z;
  frame_id_ : string;
  topic_ : string;
  rng_ : G;
  seq_ : Z
}.
Arguments mkBase {G}.
Arguments rate_hz_ {G}. Arguments seed_ {G}. Arguments frame_id_ {G}. Arguments topic_ {G}.
Arguments rng_ {G}. Arguments seq_ {G}.

(** From the parameters of the node; [engine] is [mt19937_64] seeded. *)
Definition new_base {G} (engine : Z -> G) (rate_hz : double) (seed : Z) (frame_id topic : string) :
    SyntheticPublisherBase G :=
  {| rate_hz_ := rate_hz; seed_ := u64 seed; frame_id_ := frame_id; topic_ := topic;
     rng_ := engine (u64 seed); seq_ := 0 |}.

(** The period of the timer in nanoseconds. *)
Definition period {G} (b : SyntheticPublisherBase G) : outcome Z :=
  let hz := if d_lt d_zero b.(rate_hz_) then b.(rate_hz_) else d_one in
  cast_int64 (d_mul (d_div d_one hz) (d_of_Z 1000000000)).

(** What the timer does: [on_tick] with the current number, then the next. *)
Definition timer_tick {G M} (on_tick : Z -> G -> outcome (M * G)) (b : SyntheticPublisherBase G) :
    outcome (M * SyntheticPublisherBase G) :=
  res ← on_tick b.(seq_) b.(rng_);
  Ok (res.1, {| rate_hz_ := b.(rate_hz_); seed_ := b.(seed_); frame_id_ := b.(frame_id_); topic_ := b.(topic_);
                rng_ := res.2; seq_ := u64 (b.(seq_) + 1) |}).

(** [rate_hz_ > 0 ? rate_hz_ : 1.0], the divisor of the sequence number. *)
Definition tick_time {G} (b : SyntheticPublisherBase G) (seq : Z) : double :=
  d_div (d_of_Z seq) (if d_lt d_zero b.(rate_hz_) then b.(rate_hz_) else d_one).

(** ** Camera *)

Record Image := mkImage { height : Z; width : Z; encoding : string; is_bigendian : Z; step : Z; pixels : list byte }.

(** The generator of the pixel noise. *)
Definition lcg (rng : Z) : Z := u32 (rng * 1664525 + 1013904223).

Definition clamp (v : Z) : Z := if v <? 0 then 0 else if 255 <? v then 255 else v.

Section Camera.
Context (width height amp phase step : Z).

(** The noise of a pixel; [2 * amp + 1] is computed in an [int]. *)
Definition pixel_noise (rng : Z) : outcome (Z * Z) :=
  if 0 <? amp then
    let rng := lcg rng in
    if 2 ^ 31 <=? 2 * amp + 1 then OutOfBounds
    else Ok ((rng >>> 23) mod u32 (2 * amp + 1) - amp, rng)
  else Ok (0, rng).

Definition pixel (x y n : Z) : list byte :=
  [z2b (clamp ((u32 (x + phase) &&& 0xFF) + n)); z2b (clamp ((u32 (y + phase) &&& 0xFF) + n));
   z2b (clamp ((u32 (x + y) &&& 0xFF) + n))].

(** The inner and the outer loop, over the data and the generator. *)
Fixpoint row_loop (n : nat) (x y : Z) (st : list byte * Z) : outcome (list byte * Z) :=
  match n with
  | O => Ok st
  | S n =>
    let off := u64 (y * step + x * 3) in
    res ← pixel_noise st.2;
    data ← store (Z.to_nat off) (pixel x y res.1) st.1;
    row_loop n (x + 1) y (data, res.2)
  end.

Fixpoint image_loop (n : nat) (y : Z) (st : list byte * Z) : outcome (list byte * Z) :=
  match n with
  | O => Ok st
  | S n => st ← row_loop (Z.to_nat width) 0 y st; image_loop n (y + 1) st
  end.

End Camera.

(** [CameraPublisher::on_tick]; the parameters are cast from 64-bit integers. *)
Definition camera_tick (width height amp seed seq : Z) : outcome Image :=
  let step := u32 (width * 3) in
  let data := replicate (Z.to_nat (step * height)) (z2b 0) in
  let phase := seq &&& 0xFF in
  let rng := u32 seed ^^^ u32 (seq * 2654435761) in
  res ← image_loop width amp phase step (Z.to_nat height) 0 (data, rng);
  Ok {| height := height; width := width; encoding := "rgb8"; is_bigendian := 0; step := step; pixels := res.1 |}.

(** ** Lidar *)

(** The object representation of a [float], least significant byte first. *)
Definition float_bits (x : spec_float) : Z :=
  match x with
  | S754_zero s => if s then 2 ^ 31 else 0
  | S754_infinity s => (if s then 2 ^ 31 else 0) + 255 * 2 ^ 23
  | S754_nan => 255 * 2 ^ 23 + 2 ^ 22
  | S754_finite s m e =>
    (if s then 2 ^ 31 else 0) +
    (if Z.pos m <? 2 ^ 23 then Z.pos m else (e + 150) * 2 ^ 23 + (Z.pos m - 2 ^ 23))
  end.

Record PointField := mkPointField { f_name : string; offset : Z; datatype : Z; count : Z }.

Record PointCloud2 := mkPointCloud2 {
  pc_height : Z; pc_width : Z; fields : list PointField; pc_is_bigendian : bool; is_dense : bool;
  point_step : Z; row_step : Z; points : list byte
}.

Definition pi : double := S754_finite false 7074237752028440 (-51).

Section Noisy.
Context {G : Type} (normal : double -> G -> double * G) (sin cos : double -> double).

(** [noise]: a sample of [normal_distribution(0, sigma)]. *)
Definition noise (sigma : double) (g : G) : double * G := normal sigma g.

Definition point_bytes (x y z : double) : list byte :=
  le_bytes 4 (float_bits (to_float x)) ++ le_bytes 4 (float_bits (to_float y)) ++
  le_bytes 4 (float_bits (to_float z)).

Fixpoint lidar_loop (n : nat) (i num_points : Z) (sigma base_radius : double) (st : list byte * G) :
    outcome (list byte * G) :=
  match n with
  | O => Ok st
  | S n =>
    let angle := d_div (d_mul (d_mul (d_of_Z 2) pi) (d_of_Z i)) (d_of_Z num_points) in
    let '(n1, g) := noise sigma st.2 in
    let r := d_add base_radius n1 in
    let '(n2, g) := noise sigma g in
    let z := d_add (d_mul (d_lit 1 10) (sin (d_mul angle (d_of_Z 4)))) n2 in
    data ← store (Z.to_nat (i * 12)) (point_bytes (d_mul r (cos angle)) (d_mul r (sin angle)) z) st.1;
    lidar_loop n (i + 1) num_points sigma base_radius (data, g)
  end.

(** [PointField::FLOAT32] is 7. *)
Definition lidar_tick (num_points : Z) (sigma : double) (seq : Z) (g : G) : outcome (PointCloud2 * G) :=
  let w := u32 num_points in
  let rs := u32 (12 * w) in
  let base_radius := d_add (d_of_Z 5) (d_mul (d_lit 1 2) (sin (d_mul (d_of_Z seq) (d_lit 5 100)))) in
  res ← lidar_loop (Z.to_nat num_points) 0 num_points sigma base_radius
          (replicate (Z.to_nat rs) (z2b 0), g);
  Ok ({| pc_height := 1; pc_width := w;
         fields := map (fun '(n, i) => {| f_name := n; offset := u32 (i * 4); datatype := 7; count := 1 |})
                     [("x", 0); ("y", 1); ("z", 2)]%string;
         pc_is_bigendian := false; is_dense := true; point_step := 12; row_step := rs; points := res.1 |}, res.2).

(** ** IMU and GPS *)

Record Imu := mkImu {
  orientation : double * double * double * double;       (** x, y, z, w *)
  angular_velocity : double * double * double;
  linear_acceleration : double * double * double;
  angular_velocity_covariance : list double;
  linear_acceleration_covariance : list double
}.

(** A diagonal 3x3 matrix in row order. *)
Definition diagonal (a b c : double) : list double :=
  [a; d_zero; d_zero; d_zero; b; d_zero; d_zero; d_zero; c].

Definition imu_tick (b : SyntheticPublisherBase G) (accel_sigma gyro_sigma : double) (seq : Z) (g : G) : Imu * G :=
  let t := tick_time b seq in
  let yaw := d_mul (d_lit 2 10) (sin (d_mul t (d_lit 1 2))) in
  let '(gx, g) := noise gyro_sigma g in
  let '(gy, g) := noise gyro_sigma g in
  let '(gz, g) := noise gyro_sigma g in
  let '(ax, g) := noise accel_sigma g in
  let '(ay, g) := noise accel_sigma g in
  let '(az, g) := noise accel_sigma g in
  let gs := d_mul gyro_sigma gyro_sigma in
  let sa := d_mul accel_sigma accel_sigma in
  ({| orientation := (d_zero, d_zero, sin (d_mul yaw (d_lit 1 2)), cos (d_mul yaw (d_lit 1 2)));
      angular_velocity := (gx, gy, d_add (d_mul (d_lit 1 10) (cos (d_mul t (d_lit 1 2)))) gz);
      linear_acceleration := (ax, ay, d_add (d_lit 981 100) az);
      angular_velocity_covariance := diagonal gs gs gs;
      linear_acceleration_covariance := diagonal sa sa sa |}, g).

Record NavSatFix := mkNavSatFix {
  status : Z; service : Z; latitude : double; longitude : double; altitude : double;
  position_covariance : list double; position_covariance_type : Z
}.

(** The constants of the messages: [STATUS_FIX] is 0, [SERVICE_GPS] 1 and
    [COVARIANCE_TYPE_DIAGONAL_KNOWN] 2. *)
Definition gps_tick (b : SyntheticPublisherBase G) (origin_lat origin_lon radius_m pos_sigma_m : double)
    (seq : Z) (g : G) : NavSatFix * G :=
  let t := tick_time b seq in
  let '(n1, g) := noise pos_sigma_m g in
  let dx := d_add (d_mul radius_m (cos (d_mul t (d_lit 1 10)))) n1 in
  let '(n2, g) := noise pos_sigma_m g in
  let dy := d_add (d_mul radius_m (sin (d_mul t (d_lit 1 10)))) n2 in
  let kMetersPerDegLat := d_of_Z 111320 in
  let meters_per_deg_lon := d_mul kMetersPerDegLat (cos (d_div (d_mul origin_lat pi) (d_of_Z 180))) in
  let '(n3, g) := noise pos_sigma_m g in
  let s := d_mul pos_sigma_m pos_sigma_m in
  ({| status := 0; service := 1; latitude := d_add origin_lat (d_div dy kMetersPerDegLat);
      longitude := d_add origin_lon (d_div dx meters_per_deg_lon);
      altitude := d_add (d_of_Z 200) n3;
      position_covariance := diagonal s s (d_mul s (d_of_Z 4)); position_covariance_type := 2 |}, g).

End Noisy.

(** ** The camera image *)

(** The noise of one pixel. *)
Definition noise_ok (amp n : Z) : Prop := - Z.max 0 amp <= n <= Z.max 0 amp.

Lemma pixel_noise_ok amp rng : amp < 2 ^ 30 -> exists n rng', pixel_noise amp rng = Ok (n, rng') /\ noise_ok amp n.
Proof.
  intros Ha. unfold pixel_noise, noise_ok. case_test; [|exists 0, rng; split; [done|lia]].
  apply Z.ltb_lt in E. rewrite (proj2 (Z.leb_gt _ _)) by lia. do 2 eexists. split; [done|].
  rewrite (wrap_small 32 (2 * amp + 1)) by (unfold is_uint; lia).
  pose proof (Z.mod_pos_bound (lcg rng >>> 23) (2 * amp + 1) ltac:(lia)). lia.
Qed.

Lemma length_pixel phase x y n : length (pixel phase x y n) = 3%nat.
Proof. done. Qed.

Section CameraProof.
Context (width amp phase : Z) (Hw : 0 <= width /\ width * 3 < 2 ^ 32) (Ha : amp < 2 ^ 30).
Abbreviation step := (width * 3).

(** [out] is [n] pixels of row [y] from column [x] on. *)
Definition row_ok (n : nat) (x y : Z) (out : list byte) : Prop :=
  length out = (3 * n)%nat /\
  forall i, (i < n)%nat -> exists nz, noise_ok amp nz /\ slice (3 * i) 3 out = pixel phase (x + Z.of_nat i) y nz.

Lemma row_loop_ok n x y out rest rng :
  0 <= x -> 0 <= y < 2 ^ 32 -> x + Z.of_nat n <= width -> Z.of_nat (length out) = y * step + x * 3 ->
  (3 * n <= length rest)%nat ->
  exists out' rng', row_loop amp phase step n x y (out ++ rest, rng) = Ok (out ++ out' ++ drop (3 * n) rest, rng') /\
    row_ok n x y out'.
Proof.
  intros Hx Hy. revert x out rest rng Hx. induction n as [|n IH]; intros x out rest rng Hx Hn Ho Hr; cbn [row_loop].
  - exists [], rng. split; [done|]. split; [done|]. intros i Hi. lia.
  - cbn [fst snd]. destruct (pixel_noise_ok amp rng Ha) as (nz & rng1 & -> & Hnz). cbn [mbind outcome_bind fst snd].
    rewrite wrap_small by (unfold is_uint; nia). rewrite <- Ho, Nat2Z.id.
    replace (out ++ rest) with (out ++ take 3 rest ++ drop 3 rest) by (by rewrite take_drop).
    rewrite (store_mid out (take 3 rest) (drop 3 rest)) by (rewrite ?length_take, ?length_pixel; lia).
    cbn [mbind outcome_bind]. rewrite app_assoc.
    destruct (IH (x + 1) (out ++ pixel phase x y nz) (drop 3 rest) rng1) as (out' & rng' & E & Hl & Hs);
      [lia|lia|rewrite length_app, length_pixel; lia|rewrite length_drop; lia|].
    rewrite E. exists (pixel phase x y nz ++ out'), rng'. split.
    + rewrite <- !app_assoc, drop_drop. by replace (3 * S n)%nat with (3 + 3 * n)%nat by lia.
    + split; [rewrite length_app, length_pixel; lia|]. intros [|i] Hi.
      * exists nz. split; [done|]. rewrite Z.add_0_r. by apply slice_0_app.
      * destruct (Hs i) as (nz' & Hnz' & Hsl); [lia|]. exists nz'. split; [done|].
        replace (x + Z.of_nat (S i)) with (x + 1 + Z.of_nat i) by lia. rewrite <- Hsl. unfold slice.
        replace (3 * S i)%nat with (length (pixel phase x y nz) + 3 * i)%nat by (rewrite length_pixel; lia).
        by rewrite drop_app_add.
Qed.

Lemma image_loop_ok n y out rest rng :
  0 <= y -> y + Z.of_nat n < 2 ^ 32 -> Z.of_nat (length out) = y * step ->
  length rest = (n * (3 * Z.to_nat width))%nat ->
  exists out' rng', image_loop width amp phase step n y (out ++ rest, rng) = Ok (out ++ out', rng') /\
    length out' = (n * (3 * Z.to_nat width))%nat /\
    forall j, (j < n)%nat -> row_ok (Z.to_nat width) 0 (y + Z.of_nat j)
                               (slice (j * (3 * Z.to_nat width)) (3 * Z.to_nat width) out').
Proof.
  revert y out rest rng. induction n as [|n IH]; intros y out rest rng Hy Hn Ho Hr; cbn [image_loop].
  - destruct rest; [|done]. exists [], rng. split; [done|]. split; [done|]. intros j Hj. lia.
  - destruct (row_loop_ok (Z.to_nat width) 0 y out rest rng) as (row & rng1 & -> & Hrow); [lia..|].
    cbn [mbind outcome_bind]. rewrite app_assoc.
    destruct (IH (y + 1) (out ++ row) (drop (3 * Z.to_nat width) rest) rng1) as (out' & rng' & -> & Hl & Hrows);
      [lia|lia|rewrite length_app, (proj1 Hrow); lia|rewrite length_drop; lia|].
    exists (row ++ out'), rng'. rewrite app_assoc. split; [done|]. split; [rewrite length_app, (proj1 Hrow); lia|].
    intros [|j] Hj.
    + rewrite Z.add_0_r. cbn [Nat.mul]. rewrite (slice_0_app row out') by apply Hrow. exact Hrow.
    + specialize (Hrows j ltac:(lia)). replace (y + Z.of_nat (S j)) with (y + 1 + Z.of_nat j) by lia.
      unfold slice in *. replace (S j * (3 * Z.to_nat width))%nat with (length row + j * (3 * Z.to_nat width))%nat
        by (rewrite (proj1 Hrow); lia). by rewrite drop_app_add.
Qed.

End CameraProof.

(** A channel is a byte within the noise of its gradient. *)
Lemma channel_close amp v n :
  noise_ok amp n -> 0 <= clamp ((u32 v &&& 0xFF) + n) <= 255 /\
                    Z.abs (clamp ((u32 v &&& 0xFF) + n) - v mod 256) <= Z.max 0 amp.
Proof.
  intros Hn. change 0xFF with (2 ^ 8 - 1). rewrite land_mask by lia.
  assert (wrap 8 (u32 v) = v mod 256) as ->.
  { unfold wrap. apply Z.mod_mod_divide. by exists (2 ^ 24). }
  pose proof (Z.mod_pos_bound v 256 ltac:(lia)). unfold noise_ok in Hn. unfold clamp.
  case_test; bool_to_prop; [lia|]. case_test; bool_to_prop; lia.
Qed.

(** The camera image.  As long as three times the width fits 32 bits, a
    tick never writes outside of the data and publishes an image of
    [3 * width * height] bytes in which each pixel is three bytes within the
    noise amplitude of the gradient that scrolls with the sequence number. *)
Theorem camera_image width height amp seed seq :
  0 <= width -> width * 3 < 2 ^ 32 -> 0 <= height < 2 ^ 32 -> amp < 2 ^ 30 ->
  exists img, camera_tick width height amp seed seq = Ok img /\
    img.(step) = 3 * width /\ img.(Sensors.height) = height /\ img.(Sensors.width) = width /\
    Z.of_nat (length img.(pixels)) = 3 * width * height /\
    forall x y, 0 <= x < width -> 0 <= y < height ->
    exists r g b, slice (Z.to_nat (3 * (y * width + x))) 3 img.(pixels) = [z2b r; z2b g; z2b b] /\
      0 <= r <= 255 /\ 0 <= g <= 255 /\ 0 <= b <= 255 /\
      Z.abs (r - (x + (seq &&& 0xFF)) mod 256) <= Z.max 0 amp /\
      Z.abs (g - (y + (seq &&& 0xFF)) mod 256) <= Z.max 0 amp /\
      Z.abs (b - (x + y) mod 256) <= Z.max 0 amp.
Proof.
  intros Hw0 Hw Hh Ha. unfold camera_tick. rewrite (wrap_small 32 (width * 3)) by (unfold is_uint; lia).
  set (rng := _ ^^^ _). set (phase := seq &&& 0xFF).
  destruct (image_loop_ok width amp phase (conj Hw0 Hw) Ha (Z.to_nat height) 0 []
              (replicate (Z.to_nat (width * 3 * height)) (z2b 0)) rng) as (out & rng' & E & Hl & Hrows);
    [lia|lia|cbn; lia|rewrite length_replicate; nia|].
  cbn [app] in E. rewrite E. cbn [mbind outcome_bind fst]. eexists. split; [done|].
  cbn [step Sensors.height Sensors.width pixels]. do 3 (split; [lia|]). split; [rewrite Hl; nia|].
  intros x y Hx Hy. destruct (Hrows (Z.to_nat y)) as [_ Hrow]; [lia|].
  destruct (Hrow (Z.to_nat x)) as (n & Hn & Hs); [lia|]. rewrite !Z2Nat.id, !Z.add_0_l in Hs by lia.
  assert (slice (Z.to_nat (3 * (y * width + x))) 3 out = pixel phase x y n) as ->.
  { rewrite <- Hs. unfold slice. rewrite skipn_firstn_comm, drop_drop, take_take. f_equal; [lia|]. f_equal. nia. }
  unfold pixel.
  pose proof (channel_close amp (x + phase) n Hn) as [H1 H2].
  pose proof (channel_close amp (y + phase) n Hn) as [H3 H4].
  pose proof (channel_close amp (x + y) n Hn) as [H5 H6].
  do 3 eexists. by do 6 (split; [done|]).
Qed.

Lemma camera_image_witness :
  exists img, camera_tick 4 3 8 42 7 = Ok img /\ Z.of_nat (length img.(pixels)) = 36.
Proof.
  destruct (camera_image 4 3 8 42 7) as (img & H1 & _ & _ & _ & H2 & _);
    [discriminate|reflexivity|split; [discriminate|reflexivity]|reflexivity|].
  exists img. split; [exact H1|exact H2].
Defined.

(** Three times a width of 1431655766 wraps to 2: the buffer has two bytes
    for each row and the first pixel is written outside of it. *)
Lemma camera_step_wraps amp seed seq : amp <= 0 -> camera_tick 1431655766 1 amp seed seq = OutOfBounds.
Proof.
  intros Ha. unfold camera_tick. change (u32 (1431655766 * 3)) with 2. change (Z.to_nat (2 * 1)) with 2%nat.
  change (Z.to_nat 1) with 1%nat. cbn [image_loop].
  replace (Z.to_nat 1431655766) with (S (Z.to_nat 1431655765)) by lia.
  generalize (Z.to_nat 1431655765) as n. intros n. cbn [row_loop fst snd]. unfold pixel_noise.
  rewrite (proj2 (Z.ltb_ge _ _)) by lia. reflexivity.
Qed.

(** ** The point cloud *)

Lemma lidar_loop_ok {G} (normal : double -> G -> double * G) sin cos n i num sigma base out rest g :
  0 <= i -> Z.of_nat (length out) = i * 12 -> length rest = (12 * n)%nat ->
  exists out' g', lidar_loop normal sin cos n i num sigma base (out ++ rest, g) = Ok (out ++ out', g') /\
    length out' = (12 * n)%nat.
Proof.
  revert i out rest g. induction n as [|n IH]; intros i out rest g Hi Ho Hr; cbn [lidar_loop].
  - destruct rest; [|done]. by exists [], g.
  - cbn [fst snd]. destruct (noise normal sigma g) as [n1 g1]. destruct (noise normal sigma g1) as [n2 g2].
    match goal with |- context [store _ ?p _] => set (pt := p) end.
    assert (length pt = 12%nat) as Hpt by (subst pt; unfold point_bytes; by rewrite !length_app, !length_le_bytes).
    clearbody pt.
    replace (out ++ rest) with (out ++ take 12 rest ++ drop 12 rest) by (by rewrite take_drop).
    rewrite (store_mid out (take 12 rest)) by (rewrite ?length_take; lia).
    cbn [mbind outcome_bind]. rewrite app_assoc.
    destruct (IH (i + 1) (out ++ pt) (drop 12 rest) g2) as (out' & g' & -> & Hl);
      [lia|rewrite length_app; lia|rewrite length_drop; lia|].
    exists (pt ++ out'), g'. rewrite app_assoc. split; [done|]. rewrite length_app. lia.
Qed.

(** The point cloud has twelve bytes for each point when the size fits 32 bits. *)
Theorem lidar_points {G} (normal : double -> G -> double * G) sin cos num sigma seq (g : G) :
  0 <= num -> 12 * num < 2 ^ 32 ->
  exists pc g', lidar_tick normal sin cos num sigma seq g = Ok (pc, g') /\
    pc.(pc_width) = num /\ pc.(row_step) = 12 * num /\ Z.of_nat (length pc.(points)) = 12 * num.
Proof.
  intros H0 H1. unfold lidar_tick. rewrite (wrap_small 32 num) by (unfold is_uint; lia).
  rewrite (wrap_small 32 (12 * num)) by (unfold is_uint; lia).
  destruct (lidar_loop_ok normal sin cos (Z.to_nat num) 0 num sigma
    (d_add (d_of_Z 5) (d_mul (d_lit 1 2) (sin (d_mul (d_of_Z seq) (d_lit 5 100))))) []
    (replicate (Z.to_nat (12 * num)) (z2b 0)) g) as (out & g' & E & Hl); [lia|cbn; lia|rewrite length_replicate; lia|].
  cbn [app] in E. rewrite E. cbn [mbind outcome_bind fst snd]. do 2 eexists. split; [done|].
  cbn [pc_width row_step points]. repeat split; lia.
Qed.

End Sensors.
