(* ===== verification/CanBus.v ===== *)
(** * The CAN stream ([src/sensors/can_publisher.cpp] and the reader of [src/scenario/scenario_runner.cpp])

    The frames the CAN publisher writes to the bus, with a sequence number and
    a time stamp behind the signal, and the loop of the scenario runner that
    reads them and updates the metrics of the stream.  Sockets are their
    results: what [socket], [bind] and [read] return is an event.

    Results: the reader gets back the number and the time stamp of every
    frame, measures the elapsed microseconds also when the 32-bit clock wraps
    around, and counts one gap for every interruption of the sequence unless
    it is a multiple of 65536 frames long. *)

From S2P Require Export Sensors Evaluation.

Module CanBus.
Import Sensors.

Record can_frame := mkCanFrame { can_id : Z; can_dlc : Z; data : list byte }.

Section Publisher.
Context {G : Type} (normal : double -> G -> double * G) (sin : double -> double).
(** The byte order of the host, for [memcpy] of a 16-bit number. *)
Context (little : bool).

Definition memcpy16 (v : Z) : list byte := if little then le_bytes 2 v else rev (le_bytes 2 v).

(** [static_cast<uint16_t>] and [static_cast<int16_t>] of a [double]. *)
Definition cast_uint16 (x : double) : outcome Z :=
  match d_trunc x with
  | Some z => if (0 <=? z) && (z <? 2 ^ 16) then Ok z else OutOfBounds
  | None => OutOfBounds
  end.
Definition cast_int16 (x : double) : outcome Z :=
  match d_trunc x with
  | Some z => if (- 2 ^ 15 <=? z) && (z <? 2 ^ 15) then Ok z else OutOfBounds
  | None => OutOfBounds
  end.
Definition cast_uint8 (x : double) : outcome Z :=
  match d_trunc x with
  | Some z => if (0 <=? z) && (z <? 2 ^ 8) then Ok z else OutOfBounds
  | None => OutOfBounds
  end.

(** [std::max(a, b)] and [std::min(a, b)]. *)
Definition d_max (a b : double) : double := if d_lt a b then b else a.
Definition d_min (a b : double) : double := if d_lt b a then b else a.

(** Identifier and first two bytes of the frame. *)
Definition can_signal (t : double) (seq : Z) (g : G) : outcome (Z * list byte * G) :=
  match seq mod 3 with
  | 0 =>
    let '(n, g) := noise normal (d_of_Z 20) g in
    speed ← cast_uint16 (d_abs (d_add (d_mul (d_of_Z 2000) (d_add d_one (sin (d_mul t (d_lit 1 2))))) n));
    Ok (0x100, memcpy16 speed, g)
  | 1 =>
    let '(n, g) := noise normal (d_of_Z 5) g in
    angle ← cast_int16 (d_add (d_mul (d_of_Z 500) (sin (d_mul t (d_lit 3 10)))) n);
    Ok (0x200, memcpy16 angle, g)
  | _ =>
    let '(n, g) := noise normal (d_of_Z 4) g in
    throttle ← cast_uint8 (d_min (d_of_Z 255)
      (d_max d_zero (d_add (d_add (d_of_Z 128) (d_mul (d_of_Z 100) (sin (d_mul t (d_lit 2 10))))) n)));
    Ok (0x300, [z2b throttle; z2b 0], g)
  end.

(** [on_tick]; [clock_us] is the monotonic clock in microseconds. *)
Definition can_tick (b : SyntheticPublisherBase G) (clock_us : Z) (seq : Z) (g : G) : outcome (can_frame * G) :=
  res ← can_signal (tick_time b seq) seq g;
  let '(id, signal, g) := (res : Z * list byte * G) in
  let seq16 := u16 (seq &&& 0xFFFF) in
  let ts_us := u32 (clock_us &&& 0xFFFFFFFF) in
  Ok ({| can_id := id; can_dlc := 8;
         data := signal ++
           [z2b (seq16 &&& 0xFF); z2b ((seq16 >>> 8) &&& 0xFF)] ++
           [z2b (ts_us &&& 0xFF); z2b ((ts_us >>> 8) &&& 0xFF); z2b ((ts_us >>> 16) &&& 0xFF);
            z2b ((ts_us >>> 24) &&& 0xFF)] |}, g).

(** [on_tick] of a publisher with the socket [sock]: nothing without one. *)
Definition on_tick (sock : Z) (b : SyntheticPublisherBase G) (clock_us : Z) (seq : Z) (g : G) :
    outcome (option can_frame * G) :=
  if sock <? 0 then Ok (None, g)
  else res ← can_tick b clock_us seq g; Ok (Some res.1, res.2).

End Publisher.

(** [open_socket]: the socket kept, and the descriptors closed.  [fd] is the
    result of [socket]; the others tell whether the interface was found and
    [bind] succeeded. *)
Definition open_socket (fd : Z) (found bound : bool) : Z * list Z :=
  if fd <? 0 then (fd, [])
  else if negb found then (-1, [fd])
  else if negb bound then (-1, [fd])
  else (fd, []).

(** What the destructor closes. *)
Definition close_socket (sock : Z) : list Z := if 0 <=? sock then [sock] else [].

(** An opened socket is closed once, by [open_socket] or by the destructor. *)
Lemma socket_closed fd found bound :
  let r := open_socket fd found bound in r.2 ++ close_socket r.1 = if fd <? 0 then [] else [fd].
Proof.
  unfold open_socket, close_socket. case_test; cbn [fst snd].
  - bool_to_prop. by rewrite (proj2 (Z.leb_gt _ _)).
  - bool_to_prop. destruct found, bound; cbn; rewrite ?(proj2 (Z.leb_le 0 fd)) by lia; done.
Qed.

(** ** The reader *)

(** [ifr_name]: at most [IFNAMSIZ - 1] characters. *)
Definition ifr_name (ifname : string) : string := String.substring 0 15 ifname.

(** The descriptor of the scenario runner, and the descriptors it has closed. *)
Record reader_socket := mkReaderSocket { can_fd_ : Z; closed_fds : list Z }.

(** The start of [can_reader_loop]: the result of [socket], the interfaces
    that exist, and whether [bind] succeeds.  True when the loop is entered. *)
Definition open_reader (fd : Z) (found : string -> bool) (bound : bool) (ifname : string) (s : reader_socket) :
    reader_socket * bool :=
  if fd <? 0 then (s, false)
  else if negb (found (ifr_name ifname)) then (mkReaderSocket (-1) (s.(closed_fds) ++ [fd]), false)
  else if negb bound then (mkReaderSocket (-1) (s.(closed_fds) ++ [fd]), false)
  else (mkReaderSocket fd s.(closed_fds), true).

(** The end of [stop_can_reader], when the thread has been joined. *)
Definition close_reader (s : reader_socket) : reader_socket :=
  if 0 <=? s.(can_fd_) then mkReaderSocket (-1) (s.(closed_fds) ++ [s.(can_fd_)]) else s.

(** However the set-up ends, the descriptor is closed once. *)
Lemma reader_socket_closed fd found bound ifname s :
  s.(can_fd_) = -1 ->
  let s' := close_reader (open_reader fd found bound ifname s).1 in
  s'.(can_fd_) = -1 /\ s'.(closed_fds) = s.(closed_fds) ++ (if fd <? 0 then [] else [fd]).
Proof.
  destruct s as [cur cl]. cbn [can_fd_ closed_fds]. intros ->. unfold open_reader, close_reader. destruct (fd <? 0) eqn:E; bool_to_prop; cbn [fst].
  - cbn. by rewrite app_nil_r.
  - destruct (found _); cbn [negb]; [destruct bound|]; cbn [negb fst can_fd_ closed_fds]; try done.
    by rewrite (proj2 (Z.leb_le 0 fd)) by lia.
Qed.

(** The local variables of [can_reader_loop]. *)
Record CanReader := mkCanReader { have_prev_seq : bool; prev_seq : Z; frames : Z }.

Definition new_reader : CanReader := {| have_prev_seq := false; prev_seq := 0; frames := 0 |}.

(** The 16-byte [struct can_frame]. *)
Definition frame_size : Z := 16.

Definition frame_seq (f : can_frame) : outcome Z :=
  d2 ← rd f.(data) 2; d3 ← rd f.(data) 3; Ok (u16 (d2 ||| (d3 <<< 8))).

Definition frame_sent_us (f : can_frame) : outcome Z :=
  d4 ← rd f.(data) 4; d5 ← rd f.(data) 5; d6 ← rd f.(data) 6; d7 ← rd f.(data) 7;
  Ok (d4 ||| u32 (d5 <<< 8) ||| u32 (d6 <<< 16) ||| u32 (d7 <<< 24)).

(** The body of the loop for a [read] that returned [n] bytes, with the two
    clocks at that time.  A negative [n] is an error or a time-out. *)
Definition on_read (n : Z) (f : can_frame) (clock_us : Z) (arrival_s : double) (r : CanReader)
    (m : Evaluation.StreamMetrics) : outcome (CanReader * Evaluation.StreamMetrics) :=
  if n <? 0 then Ok (r, m)
  else if n <? frame_size then Ok (r, m)
  else
    seq ← frame_seq f;
    sent_us ← frame_sent_us f;
    let now_us := u32 (clock_us &&& 0xFFFFFFFF) in
    let latency_us := u32 (now_us - sent_us) in
    let latency_ms := d_div (d_of_Z latency_us) (d_of_Z 1000) in
    let gap := r.(have_prev_seq) && negb (seq =? u16 (r.(prev_seq) + 1)) in
    Ok ({| have_prev_seq := true; prev_seq := seq; frames := u64 (r.(frames) + 1) |},
        Evaluation.record latency_ms arrival_s gap m).

(** What the loop sees: the result of [read] and the two clocks. *)
Record read_event := mkRead { n_read : Z; frame : can_frame; now_us : Z; arrival : double }.

Fixpoint can_reader_loop (events : list read_event) (r : CanReader) (m : Evaluation.StreamMetrics) :
    outcome (CanReader * Evaluation.StreamMetrics) :=
  match events with
  | [] => Ok (r, m)
  | e :: events =>
    res ← on_read e.(n_read) e.(frame) e.(now_us) e.(arrival) r m;
    can_reader_loop events res.1 res.2
  end.

(** ** Lemmas *)

Lemma rd_suffix pre suf n i : length pre = n -> rd (pre ++ suf) (n + i) = rd suf i.
Proof. apply rd_app_r. Qed.

(** The reader's fields are the publisher's. *)
Lemma decode_tick {G} (normal : double -> G -> double * G) sin little b clock_us seq g f g' :
  can_tick normal sin little b clock_us seq g = Ok (f, g') ->
  length f.(data) = 8%nat /\ frame_seq f = Ok (u16 seq) /\ frame_sent_us f = Ok (u32 clock_us).
Proof.
  unfold can_tick. destruct (can_signal _ _ _ _ _ _) as [[[id signal] g1]| |] eqn:E; cbn [mbind outcome_bind]; try done.
  cbv zeta. rewrite le_bytes_4, (le_bytes_2 (u16 _)). intros Heq.
  match type of Heq with Ok (?F, _) = _ => assert (f = F) as -> by congruence end. clear Heq. cbn [data].
  assert (length signal = 2%nat) as Hs.
  { revert E. unfold can_signal, memcpy16. destruct (seq mod 3) as [|[]|]; destruct (noise normal _ g);
      (match goal with |- context [cast_uint16 ?x] => destruct (cast_uint16 x)
       | |- context [cast_int16 ?x] => destruct (cast_int16 x)
       | |- context [cast_uint8 ?x] => destruct (cast_uint8 x) end); cbn [mbind outcome_bind]; try done;
      intros [= <- <- <-]; try done; destruct little; by rewrite ?length_rev, ?length_le_bytes. }
  split; [by rewrite !length_app, !length_le_bytes, Hs|].
  assert (u16 (seq &&& 0xFFFF) = u16 seq) as Eseq by (change 0xFFFF with (2 ^ 16 - 1); by rewrite land_mask, wrap_wrap).
  assert (u32 (clock_us &&& 0xFFFFFFFF) = u32 clock_us) as Eus
    by (change 0xFFFFFFFF with (2 ^ 32 - 1); by rewrite land_mask, wrap_wrap).
  rewrite Eseq, Eus. split.
  - unfold frame_seq. rewrite (rd_le_2_spec _ 2). cbn [data]. rewrite rd_le_mid by (done || apply length_le_bytes).
    by rewrite (le_value_field 2 16) by (done || apply wrap_range; lia).
  - unfold frame_sent_us. rewrite (rd_le_4_spec _ 4). cbn [data]. rewrite app_assoc. rewrite <- (app_nil_r (le_bytes 4 _)).
    rewrite rd_le_mid by (rewrite ?length_app, ?length_le_bytes, ?Hs; done).
    by rewrite (le_value_field 4 32) by (done || apply wrap_range; lia).
Qed.

(** ** The stream as it was published *)

Section Stream.
Context {G : Type} (normal : double -> G -> double * G) (sin : double -> double) (little : bool)
        (b : SyntheticPublisherBase G).

(** An event with nothing to read, or a frame of the publisher: the tick it
    was written at and the clock at that time. *)
Definition observes (e : read_event) (o : option (Z * Z)) : Prop :=
  match o with
  | None => e.(n_read) < frame_size
  | Some (seq, sent) =>
    frame_size <= e.(n_read) /\ exists g g', can_tick normal sin little b sent seq g = Ok (e.(frame), g')
  end.

(** The elapsed time that is measured, in milliseconds. *)
Definition elapsed_ms (now sent : Z) : double := d_div (d_of_Z ((now - sent) mod 2 ^ 32)) (d_of_Z 1000).

Fixpoint measured (events : list read_event) (obs : list (option (Z * Z))) : list double :=
  match events, obs with
  | e :: events, Some (_, sent) :: obs => elapsed_ms e.(now_us) sent :: measured events obs
  | _ :: events, None :: obs => measured events obs
  | _, _ => []
  end.

(** Interruptions of the sequence after [prev]. *)
Fixpoint interruptions (prev : option Z) (seqs : list Z) : Z :=
  match seqs with
  | [] => 0
  | s :: seqs =>
    (match prev with Some p => if decide (s = p + 1) then 0 else 1 | None => 0 end) + interruptions (Some s) seqs
  end.

(** From one frame to the next, at most 65536 ticks pass. *)
Fixpoint jumps_ok (prev : option Z) (seqs : list Z) : Prop :=
  match seqs with
  | [] => True
  | s :: seqs => (match prev with Some p => p < s <= p + 65536 | None => True end) /\ jumps_ok (Some s) seqs
  end.

Lemma wrap_succ_eq p s : p < s <= p + 65536 -> (u16 s =? u16 (u16 p + 1)) = bool_decide (s = p + 1).
Proof.
  intros H. unfold wrap. rewrite Z.add_mod_idemp_l by lia.
  case_bool_decide as E; [subst; apply Z.eqb_refl|]. apply Z.eqb_neq. intros Hm.
  assert ((s - (p + 1)) mod 2 ^ 16 = 0) as H0 by (rewrite Zminus_mod, Hm, Z.sub_diag; done).
  rewrite Z.mod_small in H0 by lia. lia.
Qed.

Lemma u64_add a k : u64 (u64 a + k) = u64 (a + k).
Proof. unfold wrap. by rewrite Z.add_mod_idemp_l. Qed.

(** The numbers of the frames that arrived. *)
Definition arrived (obs : list (option (Z * Z))) : list Z := map fst (omap id obs).

Lemma on_read_ok e o r m prev :
  observes e o ->
  (match prev with Some p => r.(have_prev_seq) = true /\ r.(prev_seq) = u16 p | None => r.(have_prev_seq) = false end) ->
  match o with
  | None => on_read e.(n_read) e.(frame) e.(now_us) e.(arrival) r m = Ok (r, m)
  | Some (seq, sent) =>
    match prev with Some p => p < seq <= p + 65536 | None => True end ->
    exists r', on_read e.(n_read) e.(frame) e.(now_us) e.(arrival) r m =
      Ok (r', Evaluation.record (elapsed_ms e.(now_us) sent) e.(arrival)
                (match prev with Some p => negb (bool_decide (seq = p + 1)) | None => false end) m) /\
      r'.(have_prev_seq) = true /\ r'.(prev_seq) = u16 seq
  end.
Proof.
  intros Ho Hp. unfold on_read. destruct o as [[seq sent]|]; cbn [observes] in Ho.
  - destruct Ho as (Hn & g & g' & Ht). unfold frame_size in *. intros Hj.
    rewrite (proj2 (Z.ltb_ge _ 0)), (proj2 (Z.ltb_ge _ 16)) by lia.
    destruct (decode_tick _ _ _ _ _ _ _ _ _ Ht) as (_ & -> & ->). cbn [mbind outcome_bind]. cbv zeta.
    exists {| have_prev_seq := true; prev_seq := u16 seq; frames := u64 (r.(frames) + 1) |}.
    split; [|by split]. do 3 f_equal.
    + unfold elapsed_ms. do 2 f_equal. change 0xFFFFFFFF with (2 ^ 32 - 1). rewrite land_mask by lia.
      unfold wrap. by rewrite Z.mod_mod, <- Zminus_mod by lia.
    + destruct prev as [p|]; [|by rewrite Hp]. destruct Hp as [-> ->]. by rewrite wrap_succ_eq.
  - rewrite (proj2 (Z.ltb_lt (n_read e) frame_size) Ho). by case_test.
Qed.

Lemma loop_ok events obs r m prev :
  Forall2 observes events obs ->
  (match prev with Some p => r.(have_prev_seq) = true /\ r.(prev_seq) = u16 p | None => r.(have_prev_seq) = false end) ->
  jumps_ok prev (arrived obs) ->
  is_uint 64 (Evaluation.received_ m) -> is_uint 64 (Evaluation.sequence_gaps_ m) ->
  exists r' m', can_reader_loop events r m = Ok (r', m') /\
    Evaluation.received_ m' = u64 (Evaluation.received_ m + Z.of_nat (length (arrived obs))) /\
    Evaluation.latencies_ms_ m' = Evaluation.latencies_ms_ m ++ measured events obs /\
    Evaluation.sequence_gaps_ m' = u64 (Evaluation.sequence_gaps_ m + interruptions prev (arrived obs)).
Proof.
  intros H. revert r m prev. induction H as [|e o events obs He H IH]; intros r m prev Hp Hj H1 H2; cbn [can_reader_loop].
  - exists r, m. cbn. rewrite !Z.add_0_r, !wrap_small, app_nil_r by done. done.
  - pose proof (on_read_ok e o r m prev He Hp) as Hr. destruct o as [[seq sent]|].
    + cbn [arrived omap list_omap id map fst] in Hj |- *. cbn [jumps_ok] in Hj. destruct Hj as [Hj1 Hj2].
      destruct (Hr Hj1) as (r1 & -> & Hr1). cbn [mbind outcome_bind fst snd].
      match goal with |- context [can_reader_loop events r1 ?x] => set (m1 := x) end.
      destruct (IH r1 m1 (Some seq) Hr1 Hj2) as (r' & m' & -> & E1 & E2 & E3).
      { by apply wrap_range. }
      { cbn. by case_test; [apply wrap_range|]. }
      exists r', m'. split; [done|]. subst m1. cbn in E1, E2, E3. cbn [measured interruptions length].
      split; [|split].
      * rewrite E1, u64_add. f_equal. unfold arrived. lia.
      * by rewrite E2, <- app_assoc.
      * rewrite E3. destruct prev as [p|]; cbn [negb]; [|f_equal; unfold arrived; lia].
        destruct (decide (seq = p + 1)) as [Ed|Ed]; [rewrite bool_decide_true by done|rewrite bool_decide_false by done];
          cbn [negb]; rewrite ?u64_add; f_equal; unfold arrived; lia.
    + rewrite Hr. cbn [mbind outcome_bind fst snd]. by apply IH.
Qed.

End Stream.

(** What the scenario runner measures on the CAN bus.  Reading frames of
    the publisher, with time-outs and errors in between, the reader never
    leaves a buffer; it counts the frames, records for each the microseconds
    between the two clocks, also when the 32-bit clock has wrapped around,
    and counts one gap for every interruption of the sequence, as long as no
    more than 65536 ticks pass between two frames. *)
Theorem can_stream_measured {G} (normal : double -> G -> double * G) sin little b events obs m :
  Forall2 (observes normal sin little b) events obs -> jumps_ok None (arrived obs) ->
  is_uint 64 (Evaluation.received_ m) -> is_uint 64 (Evaluation.sequence_gaps_ m) ->
  exists r' m', can_reader_loop events new_reader m = Ok (r', m') /\
    Evaluation.received_ m' = u64 (Evaluation.received_ m + Z.of_nat (length (arrived obs))) /\
    Evaluation.latencies_ms_ m' = Evaluation.latencies_ms_ m ++ measured events obs /\
    Evaluation.sequence_gaps_ m' = u64 (Evaluation.sequence_gaps_ m + interruptions None (arrived obs)).
Proof. intros H Hj H1 H2. by apply (loop_ok normal sin little b). Qed.

(** A generator without noise. *)
Definition quiet (sigma : double) (g : unit) : double * unit := (d_zero, g).
Definition flat (x : double) : double := d_zero.
Definition sample_base : SyntheticPublisherBase unit := new_base (fun _ => tt) (d_of_Z 100) 42 "sensor" "can".

Definition sample_frame (seq sent : Z) : can_frame :=
  match can_tick quiet flat true sample_base sent seq tt with
  | Ok (f, _) => f
  | _ => {| can_id := 0; can_dlc := 0; data := [] |}
  end.

(** Frames 65534, 65535, 65537 with the clock wrapping around before the last. *)
Definition sample_events : list read_event :=
  [mkRead 16 (sample_frame 65534 100) 350 d_zero; mkRead (-1) (sample_frame 0 0) 400 d_zero;
   mkRead 16 (sample_frame 65535 500) 800 d_one; mkRead 16 (sample_frame 65537 (2 ^ 32 - 100)) (2 ^ 32 + 400) d_one].

Lemma can_stream_measured_witness :
  exists r' m', can_reader_loop sample_events new_reader (Evaluation.new_metrics "can" (d_of_Z 100) d_one) = Ok (r', m') /\
    Evaluation.received_ m' = 3 /\ Evaluation.sequence_gaps_ m' = 1 /\
    Evaluation.latencies_ms_ m' = [d_lit 1 4; d_lit 3 10; d_lit 1 2].
Proof.
  destruct (can_stream_measured quiet flat true sample_base sample_events
    [Some (65534, 100); None; Some (65535, 500); Some (65537, 2 ^ 32 - 100)]
    (Evaluation.new_metrics "can" (d_of_Z 100) d_one)) as (r' & m' & H1 & H2 & H3 & H4).
  - repeat constructor; try discriminate; exists tt, tt; vm_compute; reflexivity.
  - cbn. lia.
  - split; [discriminate|reflexivity].
  - split; [discriminate|reflexivity].
  - exists r', m'. split; [exact H1|]. split; [exact H2|]. split; [exact H4|]. rewrite H3. vm_compute. reflexivity.
Defined.

End CanBus.
