(* ===== verification/Publishers.v ===== *)
(** * The sensor nodes ([src/sensors/*_publisher.cpp])

    The programs around the ticks of [Sensors.v] and [CanBus.v]: parameters
    with their defaults and conversions, the constructors, the timer that
    calls [on_tick], what is published, and [main].  The parameters of a node
    are the overrides given to it; how often and when the timer fires is the
    list of the time stamps.

    Results: a camera or lidar node with parameters in range publishes a
    well-formed message at every tick, numbered without gaps, and returns 0;
    the CAN publisher and the reader of the scenario runner together: what the
    runner measures is what happened between them on the bus. *)

From S2P Require Export CanBus.

Module Publishers.
Import Sensors.

(** Overrides of the parameters of [SyntheticPublisherBase]. *)
Record base_parameters := mkBaseParameters {
  p_rate_hz : option double;
  p_seed : option Z;
  p_frame_id : option string;
  p_topic : option string
}.

Definition no_overrides : base_parameters := mkBaseParameters None None None None.

(** [static_cast<int>] of a 64-bit integer. *)
Definition int_cast (z : Z) : Z := (z + 2 ^ 31) mod 2 ^ 32 - 2 ^ 31.

(** A message with its header. *)
Record message (M : Type) := mkMessage { stamp : Z; header_frame_id : string; body : M }.
Arguments mkMessage {M}. Arguments stamp {M}. Arguments header_frame_id {M}. Arguments body {M}.

(** A node: the base, the members of the class, the period of its timer. *)
Record node (G P : Type) := mkNode { base : SyntheticPublisherBase G; own : P; period_ns : Z }.
Arguments mkNode {G P}. Arguments base {G P}. Arguments own {G P}. Arguments period_ns {G P}.

Section Node.
Context {G : Type} (engine : Z -> G).

(** The constructor of the base. *)
Definition declare_base (p : base_parameters) : SyntheticPublisherBase G :=
  new_base engine (default (d_of_Z 10) p.(p_rate_hz)) (default 42 p.(p_seed)) (default "sensor"%string p.(p_frame_id))
    (default "sensor"%string p.(p_topic)).

(** The end of a constructor: [start]. *)
Definition start {P} (b : SyntheticPublisherBase G) (own : P) : outcome (node G P) :=
  ns ← period b; Ok (mkNode b own ns).

(** The callback of the timer. *)
Definition tick {P M} (on_tick : node G P -> Z -> Z -> G -> outcome (M * G)) (now : Z) (n : node G P) :
    outcome (M * node G P) :=
  res ← timer_tick (on_tick n now) n.(base);
  Ok (res.1, mkNode res.2 n.(own) n.(period_ns)).

(** [spin], with the times at which the timer fires. *)
Fixpoint spin {P M} (on_tick : node G P -> Z -> Z -> G -> outcome (M * G)) (times : list Z) (n : node G P) :
    outcome (list M * node G P) :=
  match times with
  | [] => Ok ([], n)
  | now :: times =>
    res ← tick on_tick now n;
    rest ← spin on_tick times res.2;
    Ok (res.1 :: rest.1, rest.2)
  end.

Definition with_header {P M} (n : node G P) (now : Z) (m : M) : message M := mkMessage now n.(base).(frame_id_) m.

Context (normal : double -> G -> double * G) (sin cos : double -> double).

(** ** The classes *)

Record Camera := mkCamera { width_ : Z; height_ : Z; noise_amp_ : Z }.

Definition new_camera (p : base_parameters) (width height noise_amplitude : option Z) : outcome (node G Camera) :=
  start (declare_base p)
    {| width_ := u32 (default 320 width); height_ := u32 (default 240 height);
       noise_amp_ := int_cast (default 8 noise_amplitude) |}.

Definition camera_on_tick (n : node G Camera) (now seq : Z) (g : G) : outcome (message Image * G) :=
  img ← camera_tick n.(own).(width_) n.(own).(height_) n.(own).(noise_amp_) n.(base).(seed_) seq;
  Ok (with_header n now img, g).

Record Lidar := mkLidar { num_points_ : Z; noise_sigma_ : double }.

Definition new_lidar (p : base_parameters) (num_points : option Z) (noise_sigma_m : option double) : outcome (node G Lidar) :=
  start (declare_base p)
    {| num_points_ := int_cast (default 16384 num_points); noise_sigma_ := default (d_lit 2 100) noise_sigma_m |}.

Definition lidar_on_tick (n : node G Lidar) (now seq : Z) (g : G) : outcome (message PointCloud2 * G) :=
  res ← lidar_tick normal sin cos n.(own).(num_points_) n.(own).(noise_sigma_) seq g;
  Ok (with_header n now res.1, res.2).

Record ImuSigmas := mkImuSigmas { accel_sigma_ : double; gyro_sigma_ : double }.

Definition new_imu (p : base_parameters) (accel_sigma gyro_sigma : option double) : outcome (node G ImuSigmas) :=
  start (declare_base p)
    {| accel_sigma_ := default (d_lit 5 100) accel_sigma; gyro_sigma_ := default (d_lit 1 100) gyro_sigma |}.

Definition imu_on_tick (n : node G ImuSigmas) (now seq : Z) (g : G) : outcome (message Imu * G) :=
  let res := imu_tick normal sin cos n.(base) n.(own).(accel_sigma_) n.(own).(gyro_sigma_) seq g in
  Ok (with_header n now res.1, res.2).

Record Gps := mkGps { origin_lat_ : double; origin_lon_ : double; radius_m_ : double; pos_sigma_m_ : double }.

Definition new_gps (p : base_parameters) (origin_lat origin_lon radius_m pos_sigma_m : option double) : outcome (node G Gps) :=
  start (declare_base p)
    {| origin_lat_ := default (d_lit 404237 10000) origin_lat; origin_lon_ := default (d_lit (-869212) 10000) origin_lon;
       radius_m_ := default (d_of_Z 50) radius_m; pos_sigma_m_ := default (d_lit 15 10) pos_sigma_m |}.

Definition gps_on_tick (n : node G Gps) (now seq : Z) (g : G) : outcome (message NavSatFix * G) :=
  let o := n.(own) in
  let res := gps_tick normal sin cos n.(base) o.(origin_lat_) o.(origin_lon_) o.(radius_m_) o.(pos_sigma_m_) seq g in
  Ok (with_header n now res.1, res.2).

(** The CAN publisher: its interface and its socket.  The answers of
    [socket], [ioctl] and [bind] are arguments; for it the time of a tick is
    the monotonic clock in microseconds. *)
Record Can := mkCan { ifname_ : string; sock_ : Z }.

Definition new_can (p : base_parameters) (can_interface : option string) (fd : Z) (found : string -> bool) (bound : bool) :
    outcome (node G Can) :=
  let ifname := default "vcan0"%string can_interface in
  start (declare_base p)
    {| ifname_ := ifname; sock_ := (CanBus.open_socket fd (found (CanBus.ifr_name ifname)) bound).1 |}.

Definition can_on_tick (little : bool) (n : node G Can) (clock_us seq : Z) (g : G) : outcome (option CanBus.can_frame * G) :=
  CanBus.on_tick normal sin little n.(own).(sock_) n.(base) clock_us seq g.

(** ** The programs: what is published, and the exit code *)

Definition camera_main (p : base_parameters) (width height noise_amplitude : option Z) (times : list Z) :
    outcome (list (message Image) * Z) :=
  n ← new_camera p width height noise_amplitude; res ← spin camera_on_tick times n; Ok (res.1, 0).

Definition lidar_main (p : base_parameters) (num_points : option Z) (noise_sigma_m : option double) (times : list Z) :
    outcome (list (message PointCloud2) * Z) :=
  n ← new_lidar p num_points noise_sigma_m; res ← spin lidar_on_tick times n; Ok (res.1, 0).

Definition imu_main (p : base_parameters) (accel_sigma gyro_sigma : option double) (times : list Z) :
    outcome (list (message Imu) * Z) :=
  n ← new_imu p accel_sigma gyro_sigma; res ← spin imu_on_tick times n; Ok (res.1, 0).

Definition gps_main (p : base_parameters) (origin_lat origin_lon radius_m pos_sigma_m : option double) (times : list Z) :
    outcome (list (message NavSatFix) * Z) :=
  n ← new_gps p origin_lat origin_lon radius_m pos_sigma_m; res ← spin gps_on_tick times n; Ok (res.1, 0).

(** With the descriptors that were closed, by the constructor and the
    destructor. *)
Definition can_main (little : bool) (p : base_parameters) (can_interface : option string) (fd : Z) (found : string -> bool)
    (bound : bool) (times : list Z) : outcome (list (option CanBus.can_frame) * list Z * Z) :=
  n ← new_can p can_interface fd found bound;
  res ← spin (can_on_tick little) times n;
  let closed := (CanBus.open_socket fd (found (CanBus.ifr_name n.(own).(ifname_))) bound).2 in
  Ok (res.1, closed ++ CanBus.close_socket res.2.(own).(sock_), 0).

End Node.

(** ** Ticks *)

Section Ticks.
Context {G P M : Type} (on_tick : node G P -> Z -> Z -> G -> outcome (M * G)).

(** The base as the constructor left it, up to generator and number. *)
Definition same (n n' : node G P) : Prop :=
  own n' = own n /\ period_ns n' = period_ns n /\ rate_hz_ (base n') = rate_hz_ (base n) /\
  seed_ (base n') = seed_ (base n) /\ frame_id_ (base n') = frame_id_ (base n).

Lemma tick_same now n m n' : tick on_tick now n = Ok (m, n') -> same n n' /\ seq_ (base n') = u64 (seq_ (base n) + 1).
Proof.
  unfold tick, timer_tick. destruct (on_tick n now _ _) as [[m1 g1]| |]; cbn [mbind outcome_bind fst snd]; try done.
  by intros [= <- <-].
Qed.

(** Each message of a run comes from a tick with its time and its number. *)
Lemma spin_ticks times n ms n' :
  is_uint 64 (seq_ (base n)) -> spin on_tick times n = Ok (ms, n') ->
  same n n' /\ length ms = length times /\
  forall k now m, times !! k = Some now -> ms !! k = Some m ->
    exists n1 g g', same n n1 /\ on_tick n1 now (u64 (seq_ (base n) + Z.of_nat k)) g = Ok (m, g').
Proof.
  revert n ms. induction times as [|now times IH]; intros n ms Hs; cbn [spin].
  { by intros [= <- <-]. }
  unfold tick, timer_tick at 1. destruct (on_tick n now _ _) as [[m1 g1]| |] eqn:E; cbn [mbind outcome_bind fst snd]; try done.
  match goal with |- context [spin on_tick times ?x] => set (n1 := x) end.
  assert (same n n1 /\ is_uint 64 (seq_ (base n1))) as [H1 Hs1] by (split; [done|apply wrap_range; lia]).
  destruct (spin on_tick times n1) as [[rest n2]| |] eqn:Er; cbn [mbind outcome_bind fst snd]; try done. intros [= <- <-].
  destruct (IH n1 rest Hs1 Er) as (H2 & Hl & Hk). split; [unfold same in *; intuition congruence|]. split; [cbn; by rewrite Hl|].
  intros [|k] t m; cbn [lookup list_lookup].
  - intros [= <-] [= <-]. rewrite Z.add_0_r, wrap_small by done. by exists n, (rng_ (base n)), g1.
  - intros Ht Hm. destruct (Hk k t m Ht Hm) as (n3 & g & g' & H3 & E3). exists n3, g, g'.
    split; [unfold same in *; intuition congruence|]. rewrite <- E3. f_equal. subst n1. cbn [base seq_].
    rewrite wrap_add_l by lia. f_equal. lia.
Qed.

(** A node whose ticks never fail keeps publishing. *)
Lemma spin_total (I : node G P -> Prop) times n :
  (forall n now seq g, I n -> exists m g', on_tick n now seq g = Ok (m, g')) ->
  (forall n n', same n n' -> I n -> I n') -> I n ->
  exists ms n', spin on_tick times n = Ok (ms, n').
Proof.
  intros Ht Hi. revert n. induction times as [|now times IH]; intros n Hn; cbn [spin]; [by exists [], n|].
  destruct (Ht n now (seq_ (base n)) (rng_ (base n)) Hn) as (m & g & E).
  assert (exists n1, tick on_tick now n = Ok (m, n1)) as [n1 E1] by (unfold tick, timer_tick; rewrite E; by eexists).
  rewrite E1. cbn [mbind outcome_bind fst snd]. destruct (tick_same now n m n1 E1) as [Hs _].
  destruct (IH n1 (Hi n n1 Hs Hn)) as (ms & n2 & ->). cbn [mbind outcome_bind fst snd]. by eexists _, _.
Qed.

End Ticks.

(** ** Camera and lidar *)

Section Images.
Context {G : Type} (engine : Z -> G).

(** What a publisher of images promises of a message with its number. *)
Definition image_ok (width height amp : Z) (frame : string) (now seq : Z) (m : message Image) : Prop :=
  m.(stamp) = now /\ m.(header_frame_id) = frame /\
  Sensors.width (body m) = width /\ Sensors.height (body m) = height /\
  Z.of_nat (length (pixels (body m))) = 3 * width * height /\
  forall x y, 0 <= x < width -> 0 <= y < height ->
    exists r g b, slice (Z.to_nat (3 * (y * width + x))) 3 (pixels (body m)) = [z2b r; z2b g; z2b b] /\
      Z.abs (r - (x + (seq &&& 0xFF)) mod 256) <= Z.max 0 amp /\
      Z.abs (g - (y + (seq &&& 0xFF)) mod 256) <= Z.max 0 amp /\
      Z.abs (b - (x + y) mod 256) <= Z.max 0 amp.

Record camera_range (c : Camera) : Prop := {
  cr_width : 0 <= c.(width_) /\ c.(width_) * 3 < 2 ^ 32;
  cr_height : 0 <= c.(height_) < 2 ^ 32;
  cr_amp : c.(noise_amp_) < 2 ^ 30
}.

Lemma camera_tick_ok (n : node G Camera) now seq g : camera_range n.(own) ->
  exists m, camera_on_tick n now seq g = Ok (m, g) /\
    image_ok n.(own).(width_) n.(own).(height_) n.(own).(noise_amp_) n.(base).(frame_id_) now seq m.
Proof.
  intros [[Hw Hw3] Hh Ha]. unfold camera_on_tick.
  destruct (camera_image n.(own).(width_) n.(own).(height_) n.(own).(noise_amp_) n.(base).(seed_) seq Hw Hw3 Hh Ha)
    as (img & -> & _ & H2 & H3 & H4 & H5).
  cbn [mbind outcome_bind]. eexists. split; [done|]. do 5 (split; [done|]). intros x y Hx Hy.
  destruct (H5 x y Hx Hy) as (r & g' & b & E & _ & _ & _ & E1 & E2 & E3). by exists r, g', b.
Qed.

(** The camera program.  With parameters in range it publishes an image for
    every tick, the [k]-th one with the time and the number of the tick, the
    size of the parameters and pixels within the noise of the gradient that
    scrolls with the number, and returns 0. *)
Theorem camera_publishes p width height amp times n :
  new_camera engine p width height amp = Ok n -> camera_range n.(own) ->
  exists ms, camera_main engine p width height amp times = Ok (ms, 0) /\ length ms = length times /\
    forall k now, times !! k = Some now ->
      exists m, ms !! k = Some m /\
        image_ok n.(own).(width_) n.(own).(height_) n.(own).(noise_amp_) (default "sensor"%string p.(p_frame_id)) now
          (u64 (Z.of_nat k)) m.
Proof.
  intros Hn Hr. unfold camera_main. rewrite Hn. cbn [mbind outcome_bind].
  assert (frame_id_ (base n) = default "sensor"%string p.(p_frame_id) /\ seq_ (base n) = 0) as [Hf Hs].
  { unfold new_camera, start in Hn. destruct (period _); [|done..]. by injection Hn as <-. }
  destruct (spin_total camera_on_tick (fun n => camera_range n.(own)) times n) as (ms & n' & E).
  { intros n0 now seq g H0. destruct (camera_tick_ok n0 now seq g H0) as (m & -> & _). by eexists _, _. }
  { intros n0 n1 (Ho & _) H0. by rewrite Ho. }
  { done. }
  destruct (spin_ticks camera_on_tick times n ms n') as (_ & Hl & Hk); [rewrite Hs; done|done|].
  rewrite E. exists ms. split; [done|]. split; [done|]. intros k now Hnow.
  destruct (lookup_lt_is_Some_2 ms k) as [m Hm]; [rewrite Hl; by eapply lookup_lt_Some|]. exists m. split; [done|].
  destruct (Hk k now m Hnow Hm) as (n1 & g & g' & (Ho & _ & _ & _ & Hfr) & Et).
  destruct (camera_tick_ok n1 now (u64 (seq_ (base n) + Z.of_nat k)) g) as (m1 & Et1 & Hok); [by rewrite Ho|].
  rewrite Et in Et1. injection Et1 as <- _. rewrite Ho, Hfr, Hf, Hs in Hok. exact Hok.
Qed.

End Images.

Lemma camera_publishes_witness :
  exists n ms, new_camera (fun z => z) no_overrides (Some 2) (Some 1) None = Ok n /\
    camera_main (fun z => z) no_overrides (Some 2) (Some 1) None [5; 7; 9] = Ok (ms, 0) /\ length ms = 3%nat.
Proof.
  destruct (camera_publishes (fun z : Z => z) no_overrides (Some 2) (Some 1) None [5; 7; 9]
    (mkNode (declare_base (fun z => z) no_overrides) (mkCamera 2 1 8) 100000000)) as (ms & H1 & H2 & _).
  - vm_compute. reflexivity.
  - constructor; [split; [discriminate|reflexivity]|split; [discriminate|reflexivity]|reflexivity].
  - exists (mkNode (declare_base (fun z => z) no_overrides) (mkCamera 2 1 8) 100000000), ms.
    split; [vm_compute; reflexivity|]. split; [exact H1|exact H2].
Defined.

Section Clouds.
Context {G : Type} (engine : Z -> G) (normal : double -> G -> double * G) (sin cos : double -> double).

(** The lidar program: a cloud of [num_points] points of twelve bytes for
    every tick. *)
Theorem lidar_publishes p num sigma times n :
  new_lidar engine p num sigma = Ok n -> 0 <= n.(own).(num_points_) -> 12 * n.(own).(num_points_) < 2 ^ 32 ->
  exists ms, lidar_main engine normal sin cos p num sigma times = Ok (ms, 0) /\ length ms = length times /\
    forall k now, times !! k = Some now ->
      exists m, ms !! k = Some m /\ m.(stamp) = now /\ (body m).(pc_width) = n.(own).(num_points_) /\
        Z.of_nat (length (body m).(points)) = 12 * n.(own).(num_points_).
Proof.
  intros Hn H0 H1. unfold lidar_main. rewrite Hn. cbn [mbind outcome_bind].
  assert (seq_ (base n) = 0) as Hs.
  { unfold new_lidar, start in Hn. destruct (period _); [|done..]. by injection Hn as <-. }
  assert (forall n0 now seq g, own n0 = own n -> exists m g', lidar_on_tick normal sin cos n0 now seq g = Ok (m, g') /\
    m.(stamp) = now /\ (body m).(pc_width) = n.(own).(num_points_) /\
    Z.of_nat (length (body m).(points)) = 12 * n.(own).(num_points_)) as Htick.
  { intros n0 now seq g Ho. unfold lidar_on_tick. rewrite Ho.
    destruct (lidar_points normal sin cos n.(own).(num_points_) n.(own).(noise_sigma_) seq g H0 H1) as (pc & g' & -> & E1 & _ & E2).
    by eexists _, _. }
  destruct (spin_total (lidar_on_tick normal sin cos) (fun n0 => own n0 = own n) times n) as (ms & n' & E).
  { intros n0 now seq g Ho. destruct (Htick n0 now seq g Ho) as (m & g' & -> & _). by eexists _, _. }
  { intros n0 n1 (Ho & _) Hi. by rewrite Ho. }
  { done. }
  destruct (spin_ticks (lidar_on_tick normal sin cos) times n ms n') as (_ & Hl & Hk); [rewrite Hs; done|done|].
  rewrite E. exists ms. split; [done|]. split; [done|]. intros k now Hnow.
  destruct (lookup_lt_is_Some_2 ms k) as [m Hm]; [rewrite Hl; by eapply lookup_lt_Some|]. exists m. split; [done|].
  destruct (Hk k now m Hnow Hm) as (n1 & g & g' & (Ho & _) & Et).
  destruct (Htick n1 now (u64 (seq_ (base n) + Z.of_nat k)) g Ho) as (m1 & g1 & Et1 & Hok).
  rewrite Et in Et1. by injection Et1 as <- _.
Qed.

End Clouds.

Lemma lidar_publishes_witness :
  exists ms, lidar_main (fun z => z) (fun _ g => (d_zero, g)) (fun _ => d_zero) (fun _ => d_one) no_overrides (Some 4) None [5; 7] = Ok (ms, 0) /\
    length ms = 2%nat.
Proof.
  destruct (lidar_publishes (fun z : Z => z) (fun _ g => (d_zero, g)) (fun _ => d_zero) (fun _ => d_one) no_overrides (Some 4) None [5; 7]
    (mkNode (declare_base (fun z => z) no_overrides) (mkLidar 4 (d_lit 2 100)) 100000000)) as (ms & H1 & H2 & _).
  - vm_compute. reflexivity.
  - discriminate.
  - reflexivity.
  - exists ms. split; [exact H1|exact H2].
Defined.

(** ** The CAN bus between publisher and runner *)

Section Bus.
Context {G : Type} (engine : Z -> G) (normal : double -> G -> double * G) (sin : double -> double) (little : bool).

(** A frame that reaches the reader: its number, and the two clocks then. *)
Record delivery := mkDelivery { d_seq : nat; d_now_us : Z; d_arrival : double }.

(** What the reader reads, of the frames on the bus. *)
Definition reads (frames : list (option CanBus.can_frame)) (ds : list delivery) : list CanBus.read_event :=
  omap (fun d => match frames !! d.(d_seq) with
                 | Some (Some f) => Some (CanBus.mkRead CanBus.frame_size f d.(d_now_us) d.(d_arrival))
                 | _ => None
                 end) ds.

Definition sent_at (times : list Z) (d : delivery) : Z := nth d.(d_seq) times 0.

Lemma can_tick_rate (b b' : SyntheticPublisherBase G) sent seq g : rate_hz_ b' = rate_hz_ b ->
  CanBus.can_tick normal sin little b' sent seq g = CanBus.can_tick normal sin little b sent seq g.
Proof. intros E. unfold CanBus.can_tick, tick_time. by rewrite E. Qed.

Lemma reads_observed (n n' : node G Can) times frames ds :
  0 <= n.(own).(sock_) -> seq_ (base n) = 0 -> Z.of_nat (length times) < 2 ^ 64 ->
  spin (can_on_tick normal sin little) times n = Ok (frames, n') ->
  Forall (fun d => (d.(d_seq) < length times)%nat) ds ->
  let obs := map (fun d => Some (Z.of_nat d.(d_seq), sent_at times d)) ds in
  Forall2 (CanBus.observes normal sin little n.(base)) (reads frames ds) obs /\
  CanBus.measured (reads frames ds) obs = map (fun d => CanBus.elapsed_ms d.(d_now_us) (sent_at times d)) ds.
Proof.
  intros Hsock Hs Hlt Hspin Hd. destruct (spin_ticks (can_on_tick normal sin little) times n frames n') as (_ & Hl & Hk); [rewrite Hs; done|done|].
  induction Hd as [|d ds Hd _ [IH1 IH2]]; [by split; [constructor|]|].
  destruct (lookup_lt_is_Some_2 times (d_seq d)) as [now Hnow]; [done|].
  destruct (lookup_lt_is_Some_2 frames (d_seq d)) as [m Hm]; [by rewrite Hl|].
  destruct (Hk _ _ _ Hnow Hm) as (n1 & g & g' & (Ho & _ & Hr & _) & Et).
  unfold can_on_tick, CanBus.on_tick in Et. rewrite Ho, (proj2 (Z.ltb_ge _ 0)) in Et by done.
  destruct (CanBus.can_tick _ _ _ _ _ _ _) as [[f g1]| |] eqn:Ec; cbn [mbind outcome_bind fst snd] in Et; try done.
  injection Et as <- <-. rewrite (can_tick_rate (base n)) in Ec by done.
  assert (sent_at times d = now) as Hnw by (by apply nth_lookup_Some).
  unfold reads in *. cbn [omap list_omap map]. rewrite Hm. cbn [CanBus.measured CanBus.now_us]. split; [|by rewrite IH2].
  constructor; [|exact IH1]. cbn [CanBus.observes CanBus.n_read CanBus.frame]. split; [done|]. exists g, g1.
  rewrite Hnw, <- Ec. f_equal. rewrite Hs, Z.add_0_l, wrap_small; [done|]. split; lia.
Qed.

(** C22: the CAN path from the publisher to the metrics of the runner.  The
    publisher runs with a socket; of its frames those in [ds] reach the
    reader, in order and with at most 65535 frames lost between two.  Then
    the reader counts them, measures for each the time from the tick that
    sent it to its reading (modulo the 32-bit microseconds), and counts a
    gap for every place where frames were lost. *)
Theorem can_link p can_interface fd found bound times n frames n' ds m :
  new_can engine p can_interface fd found bound = Ok n -> 0 <= n.(own).(sock_) ->
  Z.of_nat (length times) < 2 ^ 64 -> spin (can_on_tick normal sin little) times n = Ok (frames, n') ->
  Forall (fun d => (d.(d_seq) < length times)%nat) ds ->
  CanBus.jumps_ok None (map (fun d => Z.of_nat d.(d_seq)) ds) ->
  is_uint 64 (Evaluation.received_ m) -> is_uint 64 (Evaluation.sequence_gaps_ m) ->
  exists r' m', CanBus.can_reader_loop (reads frames ds) CanBus.new_reader m = Ok (r', m') /\
    Evaluation.received_ m' = u64 (Evaluation.received_ m + Z.of_nat (length ds)) /\
    Evaluation.latencies_ms_ m' =
      Evaluation.latencies_ms_ m ++ map (fun d => CanBus.elapsed_ms d.(d_now_us) (sent_at times d)) ds /\
    Evaluation.sequence_gaps_ m' =
      u64 (Evaluation.sequence_gaps_ m + CanBus.interruptions None (map (fun d => Z.of_nat d.(d_seq)) ds)).
Proof.
  intros Hn Hsock Hlt Hspin Hd Hj H1 H2.
  assert (seq_ (base n) = 0) as Hs.
  { unfold new_can, start in Hn. destruct (period _); [|done..]. by injection Hn as <-. }
  destruct (reads_observed n n' times frames ds Hsock Hs Hlt Hspin Hd) as [Ho Hm].
  set (obs := map (fun d => Some (Z.of_nat (d_seq d), sent_at times d)) ds) in *.
  assert (CanBus.arrived obs = map (fun d => Z.of_nat d.(d_seq)) ds) as Ha.
  { unfold CanBus.arrived, obs. clear. induction ds as [|d ds IH]; [done|]. cbn in *. by rewrite IH. }
  destruct (CanBus.can_stream_measured normal sin little (base n) (reads frames ds) obs m) as (r' & m' & E & E1 & E2 & E3);
    [done|by rewrite Ha|done|done|].
  exists r', m'. split; [exact E|]. rewrite E1, E2, E3, Ha, Hm, length_map. done.
Qed.

End Bus.

(** Four frames of which the third is lost. *)
Lemma can_link_witness :
  exists n frames n' r' m',
    new_can (fun _ => tt) no_overrides None 3 (fun _ => true) true = Ok n /\
    spin (can_on_tick CanBus.quiet CanBus.flat true) [100; 200; 300; 400] n = Ok (frames, n') /\
    CanBus.can_reader_loop (reads frames [mkDelivery 0 150 d_zero; mkDelivery 1 260 d_zero; mkDelivery 3 480 d_one])
      CanBus.new_reader (Evaluation.new_metrics "can" (d_of_Z 10) d_one) = Ok (r', m') /\
    Evaluation.received_ m' = 3 /\ Evaluation.sequence_gaps_ m' = 1.
Proof.
  assert (exists n frames n', new_can (fun _ => tt) no_overrides None 3 (fun _ => true) true = Ok n /\ sock_ (own n) = 3 /\
    spin (can_on_tick CanBus.quiet CanBus.flat true) [100; 200; 300; 400] n = Ok (frames, n')) as (n & frames & n' & Hn & Hs & Hr).
  { do 3 eexists. split; [vm_compute; reflexivity|]. split; [reflexivity|]. vm_compute. reflexivity. }
  destruct (can_link (fun _ => tt) CanBus.quiet CanBus.flat true no_overrides None 3 (fun _ => true) true [100; 200; 300; 400] n frames n'
    [mkDelivery 0 150 d_zero; mkDelivery 1 260 d_zero; mkDelivery 3 480 d_one]
    (Evaluation.new_metrics "can" (d_of_Z 10) d_one)) as (r' & m' & E & E1 & _ & E3).
  - exact Hn.
  - rewrite Hs. discriminate.
  - reflexivity.
  - exact Hr.
  - repeat constructor.
  - cbn. lia.
  - split; [discriminate|reflexivity].
  - split; [discriminate|reflexivity].
  - exists n, frames, n', r', m'. split; [exact Hn|]. split; [exact Hr|]. split; [exact E|]. split; [exact E1|exact E3].
Defined.

End Publishers.
