(* ===== verification/ScenarioRunner.v ===== *)
(** * The scenario runner ([src/scenario/scenario_runner.cpp], [scenario_runner.hpp])

    The node that runs a scenario: it starts a publisher and a subscription
    for every stream, sends arrivals through the fault engine of their stream,
    keeps the metrics and draws the verdict.  Parameters: the clocks, the
    generator and queue of the fault engines, process creation and waiting,
    the formatting of the JSON value, files and sockets.  The executor, the
    workers of the engines and the CAN thread are a sequence of events.

    Results: which streams get which fault rules; what the metrics of a
    stream count, with and without faults; that a delay lengthens
    no latency and only reorders them; the verdict and the report; and that no child process is
    left or signalled after it is gone. *)

From S2P Require Export FaultRuns CanBus Registry Report.

Module ScenarioRunner.
Import Scenario Evaluation.

Definition publisher_executable (stream : string) : string := (stream +:+ "_publisher")%string.

Definition to_fault_rule (f : FaultSpec) : Faults.FaultRule :=
  {| Faults.kind := Faults.fault_kind_from_string (FaultType_to_string f.(type));
     Faults.stream := f.(stream);
     Faults.start_s := f.(start_seconds);
     Faults.duration_s := f.(duration_seconds);
     Faults.delay_ms := param f "delay_ms" d_zero;
     Faults.drop_rate := param f "drop_rate" d_zero;
     Faults.bandwidth_kbps := param f "bandwidth_kbps" d_zero;
     Faults.corrupt_bits := Faults.corrupt_bits Faults.FaultRule_default;
     Faults.seed := Faults.seed Faults.FaultRule_default |}.

(** The members.  An engine comes with the index of the metrics its write
    callback records to; the CAN thread with the metrics it captured. *)
Record Runner (G : Type) := mkRunner {
  scenario_ : Scenario;
  ns_ : string;
  start_time_ : Z;
  subs_ : list (string * string);
  metrics_ : list StreamMetrics;
  child_pids_ : list Z;
  stream_faults_ : smap (nat * Faults.FaultEngine G);
  report_dir_ : string;
  can_reader_ : option (nat * CanBus.CanReader);
  metrics_port_ : Z;
  registry_ : Registry.Registry;
  exporter_ : option Registry.PrometheusExporter;
  can_socket_ : CanBus.reader_socket     (** [can_fd_], and the descriptors the reader has closed *)
}.
Arguments mkRunner {G}.
Arguments scenario_ {G}. Arguments ns_ {G}. Arguments start_time_ {G}. Arguments subs_ {G}.
Arguments metrics_ {G}. Arguments child_pids_ {G}. Arguments stream_faults_ {G}. Arguments report_dir_ {G}.
Arguments can_reader_ {G}. Arguments metrics_port_ {G}. Arguments registry_ {G}. Arguments exporter_ {G}.
Arguments can_socket_ {G}.

Section Runner.
Context {G : Type}.
Abbreviation Runner := (Runner G).
Abbreviation FaultEngine := (Faults.FaultEngine G).

Definition set_start_time t (r : Runner) : Runner :=
  mkRunner r.(scenario_) r.(ns_) t r.(subs_) r.(metrics_) r.(child_pids_) r.(stream_faults_) r.(report_dir_)
    r.(can_reader_) r.(metrics_port_) r.(registry_) r.(exporter_) r.(can_socket_).
Definition set_subs x (r : Runner) : Runner :=
  mkRunner r.(scenario_) r.(ns_) r.(start_time_) x r.(metrics_) r.(child_pids_) r.(stream_faults_) r.(report_dir_)
    r.(can_reader_) r.(metrics_port_) r.(registry_) r.(exporter_) r.(can_socket_).
Definition set_metrics x (r : Runner) : Runner :=
  mkRunner r.(scenario_) r.(ns_) r.(start_time_) r.(subs_) x r.(child_pids_) r.(stream_faults_) r.(report_dir_)
    r.(can_reader_) r.(metrics_port_) r.(registry_) r.(exporter_) r.(can_socket_).
Definition set_pids x (r : Runner) : Runner :=
  mkRunner r.(scenario_) r.(ns_) r.(start_time_) r.(subs_) r.(metrics_) x r.(stream_faults_) r.(report_dir_)
    r.(can_reader_) r.(metrics_port_) r.(registry_) r.(exporter_) r.(can_socket_).
Definition set_faults x (r : Runner) : Runner :=
  mkRunner r.(scenario_) r.(ns_) r.(start_time_) r.(subs_) r.(metrics_) r.(child_pids_) x r.(report_dir_)
    r.(can_reader_) r.(metrics_port_) r.(registry_) r.(exporter_) r.(can_socket_).
Definition set_can x (r : Runner) : Runner :=
  mkRunner r.(scenario_) r.(ns_) r.(start_time_) r.(subs_) r.(metrics_) r.(child_pids_) r.(stream_faults_)
    r.(report_dir_) x r.(metrics_port_) r.(registry_) r.(exporter_) r.(can_socket_).
Definition set_registry x (r : Runner) : Runner :=
  mkRunner r.(scenario_) r.(ns_) r.(start_time_) r.(subs_) r.(metrics_) r.(child_pids_) r.(stream_faults_)
    r.(report_dir_) r.(can_reader_) r.(metrics_port_) x r.(exporter_) r.(can_socket_).
Definition set_exporter x (r : Runner) : Runner :=
  mkRunner r.(scenario_) r.(ns_) r.(start_time_) r.(subs_) r.(metrics_) r.(child_pids_) r.(stream_faults_)
    r.(report_dir_) r.(can_reader_) r.(metrics_port_) r.(registry_) x r.(can_socket_).
Definition set_report_dir x (r : Runner) : Runner :=
  mkRunner r.(scenario_) r.(ns_) r.(start_time_) r.(subs_) r.(metrics_) r.(child_pids_) r.(stream_faults_)
    x r.(can_reader_) r.(metrics_port_) r.(registry_) r.(exporter_) r.(can_socket_).
Definition set_metrics_port x (r : Runner) : Runner :=
  mkRunner r.(scenario_) r.(ns_) r.(start_time_) r.(subs_) r.(metrics_) r.(child_pids_) r.(stream_faults_)
    r.(report_dir_) r.(can_reader_) x r.(registry_) r.(exporter_) r.(can_socket_).
Definition set_can_socket x (r : Runner) : Runner :=
  mkRunner r.(scenario_) r.(ns_) r.(start_time_) r.(subs_) r.(metrics_) r.(child_pids_) r.(stream_faults_)
    r.(report_dir_) r.(can_reader_) r.(metrics_port_) r.(registry_) r.(exporter_) x.

Definition construct (scenario : Scenario) (ns : string) (now : Z) : Runner :=
  {| scenario_ := scenario; ns_ := ns; start_time_ := now; subs_ := []; metrics_ := []; child_pids_ := [];
     stream_faults_ := []; report_dir_ := ""; can_reader_ := None; metrics_port_ := 0; registry_ := [];
     exporter_ := None; can_socket_ := CanBus.mkReaderSocket (-1) [] |}.

(** ** Recording *)

(** The byte order of the host, for the [memcpy] of doubles, and
    [Duration::seconds] of a difference in nanoseconds. *)
Context (little : bool) (seconds : Z -> double).

Definition memcpy_double (x : double) : list byte :=
  if little then le_bytes 8 (double_bits x) else rev (le_bytes 8 (double_bits x)).
Definition read_double (bs : list byte) : double :=
  double_of_bits (le_value (if little then bs else rev bs)).

(** The write callback of an engine. *)
Definition on_write (m : StreamMetrics) (buf : list byte) : StreamMetrics :=
  if (16 <=? length buf)%nat then
    Evaluation.record (read_double (slice 0 8 buf)) (read_double (slice 8 8 buf)) false m
  else m.

(** The calls of the callback since the engine was [e]. *)
Definition deliver (i : nat) (e e' : FaultEngine) (ms : list StreamMetrics) : list StreamMetrics :=
  alter (fun m => foldl on_write m (drop (length (Faults.written e)) (Faults.written e'))) i ms.

(** The index of the first metrics with the name. *)
Fixpoint metrics_for (stream : string) (ms : list StreamMetrics) : option nat :=
  match ms with
  | [] => None
  | m :: ms => if bool_decide (m.(name_) = stream) then Some 0%nat else S <$> metrics_for stream ms
  end.

Context (uniform_real : G -> double * G) (uniform_int : Z -> Z -> G -> Z * G)
        (clock : string -> nat -> double)
        (pop : list Faults.Delayed -> option (Faults.Delayed * list Faults.Delayed)).

(** [record]; [now1] and [now2] are the two readings of the clock. *)
Definition record (stream : string) (now1 now2 stamp : Z) (r : Runner) : outcome Runner :=
  let now_s := seconds (now1 - r.(start_time_)) in
  let latency_ms := d_mul (seconds (now2 - stamp)) (d_of_Z 1000) in
  match map_find stream r.(stream_faults_) with
  | Some (i, e) =>
    let buf := memcpy_double latency_ms ++ memcpy_double now_s in
    e' ← Faults.process uniform_real uniform_int (clock stream) buf now_s stream e;
    Ok (set_metrics (deliver i e e' r.(metrics_)) (set_faults (map_set stream (i, e') r.(stream_faults_)) r))
  | None =>
    match metrics_for stream r.(metrics_) with
    | Some i => Ok (set_metrics (alter (Evaluation.record latency_ms now_s false) i r.(metrics_)) r)
    | None => Ok r
    end
  end.

Definition record_direct (stream : string) (latency_ms arrival_s : double) (r : Runner) : Runner :=
  match metrics_for stream r.(metrics_) with
  | Some i => set_metrics (alter (Evaluation.record latency_ms arrival_s false) i r.(metrics_)) r
  | None => r
  end.

(** An iteration of the worker thread of an engine. *)
Definition worker (stream : string) (r : Runner) : outcome Runner :=
  match map_find stream r.(stream_faults_) with
  | Some (i, e) =>
    res ← Faults.worker_step (clock stream) pop e;
    let e' := default e res in
    Ok (set_metrics (deliver i e e' r.(metrics_)) (set_faults (map_set stream (i, e') r.(stream_faults_)) r))
  | None => Ok r
  end.

(** The set-up of the CAN thread: the result of [socket], the interfaces that
    exist, and whether [bind] succeeds.  The thread does it once, first, and ends
    when it fails. *)
Definition can_open (fd : Z) (found : string -> bool) (bound : bool) (r : Runner) : Runner :=
  match r.(can_reader_) with
  | Some _ => set_can_socket (CanBus.open_reader fd found bound "vcan0" r.(can_socket_)).1 r
  | None => r
  end.

(** An iteration of the CAN thread, once its socket is open. *)
Definition can_read (ev : CanBus.read_event) (r : Runner) : outcome Runner :=
  match r.(can_reader_) with
  | Some (i, reader) =>
    match r.(metrics_) !! i with
    | Some m =>
      res ← CanBus.on_read ev.(CanBus.n_read) ev.(CanBus.frame) ev.(CanBus.now_us) ev.(CanBus.arrival) reader m;
      Ok (set_metrics (<[i := res.2]> r.(metrics_)) (set_can (Some (i, res.1)) r))
    | None => OutOfBounds
    end
  | None => Ok r
  end.

(** ** Starting *)

(** The engine of a stream, when a fault names it. *)
Definition stream_rules (s : string) (faults : list FaultSpec) : list Faults.FaultRule :=
  map to_fault_rule (List.filter (fun f => bool_decide (f.(stream) = s)) faults).

(** Loops over the faults: [has_fault], then [add_rule]. *)
Definition has_fault (s : string) (faults : list FaultSpec) : bool :=
  existsb (fun f => bool_decide (f.(stream) = s)) faults.

Definition make_engine (g0 : G) (s : string) (faults : list FaultSpec) : FaultEngine :=
  foldl (fun e f => if bool_decide (f.(stream) = s) then Faults.add_rule (to_fault_rule f) e else e)
    (Faults.construct true g0) faults.

(** Assigning to a joinable thread ends the program. *)
Definition start_can_reader (stream : string) (r : Runner) : outcome Runner :=
  match metrics_for stream r.(metrics_) with
  | None => Ok r
  | Some i =>
    match r.(can_reader_) with
    | None => Ok (set_can (Some (i, CanBus.new_reader)) r)
    | Some _ => Throws "std::terminate"
    end
  end.

(** The thread is joined before its socket is closed. *)
Definition stop_can_reader (r : Runner) : Runner :=
  let r := set_can None r in
  set_can_socket (CanBus.close_reader r.(can_socket_)) r.

Definition subscribe_stream (s : StreamConfig) (r : Runner) : outcome Runner :=
  let topic := (r.(ns_) +:+ "/" +:+ s.(stream_name))%string in
  let sub ty := Ok (set_subs (r.(subs_) ++ [(topic, ty)]) r) in
  if bool_decide (s.(stream_name) = "lidar"%string) then sub "sensor_msgs/msg/PointCloud2"%string
  else if bool_decide (s.(stream_name) = "camera"%string) then sub "sensor_msgs/msg/Image"%string
  else if bool_decide (s.(stream_name) = "imu"%string) then sub "sensor_msgs/msg/Imu"%string
  else if bool_decide (s.(stream_name) = "gps"%string) then sub "sensor_msgs/msg/NavSatFix"%string
  else if bool_decide (s.(stream_name) = "can"%string) then start_can_reader s.(stream_name) r
  else Ok r.

(** [posix_spawnp] for the process with a number: a pid, or a failure. *)
Context (spawn : nat -> list string -> option Z).

Definition spawn_args (ns : string) (s : StreamConfig) : list string :=
  ["ros2"; "run"; "network_bridge"; publisher_executable s.(stream_name); "--ros-args";
   "-p"; "rate_hz:=" +:+ to_string_double s.(rate_hz); "-p"; "topic:=" +:+ ns +:+ "/" +:+ s.(stream_name);
   "-r"; "__ns:=" +:+ ns]%string.

Definition spawn_publisher (s : StreamConfig) (r : Runner) : Runner :=
  match spawn (length r.(metrics_)) (spawn_args r.(ns_) s) with
  | Some pid => set_pids (r.(child_pids_) ++ [pid]) r
  | None => r
  end.

(** One round of the loop of [start]; [emplace] keeps an existing engine. *)
Definition start_stream (g0 : G) (s : StreamConfig) (r : Runner) : outcome Runner :=
  let sc := r.(scenario_) in
  let i := length r.(metrics_) in
  let r := set_metrics (r.(metrics_) ++ [new_metrics s.(stream_name) s.(rate_hz) sc.(scenario_duration)]) r in
  let r :=
    if has_fault s.(stream_name) sc.(faults) then
      match map_find s.(stream_name) r.(stream_faults_) with
      | None => set_faults (map_set s.(stream_name) (i, make_engine g0 s.(stream_name) sc.(faults)) r.(stream_faults_)) r
      | Some _ => r
      end
    else r in
  r ← subscribe_stream s r;
  Ok (spawn_publisher s r).

Fixpoint start_streams (g0 : G) (l : list StreamConfig) (r : Runner) : outcome Runner :=
  match l with
  | [] => Ok r
  | s :: l => r ← start_stream g0 s r; start_streams g0 l r
  end.

(** The results of [socket], [bind] and [listen] for the exporter. *)
Context (fd : Z) (bind_ok listen_ok : bool).

Definition start_exporter (r : Runner) : outcome Runner :=
  if r.(metrics_port_) =? 0 then Ok r
  else
    let reg := Registry.set_help "sensorforge_msgs_per_sec" "Messages per second per sensor" r.(registry_) in
    let reg := Registry.set_help "sensorforge_latency_p99_ms" "p99 end-to-end latency (ms) per sensor" reg in
    res ← Registry.start fd bind_ok listen_ok (Registry.new_exporter r.(metrics_port_));
    Ok (set_exporter (if (res.1 : bool) then Some res.2 else None) (set_registry reg r)).

Definition start (now : Z) (g0 : G) (r : Runner) : outcome Runner :=
  let r := set_start_time now r in
  r ← start_streams g0 r.(scenario_).(streams) r;
  start_exporter r.

End Runner.

(** ** Metrics and the end *)

Definition get_or_zero (mm : MetricMap) (k : string) : double := default d_zero (mm !! k).

(** One round of the loop of [update_registry]. *)
Definition update_stream (m : StreamMetrics) (reg : Registry.Registry) : outcome Registry.Registry :=
  mm ← emit m ∅;
  let s := m.(name_) in
  let gauge name suffix reg := Registry.set_sensor_gauge name s (get_or_zero mm (s +:+ suffix)%string) reg in
  Ok (gauge "sensorforge_sequence_gaps"%string "_sequence_gaps"%string
     (gauge "sensorforge_queue_occupancy"%string "_received"%string
     (gauge "sensorforge_latency_p99_ms"%string "_latency_p99_ms"%string
     (gauge "sensorforge_latency_p50_ms"%string "_latency_p50_ms"%string
     (gauge "sensorforge_drop_rate_pct"%string "_drop_rate_pct"%string
     (gauge "sensorforge_msgs_per_sec"%string "_msgs_per_sec"%string reg)))))).

Fixpoint update_streams (ms : list StreamMetrics) (reg : Registry.Registry) : outcome Registry.Registry :=
  match ms with
  | [] => Ok reg
  | m :: ms => reg ← update_stream m reg; update_streams ms reg
  end.

(** The loop of [finish] that collects the metrics. *)
Fixpoint emit_all (ms : list StreamMetrics) (mm : MetricMap) : outcome MetricMap :=
  match ms with
  | [] => Ok mm
  | m :: ms => mm ← emit m mm; emit_all ms mm
  end.

(** System calls on child processes. *)
Inductive syscall :=
| SigInt (pid : Z)
| SigKill (pid : Z)
| WaitNoHang (pid : Z) (gone : bool)     (** the pid was reaped, or there is an error *)
| Wait (pid : Z).

(** One round of polling: what is still pending, and whether any is alive. *)
Fixpoint poll_round (gone : Z -> bool) (pending : list Z) : list Z * bool * list syscall :=
  match pending with
  | [] => ([], false, [])
  | pid :: rest =>
    let '(rest, alive, tr) := poll_round gone rest in
    if pid <=? 0 then (pid :: rest, alive, tr)
    else if gone pid then (-1 :: rest, alive, WaitNoHang pid true :: tr)
    else (pid :: rest, true, WaitNoHang pid false :: tr)
  end.

(** The rounds before the deadline, with the answers of the kernel in each. *)
Fixpoint poll (rounds : list (Z -> bool)) (pending : list Z) : list Z * list syscall :=
  match rounds with
  | [] => (pending, [])
  | gone :: rounds =>
    let '(pending, alive, tr) := poll_round gone pending in
    if negb alive then (pending, tr)
    else let '(pending, tr') := poll rounds pending in (pending, tr ++ tr')
  end.

Definition reap_children (rounds : list (Z -> bool)) (pids : list Z) : list syscall :=
  match pids with
  | [] => []
  | _ =>
    let '(pending, tr) := poll rounds pids in
    map SigInt (List.filter (fun pid => 0 <? pid) pids) ++ tr ++
    concat (map (fun pid => [SigKill pid; Wait pid]) (List.filter (fun pid => 0 <? pid) pending))
  end.

(** The destructor. *)
Definition destroy (rounds : list (Z -> bool)) {G} (r : Runner G) : Runner G * list syscall :=
  (set_pids [] (stop_can_reader r), reap_children rounds r.(child_pids_)).

Section Finish.
Context {G : Type} (little : bool) (pop : list Faults.Delayed -> option (Faults.Delayed * list Faults.Delayed)).

(** [flush] of every engine, in the order of the map. *)
Fixpoint flush_all (fs : smap (nat * Faults.FaultEngine G)) (ms : list StreamMetrics) :
    option (smap (nat * Faults.FaultEngine G) * list StreamMetrics) :=
  match fs with
  | [] => Some ([], ms)
  | (s, (i, e)) :: fs =>
    e' ← Faults.flush pop e;
    res ← flush_all fs (deliver little i e e' ms);
    Some ((s, (i, e')) :: res.1, res.2)
  end.

(** The time stamp of the report, the printer of JSON, and the file system:
    whether a file can be opened and whether its stream is good at the end. *)
Context (now : string) (dump : Report.json -> string) (opens good : string -> bool).

(** The files written: path and content. *)
Definition write_reports (r : Runner G) (result : ScenarioResult) (mm : MetricMap) :
    outcome (list (string * string)) :=
  if bool_decide (r.(report_dir_) = ""%string) then Ok []
  else
    rep ← Report.build_report now result mm (map stream_name r.(scenario_).(streams)) r.(scenario_).(scenario_duration);
    let base := (r.(report_dir_) +:+ "/" +:+ r.(scenario_).(Scenario.name))%string in
    let json := (base +:+ ".json")%string in
    let html := (base +:+ ".html")%string in
    let j := Report.write_json dump (opens json) (good json) rep in
    h ← Report.write_html (opens html) (good html) rep;
    Ok (match j.2 with Some c => [(json, c)] | None => [] end ++
        match h.2 with Some c => [(html, c)] | None => [] end).

(** [None] of the flush does not happen ([flush_total]). *)
Definition finish (rounds : list (Z -> bool)) (r : Runner G) :
    outcome (ScenarioResult * Runner G * list (string * string) * list syscall) :=
  let r := stop_can_reader r in
  let calls := reap_children rounds r.(child_pids_) in
  let r := set_pids [] r in
  match flush_all r.(stream_faults_) r.(metrics_) with
  | None => OutOfBounds
  | Some (fs, ms) =>
    let r := set_metrics ms (set_faults fs r) in
    mm ← emit_all r.(metrics_) ∅;
    let result := evaluate_all r.(scenario_).(Scenario.name) r.(scenario_).(assertions) mm in
    reg ← match r.(exporter_) with
          | None => Ok r.(registry_)
          | Some _ =>
            reg ← update_streams r.(metrics_) r.(registry_);
            Ok (Registry.add_counter
                  (if result.(scenario_passed) then "sensorforge_scenarios_passed_total"
                   else "sensorforge_scenarios_failed_total")%string d_one [] reg)
          end;
    let r := set_registry reg r in
    files ← write_reports r result mm;
    Ok (result, r, files, calls)
  end.

End Finish.

(** ** Runs *)

(** What happens between [start] and [finish]. *)
Inductive event :=
| Arrival (stream : string) (now1 now2 stamp : Z)
| Worker (stream : string)
| CanOpen (fd : Z) (found : string -> bool) (bound : bool)
| CanRead (ev : CanBus.read_event)
| Refresh.

Section Run.
Context {G : Type} (little : bool) (seconds : Z -> double)
        (uniform_real : G -> double * G) (uniform_int : Z -> Z -> G -> Z * G)
        (clock : string -> nat -> double)
        (pop : list Faults.Delayed -> option (Faults.Delayed * list Faults.Delayed)).

(** The timer of [start] refreshes the registry only when there is an exporter. *)
Definition refresh (r : Runner G) : outcome (Runner G) :=
  match r.(exporter_) with
  | None => Ok r
  | Some _ => reg ← update_streams r.(metrics_) r.(registry_); Ok (set_registry reg r)
  end.

Definition step (ev : event) (r : Runner G) : outcome (Runner G) :=
  match ev with
  | Arrival s now1 now2 stamp => record little seconds uniform_real uniform_int clock s now1 now2 stamp r
  | Worker s => worker little clock pop s r
  | CanOpen fd found bound => Ok (can_open fd found bound r)
  | CanRead ev => can_read ev r
  | Refresh => refresh r
  end.

Fixpoint run (evs : list event) (r : Runner G) : outcome (Runner G) :=
  match evs with
  | [] => Ok r
  | ev :: evs => r ← step ev r; run evs r
  end.

End Run.

(** ** Streams are independent *)

Lemma name_record l a g m : name_ (Evaluation.record l a g m) = name_ m.
Proof. done. Qed.

Lemma name_on_write little m buf : name_ (on_write little m buf) = name_ m.
Proof. unfold on_write. by case_test. Qed.

Lemma name_on_writes little bufs m : name_ (foldl (on_write little) m bufs) = name_ m.
Proof. revert m. induction bufs as [|b bufs IH]; intros m; cbn [foldl]; [done|]. by rewrite IH, name_on_write. Qed.

Lemma names_alter (f : StreamMetrics -> StreamMetrics) i ms :
  (forall m, name_ (f m) = name_ m) -> map name_ (alter f i ms) = map name_ ms.
Proof.
  intros Hf. revert i. induction ms as [|m ms IH]; intros [|i]; [done..| |]; cbn; [by rewrite Hf|].
  f_equal. apply IH.
Qed.

Lemma names_insert i m m' (ms : list StreamMetrics) :
  ms !! i = Some m -> name_ m' = name_ m -> map name_ (<[i := m']> ms) = map name_ ms.
Proof.
  intros H Hn. change (map name_ ?l) with (name_ <$> l). rewrite list_fmap_insert, Hn.
  apply list_insert_id. by rewrite list_lookup_fmap, H.
Qed.

Lemma metrics_for_spec stream ms i : metrics_for stream ms = Some i -> exists m, ms !! i = Some m /\ name_ m = stream.
Proof.
  revert i. induction ms as [|m ms IH]; intros i; cbn [metrics_for]; [done|]. case_bool_decide as E.
  - intros [= <-]. by exists m.
  - destruct (metrics_for stream ms) as [j|]; cbn; [|done]. intros [= <-]. by apply IH.
Qed.

Lemma metrics_for_some stream ms i m :
  NoDup (map name_ ms) -> ms !! i = Some m -> name_ m = stream -> metrics_for stream ms = Some i.
Proof.
  revert i. induction ms as [|m0 ms IH]; intros i Hnd Hi Hn; [done|]. cbn [map] in Hnd. inversion_clear Hnd as [|x y Hx Hnd'].
  cbn [metrics_for]. destruct i as [|i]; cbn in Hi.
  - injection Hi as ->. by rewrite bool_decide_true.
  - rewrite bool_decide_false, (IH i Hnd' Hi Hn); [done|]. intros E. apply Hx. rewrite E, <- Hn.
    rewrite list_elem_of_In. apply in_map. rewrite <- list_elem_of_In. by eapply list_elem_of_lookup_2.
Qed.

Section Streams.
Context {G : Type} (little : bool) (seconds : Z -> double)
        (uniform_real : G -> double * G) (uniform_int : Z -> Z -> G -> Z * G)
        (clock : string -> nat -> double)
        (pop : list Faults.Delayed -> option (Faults.Delayed * list Faults.Delayed)).

Abbreviation step := (step little seconds uniform_real uniform_int clock pop).
Abbreviation run := (run little seconds uniform_real uniform_int clock pop).

(** Names are distinct, and engines and the CAN thread record to the metrics of their stream. *)
Record runner_ok (r : Runner G) : Prop := {
  ok_names : NoDup (map name_ r.(metrics_));
  ok_map : map_ok r.(stream_faults_);
  ok_engine : forall s i e, map_find s r.(stream_faults_) = Some (i, e) ->
    exists m, r.(metrics_) !! i = Some m /\ name_ m = s;
  ok_can : forall i rd, r.(can_reader_) = Some (i, rd) -> exists m, r.(metrics_) !! i = Some m /\ name_ m = "can"%string
}.

(** Stream [s] has its metrics [m] at index [i], and the engine [e]. *)
Definition holds_stream (r : Runner G) (s : string) (i : nat) (e : option (Faults.FaultEngine G)) (m : StreamMetrics) : Prop :=
  r.(metrics_) !! i = Some m /\ name_ m = s /\ map_find s r.(stream_faults_) = (fun e => (i, e)) <$> e.

Lemma index_unique r i j m m' : runner_ok r ->
  r.(metrics_) !! i = Some m -> r.(metrics_) !! j = Some m' -> name_ m = name_ m' -> i = j.
Proof.
  intros [H _ _ _] Hi Hj E. apply (NoDup_lookup _ i j (name_ m) H); change (map ?f ?l) with (f <$> l);
    rewrite list_lookup_fmap; [by rewrite Hi|by rewrite Hj, E].
Qed.

(** A change of the metrics at one index that keeps the name. *)
Lemma metrics_ok r f i :
  (forall m, name_ (f m) = name_ m) -> runner_ok r -> runner_ok (set_metrics (alter f i r.(metrics_)) r).
Proof.
  intros Hf [H1 H2 H3 H4].
  assert (forall j m, r.(metrics_) !! j = Some m -> exists m', alter f i r.(metrics_) !! j = Some m' /\ name_ m' = name_ m) as H.
  { intros j m Hj. destruct (decide (i = j)) as [->|Hne].
    - exists (f m). rewrite list_lookup_alter_eq, Hj. by split.
    - exists m. by rewrite list_lookup_alter_ne. }
  constructor; cbn; [by rewrite names_alter|done| |].
  - intros s j e He. destruct (H3 s j e He) as (m & Hm & <-). by apply H.
  - intros j rd Hc. destruct (H4 j rd Hc) as (m & Hm & <-). by apply H.
Qed.

Lemma engine_ok r s i e e' :
  map_find s r.(stream_faults_) = Some (i, e) -> runner_ok r ->
  runner_ok (set_faults (map_set s (i, e') r.(stream_faults_)) r).
Proof.
  intros He [H1 H2 H3 H4]. constructor; cbn; [done|by apply map_set_ok| |done].
  intros s' j e1. rewrite map_find_set. case_bool_decide; [|apply H3]. intros [= <- <-]. subst. by apply (H3 s i e).
Qed.

(** What an event means for the engine of a stream. *)
Definition stream_op (start : Z) (s : string) (ev : event) : option Faults.op :=
  match ev with
  | Arrival s' now1 now2 stamp =>
    if decide (s' = s) then
      let now_s := seconds (now1 - start) in
      let latency_ms := d_mul (seconds (now2 - stamp)) (d_of_Z 1000) in
      Some (Faults.OProcess (memcpy_double little latency_ms ++ memcpy_double little now_s) now_s s)
    else None
  | Worker s' => if decide (s' = s) then Some Faults.OWorker else None
  | _ => None
  end.

(** The latency and the time of an arrival on a stream. *)
Definition stream_arrival (start : Z) (s : string) (ev : event) : option (double * double) :=
  match ev with
  | Arrival s' now1 now2 stamp =>
    if decide (s' = s) then Some (d_mul (seconds (now2 - stamp)) (d_of_Z 1000), seconds (now1 - start)) else None
  | _ => None
  end.

Definition add_arrival (m : StreamMetrics) (a : double * double) : StreamMetrics := Evaluation.record a.1 a.2 false m.

(** How an event changes the engine and the metrics of a stream. *)
Definition stream_step (start : Z) (s : string) (ev : event) (e : option (Faults.FaultEngine G)) (m : StreamMetrics)
    (e' : option (Faults.FaultEngine G)) (m' : StreamMetrics) : Prop :=
  match e with
  | Some e0 =>
    exists e1, e' = Some e1 /\
      m' = foldl (on_write little) m (drop (length (Faults.written e0)) (Faults.written e1)) /\
      match stream_op start s ev with
      | Some o => Faults.step uniform_real uniform_int (clock s) pop o e0 = Ok e1
      | None => e1 = e0
      end
  | None => e' = None /\ m' = match stream_arrival start s ev with Some a => add_arrival m a | None => m end
  end.

Lemma stream_step_none start s ev e m :
  stream_op start s ev = None -> stream_arrival start s ev = None -> stream_step start s ev e m e m.
Proof.
  intros H1 H2. unfold stream_step. destruct e as [e0|].
  - exists e0. split; [done|]. split; [by rewrite drop_all|by rewrite H1].
  - by rewrite H2.
Qed.

(** The engine of a stream moved, and its writes were recorded. *)
Lemma engine_view r s i e e' :
  runner_ok r -> map_find s r.(stream_faults_) = Some (i, e) ->
  let r' := set_metrics (deliver little i e e' r.(metrics_)) (set_faults (map_set s (i, e') r.(stream_faults_)) r) in
  runner_ok r' /\
  (forall m, holds_stream r s i (Some e) m ->
     holds_stream r' s i (Some e') (foldl (on_write little) m (drop (length (Faults.written e)) (Faults.written e')))) /\
  forall s0 j e0 m, s0 <> s -> holds_stream r s0 j e0 m -> holds_stream r' s0 j e0 m.
Proof.
  intros Hok He r'. split; [|split].
  - apply (metrics_ok (set_faults (map_set s (i, e') r.(stream_faults_)) r)); [intros m; apply name_on_writes|].
    by apply (engine_ok r s i e).
  - intros m (H1 & H2 & H3). split; [cbn; unfold deliver; by rewrite list_lookup_alter_eq, H1|].
    split; [by rewrite name_on_writes|]. cbn. by rewrite map_find_set, bool_decide_true.
  - intros s0 j e0 m Hne (H1 & H2 & H3). destruct (ok_engine r Hok s i e He) as (mi & Hi & Hn).
    split; [|split; [done|]].
    + cbn. unfold deliver. rewrite list_lookup_alter_ne; [done|]. intros <-. congruence.
    + cbn. by rewrite map_find_set, bool_decide_false.
Qed.

(** An arrival of a stream without engine was recorded. *)
Lemma direct_view r s i f :
  (forall m, name_ (f m) = name_ m) -> runner_ok r -> metrics_for s r.(metrics_) = Some i ->
  let r' := set_metrics (alter f i r.(metrics_)) r in
  runner_ok r' /\ (forall e m, holds_stream r s i e m -> holds_stream r' s i e (f m)) /\
  forall s0 j e0 m, s0 <> s -> holds_stream r s0 j e0 m -> holds_stream r' s0 j e0 m.
Proof.
  intros Hf Hok Hi r'. split; [by apply metrics_ok|]. split.
  - intros e m (H1 & H2 & H3). split; [cbn; by rewrite list_lookup_alter_eq, H1|]. by rewrite Hf.
  - intros s0 j e0 m Hne (H1 & H2 & H3). destruct (metrics_for_spec _ _ _ Hi) as (mi & Hm & Hn).
    split; [|done]. cbn. rewrite list_lookup_alter_ne; [done|]. intros <-. congruence.
Qed.

(** A stream has one engine and one index. *)
Lemma holds_unique r s i e m j e' : runner_ok r -> holds_stream r s i e m ->
  map_find s r.(stream_faults_) = Some (j, e') -> j = i /\ e = Some e'.
Proof. intros Hok (H1 & H2 & H3) H. rewrite H in H3. destruct e as [e|]; cbn in H3; [|done]. injection H3 as -> ->. done. Qed.

Lemma on_read_name ev rd m rd' m' :
  CanBus.on_read ev.(CanBus.n_read) ev.(CanBus.frame) ev.(CanBus.now_us) ev.(CanBus.arrival) rd m = Ok (rd', m') ->
  name_ m' = name_ m.
Proof.
  unfold CanBus.on_read. case_test; [by intros [= _ <-]|]. case_test; [by intros [= _ <-]|].
  destruct (CanBus.frame_seq _); cbn [mbind outcome_bind]; try done.
  destruct (CanBus.frame_sent_us _); cbn [mbind outcome_bind]; try done. cbv zeta. by intros [= _ <-].
Qed.

(** The CAN thread touches the metrics of its stream only. *)
Lemma can_view ev r r' :
  runner_ok r -> can_read ev r = Ok r' ->
  runner_ok r' /\ start_time_ r' = start_time_ r /\ scenario_ r' = scenario_ r /\
  forall s i e m, s <> "can"%string -> holds_stream r s i e m -> holds_stream r' s i e m.
Proof.
  intros Hok. unfold can_read. destruct (can_reader_ r) as [[i rd]|] eqn:Ec; [|by intros [= <-]].
  destruct (ok_can r Hok i rd Ec) as (m & Hm & Hn). rewrite Hm.
  destruct (CanBus.on_read _ _ _ _ rd m) as [[rd' m']| |] eqn:E; cbn [mbind outcome_bind fst snd]; try done.
  pose proof (on_read_name ev rd m rd' m' E) as Hn'. intros [= <-]. destruct Hok as [H1 H2 H3 H4].
  assert (forall j m0, metrics_ r !! j = Some m0 -> exists m1, <[i:=m']> (metrics_ r) !! j = Some m1 /\ name_ m1 = name_ m0) as Hins.
  { intros j m0 Hj. destruct (decide (i = j)) as [<-|Hne].
    - exists m'. rewrite list_lookup_insert_eq by (by eapply lookup_lt_Some). split; [done|]. congruence.
    - exists m0. by rewrite list_lookup_insert_ne. }
  split; [|split; [done|split; [done|]]].
  - constructor; cbn; [by rewrite (names_insert i m m')|done| |].
    + intros s j e He. destruct (H3 s j e He) as (m0 & Hj & <-). by apply Hins.
    + intros j rd0 [= <- <-]. rewrite <- Hn. by apply Hins.
  - intros s j e m0 Hs (Hj & Hn0 & He). split; [|done]. cbn. rewrite list_lookup_insert_ne; [done|]. intros <-. congruence.
Qed.

(** An arriving message as the streams see it. *)
Lemma record_view s now1 now2 stamp r r' :
  runner_ok r -> step (Arrival s now1 now2 stamp) r = Ok r' ->
  runner_ok r' /\ start_time_ r' = start_time_ r /\ scenario_ r' = scenario_ r /\
  forall s' i e m, s' <> "can"%string -> holds_stream r s' i e m ->
    exists e' m', holds_stream r' s' i e' m' /\ stream_step (start_time_ r) s' (Arrival s now1 now2 stamp) e m e' m'.
Proof.
  intros Hok. cbn [ScenarioRunner.step].
  unfold record. cbv zeta. destruct (map_find s (stream_faults_ r)) as [[i e]|] eqn:Ef.
  + destruct (Faults.process _ _ _ _ _ _ e) as [e'| |] eqn:Ep; cbn [mbind outcome_bind]; try done. intros [= <-].
    destruct (engine_view r s i e e' Hok Ef) as (H1 & H2 & H3). split; [done|]. split; [done|]. split; [done|].
    intros s0 j e0 m _ Hh. destruct (decide (s0 = s)) as [->|Hne].
    * destruct (holds_unique r s j e0 m i e Hok Hh Ef) as [-> ->]. eexists _, _. split; [by apply H2|].
      exists e'. split; [done|]. split; [done|]. cbn [stream_op]. by rewrite decide_True.
    * exists e0, m. split; [by apply H3|]. apply stream_step_none; cbn; by rewrite decide_False.
  + destruct (metrics_for s (metrics_ r)) as [i|] eqn:Em.
    * intros [= <-].
      destruct (direct_view r s i (Evaluation.record (d_mul (seconds (now2 - stamp)) (d_of_Z 1000))
        (seconds (now1 - start_time_ r)) false)) as (H1 & H2 & H3); [done..|].
      split; [done|]. split; [done|]. split; [done|]. intros s0 j e0 m _ Hh. destruct (decide (s0 = s)) as [->|Hne].
      -- assert (metrics_for s (metrics_ r) = Some j) as Ej.
         { destruct Hh as (Hj & Hn & _). by apply (metrics_for_some s _ j m (ok_names r Hok)). }
         assert (j = i) as -> by congruence.
         assert (e0 = None) as -> by (destruct Hh as (_ & _ & He); rewrite Ef in He; by destruct e0).
         eexists _, _. split; [by apply H2|]. split; [done|]. cbn [stream_arrival]. by rewrite decide_True.
      -- exists e0, m. split; [by apply H3|]. apply stream_step_none; cbn; by rewrite decide_False.
    * intros [= <-]. split; [done|]. split; [done|]. split; [done|]. intros s0 j e0 m _ Hh. exists e0, m.
      split; [done|]. destruct (decide (s0 = s)) as [->|Hne]; [|apply stream_step_none; cbn; by rewrite decide_False].
      destruct Hh as (Hj & Hn & _). by rewrite (metrics_for_some s _ j m (ok_names r Hok) Hj Hn) in Em.
Qed.

(** An event as the streams see it. *)
Lemma step_view ev r r' :
  runner_ok r -> step ev r = Ok r' ->
  runner_ok r' /\ start_time_ r' = start_time_ r /\ scenario_ r' = scenario_ r /\
  forall s i e m, s <> "can"%string -> holds_stream r s i e m ->
    exists e' m', holds_stream r' s i e' m' /\ stream_step (start_time_ r) s ev e m e' m'.
Proof.
  intros Hok. destruct ev as [s now1 now2 stamp|s|fd found bound|ev|]; cbn [ScenarioRunner.step].
  - by apply record_view.
  - unfold worker. destruct (map_find s (stream_faults_ r)) as [[i e]|] eqn:Ef.
    + destruct (Faults.worker_step _ _ e) as [res| |] eqn:Ep; cbn [mbind outcome_bind]; try done. cbv zeta. intros [= <-].
      destruct (engine_view r s i e (default e res) Hok Ef) as (H1 & H2 & H3). split; [done|]. split; [done|]. split; [done|].
      intros s0 j e0 m _ Hh. destruct (decide (s0 = s)) as [->|Hne].
      * destruct (holds_unique r s j e0 m i e Hok Hh Ef) as [-> ->]. eexists _, _. split; [by apply H2|].
        eexists. split; [done|]. split; [done|]. cbn [stream_op]. rewrite decide_True by done. cbn [Faults.step]. by rewrite Ep.
      * exists e0, m. split; [by apply H3|]. apply stream_step_none; cbn; by rewrite ?decide_False.
    + intros [= <-]. split; [done|]. split; [done|]. split; [done|]. intros s0 j e0 m _ Hh. exists e0, m. split; [done|].
      destruct (decide (s0 = s)) as [->|Hne]; [|apply stream_step_none; cbn; by rewrite ?decide_False].
      destruct Hh as (_ & _ & He). rewrite Ef in He. destruct e0; [done|]. by split.
  - unfold can_open. destruct (can_reader_ r) as [cr|] eqn:Ec; intros [= <-];
      (split; [destruct Hok; by constructor|split; [done|split; [done|]]]; intros s i e m _ Hh; exists e, m;
       split; [done|by apply stream_step_none]).
  - intros E. destruct (can_view ev r r' Hok E) as (H1 & H2 & H3 & H4). split; [done|]. split; [done|]. split; [done|].
    intros s i e m Hs Hh. exists e, m. split; [by apply H4|by apply stream_step_none].
  - unfold refresh. destruct (exporter_ r); [|intros [= <-]]; [destruct (update_streams _ _); cbn [mbind outcome_bind]; try done; intros [= <-]|];
      (split; [by destruct Hok|split; [done|split; [done|]]]; intros s i e m _ Hh; exists e, m; split; [done|by apply stream_step_none]).
Qed.

#[local] Existing Instance FaultRuns.grows_preorder.

(** ** A run, stream by stream *)


Section Generator.
Context (uniform_int_range : forall lo hi g, lo <= hi -> lo <= (uniform_int lo hi g).1 <= hi).
Context (pop_spec : forall q,
  match pop q with
  | None => q = []
  | Some (d, r) => q ≡ₚ d :: r /\ Forall (fun x => d_lt x.(Faults.due_ns) d.(Faults.due_ns) = false) r
  end).

(** The writes of [e'] that [e] had not made yet, and those of [e2] after [e1]. *)
Lemma writes_app (e e1 e2 : Faults.FaultEngine G) :
  FaultRuns.grows e e1 -> FaultRuns.grows e1 e2 ->
  drop (length (Faults.written e)) (Faults.written e2) =
  drop (length (Faults.written e)) (Faults.written e1) ++ drop (length (Faults.written e1)) (Faults.written e2).
Proof.
  intros [_ [k1 H1]] [_ [k2 H2]]. rewrite H2, H1, <- app_assoc, !drop_app_length.
  by rewrite app_assoc, drop_app_length.
Qed.

Lemma run_grows c ops e e' : Faults.run uniform_real uniform_int c pop ops e = Ok e' -> FaultRuns.grows e e'.
Proof.
  revert e. induction ops as [|o ops IH]; intros e; cbn [Faults.run]; [by intros [= <-]|].
  destruct (Faults.step _ _ _ _ o e) as [e1| |] eqn:E; cbn [mbind outcome_bind]; try done. intros H.
  etrans; [exact (FaultRuns.step_grows uniform_real uniform_int c pop uniform_int_range pop_spec o e e1 E)|by apply IH].
Qed.

(** What a stream has seen of a sequence of events. *)
Definition stream_run (start : Z) (s : string) (evs : list event) (e : option (Faults.FaultEngine G)) (m : StreamMetrics)
    (e' : option (Faults.FaultEngine G)) (m' : StreamMetrics) : Prop :=
  match e with
  | Some e0 =>
    exists e1, e' = Some e1 /\
      Faults.run uniform_real uniform_int (clock s) pop (omap (stream_op start s) evs) e0 = Ok e1 /\
      m' = foldl (on_write little) m (drop (length (Faults.written e0)) (Faults.written e1))
  | None => e' = None /\ m' = foldl add_arrival m (omap (stream_arrival start s) evs)
  end.

Lemma stream_run_cons start s ev evs e m e1 m1 e2 m2 :
  stream_step start s ev e m e1 m1 -> stream_run start s evs e1 m1 e2 m2 ->
  stream_run start s (ev :: evs) e m e2 m2.
Proof.
  destruct e as [e0|]; cbn [stream_step stream_run].
  - intros (x & -> & -> & Hs) (y & -> & Hr & ->). exists y. split; [done|].
    assert (Faults.run uniform_real uniform_int (clock s) pop (omap (stream_op start s) (ev :: evs)) e0 = Ok y /\
            FaultRuns.grows e0 x) as [H1 H2].
    { cbn [omap list_omap]. destruct (stream_op start s ev) as [o|].
      - cbn [Faults.run]. rewrite Hs. cbn [mbind outcome_bind]. split; [done|].
        exact (FaultRuns.step_grows uniform_real uniform_int (clock s) pop uniform_int_range pop_spec o e0 x Hs).
      - subst x. done. }
    split; [done|]. rewrite (writes_app e0 x y H2 (run_grows _ _ _ _ Hr)). by rewrite foldl_app.
  - intros [-> ->] [-> ->]. split; [done|]. cbn [omap list_omap]. by destruct (stream_arrival start s ev).
Qed.

Lemma run_view evs r r' :
  runner_ok r -> run evs r = Ok r' ->
  runner_ok r' /\ start_time_ r' = start_time_ r /\ scenario_ r' = scenario_ r /\
  forall s i e m, s <> "can"%string -> holds_stream r s i e m ->
    exists e' m', holds_stream r' s i e' m' /\ stream_run (start_time_ r) s evs e m e' m'.
Proof.
  revert r. induction evs as [|ev evs IH]; intros r Hok; cbn [ScenarioRunner.run].
  - intros [= <-]. split; [done|]. split; [done|]. split; [done|]. intros s i e m _ Hh. exists e, m. split; [done|].
    destruct e as [e|]; [|done]. exists e. by rewrite drop_all.
  - destruct (step ev r) as [r1| |] eqn:E; cbn [mbind outcome_bind]; try done. intros Hr.
    destruct (step_view ev r r1 Hok E) as (H1 & T1 & C1 & V1). destruct (IH r1 H1 Hr) as (H2 & T2 & C2 & V2).
    split; [done|]. split; [congruence|]. split; [congruence|]. intros s i e m Hs Hh.
    destruct (V1 s i e m Hs Hh) as (e1 & m1 & Hh1 & S1). destruct (V2 s i e1 m1 Hs Hh1) as (e2 & m2 & Hh2 & S2).
    rewrite T1 in S2. exists e2, m2. split; [done|]. by apply (stream_run_cons _ _ _ _ _ _ e1 m1).
Qed.

(** ** The flush of [finish] *)

Definition flushed (e : option (Faults.FaultEngine G)) (m : StreamMetrics)
    (e' : option (Faults.FaultEngine G)) (m' : StreamMetrics) : Prop :=
  match e with
  | Some e0 => exists e1, e' = Some e1 /\ Faults.flush pop e0 = Some e1 /\
                 m' = foldl (on_write little) m (drop (length (Faults.written e0)) (Faults.written e1))
  | None => e' = None /\ m' = m
  end.

Lemma flush_total fs ms :
  map_ok fs -> (forall s i e, (s, (i, e)) ∈ fs -> exists m, ms !! i = Some m /\ name_ m = s) ->
  exists fs' ms', flush_all little pop fs ms = Some (fs', ms') /\ map fst fs' = map fst fs /\ map name_ ms' = map name_ ms /\
    forall s i e m, ms !! i = Some m -> name_ m = s -> map_find s fs = (fun e => (i, e)) <$> e ->
      exists e' m', ms' !! i = Some m' /\ name_ m' = s /\ map_find s fs' = (fun e => (i, e)) <$> e' /\ flushed e m e' m'.
Proof.
  revert ms. induction fs as [|[s0 [i0 e0]] fs IH]; intros ms Hok Hin; cbn [flush_all].
  - exists [], ms. split; [done|]. split; [done|]. split; [done|]. intros s i e m H1 H2 H3. destruct e; [done|]. by exists None, m.
  - destruct (Faults.flush_loop_ok pop pop_spec (length (Faults.delayed_ e0)) e0) as (e1 & q & E & _); [done|].
    change (Faults.flush_loop pop (length (Faults.delayed_ e0)) e0) with (Faults.flush pop e0) in E. rewrite E.
    cbn [mbind option_bind]. destruct (Hin s0 i0 e0 ltac:(left)) as (m0 & Hm0 & Hn0).
    unfold map_ok in Hok. inversion_clear Hok as [|x y Hok' Hb].
    assert (forall i m, i0 <> i -> ms !! i = Some m -> deliver little i0 e0 e1 ms !! i = Some m) as Hother.
    { intros i m Hne Hi. unfold deliver. by rewrite list_lookup_alter_ne. }
    destruct (IH (deliver little i0 e0 e1 ms)) as (fs' & ms' & -> & Hf & Hn & HV); [done|..].
    { intros s i e Hs. assert (s0 <> s) as Hne.
      { intros <-. assert (map_find s0 fs = Some (i, e)) as H by (by apply map_find_elem). by rewrite (map_find_before s0 (i0, e0)) in H. }
      destruct (Hin s i e ltac:(by right)) as (m & Hm & Hnm). exists m. split; [|done]. apply Hother; [|done]. intros ->. congruence. }
    cbn [mbind option_bind fst snd]. eexists _, ms'. split; [done|]. split; [cbn; by rewrite Hf|].
    split; [rewrite Hn; apply names_alter; intros m; apply name_on_writes|].
    intros s i e m Hi Hnm He. cbn [map_find] in He |- *. destruct (decide (s = s0)) as [->|Hne].
    + rewrite bool_decide_true in He |- * by done. destruct e as [e|]; cbn in He; [|done]. injection He as -> ->.
      destruct (HV s0 i None (foldl (on_write little) m (drop (length (Faults.written e)) (Faults.written e1))))
        as (e' & m' & H1 & H2 & _ & -> & ->).
      * unfold deliver. by rewrite list_lookup_alter_eq, Hi.
      * by rewrite name_on_writes.
      * cbn. by apply (map_find_before s0 (i, e)).
      * eexists (Some e1), _. split; [exact H1|]. split; [done|]. split; [done|]. by exists e1.
    + rewrite bool_decide_false in He |- * by done. apply HV; [|done|done]. apply Hother; [|done]. intros ->. congruence.
Qed.

End Generator.

(** ** What [start] sets up *)

Lemma has_fault_spec s faults : has_fault s faults = true <-> stream_rules s faults <> [].
Proof.
  unfold has_fault, stream_rules. induction faults as [|f faults IH]; [done|]. cbn [existsb List.filter].
  case_bool_decide as E; cbn [orb map]; [done|]. by rewrite IH.
Qed.

Lemma make_engine_spec (g0 : G) s faults : make_engine g0 s faults = Faults.engine true (stream_rules s faults) g0.
Proof.
  unfold make_engine, Faults.engine, stream_rules. generalize (Faults.construct true g0).
  induction faults as [|f faults IH]; intros e; [done|]. cbn [List.filter foldl].
  case_bool_decide; cbn [map foldl]; by rewrite IH.
Qed.

(** The engine of a stream at the start, and its metrics. *)
Definition first_engine (g0 : G) (faults : list FaultSpec) (s : string) : option (Faults.FaultEngine G) :=
  if has_fault s faults then Some (Faults.engine true (stream_rules s faults) g0) else None.

Definition first_metrics (sc : Scenario) (c : StreamConfig) : StreamMetrics :=
  new_metrics c.(stream_name) c.(rate_hz) sc.(scenario_duration).

Context (spawn : nat -> list string -> option Z).

(** The messages a stream subscribes to, none for [can] and unknown names. *)
Definition topic_type (s : string) : option string :=
  if bool_decide (s = "lidar"%string) then Some "sensor_msgs/msg/PointCloud2"%string
  else if bool_decide (s = "camera"%string) then Some "sensor_msgs/msg/Image"%string
  else if bool_decide (s = "imu"%string) then Some "sensor_msgs/msg/Imu"%string
  else if bool_decide (s = "gps"%string) then Some "sensor_msgs/msg/NavSatFix"%string
  else None.

Lemma subscribe_spec c (r : Runner G) :
  (c.(stream_name) = "can"%string -> can_reader_ r = None /\ exists i, metrics_for "can" (metrics_ r) = Some i) ->
  subscribe_stream c r =
    Ok (set_can (if bool_decide (c.(stream_name) = "can"%string)
                 then (fun i => (i, CanBus.new_reader)) <$> metrics_for "can" (metrics_ r) else can_reader_ r)
         (set_subs (subs_ r ++ option_list ((fun t => ((r.(ns_) +:+ "/" +:+ c.(stream_name))%string, t)) <$>
                                              topic_type c.(stream_name))) r)).
Proof.
  intros Hcan. unfold subscribe_stream, topic_type. cbv zeta.
  assert (forall r : Runner G, r = set_can (can_reader_ r) (set_subs (subs_ r ++ []) r)) as Hid.
  { intros [? ? ? subs ? ? ? ? ? ? ? ? ?]. unfold set_can, set_subs. cbn. by rewrite app_nil_r. }
  destruct (decide (c.(stream_name) = "can"%string)) as [E|E].
  - destruct (Hcan E) as [Hn [i Hi]]. rewrite E. repeat (rewrite bool_decide_false by done). rewrite !(bool_decide_true ("can"%string = _)) by done.
    unfold start_can_reader. rewrite Hi, Hn. cbn. by rewrite app_nil_r.
  - rewrite (bool_decide_false (_ = "can"%string)) by done. repeat case_bool_decide; cbn; done || (f_equal; apply Hid).
Qed.

Definition fixed (r : Runner G) := (r.(scenario_), r.(ns_), r.(start_time_), r.(report_dir_), r.(metrics_port_), r.(registry_), r.(exporter_)).

(** The pid of the publisher of a stream, started as process [n]. *)
Definition child (r : Runner G) (n : nat) (c : StreamConfig) : list Z := option_list (spawn n (spawn_args r.(ns_) c)).
Definition subscription (r : Runner G) (c : StreamConfig) : list (string * string) :=
  option_list ((fun t => ((r.(ns_) +:+ "/" +:+ c.(stream_name))%string, t)) <$> topic_type c.(stream_name)).

(** The fault engines with the one of a new stream. *)
Definition faults_with (g0 : G) (c : StreamConfig) (i : nat) (r : Runner G) :=
  if has_fault c.(stream_name) (faults (scenario_ r))
  then map_set c.(stream_name) (i, make_engine g0 c.(stream_name) (faults (scenario_ r))) (stream_faults_ r)
  else stream_faults_ r.

Lemma faults_with_find g0 c i (r : Runner G) s :
  map_ok (stream_faults_ r) -> map_find c.(stream_name) (stream_faults_ r) = None ->
  map_find s (faults_with g0 c i r) =
    if bool_decide (s = c.(stream_name)) then (fun e => (i, e)) <$> first_engine g0 (scenario_ r).(faults) s
    else map_find s (stream_faults_ r).
Proof.
  intros Hok Hf. unfold faults_with, first_engine. case_bool_decide as E.
  - subst s. rewrite <- make_engine_spec. destruct (has_fault _ _); cbn; [by rewrite map_find_set, bool_decide_true|done].
  - destruct (has_fault _ _); [|done]. by rewrite map_find_set, bool_decide_false.
Qed.

Lemma start_stream_spec g0 c (r : Runner G) :
  let i := length (metrics_ r) in
  runner_ok r -> c.(stream_name) ∉ map name_ (metrics_ r) -> map_find c.(stream_name) (stream_faults_ r) = None ->
  (c.(stream_name) = "can"%string -> can_reader_ r = None) ->
  exists r', start_stream spawn g0 c r = Ok r' /\ runner_ok r' /\ fixed r' = fixed r /\
    metrics_ r' = metrics_ r ++ [first_metrics (scenario_ r) c] /\
    (forall s, map_find s (stream_faults_ r') =
       if bool_decide (s = c.(stream_name)) then (fun e => (i, e)) <$> first_engine g0 (scenario_ r).(faults) s
       else map_find s (stream_faults_ r)) /\
    can_reader_ r' = (if bool_decide (c.(stream_name) = "can"%string) then Some (i, CanBus.new_reader) else can_reader_ r) /\
    child_pids_ r' = child_pids_ r ++ child r (S i) c /\ subs_ r' = subs_ r ++ subscription r c.
Proof.
  intros i Hok Hnew Hf Hc. unfold start_stream. cbv zeta. fold i.
  set (ms := metrics_ r ++ [_]). set (r1 := set_metrics ms r).
  change (stream_faults_ r1) with (stream_faults_ r). rewrite Hf.
  assert (NoDup (map name_ ms)) as Hnd.
  { subst ms. rewrite map_app. cbn. apply NoDup_app. split; [apply Hok|]. split; [|apply NoDup_singleton].
    intros x Hx Hx'. apply list_elem_of_singleton in Hx'. by subst x. }
  assert (ms !! i = Some (first_metrics (scenario_ r) c)) as Hi by (subst ms i; by apply list_lookup_middle).
  set (fs := faults_with g0 c i r).
  pose proof (fun s => faults_with_find g0 c i r s (ok_map r Hok) Hf) as Hfs. fold fs in Hfs.
  assert (map_ok fs) as Hmap by (subst fs; unfold faults_with; destruct (has_fault _ _); [apply map_set_ok|]; apply Hok).
  replace (if has_fault c.(stream_name) (faults (scenario_ r)) then _ else r1) with (set_faults fs r1)
    by (subst fs r1; unfold faults_with; destruct (has_fault _ _); [done|by destruct r]).
  rewrite subscribe_spec.
  2:{ intros E. split; [by apply Hc|]. exists i. by apply (metrics_for_some _ _ i (first_metrics (scenario_ r) c)). }
  cbn [mbind outcome_bind]. eexists. split; [done|]. unfold spawn_publisher, child.
  change (length (metrics_ (set_can _ _))) with (length ms). replace (length ms) with (S i) by (subst ms i; rewrite length_app; cbn; lia).
  cbn [ns_ set_can set_subs set_faults r1 set_metrics].
  assert (forall j m, metrics_ r !! j = Some m -> ms !! j = Some m) as Hold by (intros j m; apply lookup_app_l_Some).
  match goal with |- runner_ok (match _ with Some pid => set_pids _ ?R | None => _ end) /\ _ =>
    assert (runner_ok R) as HR end.
  { constructor; cbn; [done|done| |].
    - intros s j e. rewrite Hfs. case_bool_decide as E.
      + subst s. destruct (first_engine _ _ _); cbn; [|done]. intros [= <- <-]. by eexists.
      + intros He. destruct (ok_engine r Hok s j e He) as (m & Hm & Hn). eexists. split; [by apply Hold|done].
    - intros j rd. case_bool_decide as E.
      + rewrite <- E at 1. destruct (metrics_for _ ms) as [k|] eqn:Ek; cbn; [|done]. intros [= <- <-].
        destruct (metrics_for_spec _ _ _ Ek) as (m & Hm & Hn). exists m. by rewrite Hn.
      + intros He. destruct (ok_can r Hok j rd He) as (m & Hm & Hn). eexists. split; [by apply Hold|done]. }
  assert (forall b (rd : option (nat * CanBus.CanReader)),
    b = bool_decide (c.(stream_name) = "can"%string) -> rd = (if b then (fun i => (i, CanBus.new_reader)) <$> metrics_for "can" ms else can_reader_ r) ->
    rd = (if b then Some (i, CanBus.new_reader) else can_reader_ r)) as Hrd.
  { intros b rd -> ->. case_bool_decide as E; [|done]. by rewrite (metrics_for_some _ ms i (first_metrics (scenario_ r) c)) by done. }
  destruct (spawn (S i) _); cbn [option_list set_pids]; rewrite ?app_nil_r; (split; [destruct HR; by constructor|]);
    (split; [done|]); (split; [done|]); (split; [done|]); (split; [by eapply Hrd|]); split; done.
Qed.

Lemma start_streams_spec g0 l (r : Runner G) :
  let n := length (metrics_ r) in
  runner_ok r -> NoDup (map stream_name l) ->
  (forall s, s ∈ map stream_name l -> (s ∉ map name_ (metrics_ r)) /\ map_find s (stream_faults_ r) = None) ->
  ("can"%string ∈ map stream_name l -> can_reader_ r = None) ->
  exists r', start_streams spawn g0 l r = Ok r' /\ runner_ok r' /\ fixed r' = fixed r /\
    metrics_ r' = metrics_ r ++ map (first_metrics (scenario_ r)) l /\
    (forall k c, l !! k = Some c ->
       map_find c.(stream_name) (stream_faults_ r') =
         ((fun e => ((n + k)%nat, e)) <$> first_engine g0 (scenario_ r).(faults) c.(stream_name)) /\
       (c.(stream_name) = "can"%string -> can_reader_ r' = Some ((n + k)%nat, CanBus.new_reader))) /\
    (forall s, s ∉ map stream_name l -> map_find s (stream_faults_ r') = map_find s (stream_faults_ r)) /\
    ("can"%string ∉ map stream_name l -> can_reader_ r' = can_reader_ r) /\
    child_pids_ r' = child_pids_ r ++ concat (imap (fun k c => child r (S (n + k)) c) l) /\
    subs_ r' = subs_ r ++ concat (map (subscription r) l).
Proof using spawn.
  clear uniform_real clock.
  revert r. induction l as [|c l IH]; intros r n Hok Hnd Hnew Hcan; cbn [start_streams].
  { exists r. cbn. rewrite !app_nil_r. do 4 (split; [done|]). split; [by intros k c|]. done. }
  cbn [map] in Hnd. inversion_clear Hnd as [|x y Hx Hnd'].
  destruct (Hnew c.(stream_name) ltac:(left)) as [Hn1 Hn2].
  destruct (start_stream_spec g0 c r Hok Hn1 Hn2) as (r1 & -> & Hok1 & HF & HM & HE & HC & HP & HS).
  { intros E. apply Hcan. rewrite <- E. left. }
  cbn [mbind outcome_bind]. assert (scenario_ r1 = scenario_ r /\ ns_ r1 = ns_ r) as [Hsc Hns] by (unfold fixed in HF; split; congruence).
  assert (length (metrics_ r1) = S n) as Hlen by (rewrite HM, length_app; cbn; lia).
  destruct (IH r1 Hok1 Hnd') as (r' & -> & Hok' & HF' & HM' & HE' & HU' & HC' & HP' & HS').
  { intros s Hs. destruct (Hnew s ltac:(by right)) as [H1 H2].
    assert (s <> c.(stream_name)) as Hne by (intros ->; done). split.
    - rewrite HM, map_app, elem_of_app. cbn. rewrite list_elem_of_singleton. tauto.
    - by rewrite HE, bool_decide_false. }
  { intros Hin. rewrite HC, bool_decide_false; [apply Hcan; by right|]. intros E. by rewrite E in Hx. }
  rewrite Hsc, Hlen in *. exists r'. split; [done|]. split; [done|]. split; [congruence|].
  split; [rewrite HM', HM, <- app_assoc; done|]. split; [|split; [|split; [|split]]].
  - intros [|k] c0 Hk; cbn in Hk.
    + injection Hk as <-. rewrite Nat.add_0_r. split; [by rewrite HU', HE, bool_decide_true|].
      intros E. rewrite HC'; [by rewrite HC, bool_decide_true|by rewrite <- E].
    + destruct (HE' k c0 Hk) as [H1 H2]. by rewrite Nat.add_succ_r.
  - intros s. cbn [map]. rewrite not_elem_of_cons. intros [Hs1 Hs2]. by rewrite HU', HE, bool_decide_false.
  - cbn [map]. rewrite not_elem_of_cons. intros [Hs1 Hs2]. by rewrite HC', HC, bool_decide_false.
  - rewrite HP', HP, <- app_assoc. cbn [imap concat]. rewrite Nat.add_0_r. do 3 f_equal.
    unfold child. rewrite Hns. apply imap_ext. intros k c0 _. cbn. do 2 f_equal. lia.
  - rewrite HS', HS, <- app_assoc. cbn [map concat]. unfold subscription. by rewrite Hns.
Qed.

Lemma new_runner_ok sc ns now : runner_ok (construct (G := G) sc ns now).
Proof. constructor; cbn; [constructor|constructor|done|done]. Qed.

(** The runner as [start] leaves it. *)
Definition Started (sc : Scenario) (ns : string) (port : Z) (start : Z) (g0 : G) (r : Runner G) : Prop :=
  runner_ok r /\ scenario_ r = sc /\ start_time_ r = start /\
  metrics_ r = map (first_metrics sc) sc.(streams) /\
  (forall k c, sc.(streams) !! k = Some c ->
     holds_stream r c.(stream_name) k (first_engine g0 sc.(faults) c.(stream_name)) (first_metrics sc c)) /\
  (forall s, s ∉ map stream_name sc.(streams) -> map_find s (stream_faults_ r) = None) /\
  (forall k c, sc.(streams) !! k = Some c -> c.(stream_name) = "can"%string -> can_reader_ r = Some (k, CanBus.new_reader)) /\
  child_pids_ r = concat (imap (fun k c => option_list (spawn (S k) (spawn_args ns c))) sc.(streams)) /\
  subs_ r = concat (map (fun c => option_list ((fun t => ((ns +:+ "/" +:+ c.(stream_name))%string, t)) <$> topic_type c.(stream_name))) sc.(streams)) /\
  (port = 0 -> exporter_ r = None).

Lemma start_sets_up sc ns port dir now0 fd b l now g0 :
  NoDup (map stream_name sc.(streams)) ->
  exists r, start spawn fd b l now g0 (set_metrics_port port (set_report_dir dir (construct sc ns now0))) = Ok r /\
    Started sc ns port now g0 r /\ report_dir_ r = dir /\ (exporter_ r = None -> port = 0 \/ fd < 0 \/ b = false \/ l = false).
Proof using spawn.
  intros Hnd. unfold start. set (r0 := set_start_time now _). change (streams (scenario_ r0)) with (streams sc).
  assert (runner_ok r0) as H0 by (destruct (new_runner_ok sc ns now); by constructor).
  destruct (start_streams_spec g0 sc.(streams) r0 H0 Hnd) as (r1 & -> & Hok & HF & HM & HE & HU & HC & HP & HS); [|done|].
  { intros s _. split; [apply not_elem_of_nil|done]. }
  cbn [mbind outcome_bind]. unfold fixed in HF. injection HF as F1 F2 F3 F4 F5 F6 F7.
  change (metrics_ r0) with (@nil StreamMetrics) in *. cbn [app length Nat.add] in *.
  assert (Started sc ns port now g0 r1) as HS1.
  { split; [done|]. split; [done|]. split; [done|]. split; [done|]. split; [|split; [done|]].
    - intros k c Hk. split; [rewrite HM; by rewrite list_lookup_fmap, Hk|]. split; [done|]. by apply HE.
    - split; [intros k c Hk; by apply HE|]. split; [done|]. split; [done|]. intros _. by rewrite F7. }
  unfold start_exporter. rewrite F5. cbn [metrics_port_ set_metrics_port r0 set_start_time]. case_test.
  - exists r1. split; [done|]. split; [done|]. split; [done|]. intros _. left. by apply Z.eqb_eq.
  - unfold Registry.start, Registry.new_exporter. cbn [Registry.joinable]. apply Z.eqb_neq in E.
    repeat case_test; cbn [mbind outcome_bind fst snd]; eexists; (split; [done|]).
    all: split; [destruct HS1 as ([] & H); split; [by constructor|]; repeat split; try apply H; done|].
    all: split; [done|]; cbn; try done; intros _; right.
    + left. apply Z.ltb_lt. done.
    + right. left. by apply negb_true_iff.
    + right. right. by apply negb_true_iff.
Qed.

Lemma start_started sc ns port dir now0 fd b l now g0 r :
  NoDup (map stream_name sc.(streams)) ->
  start spawn fd b l now g0 (set_metrics_port port (set_report_dir dir (construct sc ns now0))) = Ok r ->
  Started sc ns port now g0 r.
Proof using spawn.
  intros Hnd Hs. destruct (start_sets_up sc ns port dir now0 fd b l now g0 Hnd) as (r' & E & HS & _).
  rewrite Hs in E. by injection E as ->.
Qed.

(** ** The metrics of all streams *)

Lemma has_stream_same mm mm' m :
  (forall sf, sf ∈ suffixes -> mm' !! (m.(name_) +:+ sf)%string = mm !! (m.(name_) +:+ sf)%string) ->
  Report.has_stream mm m -> Report.has_stream mm' m.
Proof.
  intros H. unfold Report.has_stream.
  rewrite !H by (apply (bool_decide_unpack _); vm_compute; exact I). auto.
Qed.

Lemma emit_all_spec ms mm mm' :
  NoDup (map name_ ms) -> emit_all ms mm = Ok mm' ->
  Forall (Report.has_stream mm') ms /\
  forall k, (forall m sf, m ∈ ms -> sf ∈ suffixes -> k <> (m.(name_) +:+ sf)%string) -> mm' !! k = mm !! k.
Proof.
  revert mm. induction ms as [|m ms IH]; intros mm Hnd; cbn [emit_all].
  { intros [= <-]. split; [constructor|done]. }
  cbn [map] in Hnd. inversion_clear Hnd as [|x y Hx Hnd'].
  destruct (emit m mm) as [m1| |] eqn:E1; cbn [mbind outcome_bind]; try done. intros Em. apply emit_stores in E1 as H1.
  destruct (IH m1 Hnd' Em) as (HF & HU).
  assert (Report.has_stream m1 m) as HH by (unfold Report.has_stream; destruct H1 as (? & ? & ? & ? & ? & ? & ? & _); by repeat split).
  destruct H1 as (_ & _ & _ & _ & _ & _ & _ & Hother).
  split.
  - constructor; [|done]. apply (has_stream_same m1); [|done]. intros sf Hsf. apply HU.
    intros m' sf' Hm' Hsf' E. destruct (suffixes_free _ _ _ _ Hsf Hsf' E) as [En _]. apply Hx. rewrite En.
    rewrite list_elem_of_In. apply in_map. by rewrite <- list_elem_of_In.
  - intros k Hk. rewrite HU.
    + apply Hother. intros sf Hsf. apply Hk; [left|done].
    + intros m' sf Hm' Hsf. apply Hk; [by right|done].
Qed.

Section Finishing.
Context (now : string) (dump : Report.json -> string) (opens good : string -> bool).
Abbreviation finish := (finish little pop now dump opens good).
Context (uniform_int_range : forall lo hi g, lo <= hi -> lo <= (uniform_int lo hi g).1 <= hi).
Context (pop_spec : forall q,
  match pop q with
  | None => q = []
  | Some (d, r) => q ≡ₚ d :: r /\ Forall (fun x => d_lt x.(Faults.due_ns) d.(Faults.due_ns) = false) r
  end).

Lemma finish_view rounds (r : Runner G) result r' files calls :
  runner_ok r -> finish rounds r = Ok (result, r', files, calls) ->
  scenario_ r' = scenario_ r /\ map name_ (metrics_ r') = map name_ (metrics_ r) /\
  calls = reap_children rounds (child_pids_ r) /\ child_pids_ r' = [] /\ can_reader_ r' = None /\
  (forall s i e m, holds_stream r s i e m -> exists e' m', holds_stream r' s i e' m' /\ flushed e m e' m') /\
  exists mm, emit_all (metrics_ r') ∅ = Ok mm /\
    result = evaluate_all (scenario_ r).(Scenario.name) (scenario_ r).(assertions) mm /\
    exists reg, write_reports now dump opens good (set_registry reg r') result mm = Ok files.
Proof.
  intros Hok. unfold ScenarioRunner.finish. cbv zeta.
  change (stream_faults_ (set_pids _ _)) with (stream_faults_ r). change (metrics_ (set_pids _ _)) with (metrics_ r).
  destruct (flush_total pop_spec (stream_faults_ r) (metrics_ r)) as (fs & ms & -> & Hfst & Hn & HV); [apply Hok|..].
  { intros s i e Hs. apply (ok_engine r Hok s i e). by apply map_find_elem; [apply Hok|]. }
  cbn [metrics_ set_metrics set_faults scenario_ set_pids stop_can_reader set_can set_can_socket].
  destruct (emit_all ms ∅) as [mm| |] eqn:Em; cbn [mbind outcome_bind]; try done.
  set (result0 := evaluate_all _ _ _). destruct (match exporter_ _ with None => _ | Some _ => _ end) as [reg| |]; cbn [mbind outcome_bind]; try done.
  match goal with |- context [write_reports _ _ _ _ ?R _ _] => set (R0 := R) end.
  destruct (write_reports _ _ _ _ R0 result0 mm) as [fl| |] eqn:Ew; cbn [mbind outcome_bind]; try done.
  intros E. assert (result0 = result /\ R0 = r' /\ fl = files /\ reap_children rounds (child_pids_ r) = calls) as (<- & <- & <- & <-)
    by (cbn in E; repeat split; congruence).
  split; [done|]. split; [done|]. split; [done|]. split; [done|]. split; [done|]. split.
  - intros s i e m (H1 & H2 & H3). destruct (HV s i e m H1 H2 H3) as (e' & m' & H4 & H5 & H6 & H7). by exists e', m'.
  - exists mm. split; [done|]. split; [done|]. exists reg. exact Ew.
Qed.

End Finishing.

(** ** What the metrics of a stream count *)

Lemma length_memcpy x : length (memcpy_double little x) = 8%nat.
Proof. unfold memcpy_double. destruct little; by rewrite ?length_rev, length_le_bytes. Qed.

Lemma read_memcpy x : valid_double x -> read_double little (memcpy_double little x) = x.
Proof.
  intros Hx. unfold read_double, memcpy_double. destruct little; rewrite ?rev_involutive;
    rewrite (le_value_field 8 64) by (done || by apply double_bits_range); by apply double_bits_roundtrip.
Qed.

(** The message of [record] for an arrival. *)
Definition message (a : double * double) : list byte := memcpy_double little a.1 ++ memcpy_double little a.2.

Lemma length_message a : length (message a) = 16%nat.
Proof. unfold message. by rewrite length_app, !length_memcpy. Qed.

Definition read_message (buf : list byte) : double * double :=
  (read_double little (slice 0 8 buf), read_double little (slice 8 8 buf)).

Lemma read_message_ok a : valid_double a.1 -> valid_double a.2 -> read_message (message a) = a.
Proof.
  intros H1 H2. unfold read_message, message. rewrite slice_0_app by apply length_memcpy.
  rewrite <- (app_nil_r (memcpy_double little a.2)), slice_app_mid by apply length_memcpy.
  rewrite !read_memcpy by done. by destruct a.
Qed.

Lemma on_write_record m buf : length buf = 16%nat -> on_write little m buf = add_arrival m (read_message buf).
Proof. intros H. unfold on_write. by rewrite H. Qed.

Lemma on_writes_records bufs m :
  Forall (fun f => length f = 16%nat) bufs -> foldl (on_write little) m bufs = foldl add_arrival m (map read_message bufs).
Proof.
  intros H. revert m. induction H as [|b bufs Hb _ IH]; intros m; cbn [foldl map]; [done|].
  rewrite on_write_record by done. apply IH.
Qed.

(** What a list of arrivals leaves in new metrics. *)
Record measured (arrivals : list (double * double)) (m : StreamMetrics) : Prop := {
  me_latencies : m.(latencies_ms_) = map fst arrivals;
  me_received : m.(received_) = u64 (Z.of_nat (length arrivals));
  me_gaps : m.(sequence_gaps_) = 0;
  me_seen : m.(has_arrival_) = negb (bool_decide (arrivals = []));
  me_first : forall a, head arrivals = Some a -> m.(first_arrival_s_) = a.2;
  me_last : forall a, last arrivals = Some a -> m.(last_arrival_s_) = a.2
}.

Lemma measured_snoc l m a : measured l m -> measured (l ++ [a]) (add_arrival m a).
Proof.
  intros [H1 H2 H3 H4 H5 H6]. constructor; cbn -[Z.add wrap].
  - by rewrite H1, map_app.
  - rewrite H2, length_app. unfold wrap. rewrite Z.add_mod_idemp_l by lia. f_equal. cbn. lia.
  - done.
  - rewrite bool_decide_false; [done|by destruct l].
  - intros b. rewrite H4. destruct l as [|x l]; cbn; [by intros [= ->]|]. intros [= ->]. by apply H5.
  - intros b. rewrite last_snoc. by intros [= ->].
Qed.

Lemma arrivals_measured sc c l : measured l (foldl add_arrival (first_metrics sc c) l).
Proof.
  induction l as [|a l IH] using rev_ind; [by constructor|]. rewrite foldl_app. by apply measured_snoc.
Qed.

(** The engine of a stream gets a message per arrival. *)
Lemma ops_messages start s evs :
  concat (map Faults.op_frames (omap (stream_op start s) evs)) = map message (omap (stream_arrival start s) evs).
Proof.
  induction evs as [|ev evs IH]; [done|]. cbn [omap list_omap].
  destruct ev as [s' n1 n2 st|s'|fd found bound|ev|]; cbn [stream_op stream_arrival]; [| |exact IH..];
    (destruct (decide (s' = s)); [|exact IH]); cbn [map concat Faults.op_frames app]; [f_equal|]; exact IH.
Qed.

Lemma ops_lengths start s evs :
  Forall (fun o => Forall (fun f => length f = 16%nat) (Faults.op_frames o)) (omap (stream_op start s) evs).
Proof.
  induction evs as [|ev evs IH]; [constructor|]. cbn [omap list_omap].
  destruct ev as [s' n1 n2 st|s'|fd found bound|ev|]; cbn [stream_op]; [| |exact IH..]; (destruct (decide (s' = s)); [|exact IH]);
    (constructor; [|exact IH]); cbn [Faults.op_frames]; [|constructor].
  constructor; [by rewrite length_app, !length_memcpy|constructor].
Qed.

Section Sessions.
Context (now : string) (dump : Report.json -> string) (opens good : string -> bool).
Abbreviation finish := (finish little pop now dump opens good).
Context (uniform_int_range : forall lo hi g, lo <= hi -> lo <= (uniform_int lo hi g).1 <= hi).
Context (pop_spec : forall q,
  match pop q with
  | None => q = []
  | Some (d, r) => q ≡ₚ d :: r /\ Forall (fun x => d_lt x.(Faults.due_ns) d.(Faults.due_ns) = false) r
  end).

(** A stream from [start] to the end of [finish]. *)
Lemma session_view sc ns port at_ g0 evs rounds r0 r1 result r2 files calls :
  Started sc ns port at_ g0 r0 -> run evs r0 = Ok r1 -> finish rounds r1 = Ok (result, r2, files, calls) ->
  forall k c, sc.(streams) !! k = Some c -> c.(stream_name) <> "can"%string ->
  let s := c.(stream_name) in
  match first_engine g0 sc.(faults) s with
  | Some e0 => exists e m, holds_stream r2 s k (Some e) m /\
      Faults.run uniform_real uniform_int (clock s) pop (omap (stream_op at_ s) evs ++ [Faults.OFlush]) e0 = Ok e /\
      Faults.delayed_ e = [] /\ m = foldl (on_write little) (first_metrics sc c) (Faults.written e)
  | None => exists m, holds_stream r2 s k None m /\
      m = foldl add_arrival (first_metrics sc c) (omap (stream_arrival at_ s) evs)
  end.
Proof.
  intros (Hok & Hsc & Hst & _ & HE & _) Hrun Hfin k c Hk Hc s.
  destruct (run_view uniform_int_range pop_spec evs r0 r1 Hok Hrun) as (Hok1 & _ & _ & HV).
  destruct (HV s k _ _ Hc (HE k c Hk)) as (e1 & m1 & Hh1 & HR). rewrite Hst in HR.
  destruct (finish_view now dump opens good pop_spec rounds r1 result r2 files calls Hok1 Hfin) as (_ & _ & _ & _ & _ & HF & _).
  destruct (HF s k e1 m1 Hh1) as (e2 & m2 & Hh2 & HL). subst s.
  destruct (first_engine g0 (faults sc) (stream_name c)) as [e0|] eqn:E0; cbn [stream_run] in HR.
  - destruct HR as (x & -> & Hx & ->). destruct HL as (y & -> & Hy & ->). exists y. eexists. split; [exact Hh2|].
    assert (forall ops e, Faults.run uniform_real uniform_int (clock (stream_name c)) pop ops e = Ok x ->
              Faults.run uniform_real uniform_int (clock (stream_name c)) pop (ops ++ [Faults.OFlush]) e = Ok y) as Happ.
    { induction ops as [|o ops IH]; intros e; cbn [Faults.run app].
      - intros [= ->]. cbn [Faults.step]. by rewrite Hy.
      - destruct (Faults.step _ _ _ _ o e); cbn [mbind outcome_bind]; try done. apply IH. }
    split; [by apply Happ|].
    destruct (Faults.flush_loop_ok pop pop_spec (length (Faults.delayed_ x)) x) as (z & q & Ez & Hd & _); [done|].
    unfold Faults.flush in Hy. rewrite Hy in Ez. injection Ez as <-. split; [done|].
    rewrite <- foldl_app, <- writes_app.
    + unfold first_engine in E0. destruct (has_fault _ _); [|done]. injection E0 as <-.
      assert (Faults.written (Faults.engine true (stream_rules (stream_name c) (faults sc)) g0) = []) as ->; [|done].
      destruct (Faults.engine_spec true (stream_rules (stream_name c) (faults sc)) g0) as (_ & _ & _ & HF0 & _).
      unfold Faults.frames in HF0. by apply app_nil in HF0 as [-> _].
    + by apply (run_grows uniform_int_range pop_spec _ _ _ _ Hx).
    + by apply (FaultRuns.flush_grows pop pop_spec x y Hy).
  - destruct HR as [-> ->]. destruct HL as [-> ->]. by eexists.
Qed.

Lemma run_all_length n c ops e e' :
  Forall (fun o => Forall (fun f => length f = n) (Faults.op_frames o)) ops -> FaultRuns.all_length n e ->
  Faults.run uniform_real uniform_int c pop ops e = Ok e' -> FaultRuns.all_length n e'.
Proof.
  intros Ho. revert e. induction Ho as [|o ops Ho _ IH]; intros e He; cbn [Faults.run]; [by intros [= <-]|].
  destruct (Faults.step _ _ _ _ o e) as [e1| |] eqn:E; cbn [mbind outcome_bind]; try done. apply IH.
  exact (FaultRuns.step_all_length uniform_real uniform_int c pop uniform_int_range pop_spec n o e e1 Ho He E).
Qed.

(** What [start] sets up.  When the streams have different names, [start]
    succeeds and makes, per stream and in order, empty metrics with its rate
    and the duration, a subscription of its message type, a publisher process
    and, for [can], the reader; a stream has a fault engine exactly when a
    fault names it, and the engine records to its metrics and has the rules of
    just those faults, in order and none of the kind without effect ([kNone]).  So a
    fault that names no stream of the scenario is in no engine. *)
Theorem start_installs sc ns port dir now0 fd b l at_ g0 :
  NoDup (map stream_name sc.(streams)) ->
  exists r : Runner G, start spawn fd b l at_ g0 (set_metrics_port port (set_report_dir dir (construct sc ns now0))) = Ok r /\
    metrics_ r = map (fun c => new_metrics c.(stream_name) c.(rate_hz) sc.(scenario_duration)) sc.(streams) /\
    (forall s i e, map_find s (stream_faults_ r) = Some (i, e) <->
       exists c, sc.(streams) !! i = Some c /\ c.(stream_name) = s /\ stream_rules s sc.(faults) <> [] /\
         e = Faults.engine true (stream_rules s sc.(faults)) g0) /\
    (forall f, f.(type) <> kUnknown -> Faults.kind (to_fault_rule f) <> Faults.kNone) /\
    (forall i c, sc.(streams) !! i = Some c -> c.(stream_name) = "can"%string -> can_reader_ r = Some (i, CanBus.new_reader)) /\
    child_pids_ r = concat (imap (fun k c => option_list (spawn (S k) (spawn_args ns c))) sc.(streams)) /\
    subs_ r = concat (map (fun c => option_list ((fun t => ((ns +:+ "/" +:+ c.(stream_name))%string, t)) <$> topic_type c.(stream_name))) sc.(streams)) /\
    (exporter_ r = None -> port = 0 \/ fd < 0 \/ b = false \/ l = false).
Proof using spawn.
  intros Hnd. destruct (start_sets_up sc ns port dir now0 fd b l at_ g0 Hnd) as
    (r & E & (Hok & _ & _ & HM & HE & HU & HC & HP & HS & _) & _ & Hx).
  exists r. split; [exact E|]. split; [exact HM|]. split; [|split; [|split; [exact HC|done]]].
  - intros s i e. split.
    + intros Hf. destruct (decide (s ∈ map stream_name (streams sc))) as [Hs|Hs]; [|by rewrite HU in Hf].
      apply list_elem_of_In, in_map_iff in Hs as (c & <- & Hc). apply list_elem_of_In, list_elem_of_lookup in Hc as [k Hk].
      destruct (HE k c Hk) as (_ & _ & H3). rewrite Hf in H3. unfold first_engine in H3.
      destruct (has_fault _ _) eqn:Eh; cbn in H3; [|done]. injection H3 as -> ->. exists c.
      split; [done|]. split; [done|]. split; [by apply has_fault_spec|done].
    + intros (c & Hc & <- & Hr & ->). destruct (HE i c Hc) as (_ & _ & ->). unfold first_engine.
      by rewrite (proj2 (has_fault_spec _ _) Hr).
  - intros f. unfold to_fault_rule. cbn. generalize (type f). intros [] Hne; done || (vm_compute; discriminate).
Qed.

(** C36: a stream of messages that no fault names is recorded as it arrives.
    After any events, whatever happens on the other streams and whatever other
    faults there are (one without a stream name applies to none), [finish] has
    for it one latency per arrival, in order, their number, and the times of
    the first and the last arrival.  Of what was lost it has nothing: the
    number of sequence gaps is 0. *)
Theorem unfaulted_stream_recorded sc ns port at_ g0 evs rounds r0 r1 result r2 files calls k c :
  Started sc ns port at_ g0 r0 -> run evs r0 = Ok r1 -> finish rounds r1 = Ok (result, r2, files, calls) ->
  sc.(streams) !! k = Some c -> c.(stream_name) <> "can"%string ->
  Forall (fun f => f.(stream) <> c.(stream_name)) sc.(faults) ->
  let arrivals := omap (stream_arrival at_ c.(stream_name)) evs in
  exists m, metrics_ r2 !! k = Some m /\ m.(name_) = c.(stream_name) /\
    m.(latencies_ms_) = map fst arrivals /\ m.(received_) = u64 (Z.of_nat (length arrivals)) /\
    (forall a, head arrivals = Some a -> m.(first_arrival_s_) = a.2) /\
    (forall a, last arrivals = Some a -> m.(last_arrival_s_) = a.2) /\
    m.(sequence_gaps_) = 0.
Proof.
  intros HS Hrun Hfin Hk Hc Hf arrivals.
  assert (has_fault c.(stream_name) sc.(faults) = false) as Hno.
  { unfold has_fault. apply not_true_iff_false. rewrite existsb_exists. intros (f & Hin & E). apply bool_decide_eq_true in E.
    rewrite Forall_forall in Hf. apply (Hf f); [by rewrite list_elem_of_In|done]. }
  pose proof (session_view _ _ _ _ _ _ _ _ _ _ _ _ _ HS Hrun Hfin k c Hk Hc) as H. unfold first_engine in H.
  rewrite Hno in H. destruct H as (m & (H1 & H2 & _) & ->). eexists. split; [exact H1|]. split; [exact H2|].
  destruct (arrivals_measured sc c arrivals) as [M1 M2 M3 _ M5 M6]. done.
Qed.

(** C37: a stream with faults is accounted for.  What its metrics have
    received is what its engine forwarded, and with the messages dropped and
    the one held back for reordering it makes up the arrivals and the
    duplicates (up to the width of the counters); after [finish] no message is
    left in the delay queue. *)
Theorem stream_faults_accounted sc ns port at_ g0 evs rounds r0 r1 result r2 files calls k c :
  Started sc ns port at_ g0 r0 -> run evs r0 = Ok r1 -> finish rounds r1 = Ok (result, r2, files, calls) ->
  sc.(streams) !! k = Some c -> c.(stream_name) <> "can"%string -> has_fault c.(stream_name) sc.(faults) = true ->
  let arrivals := omap (stream_arrival at_ c.(stream_name)) evs in
  exists m e, metrics_ r2 !! k = Some m /\ m.(name_) = c.(stream_name) /\
    map_find c.(stream_name) (stream_faults_ r2) = Some (k, e) /\ Faults.delayed_ e = [] /\
    m.(latencies_ms_) = map (fun buf => (read_message buf).1) (Faults.written e) /\
    m.(received_) = u64 (Z.of_nat (length (Faults.written e))) /\
    Faults.eqm (m.(received_) + Faults.dropped (Faults.stats e) + (if Faults.held_ e is Some _ then 1 else 0))
               (Z.of_nat (length arrivals) + Faults.duplicated (Faults.stats e)).
Proof.
  intros HS Hrun Hfin Hk Hc Hf arrivals.
  pose proof (session_view _ _ _ _ _ _ _ _ _ _ _ _ _ HS Hrun Hfin k c Hk Hc) as H. unfold first_engine in H.
  rewrite Hf in H. destruct H as (e & m & (H1 & H2 & H3) & Hr & Hd & Hm).
  set (ops := omap (stream_op at_ c.(stream_name)) evs ++ [Faults.OFlush]) in *.
  set (rules := stream_rules c.(stream_name) (faults sc)) in *.
  destruct (Faults.engine_spec true rules g0) as (E1 & E2 & E3 & E4 & E5).
  assert (concat (map Faults.op_frames ops) = map message arrivals) as Hops
    by (subst ops; rewrite map_app, concat_app, ops_messages; cbn; apply app_nil_r).
  destruct (Faults.run_spec uniform_real uniform_int (clock c.(stream_name)) pop uniform_int_range pop_spec _ _ _ Hr)
    as [[[a Ha] _ _ Hl] _]. rewrite Hops, length_map, E3 in Ha.
  assert (Faults.eqm (Z.of_nat (length (Faults.written e))) (Faults.forwarded (Faults.stats e))) as [x Hx].
  { apply Hl; [done|]. unfold Faults.frames in E4. apply app_nil in E4 as [-> _]. rewrite E5. by exists 0. }
  assert (Forall (fun f => length f = 16%nat) (Faults.written e)) as Hlen.
  { assert (FaultRuns.all_length 16 (Faults.engine true rules g0)) as H0 by (split; [done|by rewrite E4]).
    assert (Forall (fun o => Forall (fun f => length f = 16%nat) (Faults.op_frames o)) ops) as Ho
      by (apply Forall_app; split; [apply ops_lengths|repeat constructor]).
    destruct (run_all_length 16 _ _ _ _ Ho H0 Hr) as [_ Hfr].
    unfold Faults.frames in Hfr. by apply Forall_app in Hfr as [? _]. }
  rewrite on_writes_records in Hm by done.
  destruct (arrivals_measured sc c (map read_message (Faults.written e))) as [M1 M2 _ _ _ _]. rewrite <- Hm in M1, M2.
  rewrite length_map in M2. exists m, e. split; [done|]. split; [done|]. split; [done|]. split; [done|].
  split; [by rewrite M1, map_map|]. split; [exact M2|].
  destruct (Faults.u64_eqm (Z.of_nat (length (Faults.written e)))) as [y Hy]. exists (a + x + y). rewrite M2.
  unfold Faults.weight, Faults.stats in *. rewrite Hd in Ha. cbn [length] in Ha.
  destruct (Faults.held_ e); lia.
Qed.

(** C38: a delay does not lengthen a latency, it only reorders the records.
    When all faults of a stream are delays, its metrics are, after [finish],
    those of the same arrivals (latency and time of each as they were when it
    arrived) in some other order: [record] takes both before the engine delays
    the message and the engine's callback reads them back.  So the latencies
    and their number are those without the fault; the first and the last
    arrival, and with them the drop rate, are those of the messages that come
    out first and last ([delay_changes_drop_rate]). *)
Theorem delay_only_reorders sc ns port at_ g0 evs rounds r0 r1 result r2 files calls k c :
  Started sc ns port at_ g0 r0 -> run evs r0 = Ok r1 -> finish rounds r1 = Ok (result, r2, files, calls) ->
  sc.(streams) !! k = Some c -> c.(stream_name) <> "can"%string -> has_fault c.(stream_name) sc.(faults) = true ->
  Forall (fun f => f.(stream) = c.(stream_name) -> f.(type) = kDelay) sc.(faults) ->
  let arrivals := omap (stream_arrival at_ c.(stream_name)) evs in
  Forall (fun a => valid_double a.1 /\ valid_double a.2) arrivals ->
  exists m released, metrics_ r2 !! k = Some m /\ m.(name_) = c.(stream_name) /\
    released ≡ₚ arrivals /\ m = foldl add_arrival (first_metrics sc c) released /\
    m.(latencies_ms_) ≡ₚ map fst arrivals /\ m.(received_) = u64 (Z.of_nat (length arrivals)) /\
    (forall a, head released = Some a -> m.(first_arrival_s_) = a.2) /\
    (forall a, last released = Some a -> m.(last_arrival_s_) = a.2).
Proof.
  intros HS Hrun Hfin Hk Hc Hf Hdel arrivals Hv.
  pose proof (session_view _ _ _ _ _ _ _ _ _ _ _ _ _ HS Hrun Hfin k c Hk Hc) as H. unfold first_engine in H.
  rewrite Hf in H. destruct H as (e & m & (H1 & H2 & _) & Hr & Hd & Hm).
  set (rules := stream_rules c.(stream_name) (faults sc)) in *.
  destruct (Faults.engine_spec true rules g0) as (E1 & E2 & _ & E4 & _).
  assert (FaultRuns.delays_only rules) as Hdo.
  { subst rules. unfold stream_rules, FaultRuns.delays_only. clear -Hdel.
    induction Hdel as [|f l Hf _ IH]; cbn [List.filter map]; [constructor|]. case_bool_decide as E; [|exact IH]. cbn [map].
    constructor; [|exact IH]. unfold to_fault_rule. cbn. by rewrite (Hf E). }
  destruct (FaultRuns.run_delay uniform_real uniform_int (clock c.(stream_name)) pop pop_spec _ _ _ Hr) as [Hfr Hh].
  { by rewrite E2. }
  { unfold Faults.frames in E4. by destruct (Faults.held_ (Faults.engine true rules g0)); apply app_nil in E4 as [_ E4]. }
  { done. }
  rewrite map_app, concat_app, ops_messages, E4 in Hfr. fold arrivals in Hfr. cbn [map concat Faults.op_frames] in Hfr.
  unfold Faults.frames in Hfr. rewrite Hh, Hd in Hfr. cbn [option_list app map] in Hfr. rewrite !app_nil_r in Hfr.
  assert (map read_message (Faults.written e) ≡ₚ arrivals) as Hp.
  { rewrite Hfr, map_map. replace (map (fun x => read_message (message x)) arrivals) with arrivals; [done|].
    clear -Hv. induction Hv as [|a l [Ha1 Ha2] _ IH]; cbn [map]; [done|]. by rewrite read_message_ok, <- IH by done. }
  rewrite on_writes_records in Hm.
  2:{ rewrite Hfr. apply Forall_forall. intros x Hx. apply list_elem_of_In, in_map_iff in Hx as (a & <- & _). apply length_message. }
  destruct (arrivals_measured sc c (map read_message (Faults.written e))) as [M1 M2 _ _ M5 M6]. rewrite <- Hm in M1, M2, M5, M6.
  exists m, (map read_message (Faults.written e)). do 4 (split; [done|]). rewrite M1, M2, Hp. done.
Qed.

Definition counted (m : StreamMetrics) : Prop := 0 <= m.(received_) < 2 ^ 53 /\ 0 <= m.(sequence_gaps_) < 2 ^ 53.

Lemma report_rows mm streams dur result rep at_ ms :
  Report.build_report at_ result mm streams dur = Ok rep ->
  Forall (Report.has_stream mm) ms -> Forall counted ms -> map name_ ms = streams ->
  Report.r_passed rep = result.(scenario_passed) /\
  Report.r_assertions rep = map Report.assertion_report result.(results) /\
  Forall (fun m => exists row, map_find m.(name_) rep.(Report.per_sensor) = Some row /\ Report.stream_row m row) ms /\
  (forall s, s ∉ streams -> map_find s rep.(Report.per_sensor) = None).
Proof.
  intros Hb Hms Hc <-.
  set (f := fun s => match Report.sensor_metrics mm s with Ok x => x | _ => Report.sample_sensor end).
  assert (Forall (fun m => exists row, Report.sensor_metrics mm m.(name_) = Ok row /\ Report.stream_row m row) ms) as Hrow.
  { apply Forall_forall. intros m Hm. rewrite Forall_forall in Hms, Hc. destruct (Hc m Hm) as (H1 & H2).
    exact (Report.sensor_metrics_row mm m (Hms m Hm) H1 H2). }
  destruct (Report.sensors_loop_spec mm f (map name_ ms) []) as (l & El & _ & Hl); [|constructor|].
  { clear -Hrow. induction Hrow as [|m ms (row & E & _) _ IH]; cbn [map]; constructor; [|exact IH]. subst f. cbn. by rewrite E. }
  unfold Report.build_report in Hb. rewrite El in Hb. cbn [mbind outcome_bind] in Hb.
  destruct (cast_uint64 (Report.metric_or mm "transport_crc_failures" d_zero)); cbn [mbind outcome_bind] in Hb; try done.
  destruct (cast_uint64 (Report.metric_or mm "transport_sequence_gaps" d_zero)); cbn [mbind outcome_bind] in Hb; try done.
  destruct (cast_uint64 (Report.metric_or mm "transport_retransmits" d_zero)); cbn [mbind outcome_bind] in Hb; try done.
  injection Hb as <-. cbn. split; [done|]. split; [done|]. split.
  - apply Forall_forall. intros m Hm. rewrite Forall_forall in Hrow. destruct (Hrow m Hm) as (row & E & Hs). exists row.
    rewrite Hl, bool_decide_true by (rewrite list_elem_of_In; apply in_map; by rewrite <- list_elem_of_In).
    subst f. cbn. by rewrite E.
  - intros s Hs. by rewrite Hl, bool_decide_false.
Qed.

(** C12: the verdict is about the metrics of the streams.  When it ends (sorting
    latencies with a NaN among them is undefined), [finish] has evaluated
    the assertions on a map that has, for every stream, the statistics of its
    metrics under its own keys and nothing else (no stream overwrites
    another), and passes exactly when all of them hold; it leaves no child and
    no reader; the report it writes has the verdict, one row per stream with
    the same statistics, and the results of the assertions. *)
Theorem finish_verdict rounds r result r' files calls :
  runner_ok r -> finish rounds r = Ok (result, r', files, calls) -> Forall counted (metrics_ r') ->
  map name_ (metrics_ r) = map stream_name (scenario_ r).(streams) ->
  exists mm, Forall (Report.has_stream mm) (metrics_ r') /\
    (forall k, (forall m sf, m ∈ metrics_ r' -> sf ∈ suffixes -> k <> (m.(name_) +:+ sf)%string) -> mm !! k = None) /\
    (result.(scenario_passed) = true <-> Forall (holds mm) (scenario_ r).(assertions)) /\
    child_pids_ r' = [] /\ can_reader_ r' = None /\
    if bool_decide (report_dir_ r' = ""%string) then files = []
    else exists rep, Report.r_passed rep = result.(scenario_passed) /\
      Report.r_assertions rep = map Report.assertion_report result.(results) /\
      Forall (fun m => exists row, map_find m.(name_) rep.(Report.per_sensor) = Some row /\ Report.stream_row m row) (metrics_ r') /\
      let base := (report_dir_ r' +:+ "/" +:+ (scenario_ r').(Scenario.name))%string in
      (opens (base +:+ ".json")%string = true -> ((base +:+ ".json")%string, Report.to_json dump rep) ∈ files) /\
      (opens (base +:+ ".html")%string = true -> exists h, Report.to_html rep = Ok h /\ ((base +:+ ".html")%string, h) ∈ files).
Proof.
  intros Hok Hfin Hcnt Hnames.
  destruct (finish_view now dump opens good pop_spec rounds r result r' files calls Hok Hfin)
    as (Hsc & Hn & _ & Hp & Hc & _ & mm & Em & Hr & reg & Hw).
  destruct (emit_all_spec (metrics_ r') ∅ mm) as (HF & HU); [rewrite Hn; apply Hok|exact Em|]. exists mm. split; [done|]. split; [intros k Hk; by rewrite HU|].
  split; [rewrite Hr; unfold evaluate_all; rewrite evaluate_all_loop; apply all_hold|]. split; [done|]. split; [done|].
  unfold write_reports in Hw. cbn [report_dir_ scenario_ set_registry] in Hw. case_bool_decide as Ed; [by injection Hw as <-|].
  destruct (Report.build_report _ _ _ _ _) as [rep| |] eqn:Eb; cbn [mbind outcome_bind] in Hw; try done.
  destruct (report_rows mm _ _ result rep _ (metrics_ r') Eb HF Hcnt) as (R1 & R2 & R3 & _); [by rewrite Hn, Hnames, Hsc|].
  exists rep. split; [done|]. split; [done|]. split; [done|]. cbv zeta in Hw |- *.
  unfold Report.write_json, Report.write_html in Hw.
  set (json := ((report_dir_ r' +:+ "/" +:+ Scenario.name (scenario_ r')) +:+ ".json")%string) in *.
  set (html := ((report_dir_ r' +:+ "/" +:+ Scenario.name (scenario_ r')) +:+ ".html")%string) in *.
  split.
  - intros Ho. rewrite Ho in Hw. cbn [negb snd] in Hw.
    destruct (if negb (opens html) then _ else _) as [[ok h]| |]; cbn [mbind outcome_bind snd] in Hw; try done.
    injection Hw as <-. left.
  - intros Ho. rewrite Ho in Hw. cbn [negb] in Hw. destruct (Report.to_html rep) as [h| |]; cbn [mbind outcome_bind snd] in Hw; try done.
    injection Hw as <-. exists h. split; [done|]. apply elem_of_app. right. left.
Qed.

End Sessions.

End Streams.

(** ** Reaping *)

Definition call_pid (c : syscall) : Z :=
  match c with SigInt p | SigKill p | WaitNoHang p _ | Wait p => p end.

(** The calls on a process, in order. *)
Definition calls_on (pid : Z) (calls : list syscall) : list syscall :=
  List.filter (fun c => call_pid c =? pid) calls.

(** The entries that are still processes. *)
Definition positive (pids : list Z) : list Z := List.filter (fun pid => 0 <? pid) pids.

Lemma calls_on_app pid a b : calls_on pid (a ++ b) = calls_on pid a ++ calls_on pid b.
Proof. apply List.filter_app. Qed.

(** The calls of a loop over processes, on one of them. *)
Lemma calls_on_loop (f : Z -> list syscall) pid pids :
  (forall p, Forall (fun c => call_pid c = p) (f p)) -> NoDup pids ->
  calls_on pid (concat (map f pids)) = if bool_decide (pid ∈ pids) then f pid else [].
Proof.
  intros Hf. assert (forall p, calls_on pid (f p) = if bool_decide (p = pid) then f p else []) as H.
  { intros p. specialize (Hf p). unfold calls_on. induction Hf as [|c l Hc _ IH]; cbn [List.filter]; [by case_match|].
    rewrite Hc, IH. case_bool_decide as E; [by rewrite (proj2 (Z.eqb_eq _ _) E)|by rewrite (proj2 (Z.eqb_neq _ _) E)]. }
  induction 1 as [|p pids Hp _ IH]; cbn [map concat]; [done|]. rewrite calls_on_app, H, IH.
  destruct (decide (p = pid)) as [->|Hne].
  - rewrite (bool_decide_true (pid = pid)), (bool_decide_false (pid ∈ pids)), bool_decide_true by (done || left). apply app_nil_r.
  - rewrite (bool_decide_false (p = pid)) by done. cbn [app]. destruct (decide (pid ∈ pids)) as [Hin|Hin].
    + by rewrite !bool_decide_true by (done || by right).
    + rewrite !bool_decide_false; [done| |done]. rewrite elem_of_cons. intros [->|?]; done.
Qed.

Lemma poll_round_spec gone pending :
  let r := poll_round gone pending in
  positive r.1.1 = List.filter (fun pid => negb (gone pid)) (positive pending) /\
  r.1.2 = existsb (fun pid => negb (gone pid)) (positive pending) /\
  r.2 = map (fun pid => WaitNoHang pid (gone pid)) (positive pending).
Proof.
  induction pending as [|pid rest IH]; cbn [poll_round]; [done|]. destruct (poll_round gone rest) as [[p' alive] tr].
  cbn [fst snd] in IH. destruct IH as (H1 & H2 & H3). subst alive tr. unfold positive in *. cbn [List.filter].
  destruct (Z.leb_spec pid 0) as [Hle|Hgt].
  - rewrite (proj2 (Z.ltb_ge _ _) Hle). cbn [fst snd List.filter]. by rewrite (proj2 (Z.ltb_ge _ _) Hle).
  - rewrite (proj2 (Z.ltb_lt _ _) Hgt). destruct (gone pid) eqn:Eg; cbn [fst snd List.filter existsb map negb orb]; rewrite Eg; cbn [negb orb].
    + done.
    + rewrite (proj2 (Z.ltb_lt _ _) Hgt). by rewrite H1.
Qed.

Lemma map_concat {A B} (f : A -> B) l : map f l = concat (map (fun x => [f x]) l).
Proof. induction l as [|x l IH]; cbn; [done|]. by rewrite IH. Qed.

(** Polling: a process is polled until it is gone. *)
Lemma poll_spec rounds pending :
  NoDup (positive pending) ->
  let r := poll rounds pending in
  NoDup (positive r.1) /\ (forall pid, pid ∈ positive r.1 -> pid ∈ positive pending) /\
  forall pid, if bool_decide (pid ∈ positive pending)
    then exists n, calls_on pid r.2 = replicate n (WaitNoHang pid false) ++
                     (if bool_decide (pid ∈ positive r.1) then [] else [WaitNoHang pid true])
    else calls_on pid r.2 = [].
Proof.
  revert pending. induction rounds as [|gone rounds IH]; intros pending Hnd; cbn [poll].
  { cbn [fst snd]. split; [done|]. split; [done|]. intros pid. case_bool_decide; [|done]. by exists 0%nat. }
  destruct (poll_round_spec gone pending) as (H1 & H2 & H3). destruct (poll_round gone pending) as [[p1 alive] tr].
  cbn [fst snd] in H1, H2, H3.
  assert (NoDup (positive p1)) as Hnd1 by (rewrite H1; by apply NoDup_ListNoDup, List.NoDup_filter, NoDup_ListNoDup).
  assert (forall pid, pid ∈ positive p1 <-> pid ∈ positive pending /\ gone pid = false) as Hin.
  { intros pid. rewrite H1, !list_elem_of_In, List.filter_In. by rewrite negb_true_iff. }
  assert (forall pid, calls_on pid tr = if bool_decide (pid ∈ positive pending) then [WaitNoHang pid (gone pid)] else []) as Htr.
  { intros pid. rewrite H3, map_concat. apply calls_on_loop; [|done]. intros p. by repeat constructor. }
  destruct alive; cbn [negb].
  - specialize (IH p1 Hnd1). destruct (poll rounds p1) as [p2 tr2]. cbn [fst snd] in IH |- *. destruct IH as (I1 & I2 & I3).
    split; [done|]. split; [intros pid Hp; by apply I2, Hin in Hp as [? _]|]. intros pid. rewrite calls_on_app, Htr. specialize (I3 pid).
    destruct (decide (pid ∈ positive pending)) as [Ep|Ep]; [rewrite !(bool_decide_true (pid ∈ positive pending)) by done|
      rewrite !(bool_decide_false (pid ∈ positive pending)) by done].
    + destruct (gone pid) eqn:Eg.
      * rewrite (bool_decide_false (pid ∈ positive p1)) in I3 by (rewrite Hin; intros [_ ?]; congruence). rewrite I3.
        exists 0%nat. rewrite bool_decide_false; [done|]. intros Hp. apply I2, Hin in Hp as [_ ?]. congruence.
      * rewrite (bool_decide_true (pid ∈ positive p1)) in I3 by (by rewrite Hin). destruct I3 as [n ->]. by exists (S n).
    + rewrite (bool_decide_false (pid ∈ positive p1)) in I3 by (rewrite Hin; by intros [? _]). done.
  - cbn [fst snd]. split; [done|]. split; [intros pid Hp; by apply Hin in Hp as [? _]|]. intros pid. rewrite Htr.
    case_bool_decide as Ep; [|done]. exists 0%nat.
    assert (gone pid = true) as Hg.
    { apply not_false_iff_true. intros Hg. symmetry in H2. apply not_true_iff_false in H2. apply H2, existsb_exists.
      exists pid. rewrite <- list_elem_of_In, Hg. done. }
    rewrite bool_decide_false by (rewrite Hin; intros [_ ?]; congruence). by rewrite Hg.
Qed.

(** C20: no child is left behind, and none is touched after it is gone.
    Whatever the kernel answers and however many rounds there are before the
    deadline, every child gets one [SIGINT], is then polled until it is gone,
    and if it never is, killed and waited for: it is reaped exactly once, and
    no call names its pid after that (the pid may by then be another
    process).  No other pid is signalled or waited for; in particular none
    that is 0 or negative, which would address a group. *)
Theorem reap_children_safe rounds pids pid :
  NoDup (positive pids) ->
  if bool_decide (pid ∈ positive pids) then
    exists n, calls_on pid (reap_children rounds pids) = SigInt pid :: replicate n (WaitNoHang pid false) ++ [WaitNoHang pid true] \/
              calls_on pid (reap_children rounds pids) = SigInt pid :: replicate n (WaitNoHang pid false) ++ [SigKill pid; Wait pid]
  else calls_on pid (reap_children rounds pids) = [].
Proof.
  intros Hnd. pose proof (poll_spec rounds pids Hnd) as H. unfold reap_children.
  destruct pids as [|x l]; [done|]. set (pids := x :: l) in *. destruct (poll rounds pids) as [pending tr]. cbn [fst snd] in H.
  destruct H as (H1 & H2 & H3). specialize (H3 pid). fold (positive pids) (positive pending). rewrite !calls_on_app, map_concat.
  rewrite (calls_on_loop (fun p => [SigInt p])) by (done || intros p; by repeat constructor).
  rewrite (calls_on_loop (fun p => [SigKill p; Wait p])) by (done || intros p; by repeat constructor).
  case_bool_decide as Ep.
  - destruct H3 as [n ->]. exists n. case_bool_decide; [right|left]; cbn [app]; by rewrite ?app_nil_r.
  - rewrite H3, bool_decide_false; [done|]. intros Hp. by apply Ep, H2.
Qed.

(** ** A sample session *)

Definition sample_fault (t : FaultType) (s : string) : FaultSpec :=
  {| stream := s; start_seconds := d_zero; duration_seconds := d_of_Z 10; type := t; params := {["delay_ms" := d_of_Z 50]} |}.

Definition sample_scenario : Scenario :=
  {| name := "city"; scenario_duration := d_of_Z 10;
     streams := [{| stream_name := "lidar"; rate_hz := d_of_Z 10 |}; {| stream_name := "imu"; rate_hz := d_of_Z 100 |};
                 {| stream_name := "gps"; rate_hz := d_of_Z 1 |}];
     faults := [sample_fault kDelay "imu"; sample_fault kDuplicate "gps"; sample_fault kDrop ""];
     assertions := [{| metric := "imu_latency_p99_ms"; op := kLessThan; value := d_of_Z 20; window_seconds := None |};
                    {| metric := "lidar_received"; op := kEquals; value := d_of_Z 1; window_seconds := None |}] |}.

Definition sample_seconds (ns : Z) : double := d_div (d_of_Z ns) (d_of_Z 1000000000).
Definition sample_spawn (n : nat) (args : list string) : option Z := if bool_decide (n = 2%nat) then None else Some (Z.of_nat n + 100).
Definition sample_clock (s : string) : nat -> double := Faults.toy_clock.

(** Latencies of 5, 6 and 4 ms for [imu], 10 for [lidar], 30 for [gps]. *)
Definition sample_events : list event :=
  [Arrival "imu" 1000000000 1000000000 995000000; Arrival "lidar" 1200000000 1200000000 1190000000;
   Worker "imu"; Arrival "imu" 1500000000 1500000000 1494000000; Arrival "gps" 1600000000 1600000000 1570000000;
   Arrival "imu" 2000000000 2000000000 1996000000; Refresh].

Definition sample_new : Runner Z := set_metrics_port 0 (set_report_dir "out" (construct sample_scenario "/s" 0)).

Definition sample_r0 : Runner Z :=
  match start sample_spawn 5 true true 0 0 sample_new with Ok r => r | _ => sample_new end.
Definition sample_r1 : Runner Z :=
  match run true sample_seconds Faults.toy_real Faults.toy_int sample_clock Faults.pop_min sample_events sample_r0 with
  | Ok r => r | _ => sample_new end.
Definition sample_rounds : list (Z -> bool) := [fun pid => pid =? 101; fun _ => false].
Abbreviation sample_finish :=
  (finish true Faults.pop_min "now" (fun _ => "{}"%string) (fun _ => true) (fun _ => true) sample_rounds sample_r1).
Definition sample_end : ScenarioResult * Runner Z * list (string * string) * list syscall :=
  match sample_finish with
  | Ok x => x | _ => ({| scenario_name := ""; scenario_passed := false; results := [] |}, sample_new, [], []) end.

Lemma sample_runs :
  start sample_spawn 5 true true 0 0 sample_new = Ok sample_r0 /\
  run true sample_seconds Faults.toy_real Faults.toy_int sample_clock Faults.pop_min sample_events sample_r0 = Ok sample_r1 /\
  sample_finish = Ok sample_end.
Proof. split; [|split]; vm_compute; reflexivity. Qed.

Lemma sample_started : Started sample_spawn sample_scenario "/s" 0 0 0 sample_r0.
Proof.
  assert (NoDup (map stream_name (streams sample_scenario))) as Hnd by (apply (bool_decide_unpack _); vm_compute; exact I).
  exact (start_started sample_spawn sample_scenario "/s" 0 "out" 0 5 true true 0 0 sample_r0 Hnd (proj1 sample_runs)).
Qed.

Lemma sample_finished : exists result r2 files calls, sample_finish = Ok (result, r2, files, calls) /\ sample_end = (result, r2, files, calls).
Proof.
  pose proof (proj2 (proj2 sample_runs)) as H. generalize dependent sample_end. intros [[[a b] c] d] H.
  exists a, b, c, d. exact (conj H eq_refl).
Qed.

Lemma start_installs_witness :
  exists r : Runner Z, start sample_spawn 5 true true 0 0 sample_new = Ok r /\
    map_find "lidar" (stream_faults_ r) = None /\
    map_find "imu" (stream_faults_ r) = Some (1%nat, Faults.engine true [to_fault_rule (sample_fault kDelay "imu")] 0) /\
    child_pids_ r = [101; 103].
Proof.
  destruct (start_installs (G := Z) sample_spawn sample_scenario "/s" 0 "out" 0 5 true true 0 0) as (r & E & _ & HE & _ & _ & HP & _).
  { apply (bool_decide_unpack _); vm_compute; exact I. }
  exists r. split; [exact E|]. split; [|split].
  - destruct (map_find "lidar" (stream_faults_ r)) as [[i e]|] eqn:Ef; [|reflexivity]. exfalso.
    apply HE in Ef as (c & _ & _ & Hr & _). apply Hr. reflexivity.
  - apply HE. eexists. split; [reflexivity|]. split; [reflexivity|]. split; [vm_compute; discriminate|reflexivity].
  - rewrite HP. reflexivity.
Defined.

Lemma unfaulted_stream_recorded_witness :
  exists m, metrics_ sample_end.1.1.2 !! 0%nat = Some m /\ latencies_ms_ m = [d_of_Z 10] /\ received_ m = 1.
Proof.
  destruct sample_finished as (result & r2 & files & calls & Hf & ->).
  destruct (unfaulted_stream_recorded true sample_seconds Faults.toy_real Faults.toy_int sample_clock Faults.pop_min
    sample_spawn "now" (fun _ => "{}"%string) (fun _ => true) (fun _ => true) Faults.toy_int_range Faults.pop_min_spec
    sample_scenario "/s" 0 0 0 sample_events sample_rounds sample_r0 sample_r1 result r2 files calls 0%nat
    {| stream_name := "lidar"; rate_hz := d_of_Z 10 |} sample_started (proj1 (proj2 sample_runs)) Hf)
    as (m & H1 & _ & H2 & H3 & _); [reflexivity|discriminate|repeat constructor; discriminate|].
  exists m. split; [exact H1|]. rewrite H2, H3. split; vm_compute; reflexivity.
Defined.

Lemma stream_faults_accounted_witness :
  exists m e, metrics_ sample_end.1.1.2 !! 2%nat = Some m /\ map_find "gps" (stream_faults_ sample_end.1.1.2) = Some (2%nat, e) /\
    Faults.eqm (received_ m + Faults.dropped (Faults.stats e) + (if Faults.held_ e is Some _ then 1 else 0))
               (1 + Faults.duplicated (Faults.stats e)).
Proof.
  destruct sample_finished as (result & r2 & files & calls & Hf & ->).
  destruct (stream_faults_accounted true sample_seconds Faults.toy_real Faults.toy_int sample_clock Faults.pop_min
    sample_spawn "now" (fun _ => "{}"%string) (fun _ => true) (fun _ => true) Faults.toy_int_range Faults.pop_min_spec
    sample_scenario "/s" 0 0 0 sample_events sample_rounds sample_r0 sample_r1 result r2 files calls 2%nat
    {| stream_name := "gps"; rate_hz := d_of_Z 1 |} sample_started (proj1 (proj2 sample_runs)) Hf)
    as (m & e & H1 & _ & H2 & _ & _ & _ & H3); [reflexivity|discriminate|reflexivity|].
  exists m, e. split; [exact H1|]. split; [exact H2|]. exact H3.
Defined.

Lemma delay_only_reorders_witness :
  exists m, metrics_ sample_end.1.1.2 !! 1%nat = Some m /\ latencies_ms_ m ≡ₚ [d_of_Z 5; d_of_Z 6; d_of_Z 4].
Proof.
  destruct sample_finished as (result & r2 & files & calls & Hf & ->).
  destruct (delay_only_reorders true sample_seconds Faults.toy_real Faults.toy_int sample_clock Faults.pop_min
    sample_spawn "now" (fun _ => "{}"%string) (fun _ => true) (fun _ => true) Faults.toy_int_range Faults.pop_min_spec
    sample_scenario "/s" 0 0 0 sample_events sample_rounds sample_r0 sample_r1 result r2 files calls 1%nat
    {| stream_name := "imu"; rate_hz := d_of_Z 100 |} sample_started (proj1 (proj2 sample_runs)) Hf)
    as (m & released & H1 & _ & _ & _ & H2 & _).
  - reflexivity.
  - discriminate.
  - reflexivity.
  - repeat constructor; intros H; discriminate H.
  - repeat constructor; vm_compute; reflexivity.
  - exists m. split; [exact H1|]. rewrite H2. vm_compute. reflexivity.
Defined.

(** Two messages at 9.99 and 10.01 s, in a scenario of 20 s with a rate of 1;
    a delay of 50 ms until second 10 makes the first come out last.  The window
    of arrivals is negative then, and the drop rate jumps from 0 to 90 per
    cent. *)
Definition late_scenario (fs : list FaultSpec) : Scenario :=
  {| name := "late"; scenario_duration := d_of_Z 20; streams := [{| stream_name := "imu"; rate_hz := d_one |}];
     faults := fs; assertions := [] |}.

Definition late_events : list event :=
  [Arrival "imu" 9990000000 9990000000 9985000000; Arrival "imu" 10010000000 10010000000 10005000000; Worker "imu"].

Definition late_drop_rate (fs : list FaultSpec) : outcome (list double) :=
  r ← start (fun _ _ => None) 5 true true 0 0 (construct (late_scenario fs) "/s" 0);
  r ← run true sample_seconds Faults.toy_real Faults.toy_int sample_clock Faults.pop_min late_events r;
  res ← finish true Faults.pop_min "now" (fun _ => "{}"%string) (fun _ => true) (fun _ => true) [] r;
  Ok (map drop_rate_pct (metrics_ res.1.1.2)).

Example delay_changes_drop_rate :
  late_drop_rate [] = Ok [d_zero] /\ late_drop_rate [sample_fault kDelay "imu"] = Ok [d_of_Z 90].
Proof. split; vm_compute; reflexivity. Qed.

#[global] Instance counted_dec m : Decision (counted m).
Proof. unfold counted. apply _. Defined.

Lemma sample_metrics : Forall counted (metrics_ sample_end.1.1.2).
Proof. apply (bool_decide_unpack _). vm_compute. exact I. Qed.

Lemma sample_ok : runner_ok sample_r1.
Proof.
  exact (proj1 (run_view true sample_seconds Faults.toy_real Faults.toy_int sample_clock Faults.pop_min Faults.toy_int_range
    Faults.pop_min_spec sample_events sample_r0 sample_r1 (proj1 sample_started) (proj1 (proj2 sample_runs)))).
Qed.

(** Both assertions hold: [imu] is below 20 ms in spite of delays of 50 ms. *)
Lemma finish_verdict_witness :
  exists mm, (sample_end.1.1.1.(scenario_passed) = true <-> Forall (holds mm) (scenario_ sample_r1).(assertions)) /\
    sample_end.1.1.1.(scenario_passed) = true.
Proof.
  assert (sample_end.1.1.1.(scenario_passed) = true) as Hpass by (vm_compute; reflexivity).
  pose proof sample_metrics as Hm.
  assert (map name_ (metrics_ sample_r1) = map stream_name (streams (scenario_ sample_r1))) as Hs by (vm_compute; reflexivity).
  destruct sample_finished as (result & r2 & files & calls & Hf & E). rewrite E in *. cbn [fst snd] in *.
  destruct (finish_verdict true Faults.pop_min "now" (fun _ => "{}"%string) (fun _ => true) (fun _ => true)
    Faults.pop_min_spec sample_rounds sample_r1 result r2 files calls sample_ok Hf Hm Hs) as (mm & _ & _ & Hv & _).
  exists mm. split; [exact Hv|exact Hpass].
Defined.

Lemma reap_children_safe_witness :
  exists n, calls_on 103 (reap_children sample_rounds [101; 103]) = SigInt 103 :: replicate n (WaitNoHang 103 false) ++ [SigKill 103; Wait 103].
Proof.
  assert (NoDup (positive [101; 103])) as Hnd by (apply (bool_decide_unpack _); vm_compute; exact I).
  pose proof (reap_children_safe sample_rounds [101; 103] 103 Hnd) as H.
  rewrite bool_decide_true in H by (apply (bool_decide_unpack _); vm_compute; exact I).
  destruct H as [n [H|H]]; [|by exists n].
  exists 2%nat. vm_compute. reflexivity.
Defined.

End ScenarioRunner.
