(* ===== verification/CanSession.v ===== *)
(** * The CAN socket over a run of the scenario runner

    [ScenarioRunner::start_can_reader], [can_reader_loop] and
    [stop_can_reader] (src/scenario/scenario_runner.cpp) share the descriptor
    [can_fd_].  However the set-up of the thread ends, and whatever the run does
    between [start] and [finish], the descriptor is closed exactly once, and
    never by a run that has no CAN stream. *)

From Stdlib Require Import ZArith List String.
From stdpp Require Import base list option gmap strings.
From S2P Require Import Prelude CanBus Evaluation Faults Registry Report ScenarioRunner.
Import ScenarioRunner(Runner, event, can_socket_, can_reader_, run, finish, step, can_open, CanOpen).
Open Scope Z_scope.

Module CanSession.

(** The descriptors [socket] gave to the CAN thread. *)
Definition opened (ev : event) : option Z :=
  match ev with CanOpen fd _ _ => if fd <? 0 then None else Some fd | _ => None end.

Definition idle : CanBus.reader_socket := CanBus.mkReaderSocket (-1) [].

(** Closing [s] closes the descriptors [l], in order. *)
Definition closes (s : CanBus.reader_socket) (l : list Z) : Prop :=
  CanBus.close_reader s = CanBus.mkReaderSocket (-1) l.

Section Run.
Context {G : Type} (little : bool) (seconds : Z -> double)
        (uniform_real : G -> double * G) (uniform_int : Z -> Z -> G -> Z * G)
        (clock : string -> nat -> double)
        (pop : list Faults.Delayed -> option (Faults.Delayed * list Faults.Delayed)).
Abbreviation step := (step little seconds uniform_real uniform_int clock pop).
Abbreviation run := (run little seconds uniform_real uniform_int clock pop).

(** Only the set-up of the thread touches the socket, and no step starts or ends the thread. *)
Lemma step_socket ev (r r' : Runner G) :
  step ev r = Ok r' ->
  (can_reader_ r' = None <-> can_reader_ r = None) /\
  can_socket_ r' = match ev with CanOpen fd found bound => can_socket_ (can_open fd found bound r) | _ => can_socket_ r end.
Proof.
  destruct ev as [s n1 n2 st|s|fd found bound|ev|]; cbn [ScenarioRunner.step].
  - unfold ScenarioRunner.record. cbv zeta. destruct (map_find s _) as [[i e]|].
    + destruct (Faults.process _ _ _ _ _ _ e); cbn [mbind outcome_bind]; try done. by intros [= <-].
    + destruct (ScenarioRunner.metrics_for _ _); by intros [= <-].
  - unfold ScenarioRunner.worker. destruct (map_find s _) as [[i e]|]; [|by intros [= <-]].
    destruct (Faults.worker_step _ _ e); cbn [mbind outcome_bind]; try done. by intros [= <-].
  - intros [= <-]. split; [|done]. unfold can_open. destruct (can_reader_ r) eqn:E; cbn; by rewrite E.
  - unfold ScenarioRunner.can_read. destruct (can_reader_ r) as [[i rd]|] eqn:E; [|by intros [= <-]].
    destruct (ScenarioRunner.metrics_ r !! i); [|done].
    destruct (CanBus.on_read _ _ _ _ rd _); cbn [mbind outcome_bind]; try done. by intros [= <-].
  - unfold ScenarioRunner.refresh. destruct (ScenarioRunner.exporter_ r); [|by intros [= <-]].
    destruct (ScenarioRunner.update_streams _ _); cbn [mbind outcome_bind]; try done. by intros [= <-].
Qed.

(** A step in which [socket] gave no descriptor. *)
Lemma step_quiet ev (r r' : Runner G) :
  step ev r = Ok r' -> opened ev = None -> can_socket_ r' = can_socket_ r.
Proof.
  intros H Ho. destruct (step_socket ev r r' H) as [_ ->]. destruct ev as [| |fd found bound| |]; try done.
  unfold can_open, CanBus.open_reader. cbn in Ho. destruct (can_reader_ r); [|done]. by destruct (fd <? 0).
Qed.

Lemma run_quiet evs (r r' : Runner G) :
  run evs r = Ok r' -> omap opened evs = [] -> can_socket_ r' = can_socket_ r.
Proof.
  revert r. induction evs as [|ev evs IH]; intros r; cbn [ScenarioRunner.run]; [by intros [= <-]|].
  destruct (step ev r) as [r1| |] eqn:E; cbn [mbind outcome_bind]; try done. intros H Ho.
  cbn [omap list_omap] in Ho. destruct (opened ev) eqn:Eo; [done|].
  rewrite (IH r1 H Ho). by apply (step_quiet ev).
Qed.

(** What is left to close after a run in which the thread was set up once at most. *)
Lemma run_socket evs (r r' : Runner G) :
  run evs r = Ok r' -> can_socket_ r = idle -> (length (omap opened evs) <= 1)%nat ->
  closes (can_socket_ r') (if can_reader_ r is Some _ then omap opened evs else []).
Proof.
  revert r. induction evs as [|ev evs IH]; intros r; cbn [ScenarioRunner.run].
  { intros [= <-] ->. by destruct (can_reader_ r). }
  destruct (step ev r) as [r1| |] eqn:E; cbn [mbind outcome_bind]; try done. intros H Hs Hl.
  destruct (step_socket ev r r1 E) as [Hc Hs1]. cbn [omap list_omap] in *.
  destruct (opened ev) as [fd|] eqn:Eo.
  - cbn [length] in Hl. assert (omap opened evs = []) as Hq by (destruct (omap opened evs); [done|cbn in Hl; lia]).
    rewrite Hq. unfold closes. rewrite (run_quiet evs r1 r' H Hq), Hs1.
    destruct ev as [| |fd' found bound| |]; try done. cbn [opened] in Eo. unfold can_open.
    destruct (can_reader_ r) eqn:Er; [|by rewrite Hs]. cbn [can_socket_ ScenarioRunner.set_can_socket]. rewrite Hs.
    destruct (CanBus.reader_socket_closed fd' found bound "vcan0" idle eq_refl) as [H1 H2]. cbv zeta in H1, H2.
    destruct (CanBus.close_reader _) as [a l]. cbn [CanBus.can_fd_ CanBus.closed_fds] in H1, H2. subst a l.
    destruct (fd' <? 0); [done|]. by injection Eo as ->.
  - assert (can_socket_ r1 = idle) as Hi by (rewrite <- Hs; by apply (step_quiet ev)).
    pose proof (IH r1 H Hi Hl) as Hx. destruct (can_reader_ r1) eqn:E1, (can_reader_ r) eqn:E2; try done.
    + discriminate (proj2 Hc eq_refl).
    + discriminate (proj1 Hc eq_refl).
Qed.

Lemma start_stream_socket spawn g0 s (r r' : Runner G) :
  ScenarioRunner.start_stream spawn g0 s r = Ok r' -> can_socket_ r' = can_socket_ r.
Proof.
  unfold ScenarioRunner.start_stream. cbv zeta.
  match goal with |- context [ScenarioRunner.subscribe_stream s ?x] => assert (can_socket_ x = can_socket_ r) as Hx; [|generalize dependent x] end.
  { destruct (ScenarioRunner.has_fault _ _); [|done]. by destruct (map_find _ _). }
  intros x Hx. destruct (ScenarioRunner.subscribe_stream s x) as [y| |] eqn:E; cbn [mbind outcome_bind]; try done.
  intros [= <-]. rewrite <- Hx. transitivity (can_socket_ y).
  { unfold ScenarioRunner.spawn_publisher. by destruct (spawn _ _). }
  revert E. unfold ScenarioRunner.subscribe_stream. cbv zeta. repeat (case_bool_decide; [by intros [= <-]|]).
  case_bool_decide; [|by intros [= <-]]. unfold ScenarioRunner.start_can_reader.
  destruct (ScenarioRunner.metrics_for _ _); [|by intros [= <-]]. destruct (can_reader_ x); [done|]. by intros [= <-].
Qed.

(** [start] opens nothing: the thread does. *)
Lemma start_socket spawn (fd : Z) (bind_ok listen_ok : bool) now g0 (r r' : Runner G) :
  ScenarioRunner.start spawn fd bind_ok listen_ok now g0 r = Ok r' -> can_socket_ r' = can_socket_ r.
Proof.
  assert (forall l (r1 r2 : Runner G), ScenarioRunner.start_streams spawn g0 l r1 = Ok r2 -> can_socket_ r2 = can_socket_ r1) as Hl.
  { induction l as [|s l IH]; intros r1 r2; cbn [ScenarioRunner.start_streams]; [by intros [= <-]|].
    destruct (ScenarioRunner.start_stream spawn g0 s r1) as [ra| |] eqn:E; cbn [mbind outcome_bind]; try done.
    intros H. rewrite (IH _ _ H). revert E. apply start_stream_socket. }
  unfold ScenarioRunner.start. cbv zeta. destruct (ScenarioRunner.start_streams _ _ _ _) as [ra| |] eqn:E; cbn [mbind outcome_bind]; try done.
  apply Hl in E. unfold ScenarioRunner.start_exporter. case_test; [by intros [= <-]|].
  destruct (Registry.start _ _ _ _) as [res| |]; cbn [mbind outcome_bind]; try done. by intros [= <-].
Qed.

Context (now : string) (dump : Report.json -> string) (opens good : string -> bool).

Lemma finish_socket rounds (r : Runner G) result r' files calls :
  finish little pop now dump opens good rounds r = Ok (result, r', files, calls) ->
  can_socket_ r' = CanBus.close_reader (can_socket_ r).
Proof.
  unfold ScenarioRunner.finish. cbv zeta. destruct (ScenarioRunner.flush_all _ _ _ _) as [[fs ms]|]; [|done].
  destruct (ScenarioRunner.emit_all _ _) as [mm| |]; cbn [mbind outcome_bind]; try done.
  match goal with |- mbind ?f ?x = _ -> _ => destruct x as [reg| |] end; cbn [mbind outcome_bind]; try done.
  destruct (ScenarioRunner.write_reports _ _ _ _ _ _ _) as [fl| |]; cbn [mbind outcome_bind]; try done. by intros [= _ <- _ _].
Qed.

(** A scenario from [start] to the end of [finish]: each descriptor of the
    CAN thread is closed, once. *)
Theorem can_socket_closed_once spawn (fd : Z) (bind_ok listen_ok : bool) at_ g0 sc ns evs rounds (r0 r1 r2 : Runner G) result files calls :
  ScenarioRunner.start spawn fd bind_ok listen_ok at_ g0 (ScenarioRunner.construct sc ns at_) = Ok r0 ->
  run evs r0 = Ok r1 -> finish little pop now dump opens good rounds r1 = Ok (result, r2, files, calls) ->
  (length (omap opened evs) <= 1)%nat ->
  can_socket_ r2 = CanBus.mkReaderSocket (-1) (if can_reader_ r0 is Some _ then omap opened evs else []).
Proof.
  intros H0 H1 H2 Hl. rewrite (finish_socket _ _ _ _ _ _ H2). apply start_socket in H0.
  exact (run_socket evs r0 r1 H1 H0 Hl).
Qed.

End Run.
End CanSession.
