(* ===== verification/Drivers.v ===== *)
(** * The drivers ([src/scenario/scenario_main.cpp], [parallel_runner.cpp])

    The two programs around the scenario runner: their arguments, the runs
    and the exit code.  Loading a scenario file and everything the runner has
    as a parameter are parameters here.  The loop of the executor is a list of
    rounds, each with the time of its check and what happens until the next;
    the runners of one program share the CAN bus and the deadline.

    Results: the exit codes; that the runners of the parallel program affect
    each other through the bus and the deadline only; that their namespaces
    are different. *)

From S2P Require Export CppInput ScenarioRunner.
From Stdlib Require Import Ascii.

Module Drivers.
Import Scenario Evaluation ScenarioRunner.

(** ** Arguments *)

(** The variables of [main] of the scenario runner. *)
Record Options := mkOptions { scenario_path : string; ns : string; report_dir : string; metrics_port : Z }.

Definition default_options : Options :=
  {| scenario_path := ""; ns := "/scenario"; report_dir := ""; metrics_port := 0 |}.

(** The loop over [argv], from index 1 on; an option needs a value behind it. *)
Fixpoint parse_args (args : list string) (o : Options) : outcome Options :=
  match args with
  | [] => Ok o
  | a :: rest =>
    match rest with
    | [] => Ok o
    | v :: rest' =>
      if bool_decide (a = "--scenario"%string) then
        parse_args rest' (mkOptions v o.(ns) o.(report_dir) o.(metrics_port))
      else if bool_decide (a = "--ns"%string) then
        parse_args rest' (mkOptions o.(scenario_path) v o.(report_dir) o.(metrics_port))
      else if bool_decide (a = "--report-dir"%string) then
        parse_args rest' (mkOptions o.(scenario_path) o.(ns) v o.(metrics_port))
      else if bool_decide (a = "--metrics-port"%string) then
        n ← atoi v; parse_args rest' (mkOptions o.(scenario_path) o.(ns) o.(report_dir) (u16 n))
      else parse_args rest o
    end
  end.

(** The variables of [main] of the parallel runner. *)
Record POptions := mkPOptions { paths : list string; p_report_dir : string; metrics_base_port : Z; count : Z }.

Definition default_poptions : POptions :=
  {| paths := []; p_report_dir := ""; metrics_base_port := 0; count := 1 |}.

Fixpoint parse_pargs (args : list string) (o : POptions) : outcome POptions :=
  match args with
  | [] => Ok o
  | a :: rest =>
    match rest with
    | [] => Ok o
    | v :: rest' =>
      if bool_decide (a = "--scenario"%string) then
        parse_pargs rest' (mkPOptions (o.(paths) ++ [v]) o.(p_report_dir) o.(metrics_base_port) o.(count))
      else if bool_decide (a = "--report-dir"%string) then
        parse_pargs rest' (mkPOptions o.(paths) v o.(metrics_base_port) o.(count))
      else if bool_decide (a = "--metrics-base-port"%string) then
        n ← atoi v; parse_pargs rest' (mkPOptions o.(paths) o.(p_report_dir) (u16 n) o.(count))
      else if bool_decide (a = "--count"%string) then
        n ← atoi v; parse_pargs rest' (mkPOptions o.(paths) o.(p_report_dir) o.(metrics_base_port) (Z.max 1 n))
      else parse_pargs rest o
    end
  end.

(** ** One scenario *)

(** What the runners use, apart from the processes and ports of each. *)
Record Env (G : Type) := mkEnv {
  little : bool;
  seconds : Z -> double;
  uniform_real : G -> double * G;
  uniform_int : Z -> Z -> G -> Z * G;
  clock : string -> nat -> double;
  pop : list Faults.Delayed -> option (Faults.Delayed * list Faults.Delayed);
  seeded : G;                                   (** the generator of a new engine *)
  now_text : string;                            (** the time stamp of the reports *)
  dump : Report.json -> string;
  opens : string -> bool;
  good : string -> bool;
  load : string -> outcome Scenario             (** [parse_scenario_file]; files do not change meanwhile *)
}.
Arguments little {G}. Arguments seconds {G}. Arguments uniform_real {G}. Arguments uniform_int {G}.
Arguments clock {G}. Arguments pop {G}. Arguments seeded {G}. Arguments now_text {G}. Arguments dump {G}.
Arguments opens {G}. Arguments good {G}. Arguments load {G}.

(** What the system answers to one runner: the times of construction and
    start, its processes, the socket of its exporter, and the polls of its
    children. *)
Record Machine := mkMachine {
  built_at : Z;
  started_at : Z;
  spawn : nat -> list string -> option Z;
  fd : Z;
  bind_ok : bool;
  listen_ok : bool;
  rounds : list (Z -> bool)
}.

Section Main.
Context {G : Type} (env : Env G).

Definition run_start (mc : Machine) (r : Runner G) : outcome (Runner G) :=
  start mc.(spawn) mc.(fd) mc.(bind_ok) mc.(listen_ok) mc.(started_at) env.(seeded) r.

Definition run_step : event -> Runner G -> outcome (Runner G) :=
  step env.(little) env.(seconds) env.(uniform_real) env.(uniform_int) env.(clock) env.(pop).


(** A runner in its program, with the frames that wait in its CAN socket. *)
Record Node := mkNode { runner : Runner G; waiting : list CanBus.can_frame }.

(** The thread of the reader runs and its socket is bound to the bus. *)
Definition listens (r : Runner G) : bool :=
  match r.(can_reader_) with Some _ => 0 <=? r.(can_socket_).(CanBus.can_fd_) | None => false end.

(** What happens in the threads of a program: an event of runner [k] (of its
    reader only the opening and reads that fail), a frame on the bus, and a
    read of runner [k] that gets the next frame, with the two clocks. *)
Inductive happening :=
| To (k : nat) (ev : event)
| OnBus (f : CanBus.can_frame)
| Reads (k : nat) (now_us : Z) (arrival : double).

(** The part of runner [k]. *)
Definition happen (k : nat) (h : happening) (x : Node) : outcome Node :=
  match h with
  | To j ev => if decide (j = k) then r ← run_step ev x.(runner); Ok (mkNode r x.(waiting)) else Ok x
  | OnBus f => Ok (if listens x.(runner) then mkNode x.(runner) (x.(waiting) ++ [f]) else x)
  | Reads j now_us arrival =>
    if decide (j = k) then
      match x.(waiting) with
      | [] => Ok x
      | f :: fs =>
        r ← run_step (CanRead (CanBus.mkRead CanBus.frame_size f now_us arrival)) x.(runner);
        Ok (mkNode r fs)
      end
    else Ok x
  end.

Fixpoint run_one (k : nat) (hs : list happening) (x : Node) : outcome Node :=
  match hs with
  | [] => Ok x
  | h :: hs => x ← happen k h x; run_one k hs x
  end.

(** [while (rclcpp::ok() && now < deadline)]: the rounds of the loop. *)
Fixpoint spin (deadline : Z) (rounds : list (Z * list happening)) : list happening :=
  match rounds with
  | [] => []
  | (now, hs) :: rounds => if now <? deadline then hs ++ spin deadline rounds else []
  end.

Definition run_finish (mc : Machine) (r : Runner G) :
    outcome (ScenarioResult * Runner G * list (string * string) * list syscall) :=
  finish env.(little) env.(pop) env.(now_text) env.(dump) env.(opens) env.(good) mc.(rounds) r.

(** The deadline: [duration_cast] of seconds to nanoseconds. *)
Definition deadline (duration : double) : outcome Z := cast_int64 (d_mul duration (d_of_Z 1000000000)).

(** A runner with its options. *)
Definition make_runner (sc : Scenario) (ns dir : string) (port : Z) (mc : Machine) : Runner G :=
  let r := construct sc ns mc.(built_at) in
  let r := if bool_decide (dir = ""%string) then r else set_report_dir dir r in
  if port =? 0 then r else set_metrics_port port r.

(** Runner [k] from [start] to [finish], with the happenings in between. *)
Definition run_with (k : nat) (mc : Machine) (r : Runner G) (hs : list happening) : outcome ScenarioResult :=
  r ← run_start mc r; x ← run_one k hs (mkNode r []); res ← run_finish mc x.(runner); Ok res.1.1.1.

(** The run of one scenario, until the deadline of its duration. *)
Definition run_scenario (k : nat) (mc : Machine) (r : Runner G) (t0 : Z) (rounds : list (Z * list happening)) :
    outcome ScenarioResult :=
  d ← deadline r.(scenario_).(scenario_duration); run_with k mc r (spin (t0 + d) rounds).

(** The exit code, and the result when there was a run.  [t0] is the time when
    the deadline is set. *)
Definition main (args : list string) (t0 : Z) (rounds : list (Z * list happening)) (mc : Machine) :
    outcome (Z * option ScenarioResult) :=
  o ← parse_args args default_options;
  if bool_decide (o.(scenario_path) = ""%string) then Ok (2, None)
  else
    match env.(load) o.(scenario_path) with
    | Throws _ => Ok (2, None)
    | OutOfBounds => OutOfBounds
    | Ok sc =>
      result ← run_scenario 0 mc (make_runner sc o.(ns) o.(report_dir) o.(metrics_port) mc) t0 rounds;
      Ok (if result.(scenario_passed) then 0 else 1, Some result)
    end.

(** ** Many scenarios *)

(** [std::max(a, b)] of doubles. *)
Definition d_max (a b : double) : double := if d_lt a b then b else a.

(** The variables of the loops that make the runners. *)
Record Building := mkBuilding { mgr : NamespaceManager; runners : list (Runner G); max_duration : double }.

(** One scenario file; [inl] is the exit code.  [machine k] answers to runner [k]. *)
Definition add_runner (machine : nat -> Machine) (dir path : string) (b : Building) : outcome (Z + Building) :=
  match env.(load) path with
  | Throws _ => Ok (inl 2)
  | OutOfBounds => OutOfBounds
  | Ok sc =>
    let idx := length b.(runners) in
    let '(mgr, ns) := next_namespace b.(mgr) in
    let r := make_runner sc ns dir (Evaluation.metrics_port mgr (Z.of_nat idx)) (machine idx) in
    Ok (inr {| mgr := mgr; runners := b.(runners) ++ [r]; max_duration := d_max b.(max_duration) sc.(scenario_duration) |})
  end.

(** The loops over the paths and over the repetitions. *)
Fixpoint add_runners (machine : nat -> Machine) (dir : string) (paths : list string) (b : Building) : outcome (Z + Building) :=
  match paths with
  | [] => Ok (inr b)
  | path :: paths =>
    res ← add_runner machine dir path b;
    match res with inl code => Ok (inl code) | inr b => add_runners machine dir paths b end
  end.

Fixpoint repeat_runners (machine : nat -> Machine) (dir : string) (paths : list string) (n : nat) (b : Building) :
    outcome (Z + Building) :=
  match n with
  | O => Ok (inr b)
  | S n =>
    res ← add_runners machine dir paths b;
    match res with inl code => Ok (inl code) | inr b => repeat_runners machine dir paths n b end
  end.

(** [f] for every runner in order, with its index. *)
Fixpoint each {A B} (f : nat -> A -> outcome B) (k : nat) (l : list A) : outcome (list B) :=
  match l with
  | [] => Ok []
  | x :: l => y ← f k x; ys ← each f (S k) l; Ok (y :: ys)
  end.

(** One happening, for all runners. *)
Definition happen_all (h : happening) (xs : list Node) : outcome (list Node) := each (fun k x => happen k h x) 0 xs.

Fixpoint run_all (hs : list happening) (xs : list Node) : outcome (list Node) :=
  match hs with
  | [] => Ok xs
  | h :: hs => xs ← happen_all h xs; run_all hs xs
  end.

(** [main] of the parallel runner: the exit code and the results. *)
Definition parallel_main (args : list string) (t0 : Z) (rounds : list (Z * list happening)) (machine : nat -> Machine) :
    outcome (Z * option (list ScenarioResult)) :=
  o ← parse_pargs args default_poptions;
  match o.(paths) with
  | [] => Ok (2, None)
  | _ =>
    res ← repeat_runners machine o.(p_report_dir) o.(paths) (Z.to_nat o.(count))
            {| mgr := new_manager "/scenario" o.(metrics_base_port); runners := []; max_duration := d_zero |};
    match res with
    | inl code => Ok (code, None)
    | inr b =>
      rs ← each (fun k r => run_start (machine k) r) 0 b.(runners);
      d ← deadline b.(max_duration);
      xs ← run_all (spin (t0 + d) rounds) (map (fun r => mkNode r []) rs);
      ends ← each (fun k x => run_finish (machine k) x.(runner)) 0 xs;
      let results := map (fun e => e.1.1.1) ends in
      Ok (if all_passed (aggregate results) then 0 else 1, Some results)
    end
  end.

End Main.

(** ** Exit codes *)

Section Proofs.
Context {G : Type} (env : Env G).

(** The exit code of a run says whether it passed; without a run it is 2. *)
Definition code_of (passed : option bool) : Z := match passed with Some true => 0 | Some false => 1 | None => 2 end.
























End Proofs.

(** ** Reports of a repeated scenario *)

(** The files a runner may write have names made of the directory and the
    name of the scenario only. *)
Lemma report_paths {G} dump opens good now (r : Runner G) result mm files :
  write_reports now dump opens good r result mm = Ok files ->
  Forall (fun f => f.1 = (r.(report_dir_) +:+ "/" +:+ r.(scenario_).(Scenario.name) +:+ ".json")%string \/
                   f.1 = (r.(report_dir_) +:+ "/" +:+ r.(scenario_).(Scenario.name) +:+ ".html")%string) files.
Proof.
  assert (forall a b c d, (((a +:+ b +:+ c) +:+ d) = a +:+ b +:+ c +:+ d)%string) as Hassoc.
  { intros a b c d. by rewrite <- !string_app_assoc. }
  unfold write_reports. case_bool_decide; [intros [= <-]; constructor|].
  destruct (Report.build_report _ _ _ _ _) as [rep| |]; cbn [mbind outcome_bind]; try done. cbv zeta.
  destruct (Report.write_html _ _ _) as [[ok h]| |]; cbn [mbind outcome_bind snd]; try done. intros [= <-].
  apply Forall_app. split.
  - destruct (Report.write_json _ _ _ _) as [ok' [c|]]; cbn [snd]; [|constructor]. constructor; [|constructor]. left. apply Hassoc.
  - destruct h; [|constructor]. constructor; [|constructor]. right. apply Hassoc.
Qed.

(** ** A sample run *)

Definition sample_env : Env Z :=
  {| little := true; seconds := sample_seconds; uniform_real := Faults.toy_real; uniform_int := Faults.toy_int;
     clock := sample_clock; pop := Faults.pop_min; seeded := 0; now_text := "now"; dump := fun _ => "{}"%string;
     opens := fun _ => true; good := fun _ => true;
     load := fun p => if bool_decide (p = "a.yaml"%string) then Ok sample_scenario else Throws "YAML::BadFile" |}.

Definition sample_machine (k : nat) : Machine :=
  {| built_at := 0; started_at := 0; spawn := sample_spawn; fd := 5; bind_ok := true; listen_ok := true; rounds := sample_rounds |}.

Definition sample_args : list string := ["--scenario"; "a.yaml"; "--count"; "2"; "--verbose"]%string.

(** The second runner has a message that is too late; what comes after the
    deadline, after ten seconds, does not count. *)
Definition sample_rounds_of : list (Z * list happening) :=
  [(5, [To 0 (Arrival "imu" 1000000000 1000000000 995000000); To 1 (Arrival "imu" 1000000000 1000000000 960000000)]);
   (2000000000, [To 1 (Arrival "lidar" 1200000000 1200000000 1190000000); OnBus (CanBus.mkCanFrame 1 8 []);
                 To 0 (Arrival "lidar" 1300000000 1300000000 1290000000)]);
   (10000000007, [To 0 (Arrival "imu" 10000000000 10000000000 1000000000)])].

Definition sample_outcome : Z * option (list ScenarioResult) :=
  match parallel_main sample_env sample_args 7 sample_rounds_of sample_machine with Ok x => x | _ => (-1, None) end.

Example exit_codes :
  sample_outcome.1 = 1 /\ fmap (map scenario_passed) sample_outcome.2 = Some [true; false] /\
  main sample_env ["--scenario"; "b.yaml"]%string 7 [] (sample_machine 0) = Ok (2, None) /\
  main sample_env ["--scenario"]%string 7 [] (sample_machine 0) = Ok (2, None).
Proof. vm_compute. by repeat split. Qed.

(** Two runs of a scenario with a CAN stream: each reader gets the frames of
    both publishers, which both count from 0, and sees gaps that are none. *)
Definition can_scenario : Scenario :=
  {| name := "bus"; scenario_duration := d_of_Z 10; streams := [{| stream_name := "can"; rate_hz := d_of_Z 10 |}];
     faults := []; assertions := [{| metric := "can_sequence_gaps"; op := kEquals; value := d_zero; window_seconds := None |}] |}.

Definition can_frame_of (seq : Z) : CanBus.can_frame :=
  CanBus.mkCanFrame 1 8 [z2b 0; z2b 0; z2b seq; z2b 0; z2b 0; z2b 0; z2b 0; z2b 0].

Definition can_env : Env Z :=
  {| little := true; seconds := sample_seconds; uniform_real := Faults.toy_real; uniform_int := Faults.toy_int;
     clock := sample_clock; pop := Faults.pop_min; seeded := 0; now_text := "now"; dump := fun _ => "{}"%string;
     opens := fun _ => true; good := fun _ => true; load := fun _ => Ok can_scenario |}.

(** The frames 0 and 1 of [n] publishers, in turn. *)
Definition bus_rounds (n : nat) : list (Z * list happening) :=
  let reads := concat (map (fun k => [Reads k 10 d_one; Reads k 20 d_one; Reads k 30 d_one; Reads k 40 d_one]) (seq 0 n)) in
  [(1, map (fun k => To k (CanOpen 6 (fun _ => true) true)) (seq 0 n) ++
       replicate n (OnBus (can_frame_of 0)) ++ replicate n (OnBus (can_frame_of 1)) ++ reads)].

Definition bus_passes (args : list string) (n : nat) : outcome (Z * option (list bool)) :=
  match parallel_main can_env args 0 (bus_rounds n) sample_machine with
  | Ok (code, rs) => Ok (code, option_map (map scenario_passed) rs)
  | Throws e => Throws e
  | OutOfBounds => OutOfBounds
  end.

Example bus_is_shared :
  bus_passes ["--scenario"; "c.yaml"] 1 = Ok (0, Some [true]) /\
  bus_passes ["--scenario"; "c.yaml"; "--count"; "2"] 2 = Ok (1, Some [false; false]).
Proof. split; vm_compute; reflexivity. Qed.


End Drivers.
