(* ===== verification/Bench.v ===== *)
(** * The benchmarks ([src/bench/], [src/transport/bench_udp_transport.cpp])

    The measuring loop of [bench_common.hpp] over an operation on a state,
    the operations it measures (ring, frame codec, checksum, the in-process
    pipeline) and the lines the programs report.  Readings of the steady clock
    are a parameter; what is printed is the list of the lines.

    Results: every measured operation succeeds and does the work it is
    named after, and every percentile is a measured sample; the UDP
    benchmark waits for ever when one datagram is lost. *)

From S2P Require Export Evaluation FrameCodec SubscriptionManager.

Module Bench.
Import Backpressure(SensorFrame, SensorFrame_default, mkSensorFrame, data, sequence, timestamp_ns).

(** ** Measuring *)

Record LatencyStats := mkLatencyStats {
  p50_ns : double;
  p99_ns : double;
  p999_ns : double;
  msgs_per_sec : double;
  iterations : Z
}.

(** The lines of [report] and [report_throughput]. *)
Inductive line :=
| Latency (name : string) (s : LatencyStats)
| Throughput (name : string) (gbps : double).

(** The lambda [pct]; the samples are sorted. *)
Definition pct (p : double) (samples : list double) : outcome double :=
  match samples with
  | [] => Ok d_zero
  | _ => Evaluation.at_fraction p samples
  end.

(** [duration<double, std::nano>] and [duration<double>] of a difference of
    clock readings in nanoseconds. *)
Definition nanos (a b : Z) : double := d_of_Z (b - a).
Definition seconds (a b : Z) : double := d_div (d_of_Z (b - a)) (d_of_Z 1000000000).

Section Measure.
Context {S : Type} (op : S -> outcome S) (clock : nat -> Z).

Fixpoint warm_up (n : nat) (s : S) : outcome S :=
  match n with O => Ok s | Datatypes.S n => s ← op s; warm_up n s end.

(** The timed loop; [i] counts the readings of the clock. *)
Fixpoint timed (n i : nat) (s : S) (samples : list double) : outcome (S * list double) :=
  match n with
  | O => Ok (s, samples)
  | Datatypes.S n =>
    let a := clock i in
    s ← op s;
    let b := clock (i + 1) in
    timed n (i + 2) s (samples ++ [nanos a b])
  end.

(** The samples are differences of clock readings, never NaN, so sorting them
    is defined. *)
Definition summary (iters : Z) (samples : list double) (total_s : double) : outcome LatencyStats :=
  let samples := stable_sort d_lt samples in
  p50 ← pct (d_lit 1 2) samples;
  p99 ← pct (d_lit 99 100) samples;
  p999 ← pct (d_lit 999 1000) samples;
  Ok {| p50_ns := p50; p99_ns := p99; p999_ns := p999;
        msgs_per_sec := if d_lt d_zero total_s then d_div (d_of_Z iters) total_s else d_zero; iterations := iters |}.

Definition measure (iters : Z) (s : S) : outcome (S * LatencyStats) :=
  s ← warm_up (Z.to_nat (iters / 10 + 1)) s;
  let t_start := clock 0 in
  res ← timed (Z.to_nat iters) 1 s [];
  let t_end := clock (1 + 2 * Z.to_nat iters) in
  st ← summary iters res.2 (seconds t_start t_end);
  Ok (res.1, st).

(** ** Lemmas *)

Context (P : nat -> S -> Prop).

Lemma warm_up_ok n k s :
  (forall k s, P k s -> exists s', op s = Ok s' /\ P (Datatypes.S k) s') -> P k s ->
  exists s', warm_up n s = Ok s' /\ P (n + k)%nat s'.
Proof.
  intros Hop. revert k s. induction n as [|n IH]; intros k s Hs; [by exists s|].
  destruct (Hop k s Hs) as (s1 & E & H1). cbn [warm_up]. rewrite E. cbn [mbind outcome_bind].
  destruct (IH _ _ H1) as (s' & -> & H'). exists s'. split; [done|].
  by replace (Datatypes.S n + k)%nat with (n + Datatypes.S k)%nat by lia.
Qed.

(** The samples are the differences of successive readings. *)
Definition measured (i n : nat) : list double :=
  map (fun j => nanos (clock (i + 2 * j)) (clock (i + 2 * j + 1))) (seq 0 n).

Lemma timed_ok n i k s samples :
  (forall k s, P k s -> exists s', op s = Ok s' /\ P (Datatypes.S k) s') -> P k s ->
  exists s', timed n i s samples = Ok (s', samples ++ measured i n) /\ P (n + k)%nat s'.
Proof.
  intros Hop. revert i k s samples. induction n as [|n IH]; intros i k s samples Hs.
  { exists s. unfold measured. cbn. by rewrite app_nil_r. }
  destruct (Hop k s Hs) as (s1 & E & H1). cbn [timed]. rewrite E. cbn [mbind outcome_bind].
  destruct (IH (i + 2)%nat _ s1 (samples ++ [nanos (clock i) (clock (i + 1))]) H1) as (s' & -> & H'). exists s'.
  split; [|by replace (Datatypes.S n + k)%nat with (n + Datatypes.S k)%nat by lia].
  do 2 f_equal. rewrite <- app_assoc. f_equal. unfold measured. cbn [seq map app]. rewrite <- seq_shift, map_map. f_equal.
  - by rewrite Nat.mul_0_r, Nat.add_0_r.
  - apply map_ext. intros j. do 2 f_equal; lia.
Qed.

End Measure.
(** ** Percentiles of the samples *)

(** The percentile of [StreamMetrics] on the same samples. *)
Lemma pct_sorted p l :
  Evaluation.sortable l = true ->
  pct p (stable_sort d_lt l) =
  Evaluation.pct p (Evaluation.mkStreamMetrics "" d_zero d_zero l 0 0 false d_zero d_zero).
Proof.
  intros Hs. unfold pct, Evaluation.pct, Evaluation.sort. cbn [Evaluation.latencies_ms_].
  destruct l as [|x l]; [done|]. rewrite Hs. cbn [mbind outcome_bind].
  pose proof (length_stable_sort d_lt (x :: l)) as Hl. by destruct (stable_sort d_lt (x :: l)) eqn:E.
Qed.

Definition fraction (p : double) : Prop := exists mp, p = S754_finite false mp (-53) /\ Pos.size mp = 53%positive.

Lemma fractions : fraction (d_lit 1 2) /\ fraction (d_lit 99 100) /\ fraction (d_lit 999 1000).
Proof. split; [|split]; (eexists; split; [vm_compute; reflexivity|reflexivity]). Qed.

Lemma pct_sample p l : fraction p -> l <> [] -> Z.of_nat (length l) < 2 ^ 53 ->
  exists x, pct p (stable_sort d_lt l) = Ok x /\ x ∈ l.
Proof.
  intros (mp & -> & Hmp) Hne Hl. pose proof (length_stable_sort d_lt l) as Hlen.
  assert (stable_sort d_lt l <> []) as Hne' by (intros E; rewrite E in Hlen; by destruct l).
  destruct (Evaluation.at_fraction_ok mp (stable_sort d_lt l) Hmp Hne') as (x & E & H); [by rewrite Hlen|].
  exists x. rewrite stable_sort_perm in H. split; [|done]. unfold pct. by destruct (stable_sort d_lt l).
Qed.

(** A summary of [samples]. *)
Record summarizes (samples : list double) (iters : Z) (st : LatencyStats) : Prop := {
  su_iterations : st.(iterations) = iters;
  su_p50 : st.(p50_ns) ∈ samples;
  su_p99 : st.(p99_ns) ∈ samples;
  su_p999 : st.(p999_ns) ∈ samples
}.

Lemma summary_ok iters samples total_s : samples <> [] -> Z.of_nat (length samples) < 2 ^ 53 ->
  exists st, summary iters samples total_s = Ok st /\ summarizes samples iters st.
Proof.
  intros Hne Hl. destruct fractions as (F1 & F2 & F3). unfold summary.
  destruct (pct_sample _ samples F1 Hne Hl) as (x1 & -> & H1), (pct_sample _ samples F2 Hne Hl) as (x2 & -> & H2),
    (pct_sample _ samples F3 Hne Hl) as (x3 & -> & H3). cbn [mbind outcome_bind]. by eexists.
Qed.

Section MeasureOk.
Context {S : Type} (op : S -> outcome S) (clock : nat -> Z) (P : nat -> S -> Prop).
Context (op_ok : forall k s, P k s -> exists s', op s = Ok s' /\ P (Datatypes.S k) s').

(** An operation that does not fail is run [iters / 10 + 1] times unmeasured
    and [iters] times measured. *)
Lemma measure_ok iters s : 0 < iters < 2 ^ 53 -> P 0 s ->
  exists s' st, measure op clock iters s = Ok (s', st) /\ P (Z.to_nat iters + Z.to_nat (iters / 10 + 1))%nat s' /\
    summarizes (measured clock 1 (Z.to_nat iters)) iters st.
Proof using op_ok.
  intros Hi Hs. unfold measure.
  destruct (warm_up_ok op P (Z.to_nat (iters / 10 + 1)) 0 s op_ok Hs) as (s1 & -> & H1). cbn [mbind outcome_bind].
  rewrite Nat.add_0_r in H1.
  destruct (timed_ok op clock P (Z.to_nat iters) 1 _ s1 [] op_ok H1) as (s2 & -> & H2). cbn [mbind outcome_bind fst snd app].
  set (samples := measured clock 1 (Z.to_nat iters)).
  assert (length samples = Z.to_nat iters) as Hlen by (unfold samples, measured; by rewrite length_map, length_seq).
  destruct (summary_ok iters samples (seconds (clock 0%nat) (clock (1 + 2 * Z.to_nat iters)%nat))) as (st & -> & Hst);
    [intros E; rewrite E in Hlen; cbn in Hlen; lia|rewrite Hlen; lia|].
  cbn [mbind outcome_bind]. by exists s2, st.
Qed.

End MeasureOk.

(** ** The measured operations *)

(** The enumerators of [FrameError], from 0. *)
Definition error_code (e : Frame.FrameError) : Z :=
  match e with
  | Frame.kOk => 0 | Frame.kTruncatedHeader => 1 | Frame.kBadMagic => 2 | Frame.kUnsupportedVersion => 3
  | Frame.kBadHeaderSize => 4 | Frame.kPayloadTooLarge => 5 | Frame.kLengthOverflow => 6
  | Frame.kTruncatedPayload => 7 | Frame.kHeaderCrcMismatch => 8 | Frame.kPayloadCrcMismatch => 9
  | Frame.kSequenceRegression => 10 | Frame.kTimestampRegression => 11
  end.

Definition make_payload (n : nat) : list byte := map (fun i => z2b (u64 (Z.of_nat i * 37) ^^^ 0xA5)) (seq 0 n).
Definition make_buffer (n : nat) : list byte := map (fun i => z2b (u64 (u64 (Z.of_nat i * 131) + 7))) (seq 0 n).

Definition size_suffix (n : Z) : string :=
  if n =? 64 then "64b" else if n =? 1024 then "1kb" else if n =? 64 * 1024 then "64kb"
  else if n =? 1024 * 1024 then "1mb" else if n =? 4 * 1024 * 1024 then "4mb" else "?".

Section Probes.
Context (crc32c : list byte -> Z) (moved_from : SensorFrame -> SensorFrame).
(** The readings of the clock during the probe of this name. *)
Context (clock : string -> nat -> Z).

(** [frame_encode_*]: the counter, and the size of the last frame. *)
Definition encode_op (payload : list byte) (s : Z * Z) : outcome (Z * Z) :=
  let seq := s.1 in
  f ← FrameCodec.encode_frame crc32c Frame.kLidar seq seq Frame.kFlagNone payload;
  Ok (u64 (seq + 1), Z.of_nat (length f)).

(** [frame_decode_*]: the header decoded into, and the code of the last error. *)
Definition decode_op (frame : list byte) (s : Frame.FrameHeader * Z) : outcome (Frame.FrameHeader * Z) :=
  res ← FrameCodec.decode_header crc32c (Some frame) s.1;
  let '(err, hdr) := (res : Frame.FrameError * Frame.FrameHeader) in
  Ok (hdr, error_code err).

Definition probe_encode (n : Z) : outcome (Z * Z * LatencyStats) :=
  measure (encode_op (make_payload (Z.to_nat n))) (clock ("frame_encode_" +:+ size_suffix n)%string)
    (if 1024 * 1024 <=? n then 5000 else 200000) (0, 0).

Definition probe_decode (n : Z) : outcome (Frame.FrameHeader * Z * LatencyStats) :=
  frame ← FrameCodec.encode_frame crc32c Frame.kLidar 1 1 Frame.kFlagNone (make_payload (Z.to_nat n));
  measure (decode_op frame) (clock ("frame_decode_" +:+ size_suffix n)%string)
    (if 1024 * 1024 <=? n then 5000 else 200000) (Frame.FrameHeader_default, 0).

Fixpoint bench_frames (sizes : list Z) : outcome (list line) :=
  match sizes with
  | [] => Ok []
  | n :: sizes =>
    enc ← probe_encode n;
    dec ← probe_decode n;
    ls ← bench_frames sizes;
    Ok (Latency ("frame_encode_" +:+ size_suffix n) enc.2 :: Latency ("frame_decode_" +:+ size_suffix n) dec.2 :: ls)
  end.

Definition bench_frame_latency : outcome (list line) :=
  bench_frames [64; 1024; 64 * 1024; 1024 * 1024; 4 * 1024 * 1024].

(** One pass of a frame through the ring and the codec; [try_pop] leaves a
    default frame in [out] when the ring is empty. *)
Definition kRing : Z := 1024.

Definition pipeline_pass (ring : SpscRing.SPSCRing SensorFrame) (payload_size seq : Z) :
    outcome (SpscRing.SPSCRing SensorFrame * Z) :=
  let in_ := {| data := repeat (z2b seq) (Z.to_nat payload_size); sequence := seq; timestamp_ns := seq |} in
  r ← SpscRing.try_push kRing in_ ring;
  r ← SpscRing.try_pop kRing moved_from r.1;
  let out := default SensorFrame_default r.2 in
  frame ← FrameCodec.encode_frame crc32c Frame.kLidar (sequence out) (timestamp_ns out) Frame.kFlagNone (data out);
  res ← FrameCodec.decode_header crc32c (Some frame) Frame.FrameHeader_default;
  Ok (r.1, u64 (error_code res.1 + Z.of_nat (length frame))).

(** The state of the loop: the ring, the counter, the last result. *)
Definition pipeline_op (n : Z) (s : SpscRing.SPSCRing SensorFrame * Z * Z) :
    outcome (SpscRing.SPSCRing SensorFrame * Z * Z) :=
  let '(ring, seq, _) := s in
  res ← pipeline_pass ring n seq;
  Ok (res.1, u64 (seq + 1), res.2).

Definition probe_e2e (n : Z) : outcome (SpscRing.SPSCRing SensorFrame * Z * Z * LatencyStats) :=
  measure (pipeline_op n) (clock ("e2e_pipeline_" +:+ size_suffix n)%string)
    (if 1024 * 1024 <=? n then 5000 else 100000) (SpscRing.construct kRing SensorFrame_default, 1, 0).

Fixpoint bench_e2e (sizes : list Z) : outcome (list line) :=
  match sizes with
  | [] => Ok []
  | n :: sizes =>
    res ← probe_e2e n;
    ls ← bench_e2e sizes;
    Ok (Latency ("e2e_pipeline_" +:+ size_suffix n) res.2 :: ls)
  end.

Definition bench_e2e_latency : outcome (list line) := bench_e2e [64; 1024; 64 * 1024; 1024 * 1024].

(** *** The registrations with Google Benchmark

    The framework runs the loop [n] times; the results are the processed
    items and bytes. *)

Definition BM_FrameEncode (size : Z) (n : nat) : outcome (Z * Z) :=
  _ ← warm_up (encode_op (make_payload (Z.to_nat size))) n (0, 0);
  Ok (Z.of_nat n, Z.of_nat n * size).

Definition BM_FrameDecode (size : Z) (n : nat) : outcome Z :=
  frame ← FrameCodec.encode_frame crc32c Frame.kLidar 1 1 Frame.kFlagNone (make_payload (Z.to_nat size));
  _ ← warm_up (decode_op frame) n (Frame.FrameHeader_default, 0);
  Ok (Z.of_nat n).

Definition BM_E2E (size : Z) (n : nat) (ring : SpscRing.SPSCRing SensorFrame) :
    outcome (SpscRing.SPSCRing SensorFrame * (Z * Z)) :=
  s ← warm_up (pipeline_op size) n (ring, 1, 0);
  Ok (s.1.1, (Z.of_nat n, Z.of_nat n * size)).

(** [spsc_ring_1kb]: blobs of 1024 bytes; the ring and what was popped last. *)
Definition blob_op (s : SpscRing.SPSCRing (list byte) * list byte) : outcome (SpscRing.SPSCRing (list byte) * list byte) :=
  r ← SpscRing.try_push kRing (repeat Byte.x00 1024) s.1;
  r ← SpscRing.try_pop kRing (fun b => b) r.1;
  Ok (r.1, default s.2 r.2).

Definition BM_RingPushPop (n : nat) (ring : SpscRing.SPSCRing (list byte)) : outcome (SpscRing.SPSCRing (list byte) * Z) :=
  s ← warm_up blob_op n (ring, repeat Byte.x00 1024);
  Ok (s.1, Z.of_nat n).

Definition probe_ring : outcome (SpscRing.SPSCRing (list byte) * list byte * LatencyStats) :=
  measure blob_op (clock "spsc_ring_1kb") 1000000
    (SpscRing.construct kRing (repeat Byte.x00 1024), repeat Byte.x00 1024).

(** [crc32c_throughput_*]: the passes, and what the sink holds. *)
Fixpoint crc_passes (n : nat) (buf : list byte) (sink : Z) : Z :=
  match n with O => sink | S n => crc_passes n buf (sink ^^^ crc32c buf) end.

Definition probe_crc (name : string) (size : Z) : Z * line :=
  let buf := make_buffer (Z.to_nat size) in
  let passes := if 64 * 1024 <=? size then 20000 else 2000000 in
  let sink := crc_passes (Z.to_nat passes) buf 0 in
  let secs := seconds (clock name 0) (clock name 1) in
  (sink, Throughput name
    (if d_lt d_zero secs then d_div (d_div (d_mul (d_of_Z passes) (d_of_Z size)) secs) (d_of_Z 1000000000) else d_zero)).

Definition bench_crc_throughput : list line :=
  map (fun c => (probe_crc c.1 c.2).2)
    [("crc32c_throughput_64b", 64); ("crc32c_throughput_1kb", 1024); ("crc32c_throughput_64kb", 64 * 1024)]%string.

End Probes.

(** ** What the operations do *)

Section ProbesOk.
Context (crc32c : list byte -> Z) {Hck : Crc.Checksum crc32c} (moved_from : SensorFrame -> SensorFrame).
Context (clock : string -> nat -> Z).

#[local] Instance kRing_ok : SpscRing.CapacityOk kRing := SubscriptionManager.kRingCapacity_ok.

Lemma count_succ k : u64 (u64 (Z.of_nat k) + 1) = u64 (Z.of_nat (S k)).
Proof using. rewrite wrap_add_l by done. f_equal. lia. Qed.

Lemma length_make_payload n : length (make_payload n) = n.
Proof using. unfold make_payload. by rewrite length_map, length_seq. Qed.

Lemma encode_op_ok payload k s :
  Z.of_nat (length payload) <= Frame.kMaxPayload ->
  s.1 = u64 (Z.of_nat k) /\ (k = 0%nat \/ s.2 = 40 + Z.of_nat (length payload)) ->
  exists s', encode_op crc32c payload s = Ok s' /\
    s'.1 = u64 (Z.of_nat (S k)) /\ (S k = 0%nat \/ s'.2 = 40 + Z.of_nat (length payload)).
Proof using.
  intros Hl [H1 _]. unfold encode_op. rewrite FrameCodec.encode_frame_eq by done. cbn [mbind outcome_bind].
  eexists. split; [done|]. cbn [fst snd]. rewrite H1, count_succ. split; [done|]. right.
  rewrite FrameCodec.length_frame_bytes. lia.
Qed.

Lemma decode_op_ok h payload k (s : Frame.FrameHeader * Z) :
  FrameCodec.valid_frame crc32c h payload -> k = 0%nat \/ s = (h, 0) ->
  exists s', decode_op crc32c (FrameCodec.frame_bytes crc32c h payload) s = Ok s' /\ (S k = 0%nat \/ s' = (h, 0)).
Proof using Hck.
  intros Hv _. unfold decode_op. rewrite (FrameCodec.decode_header_complete crc32c _ _ h payload []) by (done || by rewrite app_nil_r).
  cbn [mbind outcome_bind]. eexists. split; [done|]. by right.
Qed.

(** A frame that goes through an empty ring and the codec. *)
Lemma pipeline_pass_ok ring n seq :
  0 <= n <= Frame.kMaxPayload -> is_uint 64 seq -> SpscRing.ring_ok kRing ring -> SpscRing.contents kRing ring = [] ->
  exists ring', pipeline_pass crc32c moved_from ring n seq = Ok (ring', 40 + n) /\
    SpscRing.ring_ok kRing ring' /\ SpscRing.contents kRing ring' = [].
Proof using Hck.
  intros Hn Hs Hr Hc. unfold pipeline_pass. set (f := {| data := _ |}).
  assert (length (data f) = Z.to_nat n) as Hlen by apply repeat_length.
  assert (sequence f = seq /\ timestamp_ns f = seq) as [Es Et] by done. clearbody f.
  destruct (SpscRing.try_push_spec kRing f ring Hr) as (r1 & E1 & H1 & C1). rewrite Hc in *. cbn [length] in *.
  change (Z.of_nat 0 =? kRing - 1) with false in *. cbn iota in *. rewrite E1. cbn [mbind outcome_bind fst].
  destruct (SpscRing.try_pop_spec kRing moved_from r1 H1) as (r2 & E2 & H2 & C2). rewrite C1 in *. cbn [app head drop] in *.
  rewrite E2. cbn [mbind outcome_bind fst snd default from_option id].
  rewrite FrameCodec.encode_frame_eq by lia. cbn [mbind outcome_bind]. set (h := FrameCodec.encoded_header _ _ _ _ _ _).
  assert (FrameCodec.valid_frame crc32c h (data f)) as Hv by (apply FrameCodec.encoded_header_valid; (done || congruence || lia)).
  rewrite (FrameCodec.decode_header_complete crc32c _ _ h (data f) []) by (done || by rewrite app_nil_r).
  cbn [mbind outcome_bind fst error_code]. rewrite FrameCodec.length_frame_bytes, Hlen.
  exists r2. split; [|done]. do 2 f_equal. rewrite wrap_small; unfold is_uint, Frame.kMaxPayload in *; lia.
Qed.

Definition pipeline_inv (n : Z) (k : nat) (s : SpscRing.SPSCRing SensorFrame * Z * Z) : Prop :=
  SpscRing.ring_ok kRing s.1.1 /\ SpscRing.contents kRing s.1.1 = [] /\ s.1.2 = u64 (Z.of_nat (S k)) /\
  (k = 0%nat \/ s.2 = 40 + n).

Lemma pipeline_op_ok n k s : 0 <= n <= Frame.kMaxPayload -> pipeline_inv n k s ->
  exists s', pipeline_op crc32c moved_from n s = Ok s' /\ pipeline_inv n (S k) s'.
Proof using Hck.
  intros Hn (Hr & Hc & Hs & _). destruct s as [[ring seq] last]. cbn [fst snd] in *. unfold pipeline_op.
  destruct (pipeline_pass_ok ring n seq Hn) as (ring' & -> & Hr' & Hc'); [rewrite Hs; by apply wrap_range|done|done|].
  cbn [mbind outcome_bind fst snd]. eexists. split; [done|]. split; [done|]. split; [done|].
  cbn [fst snd]. rewrite Hs, count_succ. split; [done|]. by right.
Qed.

Lemma blob_op_ok (k : nat) s : SpscRing.ring_ok kRing s.1 /\ SpscRing.contents kRing s.1 = [] ->
  exists s', blob_op s = Ok s' /\ SpscRing.ring_ok kRing s'.1 /\ SpscRing.contents kRing s'.1 = [].
Proof using.
  intros [Hr Hc]. unfold blob_op. generalize (repeat Byte.x00 1024). intros blob.
  destruct (SpscRing.try_push_spec kRing blob s.1 Hr) as (r1 & E1 & H1 & C1). rewrite Hc in *. cbn [length] in *.
  change (Z.of_nat 0 =? kRing - 1) with false in *. cbn iota in *. rewrite E1. cbn [mbind outcome_bind fst].
  destruct (SpscRing.try_pop_spec kRing (fun b => b) r1 H1) as (r2 & E2 & H2 & C2). rewrite C1 in *.
  rewrite E2. cbn [mbind outcome_bind fst snd]. eexists. split; [done|]. by split.
Qed.

(** Two passes over the same buffer cancel out. *)
Lemma crc_passes_even n buf sink : crc_passes crc32c (2 * n) buf sink = sink.
Proof using.
  revert sink. induction n as [|n IH]; intros sink; [done|].
  replace (2 * S n)%nat with (S (S (2 * n))) by lia. cbn [crc_passes].
  by rewrite IH, Z.lxor_assoc, Z.lxor_nilpotent, Z.lxor_0_r.
Qed.

(** *** The registered loops never fail, whatever the number of iterations *)

Lemma framework_frames size n : 0 <= size <= Frame.kMaxPayload ->
  BM_FrameEncode crc32c size n = Ok (Z.of_nat n, Z.of_nat n * size) /\ BM_FrameDecode crc32c size n = Ok (Z.of_nat n).
Proof using Hck.
  intros Hn. unfold BM_FrameEncode, BM_FrameDecode. pose proof (length_make_payload (Z.to_nat size)) as Hl.
  set (payload := make_payload (Z.to_nat size)) in *. clearbody payload. split.
  - destruct (warm_up_ok (encode_op crc32c payload)
      (fun k s => s.1 = u64 (Z.of_nat k) /\ (k = 0%nat \/ s.2 = 40 + Z.of_nat (length payload))) n 0 (0, 0)) as (s & -> & _);
      [intros k s; apply encode_op_ok; lia|by split; [|left]|done].
  - rewrite FrameCodec.encode_frame_eq by lia. cbn [mbind outcome_bind]. set (h := FrameCodec.encoded_header _ _ _ _ _ _).
    assert (FrameCodec.valid_frame crc32c h payload) as Hv by (apply FrameCodec.encoded_header_valid; (done || lia)).
    destruct (warm_up_ok (decode_op crc32c (FrameCodec.frame_bytes crc32c h payload)) (fun k s => k = 0%nat \/ s = (h, 0)) n 0
      (Frame.FrameHeader_default, 0)) as (s & -> & _); [intros k s; by apply decode_op_ok|by left|done].
Qed.

(** The static rings stay empty between runs. *)
Lemma framework_rings size n ring blobs :
  0 <= size <= Frame.kMaxPayload -> SpscRing.ring_ok kRing ring -> SpscRing.contents kRing ring = [] ->
  SpscRing.ring_ok kRing blobs -> SpscRing.contents kRing blobs = [] ->
  (exists ring', BM_E2E crc32c moved_from size n ring = Ok (ring', (Z.of_nat n, Z.of_nat n * size)) /\
     SpscRing.ring_ok kRing ring' /\ SpscRing.contents kRing ring' = []) /\
  (exists blobs', BM_RingPushPop n blobs = Ok (blobs', Z.of_nat n) /\
     SpscRing.ring_ok kRing blobs' /\ SpscRing.contents kRing blobs' = []).
Proof using Hck.
  intros Hn Hr Hc Hb Hcb. unfold BM_E2E, BM_RingPushPop. split.
  - destruct (warm_up_ok (pipeline_op crc32c moved_from size) (pipeline_inv size) n 0 (ring, 1, 0)) as (s & -> & H1 & H2 & _);
      [intros k s; by apply pipeline_op_ok|split; [done|split; [done|split; [done|by left]]]|].
    cbn [mbind outcome_bind]. by eexists.
  - destruct (warm_up_ok blob_op (fun _ s => SpscRing.ring_ok kRing s.1 /\ SpscRing.contents kRing s.1 = []) n 0
      (blobs, repeat Byte.x00 1024)) as (s & -> & H1 & H2); [intros k s; by apply blob_op_ok|done|].
    cbn [mbind outcome_bind]. by eexists.
Qed.

(** ** The probes *)

Definition name_of (l : line) : string := match l with Latency n _ | Throughput n _ => n end.

(** The samples of the probe [name]. *)
Definition samples_of (name : string) (iters : Z) : list double := measured (clock name) 1 (Z.to_nat iters).

Definition frame_iters (n : Z) : Z := if 1024 * 1024 <=? n then 5000 else 200000.
Definition e2e_iters (n : Z) : Z := if 1024 * 1024 <=? n then 5000 else 100000.

Lemma probe_encode_ok n : 0 <= n <= Frame.kMaxPayload ->
  exists seq st, probe_encode crc32c clock n = Ok (seq, 40 + n, st) /\
    summarizes (samples_of ("frame_encode_" +:+ size_suffix n) (frame_iters n)) (frame_iters n) st.
Proof using.
  intros Hn. unfold probe_encode. fold (frame_iters n). pose proof (length_make_payload (Z.to_nat n)) as Hl.
  destruct (measure_ok (encode_op crc32c (make_payload (Z.to_nat n))) (clock ("frame_encode_" +:+ size_suffix n)%string)
    (fun k s => s.1 = u64 (Z.of_nat k) /\ (k = 0%nat \/ s.2 = 40 + Z.of_nat (length (make_payload (Z.to_nat n)))))) with (iters := frame_iters n) (s := (0, 0))
    as ([seq size] & st & E & [_ [Hk|Hs]] & Hst).
  - intros k s. apply encode_op_ok. lia.
  - unfold frame_iters. case_test; lia.
  - split; [done|by left].
  - unfold frame_iters in Hk. case_test_in Hk; lia.
  - cbn [snd] in Hs. subst size. rewrite E, Hl, Z2Nat.id by lia. by exists seq, st.
Qed.

Lemma probe_decode_ok n : 0 <= n <= Frame.kMaxPayload ->
  exists h st, probe_decode crc32c clock n = Ok (h, error_code Frame.kOk, st) /\
    summarizes (samples_of ("frame_decode_" +:+ size_suffix n) (frame_iters n)) (frame_iters n) st.
Proof using Hck.
  intros Hn. unfold probe_decode. fold (frame_iters n). pose proof (length_make_payload (Z.to_nat n)) as Hl.
  set (payload := make_payload (Z.to_nat n)) in *. clearbody payload.
  rewrite FrameCodec.encode_frame_eq by lia. cbn [mbind outcome_bind]. set (h := FrameCodec.encoded_header _ _ _ _ _ _).
  assert (FrameCodec.valid_frame crc32c h payload) as Hv by (apply FrameCodec.encoded_header_valid; (done || lia)).
  destruct (measure_ok (decode_op crc32c (FrameCodec.frame_bytes crc32c h payload)) (clock ("frame_decode_" +:+ size_suffix n)%string)
    (fun k s => k = 0%nat \/ s = (h, 0))) with (iters := frame_iters n) (s := (Frame.FrameHeader_default, 0))
    as (s & st & E & [Hk|Hs] & Hst).
  - intros k s. by apply decode_op_ok.
  - unfold frame_iters. case_test; lia.
  - by left.
  - unfold frame_iters in Hk. case_test_in Hk; lia.
  - rewrite E, Hs. by exists h, st.
Qed.

Lemma probe_e2e_ok n : 0 <= n <= Frame.kMaxPayload ->
  exists ring seq st, probe_e2e crc32c moved_from clock n = Ok (ring, seq, 40 + n, st) /\
    SpscRing.contents kRing ring = [] /\
    summarizes (samples_of ("e2e_pipeline_" +:+ size_suffix n) (e2e_iters n)) (e2e_iters n) st.
Proof using Hck.
  intros Hn. unfold probe_e2e. fold (e2e_iters n).
  destruct (SpscRing.construct_ok kRing SensorFrame_default) as [H1 H2].
  set (ring0 := SpscRing.construct kRing SensorFrame_default) in *. clearbody ring0.
  destruct (measure_ok (pipeline_op crc32c moved_from n) (clock ("e2e_pipeline_" +:+ size_suffix n)%string) (pipeline_inv n))
    with (iters := e2e_iters n) (s := (ring0, 1, 0)) as ([[ring seq] size] & st & E & (_ & Hc & _ & [Hk|Hs]) & Hst).
  - intros k s. by apply pipeline_op_ok.
  - unfold e2e_iters. case_test; lia.
  - split; [done|]. split; [done|]. split; [done|by left].
  - unfold e2e_iters in Hk. case_test_in Hk; lia.
  - cbn [fst snd] in *. subst size. rewrite E. by exists ring, seq, st.
Qed.

Lemma probe_ring_ok : exists s st, probe_ring clock = Ok (s, st) /\
  summarizes (samples_of "spsc_ring_1kb" 1000000) 1000000 st.
Proof using.
  unfold probe_ring. generalize (repeat Byte.x00 1024). intros blob.
  pose proof (SpscRing.construct_ok kRing blob) as Hr. set (r := SpscRing.construct kRing blob) in *. clearbody r.
  destruct (measure_ok blob_op (clock "spsc_ring_1kb"%string) (fun _ s => SpscRing.ring_ok kRing s.1 /\ SpscRing.contents kRing s.1 = []))
    with (iters := 1000000) (s := (r, blob)) as (s & st & -> & _ & Hst); [intros k s; by apply blob_op_ok|lia|done|].
  by exists s, st.
Qed.

Lemma bench_frames_ok sizes : Forall (fun n => 0 <= n <= Frame.kMaxPayload) sizes ->
  exists ls, bench_frames crc32c clock sizes = Ok ls /\
    map name_of ls = concat (map (fun n => ["frame_encode_" +:+ size_suffix n; "frame_decode_" +:+ size_suffix n]%string) sizes).
Proof using Hck.
  induction 1 as [|n sizes Hn _ (ls & IH & Hls)]; [by exists []|]. cbn [bench_frames].
  destruct (probe_encode_ok n Hn) as (seq & st & -> & _). cbn [mbind outcome_bind].
  destruct (probe_decode_ok n Hn) as (h & st' & -> & _). cbn [mbind outcome_bind]. rewrite IH. cbn [mbind outcome_bind].
  eexists. split; [done|]. cbn [map name_of concat app]. by rewrite Hls.
Qed.

Lemma bench_e2e_ok sizes : Forall (fun n => 0 <= n <= Frame.kMaxPayload) sizes ->
  exists ls, bench_e2e crc32c moved_from clock sizes = Ok ls /\
    map name_of ls = map (fun n => "e2e_pipeline_" +:+ size_suffix n)%string sizes.
Proof using Hck.
  induction 1 as [|n sizes Hn _ (ls & IH & Hls)]; [by exists []|]. cbn [bench_e2e].
  destruct (probe_e2e_ok n Hn) as (ring & seq & st & -> & _). cbn [mbind outcome_bind]. rewrite IH. cbn [mbind outcome_bind].
  eexists. split; [done|]. cbn [map name_of]. by rewrite Hls.
Qed.

End ProbesOk.

(** ** From producer to consumer ([spsc_prod2cons_1kb]) *)

Section Probe.
Context (moved_from : SensorFrame -> SensorFrame) (target : Z).

(** The shared ring, the frame the producer has stamped and not yet pushed,
    its counter, and the variables of the consumer. *)
Record probe := mkProbe {
  ring : SpscRing.SPSCRing SensorFrame;
  stamped : option SensorFrame;
  next_seq : Z;
  got : Z;
  latencies : list double
}.

Definition new_probe : probe :=
  {| ring := SpscRing.construct kRing SensorFrame_default; stamped := None; next_seq := 0; got := 0; latencies := [] |}.

(** What the threads do next: the producer reads the clock and fills a frame,
    or pushes it; the consumer pops and reads the clock. *)
Inductive probe_event :=
| Stamp (now : Z)
| Push
| Pop (now : Z).

Definition probe_step (ev : probe_event) (p : probe) : outcome probe :=
  match ev, p.(stamped) with
  | Stamp now, None =>
    if p.(next_seq) <? target
    then Ok (mkProbe p.(ring) (Some (mkSensorFrame (repeat Byte.x00 1024) p.(next_seq) (u64 now))) p.(next_seq) p.(got) p.(latencies))
    else Ok p
  | Push, Some f =>
    res ← SpscRing.try_push kRing f p.(ring);
    let '(r, ok) := (res : SpscRing.SPSCRing SensorFrame * bool) in
    Ok (mkProbe r None (if ok then u64 (p.(next_seq) + 1) else p.(next_seq)) p.(got) p.(latencies))
  | Pop now, _ =>
    if p.(got) <? target then
      res ← SpscRing.try_pop kRing moved_from p.(ring);
      match res.2 with
      | None => Ok (mkProbe res.1 p.(stamped) p.(next_seq) p.(got) p.(latencies))
      | Some out =>
        Ok (mkProbe res.1 p.(stamped) p.(next_seq) (u64 (p.(got) + 1))
              (p.(latencies) ++ [d_of_Z (u64 (u64 now - timestamp_ns out))]))
      end
    else Ok p
  | _, _ => Ok p
  end.

Fixpoint run_probe (evs : list probe_event) (p : probe) : outcome probe :=
  match evs with [] => Ok p | ev :: evs => p ← probe_step ev p; run_probe evs p end.

(** The clock of the events does not go back, from [now]. *)
Fixpoint clock_ok (now : Z) (evs : list probe_event) : Prop :=
  match evs with
  | [] => True
  | (Stamp t | Pop t) :: evs => now <= t < 2 ^ 64 /\ clock_ok t evs
  | Push :: evs => clock_ok now evs
  end.

#[local] Existing Instance kRing_ok.

(** The frame with number [k], stamped by [now]. *)
Definition stamped_by (now : Z) (k : Z) (f : SensorFrame) : Prop := sequence f = k /\ 0 <= timestamp_ns f <= now.

(** The frames in the ring are the ones after those the consumer got. *)
Record probe_ok (now : Z) (p : probe) : Prop := {
  po_ring : SpscRing.ring_ok kRing p.(ring);
  po_count : 0 <= p.(got) <= p.(next_seq) /\ p.(next_seq) <= target;
  po_length : Z.of_nat (length (SpscRing.contents kRing p.(ring))) = p.(next_seq) - p.(got);
  po_frames : forall i f, SpscRing.contents kRing p.(ring) !! i = Some f -> stamped_by now (p.(got) + Z.of_nat i) f;
  po_stamped : forall f, p.(stamped) = Some f -> stamped_by now p.(next_seq) f /\ p.(next_seq) < target;
  po_latencies : Z.of_nat (length p.(latencies)) = p.(got) /\
    Forall (fun x => exists d, 0 <= d <= now /\ x = d_of_Z d) p.(latencies)
}.

Lemma stamped_by_le now now' k f : now <= now' -> stamped_by now k f -> stamped_by now' k f.
Proof. intros Hn [H1 H2]. split; [done|lia]. Qed.

Lemma probe_ok_le now now' p : now <= now' -> probe_ok now p -> probe_ok now' p.
Proof.
  intros Hn [H1 H2 H3 H4 H5 [H6 H7]]. split; try done.
  - intros i f Hi. eapply stamped_by_le; [done|by apply H4].
  - intros f Hf. destruct (H5 f Hf) as [Ha Hb]. split; [by eapply stamped_by_le|done].
  - split; [done|]. eapply Forall_impl; [exact H7|]. intros x (d & Hd & Hx). exists d. split; [lia|done].
Qed.

Lemma push_ok now p f : target < 2 ^ 64 -> probe_ok now p -> stamped p = Some f ->
  exists p', probe_step Push p = Ok p' /\ probe_ok now p'.
Proof.
  intros Ht [H1 H2 H3 H4 H5 H6] Hf. unfold probe_step. rewrite Hf. destruct (H5 f Hf) as [Hs Hlt].
  destruct (SpscRing.try_push_spec kRing f (ring p) H1) as (r & -> & Hr & Hc). cbn [mbind outcome_bind fst snd].
  eexists. split; [done|]. destruct (_ =? kRing - 1); cbn [negb].
  - split; cbn; rewrite ?Hc; done.
  - rewrite (wrap_small 64) by (unfold is_uint; lia). split; cbn; rewrite ?Hc; try done; try lia.
    + rewrite length_app. cbn. lia.
    + intros i f' Hi. apply lookup_app_Some in Hi as [Hi|[Hge Hi]]; [by apply H4|].
      destruct (i - _)%nat as [|] eqn:E; [|done]. injection Hi as <-. destruct Hs as [Hs Hts]. split; [lia|done].
Qed.

Lemma pop_ok now t p : target < 2 ^ 64 -> probe_ok now p -> now <= t < 2 ^ 64 ->
  exists p', probe_step (Pop t) p = Ok p' /\ probe_ok t p' /\
    (got p < target -> SpscRing.contents kRing (ring p) <> [] -> got p' = got p + 1).
Proof.
  intros Ht Hp Hn. apply (probe_ok_le now t) in Hp as [H1 H2 H3 H4 H5 [H6 H7]]; [|lia]. cbn [probe_step].
  destruct (got p <? target) eqn:E; bool_to_prop; [|exists p; by split; [destruct (stamped p)|split; [split|lia]]].
  destruct (SpscRing.try_pop_spec kRing moved_from (ring p) H1) as (r & Hpop & Hr & Hc).
  enough (exists p',
    (res ← SpscRing.try_pop kRing moved_from p.(ring);
      match res.2 with
      | None => Ok (mkProbe res.1 p.(stamped) p.(next_seq) p.(got) p.(latencies))
      | Some out =>
        Ok (mkProbe res.1 p.(stamped) p.(next_seq) (u64 (p.(got) + 1))
              (p.(latencies) ++ [d_of_Z (u64 (u64 t - timestamp_ns out))]))
      end) = Ok p' /\ probe_ok t p' /\ (got p < target -> SpscRing.contents kRing (ring p) <> [] -> got p' = got p + 1))
    as (p' & Ep & Hok & Hg) by (exists p'; split; [destruct (stamped p); exact Ep|by split]).
  rewrite Hpop. cbn [mbind outcome_bind fst snd]. destruct (SpscRing.contents kRing (ring p)) as [|f l] eqn:Ec; cbn [head].
  - eexists. split; [done|]. split; [|done]. split; cbn; rewrite ?Hc; try done.
  - change (drop 1 (f :: l)) with l in Hc. cbn [length] in *. destruct (H4 0%nat f eq_refl) as [Hs Hts].
    rewrite (wrap_small 64 t), (wrap_small 64 (t - _)), (wrap_small 64 (got p + 1)) by (unfold is_uint; lia).
    eexists. split; [done|]. split; [|done]. split; cbn; rewrite ?Hc; try done; try lia.
    + intros i f' Hi. replace (got p + 1 + Z.of_nat i) with (got p + Z.of_nat (S i)) by lia. by apply (H4 (S i)).
    + rewrite length_app. cbn. split; [lia|]. apply Forall_app. split; [done|]. apply Forall_singleton. eexists. split; [|done]. lia.
Qed.

Lemma stamp_ok now t p : probe_ok now p -> 0 <= now <= t -> t < 2 ^ 64 ->
  exists p', probe_step (Stamp t) p = Ok p' /\ probe_ok t p' /\ ring p' = ring p /\ got p' = got p /\
    (next_seq p < target -> stamped p' <> None).
Proof.
  intros Hp Hn Ht. apply (probe_ok_le now t) in Hp as [H1 H2 H3 H4 H5 H6]; [|lia]. cbn [probe_step].
  destruct (stamped p) as [f|] eqn:Es; [exists p; rewrite Es; by split; [|split; [split|]]; rewrite ?Es|].
  destruct (next_seq p <? target) eqn:E; bool_to_prop; [|exists p; by split; [|split; [split|split; [|split; [|lia]]]]; rewrite ?Es].
  rewrite (wrap_small 64) by (unfold is_uint; lia). eexists. split; [done|]. split; [|done].
  split; cbn; try done. intros f [= <-]. split; [by split; [|cbn; lia]|done].
Qed.

Lemma probe_step_ok now ev p : target < 2 ^ 64 -> 0 <= now -> probe_ok now p -> clock_ok now [ev] ->
  exists p' now', probe_step ev p = Ok p' /\ probe_ok now' p' /\ now <= now' /\ forall evs, clock_ok now (ev :: evs) -> clock_ok now' evs.
Proof.
  intros Ht H0 Hp Hc. destruct ev as [t| |t]; cbn [clock_ok] in Hc.
  - destruct (stamp_ok now t p Hp) as (p' & E & H & _); [lia|lia|]. exists p', t. split; [done|]. split; [done|]. split; [lia|by intros evs []].
  - destruct (stamped p) as [f|] eqn:Es.
    + destruct (push_ok now p f Ht Hp Es) as (p' & E & H). exists p', now. split; [done|]. split; [done|]. split; [lia|done].
    + exists p, now. split; [unfold probe_step; by rewrite Es|]. split; [done|]. split; [lia|done].
  - destruct (pop_ok now t p Ht Hp) as (p' & E & H & _); [lia|]. exists p', t. split; [done|]. split; [done|]. split; [lia|by intros evs []].
Qed.

Lemma run_probe_ok now evs p : target < 2 ^ 64 -> 0 <= now -> probe_ok now p -> clock_ok now evs ->
  exists p' now', run_probe evs p = Ok p' /\ probe_ok now' p' /\ now <= now'.
Proof.
  intros Ht. revert now p. induction evs as [|ev evs IH]; intros now p H0 Hp Hc; [exists p, now; split; [done|split; [done|lia]]|].
  destruct (probe_step_ok now ev p Ht H0 Hp) as (p1 & now1 & E & H1 & Hle & Hevs); [by destruct ev; [split; [apply Hc|]| |split; [apply Hc|]]|].
  cbn [run_probe]. rewrite E. cbn [mbind outcome_bind].
  destruct (IH now1 p1) as (p' & now' & E' & H' & Hle'); [lia|done|by apply Hevs|]. exists p', now'. split; [done|split; [done|lia]].
Qed.

Lemma new_probe_ok now : 0 <= now -> 0 <= target -> probe_ok now new_probe.
Proof.
  intros Hn Ht. destruct (SpscRing.construct_ok kRing SensorFrame_default) as [H1 H2]. unfold new_probe.
  generalize dependent (SpscRing.construct kRing SensorFrame_default). intros r H1 H2.
  split; cbn; rewrite ?H2; try done; try lia.
Qed.

(** The probe is never stuck: a stamp, two pushes and a pop bring it on. *)
Lemma probe_moves now p : target < 2 ^ 64 -> 0 <= now < 2 ^ 64 -> probe_ok now p -> got p < target ->
  exists evs p', run_probe evs p = Ok p' /\ got p' = got p + 1.
Proof.
  intros Ht Hn Hp Hg. destruct (SpscRing.contents kRing (ring p)) as [|f l] eqn:Ec.
  - assert (next_seq p < target) as Hlt by (pose proof (po_length _ _ Hp) as H; rewrite Ec in H; cbn in H; lia).
    destruct (stamp_ok now now p Hp) as (p1 & E1 & H1 & Hr1 & Hg1 & Hs1); [lia|lia|].
    destruct (stamped p1) as [f|] eqn:Es; [|by destruct (Hs1 Hlt)].
    destruct (SpscRing.try_push_spec kRing f (ring p1) (po_ring _ _ H1)) as (r & Epush & Hr & Hc).
    rewrite Hr1, Ec in Epush, Hc. change (Z.of_nat (length []) =? kRing - 1) with false in *. cbn [negb app] in Epush, Hc.
    destruct (push_ok now p1 f Ht H1 Es) as (p2 & E2 & H2).
    assert (ring p2 = r /\ got p2 = got p) as [Hr2 Hg2].
    { unfold probe_step in E2. rewrite Es, Hr1, Epush in E2. cbn [mbind outcome_bind fst snd] in E2. injection E2 as <-. by split. }
    destruct (pop_ok now now p2 Ht H2) as (p3 & E3 & _ & Hg3); [lia|].
    exists [Stamp now; Push; Pop now], p3. cbn [run_probe]. rewrite E1. cbn [mbind outcome_bind]. rewrite E2.
    cbn [mbind outcome_bind]. rewrite E3. split; [done|]. rewrite Hg3, Hg2; [done|by rewrite Hg2|by rewrite Hr2, Hc].
  - destruct (pop_ok now now p Ht Hp) as (p' & E & _ & Hg'); [lia|]. exists [Pop now], p'. cbn [run_probe]. rewrite E.
    split; [done|]. apply Hg'; [done|by rewrite Ec].
Qed.

End Probe.

(** The line of the threaded probe, which has no rate, and [main] of
    [bench_main.cpp] after the threads of the probe have ended in [p]. *)
Definition probe_line (p : probe) : outcome LatencyStats := summary p.(got) p.(latencies) d_zero.

Definition bench_main (crc32c : list byte -> Z) (moved_from : SensorFrame -> SensorFrame) (clock : string -> nat -> Z)
    (p : probe) : outcome (list line) :=
  ring ← probe_ring clock;
  threaded ← probe_line p;
  frames ← bench_frame_latency crc32c clock;
  e2e ← bench_e2e_latency crc32c moved_from clock;
  Ok (bench_crc_throughput crc32c clock ++
      [Latency "spsc_ring_1kb" ring.2; Latency "spsc_prod2cons_1kb" threaded] ++ frames ++ e2e).

(** ** The UDP benchmark ([bench_udp_transport.cpp]) *)

Definition kPayload : nat := 1024.
Definition kIters : Z := 50000.
Definition kBuffer : nat := Z.to_nat 65536.

Record Stats := mkStats { u_p50_ns : double; u_p99_ns : double; u_msgs_per_sec : double }.

Definition summarize (s : list double) (total_s : double) : outcome Stats :=
  let s := stable_sort d_lt s in
  p50 ← pct (d_lit 1 2) s;
  p99 ← pct (d_lit 99 100) s;
  Ok {| u_p50_ns := p50; u_p99_ns := p99;
        u_msgs_per_sec := if d_lt d_zero total_s then d_div (d_of_Z (Z.of_nat (length s))) total_s else d_zero |}.

(** One turn of the echo server: what [recvfrom] stored, cut to the buffer,
    goes back to the sender; nothing after a time-out or an empty datagram. *)
Definition echo_turn {A} (received : option (list byte * A)) : list (list byte * A) :=
  match received with
  | Some (datagram, from) =>
    let stored := take kBuffer datagram in
    if (0 <? length stored)%nat then [(stored, from)] else []
  | None => []
  end.

(** The server runs until it is told to stop. *)
Definition echo_server {A} (turns : list (option (list byte * A))) : list (list byte * A) := concat (map echo_turn turns).

Section Udp.
Context (clock : nat -> Z).

(** The client over the sockets of Boost.Asio.  [answer i] is the datagram
    that the receive of iteration [i] gets; without one it waits for ever and
    the result is [None].  [in_] is the receive buffer. *)
Fixpoint asio_loop (answer : nat -> option (list byte)) (n i : nat) (lat : list double) (in_ : list byte) :
    option (list double * list byte) :=
  match n with
  | O => Some (lat, in_)
  | S n =>
    let a := clock (1 + 2 * i) in
    match answer i with
    | None => None
    | Some datagram =>
      let stored := take (length in_) datagram in
      let in_ := stored ++ drop (length stored) in_ in
      let b := clock (2 + 2 * i) in
      asio_loop answer n (S i) (lat ++ [nanos a b]) in_
    end
  end.

(** The client over io_uring: the result of the send and of the receive in
    the completion queue, which the loop does not look at.  A completion that
    does not come is waited for. *)
Fixpoint iouring_loop (sends receives : nat -> option Z) (n i : nat) (lat : list double) : option (list double) :=
  match n with
  | O => Some lat
  | S n =>
    let a := clock (1 + 2 * i) in
    match sends i with
    | None => None
    | Some _ =>
      match receives i with
      | None => None
      | Some _ => let b := clock (2 + 2 * i) in iouring_loop sends receives n (S i) (lat ++ [nanos a b])
      end
    end
  end.

(** [bench_asio] and [bench_iouring], up to the line they print. *)
Definition bench_asio (answer : nat -> option (list byte)) : option (outcome Stats) :=
  match asio_loop answer (Z.to_nat kIters) 0 [] (repeat Byte.x00 kBuffer) with
  | Some (lat, _) => Some (summarize lat (seconds (clock 0) (clock (1 + 2 * Z.to_nat kIters))))
  | None => None
  end.

Definition bench_iouring (sends receives : nat -> option Z) : option (outcome Stats) :=
  match iouring_loop sends receives (Z.to_nat kIters) 0 [] with
  | Some lat => Some (summarize lat (seconds (clock 0) (clock (1 + 2 * Z.to_nat kIters))))
  | None => None
  end.

(** Both loops end exactly when every receive does. *)
Lemma asio_loop_total answer n i lat in_ :
  (exists r, asio_loop answer n i lat in_ = Some r) <-> forall j, (i <= j < i + n)%nat -> answer j <> None.
Proof.
  revert i lat in_. induction n as [|n IH]; intros i lat in_; cbn [asio_loop].
  - split; [lia|]. by eexists.
  - destruct (answer i) as [d|] eqn:E.
    + rewrite IH. split; intros H j Hj; [|apply H; lia]. destruct (decide (j = i)) as [->|]; [congruence|apply H; lia].
    + split; [by intros []|]. intros H. by destruct (H i); [lia|].
Qed.

Lemma asio_loop_samples answer n i lat in_ l in_' :
  asio_loop answer n i lat in_ = Some (l, in_') -> length l = (length lat + n)%nat.
Proof.
  revert i lat in_. induction n as [|n IH]; intros i lat in_; cbn [asio_loop]; [intros [= <- <-]; lia|].
  destruct (answer i) as [d|]; [|done]. intros H. apply IH in H. rewrite length_app in H. cbn in H. lia.
Qed.

Lemma iouring_loop_total sends receives n i lat :
  (exists l, iouring_loop sends receives n i lat = Some l) <->
  forall j, (i <= j < i + n)%nat -> sends j <> None /\ receives j <> None.
Proof.
  revert i lat. induction n as [|n IH]; intros i lat; cbn [iouring_loop].
  - split; [lia|]. by eexists.
  - destruct (sends i) as [u|] eqn:E; [destruct (receives i) as [v|] eqn:E'|].
    + rewrite IH. split; intros H j Hj; [|apply H; lia]. destruct (decide (j = i)) as [->|]; [split; congruence|apply H; lia].
    + split; [by intros []|]. intros H. by destruct (H i) as [_ []]; [lia|].
    + split; [by intros []|]. intros H. by destruct (H i) as [[] _]; [lia|].
Qed.

Lemma summarize_ok l total_s : l <> [] -> Z.of_nat (length l) < 2 ^ 53 ->
  exists st, summarize l total_s = Ok st /\ u_p50_ns st ∈ l /\ u_p99_ns st ∈ l.
Proof.
  intros Hne Hl. destruct fractions as (F1 & F2 & _). unfold summarize.
  destruct (pct_sample _ l F1 Hne Hl) as (x1 & -> & H1), (pct_sample _ l F2 Hne Hl) as (x2 & -> & H2).
  cbn [mbind outcome_bind]. by eexists.
Qed.

(** The benchmark over Asio ends exactly when no datagram is lost. *)
Lemma bench_asio_ends answer :
  (exists st, bench_asio answer = Some (Ok st)) <-> forall j, (j < Z.to_nat kIters)%nat -> answer j <> None.
Proof.
  assert (0 < Z.of_nat (Z.to_nat kIters) < 2 ^ 53) as Hn by (unfold kIters; lia).
  unfold bench_asio. set (n := Z.to_nat kIters) in *. clearbody n. generalize (repeat Byte.x00 kBuffer). intros in_. split.
  - intros (st & E) j Hj. destruct (asio_loop answer n 0 [] in_) as [r|] eqn:El; [|done].
    apply (proj1 (asio_loop_total answer n 0 [] in_)); [by exists r|lia].
  - intros H. destruct (proj2 (asio_loop_total answer n 0 [] in_)) as [[l in'] El]; [intros j Hj; apply H; lia|].
    rewrite El. apply asio_loop_samples in El. cbn [length] in El.
    destruct (summarize_ok l (seconds (clock 0%nat) (clock (1 + 2 * n)%nat))) as (st & -> & _); [by intros ->; cbn in El; lia|lia|].
    by exists st.
Qed.

(** The one over io_uring ends whenever all operations complete, be it with
    an error. *)
Lemma bench_iouring_ends sends receives :
  bench_iouring sends receives <> None <->
  forall j, (j < Z.to_nat kIters)%nat -> sends j <> None /\ receives j <> None.
Proof.
  unfold bench_iouring. set (n := Z.to_nat kIters). clearbody n. split.
  - intros E j Hj. destruct (iouring_loop sends receives n 0 []) as [r|] eqn:El; [|done].
    apply (proj1 (iouring_loop_total sends receives n 0 [])); [by exists r|lia].
  - intros H. destruct (proj2 (iouring_loop_total sends receives n 0 [])) as [l El]; [intros j Hj; apply H; lia|]. by rewrite El.
Qed.

End Udp.

(** [main], over the two clocks; [None] where it does not end.  Without
    liburing the second line says that it is skipped. *)
Definition udp_main (clock clock' : nat -> Z) (answer : nat -> option (list byte)) (uring : option ((nat -> option Z) * (nat -> option Z))) :
    option (list (string * option (outcome Stats))) :=
  match bench_asio clock answer with
  | None => None
  | Some a =>
    match uring with
    | None => Some [("udp_asio_1kb", Some a); ("udp_iouring_1kb", None)]%string
    | Some (sends, receives) =>
      match bench_iouring clock' sends receives with
      | None => None
      | Some b => Some [("udp_asio_1kb", Some a); ("udp_iouring_1kb", Some b)]%string
      end
    end
  end.

(** A lost datagram is waited for, and the program does not end. *)
Lemma udp_main_waits clock clock' answer uring j :
  (j < Z.to_nat kIters)%nat -> answer j = None -> udp_main clock clock' answer uring = None.
Proof.
  unfold udp_main, bench_asio. set (n := Z.to_nat kIters). clearbody n. generalize (repeat Byte.x00 kBuffer).
  intros in_ Hj Ha. destruct (asio_loop clock answer n 0 [] in_) as [r|] eqn:El; [|done].
  destruct (proj1 (asio_loop_total clock answer n 0 [] in_) (ex_intro _ r El) j); [lia|done].
Qed.

(** ** Properties *)

Section Programs.
Context (crc32c : list byte -> Z) {Hck : Crc.Checksum crc32c} (moved_from : SensorFrame -> SensorFrame).
Context (clock : string -> nat -> Z).

(** The benchmarks measure what they say.  For every size, up to the
    payload limit, no operation of a probe fails however the clock runs: each
    encoded frame has 40 + n bytes, the last decoding of a probe (as all of
    them) reports no error, and every pass of the pipeline gets its frame back
    from the ring, which is empty again, and validates it; the percentiles
    are measured samples of exactly the iterations that are reported. *)
Theorem benchmarks_measure n : 0 <= n <= Frame.kMaxPayload ->
  (exists seq st, probe_encode crc32c clock n = Ok (seq, 40 + n, st) /\
    summarizes (samples_of clock ("frame_encode_" +:+ size_suffix n) (frame_iters n)) (frame_iters n) st) /\
  (exists h st, probe_decode crc32c clock n = Ok (h, error_code Frame.kOk, st) /\
    summarizes (samples_of clock ("frame_decode_" +:+ size_suffix n) (frame_iters n)) (frame_iters n) st) /\
  (exists ring seq st, probe_e2e crc32c moved_from clock n = Ok (ring, seq, 40 + n, st) /\
    SpscRing.contents kRing ring = [] /\
    summarizes (samples_of clock ("e2e_pipeline_" +:+ size_suffix n) (e2e_iters n)) (e2e_iters n) st).
Proof using Hck.
  intros Hn. split; [by apply probe_encode_ok|]. split; [by apply probe_decode_ok|by apply probe_e2e_ok].
Qed.

Lemma crc_names :
  map name_of (bench_crc_throughput crc32c clock) =
    ["crc32c_throughput_64b"; "crc32c_throughput_1kb"; "crc32c_throughput_64kb"]%string.
Proof using. unfold bench_crc_throughput. rewrite map_map. reflexivity. Qed.

(** The whole program, for a threaded probe that got frames. *)
Theorem benchmarks_report p : 0 < Z.of_nat (length (latencies p)) < 2 ^ 53 ->
  exists ls, bench_main crc32c moved_from clock p = Ok ls /\
    map name_of ls =
      ["crc32c_throughput_64b"; "crc32c_throughput_1kb"; "crc32c_throughput_64kb"; "spsc_ring_1kb"; "spsc_prod2cons_1kb";
       "frame_encode_64b"; "frame_decode_64b"; "frame_encode_1kb"; "frame_decode_1kb"; "frame_encode_64kb";
       "frame_decode_64kb"; "frame_encode_1mb"; "frame_decode_1mb"; "frame_encode_4mb"; "frame_decode_4mb";
       "e2e_pipeline_64b"; "e2e_pipeline_1kb"; "e2e_pipeline_64kb"; "e2e_pipeline_1mb"]%string.
Proof using Hck.
  intros Hp. destruct (probe_ring_ok clock) as (s & st1 & E1 & _).
  destruct (summary_ok (got p) (latencies p) d_zero) as (st2 & E2 & _); [intros E; rewrite E in Hp; cbn in Hp; lia|lia|].
  destruct (bench_frames_ok crc32c clock [64; 1024; 64 * 1024; 1024 * 1024; 4 * 1024 * 1024]) as (ls & E3 & Hls);
    [repeat (apply Forall_cons; split; [unfold Frame.kMaxPayload; lia|]); apply Forall_nil_2|].
  destruct (bench_e2e_ok crc32c moved_from clock [64; 1024; 64 * 1024; 1024 * 1024]) as (ls' & E4 & Hls');
    [repeat (apply Forall_cons; split; [unfold Frame.kMaxPayload; lia|]); apply Forall_nil_2|].
  pose proof (crc_names) as Hcrc. unfold bench_main, probe_line, bench_frame_latency, bench_e2e_latency in *.
  (* the programs do not matter any more, only what they returned *)
  revert E1 E2 E3 E4 Hcrc.
  generalize (probe_ring clock), (summary (got p) (latencies p) d_zero), (bench_crc_throughput crc32c clock),
    (bench_frames crc32c clock [64; 1024; 64 * 1024; 1024 * 1024; 4 * 1024 * 1024]),
    (bench_e2e crc32c moved_from clock [64; 1024; 64 * 1024; 1024 * 1024]).
  intros ? ? lc ? ? -> -> -> -> Hcrc. eexists. split; [reflexivity|]. rewrite !map_app, Hls, Hls', Hcrc. reflexivity.
Qed.

(** The threaded probe.  However the two threads are interleaved and whatever
    the clock reads, as long as it does not go back, nothing fails, no
    difference of times wraps around, and as long as the consumer waits for
    frames it can get the next one. *)
Theorem ring_probe_measures target evs : 0 <= target < 2 ^ 64 -> clock_ok 0 evs ->
  exists p now, run_probe moved_from target evs new_probe = Ok p /\ 0 <= got p <= target /\
    Z.of_nat (length (latencies p)) = got p /\ Forall (fun x => exists d, 0 <= d <= now /\ x = d_of_Z d) (latencies p) /\
    (now < 2 ^ 64 -> got p < target -> exists evs' p', run_probe moved_from target evs' p = Ok p' /\ got p' = got p + 1).
Proof.
  intros Ht Hc. destruct (run_probe_ok moved_from target 0 evs new_probe) as (p & now & E & Hp & Hle);
    [lia|done|apply new_probe_ok; lia|done|].
  pose proof Hp as [_ [H1 H2] _ _ _ [H3 H4]]. exists p, now. split; [done|]. split; [lia|]. split; [done|]. split; [done|].
  intros Hn Hg. apply (probe_moves moved_from target now); [lia|lia|done|done].
Qed.

End Programs.

(** ** The properties at concrete inputs *)

Lemma benchmarks_measure_witness :
  exists h st, probe_decode Crc.crc32c_portable (fun _ i => Z.of_nat i) 1024 = Ok (h, 0, st) /\
    iterations st = 200000.
Proof.
  destruct (benchmarks_measure Crc.crc32c_portable (fun f => f) (fun _ i => Z.of_nat i) 1024) as (_ & (h & st & E & Hst) & _);
    [split; discriminate|].
  exists h, st. split; [exact E|]. exact (su_iterations _ _ _ Hst).
Defined.

Lemma benchmarks_report_witness :
  exists ls, bench_main Crc.crc32c_portable (fun f => f) (fun _ i => Z.of_nat i)
    (mkProbe (SpscRing.construct kRing SensorFrame_default) None 1 1 [d_one]) = Ok ls /\ length ls = 19%nat.
Proof.
  destruct (benchmarks_report Crc.crc32c_portable (fun f => f) (fun _ i => Z.of_nat i)
    (mkProbe (SpscRing.construct kRing SensorFrame_default) None 1 1 [d_one])) as (ls & E & Hls); [split; reflexivity|].
  exists ls. split; [exact E|]. rewrite <- (length_map name_of ls), Hls. reflexivity.
Defined.

Lemma ring_probe_measures_witness :
  exists p, run_probe (fun f => f) 2 [Stamp 5; Pop 6; Push; Pop 9] new_probe = Ok p /\ 0 <= got p <= 2.
Proof.
  destruct (ring_probe_measures (fun f => f) 2 [Stamp 5; Pop 6; Push; Pop 9]) as (p & now & E & Hg & _);
    [split; [discriminate|reflexivity]|vm_compute; repeat split; discriminate|].
  exists p. split; [exact E|exact Hg].
Defined.

End Bench.
