(* ===== verification/UnitTests.v ===== *)
(** * The unit tests ([src/test/unit/])

    The checks of the GoogleTest suite, evaluated on the definitions of this
    library: a model that disagreed with the code on what the tests look at
    would fail here.  Test names are kept.  The inputs are those of the tests
    where they are written out; random payloads are bytes of a fixed
    sequence, the numbers of repetitions and the sizes are smaller, a file
    system is a map, a generator of the fault engine is a counter.  Of the
    tests that run two threads, and those of the sequence lock, the checks are
    proved of all executions under release/acquire memory. *)

From S2P Require Import RingWeak SeqlockWeak FrameCodec WalLog SpscRing Backpressure TcpReassembler Faults Scenario Evaluation Registry Report.
From Stdlib Require Import Ascii.
#[local] Open Scope Z_scope.

Module UnitTests.

(** Bytes without a short period. *)
Definition make_payload (n : nat) (seed : Z) : list byte :=
  map (fun i => let i := Z.of_nat i + seed in z2b ((i * i * 31 + i * 7 + 13) / 3 mod 256)) (seq 0 n).

(** A byte changed by an exclusive or. *)
Definition flip (i : nat) (mask : Z) (bs : list byte) : list byte :=
  take i bs ++ match drop i bs with b :: r => z2b (b2z b ^^^ mask) :: r | [] => [] end.

(** [s.find(needle) != npos]. *)
Definition found (needle s : string) : bool :=
  match String.index 0 needle s with Some _ => true | None => false end.

Definition is_ok (x : outcome bool) : bool := match x with Ok b => b | _ => false end.

(** ** test_crc32c.cpp *)

(** All paths of the selection at run time. *)
Definition crcs (data : list byte) : list Z :=
  map (fun t => Crc.crc32c Crc.soft_crc32_u8 Crc.soft_crc32_u64 t data)
    [Crc.X86 true; Crc.X86 false; Crc.ArmCrc; Crc.Portable].

Example Crc32c_KnownVectors :
  map crcs [[]; Crc.ascii_123456789; replicate 32 (z2b 0); replicate 32 (z2b 0xFF);
            map (fun i => z2b (Z.of_nat i)) (seq 0 32); map (fun i => z2b (31 - Z.of_nat i)) (seq 0 32)] =
  map (replicate 4) [0x00000000; 0xE3069283; 0x8A9136AA; 0x62A8AB43; 0x46DD794E; 0x113FDB5C].
Proof. vm_compute. reflexivity. Qed.

Abbreviation crc := Crc.crc32c_portable.

Example Crc32c_SingleBitFlipChangesCrc :
  let v := make_payload 40 2 in
  forallb (fun i => forallb (fun k => negb (crc (flip i (Z.shiftl 1 k) v) =? crc v)) [0; 1; 2; 3; 4; 5; 6; 7])
    (seq 0 40) = true.
Proof. vm_compute. reflexivity. Qed.

Example Crc32c_LengthSensitivity :
  forallb (fun n => let v := make_payload n 3 in negb (crc (v ++ [z2b 77]) =? crc v)) (seq 4 40) = true.
Proof. vm_compute. reflexivity. Qed.

(** ** test_frame_codec.cpp *)

Definition sensor_types : list Frame.SensorType := [Frame.kLidar; Frame.kCamera; Frame.kImu; Frame.kGps; Frame.kCan].

Definition frame_error (bs : list byte) : option Frame.FrameError :=
  match FrameCodec.decode_header crc (Some bs) Frame.FrameHeader_default with Ok r => Some r.1 | _ => None end.

Definition rejected (bs : list byte) : bool :=
  match frame_error bs with Some e => negb (bool_decide (e = Frame.kOk)) | None => false end.

Definition overhead : nat := Z.to_nat Frame.kFrameOverhead.

Definition round_trip (n : nat) (type : Frame.SensorType) (seq_ : Z) : bool :=
  let p := make_payload n type in
  let ts := u64 (seq_ * 1000 + 7) in
  is_ok (f ← FrameCodec.encode_frame crc type seq_ ts Frame.kFlagCompressed p;
         res ← FrameCodec.decode_header crc (Some f) Frame.FrameHeader_default;
         let h := res.2 in
         Ok ((length f =? overhead + n)%nat && bool_decide (res.1 = Frame.kOk) && (h.(Frame.magic) =? Frame.kMagic) &&
             (h.(Frame.version) =? Frame.kVersion) && (h.(Frame.sensor_type) =? type) &&
             (h.(Frame.flags) =? Frame.kFlagCompressed) && (h.(Frame.header_size) =? Frame.kHeaderSize) &&
             (h.(Frame.sequence) =? seq_) && (h.(Frame.timestamp_ns) =? ts) &&
             (h.(Frame.payload_size) =? Z.of_nat n) && bool_decide (drop overhead f = p))).

Example FrameRoundTrip_EncodesAndDecodes :
  forallb (fun n => forallb (fun t => forallb (round_trip n t) [0; 1; 1234567; 2 ^ 64 - 1]) sensor_types)
    [0; 64; 256]%nat = true.
Proof. vm_compute. reflexivity. Qed.

Definition frame (t : Frame.SensorType) (seq_ ts : Z) (p : list byte) : list byte :=
  match FrameCodec.encode_frame crc t seq_ ts Frame.kFlagNone p with Ok f => f | _ => [] end.

(** Every position instead of forty, and every length of a truncation. *)
Example FrameCorruption_Detected :
  let p := make_payload 64 42 in
  let f := frame Frame.kLidar 100 5000 p in
  forallb (fun i => rejected (flip i 0x40 f)) (seq 0 (length f)) = true /\
  forallb (fun k => rejected (take k f)) (seq 0 (length f)) = true /\
  frame_error (flip 0 0xFF f) = Some Frame.kBadMagic /\
  forallb (fun i => bool_decide (frame_error (flip (overhead + i) 0x01 f) = Some Frame.kPayloadCrcMismatch)) (seq 0 64) = true.
Proof. vm_compute. repeat split. Qed.

(** The results of one decoder. *)
Fixpoint decode_all (d : FrameCodec.FrameDecoder) (fs : list (list byte)) : list (option Frame.FrameError) :=
  match fs with
  | [] => []
  | f :: fs =>
    match FrameCodec.decode crc d (Some f) 0 Frame.FrameHeader_default with
    | Ok (e, _, d) => Some e :: decode_all d fs
    | _ => None :: decode_all d fs
    end
  end.

Example FrameCorruption_SeqRegression :
  let p := make_payload 64 42 in
  decode_all ∅ [frame Frame.kImu 500 9000 p; frame Frame.kImu 499 9001 p] =
  [Some Frame.kOk; Some Frame.kSequenceRegression].
Proof. vm_compute. reflexivity. Qed.

(** Of the two errors the test allows, the version check fires. *)
Example FrameValidation_RejectsBadVersionAndLength :
  let f := frame Frame.kGps 1 1 (make_payload 128 1) in
  frame_error (take 4 f ++ [z2b 0xFF; z2b 0xFF] ++ drop 6 f) = Some Frame.kUnsupportedVersion /\
  forallb (fun k => bool_decide (frame_error (take k f) = Some Frame.kTruncatedHeader)) (seq 0 overhead) = true.
Proof. vm_compute. repeat split. Qed.

Example FrameValidation_EmptyPayloadRoundTrips :
  map (fun t => frame_error (frame t 7 8 [])) sensor_types = replicate 5 (Some Frame.kOk).
Proof. vm_compute. reflexivity. Qed.

Example FrameValidation_MonotonicSequenceAndTimestampAccepted :
  decode_all ∅ (map (fun i => frame Frame.kCan (Z.of_nat i) (Z.of_nat i * 10) (make_payload 32 9)) (seq 1 50)) =
  replicate 50 (Some Frame.kOk).
Proof. vm_compute. reflexivity. Qed.

(** ** test_spsc_ring.cpp and test_backpressure.cpp *)

(** The results of pushes with a policy, and then of pops; an [int] is moved by copying. *)
Fixpoint pushes (cap : Z) (policy : Backpressure.BackpressurePolicy) (xs : list Z) (r : SpscRing.SPSCRing Z) :
    outcome (list (option Backpressure.PushResult) * SpscRing.SPSCRing Z) :=
  match xs with
  | [] => Ok ([], r)
  | x :: xs =>
    res ← Backpressure.apply_policy cap (fun x => x) [] r x policy;
    rest ← pushes cap policy xs res.1;
    Ok (res.2 :: rest.1, rest.2)
  end.

Fixpoint pops (cap : Z) (n : nat) (r : SpscRing.SPSCRing Z) : outcome (list (option Z) * SpscRing.SPSCRing Z) :=
  match n with
  | O => Ok ([], r)
  | S n =>
    res ← SpscRing.try_pop cap (fun x => x) r;
    rest ← pops cap n res.1;
    Ok (res.2 :: rest.1, rest.2)
  end.

Definition zs (n : nat) : list Z := map Z.of_nat (seq 0 n).

Example SpscRing_EmptyAndFull :
  SpscRing.empty_approx 8 (SpscRing.construct 8 0) = true /\ SpscRing.capacity 8 = 7 /\
  (fst <$> pops 8 1 (SpscRing.construct 8 0)) = Ok [None] /\
  (res ← pushes 8 Backpressure.kDropNewest (zs 7 ++ [999]) (SpscRing.construct 8 0);
   Ok (res.1, SpscRing.size_approx 8 res.2)) =
  Ok (replicate 7 (Some Backpressure.kEnqueued) ++ [Some Backpressure.kDroppedNewest], 7).
Proof. vm_compute. repeat split. Qed.

(** Rounds of [i mod 7 + 1] pushes, and pops until the ring is empty. *)
Fixpoint rounds (n : nat) (i next : Z) (r : SpscRing.SPSCRing Z) : outcome (list Z * Z) :=
  match n with
  | O => Ok ([], next)
  | S n =>
    let batch := map (fun k => next + Z.of_nat k) (seq 0 (Z.to_nat (i mod 7 + 1))) in
    res ← pushes 16 Backpressure.kDropNewest batch r;
    out ← pops 16 (length batch) res.2;
    rest ← rounds n (i + 1) (next + Z.of_nat (length batch)) out.2;
    Ok (omap id out.1 ++ rest.1, rest.2)
  end.

Example SpscRing_FifoOrderAndWraparound :
  rounds 70 0 0 (SpscRing.construct 16 0) = Ok (zs 280, 280).
Proof. vm_compute. reflexivity. Qed.

Example SpscRing_OverwriteOldestPolicyHelper :
  (res ← pushes 4 Backpressure.kDropNewest (zs 3 ++ [100]) (SpscRing.construct 4 0);
   f ← SpscRing.force_push_overwrite 4 100 res.2;
   out ← pops 4 4 f.1;
   Ok (res.1, f.2, out.1)) =
  Ok (replicate 3 (Some Backpressure.kEnqueued) ++ [Some Backpressure.kDroppedNewest], true,
      [Some 1; Some 2; Some 100; None]).
Proof. vm_compute. reflexivity. Qed.

Example Backpressure_DefaultPolicyMapping :
  map Backpressure.default_policy_for [Frame.kCamera; Frame.kLidar; Frame.kImu; Frame.kGps; Frame.kCan] =
  [Backpressure.kOverwriteOldest; Backpressure.kDropNewest; Backpressure.kBatchAccumulate;
   Backpressure.kDropNewest; Backpressure.kNeverDropBlock].
Proof. reflexivity. Qed.

(** Three items, then more with a policy, then a pop. *)
Definition when_full (policy : Backpressure.BackpressurePolicy) (xs : list Z) :
    outcome (list (option Backpressure.PushResult) * list (option Z)) :=
  res ← pushes 4 policy (zs 3 ++ xs) (SpscRing.construct 4 0);
  out ← pops 4 1 res.2;
  Ok (drop 3 res.1, out.1).

Example Backpressure_DropNewestWhenFull :
  when_full Backpressure.kDropNewest (replicate 50 999) = Ok (replicate 50 (Some Backpressure.kDroppedNewest), [Some 0]).
Proof. vm_compute. reflexivity. Qed.

Example Backpressure_OverwriteOldestWhenFull :
  when_full Backpressure.kOverwriteOldest [100] = Ok ([Some Backpressure.kOverwrote], [Some 1]).
Proof. vm_compute. reflexivity. Qed.

Example Backpressure_NeverDropBlockEnqueuesWhenSpace :
  (res ← pushes 8 Backpressure.kNeverDropBlock (zs 7) (SpscRing.construct 8 0);
   out ← pops 8 1 res.2;
   again ← pushes 8 Backpressure.kNeverDropBlock [42] out.2;
   Ok (res.1, out.1, again.1)) =
  Ok (replicate 7 (Some Backpressure.kEnqueued), [Some 0], [Some Backpressure.kEnqueued]).
Proof. vm_compute. reflexivity. Qed.

(** ** test_tcp_reassembler.cpp *)

Definition received (max_payload : Z) (chunks : list (list byte)) : outcome (list (list byte) * Z) :=
  res ← TcpReassembler.feed_chunks (TcpReassembler.construct max_payload) chunks;
  Ok (res.2, res.1.(TcpReassembler.resyncs_)).

Example TcpReassembler_SingleFrame :
  let p := map z2b [1; 2; 3; 4; 5] in
  received TcpReassembler.default_max_payload [TcpReassembler.packet p] = Ok ([p], 0).
Proof. vm_compute. reflexivity. Qed.

Fixpoint in_chunks (fuel n : nat) (l : list byte) : list (list byte) :=
  match fuel, l with
  | S fuel, _ :: _ => take n l :: in_chunks fuel n (drop n l)
  | _, _ => []
  end.

Example TcpReassembler_ManyFramesArbitraryFragmentation :
  let ps := map (fun i => replicate (1 + i mod 37) (z2b (Z.of_nat i))) (seq 0 60) in
  let stream := concat (map TcpReassembler.packet ps) in
  received TcpReassembler.default_max_payload (in_chunks (length stream) 3 stream) = Ok (ps, 0).
Proof. vm_compute. reflexivity. Qed.

Example TcpReassembler_ResyncsPastGarbage :
  let p := map z2b [7; 7; 7] in
  received TcpReassembler.default_max_payload [map z2b [0x00; 0x11; 0x22; 0x33; 0x44] ++ TcpReassembler.packet p] = Ok ([p], 0).
Proof. vm_compute. reflexivity. Qed.

Example TcpReassembler_OversizedLengthRejectedNoCrash :
  received 1024 [map z2b [0xAB; 0xCD; 0xFF; 0xFF; 0xFF; 0xFF; 1; 2; 3; 4]] = Ok ([], 1).
Proof. vm_compute. reflexivity. Qed.

(** ** test_wal.cpp *)

Definition record_error (bs : list byte) : option WalRecord.RecordError :=
  match WalRecord.decode_record crc (Some bs) WalRecord.RecordHeader_default with Ok r => Some r.1 | _ => None end.

Example RecordRoundTrip_EncodeDecode :
  forallb (fun n => forallb (fun q =>
      let p := make_payload n 7 in
      let ts := u64 (q * 3 + 1) in
      let rec := WalRecord.encode_record crc ts Frame.kLidar q p in
      is_ok (res ← WalRecord.decode_record crc (Some rec) WalRecord.RecordHeader_default;
             let h := res.2 in
             Ok (bool_decide (res.1 = WalRecord.kOk) && (Z.of_nat (length rec) =? WalRecord.kRecordOverhead + Z.of_nat n) &&
                 (h.(WalRecord.sequence) =? q) && (h.(WalRecord.payload_size) =? Z.of_nat n) &&
                 (h.(WalRecord.timestamp_ns) =? ts) &&
                 bool_decide (take n (drop (Z.to_nat WalRecord.kRecordHeaderSize) rec) = p))))
    [0; 999; 2 ^ 64 - 1]) [0; 64; 256]%nat = true.
Proof. vm_compute. reflexivity. Qed.

Example RecordCodec_CorruptionDetected :
  let rec := WalRecord.encode_record crc 5 Frame.kImu 5 (make_payload 64 3) in
  forallb (fun i => match record_error (flip i 0x80 rec) with
                    | Some e => negb (bool_decide (e = WalRecord.kOk)) | None => false end) (seq 0 (length rec)) = true.
Proof. vm_compute. reflexivity. Qed.

(** Records with the text [prefix], a number, [suffix]. *)
Definition text (prefix suffix : string) (i : nat) : list byte :=
  bytes_of_string (prefix +:+ dec_string (Z.of_nat i) +:+ suffix)%string.

Definition items (body : nat -> list byte) (type : Frame.SensorType) (n : nat) : list WalLog.item :=
  map (fun i => {| WalLog.it_timestamp := 1000 * Z.of_nat i; WalLog.it_type := type; WalLog.it_sequence := Z.of_nat i;
                   WalLog.it_payload := body i |}) (seq 0 n).

(** Written with segments of a size, changed on the disk, and loaded. *)
Definition log (segment_bytes : Z) (damage : list byte -> list byte) (its : list WalLog.item) :
    outcome (WalWriter.WalWriter * list bool * WalReader.WalReader) :=
  res ← WalLog.write_log crc segment_bytes its;
  let '(d, w, oks) := (res : WalWriter.directory * WalWriter.WalWriter * list bool) in
  let d := damage <$> d in
  r ← WalReader.load crc (fun _ => true) (fun _ => true) (Some (d, (map_to_list d).*1));
  Ok (w, oks, r).

Definition payloads (r : WalReader.WalReader) : list (list byte) := map WalReader.payload r.(WalReader.records_).

Example Wal_RoundTripWithRollover :
  let body := text "record-" "-payloaddata" in
  (res ← log 512 id (items body Frame.kGps 60);
   let '(w, oks, r) := (res : WalWriter.WalWriter * list bool * WalReader.WalReader) in
   Ok (oks, w.(WalWriter.records_written_), w.(WalWriter.current_segment_id_),
       r.(WalReader.stats_), payloads r)) =
  Ok (replicate 60 true, 60, 7,
      {| WalReader.records_ok := 60; WalReader.records_corrupt_skipped := 0; WalReader.bytes_skipped := 0;
         WalReader.segments_read := 7 |}, map body (seq 0 60)).
Proof. vm_compute. reflexivity. Qed.

Example Wal_DeterministicReplayDeliversAll :
  let its := items (fun i => [z2b (Z.of_nat i)]) Frame.kCan 50 in
  (res ← log (2 ^ 20) id its;
   evs ← WalReader.replay res.2 WalReader.kDeterministic d_one 0;
   Ok (map WalReader.payload (WalReader.delivered_of evs.1), evs.2)) =
  Ok (map WalLog.it_payload its, 50).
Proof. vm_compute. reflexivity. Qed.

(** Forty bytes in the middle of the segment are 0xFF. *)
Definition junk (bs : list byte) : list byte :=
  let n := (length bs / 2)%nat in take n bs ++ replicate 40 (z2b 0xFF) ++ drop (n + 40) bs.

(** Every record that survives is one that was written. *)
Example Wal_CorruptionRecovery :
  let body := text "r" "" in
  is_ok (res ← log (2 ^ 20) junk (items body Frame.kGps 60);
         let st := res.2.(WalReader.stats_) in
         Ok ((0 <? st.(WalReader.records_ok)) && (st.(WalReader.records_ok) <? 60) &&
             (1 <=? st.(WalReader.records_corrupt_skipped)) &&
             forallb (fun rr => bool_decide (rr.(WalReader.payload) =
                                             body (Z.to_nat rr.(WalReader.header).(WalRecord.sequence))))
               res.2.(WalReader.records_))) = true.
Proof. vm_compute. reflexivity. Qed.

(** ** test_fault_injection.cpp *)

Definition rule (k : Faults.FaultKind) (start dur : Z) : Faults.FaultRule :=
  Faults.mkFaultRule k "" (d_of_Z start) (d_of_Z dur) d_zero d_zero d_zero 4 1.

(** Forty milliseconds between two readings of the clock. *)
Definition clock (n : nat) : double := d_of_Z (40000000 * Z.of_nat n).

Fixpoint process_all (l : list (list byte * double * string)) (e : Faults.FaultEngine Z) : outcome (Faults.FaultEngine Z) :=
  match l with
  | [] => Ok e
  | (f, t, s) :: l => e ← Faults.process Faults.toy_real Faults.toy_int clock f t s e; process_all l e
  end.

(** What an engine with rules wrote and counted. *)
Definition injected (rules : list Faults.FaultRule) (l : list (list byte * double * string)) :
    outcome (list (list byte) * Faults.FaultStats) :=
  e ← process_all l (foldl (fun e r => Faults.add_rule r e) (Faults.construct true 0) rules);
  Ok (Faults.written e, Faults.stats e).

Definition bytes (v : Z) : list byte := replicate 16 (z2b v).
Definition sends (n : nat) (t : double) (s : string) : list (list byte * double * string) := replicate n (bytes 1, t, s).

Example FaultInjection_NoRulesForwardsEverything :
  (res ← injected [] (sends 100 d_one "imu"); Ok (length res.1, res.2)) = Ok (100%nat, Faults.mkFaultStats 100 0 0 0 0 0).
Proof. vm_compute. reflexivity. Qed.

Example FaultInjection_BurstLossDropsWithinWindowOnly :
  (res ← injected [rule Faults.kBurstLoss 5 2]
           (sends 100 (d_lit 49 10) "imu" ++ sends 100 (d_of_Z 6) "imu" ++ sends 100 (d_lit 71 10) "imu");
   Ok (length res.1, Faults.dropped res.2)) = Ok (200%nat, 100).
Proof. vm_compute. reflexivity. Qed.

Example FaultInjection_DropRateApproximate :
  let r := Faults.mkFaultRule Faults.kDrop "" d_zero (d_of_Z 100) d_zero (d_lit 1 2) d_zero 4 1 in
  (res ← injected [r] (sends 200 d_one "can"); Ok (Faults.dropped res.2)) = Ok 100.
Proof. vm_compute. reflexivity. Qed.

Example FaultInjection_DuplicateSendsTwice :
  (res ← injected [rule Faults.kDuplicate 0 100] (sends 50 d_one "gps"); Ok (length res.1, Faults.duplicated res.2)) =
  Ok (100%nat, 50).
Proof. vm_compute. reflexivity. Qed.

Example FaultInjection_CorruptChangesBytesButKeepsCount :
  (res ← injected [rule Faults.kCorrupt 0 100] (sends 20 d_one "lidar");
   Ok (length res.1, forallb (fun f => (length f =? 16)%nat && negb (bool_decide (f = bytes 1))) res.1,
       Faults.corrupted res.2)) = Ok (20%nat, true, 20).
Proof. vm_compute. reflexivity. Qed.

Example FaultInjection_ReorderSwapsAdjacent :
  (e ← process_all (map (fun v => (bytes v, d_one, "imu"%string)) [1; 2; 3; 4])
         (Faults.add_rule (rule Faults.kReorder 0 100) (Faults.construct true 0));
   Ok (option_map Faults.written (Faults.flush Faults.pop_min e))) = Ok (Some (map bytes [2; 1; 4; 3])).
Proof. vm_compute. reflexivity. Qed.

Example FaultInjection_DelayHoldsThenReleases :
  let r := Faults.mkFaultRule Faults.kDelay "" d_zero (d_of_Z 100) (d_of_Z 40) d_zero d_zero 4 1 in
  (e ← process_all (sends 1 d_one "imu") (Faults.add_rule r (Faults.construct true 0));
   later ← Faults.worker_step clock Faults.pop_min e;
   Ok (Faults.written e, option_map Faults.written later, Faults.delayed (Faults.stats e))) = Ok ([], Some [bytes 1], 1).
Proof. vm_compute. reflexivity. Qed.

Example FaultInjection_EcuDisconnectSuppresses :
  (res ← injected [rule Faults.kEcuDisconnect 0 10] (sends 100 (d_of_Z 5) "can"); Ok (res.1, Faults.dropped res.2)) = Ok ([], 100).
Proof. vm_compute. reflexivity. Qed.

Example FaultInjection_ProcessRestartFiresOnce :
  (e ← process_all (sends 50 (d_of_Z 3) "camera")
         (Faults.add_rule (rule Faults.kProcessRestart 2 3) (Faults.set_restart_hook true (Faults.construct true 0)));
   Ok (Faults.restarts e)) = Ok ["camera"%string].
Proof. vm_compute. reflexivity. Qed.

Example FaultInjection_StreamFilterScopesFault :
  let r := Faults.mkFaultRule Faults.kEcuDisconnect "imu" d_zero (d_of_Z 100) d_zero d_zero d_zero 4 1 in
  (res ← injected [r] (sends 10 d_one "imu" ++ sends 10 d_one "gps"); Ok (length res.1)) = Ok 10%nat.
Proof. vm_compute. reflexivity. Qed.

(** ** test_metrics.cpp *)

Example Registry_GaugeWithLabelRenders :
  let out := Registry.render (Registry.set_sensor_gauge "sensorforge_msgs_per_sec" "imu" (d_of_Z 200)
               (Registry.set_help "sensorforge_msgs_per_sec" "msgs/sec per sensor" [])) in
  found "# HELP sensorforge_msgs_per_sec msgs/sec per sensor" out = true /\
  found "# TYPE sensorforge_msgs_per_sec gauge" out = true /\
  found (Report.Q "sensorforge_msgs_per_sec{sensor='imu'} 200") out = true.
Proof. vm_compute. repeat split. Qed.

Example Registry_GaugeIsOverwrittenNotAccumulated :
  let out := Registry.render (Registry.set_sensor_gauge "g" "imu" (d_of_Z 5) (Registry.set_sensor_gauge "g" "imu" d_one [])) in
  found (Report.Q "g{sensor='imu'} 5") out = true /\
  found (Report.Q "g{sensor='imu'} 1" +:+ Registry.newline)%string out = false.
Proof. vm_compute. repeat split. Qed.

Example Registry_CounterAccumulates :
  let add := Registry.add_counter "sensorforge_crc_failures_total" in
  let out := Registry.render (add (d_of_Z 3) [] (add (d_of_Z 2) [] [])) in
  found "# TYPE sensorforge_crc_failures_total counter" out = true /\ found "sensorforge_crc_failures_total 5" out = true.
Proof. vm_compute. repeat split. Qed.

Example Registry_MultipleSensorSeries :
  let sensors := ["lidar"; "camera"; "imu"; "gps"; "can"]%string in
  let out := Registry.render (foldl (fun r s => Registry.set_sensor_gauge "sensorforge_latency_p99_ms" s (d_of_Z 10) r) [] sensors) in
  forallb (fun s => found (Report.Q "sensorforge_latency_p99_ms{sensor='" +:+ s +:+ Report.Q "'} 10")%string out) sensors = true.
Proof. vm_compute. reflexivity. Qed.

Example Registry_LabelValueEscaped :
  found (Report.Q "a\'b") (Registry.render (Registry.set_gauge "g" d_one [("path", Report.Q "a'b")]%string [])) = true.
Proof. vm_compute. reflexivity. Qed.

(** ** test_scenario.cpp *)

(** The YAML text of the test, as the nodes of [Scenario.doc]. *)
Definition full_scenario : Scenario.doc :=
  let Dict := Scenario.Dict in let Text := Scenario.Text in let Number x := Scenario.Number x in
  (Dict
    [("name", Text "delayed_imu"); ("duration_seconds", Number (d_of_Z 30));
     ("streams", Dict [("camera", Dict [("rate_hz", Number (d_of_Z 30))]); ("imu", Dict [("rate_hz", Number (d_of_Z 200))])]);
     ("faults", Scenario.Seq [Dict
       [("stream", Text "imu"); ("start_seconds", Number (d_of_Z 8)); ("duration_seconds", Number (d_of_Z 3));
        ("type", Text "delay"); ("params", Dict [("delay_ms", Number (d_of_Z 25))])]]);
     ("assertions", Scenario.Seq
       [Dict [("metric", Text "imu_latency_p99_ms"); ("operator", Text "less_than"); ("value", Number (d_of_Z 30))];
        Dict [("metric", Text "camera_drop_rate_pct"); ("operator", Text "less_than"); ("value", Number (d_lit 1 10))]])])%string.

Example ScenarioParser_ParsesFullScenario :
  (s ← Scenario.parse_node full_scenario;
   Ok (Scenario.name s, Scenario.scenario_duration s, map Scenario.stream_name (Scenario.streams s),
       map (fun f => (Scenario.type f, Scenario.stream f, Scenario.param f "delay_ms" d_zero)) (Scenario.faults s),
       map Scenario.op (Scenario.assertions s))) =
  Ok ("delayed_imu"%string, d_of_Z 30, ["camera"; "imu"]%string,
      [(Scenario.kDelay, "imu"%string, d_of_Z 25)], [Scenario.kLessThan; Scenario.kLessThan]).
Proof. vm_compute. reflexivity. Qed.

Example ScenarioParser_RejectsMalformed :
  let Dict := Scenario.Dict in let Text := Scenario.Text in let Number x := Scenario.Number x in
  map Scenario.parse_node
    [Dict [("duration_seconds", Number (d_of_Z 5))];
     Dict [("name", Text "x"); ("duration_seconds", Number d_zero)];
     Dict [("name", Text "x"); ("duration_seconds", Number d_one);
           ("assertions", Scenario.Seq [Dict [("metric", Text "m"); ("operator", Text "bogus"); ("value", Number d_one)]])]]%string =
  replicate 3 (Throws "std::runtime_error").
Proof. vm_compute. reflexivity. Qed.

Definition fault_names : list string :=
  ["delay"; "drop"; "corrupt"; "reorder"; "duplicate"; "burst_loss"; "bandwidth_limit"; "ecu_disconnect"; "process_restart"].

Example ScenarioParser_FaultTypeRoundTrip :
  map (fun n => Scenario.FaultType_to_string (Scenario.fault_type_from_string n)) fault_names = fault_names /\
  forallb (fun n => negb (bool_decide (Scenario.fault_type_from_string n = Scenario.kUnknown))) fault_names = true /\
  Scenario.fault_type_from_string "nonsense" = Scenario.kUnknown.
Proof. vm_compute. repeat split. Qed.

(** Values from 0 to 20 in steps of 0.5 against 10, with the comparison of halves of integers. *)
Definition evaluates (op : Scenario.CompareOp) (expected : Z -> bool) : bool :=
  forallb (fun i =>
      let i := Z.of_nat i in
      let a := Scenario.mkAssertion "x" op (d_of_Z 10) None in
      let r := Evaluation.evaluate a {["x"%string := d_lit i 2]} in
      Evaluation.found r && Bool.eqb (Evaluation.passed r) (expected i)) (seq 0 41).

Example AssertionOps_EvaluatesCorrectly :
  evaluates Scenario.kLessThan (fun i => i <? 20) = true /\ evaluates Scenario.kGreaterThan (fun i => 20 <? i) = true /\
  evaluates Scenario.kEquals (fun i => i =? 20) = true /\ evaluates Scenario.kNotEquals (fun i => negb (i =? 20)) = true.
Proof. vm_compute. repeat split. Qed.

Example Assertion_MissingMetricFails :
  let r := Evaluation.evaluate (Scenario.mkAssertion "absent" Scenario.kLessThan d_one None) ∅ in
  Evaluation.found r = false /\ Evaluation.passed r = false.
Proof. vm_compute. repeat split. Qed.

(** Both overloads of [StreamMetrics::record]. *)
Definition record (m : Evaluation.StreamMetrics) (x : double * option double) : Evaluation.StreamMetrics :=
  match x.2 with
  | Some arrival_s => Evaluation.record x.1 arrival_s false m
  | None => Evaluation.record_latency x.1 false m
  end.

(** The metrics a stream emits after some records. *)
Definition emitted (name : string) (rate duration : Z) (l : list (double * option double)) : Evaluation.MetricMap :=
  let m := Evaluation.new_metrics name (d_of_Z rate) (d_of_Z duration) in
  match Evaluation.emit (foldl record m l) ∅ with Ok mm => mm | _ => ∅ end.

Definition near (x y eps : double) : bool := d_le (d_abs (d_sub x y)) eps.
Definition get (mm : Evaluation.MetricMap) (k : string) : double := default d_zero (mm !! k).

Example StreamMetrics_DerivesPercentilesAndRates :
  let mm := emitted "imu" 200 1
    (map (fun i => (d_add d_one (d_mul (d_of_Z (Z.of_nat (i mod 50))) (d_lit 1 10)), None)) (seq 0 200)) in
  get mm "imu_received" = d_of_Z 200 /\ near (get mm "imu_msgs_per_sec") (d_of_Z 200) (d_lit 1 1000000) = true /\
  near (get mm "imu_drop_rate_pct") d_zero (d_lit 1 1000000) = true /\
  d_le (get mm "imu_latency_p50_ms") (get mm "imu_latency_p99_ms") = true /\ get mm "imu_sequence_gaps" = d_zero.
Proof. vm_compute. repeat split. Qed.

Example StreamMetrics_DropRateReflectsMissingMessages :
  near (get (emitted "camera" 30 10 (replicate 150 (d_of_Z 5, None))) "camera_drop_rate_pct") (d_of_Z 50) (d_lit 1 1000000) = true.
Proof. vm_compute. reflexivity. Qed.

Definition arrival (i : nat) : double * option double :=
  (d_one, Some (d_add (d_of_Z 4) (d_mul (d_of_Z (Z.of_nat i)) (d_lit 1 200)))).

Example StreamMetrics_SteadyStateWindowExcludesStartup :
  near (get (emitted "imu" 200 30 (map arrival (seq 0 201))) "imu_drop_rate_pct") d_zero (d_lit 1 2) = true.
Proof. vm_compute. reflexivity. Qed.

Example StreamMetrics_SteadyStateDetectsRealLoss :
  near (get (emitted "imu" 200 30 (map arrival (seq 0 100) ++ [(d_one, Some (d_of_Z 5))])) "imu_drop_rate_pct") (d_of_Z 50) (d_of_Z 2) = true.
Proof. vm_compute. reflexivity. Qed.

(** ** test_report.cpp *)

Definition sample (pass : bool) : outcome Report.ScenarioReport :=
  Report.build_report "now"
    (Evaluation.mkScenarioResult "delayed_imu" pass
       [Evaluation.mkAssertionResult "imu_latency_p99_ms" Scenario.kLessThan (d_of_Z 30) (d_lit 124 10) true pass])
    (<["imu_msgs_per_sec" := d_lit 2001 10]> (<["imu_drop_rate_pct" := d_zero]> (<["imu_latency_p99_ms" := d_lit 124 10]>
       (<["imu_received" := d_of_Z 6003]> {["camera_msgs_per_sec" := d_of_Z 30]}))))%string
    ["imu"; "camera"]%string (d_of_Z 30).

Fixpoint path (ks : list string) (j : Report.json) : option Report.json :=
  match ks with [] => Some j | k :: ks => match Report.field k j with Some j => path ks j | None => None end end.

Definition assertions_of (j : Report.json) : list Report.json :=
  match Report.field "assertions" j with Some (Report.JArray l) => l | _ => [] end.

Example Report_JsonSchemaMatchesSpec :
  (rep ← sample true;
   let j := Report.json_value rep in
   Ok (map (fun ks => path ks j)
         [["scenario"]; ["result"]; ["duration_seconds"]; ["metrics"; "per_sensor"; "imu"; "msgs_sec"];
          ["metrics"; "per_sensor"; "imu"; "latency_p99_ms"]; ["metrics"; "transport"; "crc_failures"]]%string,
       map (fun a => map (fun k => Report.field k a) ["metric"; "operator"; "threshold"; "actual"; "result"]%string)
         (assertions_of j))) =
  Ok (map Some [Report.JString "delayed_imu"; Report.JString "PASS"; Report.JFloat (d_of_Z 30);
                Report.JFloat (d_lit 2001 10); Report.JFloat (d_lit 124 10); Report.JUnsigned 0],
      [map Some [Report.JString "imu_latency_p99_ms"; Report.JString "less_than"; Report.JFloat (d_of_Z 30);
                 Report.JFloat (d_lit 124 10); Report.JString "PASS"]]).
Proof. vm_compute. reflexivity. Qed.

Example Report_FailResultReflected :
  (rep ← sample false;
   let j := Report.json_value rep in
   Ok (Report.field "result" j, map (Report.field "result") (assertions_of j))) =
  Ok (Some (Report.JString "FAIL"), [Some (Report.JString "FAIL")]).
Proof. vm_compute. reflexivity. Qed.

Example Report_HtmlIsSelfContained :
  (rep ← sample true; html ← Report.to_html rep;
   Ok (map (fun s => found s html)
         ["<!doctype html>"; "delayed_imu"; "imu_latency_p99_ms"; "http://"; "https://"; "<script"]%string)) =
  Ok [true; true; true; false; false; false].
Proof. vm_compute. reflexivity. Qed.

(** ** test_parallel.cpp *)

Example NamespaceManager_VendsUniqueNamespaces :
  let '(m, a) := Evaluation.next_namespace (Evaluation.new_manager "/scenario" 0) in
  let '(m, b) := Evaluation.next_namespace m in
  let '(m, c) := Evaluation.next_namespace m in
  [a; b; c] = ["/scenario_0"; "/scenario_1"; "/scenario_2"]%string /\ Evaluation.counter_ m = 3.
Proof. vm_compute. repeat split. Qed.

Example NamespaceManager_MetricsPorts :
  map (Evaluation.metrics_port (Evaluation.new_manager "/scenario" 0)) [0; 5] = [0; 0] /\
  map (Evaluation.metrics_port (Evaluation.new_manager "/scenario" 9090)) [0; 3] = [9090; 9093].
Proof. vm_compute. repeat split. Qed.

Definition mk (name : string) (pass : bool) (n_assert n_pass : nat) : Evaluation.ScenarioResult :=
  Evaluation.mkScenarioResult name pass
    (map (fun i => Evaluation.mkAssertionResult "" Scenario.kUnknownOp d_zero d_zero false (i <? n_pass)%nat) (seq 0 n_assert)).

Example Aggregate_CountsScenariosAndChecks :
  let agg := Evaluation.aggregate [mk "a" true 4 4; mk "b" false 4 2; mk "c" true 4 4] in
  agg = Evaluation.mkAggregateResult 3 2 1 12 10 [("a", true); ("b", false); ("c", true)]%string /\
  Evaluation.all_passed agg = false.
Proof. vm_compute. repeat split. Qed.

Example Aggregate_AllPassed :
  let agg := Evaluation.aggregate [mk "a" true 2 2; mk "b" true 3 3] in
  Evaluation.all_passed agg = true /\ Evaluation.total_assertions agg = 5 /\ Evaluation.assertions_passed agg = 5.
Proof. vm_compute. repeat split. Qed.

(** ** The tests with threads *)

#[local] Instance capacity_1024 : SpscRing.CapacityOk 1024.
Proof. constructor; [done|done|unfold is_uint; lia]. Qed.

(** [SpscRing.ConcurrentProducerConsumerNoLoss]: the producer pushes 0, 1, 2,
    ... as long as it likes; what the consumer has counted so far came in that
    order. *)

Lemma SpscRing_ConcurrentProducerConsumerNoLoss c n :
  RingWeak.reachable 1024 (fun x : Z => x) 0 c -> RingWeak.pushed c = zs n ->
  RingWeak.popped c = zs (length (RingWeak.popped c)).
Proof.
  intros Hc Hn. destruct (RingWeak.received_prefix 1024 (fun x : Z => x) 0 c Hc) as [[q Hq] _].
  rewrite Hn in Hq. unfold zs in *.
  assert (length (RingWeak.popped c) <= n)%nat as Hl.
  { apply (f_equal length) in Hq. rewrite length_map, length_seq, length_app in Hq. lia. }
  apply (f_equal (take (length (RingWeak.popped c)))) in Hq.
  rewrite take_app_length in Hq. rewrite <- Hq at 1. change (map ?f ?l) with (f <$> l).
  rewrite <- fmap_take. f_equal. rewrite take_seq. by rewrite Nat.min_l.
Qed.

(** [Config] of test_seqlock.cpp, as little-endian bytes, and its invariant:
    [guard] is the sum of the other two members. *)
Definition config_bytes (rate delay guard : Z) : list byte :=
  le_bytes 4 rate ++ le_bytes 4 delay ++ le_bytes 8 guard.
Definition guarded (bs : list byte) : Prop :=
  exists rate delay, bs = config_bytes rate delay (rate + delay).

(** [ConcurrentReadsAreConsistent]: if all stored values have the invariant,
    every load returns one that has it. *)
Lemma Seqlock_ConcurrentReadsAreConsistent v n c i r bs :
  SeqlockWeak.reachable v n c -> Z.of_nat (length (SeqlockWeak.versions c)) < 2 ^ 63 ->
  Forall guarded (SeqlockWeak.versions c) ->
  SeqlockWeak.readers c !! i = Some r -> SeqlockWeak.rpc r = SeqlockWeak.RDone bs -> guarded bs.
Proof.
  intros Hc Hn Hg Hr Hd. destruct (SeqlockWeak.finished_load v n c i r bs Hc Hn Hr Hd) as (k & Hk & _).
  rewrite Forall_lookup in Hg. by eapply Hg.
Qed.

(** [StoreLoadRoundTrip]: a load by a thread that knew of all stores, and
    during which there were no others, returns the last stored value. *)
Lemma Seqlock_StoreLoadRoundTrip v n c i r bs :
  SeqlockWeak.reachable v n c -> Z.of_nat (length (SeqlockWeak.versions c)) < 2 ^ 63 ->
  SeqlockWeak.readers c !! i = Some r -> SeqlockWeak.rpc r = SeqlockWeak.RDone bs ->
  length (SeqlockWeak.versions c) = S (SeqlockWeak.known r) -> last (SeqlockWeak.versions c) = Some bs.
Proof.
  intros Hc Hn Hr Hd Hl. destruct (SeqlockWeak.finished_load v n c i r bs Hc Hn Hr Hd) as (k & Hk & Hle).
  pose proof (lookup_lt_Some _ _ _ Hk). rewrite last_lookup, Hl. cbn [pred].
  by replace (SeqlockWeak.known r) with k by lia.
Qed.

(** [SequenceIsEvenWhenStable], for a thread that knows of all stores. *)
Lemma Seqlock_SequenceIsEvenWhenStable v n c k t s t' :
  SeqlockWeak.reachable v n c -> Z.of_nat (length (SeqlockWeak.versions c)) < 2 ^ 63 ->
  SeqlockWeak.wpc c = SeqlockWeak.WIdle ->
  (WeakMemory.cur (SeqlockWeak.wview c) SeqlockWeak.Seq <= WeakMemory.cur t SeqlockWeak.Seq)%nat ->
  WeakMemory.read WeakMemory.acquire SeqlockWeak.Seq k t (SeqlockWeak.mem c) = Some (s, t') -> s mod 2 = 0.
Proof.
  intros Hc Hn Hi Ht Hr. rewrite (SeqlockWeak.stable_counter v n c _ k t s t' Hc Hn Hi Ht Hr).
  rewrite Z.mul_comm. by apply Z.mod_mul.
Qed.

End UnitTests.
